(* ===== verification/_CoqProject ===== *)
-Q . S2P
Prelude.v
Hash.v
Partition.v
Record.v
BlobStore.v
Hamt.v
HamtNodeFacts.v
HamtFacts.v
HamtInsert.v
HamtBuild.v
HamtTotal.v
HamtCost.v
HamtWalkFacts.v
HamtWalk.v
Samples.v
HamtSpec.v
Similarity.v
SimilarityFacts.v
IsccStore.v
IsccStoreFacts.v
SimilaritySpec.v
Iscc.v
CidKey.v
CodesSpec.v
Anyhow.v
Index.v
IndexFacts.v
IndexOps.v
PointerDoc.v
PointerDocFacts.v
Daemon.v
Files.v
Gc.v
Api.v
Hoare.v
Publisher.v
Config.v
BulkLoad.v
PublisherInv.v
PublisherFacts.v
ApiFacts.v
PublisherSpec.v
ApiSpec.v
IsccReach.v
GcFacts.v
GcSpec.v
ApiEnv.v
Offline.v
BulkFacts.v
RestampFacts.v
IngestFacts.v
BulkSpec.v
Verify.v
VerifyFacts.v
VerifySpec.v
ConfigSpec.v
Viewer.v
ViewerFacts.v
ViewerSteps.v
ViewerInv.v
ViewerSpec.v
Storectl.v
StorectlFacts.v
StorectlSpec.v
Startup.v
Node.v
Client.v
StartupSpec.v
SystemSpec.v
