(* ===== verification/Prelude.v ===== *)
(** * A verified model of the content registry

    The repository is a content registry on iroh.  A daemon, [registryd],
    accepts records (a key, a JSON value) over HTTP, keeps them in a local
    index, and publishes them: every key belongs to one of a fixed number of
    partitions, a partition is a hash array mapped trie whose nodes are
    content-addressed blobs, and the roots of the tries are entries of one
    replicated document, the pointer document.  A second structure of blobs,
    the banded similarity index, is reached from the same document.  Readers,
    [storectl] and the viewer, hold a read ticket of the document, fetch the
    blobs they need from peers and check nothing but hashes.  This
    development models the five crates under [src/crates] and proves that
    what readers find is what was accepted, under concurrency, failures and
    the offline tools.

    ** The files

    This file holds the result type, the state-and-error monad [io], the
    relational invariants of programs ([steps_in], with the hint database
    [steps] and the tactic [steps]), bytes, strings, sorting by key and the
    class [Codec] of serialised types.  Then, in dependency order:

    - [Hash], [Partition], [Record], [BlobStore]: [registry-core/src/hash.rs],
      [partition.rs], [record.rs], [blobstore.rs] and
      [registry-node/src/blob_store.rs].  The trait of blob stores is the
      class [BlobStore]; [BlobStoreSpec], [LocalStore], [ReliableStore] are
      the promises clients use, proved of [MemoryBlobStore] and of
      [IrohBlobStore]; [Traced] adds the log of written blobs to a store.
    - [Hamt]: the operations of [registry-core/src/hamt.rs]; [HamtNodeFacts]
      (wire format), [HamtFacts] (the meaning [rep] of stored nodes, lookups,
      [VerifiedStore]: a reader's store that may hold or fetch any part of
      the blobs, proved of the in-memory and of the iroh store), [HamtInsert], [HamtBuild], [HamtTotal], [HamtCost],
      [HamtWalkFacts], [HamtWalk] (the concurrent walk as a step relation),
      [HamtSpec] (the properties).  [Samples] has small concrete instances of
      the third-party operations, on which all witnesses run.
    - [Similarity], [IsccStore]: [similarity.rs], [iscc_store.rs];
      [SimilarityFacts], [IsccStoreFacts], [IsccReach], [SimilaritySpec].
    - [Iscc], [CidKey]: [iscc.rs], [cidkey.rs]; [CodesSpec].
    - [Index]: the record index of [registryd/src/index.rs] (tables,
      transactions that may fail, the queue); [IndexFacts], [IndexOps].
    - [PointerDoc], [PointerDocFacts]: [registry-node/src/pointer_doc.rs].
    - [Daemon]: the state [World] the daemon's tasks share, and what happens
      at an await point.  [Files]: local text files and paths.
    - [Publisher], [PublisherInv], [PublisherFacts], [PublisherSpec]:
      [registryd/src/publisher.rs].  [Hoare] has the triples they use.
    - [Gc], [GcFacts], [GcSpec]: [registryd/src/gc.rs].
    - [Api], [ApiFacts], [ApiSpec], [ApiEnv]: [registryd/src/api.rs].
    - [Config], [ConfigSpec]: the three [config.rs].
    - [BulkLoad], [Offline], [BulkFacts], [RestampFacts], [IngestFacts],
      [BulkSpec]: [registryd/src/bulk_load.rs].
    - [Verify], [VerifyFacts], [VerifySpec]: [registryd/src/verify.rs].
    - [Viewer], [ViewerSteps] and [ViewerFacts], [ViewerInv], [ViewerSpec]:
      [registry-viewer/src/main.rs].
    - [Storectl], [StorectlFacts], [StorectlSpec], [Client]:
      [storectl/src/commands.rs] and [main.rs].
    - [SystemSpec]: the daemon and a reader together.
    - [Startup], [Node], [StartupSpec]: [registry-node/src/identity.rs] and
      [node.rs], [registryd/src/node_setup.rs] and [main.rs].

    ** How the code is modelled

    A Rust function that reads or writes shared state is a function from the
    state to a result and a new state, its [?] and [.await] sequenced by
    [io]; a struct is a record, an enum an inductive type, a [HashMap] or
    [BTreeMap] a [gmap] (with the iteration order an argument, where it
    shows), a string its UTF-8 bytes.  Integers of a fixed width are [N]
    with the wrap-around of [wrap64] where the code can reach it; a [usize]
    that counts things in memory is a [nat].  Panics are errors of their
    own.  Code outside the repository (BLAKE3, SHA-256, hex, Base32, JSON,
    the [cid] crate, redb, chrono, iroh) is a class; what the code relies on
    is a class of laws, proved of the instances of [Samples] and of the
    samples next to the theorems.  Collision resistance is asked of the
    blobs of the run at hand only ([CollisionFree]).

    Concurrency.  In the daemon a task runs between two await points without
    interruption; at each of them [w_env] may store values and claim
    batches, and [ApiEnv] shows that this is all the handlers do.  The index
    transaction and the single blob-store or document call are the atomic
    steps; the walk of one partition by the garbage collector is one step as
    well.  The viewer and the concurrent walk are step relations with one
    constructor per atomic stretch, and the theorems quantify over every
    interleaving.

    Failures.  Every call on a store, the index, a file or the document may
    fail at any time; the outcomes are in the state or are arguments, so the
    theorems hold for every pattern.  An error keeps the state changes made
    before it.

    Bounds and fuel.  A digest has 31 descent bytes, so 31 steps
    ([DESCENT_FUEL]) end every descent, and running out is the program's own
    [DepthExhausted] ([descent_fuel_enough]).  The recursive walkers take
    fuel and report its end; a published tree is at most 32 levels deep, and
    with [WALK_FUEL] the walkers return on a store that does not fail
    ([walkers_total]).  Loops that run until the process stops (the
    publisher, the seeder) take the list of their iterations.  Waits with a
    deadline take the number of polls before it.  The batch sizes of the
    index (2,000 and 10,000 rows) are the code's.

    ** What the theorems show

    - From end to end: what the API accepted and the publisher published is
      what a reader's [get] delivers, if it delivers anything
      ([accepted_is_delivered]); and once a cycle has succeeded it delivers
      it to every reader that has the blobs ([accepted_is_available]).  Both
      join the lemmas of the API, the publisher, the trie and the client.
    - The trie is a first-write-wins map: insertion, construction and lookup
      ([insert_batch_refines], [build_from_entries_refines],
      [lookup_correct]), never damage an older tree ([writes_keep_old_trees]),
      return ([insert_and_build_total], [descent_fuel_enough],
      [walkers_total]), cost a bounded number of writes
      ([insert_one_write_bound]); the walks are exact
      ([collect_reachable_exact], [walk_parallel_correct]).
    - The similarity index answers like a scan ([banded_query_exact],
      [iscc_query_exact], [iscc_insert_indexes], [similar_exact]).
    - The daemon loses nothing and publishes safely: [submit_record_durable],
      [submit_batch_answers], [run_publishes_safely],
      [publish_cycle_finishes], [gc_protects], with [handlers_are_env] the
      composition of the three; [writes_need_token]; [config_load_layers].
    - The offline tools: [bulk_load_visible], [retimestamp_republishes],
      [audit_exact].
    - The readers get what was published: [viewer_serves_trees],
      [get_delivers_published], [list_prints_trees]; and tickets stay valid
      over restarts: [restart_keeps_identity].
    - Codecs round-trip and validators accept exactly what they should:
      [CodesSpec], [node_roundtrip], [storage_keys_distinct].
    - Where the code does not do what its documentation says, the behaviour
      is a theorem: [degenerate_split_diverges],
      [gc_partial_walk_continues], [gc_index_root_as_value],
      [full_pass_trusts_cache], [bulk_duplicates_disagree].

    ** Not modelled

    Argument parsing, log lines, progress output of the daemon, measured
    durations, the HTML page, request parsing and serving by axum, signal
    handling, [.env] loading and the sleeps themselves are left out: they
    are library calls or have no effect on the state.  The tests in the
    source files are not part of the program.  The budget of a prefetch, its
    connections and stalled transfers are modelled; the pacing permits and
    the waits between the attempts of a read are not. *)

From stdpp Require Export prelude gmap strings list sorting.
From Stdlib Require Export NArith ZArith.
From Stdlib Require Export Strings.Byte.

#[global] Open Scope stdpp_scope.
#[global] Open Scope nat_scope.

(** ** Results and the state-and-error monad

    [Result<T, E>] is [result E T].  An [async fn] that reads or writes a
    shared object is a function from the object's state to a result and a
    new state; [.await] points are sequenced by the monad.  The state is
    kept on an error, as it is in the program. *)

Inductive result (E A : Type) : Type :=
| Ok (a : A)
| Err (e : E).
Arguments Ok {E A} a.
Arguments Err {E A} e.

Definition is_ok {A E} (r : result E A) : bool :=
  match r with Ok _ => true | Err _ => false end.

Definition result_ok {A E} (r : result E A) : option A :=
  match r with Ok a => Some a | Err _ => None end.

Definition result_map_err {A E F} (f : E → F) (r : result E A) : result F A :=
  match r with Ok a => Ok a | Err e => Err (f e) end.

Definition result_map {A B E} (f : A → B) (r : result E A) : result E B :=
  match r with Ok a => Ok (f a) | Err e => Err e end.

Definition ok_or {A E} (e : E) (o : option A) : result E A :=
  match o with Some a => Ok a | None => Err e end.

#[global] Instance result_ret E : MRet (result E) := λ A a, Ok a.
#[global] Instance result_bind E : MBind (result E) := λ A B f m,
  match m with Ok a => f a | Err e => Err e end.

Definition io (W E A : Type) : Type := W → result E A * W.

#[global] Instance io_ret W E : MRet (io W E) := λ A a w, (Ok a, w).
#[global] Instance io_bind W E : MBind (io W E) := λ A B f m w,
  match m w with
  | (Ok a, w') => f a w'
  | (Err e, w') => (Err e, w')
  end.

Definition io_err {W E A} (e : E) : io W E A := λ w, (Err e, w).
Definition io_lift {W E A} (r : result E A) : io W E A := λ w, (r, w).
Definition io_map_err {W E F A} (f : E → F) (m : io W E A) : io W F A :=
  λ w, match m w with (r, w') => (result_map_err f r, w') end.

(** [for x in xs { f(acc, x)?; }] threading an accumulator. *)
Fixpoint io_fold {W E A B} (f : A → B → io W E A) (a : A) (xs : list B) : io W E A :=
  match xs with
  | [] => mret a
  | x :: xs => a' ← f a x; io_fold f a' xs
  end.

(** [let _ = m;]: the error is dropped, the state change is kept. *)
Definition io_try {W E F A} (m : io W E A) : io W F (result E A) :=
  λ w, match m w with (r, w') => (Ok r, w') end.

Section io_lemmas.
Context {W E : Type}.

Lemma io_bind_ok {A B} (m : io W E A) (f : A → io W E B) w b w' :
  (m ≫= f) w = (Ok b, w') ↔
  ∃ a w1, m w = (Ok a, w1) ∧ f a w1 = (Ok b, w').
Proof.
  unfold mbind, io_bind. destruct (m w) as [[a|e] w1]; naive_solver.
Qed.

Lemma io_bind_err {A B} (m : io W E A) (f : A → io W E B) w e w' :
  (m ≫= f) w = (Err e, w') ↔
  m w = (Err e, w') ∨
  ∃ a w1, m w = (Ok a, w1) ∧ f a w1 = (Err e, w').
Proof.
  unfold mbind, io_bind. destruct (m w) as [[a|e'] w1]; naive_solver.
Qed.

Lemma io_bind_run {A B} (m : io W E A) (f : A → io W E B) w a w1 :
  m w = (Ok a, w1) → (m ≫= f) w = f a w1.
Proof. unfold mbind, io_bind. by intros ->. Qed.

Lemma io_bind_fail {A B} (m : io W E A) (f : A → io W E B) w e w1 :
  m w = (Err e, w1) → (m ≫= f) w = (Err e, w1).
Proof. unfold mbind, io_bind. by intros ->. Qed.

Lemma io_map_err_ok {F A} (g : E → F) (m : io W E A) w a w' :
  io_map_err g m w = (Ok a, w') ↔ m w = (Ok a, w').
Proof. unfold io_map_err. destruct (m w) as [[]]; naive_solver. Qed.

Lemma io_lift_ok {A} (r : result E A) w a w' :
  io_lift (W:=W) r w = (Ok a, w') ↔ r = Ok a ∧ w' = w.
Proof. unfold io_lift. naive_solver. Qed.

Lemma io_fold_app {A B} (f : A → B → io W E A) a xs ys :
  ∀ w, io_fold f a (xs ++ ys) w = (a' ← io_fold f a xs; io_fold f a' ys) w.
Proof.
  revert a. induction xs as [|x xs IH]; intros a w; simpl; [done|].
  unfold mbind, io_bind in *. destruct (f a x w) as [[a'|e] w']; [|done].
  apply IH.
Qed.
End io_lemmas.

(** A relation every step of a monadic program respects. *)
Section io_rel.
Context {W E : Type} (R : relation W) `{!PreOrder R}.

Definition steps_in {A} (m : io W E A) : Prop := ∀ w r w', m w = (r, w') → R w w'.

Lemma steps_in_ret {A} (a : A) : steps_in (mret a).
Proof. intros w r w' [= <- <-]. reflexivity. Qed.
Lemma steps_in_err {A} e : steps_in (@io_err W E A e).
Proof. intros w r w' [= <- <-]. reflexivity. Qed.
Lemma steps_in_lift {A} (r : result E A) : steps_in (io_lift r).
Proof. intros w r' w' [= <- <-]. reflexivity. Qed.
Lemma steps_in_bind {A B} (m : io W E A) (f : A → io W E B) :
  steps_in m → (∀ a, steps_in (f a)) → steps_in (m ≫= f).
Proof.
  intros Hm Hf w r w'. unfold mbind, io_bind.
  destruct (m w) as [[a|e] w1] eqn:Em.
  - intros Hr. transitivity w1; [by eapply Hm|by eapply Hf].
  - intros [= <- <-]. by eapply Hm.
Qed.
Lemma steps_in_fold {A B} (f : A → B → io W E A) a xs :
  (∀ a x, steps_in (f a x)) → steps_in (io_fold f a xs).
Proof.
  intros Hf. revert a. induction xs as [|x xs IH]; intros a; simpl.
  - apply steps_in_ret.
  - apply steps_in_bind; auto.
Qed.
End io_rel.

Lemma steps_in_map_err {W E F A} (R : relation W) (g : E → F) (m : io W E A) :
  steps_in R m → steps_in R (io_map_err g m).
Proof.
  intros Hm w r w'. unfold io_map_err. destruct (m w) as [r1 w1] eqn:Em.
  intros [= <- <-]. by eapply Hm.
Qed.

Lemma steps_in_try {W E F A} (R : relation W) (m : io W E A) :
  steps_in R m → steps_in R (@io_try W E F A m).
Proof.
  intros Hm w r w'. unfold io_try. destruct (m w) as [r1 w1] eqn:Em.
  intros [= <- <-]. by eapply Hm.
Qed.

Create HintDb steps.
#[export] Hint Resolve steps_in_ret steps_in_err steps_in_lift steps_in_bind
  steps_in_fold steps_in_map_err steps_in_try : steps.

(** Decompose a successful monadic run in the context. *)
Ltac run_inv :=
  repeat match goal with
  | H : (_ ≫= _) _ = (Ok _, _) |- _ =>
      let a := fresh "a" in let w := fresh "w" in let Hr := fresh "Hrun" in
      apply io_bind_ok in H as (a & w & Hr & H)
  | H : io_map_err _ _ _ = (Ok _, _) |- _ => apply io_map_err_ok in H
  | H : mret _ _ = (Ok _, _) |- _ => unfold mret, io_ret in H; simplify_eq
  | H : io_err _ _ = (Ok _, _) |- _ => discriminate H
  | H : io_lift _ _ = (Ok _, _) |- _ =>
      let Hw := fresh in apply io_lift_ok in H as [H Hw]; try subst
  end.

(** ** Bytes and strings *)

Abbreviation bytes := (list byte).

#[global] Instance byte_eq_dec : EqDecision byte := byte_eq_dec.
#[global] Program Instance byte_countable : Countable byte :=
  inj_countable to_N of_N _.
Next Obligation. apply of_to_N. Qed.

(** The 256 bytes in order; [byte_of_nat] is total, wrapping like [as u8]. *)
Definition byte_of_N (n : N) : byte := default x00 (of_N (n mod 256)).
Definition byte_idx (b : byte) : nat := N.to_nat (to_N b).

Lemma byte_idx_lt b : byte_idx b < 256.
Proof. unfold byte_idx. pose proof (to_N_bounded b). lia. Qed.

Lemma byte_idx_inj b1 b2 : byte_idx b1 = byte_idx b2 → b1 = b2.
Proof.
  unfold byte_idx. intros H%N2Nat.inj.
  pose proof (of_to_N b1) as H1. pose proof (of_to_N b2) as H2.
  rewrite H in H1. congruence.
Qed.

Lemma to_byte_of_N n : to_N (byte_of_N n) = (n mod 256)%N.
Proof.
  unfold byte_of_N. pose proof (N.mod_upper_bound n 256 ltac:(lia)).
  destruct (of_N (n mod 256)) eqn:E; simpl.
  - by apply to_of_N.
  - apply of_N_None_iff in E. lia.
Qed.

Lemma byte_of_to_N b : byte_of_N (to_N b) = b.
Proof.
  unfold byte_of_N. pose proof (to_N_bounded b).
  rewrite N.mod_small by lia. by rewrite of_to_N.
Qed.

(** [str.as_bytes()] and [String::from_utf8]: a string is its bytes. *)
Abbreviation str_bytes := String.list_byte_of_string.
Abbreviation str_of_bytes := String.string_of_list_byte.

Lemma str_of_bytes_of s : str_of_bytes (str_bytes s) = s.
Proof. apply String.string_of_list_byte_of_string. Qed.
Lemma str_bytes_of_bytes l : str_bytes (str_of_bytes l) = l.
Proof. apply String.list_byte_of_string_of_list_byte. Qed.
#[global] Instance str_bytes_inj : Inj (=) (=) str_bytes.
Proof. intros s1 s2 H. by rewrite <-(str_of_bytes_of s1), H, str_of_bytes_of. Qed.

Lemma str_bytes_app s t : str_bytes (s +:+ t) = str_bytes s ++ str_bytes t.
Proof.
  induction s as [|a s IH]; [done|].
  change (str_bytes (String a s +:+ t)) with (Ascii.byte_of_ascii a :: str_bytes (s +:+ t)).
  by rewrite IH.
Qed.

(** [[u8; 32]]: a 32-byte array. *)
Record bytes32 := Bytes32 {
  b32_list : list byte;
  b32_len : Is_true (length b32_list =? 32);
}.

Lemma b32_ext (x y : bytes32) : b32_list x = b32_list y → x = y.
Proof.
  destruct x as [l Hl], y as [l' Hl']. simpl. intros ->.
  f_equal. apply proof_irrel.
Qed.

Lemma b32_length (x : bytes32) : length (b32_list x) = 32.
Proof. destruct x as [l Hl]. simpl. by apply Is_true_true, Nat.eqb_eq in Hl. Qed.

#[global] Instance bytes32_eq_dec : EqDecision bytes32.
Proof.
  intros x y. destruct (decide (b32_list x = b32_list y)) as [H|H].
  - left. by apply b32_ext.
  - right. by intros ->.
Defined.

(** [<[u8; 32]>::try_from(slice).ok()] *)
Definition to_b32 (l : list byte) : option bytes32 :=
  match decide (Is_true (length l =? 32)) with
  | left H => Some (Bytes32 l H)
  | right _ => None
  end.

Lemma to_b32_Some l x : to_b32 l = Some x ↔ b32_list x = l.
Proof.
  unfold to_b32. case_decide as H.
  - split; [by intros [= <-]|]. intros Hx. f_equal. by apply b32_ext.
  - split; [done|]. intros <-. destruct H. apply b32_len.
Qed.

Lemma to_b32_list x : to_b32 (b32_list x) = Some x.
Proof. by apply to_b32_Some. Qed.

Lemma to_b32_None l : to_b32 l = None ↔ length l ≠ 32.
Proof.
  rewrite <-Nat.eqb_eq, <-Is_true_true. unfold to_b32. case_decide as H; naive_solver.
Qed.

#[global] Program Instance bytes32_countable : Countable bytes32 :=
  inj_countable b32_list to_b32 _.
Next Obligation. intros x. apply to_b32_list. Qed.

(** The first 32 bytes of a list, zero-padded (used to build concrete values). *)
Lemma pad32_len (l : list byte) :
  Is_true (length (take 32 (l ++ replicate 32 x00)) =? 32).
Proof.
  apply Is_true_true, Nat.eqb_eq.
  rewrite length_take, length_app, length_replicate. lia.
Qed.
Definition pad32 (l : list byte) : bytes32 :=
  Bytes32 (take 32 (l ++ replicate 32 x00)) (pad32_len l).

(** ** Fixed-width integers

    [u32], [u64] and [usize] values are [N]; operations that can leave the
    width wrap around, as a release build does. *)

Definition wrap32 (n : N) : N := (n mod 2 ^ 32)%N.
Definition wrap64 (n : N) : N := (n mod 2 ^ 64)%N.

Lemma wrap64_small n : (n < 2 ^ 64)%N → wrap64 n = n.
Proof. apply N.mod_small. Qed.
Lemma wrap32_small n : (n < 2 ^ 32)%N → wrap32 n = n.
Proof. apply N.mod_small. Qed.

(** ** Stable sort by a string key: [v.sort_by(|a, b| a.key.cmp(&b.key))] *)

Definition str_le (s1 s2 : string) : bool := String.leb s1 s2.

Section sort_by_key.
Context {A : Type} (key : A → string).

Fixpoint insert_by_key (x : A) (l : list A) : list A :=
  match l with
  | [] => [x]
  | y :: l' => if str_le (key x) (key y) then x :: y :: l' else y :: insert_by_key x l'
  end.

Fixpoint sort_by_key (l : list A) : list A :=
  match l with
  | [] => []
  | x :: l' => insert_by_key x (sort_by_key l')
  end.

Definition key_le (x y : A) : Prop := Is_true (str_le (key x) (key y)).
Definition key_sorted (l : list A) : Prop := StronglySorted key_le l.

#[local] Instance key_le_trans : Transitive key_le.
Proof. intros x y z. unfold key_le, str_le. apply String.le_po. Qed.

Lemma key_le_total x y : key_le x y ∨ key_le y x.
Proof.
  unfold key_le, str_le. rewrite !Is_true_true. apply String.leb_total.
Qed.

Lemma key_le_antisym x y : key_le x y → key_le y x → key x = key y.
Proof.
  unfold key_le, str_le. rewrite !Is_true_true. apply String.leb_antisym.
Qed.

Lemma insert_by_key_perm x l : insert_by_key x l ≡ₚ x :: l.
Proof.
  induction l as [|y l IH]; simpl; [done|]. case_match; [done|].
  rewrite IH. by constructor.
Qed.

Lemma sort_by_key_perm l : sort_by_key l ≡ₚ l.
Proof.
  induction l as [|x l IH]; simpl; [done|].
  rewrite insert_by_key_perm. by f_equiv.
Qed.

Lemma insert_by_key_sorted x l : key_sorted l → key_sorted (insert_by_key x l).
Proof.
  unfold key_sorted. induction l as [|y l IH]; simpl; intros Hl.
  { by repeat constructor. }
  apply StronglySorted_cons in Hl as [Hy Hl]. case_match eqn:E.
  - apply StronglySorted_cons; split; [|by apply StronglySorted_cons].
    assert (key_le x y) as Hxy by (unfold key_le; by rewrite E).
    constructor; [done|]. eapply Forall_impl; [exact Hy|].
    intros z ?. by etrans.
  - apply StronglySorted_cons; split; [|by apply IH].
    assert (key_le y x) as Hyx.
    { destruct (key_le_total x y) as [H|H]; [|done]. unfold key_le in H. by rewrite E in H. }
    rewrite insert_by_key_perm. by constructor.
Qed.

Lemma sort_by_key_sorted l : key_sorted (sort_by_key l).
Proof.
  induction l as [|x l IH]; simpl; [constructor|]. by apply insert_by_key_sorted.
Qed.

(** With distinct keys the sorted list depends only on the elements. *)
Lemma key_sorted_unique l1 l2 :
  NoDup (key <$> l1) → key_sorted l1 → key_sorted l2 → l1 ≡ₚ l2 → l1 = l2.
Proof.
  intros Hnd H1 H2 Hp. eapply StronglySorted_unique_strong; [|done..].
  intros x y Hx Hy Hxy Hyx.
  rewrite <-Hp in Hy. pose proof (key_le_antisym _ _ Hxy Hyx) as Hk.
  apply list_elem_of_lookup in Hx as [i Hi], Hy as [j Hj].
  assert (i = j) as ->; [|congruence].
  eapply (NoDup_lookup (key <$> l1)); [done| |];
    rewrite list_lookup_fmap; [by rewrite Hi|by rewrite Hj, Hk].
Qed.

Lemma sort_by_key_unique l1 l2 :
  NoDup (key <$> l1) → l1 ≡ₚ l2 → sort_by_key l1 = sort_by_key l2.
Proof.
  intros Hnd Hp. apply key_sorted_unique.
  - by rewrite sort_by_key_perm.
  - apply sort_by_key_sorted.
  - apply sort_by_key_sorted.
  - by rewrite !sort_by_key_perm.
Qed.

Lemma sort_by_key_id l : NoDup (key <$> l) → key_sorted l → sort_by_key l = l.
Proof.
  intros Hnd Hs. apply key_sorted_unique; [..|apply sort_by_key_perm].
  - by rewrite sort_by_key_perm.
  - apply sort_by_key_sorted.
  - done.
Qed.
End sort_by_key.

(** ** Splitting bytes on a separator: [bytes.split(|&b| b == sep)] *)

Fixpoint split_on (sep : byte) (l : list byte) : list (list byte) :=
  match l with
  | [] => [[]]
  | b :: l' =>
      if decide (b = sep) then [] :: split_on sep l'
      else match split_on sep l' with
           | [] => [[b]]
           | seg :: segs => (b :: seg) :: segs
           end
  end.

Lemma split_on_seg sep (seg rest : list byte) :
  sep ∉ seg → split_on sep (seg ++ sep :: rest) = seg :: split_on sep rest.
Proof.
  induction seg as [|b seg IH]; intros Hseg; simpl.
  - by rewrite decide_True.
  - rewrite decide_False by set_solver. rewrite IH by set_solver. done.
Qed.

(** ** List facts shared by the components *)

Section first_occurrence.
Context {A : Type} (key : A → string).

(** [entries.into_iter().find(|e| e.key == key)] *)
Definition find_key (k : string) (l : list A) : option A :=
  snd <$> list_find (λ e, key e = k) l.

Lemma find_key_Some k l e : find_key k l = Some e → e ∈ l ∧ key e = k.
Proof.
  unfold find_key. intros ([i x] & Hf & Hx)%fmap_Some. simpl in Hx. subst x.
  apply list_find_Some in Hf as (Hi & Hk & _).
  split; [|done]. by eapply list_elem_of_lookup_2.
Qed.

Lemma find_key_None k l : find_key k l = None ↔ k ∉ (key <$> l).
Proof.
  unfold find_key. rewrite fmap_None, list_find_None, Forall_forall.
  split.
  - intros H (e & -> & He)%list_elem_of_fmap. by apply (H e).
  - intros H e He Hk. apply H. subst. by apply list_elem_of_fmap_2.
Qed.

Lemma find_key_elem k l e :
  NoDup (key <$> l) → e ∈ l → key e = k → find_key k l = Some e.
Proof.
  intros Hnd He Hk. destruct (find_key k l) as [e'|] eqn:E.
  - apply find_key_Some in E as [He' Hk'].
    apply list_elem_of_lookup in He as [i Hi], He' as [j Hj].
    assert (i = j) as ->; [|congruence].
    eapply (NoDup_lookup (key <$> l)); [done| |];
      rewrite list_lookup_fmap; [by rewrite Hi|rewrite Hj; simpl; congruence].
  - apply find_key_None in E. destruct E. subst. by apply list_elem_of_fmap_2.
Qed.

Lemma find_key_iff k l e :
  NoDup (key <$> l) → find_key k l = Some e ↔ e ∈ l ∧ key e = k.
Proof.
  intros. split; [apply find_key_Some|]. intros []. by apply find_key_elem.
Qed.

Lemma find_key_perm k l1 l2 :
  NoDup (key <$> l1) → l1 ≡ₚ l2 → find_key k l1 = find_key k l2.
Proof.
  intros Hnd Hp. apply option_eq. intros e.
  rewrite !find_key_iff; [by rewrite Hp|by rewrite <-Hp|done].
Qed.

(** First occurrence of every key, in order. *)
Fixpoint dedup_first_aux (seen : gset string) (l : list A) : list A :=
  match l with
  | [] => []
  | e :: l' =>
      if decide (key e ∈ seen) then dedup_first_aux seen l'
      else e :: dedup_first_aux ({[key e]} ∪ seen) l'
  end.
Definition dedup_first (l : list A) : list A := dedup_first_aux ∅ l.

Lemma dedup_first_aux_keys seen l k :
  k ∈ (key <$> dedup_first_aux seen l) ↔ k ∈ (key <$> l) ∧ k ∉ seen.
Proof.
  revert seen. induction l as [|e l IH]; intros seen; simpl.
  { rewrite elem_of_nil. naive_solver. }
  case_decide; rewrite ?fmap_cons, ?elem_of_cons, ?IH; [naive_solver|].
  rewrite elem_of_union, elem_of_singleton.
  destruct (decide (k = key e)); naive_solver.
Qed.

Lemma dedup_first_aux_NoDup seen l : NoDup (key <$> dedup_first_aux seen l).
Proof.
  revert seen. induction l as [|e l IH]; intros seen; simpl; [constructor|].
  case_decide; [done|]. rewrite fmap_cons. constructor; [|done].
  rewrite dedup_first_aux_keys, elem_of_union, elem_of_singleton. tauto.
Qed.

Lemma dedup_first_NoDup l : NoDup (key <$> dedup_first l).
Proof. apply dedup_first_aux_NoDup. Qed.

Lemma find_key_cons k e l :
  find_key k (e :: l) = if decide (key e = k) then Some e else find_key k l.
Proof.
  unfold find_key. simpl. case_decide; [done|].
  destruct (list_find _ l) as [[]|]; done.
Qed.

Lemma dedup_first_aux_find seen l k :
  k ∉ seen → find_key k (dedup_first_aux seen l) = find_key k l.
Proof.
  revert seen. induction l as [|e l IH]; intros seen Hk; simpl; [done|].
  rewrite find_key_cons. case_decide as He.
  - rewrite decide_False by set_solver. by apply IH.
  - rewrite find_key_cons. case_decide; [done|]. apply IH. set_solver.
Qed.

Lemma dedup_first_aux_sub seen l e : e ∈ dedup_first_aux seen l → e ∈ l.
Proof.
  revert seen. induction l as [|x l IH]; intros seen; simpl; [done|].
  case_decide; [intros He; right; by eapply IH|].
  intros [->|He]%elem_of_cons; [by left|right; by eapply IH].
Qed.

Lemma dedup_first_sub l e : e ∈ dedup_first l → e ∈ l.
Proof. apply dedup_first_aux_sub. Qed.

Lemma dedup_first_find l k : find_key k (dedup_first l) = find_key k l.
Proof. apply dedup_first_aux_find. set_solver. Qed.
End first_occurrence.

Lemma concat_fmap_elem {A} (f : nat → list A) n x :
  x ∈ concat (f <$> seq 0 n) ↔ ∃ i, i < n ∧ x ∈ f i.
Proof.
  rewrite list_elem_of_In, in_concat. setoid_rewrite <-list_elem_of_In.
  split.
  - intros (l & (i & -> & Hi)%list_elem_of_fmap & Hx).
    apply elem_of_seq in Hi. exists i. split; [lia|done].
  - intros (i & Hi & Hx). exists (f i). split; [|done].
    apply list_elem_of_fmap_2, elem_of_seq. lia.
Qed.

(** Replacing one summand of a concatenation, up to permutation. *)
Lemma concat_fmap_update {A} (f g : nat → list A) n i x :
  i < n → g i ≡ₚ x ++ f i → (∀ j, j ≠ i → g j = f j) →
  concat (g <$> seq 0 n) ≡ₚ x ++ concat (f <$> seq 0 n).
Proof.
  intros Hi Hgi Hg. assert (n = i + S (n - S i)) as -> by lia.
  rewrite seq_app. simpl. rewrite !fmap_app, !concat_app. simpl.
  assert (∀ l : list nat, i ∉ l → g <$> l = f <$> l) as Heq.
  { intros l Hl. apply list_fmap_ext. intros j k Hk. apply Hg.
    intros ->. apply Hl. by eapply list_elem_of_lookup_2. }
  rewrite (Heq (seq 0 i)), (Heq (seq (S i) _)) by (rewrite elem_of_seq; lia).
  rewrite Hgi, <-(assoc_L (++)). apply Permutation_app_swap_app.
Qed.

(** ** Strings: prefixes and decimal numbers *)

(** [s.strip_prefix(p)] *)
Fixpoint strip_prefix (p s : string) : option string :=
  match p, s with
  | EmptyString, _ => Some s
  | String a p', String b s' => if decide (a = b) then strip_prefix p' s' else None
  | String _ _, EmptyString => None
  end.

Lemma strip_prefix_Some p s r : strip_prefix p s = Some r ↔ s = (p +:+ r)%stdpp.
Proof.
  revert s. induction p as [|a p IH]; intros s; simpl.
  - change (EmptyString +:+ r) with r. naive_solver.
  - change (String a p +:+ r) with (String a (p +:+ r)).
    destruct s as [|b s]; [done|]. case_decide as H; [subst; rewrite IH|]; naive_solver.
Qed.

Lemma strip_prefix_app p r : strip_prefix p (p +:+ r) = Some r.
Proof. by apply strip_prefix_Some. Qed.

(** Decimal digits of a number, most significant first; [fuel] bounds the
    number of digits. *)
Fixpoint dec_digits (fuel : nat) (n : N) : list N :=
  match fuel with
  | 0 => [n]
  | S fuel => if (n <? 10)%N then [n] else dec_digits fuel (n / 10) ++ [(n mod 10)%N]
  end.

(** Twenty digits are enough for every 64-bit value. *)
Definition dec_fuel : nat := 20.

Definition digit_byte (d : N) : byte := byte_of_N (48 + d).
Definition byte_digit (b : byte) : option N :=
  let n := to_N b in if ((48 <=? n) && (n <=? 57))%N%bool then Some (n - 48)%N else None.

Definition dec_value (ds : list N) : N := foldl (λ acc d, acc * 10 + d)%N 0%N ds.

(** [n.to_string()] *)
Definition dec_string (n : N) : string := str_of_bytes (digit_byte <$> dec_digits dec_fuel n).

(** [format!("{n:0w$}")] *)
Definition dec_padded (w : nat) (n : N) : string :=
  let ds := dec_digits dec_fuel n in
  str_of_bytes (digit_byte <$> (replicate (w - length ds) 0%N ++ ds)).

(** [s.parse::<u32>().ok()]: an optional plus sign, at least one digit, and a
    value that fits. *)
Definition parse_digits (l : list byte) : option N :=
  match l with
  | [] => None
  | _ => dec_value <$> mapM byte_digit l
  end.
Definition parse_u32 (s : string) : option N :=
  let l := str_bytes s in
  let l := match l with b :: l' => if decide (b = x2b) then l' else l | [] => [] end in
  v ← parse_digits l; if (v <? 2 ^ 32)%N then Some v else None.

Lemma digit_byte_digit d : (d < 10)%N → byte_digit (digit_byte d) = Some d.
Proof.
  intros Hd. unfold byte_digit, digit_byte. rewrite to_byte_of_N, N.mod_small by lia.
  rewrite (proj2 (N.leb_le _ _)), (proj2 (N.leb_le _ _)) by lia. simpl. f_equal. lia.
Qed.

Lemma dec_digits_lt fuel n : (n < 10 ^ N.of_nat (S fuel))%N → Forall (λ d, d < 10)%N (dec_digits fuel n).
Proof.
  revert n. induction fuel as [|fuel IH]; intros n Hn; simpl.
  { constructor; [|done]. exact Hn. }
  case_match eqn:E.
  - apply N.ltb_lt in E. by repeat constructor.
  - apply Forall_app. split.
    + apply IH. rewrite (Nat2N.inj_succ (S fuel)), N.pow_succ_r' in Hn.
      apply N.Div0.div_lt_upper_bound. lia.
    + repeat constructor. apply N.mod_upper_bound. lia.
Qed.

Lemma dec_digits_value fuel n : dec_value (dec_digits fuel n) = n.
Proof.
  revert n. induction fuel as [|fuel IH]; intros n; simpl.
  { unfold dec_value. simpl. lia. }
  case_match; unfold dec_value in *; simpl; [lia|].
  rewrite foldl_app, IH. simpl. pose proof (N.div_mod n 10 ltac:(lia)). lia.
Qed.

Lemma dec_digits_nonnil fuel n : dec_digits fuel n ≠ [].
Proof. destruct fuel; simpl; [done|]. case_match; [done|]. by intros []%app_nil. Qed.

Lemma dec_value_replicate0 k ds : dec_value (replicate k 0%N ++ ds) = dec_value ds.
Proof.
  unfold dec_value. rewrite foldl_app. f_equal.
  induction k as [|k IH]; simpl; [done|]. exact IH.
Qed.

Lemma parse_digits_of ds :
  Forall (λ d, d < 10)%N ds → ds ≠ [] → parse_digits (digit_byte <$> ds) = Some (dec_value ds).
Proof.
  intros Hds Hne. unfold parse_digits.
  assert (mapM byte_digit (digit_byte <$> ds) = Some ds) as ->.
  { clear Hne.
    induction Hds as [|d ds Hd _ IH]; [done|].
    rewrite fmap_cons. simpl. rewrite digit_byte_digit by done. simpl. by rewrite IH. }
  destruct ds; [done|]. done.
Qed.

Lemma parse_u32_padded w n : (n < 2 ^ 32)%N → parse_u32 (dec_padded w n) = Some n.
Proof.
  intros Hn. unfold parse_u32, dec_padded. rewrite str_bytes_of_bytes.
  set (ds := replicate _ _ ++ _).
  assert (Forall (λ d, d < 10)%N ds) as Hds.
  { apply Forall_app. split; [by apply Forall_replicate|].
    apply dec_digits_lt. unfold dec_fuel. simpl. lia. }
  assert (ds ≠ []) as Hne.
  { unfold ds. intros [_ H]%app_nil. by apply dec_digits_nonnil in H. }
  assert (dec_value ds = n) as Hv.
  { unfold ds. by rewrite dec_value_replicate0, dec_digits_value. }
  destruct ds as [|d ds']; [done|]. rewrite fmap_cons.
  rewrite decide_False; last first.
  { inversion Hds as [|? ? Hd]; subst. intros Hx.
    pose proof (digit_byte_digit d Hd) as Hb. rewrite Hx in Hb. discriminate. }
  rewrite <-(fmap_cons digit_byte), parse_digits_of by done. simpl.
  change (foldl _ 0%N (d :: ds')) with (dec_value (d :: ds')).
  rewrite Hv. by rewrite (proj2 (N.ltb_lt _ _)).
Qed.

(** ** Serialisation of third-party formats

    [serde_json::to_vec] and [serde_json::from_slice] at a type, and the law
    a derived [Serialize]/[Deserialize] pair documents: what was written
    reads back, and what is read is a value of the type.  [codec_dom] is the set of values of the Rust type (its
    integers are bounded, those of the model are not). *)

Class Codec (A : Type) := {
  ser : A → list byte;
  de : list byte → result string A;
}.

Class CodecLaws (A : Type) `{!Codec A} (dom : A → Prop) := {
  de_ser a : dom a → de (ser a) = Ok a;
  de_dom b a : de b = Ok a → dom a;
}.

(** ** Loops over lists in the monad *)

(** [for x in xs { out.push(f(x)?) }] *)
Fixpoint io_mapM {W E A B} (f : A → io W E B) (xs : list A) : io W E (list B) :=
  match xs with
  | [] => mret []
  | x :: xs => y ← f x; ys ← io_mapM f xs; mret (y :: ys)
  end.

Lemma steps_in_mapM {W E A B} (R : relation W) `{!PreOrder R} (f : A → io W E B) xs :
  (∀ x, steps_in R (f x)) → steps_in R (io_mapM f xs).
Proof.
  intros Hf. induction xs as [|x xs IH]; simpl; [by apply steps_in_ret|].
  apply steps_in_bind; [done|done|]. intros y. apply steps_in_bind; [done|done|].
  intros ys. by apply steps_in_ret.
Qed.
#[export] Hint Resolve steps_in_mapM : steps.

(** Reduce [steps_in R m] along the structure of the program [m] and close
    the calls it makes with the lemmas of the database. *)
Ltac steps_step :=
  match goal with
  | |- steps_in _ (mret _) => apply steps_in_ret; apply _
  | |- steps_in _ (io_err _) => apply steps_in_err; apply _
  | |- steps_in _ (io_lift _) => apply steps_in_lift; apply _
  | |- steps_in _ (_ ≫= _) => apply steps_in_bind; [apply _| |intros ?]
  | |- steps_in _ (io_map_err _ _) => apply steps_in_map_err
  | |- steps_in _ (io_try _) => apply steps_in_try
  | |- steps_in _ (io_mapM _ _) => apply steps_in_mapM; [apply _|intros ?]
  | |- steps_in _ (io_fold _ _ _) => apply steps_in_fold; [apply _|intros ? ?]
  | |- steps_in _ (if ?b then _ else _) => destruct b
  | |- steps_in _ (match ?x with _ => _ end) => destruct x
  end.
Ltac steps :=
  repeat steps_step; try done; try (typeclasses eauto with steps typeclass_instances).

(** A program over one component of a larger state. *)
Definition on_fst {W V E A} (m : io W E A) : io (W * V) E A :=
  λ '(w, v), match m w with (r, w') => (r, (w', v)) end.

Definition on_snd {W V E A} (m : io V E A) : io (W * V) E A :=
  λ '(w, v), match m v with (r, v') => (r, (w, v')) end.

Lemma on_fst_run {W V E A} (m : io W E A) (w : W) (v : V) r s' :
  on_fst m (w, v) = (r, s') → ∃ w', m w = (r, w') ∧ s' = (w', v).
Proof. simpl. destruct (m w) as [r1 w1]. intros [= <- <-]. eauto. Qed.

Lemma on_snd_run {W V E A} (m : io V E A) (w : W) (v : V) r s' :
  on_snd m (w, v) = (r, s') → ∃ v', m v = (r, v') ∧ s' = (w, v').
Proof. simpl. destruct (m v) as [r1 v1]. intros [= <- <-]. eauto. Qed.

Definition modify {W E} (f : W → W) : io W E unit := λ w, (Ok tt, f w).

(** An error of the program, or the end of a recursion's fuel. *)
Inductive fault (E : Type) := Raised (e : E) | OutOfFuel.
Arguments Raised {E} e.
Arguments OutOfFuel {E}.

(** What a successful [io_mapM] did at each element, with the states around
    it related to the first and the last state. *)
Lemma io_mapM_ok {W E A B} (R : relation W) `{!PreOrder R} (f : A → io W E B) xs w ys w' :
  (∀ x, steps_in R (f x)) →
  io_mapM f xs w = (Ok ys, w') →
  length ys = length xs ∧ R w w' ∧
  ∀ i x, xs !! i = Some x →
    ∃ y wi wi', ys !! i = Some y ∧ f x wi = (Ok y, wi') ∧ R w wi ∧ R wi wi' ∧ R wi' w'.
Proof.
  intros Hf. revert w ys. induction xs as [|x xs IH]; intros w ys; simpl.
  { intros Hr. run_inv. split; [done|]. split; [done|]. intros i x. by rewrite lookup_nil. }
  intros Hr. run_inv. rename Hrun into Hx. rename Hrun0 into Hxs.
  apply IH in Hxs as (Hlen & HR & Hall).
  pose proof (Hf _ _ _ _ Hx) as HRx.
  split; [simpl; by rewrite Hlen|]. split; [by etrans|].
  intros [|i] x'; simpl.
  - intros [= <-]. eexists _, _, _. by split_and!.
  - intros (y & wi & wi' & Hy & Hfx & HR1 & HR2 & HR3)%Hall.
    exists y, wi, wi'. split_and!; try done. by etrans.
Qed.

(** Finitely many choices make a list. *)
Lemma finite_choice {B} (P : nat → B → Prop) n :
  (∀ i, i < n → ∃ y, P i y) →
  ∃ ys : list B, length ys = n ∧ ∀ i y, ys !! i = Some y → P i y.
Proof.
  induction n as [|n IH]; intros H.
  { exists []. split; [done|]. intros i y. by rewrite lookup_nil. }
  destruct IH as (ys & Hlen & Hys); [intros i Hi; apply H; lia|].
  destruct (H n ltac:(lia)) as [y Hy].
  exists (ys ++ [y]). split; [rewrite length_app; simpl; lia|].
  intros i y'. rewrite lookup_app. destruct (ys !! i) as [z|] eqn:E.
  - intros [= <-]. by apply Hys.
  - apply lookup_ge_None in E. intros Hi. apply list_lookup_singleton_Some in Hi as [Hi <-].
    assert (i = n) as -> by lia. done.
Qed.

Lemma prefix_of_snoc {A} (p l : list A) i :
  p ++ [i] `prefix_of` l ↔ p `prefix_of` l ∧ l !! length p = Some i.
Proof.
  split.
  - intros [k ->]. rewrite <-(assoc_L (++)). split; [by eexists|].
    by rewrite lookup_app_r, Nat.sub_diag.
  - intros [[k ->] Hl]. rewrite lookup_app_r, Nat.sub_diag in Hl by lia.
    destruct k as [|x k]; [done|]. injection Hl as ->.
    exists k. by rewrite <-(assoc_L (++)).
Qed.

Lemma key_sorted_filter {A} (key : A → string) (P : A → Prop) `{∀ x, Decision (P x)} l :
  key_sorted key l → key_sorted key (filter P l).
Proof.
  unfold key_sorted. induction l as [|x l IH]; [done|].
  intros [Hx Hl]%StronglySorted_cons. rewrite filter_cons. case_decide; [|by apply IH].
  apply StronglySorted_cons. split; [|by apply IH].
  apply Forall_forall. intros y [_ Hy]%list_elem_of_filter. by eapply Forall_forall in Hx.
Qed.

Lemma NoDup_fmap_filter {A B} (f : A → B) (P : A → Prop) `{∀ x, Decision (P x)} l :
  NoDup (f <$> l) → NoDup (f <$> filter P l).
Proof.
  induction l as [|x l IH]; [done|]. rewrite fmap_cons. intros [Hx Hl]%NoDup_cons.
  rewrite filter_cons. case_decide; [|by apply IH]. rewrite fmap_cons.
  apply NoDup_cons. split; [|by apply IH].
  intros (y & Hy & [_ Hin]%list_elem_of_filter)%list_elem_of_fmap.
  apply Hx. rewrite Hy. by apply list_elem_of_fmap_2.
Qed.

Lemma concat_fmap_perm {A} (f g : nat → list A) l :
  (∀ i, i ∈ l → f i ≡ₚ g i) → concat (f <$> l) ≡ₚ concat (g <$> l).
Proof.
  induction l as [|i l IH]; intros H; [done|]. rewrite !fmap_cons. simpl.
  rewrite (H i), IH; [done| |set_solver]. intros j Hj. apply H. set_solver.
Qed.

Lemma concat_fmap_fmap {A B C} (h : B → C) (f : A → list B) l :
  concat ((λ i, h <$> f i) <$> l) = h <$> concat (f <$> l).
Proof. induction l as [|i l IH]; [done|]. rewrite !fmap_cons. simpl. by rewrite fmap_app, IH. Qed.

Lemma elem_of_insert_inv {A} (l : list A) i x y : x ∈ <[i := y]> l → x = y ∨ x ∈ l.
Proof.
  intros (j & Hj)%list_elem_of_lookup. destruct (decide (i = j)) as [<-|Hne].
  - apply list_lookup_insert_Some in Hj. naive_solver.
  - rewrite list_lookup_insert_ne in Hj by done. right. by eapply list_elem_of_lookup_2.
Qed.

Lemma key_sorted_fmap {A B} (f : A → B) (key : B → string) l :
  key_sorted (key ∘ f) l → key_sorted key (f <$> l).
Proof.
  unfold key_sorted. induction l as [|x l IH]; [constructor|].
  intros [Hx Hl]%StronglySorted_cons. rewrite fmap_cons. apply StronglySorted_cons.
  split; [|by apply IH]. apply Forall_fmap. exact Hx.
Qed.

Lemma Forall_filter_sub {A} (Q P : A → Prop) `{∀ x, Decision (P x)} l :
  Forall Q l → Forall Q (filter P l).
Proof.
  rewrite !Forall_forall. intros HQ x [_ Hx]%list_elem_of_filter. by apply HQ.
Qed.

Lemma fmap_pair_fst {A B} (g : A → B) (l : list A) : fst <$> ((λ x, (x, g x)) <$> l) = l.
Proof. induction l as [|x l IH]; [done|]. rewrite !fmap_cons. simpl. by rewrite IH. Qed.

(** ** Pointwise equal and always successful programs *)

Lemma io_bind_ext {W E A B} (m1 m2 : io W E A) (f1 f2 : A → io W E B) w :
  m1 w = m2 w → (∀ a w', f1 a w' = f2 a w') → (m1 ≫= f1) w = (m2 ≫= f2) w.
Proof. intros Hm Hf. unfold mbind, io_bind. rewrite Hm. by destruct (m2 w) as [[]]. Qed.

Lemma io_mapM_ext {W E A B} (f1 f2 : A → io W E B) xs w :
  (∀ x w', f1 x w' = f2 x w') → io_mapM f1 xs w = io_mapM f2 xs w.
Proof.
  intros Hf. revert w. induction xs as [|x xs IH]; intros w; simpl; [done|].
  apply io_bind_ext; [done|]. intros y w'. by apply io_bind_ext.
Qed.

Definition succeeds {W E A} (m : io W E A) (w : W) : Prop := ∃ a w', m w = (Ok a, w').

Lemma succeeds_bind {W E A B} (m : io W E A) (f : A → io W E B) w :
  succeeds m w → (∀ a w', m w = (Ok a, w') → succeeds (f a) w') → succeeds (m ≫= f) w.
Proof.
  intros (a & w1 & Hm) Hf. destruct (Hf a w1 Hm) as (b & w2 & Hb).
  exists b, w2. by rewrite (io_bind_run _ _ _ _ _ Hm).
Qed.

Lemma succeeds_mapM {W E A B} (f : A → io W E B) xs w :
  (∀ x w, x ∈ xs → succeeds (f x) w) → succeeds (io_mapM f xs) w.
Proof.
  revert w. induction xs as [|x xs IH]; intros w Hf; simpl; [by eexists _, _|].
  apply succeeds_bind; [apply Hf; by left|]. intros y w' _.
  apply succeeds_bind; [apply IH; intros; apply Hf; by right|]. intros ys w'' _. by eexists _, _.
Qed.

Lemma succeeds_map_err {W E F A} (g : E → F) (m : io W E A) w :
  succeeds m w → succeeds (io_map_err g m) w.
Proof. intros (a & w' & Hm). exists a, w'. by apply io_map_err_ok. Qed.

(** A loop whose steps only read. *)
Lemma io_mapM_run {W E A B} (f : A → io W E B) (g : A → B) xs w :
  (∀ x, x ∈ xs → f x w = (Ok (g x), w)) → io_mapM f xs w = (Ok (g <$> xs), w).
Proof.
  intros Hf. induction xs as [|x xs IH]; [done|]. simpl.
  rewrite (io_bind_run _ _ _ _ _ (Hf x ltac:(by left))).
  rewrite (io_bind_run _ _ w (g <$> xs) w); [done|]. apply IH. intros. apply Hf. by right.
Qed.

Lemma sum_list_app (l k : list nat) : sum_list (l ++ k) = sum_list l + sum_list k.
Proof. induction l as [|n l IH]; [done|]. simpl in *. rewrite IH. lia. Qed.

(** An invariant of a loop, indexed by the elements done. *)
Lemma io_fold_ok {W E A B} (f : A → B → io W E A) (P : list B → A → W → Prop) xs a w a' w' :
  (∀ done x rest a w a' w', xs = done ++ x :: rest → P done a w → f a x w = (Ok a', w') →
     P (done ++ [x]) a' w') →
  P [] a w → io_fold f a xs w = (Ok a', w') → P xs a' w'.
Proof.
  intros Hf. assert (∀ rest done a w, xs = done ++ rest → P done a w →
    io_fold f a rest w = (Ok a', w') → P xs a' w') as Hgen; [|by apply (Hgen xs [])].
  induction rest as [|x rest IH]; intros done a0 w0 Hxs HP Hr.
  - simpl in Hr. run_inv. by rewrite app_nil_r.
  - simpl in Hr. run_inv. apply (IH (done ++ [x]) a1 w1); [by rewrite <-(assoc_L (++))| |done].
    by eapply Hf.
Qed.

(** ** Sorting by a comparison *)

(** A stable sort by a comparison. *)
Fixpoint insert_by {A} (le : A → A → bool) (x : A) (l : list A) : list A :=
  match l with
  | [] => [x]
  | y :: l' => if le x y then x :: y :: l' else y :: insert_by le x l'
  end.
Fixpoint sort_by {A} (le : A → A → bool) (l : list A) : list A :=
  match l with
  | [] => []
  | x :: l' => insert_by le x (sort_by le l')
  end.

Lemma insert_by_perm {A} (le : A → A → bool) x l : insert_by le x l ≡ₚ x :: l.
Proof.
  induction l as [|y l IH]; simpl; [done|]. case_match; [done|]. rewrite IH. by constructor.
Qed.
Lemma sort_by_perm {A} (le : A → A → bool) l : sort_by le l ≡ₚ l.
Proof. induction l as [|x l IH]; simpl; [done|]. rewrite insert_by_perm. by f_equiv. Qed.

Section sort.
Context {A : Type} (le : A → A → bool).
Context (Htot : ∀ x y, le x y = true ∨ le y x = true).
Context (Htr : ∀ x y z, le x y = true → le y z = true → le x z = true).

Lemma insert_by_sorted x l :
  StronglySorted (λ x y, le x y = true) l → StronglySorted (λ x y, le x y = true) (insert_by le x l).
Proof.
  induction l as [|y l IH]; simpl; intros Hl; [by repeat constructor|].
  apply StronglySorted_cons in Hl as [Hy Hl]. case_match eqn:E.
  - apply StronglySorted_cons; split; [|by apply StronglySorted_cons].
    constructor; [done|]. eapply Forall_impl; [exact Hy|]. intros z ?. by eapply Htr.
  - apply StronglySorted_cons; split; [|by apply IH].
    rewrite insert_by_perm. constructor; [|done]. destruct (Htot x y); congruence.
Qed.

Lemma sort_by_sorted l : StronglySorted (λ x y, le x y = true) (sort_by le l).
Proof. induction l as [|x l IH]; simpl; [constructor|]. by apply insert_by_sorted. Qed.
End sort.

(** ** Ordered maps *)

(** The entries of a [BTreeMap<String, _>] in key order. *)
Definition btree_list {A} (m : gmap string A) : list (string * A) :=
  sort_by_key fst (map_to_list m).

Lemma btree_list_NoDup {A} (m : gmap string A) : NoDup (btree_list m).*1.
Proof.
  unfold btree_list. rewrite (fmap_Permutation fst _ _ (sort_by_key_perm fst _)).
  apply NoDup_fst_map_to_list.
Qed.

Lemma btree_list_elem {A} (m : gmap string A) k x : (k, x) ∈ btree_list m ↔ m !! k = Some x.
Proof. unfold btree_list. rewrite sort_by_key_perm. apply elem_of_map_to_list. Qed.

(** The rows of a [redb] table with integer keys, in key order. *)
Definition row_le {A} (a b : N * A) : bool := (a.1 <=? b.1)%N.
Definition rows {A} (m : gmap N A) : list (N * A) := sort_by row_le (map_to_list m).

Lemma rows_elem {A} (m : gmap N A) k x : (k, x) ∈ rows m ↔ m !! k = Some x.
Proof. unfold rows. rewrite sort_by_perm. apply elem_of_map_to_list. Qed.

Lemma rows_NoDup {A} (m : gmap N A) : NoDup (rows m).*1.
Proof.
  unfold rows. rewrite (fmap_Permutation fst _ _ (sort_by_perm row_le _)).
  apply NoDup_fst_map_to_list.
Qed.

Lemma rows_sorted {A} (m : gmap N A) : StronglySorted (λ x y, row_le x y = true) (rows m).
Proof.
  apply sort_by_sorted; unfold row_le.
  - intros x y. rewrite !N.leb_le. lia.
  - intros x y z. rewrite !N.leb_le. lia.
Qed.
