(* ===== verification/Hash.v ===== *)
(** Content hashes: [crates/registry-core/src/hash.rs].

    BLAKE3 and the [hex] crate are not part of the repository: they are the
    operations of the classes [Blake3] and [Hex], with what the code relies
    on as the laws of [HexLaws].  Collision resistance is never assumed of
    BLAKE3 as a whole (it would be false of any function into 32 bytes); the
    theorems that need it ask for it on the blobs of the run at hand, see
    [collision_free]. *)

From S2P Require Import Prelude.

(** [pub struct Hash(pub [u8; 32])] *)
Record Hash := mkHash { hash_0 : bytes32 }.

#[global] Instance Hash_eq_dec : EqDecision Hash.
Proof. solve_decision. Defined.
#[global] Program Instance Hash_countable : Countable Hash := inj_countable' hash_0 mkHash _.
Next Obligation. by intros []. Qed.

(** [blake3::hash(bytes).as_bytes()] *)
Class Blake3 := blake3 : list byte → bytes32.

(** [hex::encode] and [hex::decode_to_slice] into a 32-byte slice. *)
Class Hex := {
  FromHexError : Type;
  hex_encode : list byte → string;
  hex_decode_to_slice : string → result FromHexError bytes32;
}.

Definition is_hex_digit (b : byte) : bool :=
  let n := to_N b in
  (((48 <=? n) && (n <=? 57)) || ((97 <=? n) && (n <=? 102)))%N%bool.

(** Documented behaviour: lower-case digits out, decoding inverts encoding. *)
Class HexLaws `{Hex} := {
  hex_roundtrip (b : bytes32) : hex_decode_to_slice (hex_encode (b32_list b)) = Ok b;
  hex_digits (l : list byte) : Forall (λ c, Is_true (is_hex_digit c)) (str_bytes (hex_encode l));
}.

(** [Hash::ZERO] *)
Definition ZERO : Hash := mkHash (pad32 []).

Section hash.
Context `{Blake3} `{Hex}.

(** [Hash::of] *)
Definition Hash_of (b : list byte) : Hash := mkHash (blake3 b).

(** [Hash::from_hex] *)
Definition Hash_from_hex (s : string) : result FromHexError Hash :=
  let s := default s (strip_prefix "b3-" s) in
  out ← hex_decode_to_slice s;
  Ok (mkHash out).

(** [Hash::to_hex], also [Display] and [Serialize] *)
Definition Hash_to_hex (h : Hash) : string := hex_encode (b32_list (hash_0 h)).

(** [Hash::to_prefixed] *)
Definition Hash_to_prefixed (h : Hash) : string := "b3-" +:+ Hash_to_hex h.

(** [impl fmt::Debug] *)
Definition Hash_debug (h : Hash) : string := "Hash(" +:+ Hash_to_hex h +:+ ")".

(** [impl Serialize] / [impl Deserialize]: the JSON string's content. *)
Definition Hash_serialize (h : Hash) : string := Hash_to_hex h.
Definition Hash_deserialize (s : string) : result FromHexError Hash := Hash_from_hex s.

(** [Hash::is_zero] *)
Definition Hash_is_zero (h : Hash) : bool :=
  bool_decide (b32_list (hash_0 h) = replicate 32 x00).
End hash.

(** BLAKE3 has no collision among the blobs satisfying [D], and maps none of
    them to the all-zero hash (which encodes "no child"). *)
Class CollisionFree `{Blake3} (D : list byte → Prop) := {
  cf_inj b1 b2 : D b1 → D b2 → Hash_of b1 = Hash_of b2 → b1 = b2;
  cf_nonzero b : D b → Hash_of b ≠ ZERO;
}.

(** A finite list of blobs can be checked by evaluation. *)
Definition collision_free_check `{Blake3} (l : list (list byte)) : bool :=
  let hs := Hash_of <$> remove_dups l in
  bool_decide (NoDup hs) && forallb (λ h, bool_decide (h ≠ ZERO)) hs.

Lemma collision_free_of_check `{Blake3} l :
  collision_free_check l = true → CollisionFree (λ b, b ∈ l).
Proof.
  unfold collision_free_check. rewrite andb_true_iff, bool_decide_eq_true, forallb_forall.
  intros [Hnd Hnz]. split.
  - intros b1 b2 Hb1 Hb2 Heq. apply elem_of_remove_dups in Hb1, Hb2.
    apply list_elem_of_lookup in Hb1 as [i Hi], Hb2 as [j Hj].
    assert (i = j) as ->; [|congruence].
    eapply (NoDup_lookup (Hash_of <$> remove_dups l)); [done| |];
      rewrite list_lookup_fmap; [by rewrite Hi|rewrite Hj; simpl; congruence].
  - intros b Hb. apply elem_of_remove_dups in Hb. specialize (Hnz (Hash_of b)).
    rewrite <-list_elem_of_In, bool_decide_eq_true in Hnz. apply Hnz. by apply list_elem_of_fmap_2.
Qed.

Lemma hash_list_inj (h1 h2 : Hash) :
  b32_list (hash_0 h1) = b32_list (hash_0 h2) → h1 = h2.
Proof. destruct h1, h2. simpl. intros ?%b32_ext. by subst. Qed.

Lemma ZERO_list : b32_list (hash_0 ZERO) = replicate 32 x00.
Proof. reflexivity. Qed.

Section hash_facts.
Context `{Blake3} `{HexLaws}.

Lemma hex_no_prefix l : strip_prefix "b3-" (hex_encode l) = None.
Proof.
  pose proof (hex_digits l) as Hd.
  destruct (strip_prefix "b3-" (hex_encode l)) as [r|] eqn:E; [|done].
  apply strip_prefix_Some in E. rewrite E in Hd.
  change (str_bytes ("b3-" +:+ r)) with (x62 :: x33 :: x2d :: str_bytes r) in Hd.
  apply Forall_cons in Hd as [_ Hd]. apply Forall_cons in Hd as [_ Hd].
  by apply Forall_cons in Hd as [Hx _].
Qed.

Lemma from_to_hex h : Hash_from_hex (Hash_to_hex h) = Ok h.
Proof.
  unfold Hash_from_hex, Hash_to_hex. rewrite hex_no_prefix. simpl.
  rewrite hex_roundtrip. by destruct h.
Qed.

Lemma from_prefixed h : Hash_from_hex (Hash_to_prefixed h) = Ok h.
Proof.
  unfold Hash_from_hex, Hash_to_prefixed. rewrite strip_prefix_app. simpl.
  unfold Hash_to_hex. rewrite hex_roundtrip. by destruct h.
Qed.

Lemma is_zero_iff h : Hash_is_zero h = true ↔ h = ZERO.
Proof.
  unfold Hash_is_zero. rewrite bool_decide_eq_true, <-ZERO_list.
  split; [apply hash_list_inj|by intros ->].
Qed.
End hash_facts.
