(* ===== verification/Partition.v ===== *)
(** Top-level partitioning and descent bytes:
    [crates/registry-core/src/partition.rs].

    SHA-256 is the operation of the class [Sha256].  A partition count of
    zero makes the program panic (a remainder by zero); the theorems that
    mention the count take it positive. *)

From S2P Require Import Prelude.

(** [Sha256::new().update(bytes).finalize()] *)
Class Sha256 := sha256 : list byte → bytes32.

Definition TOP_LEVEL_PARTITIONS_DEFAULT : N := 256.
Definition LEAF_MAX_ENTRIES_DEFAULT : nat := 1024.

Section partition.
Context `{Sha256}.

Definition key_digest (key : string) : bytes32 := sha256 (str_bytes key).

Definition partition_id (digest : bytes32) (top_level_partitions : N) : N :=
  (to_N (default x00 (b32_list digest !! 0%nat)) mod top_level_partitions)%N.

Definition partition_id_for_key (key : string) (top_level_partitions : N) : N :=
  partition_id (key_digest key) top_level_partitions.

(** [digest.get(1 + depth).copied()] *)
Definition descent_byte (digest : bytes32) (depth : nat) : option byte :=
  b32_list digest !! (1 + depth).
End partition.

(** [format!("partition/{partition_id:03}")] *)
Definition partition_key (partition_id : N) : string :=
  "partition/" +:+ dec_padded 3 partition_id.

Lemma descent_byte_Some digest depth : depth < 31 → is_Some (descent_byte digest depth).
Proof. intros H. apply lookup_lt_is_Some. rewrite b32_length. lia. Qed.

Lemma descent_byte_None digest depth : descent_byte digest depth = None ↔ 31 ≤ depth.
Proof. unfold descent_byte. rewrite lookup_ge_None, b32_length. lia. Qed.

Lemma descent_byte_lt digest depth b : descent_byte digest depth = Some b → depth < 31.
Proof. intros Hb%lookup_lt_Some. rewrite b32_length in Hb. lia. Qed.

(** The descent path of a digest as slot indices. *)
Definition path_of (digest : bytes32) : list nat := byte_idx <$> drop 1 (b32_list digest).

Lemma path_of_lookup digest depth :
  path_of digest !! depth = byte_idx <$> descent_byte digest depth.
Proof. unfold path_of, descent_byte. by rewrite list_lookup_fmap, lookup_drop. Qed.

Lemma path_of_length digest : length (path_of digest) = 31.
Proof. unfold path_of. rewrite length_fmap, length_drop, b32_length. lia. Qed.

Lemma partition_id_lt `{Sha256} digest n : (0 < n)%N → (partition_id digest n < n)%N.
Proof. intros. apply N.mod_upper_bound. lia. Qed.

Lemma partition_key_parse n r :
  strip_prefix "partition/" (partition_key n) = Some r → (n < 2 ^ 32)%N → parse_u32 r = Some n.
Proof.
  unfold partition_key. rewrite strip_prefix_app. intros [= <-] Hn.
  by apply parse_u32_padded.
Qed.

Lemma partition_key_inj n m :
  (n < 2 ^ 32)%N → (m < 2 ^ 32)%N → partition_key n = partition_key m → n = m.
Proof.
  intros Hn Hm Heq.
  assert (strip_prefix "partition/" (partition_key n) = Some (dec_padded 3 n)) as H1
    by apply strip_prefix_app.
  assert (strip_prefix "partition/" (partition_key m) = Some (dec_padded 3 m)) as H2
    by apply strip_prefix_app.
  pose proof (partition_key_parse n _ H1 Hn) as P1.
  rewrite Heq, H2 in H1. injection H1 as H1.
  rewrite <-H1, parse_u32_padded in P1 by done. congruence.
Qed.

Example partition_key_42 : partition_key 42 = "partition/042".
Proof. reflexivity. Qed.
Example partition_key_0 : partition_key 0 = "partition/000".
Proof. reflexivity. Qed.
