(* ===== verification/Record.v ===== *)
(** Records and leaf entries: [crates/registry-core/src/record.rs]. *)

From S2P Require Import Prelude Hash.

(** [chrono::DateTime<Utc>]: the instant, in nanoseconds since the epoch. *)
Abbreviation DateTime := Z.

(** One entry of a HAMT leaf. *)
Record LeafEntry := mkLeafEntry {
  le_key : string;
  le_hash : Hash;
  le_size : N;
  le_added_at : DateTime;
  le_content_code : option N;
}.

#[global] Instance LeafEntry_eq_dec : EqDecision LeafEntry.
Proof. solve_decision. Defined.

(** The values of the Rust type: [size] and [content_code] are [u64]. *)
Definition leaf_entry_dom (e : LeafEntry) : Prop :=
  (le_size e < 2 ^ 64)%N ∧ from_option (λ c, (c < 2 ^ 64)%N) True (le_content_code e).

#[global] Instance leaf_entry_dom_dec e : Decision (leaf_entry_dom e).
Proof. unfold leaf_entry_dom. destruct (le_content_code e); simpl; apply _. Defined.

(** Leaves are newline-delimited, so the writer relies on the compact JSON of
    an entry being non-empty and free of newline bytes. *)
Class LeafCodecLaws `{!Codec LeafEntry} := {
  leaf_codec :: CodecLaws LeafEntry leaf_entry_dom;
  leaf_no_newline e : x0a ∉ ser (A:=LeafEntry) e;
  leaf_nonempty e : ser (A:=LeafEntry) e ≠ [];
}.

Inductive RecordStatus := Pending | Published | Denylisted.

#[global] Instance RecordStatus_eq_dec : EqDecision RecordStatus.
Proof. solve_decision. Defined.

(** [RecordStatus::as_str] *)
Definition RecordStatus_as_str (s : RecordStatus) : string :=
  match s with
  | Pending => "pending"
  | Published => "published"
  | Denylisted => "denylisted"
  end.

Record RecordSubmission := mkRecordSubmission { rs_key : string; rs_value : string }.

(** [content_hash] *)
Definition content_hash `{Blake3} (value : string) : Hash := Hash_of (str_bytes value).
