(* ===== verification/BlobStore.v ===== *)
(** The blob-store interface and its implementations:
    [crates/registry-core/src/blobstore.rs] and
    [crates/registry-node/src/blob_store.rs].

    - [BlobStore] is the trait; its methods are state-and-error programs over
      the store's state.
    - [MemoryBlobStore] is the in-process implementation, [IrohBlobStore] the
      one over an iroh-blobs store, whose API is the class [IrohBlobs].
    - [BlobStoreSpec] is what every implementation promises its clients and
      [LocalStore], [ReliableStore] the stronger promises of a store without
      network fallback and of one that never fails.
    - [Traced] adds a log of the [put] calls to any store, so that theorems
      can speak of the blobs a run writes. *)

From S2P Require Import Prelude Hash.

Inductive BlobStoreError := Io (msg : string).

Class BlobStore (St : Type) := {
  put : list byte → io St BlobStoreError Hash;
  get : Hash → io St BlobStoreError (option (list byte));
  prefetch : list Hash → N → St → St;
}.

(** The trait's default method. *)
Definition put_and_hash `{BlobStore St} (b : list byte) : io St BlobStoreError Hash := put b.

(** The trait's default [prefetch]: nothing to do. *)
Definition prefetch_noop {St} (_ : list Hash) (_ : N) (s : St) : St := s.

(** ** The in-memory store *)

Record MemoryBlobStore := mkMemoryBlobStore { inner : gmap Hash (list byte) }.

Section memory.
Context `{Blake3}.

Definition MemoryBlobStore_new : MemoryBlobStore := mkMemoryBlobStore ∅.
Definition MemoryBlobStore_len (s : MemoryBlobStore) : nat := size (inner s).
Definition MemoryBlobStore_is_empty (s : MemoryBlobStore) : bool :=
  MemoryBlobStore_len s =? 0.

Definition MemoryBlobStore_put (b : list byte) : io MemoryBlobStore BlobStoreError Hash :=
  λ s, let hash := Hash_of b in
       (Ok hash, mkMemoryBlobStore (<[hash := b]> (inner s))).

Definition MemoryBlobStore_get (h : Hash) : io MemoryBlobStore BlobStoreError (option (list byte)) :=
  λ s, (Ok (inner s !! h), s).

#[global] Instance MemoryBlobStore_store : BlobStore MemoryBlobStore := {
  put := MemoryBlobStore_put;
  get := MemoryBlobStore_get;
  prefetch := prefetch_noop;
}.
End memory.

(** ** The iroh-blobs store

    The iroh-blobs API used by the wrapper: [blobs().add_bytes],
    [blobs().get_bytes], [blobs().has] and [downloader.download].  A
    [get_bytes] error covers both a missing blob and a transient I/O error,
    as the code's comment says. *)

(** An item of a transfer's progress stream, or 45 s without one. *)
Inductive TransferEvent := TransferDone | TransferError | TransferProgress | TransferStall.

Class IrohBlobs (I : Type) := {
  Provider : Type;
  add_bytes : list byte → io I string Hash;
  get_bytes : Hash → io I string (list byte);
  has : Hash → io I string bool;
  download : Hash → list Provider → io I string unit;
  (** whether a budget of that many units has run out by now *)
  late : N → I → bool * I;
  (** dialing a provider before the budget runs out *)
  connect : Provider → N → I → bool * I;
  (** one batched request to a connected provider: the progress events of
      its transfer, in order *)
  execute_get_many : Provider → list Hash → I → list TransferEvent * I;
}.

Record IrohBlobStore (I : Type) `{IrohBlobs I} := mkIrohBlobStore {
  ib_store : I;
  ib_downloader : bool;
  ib_providers : list Provider;
}.
Arguments mkIrohBlobStore {I _}.
Arguments ib_store {I _}.
Arguments ib_downloader {I _}.
Arguments ib_providers {I _}.

Section iroh.
Context {I : Type} `{IrohBlobs I}.

Definition local_only (store : I) : IrohBlobStore I := mkIrohBlobStore store false [].
Definition with_providers (store : I) (providers : list Provider) : IrohBlobStore I :=
  mkIrohBlobStore store true providers.

(** Run an iroh call on the wrapped store. *)
Definition on_store {E A} (m : io I E A) : io (IrohBlobStore I) E A :=
  λ s, match m (ib_store s) with
       | (r, i) => (r, mkIrohBlobStore i (ib_downloader s) (ib_providers s))
       end.

Definition IrohBlobStore_put (b : list byte) : io (IrohBlobStore I) BlobStoreError Hash :=
  io_map_err Io (on_store (add_bytes b)).

(** The local attempts: up to [attempts] tries of [get_bytes], the waits
    between them left out. *)
Fixpoint get_attempts (attempts : nat) (h : Hash) (s : IrohBlobStore I)
    : option (list byte) * IrohBlobStore I :=
  match attempts with
  | 0 => (None, s)
  | S attempts =>
      match on_store (get_bytes h) s with
      | (Ok b, s') => (Some b, s')
      | (Err _, s') => get_attempts attempts h s'
      end
  end.

Definition can_fetch (s : IrohBlobStore I) : bool :=
  ib_downloader s && negb (bool_decide (length (ib_providers s) = 0)).

Definition IrohBlobStore_get (h : Hash) : io (IrohBlobStore I) BlobStoreError (option (list byte)) :=
  λ s,
    let attempts := if can_fetch s then 1 else 3 in
    match get_attempts attempts h s with
    | (Some b, s1) => (Ok (Some b), s1)
    | (None, s1) =>
        if negb (can_fetch s1) then (Ok None, s1)
        else match on_store (download h (ib_providers s1)) s1 with
             | (Err _, s2) => (Ok None, s2)
             | (Ok _, s2) =>
                 match on_store (get_bytes h) s2 with
                 | (Ok b, s3) => (Ok (Some b), s3)
                 | (Err _, s3) => (Ok None, s3)
                 end
             end
    end.

(** The blobs of a batch not present locally; a failed presence check
    counts as missing. *)
Fixpoint missing_of (hashes : list Hash) (s : IrohBlobStore I) : list Hash * IrohBlobStore I :=
  match hashes with
  | [] => ([], s)
  | h :: hashes =>
      let '(r, s1) := on_store (has h) s in
      let '(rest, s2) := missing_of hashes s1 in
      (match r with Ok true => rest | _ => h :: rest end, s2)
  end.

Definition PREFETCH_BATCH : nat := 32.

(** [run_transfer_with_stall_guard]: the transfer's own end decides; a stall
    closes the connection and gives up. *)
Fixpoint run_transfer_with_stall_guard (events : list TransferEvent) : bool :=
  match events with
  | TransferDone :: _ => true
  | TransferProgress :: events => run_transfer_with_stall_guard events
  | TransferError :: _ | TransferStall :: _ | [] => false
  end.

(** Run a call that does not fail on the wrapped store. *)
Definition ask {A} (m : I → A * I) (s : IrohBlobStore I) : A * IrohBlobStore I :=
  match m (ib_store s) with (a, i) => (a, mkIrohBlobStore i (ib_downloader s) (ib_providers s)) end.

(** The chunks of one provider, stopping at the first failed request, or
    when the budget has run out before a request. *)
Inductive Fetch := FetchedAll | FetchNext | FetchLate.
Fixpoint fetch_chunks (budget : N) (p : Provider) (chunks : list (list Hash)) (s : IrohBlobStore I)
    : Fetch * IrohBlobStore I :=
  match chunks with
  | [] => (FetchedAll, s)
  | c :: chunks =>
      match ask (late budget) s with
      | (true, s) => (FetchLate, s)
      | (false, s) =>
          let '(events, s) := ask (execute_get_many p c) s in
          if run_transfer_with_stall_guard events then fetch_chunks budget p chunks s else (FetchNext, s)
      end
  end.

Fixpoint fetch_providers (budget : N) (ps : list Provider) (chunks : list (list Hash)) (s : IrohBlobStore I)
    : IrohBlobStore I :=
  match ps with
  | [] => s
  | p :: ps =>
      match ask (late budget) s with
      | (true, s) => s
      | (false, s) =>
          match ask (connect p budget) s with
          | (false, s) => fetch_providers budget ps chunks s
          | (true, s) =>
              match fetch_chunks budget p chunks s with
              | (FetchNext, s) => fetch_providers budget ps chunks s
              | (_, s) => s
              end
          end
      end
  end.

(** [slice.chunks(n)] *)
Fixpoint chunks_of {A} (fuel n : nat) (l : list A) : list (list A) :=
  match fuel, l with
  | 0, _ | _, [] => []
  | S fuel, _ => take n l :: chunks_of fuel n (drop n l)
  end.

(** [prefetch]: the presence checks are given up when the budget runs out
    during them. *)
Definition IrohBlobStore_prefetch (hashes : list Hash) (budget : N) (s : IrohBlobStore I)
    : IrohBlobStore I :=
  if negb (can_fetch s) then s
  else
    let '(missing, s) := missing_of hashes s in
    let '(expired, s) := ask (late budget) s in
    if expired || bool_decide (length missing = 0) then s
    else fetch_providers budget (ib_providers s) (chunks_of (length missing) PREFETCH_BATCH missing) s.

#[global] Instance IrohBlobStore_store : BlobStore (IrohBlobStore I) := {
  put := IrohBlobStore_put;
  get := IrohBlobStore_get;
  prefetch := IrohBlobStore_prefetch;
}.
End iroh.

(** ** What a store promises *)

(** [contents] is what the store can resolve.  A read never invents bytes and
    never loses any; a successful write makes the blob resolvable under its
    hash and touches nothing else. *)
Class BlobStoreSpec (St : Type) `{Blake3, !BlobStore St} := {
  contents : St → gmap Hash (list byte);
  put_cases b s r s' : put b s = (r, s') →
    contents s' = <[Hash_of b := b]> (contents s) ∨ contents s' = contents s ∧ ¬ is_ok r;
  put_hash b s h s' : put b s = (Ok h, s') → h = Hash_of b;
  get_grows h s r s' : get h s = (r, s') → contents s ⊆ contents s';
  get_sound h s b s' : get h s = (Ok (Some b), s') → contents s' !! h = Some b;
  prefetch_grows hs n s : contents s ⊆ contents (prefetch hs n s);
}.

(** What a store holds after a run of reads. *)
Definition grows `{BlobStoreSpec St} (s s' : St) : Prop := contents s ⊆ contents s'.
#[global] Instance grows_preorder `{BlobStoreSpec St} : PreOrder grows.
Proof. unfold grows. split; [intros s; reflexivity|]. intros s1 s2 s3. by etrans. Qed.

(** A store in a state without network fallback: reading changes nothing. *)
Class LocalStore (St : Type) `{BlobStoreSpec St} := {
  is_local : St → Prop;
  get_local h s r s' : is_local s → get h s = (r, s') → contents s' = contents s ∧ is_local s';
  put_local b s r s' : is_local s → put b s = (r, s') → is_local s';
}.

(** A store that never fails and never misses what it holds. *)
Class ReliableStore (St : Type) `{BlobStoreSpec St} := {
  put_total b s : is_ok (put b s).1;
  get_total h s : get h s = (Ok (contents s !! h), s);
}.

(** What the wrapper relies on from iroh-blobs: an import is stored under its
    BLAKE3 hash, a successful read returns the bytes stored under the hash,
    reads and downloads never drop a blob. *)
Class IrohBlobsLaws (I : Type) `{Blake3, !IrohBlobs I} := {
  iroh_contents : I → gmap Hash (list byte);
  add_bytes_ok b i h i' : add_bytes b i = (Ok h, i') →
    h = Hash_of b ∧ iroh_contents i' = <[Hash_of b := b]> (iroh_contents i);
  add_bytes_err b i e i' : add_bytes b i = (Err e, i') → iroh_contents i' = iroh_contents i;
  get_bytes_state h i r i' : get_bytes h i = (r, i') → iroh_contents i' = iroh_contents i;
  get_bytes_ok h i b i' : get_bytes h i = (Ok b, i') → iroh_contents i !! h = Some b;
  has_state h i r i' : has h i = (r, i') → iroh_contents i' = iroh_contents i;
  download_grows h ps i r i' : download h ps i = (r, i') → iroh_contents i ⊆ iroh_contents i';
  late_state n i r i' : late n i = (r, i') → iroh_contents i' = iroh_contents i;
  connect_state p n i r i' : connect p n i = (r, i') → iroh_contents i' = iroh_contents i;
  execute_grows p hs i r i' : execute_get_many p hs i = (r, i') → iroh_contents i ⊆ iroh_contents i';
}.

(** ** The log of writes *)

Record Traced (St : Type) := mkTraced { tr_store : St; tr_log : list (list byte) }.
Arguments mkTraced {St}.
Arguments tr_store {St}.
Arguments tr_log {St}.

#[global] Instance Traced_store `{BlobStore St} : BlobStore (Traced St) := {
  put b := λ t, let '(r, s') := put b (tr_store t) in (r, mkTraced s' (tr_log t ++ [b]));
  get h := λ t, let '(r, s') := get h (tr_store t) in (r, mkTraced s' (tr_log t));
  prefetch hs n t := mkTraced (prefetch hs n (tr_store t)) (tr_log t);
}.

#[global] Program Instance Traced_spec `{BlobStoreSpec St} : BlobStoreSpec (Traced St) := {
  contents t := contents (tr_store t);
}.
Next Obligation.
  intros St ??? b t r t'. simpl. destruct (put b (tr_store t)) as [r1 s1] eqn:E.
  intros [= <- <-]. by apply put_cases in E.
Qed.
Next Obligation.
  intros St ??? b t r t'. simpl. destruct (put b (tr_store t)) as [r1 s1] eqn:E.
  intros [= -> <-]. by apply put_hash in E.
Qed.
Next Obligation.
  intros St ??? h t r t'. simpl. destruct (get h (tr_store t)) as [r1 s1] eqn:E.
  intros [= <- <-]. by apply get_grows in E.
Qed.
Next Obligation.
  intros St ??? h t b t'. simpl. destruct (get h (tr_store t)) as [r1 s1] eqn:E.
  intros [= -> <-]. by apply get_sound in E.
Qed.
Next Obligation. intros St ??? hs n t. simpl. apply prefetch_grows. Qed.

#[global] Program Instance Traced_local `{LocalStore St} : LocalStore (Traced St) := {
  is_local t := is_local (tr_store t);
}.
Next Obligation.
  intros St ???? h t r t' Ht. simpl. destruct (get h (tr_store t)) as [r1 s1] eqn:E.
  intros [= <- <-]. by apply get_local in E.
Qed.
Next Obligation.
  intros St ???? b t r t' Ht. simpl. destruct (put b (tr_store t)) as [r1 s1] eqn:E.
  intros [= <- <-]. by apply put_local in E.
Qed.

#[global] Instance Traced_reliable `{ReliableStore St} : ReliableStore (Traced St).
Proof.
  split.
  - intros b t. simpl. pose proof (put_total b (tr_store t)).
    by destruct (put b (tr_store t)).
  - intros h t. simpl. rewrite get_total. by destruct t.
Qed.

(** ** The implementations keep the promises *)

#[global] Program Instance MemoryBlobStore_spec `{Blake3} : BlobStoreSpec MemoryBlobStore := {
  contents := inner;
}.
Next Obligation. intros ? b s r s' [= <- <-]. by left. Qed.
Next Obligation. by intros ? b s h s' [= <- <-]. Qed.
Next Obligation. by intros ? h s r s' [= <- <-]. Qed.
Next Obligation. by intros ? h s b s' [= Hb <-]. Qed.
Next Obligation. done. Qed.

#[global] Program Instance MemoryBlobStore_local `{Blake3} : LocalStore MemoryBlobStore := {
  is_local _ := True;
}.
Next Obligation. by intros ? h s r s' _ [= <- <-]. Qed.
Next Obligation. done. Qed.

#[global] Instance MemoryBlobStore_reliable `{Blake3} : ReliableStore MemoryBlobStore.
Proof. by split. Qed.

Section iroh_spec.
Context {I : Type} `{IrohBlobsLaws I}.
Implicit Types s : IrohBlobStore I.

Definition ib_contents s : gmap Hash (list byte) := iroh_contents (ib_store s).

Lemma on_store_run {E A} (m : io I E A) s r s' :
  on_store m s = (r, s') →
  ∃ i, m (ib_store s) = (r, i) ∧ s' = mkIrohBlobStore i (ib_downloader s) (ib_providers s).
Proof. unfold on_store. destruct (m (ib_store s)) as [r1 i]. intros [= <- <-]. eauto. Qed.

Lemma get_attempts_spec n h s o s' :
  get_attempts n h s = (o, s') →
  ib_contents s' = ib_contents s ∧ can_fetch s' = can_fetch s ∧
  (∀ b, o = Some b → ib_contents s !! h = Some b).
Proof.
  revert s. induction n as [|n IH]; intros s; simpl.
  { by intros [= <- <-]. }
  destruct (on_store (get_bytes h) s) as [r s1] eqn:E.
  apply on_store_run in E as (i & Hg & ->).
  pose proof (get_bytes_state _ _ _ _ Hg) as Hs. destruct r as [b|e].
  - intros [= <- <-]. split_and!; [done|done|].
    intros b' [= <-]. by eapply get_bytes_ok.
  - intros (Hc & Hf & Hb)%IH. unfold ib_contents in *. simpl in *.
    rewrite Hs in Hc, Hb. done.
Qed.

Lemma IrohBlobStore_get_spec h s r s' :
  IrohBlobStore_get h s = (r, s') →
  (ib_contents s ⊆ ib_contents s' ∧ (∀ b, r = Ok (Some b) → ib_contents s' !! h = Some b)) ∧
  (can_fetch s = false → ib_contents s' = ib_contents s ∧ can_fetch s' = false).
Proof.
  unfold IrohBlobStore_get.
  destruct (get_attempts _ h s) as [o s1] eqn:E1. apply get_attempts_spec in E1 as (Hc & Hf & Hb).
  destruct o as [b|]; [intros [= <- <-]|].
  { rewrite Hc, Hf. split_and!; try done. intros b' [= <-]. by apply Hb. }
  destruct (can_fetch s1) eqn:Ef; simpl; [|intros [= <- <-]; rewrite Hc; naive_solver].
  destruct (on_store (download _ _) s1) as [r2 s2] eqn:E2.
  apply on_store_run in E2 as (i2 & Hd & ->). apply download_grows in Hd.
  rewrite <-Hf. fold (ib_contents s1) in Hd. rewrite Hc in Hd.
  destruct r2 as [[]|e]; [|by intros [= <- <-]].
  destruct (on_store (get_bytes h) _) as [r3 s3] eqn:E3.
  apply on_store_run in E3 as (i3 & Hg & ->). simpl in Hg.
  pose proof (get_bytes_state _ _ _ _ Hg) as Hs.
  destruct r3 as [b|e]; intros [= <- <-]; unfold ib_contents in *; simpl in *; rewrite Hs;
    (split; [split; [done|]|intros; congruence]); [|done].
  intros b' [= <-]. by eapply get_bytes_ok.
Qed.

Lemma IrohBlobStore_put_spec b s r s' :
  IrohBlobStore_put b s = (r, s') →
  can_fetch s' = can_fetch s ∧
  match r with
  | Ok h => h = Hash_of b ∧ ib_contents s' = <[Hash_of b := b]> (ib_contents s)
  | Err _ => ib_contents s' = ib_contents s
  end.
Proof.
  unfold IrohBlobStore_put, io_map_err.
  destruct (on_store (add_bytes b) s) as [r1 s1] eqn:E.
  apply on_store_run in E as (i & Ha & ->). intros [= <- <-]. split; [done|].
  destruct r1 as [h|e]; simpl; [by apply add_bytes_ok in Ha|by apply add_bytes_err in Ha].
Qed.

(** Reading moves the wrapped store by calls of these kinds only. *)
Section reading_steps.
Context (R : relation I) `{!PreOrder R}.
Context (get_bytes_R : ∀ h i r i', get_bytes h i = (r, i') → R i i').
Context (download_R : ∀ h ps i r i', download h ps i = (r, i') → R i i').
Context (has_R : ∀ h i r i', has h i = (r, i') → R i i').
Context (late_R : ∀ n i r i', late n i = (r, i') → R i i').
Context (connect_R : ∀ p n i r i', connect p n i = (r, i') → R i i').
Context (execute_R : ∀ p hs i r i', execute_get_many p hs i = (r, i') → R i i').

Definition moved s s' : Prop := R (ib_store s) (ib_store s').
Lemma moved_ask {A} (m : I → A * I) s a s' :
  (∀ i a i', m i = (a, i') → R i i') → ask m s = (a, s') → moved s s'.
Proof. intros Hm. unfold ask. destruct (m (ib_store s)) as [a1 i] eqn:E. intros [= <- <-]. by eapply Hm. Qed.

Lemma missing_of_moved hs s l s' : missing_of hs s = (l, s') → moved s s'.
Proof.
  revert s l s'. induction hs as [|h hs IH]; intros s l s'; simpl; [by intros [= <- <-]; unfold moved|].
  destruct (on_store (has h) s) as [r s1] eqn:E1. apply on_store_run in E1 as (i & Hh%has_R & ->).
  destruct (missing_of hs _) as [rest s2] eqn:E2. apply IH in E2. intros [= _ <-]. by unfold moved in *; etrans.
Qed.

Lemma fetch_chunks_moved n p cs s f s' : fetch_chunks n p cs s = (f, s') → moved s s'.
Proof.
  revert s. induction cs as [|c cs IH]; intros s; simpl; [by intros [= <- <-]; unfold moved|].
  destruct (ask (late n) s) as [b s1] eqn:E1. apply moved_ask in E1; [|by apply late_R].
  destruct b; [by intros [= <- <-]|]. destruct (ask (execute_get_many p c) s1) as [ev s2] eqn:E2.
  apply moved_ask in E2; [|by apply execute_R]. assert (moved s s2) as Hs by (unfold moved in *; by etrans).
  destruct (run_transfer_with_stall_guard ev); [intros Hr%IH; unfold moved in *; by etrans|by intros [= <- <-]].
Qed.

Lemma fetch_providers_moved n ps cs s : moved s (fetch_providers n ps cs s).
Proof.
  revert s. induction ps as [|p ps IH]; intros s; simpl; [by unfold moved|].
  destruct (ask (late n) s) as [b s1] eqn:E1. apply moved_ask in E1; [|by apply late_R].
  destruct b; [done|]. destruct (ask (connect p n) s1) as [c s2] eqn:E2. apply moved_ask in E2; [|by apply connect_R].
  assert (moved s s2) as Hs by (unfold moved in *; by etrans). destruct c; [|specialize (IH s2); unfold moved in *; by etrans].
  destruct (fetch_chunks n p cs s2) as [f s3] eqn:E3. apply fetch_chunks_moved in E3.
  destruct f; [|specialize (IH s3)|]; unfold moved in *; repeat (etrans; [done|]); done.
Qed.

Lemma prefetch_moved hs n s : moved s (IrohBlobStore_prefetch hs n s).
Proof.
  unfold IrohBlobStore_prefetch. case_match; [by unfold moved|].
  destruct (missing_of hs s) as [l s1] eqn:E1. apply missing_of_moved in E1.
  destruct (ask (late n) s1) as [b s2] eqn:E2. apply moved_ask in E2; [|by apply late_R].
  assert (moved s s2) as Hs by (unfold moved in *; by etrans). case_match; [done|].
  pose proof (fetch_providers_moved n (ib_providers s2) (chunks_of (length l) PREFETCH_BATCH l) s2) as Hf.
  unfold moved in *. by etrans.
Qed.

Lemma get_attempts_moved n h s o s' : get_attempts n h s = (o, s') → moved s s'.
Proof.
  revert s. induction n as [|n IH]; intros s; simpl; [by intros [= <- <-]; unfold moved|].
  destruct (on_store (get_bytes h) s) as [r s1] eqn:E. apply on_store_run in E as (i & Hg%get_bytes_R & ->).
  destruct r; [by intros [= <- <-]|]. intros Hr%IH. unfold moved in *. by etrans.
Qed.
Lemma get_moved h s r s' : IrohBlobStore_get h s = (r, s') → moved s s'.
Proof.
  unfold IrohBlobStore_get. destruct (get_attempts _ h s) as [o s1] eqn:E1. apply get_attempts_moved in E1.
  destruct o as [b|]; [by intros [= <- <-]|]. case_match; [by intros [= <- <-]|].
  destruct (on_store (download _ _) s1) as [r2 s2] eqn:E2. apply on_store_run in E2 as (i2 & Hd%download_R & ->).
  assert (moved s (mkIrohBlobStore i2 (ib_downloader s1) (ib_providers s1))) as Hs by (unfold moved in *; by etrans).
  destruct r2 as [[]|e]; [|by intros [= <- <-]].
  destruct (on_store (get_bytes h) _) as [r3 s3] eqn:E3. apply on_store_run in E3 as (i3 & Hg%get_bytes_R & ->).
  destruct r3; intros [= <- <-]; unfold moved in *; by etrans.
Qed.
End reading_steps.

#[local] Instance iroh_grows : PreOrder (λ i i' : I, iroh_contents i ⊆ iroh_contents i').
Proof. split; [by intros i|]. intros i1 i2 i3. by etrans. Qed.

#[global] Program Instance IrohBlobStore_spec : BlobStoreSpec (IrohBlobStore I) := {
  contents := ib_contents;
}.
Next Obligation.
  intros b s r s' [_ Hp]%IrohBlobStore_put_spec.
  destruct r; [left; apply Hp|right; split; [done|intros []]].
Qed.
Next Obligation. by intros b s h s' [_ [-> _]]%IrohBlobStore_put_spec. Qed.
Next Obligation. by intros h s r s' [[? _] _]%IrohBlobStore_get_spec. Qed.
Next Obligation. intros h s b s' [[_ Hg] _]%IrohBlobStore_get_spec. by apply Hg. Qed.
Next Obligation.
  intros hs n s. simpl. apply (prefetch_moved (λ i i', iroh_contents i ⊆ iroh_contents i')).
  - by intros h i r i' ->%has_state.
  - by intros m i r i' ->%late_state.
  - by intros p m i r i' ->%connect_state.
  - intros p h i r i'. apply execute_grows.
Qed.

(** The daemon's store, built by [local_only], is in a local state. *)
#[global] Program Instance IrohBlobStore_local : LocalStore (IrohBlobStore I) := {
  is_local s := can_fetch s = false;
}.
Next Obligation. intros h s r s' Hs [_ Hl]%IrohBlobStore_get_spec. by apply Hl. Qed.
Next Obligation. by intros b s r s' Hs [-> _]%IrohBlobStore_put_spec. Qed.

Lemma local_only_is_local (i : I) : is_local (local_only i).
Proof. done. Qed.
End iroh_spec.

(** ** Runs that keep what the store holds

    [store_ok D s]: the store is in a local state, addresses every blob by
    its hash, and holds only blobs of the collision-free domain [D].
    [advances D] relates the states around a run: if every blob the run wrote
    is in [D], the run preserved [store_ok] and lost nothing. *)

Section advances.
Context {St : Type} `{LocalStore St} (D : list byte → Prop) `{!CollisionFree D}.
Implicit Types s : Traced St.

Definition store_ok s : Prop :=
  is_local s ∧ map_Forall (λ h b, Hash_of b = h ∧ D b) (contents s).

Definition advances s s' : Prop :=
  tr_log s `prefix_of` tr_log s' ∧
  (Forall D (tr_log s') → store_ok s → store_ok s' ∧ contents s ⊆ contents s').

#[global] Instance advances_preorder : PreOrder advances.
Proof.
  split.
  - intros s. split; done.
  - intros s1 s2 s3 [Hp12 H12] [Hp23 H23]. split; [by etrans|].
    intros HD Hok. destruct H12 as [Hok2 Hs12]; [|done|].
    { destruct Hp23 as [k Hk]. rewrite Hk in HD. by apply Forall_app in HD as [? _]. }
    destruct H23 as [Hok3 Hs23]; [done..|]. split; [done|by etrans].
Qed.

Lemma steps_put b : steps_in advances (put b).
Proof.
  intros s r s' Hp. assert (tr_log s' = tr_log s ++ [b]) as Hlog.
  { revert Hp. simpl. destruct (put b (tr_store s)). by intros [= <- <-]. }
  split; [by rewrite Hlog; eexists|].
  rewrite Hlog, Forall_app, Forall_singleton. intros [_ HD] [Hl Hok].
  pose proof (put_local _ _ _ _ Hl Hp) as Hl'.
  apply put_cases in Hp as [Hc|[Hc _]]; unfold store_ok; rewrite Hc; [|done].
  split; [split; [done|]|].
  - apply map_Forall_insert_2; done.
  - apply map_subseteq_spec. intros h b' Hb'.
    destruct (decide (Hash_of b = h)) as [<-|Hne].
    + destruct (Hok _ _ Hb') as [Heq HD']. rewrite lookup_insert_eq.
      f_equal. symmetry. by eapply cf_inj.
    + by rewrite lookup_insert_ne.
Qed.

Lemma steps_get h : steps_in advances (get h).
Proof.
  intros s r s' Hg. assert (tr_log s' = tr_log s) as Hlog.
  { revert Hg. simpl. destruct (get h (tr_store s)). by intros [= <- <-]. }
  split; [by rewrite Hlog|]. intros _ [Hl Hok].
  apply get_local in Hg as [Hc Hl']; [|done]. unfold store_ok. by rewrite Hc.
Qed.

(** A run inside a longer one whose log is in the domain. *)
Lemma advances_within s s' sf :
  advances s s' → advances s' sf → Forall D (tr_log sf) → store_ok s →
  store_ok s' ∧ contents s ⊆ contents s' ∧ Forall D (tr_log s').
Proof.
  intros [_ Hadv] [[k Hk] _] HD Hok.
  assert (Forall D (tr_log s')) as HD'.
  { rewrite Hk in HD. by apply Forall_app in HD as [? _]. }
  by destruct (Hadv HD' Hok).
Qed.

Lemma put_ok_run b s h s' :
  put b s = (Ok h, s') → h = Hash_of b ∧ contents s' !! h = Some b ∧ b ∈ tr_log s'.
Proof.
  intros Hp. pose proof (put_hash _ _ _ _ Hp) as ->. split; [done|]. split.
  - apply put_cases in Hp as [->|[_ []]]; [by rewrite lookup_insert_eq|done].
  - revert Hp. simpl. destruct (put b (tr_store s)). intros [= _ <-]. simpl.
    rewrite elem_of_app, list_elem_of_singleton. by right.
Qed.
End advances.

#[export] Hint Resolve steps_put steps_get : steps.
