(* ===== verification/Hamt.v ===== *)
(** The per-partition hash array mapped trie, definitions:
    [crates/registry-core/src/hamt.rs].

    Every operation is a program over a [BlobStore]; the theorems are in
    [HamtNodeFacts], [HamtFacts] and the files after them.  The loops that
    descend by digest bytes take [DESCENT_FUEL] steps at most: the digest has
    31 descent bytes, and running out of them is the program's own
    [DepthExhausted].  The walkers recurse as deep as the stored nodes go, so
    they take fuel and report its end as [OutOfFuel]. *)

From S2P Require Import Prelude Hash Partition Record BlobStore.

Definition INTERMEDIATE_FANOUT : nat := 256.
Definition TAG_LEAF : byte := x00.
Definition TAG_INTERMEDIATE : byte := x01.

Inductive HamtError :=
| HBlobStore (e : BlobStoreError)
| CorruptNode (h : Hash) (msg : string)
| MissingNode (h : Hash)
| DepthExhausted (key : string) (depth : nat).

Inductive HamtNode :=
| Leaf (entries : list LeafEntry)
| Intermediate (slots : list (option Hash)).

Definition empty_leaf : HamtNode := Leaf [].

Section node.
Context `{!Codec LeafEntry}.

Definition slot_bytes (slot : option Hash) : list byte :=
  match slot with
  | Some h => b32_list (hash_0 h)
  | None => replicate 32 x00
  end.

(** [HamtNode::encode] *)
Definition encode (n : HamtNode) : list byte :=
  match n with
  | Leaf entries => TAG_LEAF :: concat ((λ e, ser e ++ [x0a]) <$> entries)
  | Intermediate slots => TAG_INTERMEDIATE :: concat (slot_bytes <$> slots)
  end.

Fixpoint decode_lines (node_hash : Hash) (lines : list (list byte))
    : result HamtError (list LeafEntry) :=
  match lines with
  | [] => Ok []
  | line :: lines =>
      if bool_decide (line = []) then decode_lines node_hash lines
      else
        entry ← result_map_err (CorruptNode node_hash) (de line);
        entries ← decode_lines node_hash lines;
        Ok (entry :: entries)
  end.

Definition slot_of (bs : list byte) (i : nat) : option Hash :=
  let start := 1 + i * 32 in
  let h := take 32 (drop start bs) in
  if decide (h = replicate 32 x00) then None else mkHash <$> to_b32 h.

(** [HamtNode::decode] *)
Definition decode (bs : list byte) (node_hash : Hash) : result HamtError HamtNode :=
  match bs with
  | tag :: rest =>
      if decide (tag = TAG_LEAF) then
        entries ← decode_lines node_hash (split_on x0a rest);
        Ok (Leaf entries)
      else if decide (tag = TAG_INTERMEDIATE) then
        if negb (bool_decide (length bs = 1 + INTERMEDIATE_FANOUT * 32)) then
          Err (CorruptNode node_hash "wrong length for an intermediate node")
        else Ok (Intermediate (slot_of bs <$> seq 0 INTERMEDIATE_FANOUT))
      else Err (CorruptNode node_hash "unrecognized node tag byte")
  | [] => Err (CorruptNode node_hash "unrecognized node tag byte")
  end.
End node.

(** [slots[b as usize]] *)
Definition slot_at (slots : list (option Hash)) (b : byte) : option Hash :=
  mjoin (slots !! byte_idx b).

(** The loop [for e in entries { buckets[byte(e)].push(e) }] over 256 empty
    buckets; [byte] is the entry's descent byte at [depth]. *)
Section distribute.
Context {A : Type} (digest_of : A → bytes32) (key_of : A → string) (depth : nat).

Fixpoint distribute_into (buckets : list (list A)) (es : list A)
    : result HamtError (list (list A)) :=
  match es with
  | [] => Ok buckets
  | e :: es =>
      b ← ok_or (DepthExhausted (key_of e) depth) (descent_byte (digest_of e) depth);
      distribute_into (alter (λ bucket, bucket ++ [e]) (byte_idx b) buckets) es
  end.

Definition distribute (es : list A) : result HamtError (list (list A)) :=
  distribute_into (replicate INTERMEDIATE_FANOUT []) es.
End distribute.

Definition DESCENT_FUEL : nat := 32.

Section hamt.
Context `{Blake3} `{Sha256} `{!Codec LeafEntry} {St : Type} `{!BlobStore St}.

Definition put_node (n : HamtNode) : io St HamtError Hash :=
  io_map_err HBlobStore (put (encode n)).

(** [store.get(&h).await?.ok_or(MissingNode(h))?] then [decode] *)
Definition load_node (h : Hash) : io St HamtError HamtNode :=
  found ← io_map_err HBlobStore (get h);
  bs ← io_lift (ok_or (MissingNode h) found);
  io_lift (decode bs h).

(** ** Lookup *)

Fixpoint lookup_loop (fuel : nat) (digest : bytes32) (key : string) (node_hash : Hash)
    (depth : nat) : io St HamtError (option LeafEntry) :=
  match fuel with
  | 0 => io_err (DepthExhausted key depth)
  | S fuel =>
      node ← load_node node_hash;
      match node with
      | Leaf entries => mret (find_key le_key key entries)
      | Intermediate slots =>
          b ← io_lift (ok_or (DepthExhausted key depth) (descent_byte digest depth));
          match slot_at slots b with
          | Some child => lookup_loop fuel digest key child (S depth)
          | None => mret None
          end
      end
  end.

Definition lookup (root : option Hash) (key : string) : io St HamtError (option LeafEntry) :=
  match root with
  | None => mret None
  | Some node_hash => lookup_loop DESCENT_FUEL (key_digest key) key node_hash 0
  end.

(** ** Insertion *)

(** Write every non-empty bucket with [write]; the others stay [None]. *)
Definition put_buckets {A} (write : list A → io St HamtError Hash) (buckets : list (list A))
    : io St HamtError (list (option Hash)) :=
  io_mapM (λ bucket,
    if bool_decide (bucket = []) then mret None
    else h ← write bucket; mret (Some h)) buckets.

Definition split_leaf (depth : nat) (entries : list LeafEntry) : io St HamtError Hash :=
  buckets ← io_lift (distribute (key_digest ∘ le_key) le_key depth entries);
  slots ← put_buckets (λ bucket, put_node (Leaf bucket)) buckets;
  put_node (Intermediate slots).

Definition node_at (node_hash : option Hash) : io St HamtError HamtNode :=
  match node_hash with
  | Some h => load_node h
  | None => mret empty_leaf
  end.

(** The [HamtNode::Leaf] arm of [insert_at]. *)
Definition insert_leaf (node_hash : option Hash) (depth : nat) (entries : list LeafEntry)
    (entry : LeafEntry) (leaf_max_entries : nat) : io St HamtError Hash :=
  if bool_decide (le_key entry ∈ le_key <$> entries) then
    io_lift (ok_or (CorruptNode ZERO "leaf entry found without a node hash") node_hash)
  else
    let entries := sort_by_key le_key (entries ++ [entry]) in
    if length entries <=? leaf_max_entries then put_node (Leaf entries)
    else split_leaf depth entries.

Fixpoint insert_at (fuel : nat) (node_hash : option Hash) (depth : nat) (digest : bytes32)
    (entry : LeafEntry) (leaf_max_entries : nat) : io St HamtError Hash :=
  match fuel with
  | 0 => io_err (DepthExhausted (le_key entry) depth)
  | S fuel =>
      node ← node_at node_hash;
      match node with
      | Leaf entries => insert_leaf node_hash depth entries entry leaf_max_entries
      | Intermediate slots =>
          b ← io_lift (ok_or (DepthExhausted (le_key entry) depth) (descent_byte digest depth));
          let child := slot_at slots b in
          new_child ← insert_at fuel child (S depth) digest entry leaf_max_entries;
          put_node (Intermediate (<[byte_idx b := Some new_child]> slots))
      end
  end.

Definition insert_one (root : option Hash) (entry : LeafEntry) (leaf_max_entries : nat)
    : io St HamtError Hash :=
  insert_at DESCENT_FUEL root 0 (key_digest (le_key entry)) entry leaf_max_entries.

Definition insert_batch (root : option Hash) (entries : list LeafEntry)
    (leaf_max_entries : nat) (denylist : gset string) : io St HamtError Hash :=
  current ← io_fold (λ current entry,
    if bool_decide (le_key entry ∈ denylist) then mret current
    else h ← insert_one current entry leaf_max_entries; mret (Some h)) root entries;
  match current with
  | Some h => mret h
  | None => put_node empty_leaf
  end.

(** ** Bottom-up construction *)

Fixpoint build_subtree (fuel : nat) (entries : list (LeafEntry * bytes32)) (depth : nat)
    (leaf_max_entries : nat) : io St HamtError Hash :=
  if length entries <=? leaf_max_entries then
    put_node (Leaf (fst <$> sort_by_key (le_key ∘ fst) entries))
  else
    match fuel with
    | 0 => io_err (DepthExhausted (default "" (le_key ∘ fst <$> head entries)) depth)
    | S fuel =>
        buckets ← io_lift (distribute snd (le_key ∘ fst) depth entries);
        slots ← put_buckets (λ bucket, build_subtree fuel bucket (S depth) leaf_max_entries) buckets;
        put_node (Intermediate slots)
    end.

Definition build_from_entries (entries : list LeafEntry) (leaf_max_entries : nat)
    : io St HamtError Hash :=
  let unique := (λ e, (e, key_digest (le_key e))) <$> dedup_first le_key entries in
  build_subtree DESCENT_FUEL unique 0 leaf_max_entries.

(** ** Walks over everything reachable *)

Fixpoint warm_cache (fuel : nat) (root : Hash) : io St (fault HamtError) nat :=
  match fuel with
  | 0 => io_err OutOfFuel
  | S fuel =>
      node ← io_map_err Raised (load_node root);
      match node with
      | Leaf entries =>
          _ ← io_mapM (λ e, io_map_err (Raised ∘ HBlobStore) (get (le_hash e))) entries;
          mret (length entries)
      | Intermediate slots =>
          io_fold (λ total child, n ← warm_cache fuel child; mret (total + n))
            0 (omap id slots)
      end
  end.

(** The out-parameter is part of the state: what was collected before an
    error stays collected. *)
Fixpoint collect_reachable (fuel : nat) (root : Hash)
    : io (St * gset Hash) (fault HamtError) unit :=
  match fuel with
  | 0 => io_err OutOfFuel
  | S fuel => λ '(s, out),
      if bool_decide (root ∈ out) then (Ok tt, (s, out))
      else
        (node ← on_fst (io_map_err Raised (load_node root));
         match node with
         | Leaf entries =>
             modify (λ '(s, out), (s, list_to_set (le_hash <$> entries) ∪ out))
         | Intermediate slots =>
             io_fold (λ _ child, collect_reachable fuel child) tt (omap id slots)
         end) (s, {[root]} ∪ out)
  end.

Fixpoint walk_entries (fuel : nat) (root : Hash)
    : io (St * list LeafEntry) (fault HamtError) unit :=
  match fuel with
  | 0 => io_err OutOfFuel
  | S fuel =>
      node ← on_fst (io_map_err Raised (load_node root));
      match node with
      | Leaf entries => modify (λ '(s, out), (s, out ++ entries))
      | Intermediate slots =>
          io_fold (λ _ child, walk_entries fuel child) tt (omap id slots)
      end
  end.
End hamt.
