(* ===== verification/HamtNodeFacts.v ===== *)
(** The node wire format: what [encode] writes, [decode] reads back, and what
    [decode] rejects. *)

From S2P Require Import Prelude Hash Partition Record BlobStore Hamt.

#[global] Opaque INTERMEDIATE_FANOUT.
Lemma FANOUT_eq : INTERMEDIATE_FANOUT = 256.
Proof. reflexivity. Qed.

Section node_facts.
Context `{!Codec LeafEntry, !LeafCodecLaws}.

(** The nodes the program builds: entries of the Rust type, 256 slots, and
    no slot holding the all-zero hash, which would read back as empty. *)
Definition node_wf (n : HamtNode) : Prop :=
  match n with
  | Leaf entries => Forall leaf_entry_dom entries
  | Intermediate slots => length slots = INTERMEDIATE_FANOUT ∧ Some ZERO ∉ slots
  end.

Lemma split_on_leaf (entries : list LeafEntry) :
  split_on x0a (concat ((λ e, ser e ++ [x0a]) <$> entries)) = (ser <$> entries) ++ [[]].
Proof.
  induction entries as [|e entries IH]; [done|].
  rewrite !fmap_cons. simpl. rewrite <-(assoc_L (++)). simpl.
  rewrite split_on_seg by apply leaf_no_newline. by rewrite IH.
Qed.

Lemma decode_lines_ser h (entries : list LeafEntry) :
  Forall leaf_entry_dom entries →
  decode_lines h ((ser <$> entries) ++ [[]]) = Ok entries.
Proof.
  induction 1 as [|e entries He _ IH]; [done|].
  rewrite fmap_cons. simpl. rewrite bool_decide_false by apply leaf_nonempty.
  rewrite de_ser by done. simpl. by rewrite IH.
Qed.

Lemma slot_bytes_length slot : length (slot_bytes slot) = 32.
Proof. destruct slot; simpl; [apply b32_length|done]. Qed.

Lemma concat_slots_length (slots : list (option Hash)) :
  length (concat (slot_bytes <$> slots)) = length slots * 32.
Proof.
  induction slots as [|s slots IH]; [done|].
  rewrite fmap_cons. simpl. rewrite length_app, IH, slot_bytes_length. lia.
Qed.

Lemma concat_slots_take (slots : list (option Hash)) i s :
  slots !! i = Some s →
  take 32 (drop (i * 32) (concat (slot_bytes <$> slots))) = slot_bytes s.
Proof.
  revert i. induction slots as [|s' slots IH]; intros i; [done|].
  rewrite fmap_cons. cbn [concat]. destruct i as [|i].
  - intros [= ->]. rewrite drop_0, take_app_le by (rewrite slot_bytes_length; lia).
    apply take_ge. by rewrite slot_bytes_length.
  - intros Hi. rewrite <-(IH i Hi). f_equal.
    rewrite drop_app_ge by (rewrite slot_bytes_length; lia).
    f_equal. rewrite slot_bytes_length. lia.
Qed.

Lemma slot_of_encode slots i s :
  slots !! i = Some s → s ≠ Some ZERO →
  slot_of (encode (Intermediate slots)) i = s.
Proof.
  intros Hi Hz. unfold slot_of, encode. cbv zeta.
  change (drop (1 + i * 32) (?t :: ?l)) with (drop (i * 32) l).
  rewrite (concat_slots_take _ _ _ Hi). destruct s as [h|]; cbn [slot_bytes].
  - rewrite decide_False.
    + rewrite to_b32_list. by destruct h.
    + intros Hl. apply Hz. f_equal. by apply hash_list_inj.
  - by rewrite decide_True.
Qed.

Lemma decode_encode n h : node_wf n → decode (encode n) h = Ok n.
Proof.
  destruct n as [entries|slots]; simpl.
  - intros Hd. rewrite split_on_leaf, decode_lines_ser by done. done.
  - intros [Hlen Hz]. rewrite concat_slots_length, Hlen. simpl.
    rewrite bool_decide_true by lia. simpl. f_equal. f_equal.
    apply list_eq_same_length with INTERMEDIATE_FANOUT; [done|by rewrite length_fmap, length_seq|].
    intros i x y Hi Hx Hy. rewrite list_lookup_fmap, lookup_seq_lt in Hx by done.
    simpl in Hx. injection Hx as <-.
    change (x01 :: ?l) with (encode (Intermediate slots)).
    apply slot_of_encode; [done|]. intros ->. apply Hz. by eapply list_elem_of_lookup_2.
Qed.

(** A node decoded from bytes has 256 slots, none of them all-zero. *)
Lemma decode_intermediate_wf bs h slots :
  decode bs h = Ok (Intermediate slots) →
  length slots = INTERMEDIATE_FANOUT ∧ Some ZERO ∉ slots.
Proof.
  unfold decode. destruct bs as [|tag rest]; [done|]. case_decide.
  { by destruct (decode_lines h (split_on x0a rest)). }
  case_decide; [|done]. case_match; [done|]. intros [= <-].
  split; [by rewrite length_fmap, length_seq|].
  intros (i & Hi & _)%list_elem_of_fmap. unfold slot_of in Hi. case_decide as Hz; [done|].
  destruct (to_b32 _) as [b|] eqn:E; [|done]. injection Hi as Hi.
  apply to_b32_Some in E. apply Hz. by rewrite <-E, <-Hi.
Qed.

(** The other direction of the round trip, for intermediate nodes: the bytes
    are a function of the slots. *)
Lemma slot_bytes_of bs i :
  length bs = 1 + INTERMEDIATE_FANOUT * 32 → i < INTERMEDIATE_FANOUT →
  slot_bytes (slot_of bs i) = take 32 (drop (1 + i * 32) bs).
Proof.
  intros Hlen Hi. unfold slot_of. cbv zeta. case_decide as Hz; [done|].
  destruct (to_b32 _) as [b|] eqn:E.
  - by apply to_b32_Some in E.
  - apply to_b32_None in E. destruct E. rewrite length_take, length_drop. lia.
Qed.

Lemma chunks_concat (l : list byte) n :
  length l = n * 32 → concat ((λ i, take 32 (drop (i * 32) l)) <$> seq 0 n) = l.
Proof.
  revert l. induction n as [|n IH]; intros l Hl.
  { by apply nil_length_inv in Hl. }
  rewrite <-cons_seq, <-fmap_S_seq, fmap_cons. cbn [concat].
  rewrite <-list_fmap_compose.
  transitivity (take 32 l ++ drop 32 l); [|apply take_drop]. f_equal.
  rewrite <-(IH (drop 32 l)) at 1 by (rewrite length_drop; lia).
  f_equal. apply list_fmap_ext. intros _ i _. simpl. by rewrite drop_drop.
Qed.

Lemma encode_decode bs h slots :
  decode bs h = Ok (Intermediate slots) → encode (Intermediate slots) = bs.
Proof.
  unfold decode. destruct bs as [|tag rest]; [done|]. case_decide.
  { by destruct (decode_lines h (split_on x0a rest)). }
  case_decide as Ht; [|done]. case_bool_decide as Hlen; [|done]. intros [= <-]. simpl.
  subst tag. f_equal. simpl in Hlen.
  rewrite <-(chunks_concat rest INTERMEDIATE_FANOUT) at 2 by lia.
  rewrite <-list_fmap_compose. f_equal. apply list_fmap_ext.
  intros i j [-> Hj]%lookup_seq. simpl. rewrite slot_bytes_of by (simpl; lia). done.
Qed.

Lemma slot_at_lookup slots b child :
  slot_at slots b = Some child ↔ slots !! byte_idx b = Some (Some child).
Proof. unfold slot_at. destruct (slots !! byte_idx b) as [[]|]; naive_solver. Qed.

Lemma slot_at_None slots b :
  length slots = INTERMEDIATE_FANOUT → slot_at slots b = None →
  slots !! byte_idx b = Some None.
Proof.
  intros Hlen. unfold slot_at. pose proof (byte_idx_lt b).
  destruct (lookup_lt_is_Some_2 slots (byte_idx b)) as [o Ho].
  { rewrite Hlen, FANOUT_eq. lia. }
  rewrite Ho. by destruct o.
Qed.
End node_facts.

(** ** Distribution into buckets *)

Section distribute_facts.
Context {A : Type} (digest_of : A → bytes32) (key_of : A → string) (depth : nat).

Definition in_bucket (i : nat) (e : A) : Prop :=
  byte_idx <$> descent_byte (digest_of e) depth = Some i.
#[global] Instance in_bucket_dec i e : Decision (in_bucket i e).
Proof. unfold in_bucket. apply _. Defined.

Lemma distribute_into_spec buckets es out :
  distribute_into digest_of key_of depth buckets es = Ok out →
  length buckets = INTERMEDIATE_FANOUT →
  length out = INTERMEDIATE_FANOUT ∧
  ∀ i b, buckets !! i = Some b → out !! i = Some (b ++ filter (in_bucket i) es).
Proof.
  revert buckets. induction es as [|e es IH]; intros buckets; simpl.
  { intros [= <-] Hlen. split; [done|]. intros i b ->. by rewrite app_nil_r. }
  destruct (descent_byte (digest_of e) depth) as [x|] eqn:E; [|done]. simpl.
  intros Hd Hlen. apply IH in Hd as [Hl Hout]; [|by rewrite length_alter].
  split; [done|]. intros i b Hb. destruct (decide (byte_idx x = i)) as [<-|Hne].
  - rewrite filter_cons_True by (unfold in_bucket; by rewrite E).
    rewrite (Hout _ (b ++ [e])); [by rewrite <-(assoc_L (++))|].
    rewrite list_lookup_alter_eq. by rewrite Hb.
  - rewrite filter_cons_False by (unfold in_bucket; rewrite E; naive_solver).
    apply Hout. by rewrite list_lookup_alter_ne.
Qed.

Lemma distribute_spec es out :
  distribute digest_of key_of depth es = Ok out →
  length out = INTERMEDIATE_FANOUT ∧
  ∀ i, i < INTERMEDIATE_FANOUT → out !! i = Some (filter (in_bucket i) es).
Proof.
  intros Hd. apply distribute_into_spec in Hd as [Hl Hout]; [|apply length_replicate].
  split; [done|]. intros i Hi. apply (Hout i []). by apply lookup_replicate_2.
Qed.

Lemma distribute_total es :
  depth < 31 → ∃ out, distribute digest_of key_of depth es = Ok out.
Proof.
  intros Hd. unfold distribute. generalize (replicate INTERMEDIATE_FANOUT ([] : list A)).
  induction es as [|e es IH]; intros buckets; simpl; [by eexists|].
  destruct (descent_byte_Some (digest_of e) depth Hd) as [x ->]. simpl. apply IH.
Qed.

Lemma distribute_Ok_depth es out e :
  distribute digest_of key_of depth es = Ok out → e ∈ es → depth < 31.
Proof.
  unfold distribute. generalize (replicate INTERMEDIATE_FANOUT ([] : list A)).
  revert out. induction es as [|e' es IH]; intros out buckets; simpl; [set_solver|].
  destruct (descent_byte (digest_of e') depth) as [x|] eqn:E; [|done].
  intros _ _. by eapply descent_byte_lt.
Qed.

Lemma distribute_exhausted es :
  31 ≤ depth → es ≠ [] →
  ∃ e, e ∈ es ∧ distribute digest_of key_of depth es = Err (DepthExhausted (key_of e) depth).
Proof.
  intros Hd. destruct es as [|e es]; [done|]. intros _. exists e. split; [set_solver|].
  unfold distribute. simpl. by rewrite (proj2 (descent_byte_None (digest_of e) depth) Hd).
Qed.

Lemma distribute_buckets es out :
  distribute digest_of key_of depth es = Ok out →
  out = (λ i, filter (in_bucket i) es) <$> seq 0 INTERMEDIATE_FANOUT.
Proof.
  intros Hd. pose proof (distribute_spec _ _ Hd) as [Hlen Hout].
  apply list_eq_same_length with INTERMEDIATE_FANOUT; [by rewrite length_fmap, length_seq|done|].
  intros i x y Hi Hx Hy. rewrite list_lookup_fmap, lookup_seq_lt in Hy by done.
  rewrite Hout in Hx by done. simpl in Hy. congruence.
Qed.

(** Nothing is lost: the buckets together hold the entries. *)
Lemma distribute_perm es out :
  distribute digest_of key_of depth es = Ok out → concat out ≡ₚ es.
Proof.
  intros Hd. pose proof (distribute_buckets _ _ Hd) as ->.
  assert (Forall (λ e, ∃ i, i < INTERMEDIATE_FANOUT ∧ in_bucket i e) es) as Hall.
  { apply Forall_forall. intros e He.
    pose proof (distribute_Ok_depth _ _ _ Hd He) as Hlt.
    destruct (descent_byte_Some (digest_of e) depth Hlt) as [x Hx].
    exists (byte_idx x). split; [rewrite FANOUT_eq; apply byte_idx_lt|].
    unfold in_bucket. by rewrite Hx. }
  clear Hd. induction es as [|e es IH]; simpl.
  - induction (seq 0 INTERMEDIATE_FANOUT) as [|i ix IHi]; [done|]. exact IHi.
  - apply Forall_cons in Hall as [(i & Hi & He) Hall].
    transitivity ([e] ++ concat ((λ i, filter (in_bucket i) es) <$> seq 0 INTERMEDIATE_FANOUT));
      [|simpl; f_equiv; by apply IH].
    apply (concat_fmap_update (λ i, filter (in_bucket i) es) _ _ i [e]); [done|..].
    + by rewrite filter_cons_True.
    + intros j Hj. rewrite filter_cons_False; [done|].
      unfold in_bucket in *. naive_solver.
Qed.
End distribute_facts.
