(* ===== verification/HamtFacts.v ===== *)
(** What the stored nodes mean and what the trie operations do to it.

    [rep C p h es]: in the blobs [C], the node stored under [h], reached by
    the descent path [p], holds exactly the entries [es], in walk order. *)

From S2P Require Import Prelude Hash Partition Record BlobStore Hamt HamtNodeFacts.

Section rep.
Context `{Blake3} `{Sha256} `{!Codec LeafEntry}.

(** The entry's key descends along [p]. *)
Definition under (p : list nat) (e : LeafEntry) : Prop :=
  p `prefix_of` path_of (key_digest (le_key e)).

Inductive rep (C : gmap Hash (list byte)) : list nat → Hash → list LeafEntry → Prop :=
| rep_leaf p h bs es :
    C !! h = Some bs → decode bs h = Ok (Leaf es) → length p ≤ 31 →
    NoDup (le_key <$> es) → key_sorted le_key es →
    Forall (under p) es → Forall leaf_entry_dom es →
    rep C p h es
| rep_node p h bs slots f :
    C !! h = Some bs → decode bs h = Ok (Intermediate slots) → length p < 31 →
    (∀ i c, slots !! i = Some (Some c) → rep C (p ++ [i]) c (f i)) →
    (∀ i, slots !! i = Some None → f i = []) →
    rep C p h (concat (f <$> seq 0 INTERMEDIATE_FANOUT)).

(** A slot, or a partition root: [None] is a subtree never built. *)
Definition rep_at (C : gmap Hash (list byte)) (p : list nat) (o : option Hash)
    (es : list LeafEntry) : Prop :=
  match o with Some h => rep C p h es | None => es = [] end.
Definition rep_root (C : gmap Hash (list byte)) := rep_at C [].

Lemma rep_mono C C' p h es : C ⊆ C' → rep C p h es → rep C' p h es.
Proof.
  intros HC. induction 1 as [p h bs es Hbs|p h bs slots f Hbs Hd Hp _ IH Hf].
  - eapply rep_leaf; [by eapply lookup_weaken|done..].
  - eapply rep_node; [by eapply lookup_weaken|done..].
Qed.

Lemma rep_lookup C p h es : rep C p h es → ∃ bs, C !! h = Some bs.
Proof. destruct 1; eauto. Qed.

Lemma under_snoc p i e :
  under (p ++ [i]) e ↔
  under p e ∧ in_bucket (key_digest ∘ le_key) (length p) i e.
Proof. unfold under, in_bucket. rewrite prefix_of_snoc, path_of_lookup. done. Qed.

Lemma rep_node_slot slots f i x C p :
  (∀ i c, slots !! i = Some (Some c) → rep C (p ++ [i]) c (f i)) →
  (∀ i, slots !! i = Some None → f i = []) →
  length slots = INTERMEDIATE_FANOUT → i < INTERMEDIATE_FANOUT → x ∈ f i →
  ∃ c, slots !! i = Some (Some c).
Proof.
  intros _ Hf Hlen Hi Hx. destruct (lookup_lt_is_Some_2 slots i) as [[c|] Hs]; [lia|eauto|].
  rewrite (Hf _ Hs) in Hx. set_solver.
Qed.

Lemma rep_under C p h es : rep C p h es → Forall (under p) es.
Proof.
  induction 1 as [|p h bs slots f Hbs Hd Hp Hr IH Hf]; [done|].
  apply Forall_forall. intros e (i & Hi & He)%concat_fmap_elem.
  apply decode_intermediate_wf in Hd as [Hlen _].
  edestruct rep_node_slot as [c Hc]; [done..|].
  specialize (IH _ _ Hc). rewrite Forall_forall in IH. by apply IH, under_snoc in He as [? _].
Qed.

Lemma rep_dom C p h es : rep C p h es → Forall leaf_entry_dom es.
Proof.
  induction 1 as [|p h bs slots f Hbs Hd Hp Hr IH Hf]; [done|].
  apply Forall_forall. intros e (i & Hi & He)%concat_fmap_elem.
  apply decode_intermediate_wf in Hd as [Hlen _].
  edestruct rep_node_slot as [c Hc]; [done..|].
  specialize (IH _ _ Hc). rewrite Forall_forall in IH. by apply IH.
Qed.

(** Entries of different slots have different keys. *)
Lemma rep_slot_under C p slots f i e :
  (∀ i c, slots !! i = Some (Some c) → rep C (p ++ [i]) c (f i)) →
  (∀ i, slots !! i = Some None → f i = []) →
  length slots = INTERMEDIATE_FANOUT → i < INTERMEDIATE_FANOUT → e ∈ f i →
  under (p ++ [i]) e.
Proof.
  intros Hr Hf Hlen Hi He. edestruct rep_node_slot as [c Hc]; [done..|].
  apply Hr, rep_under in Hc. rewrite Forall_forall in Hc. by apply Hc.
Qed.

Lemma under_slot_inj p i j e e' :
  under (p ++ [i]) e → under (p ++ [j]) e' → le_key e = le_key e' → i = j.
Proof.
  rewrite !under_snoc. unfold in_bucket. simpl. intros [_ H1] [_ H2] Hk.
  rewrite Hk in H1. congruence.
Qed.

Lemma NoDup_concat_keys (f : nat → list LeafEntry) p n :
  (∀ i, i < n → NoDup (le_key <$> f i)) →
  (∀ i e, i < n → e ∈ f i → under (p ++ [i]) e) →
  NoDup (le_key <$> concat (f <$> seq 0 n)).
Proof.
  intros Hnd Hu. induction n as [|n IH]; [constructor|].
  rewrite seq_S, fmap_app, concat_app. simpl. rewrite app_nil_r, fmap_app.
  apply NoDup_app. split_and!.
  - apply IH; [intros i Hi; apply Hnd; lia|intros i e Hi; apply Hu; lia].
  - intros k (e & -> & (i & Hi & He)%concat_fmap_elem)%list_elem_of_fmap
      (e' & Hk & He')%list_elem_of_fmap.
    assert (i = n); [|lia].
    eapply under_slot_inj; [apply Hu, He; lia|apply Hu, He'; lia|done].
  - apply Hnd. lia.
Qed.

Lemma rep_NoDup C p h es : rep C p h es → NoDup (le_key <$> es).
Proof.
  induction 1 as [|p h bs slots f Hbs Hd Hp Hr IH Hf]; [done|].
  apply decode_intermediate_wf in Hd as [Hlen _].
  eapply NoDup_concat_keys; [|intros; by eapply rep_slot_under].
  intros i Hi. destruct (lookup_lt_is_Some_2 slots i) as [[c|] Hs]; [lia|by eapply IH|].
  rewrite (Hf _ Hs). constructor.
Qed.

(** The stored bytes determine the entries. *)
Lemma rep_det C p h es es' : rep C p h es → rep C p h es' → es = es'.
Proof.
  intros Hr. revert es'. induction Hr as [p h bs es Hbs Hd|p h bs slots f Hbs Hd Hp Hr IH Hf];
    intros es' Hr'; inversion Hr' as [? ? bs' ? Hbs' Hd'|? ? bs' slots' f' Hbs' Hd' ? Hr1 Hf1]; subst;
    simplify_eq; [congruence..|].
  assert (slots' = slots) as -> by congruence.
  apply decode_intermediate_wf in Hd as [Hlen _]. f_equal. apply list_fmap_ext.
  intros i x Hi. apply list_elem_of_lookup_2, elem_of_seq in Hi as [_ Hi]. simpl in Hi.
  destruct (lookup_lt_is_Some_2 slots x) as [[c|] Hs]; [lia|eauto|].
  by rewrite (Hf _ Hs), (Hf1 _ Hs).
Qed.

(** In a node, a key can only be in the slot its digest selects. *)
Lemma find_key_node C p slots f key b :
  (∀ i c, slots !! i = Some (Some c) → rep C (p ++ [i]) c (f i)) →
  (∀ i, slots !! i = Some None → f i = []) →
  length slots = INTERMEDIATE_FANOUT →
  descent_byte (key_digest key) (length p) = Some b →
  find_key le_key key (concat (f <$> seq 0 INTERMEDIATE_FANOUT)) =
  find_key le_key key (f (byte_idx b)).
Proof.
  intros Hr Hf Hlen Hb.
  assert (byte_idx b < INTERMEDIATE_FANOUT) as Hlt by (rewrite FANOUT_eq; apply byte_idx_lt).
  assert (∀ i, i < INTERMEDIATE_FANOUT → NoDup (le_key <$> f i)) as Hnd.
  { intros i Hi. destruct (lookup_lt_is_Some_2 slots i) as [[c|] Hs]; [lia| |].
    - by eapply rep_NoDup, Hr. - rewrite (Hf _ Hs). constructor. }
  apply option_eq. intros e.
  rewrite !find_key_iff; [|by apply Hnd|].
  2:{ eapply NoDup_concat_keys; [done|]. intros. by eapply rep_slot_under. }
  rewrite concat_fmap_elem. split; [|naive_solver].
  intros [(i & Hi & He) Hk]. split; [|done].
  assert (i = byte_idx b) as ->; [|done].
  pose proof (rep_slot_under _ _ _ _ _ _ Hr Hf Hlen Hi He) as Hu.
  apply under_snoc in Hu as [_ Hu]. unfold in_bucket in Hu. simpl in Hu.
  rewrite Hk, Hb in Hu. by injection Hu.
Qed.

(** Assemble a node from what its slots represent. *)
Lemma rep_node_intro C p h bs slots (g : nat → list LeafEntry) :
  C !! h = Some bs → decode bs h = Ok (Intermediate slots) → length p < 31 →
  (∀ i, i < INTERMEDIATE_FANOUT → ∃ es, es ≡ₚ g i ∧
     match slots !! i with
     | Some (Some c) => rep C (p ++ [i]) c es
     | _ => es = []
     end) →
  ∃ es', rep C p h es' ∧ es' ≡ₚ concat (g <$> seq 0 INTERMEDIATE_FANOUT).
Proof.
  intros Hbs Hd Hp Hsl. apply finite_choice in Hsl as (ys & Hlen & Hys).
  pose proof (decode_intermediate_wf _ _ _ Hd) as [Hsl _].
  assert (∀ i, i < INTERMEDIATE_FANOUT → ys !! i = Some (default [] (ys !! i))) as Hyi.
  { intros i Hi. destruct (lookup_lt_is_Some_2 ys i) as [y ->]; [lia|done]. }
  exists (concat ((λ i, default [] (ys !! i)) <$> seq 0 INTERMEDIATE_FANOUT)). split.
  - eapply rep_node; [done..| |].
    + intros i c Hi. pose proof (lookup_lt_Some _ _ _ Hi) as Hlt. rewrite Hsl in Hlt.
      apply Hyi, Hys in Hlt as [_ Hr]. by rewrite Hi in Hr.
    + intros i Hi. pose proof (lookup_lt_Some _ _ _ Hi) as Hlt. rewrite Hsl in Hlt.
      apply Hyi, Hys in Hlt as [_ Hr]. by rewrite Hi in Hr.
  - apply concat_fmap_perm. intros i [_ Hi]%elem_of_seq. simpl in Hi.
    by apply Hyi, Hys in Hi as [? _].
Qed.
End rep.

(** ** Reading *)

Section reading.
Context `{Blake3} `{Sha256} `{!Codec LeafEntry} {St : Type} `{!BlobStore St, !BlobStoreSpec St}.

Lemma load_node_ok (s : St) h n s' :
  load_node h s = (Ok n, s') →
  contents s ⊆ contents s' ∧ ∃ bs, contents s' !! h = Some bs ∧ decode bs h = Ok n.
Proof.
  unfold load_node. intros (found & s1 & Hg & Hr)%io_bind_ok.
  apply io_map_err_ok in Hg. destruct found as [bs|]; [|done].
  unfold mbind, io_bind, io_lift in Hr. simpl in Hr. simplify_eq.
  split; [by eapply get_grows|]. exists bs. split; [by eapply get_sound|done].
Qed.

(** On a node the model knows, a successful load returns that node. *)
Lemma load_node_known (s : St) h n s' bs :
  load_node h s = (Ok n, s') → contents s !! h = Some bs → decode bs h = Ok n.
Proof.
  intros (HC & bs' & Hbs' & Hd)%load_node_ok Hbs.
  pose proof (lookup_weaken _ _ _ _ Hbs HC). congruence.
Qed.

Lemma load_node_grows (s : St) h r s' : load_node h s = (r, s') → contents s ⊆ contents s'.
Proof.
  unfold load_node, mbind, io_bind, io_map_err. intros Hl. destruct (get h s) as [r1 s1] eqn:Eg. apply get_grows in Eg.
  revert Hl. destruct r1 as [[bs|]|e]; simpl; unfold io_lift; simpl; by intros [= _ <-].
Qed.
End reading.

(** *** Reading a tree from a store that may have part of it

    A tree is given by the blobs [C] of the store it was published from.
    The reader's store is in a [good] state: one that, for a hash of [C],
    answers with the blob [C] has or not at all. *)

Section good_reading.
Context `{Blake3} `{Sha256} `{!Codec LeafEntry} {St : Type} `{!BlobStore St}.
Context (C : gmap Hash (list byte)) (good : St → Prop).
Context (good_load : ∀ s h r s', good s → load_node h s = (r, s') →
  good s' ∧ ∀ n bs, r = Ok n → C !! h = Some bs → decode bs h = Ok n).

Lemma lookup_loop_good fuel key p h es (s : St) r s' : good s →
  rep C p h es → p `prefix_of` path_of (key_digest key) →
  lookup_loop fuel (key_digest key) key h (length p) s = (Ok r, s') →
  r = find_key le_key key es ∧ good s'.
Proof.
  revert p h es s. induction fuel as [|fuel IH]; intros p h es s Hg Hrep Hp; [done|].
  simpl. intros Hr. apply io_bind_ok in Hr as (n & s1 & Hl & Hr).
  destruct (good_load _ _ _ _ Hg Hl) as [Hg1 Hk].
  inversion Hrep as [? ? bs ? Hbs Hd|? ? bs slots f Hbs Hd Hlen Hsome Hnone]; subst.
  - pose proof (Hk _ _ eq_refl Hbs) as Hd'. rewrite Hd in Hd'. simplify_eq. by run_inv.
  - pose proof (Hk _ _ eq_refl Hbs) as Hd'. rewrite Hd in Hd'. simplify_eq.
    apply decode_intermediate_wf in Hd as [Hsl _].
    destruct (descent_byte (key_digest key) (length p)) as [b|] eqn:Eb; [|done].
    rewrite (find_key_node _ _ _ _ _ b Hsome Hnone Hsl Eb).
    simpl in Hr. unfold mbind, io_bind, io_lift in Hr. simpl in Hr.
    destruct (slot_at slots b) as [c|] eqn:Ec.
    + apply slot_at_lookup in Ec.
      replace (S (length p)) with (length (p ++ [byte_idx b])) in Hr
        by (rewrite length_app; simpl; lia).
      eapply IH in Hr; [done|done|by eapply Hsome|].
      apply prefix_of_snoc. by rewrite path_of_lookup, Eb.
    + apply slot_at_None in Ec; [|done]. run_inv. by rewrite (Hnone _ Ec).
Qed.
End good_reading.

Section own_reading.
Context `{Blake3} `{Sha256} `{!Codec LeafEntry} {St : Type} `{!BlobStore St, !BlobStoreSpec St}.

(** A store answers like itself. *)
Lemma own_load (s0 s : St) h r s' : contents s0 ⊆ contents s → load_node h s = (r, s') →
  contents s0 ⊆ contents s' ∧ ∀ n bs, r = Ok n → contents s0 !! h = Some bs → decode bs h = Ok n.
Proof.
  intros Hs Hl. split; [by etrans; [|eapply load_node_grows]|]. intros n bs -> Hbs.
  eapply load_node_known; [done|]. by eapply lookup_weaken.
Qed.

Lemma lookup_loop_rep fuel key p h es (s : St) r s' :
  rep (contents s) p h es → p `prefix_of` path_of (key_digest key) →
  lookup_loop fuel (key_digest key) key h (length p) s = (Ok r, s') →
  r = find_key le_key key es.
Proof.
  intros Hrep Hp Hr. eapply (lookup_loop_good (contents s) (λ s', contents s ⊆ contents s')) in Hr as [? _]; [done| |done..].
  intros s1 h1 r1 s2. apply own_load.
Qed.
End own_reading.

(** *** Stores that verify

    In a [verified] state, whatever a store answers for a hash has that
    hash. *)

Class VerifiedStore `{Blake3} (St : Type) `{!BlobStore St} (D : list byte → Prop) := {
  verified : St → Prop;
  get_verified h s r s' : verified s → get h s = (r, s') →
    verified s' ∧ ∀ b, r = Ok (Some b) → Hash_of b = h ∧ D b;
  prefetch_verified hs n s : verified s → verified (prefetch hs n s);
}.

#[global] Program Instance MemoryBlobStore_verified `{Blake3} (D : list byte → Prop) : VerifiedStore MemoryBlobStore D := {
  verified s := map_Forall (λ h b, Hash_of b = h ∧ D b) (inner s);
}.
Next Obligation. intros ? D h s r s' Hs [= <- <-]. split; [done|]. intros b [= Hb]. by apply Hs. Qed.
Next Obligation. done. Qed.

(** Documented: iroh checks what peers send against the hash it asked for. *)
Class IrohVerified (I : Type) `{IrohBlobsLaws I} (D : list byte → Prop) := {
  iroh_verified : I → Prop := λ i, map_Forall (λ h b, Hash_of b = h ∧ D b) (iroh_contents i);
  download_verified h ps i r i' : iroh_verified i → download h ps i = (r, i') → iroh_verified i';
  execute_verified p hs i r i' : iroh_verified i → execute_get_many p hs i = (r, i') → iroh_verified i';
}.

Section iroh_verified.
Context {I : Type} {D : list byte → Prop} `{IrohVerified I D}.

Definition stays_verified (i i' : I) : Prop := iroh_verified i → iroh_verified i'.
#[local] Instance stays_verified_preorder : PreOrder stays_verified.
Proof. unfold stays_verified. split; [by intros i Hi|]. intros i1 i2 i3 H12 H23 Hi. auto. Qed.
Lemma same_contents_verified (i i' : I) : iroh_contents i' = iroh_contents i → stays_verified i i'.
Proof. unfold stays_verified, iroh_verified. by intros ->. Qed.

#[global] Program Instance IrohBlobStore_verified : VerifiedStore (IrohBlobStore I) D := {
  verified s := iroh_verified (ib_store s);
}.
Next Obligation.
  intros h s r s' Hs Hr.
  assert (iroh_verified (ib_store s')) as Hs'.
  { revert Hs. apply (get_moved stays_verified) with (h := h) (r := r); [| |exact Hr].
    - intros h1 i r1 i' Hg. by apply same_contents_verified; eapply get_bytes_state.
    - intros h1 ps i r1 i' Hd Hi. by eapply download_verified. }
  split; [done|]. intros b ->. apply Hs'. destruct (IrohBlobStore_get_spec h s _ s' Hr) as [[_ Hg] _]. by apply Hg.
Qed.
Next Obligation.
  intros hs n s Hs. revert Hs. apply (prefetch_moved stays_verified).
  - intros h i r i' Hh. by apply same_contents_verified; eapply has_state.
  - intros m i r i' Hm. by apply same_contents_verified; eapply late_state.
  - intros p m i r i' Hm. by apply same_contents_verified; eapply connect_state.
  - intros p h i r i' He Hi. by eapply execute_verified.
Qed.
End iroh_verified.

Section verified.
Context `{Blake3} `{Sha256} `{!Codec LeafEntry} {St : Type} `{!BlobStore St}.
Context (D : list byte → Prop) `{!CollisionFree D} `{!VerifiedStore St D}.

(** [C] is what the publisher's store holds. *)
Definition published (C : gmap Hash (list byte)) : Prop := map_Forall (λ h b, Hash_of b = h ∧ D b) C.

Lemma verified_load C (s : St) h r s' : published C → verified s → load_node h s = (r, s') →
  verified s' ∧ ∀ n bs, r = Ok n → C !! h = Some bs → decode bs h = Ok n.
Proof.
  intros HC Hs Hl. unfold load_node, mbind, io_bind, io_map_err in Hl. destruct (get h s) as [r1 s1] eqn:Eg.
  destruct (get_verified _ _ _ _ Hs Eg) as [Hs1 Hb]. destruct r1 as [[bs|]|e]; unfold io_lift in Hl; simpl in Hl;
    injection Hl as <- <-; (split; [done|]); intros n bs' Hr Hbs'; try done.
  destruct (Hb bs eq_refl) as [Hh HD]. destruct (HC _ _ Hbs') as [Hh' HD'].
  by assert (bs' = bs) as -> by (eapply cf_inj; [done..|congruence]).
Qed.

Lemma lookup_loop_verified C fuel digest key h depth (s : St) r s' : published C → verified s →
  lookup_loop fuel digest key h depth s = (r, s') → verified s'.
Proof.
  intros HC. revert h depth s. induction fuel as [|fuel IH]; intros h depth s Hs Hr; [by injection Hr as _ <-|].
  simpl in Hr. unfold mbind, io_bind in Hr. destruct (load_node h s) as [r1 s1] eqn:E.
  destruct (verified_load C _ _ _ _ HC Hs E) as [Hs1 _]. destruct r1 as [[es|slots]|e]; [by injection Hr as _ <-| |by injection Hr as _ <-].
  unfold io_lift in Hr. destruct (descent_byte digest depth) as [b|]; simpl in Hr; [|by injection Hr as _ <-].
  destruct (slot_at slots b); [by eapply IH|by injection Hr as _ <-].
Qed.

(** A lookup that succeeds answers for the published tree. *)
Lemma lookup_verified C root key es (s : St) r s' : published C → verified s → rep_root C (Some root) es →
  lookup (Some root) key s = (Ok r, s') → r = find_key le_key key es ∧ verified s'.
Proof.
  intros HC Hs Hr Hl. eapply (lookup_loop_good C verified); [|done|exact Hr|apply prefix_nil|exact Hl].
  intros s1 h r1 s2. by apply verified_load.
Qed.
End verified.

Section reliable_reading.
Context `{Blake3} `{Sha256} `{!Codec LeafEntry} {St : Type}
  `{!BlobStore St, !BlobStoreSpec St, !ReliableStore St}.

Lemma load_node_run (s : St) h bs n :
  contents s !! h = Some bs → decode bs h = Ok n → load_node h s = (Ok n, s).
Proof.
  intros Hbs Hd. unfold load_node, io_map_err, mbind, io_bind.
  rewrite get_total, Hbs. simpl. unfold io_lift. by rewrite Hd.
Qed.

Lemma load_node_missing (s : St) h :
  contents s !! h = None → load_node h s = (Err (MissingNode h), s).
Proof.
  intros Hbs. unfold load_node, io_map_err, mbind, io_bind. by rewrite get_total, Hbs.
Qed.

Lemma lookup_loop_total fuel key p h es (s : St) :
  rep (contents s) p h es → p `prefix_of` path_of (key_digest key) → 32 ≤ fuel + length p →
  lookup_loop fuel (key_digest key) key h (length p) s = (Ok (find_key le_key key es), s).
Proof.
  revert p h es. induction fuel as [|fuel IH]; intros p h es Hrep Hp Hf.
  { inversion Hrep; subst; simpl in *; lia. }
  simpl. inversion Hrep as [? ? bs ? Hbs Hd|? ? bs slots f Hbs Hd Hlen Hsome Hnone]; subst;
    rewrite (io_bind_run _ _ _ _ _ (load_node_run _ _ _ _ Hbs Hd)); [done|].
  apply decode_intermediate_wf in Hd as [Hsl _].
  destruct (descent_byte_Some (key_digest key) (length p) Hlen) as [b Eb].
  rewrite (find_key_node _ _ _ _ _ b Hsome Hnone Hsl Eb), Eb.
  unfold mbind, io_bind, io_lift. simpl.
  destruct (slot_at slots b) as [c|] eqn:Ec.
  - apply slot_at_lookup in Ec.
    replace (S (length p)) with (length (p ++ [byte_idx b])) by (rewrite length_app; simpl; lia).
    apply IH; [by apply Hsome| |rewrite length_app; simpl; lia].
    apply prefix_of_snoc. by rewrite path_of_lookup, Eb.
  - apply slot_at_None in Ec; [|done]. by rewrite (Hnone _ Ec).
Qed.
End reliable_reading.

(** ** Writing *)

(** The specification of an insertion: first write wins. *)
Definition insert_entry (e : LeafEntry) (es : list LeafEntry) : list LeafEntry :=
  if decide (le_key e ∈ le_key <$> es) then es else e :: es.

Section writing.
Context `{Blake3} `{Sha256} `{!Codec LeafEntry, !LeafCodecLaws}.
Context {St : Type} `{!BlobStore St, !BlobStoreSpec St, !LocalStore St}.
Context (D : list byte → Prop) `{!CollisionFree D}.
Implicit Types s : Traced St.

Lemma steps_put_node n : steps_in (advances D) (put_node (St:=Traced St) n).
Proof. unfold put_node. eauto with steps. Qed.
Lemma steps_load_node h : steps_in (advances D) (load_node (St:=Traced St) h).
Proof. unfold load_node. steps. Qed.

Lemma put_node_ok n s h s' :
  put_node n s = (Ok h, s') → node_wf n → Forall D (tr_log s') →
  (∃ bs, contents s' !! h = Some bs ∧ decode bs h = Ok n) ∧ h ≠ ZERO.
Proof.
  unfold put_node. intros Hr Hwf HD. run_inv. apply put_ok_run in Hr as (-> & Hc & Hin).
  split.
  - eexists. split; [done|]. by apply decode_encode.
  - apply cf_nonzero. rewrite Forall_forall in HD. by apply HD.
Qed.

Lemma rep_nonzero s p h es : store_ok D s → rep (contents s) p h es → h ≠ ZERO.
Proof.
  intros [_ Hok] [bs Hbs]%rep_lookup. destruct (Hok _ _ Hbs) as [<- HD]. by apply cf_nonzero.
Qed.

(** What [put_buckets] leaves behind, given what each write does. *)
Lemma put_buckets_rep {A} (write : list A → io (Traced St) HamtError Hash) buckets s slots s'
    (p : list nat) (g : nat → list LeafEntry) :
  (∀ b, steps_in (advances D) (write b)) →
  (∀ i b si h si', buckets !! i = Some b → b ≠ [] → write b si = (Ok h, si') →
     store_ok D si → Forall D (tr_log si') →
     ∃ es, rep (contents si') (p ++ [i]) h es ∧ es ≡ₚ g i) →
  (∀ i, buckets !! i = Some [] → g i = []) →
  put_buckets write buckets s = (Ok slots, s') →
  store_ok D s → Forall D (tr_log s') →
  advances D s s' ∧ length slots = length buckets ∧ (Some ZERO ∉ slots) ∧
  ∀ i, i < length buckets → ∃ es, es ≡ₚ g i ∧
     match slots !! i with
     | Some (Some c) => rep (contents s') (p ++ [i]) c es
     | _ => es = []
     end.
Proof.
  intros Hst Hw Hg Hr Hok HD. unfold put_buckets in Hr.
  apply (io_mapM_ok (advances D)) in Hr as (Hlen & HR & Hall); last first.
  { intros b. case_bool_decide; [apply steps_in_ret; apply _|].
    apply steps_in_bind; [apply _|done|]. intros h. apply steps_in_ret. apply _. }
  assert (∀ i b, buckets !! i = Some b → ∃ es o, es ≡ₚ g i ∧ slots !! i = Some o ∧ o ≠ Some ZERO ∧
     match o with Some c => rep (contents s') (p ++ [i]) c es | None => es = [] end) as Hi.
  { intros i b Hb. destruct (Hall i b Hb) as (y & si & si' & Hy & Hrun & HA1 & HA2 & HA3).
    case_bool_decide as Hbe.
    - subst b. run_inv. exists [], None. rewrite (Hg _ Hb). naive_solver.
    - run_inv.
      destruct (advances_within D s si s') as (Hoki & HCi & HDi); [done|by etrans|done..|].
      destruct (advances_within D si si' s') as (Hoki' & HCi' & HDi'); [done..|].
      destruct (Hw i b si a si') as (es & Hes & Hp); [done..|].
      exists es, (Some a). split_and!; [done|done| |].
      + intros [= ->]. by eapply rep_nonzero.
      + eapply rep_mono; [|done]. by destruct HA3 as [_ [_ ?]]. }
  split_and!; [done|done| |].
  - intros [i Hz]%list_elem_of_lookup.
    pose proof (lookup_lt_Some _ _ _ Hz) as Hlt. rewrite Hlen in Hlt.
    apply lookup_lt_is_Some in Hlt as [b Hb]. destruct (Hi i b Hb) as (es & o & _ & Ho & Hnz & _).
    congruence.
  - intros i Hlt. apply lookup_lt_is_Some in Hlt as [b Hb].
    destruct (Hi i b Hb) as (es & o & Hp & -> & _ & Hes). exists es. by destruct o.
Qed.

(** Buckets written as the children of a new intermediate node. *)
Lemma put_split_rep {A} (write : list A → io (Traced St) HamtError Hash) buckets s slots s1 h s'
    (p : list nat) (g : nat → list LeafEntry) :
  length buckets = INTERMEDIATE_FANOUT → length p < 31 →
  (∀ b, steps_in (advances D) (write b)) →
  (∀ i b si h si', buckets !! i = Some b → b ≠ [] → write b si = (Ok h, si') →
     store_ok D si → Forall D (tr_log si') →
     ∃ es, rep (contents si') (p ++ [i]) h es ∧ es ≡ₚ g i) →
  (∀ i, buckets !! i = Some [] → g i = []) →
  put_buckets write buckets s = (Ok slots, s1) →
  put_node (Intermediate slots) s1 = (Ok h, s') →
  store_ok D s → Forall D (tr_log s') →
  ∃ es, rep (contents s') p h es ∧ es ≡ₚ concat (g <$> seq 0 INTERMEDIATE_FANOUT).
Proof.
  intros Hlen Hp Hst Hw Hg Hb Hn Hok HD.
  pose proof (steps_put_node _ _ _ _ Hn) as Hadv.
  assert (Forall D (tr_log s1)) as HD1.
  { destruct Hadv as [[k Hk] _]. rewrite Hk in HD. by apply Forall_app in HD as [? _]. }
  eapply put_buckets_rep in Hb as (Hadv1 & Hlen1 & Hz & Hi); [|done..].
  destruct (advances_within D s s1 s') as (Hok1 & _ & _); [done..|].
  destruct (advances_within D s1 s' s') as (_ & HC & _); [done..|].
  apply put_node_ok in Hn as [(bs & Hbs & Hd) _]; [|split; [congruence|done]|done].
  eapply rep_node_intro; [done..|]. intros i Hilt.
  destruct (Hi i) as (es & Hes & Hm); [lia|]. exists es. split; [done|].
  destruct (slots !! i) as [[c|]|]; [|done..]. by eapply rep_mono.
Qed.

Lemma put_leaf_rep p es s h s' :
  put_node (Leaf es) s = (Ok h, s') → Forall D (tr_log s') → length p ≤ 31 →
  NoDup (le_key <$> es) → key_sorted le_key es → Forall (under p) es →
  Forall leaf_entry_dom es → rep (contents s') p h es.
Proof.
  intros Hn HD Hp Hnd Hs Hu Hdom.
  apply put_node_ok in Hn as [(bs & Hbs & Hd) _]; [|done|done]. by eapply rep_leaf.
Qed.

Lemma steps_put_buckets {A} (write : list A → io (Traced St) HamtError Hash) bs :
  (∀ b, steps_in (advances D) (write b)) → steps_in (advances D) (put_buckets write bs).
Proof. intros. unfold put_buckets. steps. Qed.

Lemma steps_split_leaf depth es : steps_in (advances D) (split_leaf (St:=Traced St) depth es).
Proof. unfold split_leaf. steps. apply steps_put_buckets. intros. apply steps_put_node. Qed.

(** Distributing entries over the slots of a new intermediate node: shared
    by the leaf split and by the bottom-up construction. *)
Lemma split_rep {A} (entry : A → LeafEntry) (digest_of : A → bytes32) (key_of : A → string)
    (write : list A → io (Traced St) HamtError Hash) xs buckets s slots s1 h s' (p : list nat) :
  (∀ b, steps_in (advances D) (write b)) →
  distribute digest_of key_of (length p) xs = Ok buckets → xs ≠ [] →
  put_buckets write buckets s = (Ok slots, s1) →
  put_node (Intermediate slots) s1 = (Ok h, s') →
  store_ok D s → Forall D (tr_log s') →
  (∀ i si hi si', let b := filter (in_bucket digest_of (length p) i) xs in
     i < INTERMEDIATE_FANOUT → b ≠ [] → length p < 31 → write b si = (Ok hi, si') →
     store_ok D si → Forall D (tr_log si') →
     ∃ es, rep (contents si') (p ++ [i]) hi es ∧ es ≡ₚ entry <$> b) →
  ∃ es, rep (contents s') p h es ∧ es ≡ₚ entry <$> xs.
Proof.
  intros Hst Hd Hne Hb Hn Hok HD Hw.
  assert (length p < 31) as Hp.
  { destruct xs as [|x xs]; [done|]. eapply distribute_Ok_depth; [done|by left]. }
  pose proof (distribute_buckets _ _ _ _ _ Hd) as Hbs.
  set (g i := entry <$> filter (in_bucket digest_of (length p) i) xs).
  assert (concat (g <$> seq 0 INTERMEDIATE_FANOUT) ≡ₚ entry <$> xs) as Hperm.
  { rewrite <-(distribute_perm _ _ _ _ _ Hd) at 1. by rewrite Hbs, <-concat_fmap_fmap. }
  assert (∀ i b, buckets !! i = Some b → i < INTERMEDIATE_FANOUT ∧
    b = filter (in_bucket digest_of (length p) i) xs) as Hi.
  { subst buckets. intros i b (j & -> & [-> Hj]%lookup_seq)%list_lookup_fmap_Some. done. }
  destruct (put_split_rep write buckets s slots s1 h s' p g) as (es & Hrep & Hes); try done.
  - by rewrite Hbs, length_fmap, length_seq.
  - intros i b si hi si' [Hlt ->]%Hi Hbe Hwr Hoki HDi. by eapply Hw.
  - intros i [_ Hb0]%Hi. unfold g. by rewrite <-Hb0.
  - exists es. split; [done|]. by rewrite Hes.
Qed.

Lemma bucket_leaf (es : list LeafEntry) p i :
  NoDup (le_key <$> es) → Forall (under p) es → Forall leaf_entry_dom es →
  let b := filter (in_bucket (key_digest ∘ le_key) (length p) i) es in
  NoDup (le_key <$> b) ∧ Forall (under (p ++ [i])) b ∧ Forall leaf_entry_dom b.
Proof.
  intros Hnd Hu Hdom b. split_and!; [by apply NoDup_fmap_filter| |].
  - apply Forall_forall. intros e [Hbk He]%list_elem_of_filter. apply under_snoc.
    rewrite Forall_forall in Hu. split; [by apply Hu|done].
  - apply Forall_forall. intros e [_ He]%list_elem_of_filter.
    rewrite Forall_forall in Hdom. by apply Hdom.
Qed.

Lemma split_leaf_rep p es s h s' :
  split_leaf (length p) es s = (Ok h, s') → store_ok D s → Forall D (tr_log s') →
  es ≠ [] → NoDup (le_key <$> es) → key_sorted le_key es → Forall (under p) es →
  Forall leaf_entry_dom es →
  ∃ es', rep (contents s') p h es' ∧ es' ≡ₚ es.
Proof.
  unfold split_leaf. intros Hr Hok HD Hne Hnd Hs Hu Hdom. run_inv.
  destruct (split_rep id (key_digest ∘ le_key) le_key (λ b, put_node (Leaf b)) es a s a0 w0 h s' p)
    as (es' & Hrep & Hes); [intros; apply steps_put_node|done..| |].
  2:{ exists es'. by rewrite list_fmap_id in Hes. }
  intros i si hi si' b Hlt Hbe Hp Hw Hoki HDi.
  destruct (bucket_leaf es p i) as (Hnd' & Hu' & Hdom'); [done..|].
  exists b. rewrite list_fmap_id. split; [|done].
  eapply put_leaf_rep; [done|done|rewrite length_app; simpl; lia|done| |done..].
  by apply key_sorted_filter.
Qed.
End writing.

#[export] Hint Resolve steps_put_node steps_load_node steps_put_buckets steps_split_leaf : steps.
