(* ===== verification/HamtInsert.v ===== *)
(** Insertion refines a first-write-wins map, and keeps every older tree. *)

From S2P Require Import Prelude Hash Partition Record BlobStore Hamt HamtNodeFacts HamtFacts.

Lemma insert_entry_perm e es1 es2 : es1 ≡ₚ es2 → insert_entry e es1 ≡ₚ insert_entry e es2.
Proof.
  intros Hp. unfold insert_entry.
  rewrite (decide_ext (le_key e ∈ le_key <$> es1) (le_key e ∈ le_key <$> es2)) by by rewrite Hp.
  case_decide; by rewrite Hp.
Qed.

Lemma insert_entry_find e es k :
  find_key le_key k (insert_entry e es) =
  match find_key le_key k es with
  | Some x => Some x
  | None => if decide (le_key e = k) then Some e else None
  end.
Proof.
  unfold insert_entry. case_decide as Hin.
  - destruct (find_key le_key k es) eqn:Ek; [done|]. apply find_key_None in Ek.
    rewrite decide_False by congruence. done.
  - rewrite find_key_cons. case_decide as Hk.
    + subst k. by rewrite (proj2 (find_key_None le_key _ es) Hin).
    + by destruct (find_key le_key k es).
Qed.

Section insert.
Context `{Blake3} `{Sha256} `{!Codec LeafEntry, !LeafCodecLaws}.
Context {St : Type} `{!BlobStore St, !BlobStoreSpec St, !LocalStore St}.
Context (D : list byte → Prop) `{!CollisionFree D} (m : nat).
Implicit Types s : Traced St.

Lemma steps_node_at o : steps_in (advances D) (node_at (St:=Traced St) o).
Proof. unfold node_at. steps. Qed.

Lemma steps_insert_leaf o depth es e : steps_in (advances D) (insert_leaf (St:=Traced St) o depth es e m).
Proof. unfold insert_leaf. steps. Qed.

Lemma steps_insert_at fuel o depth d e :
  steps_in (advances D) (insert_at (St:=Traced St) fuel o depth d e m).
Proof.
  revert o depth. induction fuel as [|fuel IH]; intros o depth; simpl; steps;
    [apply steps_node_at|apply steps_insert_leaf].
Qed.

Lemma rep_at_nonzero_node (n : HamtNode) o s s' p es :
  node_at o s = (Ok n, s') → rep_at (contents s) p o es → length p ≤ 31 →
  store_ok D s → Forall D (tr_log s') →
  store_ok D s' ∧ rep_at (contents s') p o es ∧
  match n with
  | Leaf es' => es' = es ∧ NoDup (le_key <$> es) ∧ key_sorted le_key es ∧
      Forall (under p) es ∧ Forall leaf_entry_dom es
  | Intermediate slots => length p < 31 ∧ length slots = INTERMEDIATE_FANOUT ∧
      (Some ZERO ∉ slots) ∧ is_Some o ∧ ∃ f, es = concat (f <$> seq 0 INTERMEDIATE_FANOUT) ∧
      (∀ i c, slots !! i = Some (Some c) → rep (contents s') (p ++ [i]) c (f i)) ∧
      (∀ i, slots !! i = Some None → f i = [])
  end.
Proof.
  intros Hn Hrep Hp Hok HD. pose proof (steps_node_at _ _ _ _ Hn) as [_ Hadv].
  destruct (Hadv HD Hok) as [Hok' HC]. split; [done|].
  destruct o as [h|]; simpl in *; last first.
  { unfold mret, io_ret, empty_leaf in Hn. simplify_eq. by split_and!; try constructor. }
  split; [by eapply rep_mono|].
  inversion Hrep as [? ? bs ? Hbs Hd|? ? bs slots f Hbs Hd Hlen Hsome Hnone]; subst;
    pose proof (load_node_known _ _ _ _ _ Hn Hbs) as Hd'; rewrite Hd in Hd'; simplify_eq.
  - done.
  - apply decode_intermediate_wf in Hd as [Hsl Hz]. split_and!; try done.
    exists f. split_and!; [done| |done]. intros i c Hi. by eapply rep_mono, Hsome.
Qed.

Lemma insert_leaf_rep o p es e s h' s' :
  insert_leaf o (length p) es e m s = (Ok h', s') →
  rep_at (contents s) p o es → length p ≤ 31 → under p e → leaf_entry_dom e →
  NoDup (le_key <$> es) → Forall (under p) es → Forall leaf_entry_dom es →
  store_ok D s → Forall D (tr_log s') →
  ∃ es', rep (contents s') p h' es' ∧ es' ≡ₚ insert_entry e es.
Proof.
  unfold insert_leaf, insert_entry. intros Hr Hrep Hp Hu He Hnd Hus Hdom Hok HD.
  case_bool_decide as Hin.
  { run_inv. destruct o as [h|]; [|done]. injection Hr as <-. exists es. by rewrite decide_True. }
  rewrite decide_False by done. set (es1 := sort_by_key le_key (es ++ [e])) in *.
  assert (es1 ≡ₚ e :: es) as Hperm.
  { unfold es1. rewrite sort_by_key_perm. symmetry. apply Permutation_cons_append. }
  assert (NoDup (le_key <$> es1)) as Hnd1 by (rewrite Hperm; by constructor).
  assert (Forall (under p) es1) as Hu1 by (rewrite Hperm; by constructor).
  assert (Forall leaf_entry_dom es1) as Hdom1 by (rewrite Hperm; by constructor).
  pose proof (sort_by_key_sorted le_key (es ++ [e]) : key_sorted le_key es1) as Hs1.
  destruct (_ <=? m).
  - exists es1. split; [|done]. by eapply put_leaf_rep.
  - assert (es1 ≠ []) by (intros Hnil; rewrite Hnil in Hperm; by apply Permutation_nil_cons in Hperm).
    apply (split_leaf_rep D p) in Hr as (es' & Hrep' & Hp'); [|done..].
    exists es'. split; [done|]. by rewrite Hp'.
Qed.

(** Inserting below slot [i] of a node, read off the whole node's entries. *)
Lemma insert_entry_slot C p slots (f : nat → list LeafEntry) e i :
  (∀ i c, slots !! i = Some (Some c) → rep C (p ++ [i]) c (f i)) →
  (∀ i, slots !! i = Some None → f i = []) →
  length slots = INTERMEDIATE_FANOUT → i < INTERMEDIATE_FANOUT → under (p ++ [i]) e →
  concat ((λ j, if decide (j = i) then insert_entry e (f i) else f j) <$> seq 0 INTERMEDIATE_FANOUT)
  ≡ₚ insert_entry e (concat (f <$> seq 0 INTERMEDIATE_FANOUT)).
Proof.
  intros Hsome Hnone Hlen Hi Hu. unfold insert_entry at 2. case_decide as Hin.
  - apply concat_fmap_perm. intros j [_ Hj]%elem_of_seq. case_decide; [|done]. subst j.
    unfold insert_entry. rewrite decide_True; [done|].
    apply list_elem_of_fmap in Hin as (e' & Hk & (j & Hj' & He')%concat_fmap_elem).
    rewrite Hk. apply list_elem_of_fmap_2.
    assert (i = j) as ->; [|done].
    eapply under_slot_inj; [exact Hu|by eapply rep_slot_under|done].
  - apply (concat_fmap_update f _ _ i [e]); [done| |].
    + rewrite decide_True by done. unfold insert_entry. rewrite decide_False; [done|].
      intros (e' & Hk & He')%list_elem_of_fmap. apply Hin. rewrite Hk.
      apply list_elem_of_fmap_2, concat_fmap_elem. eauto.
    + intros j Hj. by rewrite decide_False.
Qed.

Lemma insert_at_rep fuel o p e es s h' s' :
  insert_at fuel o (length p) (key_digest (le_key e)) e m s = (Ok h', s') →
  rep_at (contents s) p o es → length p ≤ 31 → under p e → leaf_entry_dom e →
  store_ok D s → Forall D (tr_log s') →
  ∃ es', rep (contents s') p h' es' ∧ es' ≡ₚ insert_entry e es.
Proof.
  revert o p es s h' s'. induction fuel as [|fuel IH]; intros o p es s h' s'; [done|].
  simpl. intros Hr Hrep Hp Hu He Hok HD. apply io_bind_ok in Hr as (n & s1 & Hn & Hr).
  assert (advances D s1 s') as Hadv1.
  { destruct n; [by eapply steps_insert_leaf|]. run_inv.
    etrans; [by eapply steps_insert_at|by eapply steps_put_node]. }
  destruct (advances_within D s s1 s') as (Hok1 & HC1 & HD1);
    [by eapply steps_node_at|done..|].
  eapply rep_at_nonzero_node in Hn as (_ & Hrep1 & Hn); [|done..].
  destruct n as [es0|slots].
  { destruct Hn as (-> & Hnd & Hs & Hus & Hdom). by eapply insert_leaf_rep. }
  destruct Hn as (Hplt & Hsl & Hz & _ & f & -> & Hsome & Hnone).
  apply io_bind_ok in Hr as (b & s1' & Hb & Hr). run_inv. rename a into c', w into s2.
  destruct (descent_byte _ (length p)) as [b'|] eqn:Eb; [|done]. injection Hb as ->.
  set (i := byte_idx b) in *.
  assert (i < INTERMEDIATE_FANOUT) as Hi by (rewrite FANOUT_eq; apply byte_idx_lt).
  assert (under (p ++ [i]) e) as Hui by (apply under_snoc; unfold in_bucket; simpl; by rewrite Eb).
  replace (S (length p)) with (length (p ++ [i])) in Hrun by (rewrite length_app; simpl; lia).
  pose proof (steps_insert_at _ _ _ _ _ _ _ _ Hrun) as Hadv2.
  pose proof (steps_put_node D _ _ _ _ Hr) as Hadv3.
  destruct (advances_within D s1 s2 s') as (Hok2 & HC2 & HD2); [done..|].
  destruct (advances_within D s2 s' s') as (Hok3 & HC3 & _); [done..|].
  eapply (IH _ (p ++ [i]) (f i)) in Hrun as (es1 & Hrep' & Hes1); [| |rewrite length_app; simpl; lia|done..].
  2:{ destruct (slot_at slots b) as [c|] eqn:Ec; simpl.
      - apply slot_at_lookup in Ec. by apply Hsome.
      - apply Hnone. by apply slot_at_None. }
  pose proof (rep_nonzero D _ _ _ _ Hok2 Hrep') as Hnz.
  apply (put_node_ok D) in Hr as [(bs & Hbs & Hd) _]; [| |done].
  2:{ split; [by rewrite length_insert|]. intros [Hx|?]%elem_of_insert_inv; [|done]. congruence. }
  eapply (rep_node_intro _ p _ _ _ (λ j, if decide (j = i) then insert_entry e (f i) else f j))
    in Hbs as (es' & Hes' & Hpe); [|done|done|].
  { exists es'. split; [done|]. rewrite Hpe. by eapply insert_entry_slot. }
  intros j Hj. destruct (decide (j = i)) as [->|Hne].
  - exists es1. split; [done|]. rewrite list_lookup_insert_eq by lia. by eapply rep_mono.
  - exists (f j). split; [done|]. rewrite list_lookup_insert_ne by done.
    destruct (lookup_lt_is_Some_2 slots j) as [[c|] Hs]; [lia| |]; rewrite Hs.
    + eapply rep_mono; [|by apply Hsome]. by etrans.
    + by apply Hnone.
Qed.
End insert.
#[export] Hint Resolve steps_node_at steps_insert_leaf steps_insert_at : steps.

(** The specification of a batch: in order, skipping the denied keys. *)
Definition insert_all (denylist : gset string) (es new : list LeafEntry) : list LeafEntry :=
  foldl (λ es e, if bool_decide (le_key e ∈ denylist) then es else insert_entry e es) es new.

Lemma insert_all_find denylist es new k :
  find_key le_key k (insert_all denylist es new) =
  match find_key le_key k es with
  | Some x => Some x
  | None => if decide (k ∈ denylist) then None else find_key le_key k new
  end.
Proof.
  unfold insert_all. revert es. induction new as [|e new IH]; intros es; simpl.
  { destruct (find_key le_key k es); [done|]. by case_decide. }
  rewrite IH, find_key_cons. case_bool_decide as Hd.
  - destruct (find_key le_key k es); [done|]. repeat case_decide; try done. congruence.
  - rewrite insert_entry_find. destruct (find_key le_key k es); [done|].
    repeat case_decide; try done. congruence.
Qed.

Lemma insert_all_perm denylist new es1 es2 :
  es1 ≡ₚ es2 → insert_all denylist es1 new ≡ₚ insert_all denylist es2 new.
Proof.
  unfold insert_all. revert es1 es2. induction new as [|e new IH]; intros es1 es2 Hp; simpl; [done|].
  apply IH. case_bool_decide; [done|]. by apply insert_entry_perm.
Qed.

Section batch.
Context `{Blake3} `{Sha256} `{!Codec LeafEntry, !LeafCodecLaws}.
Context {St : Type} `{!BlobStore St, !BlobStoreSpec St, !LocalStore St}.
Context (D : list byte → Prop) `{!CollisionFree D} (m : nat).
Implicit Types s : Traced St.

Lemma steps_insert_one root e : steps_in (advances D) (insert_one (St:=Traced St) root e m).
Proof. unfold insert_one. steps. Qed.

Lemma steps_batch_loop root es (denylist : gset string) :
  steps_in (advances D) (io_fold (λ current entry,
    if bool_decide (le_key entry ∈ denylist) then mret current
    else h ← insert_one (St:=Traced St) current entry m; mret (Some h)) root es).
Proof. steps. Qed.

Lemma steps_insert_batch root es denylist :
  steps_in (advances D) (insert_batch (St:=Traced St) root es m denylist).
Proof. unfold insert_batch. steps. Qed.

Lemma insert_one_rep root e es s h' s' :
  insert_one root e m s = (Ok h', s') →
  rep_root (contents s) root es → leaf_entry_dom e → store_ok D s → Forall D (tr_log s') →
  ∃ es', rep_root (contents s') (Some h') es' ∧ es' ≡ₚ insert_entry e es.
Proof.
  intros Hr Hrep He Hok HD. eapply (insert_at_rep D m DESCENT_FUEL root []); try done; simpl; [lia|].
  apply prefix_nil.
Qed.

Lemma insert_batch_loop_rep denylist new root es s root' s' :
  io_fold (λ current entry,
    if bool_decide (le_key entry ∈ denylist) then mret current
    else h ← insert_one current entry m; mret (Some h)) root new s = (Ok root', s') →
  rep_root (contents s) root es → Forall leaf_entry_dom new → store_ok D s → Forall D (tr_log s') →
  ∃ es', rep_root (contents s') root' es' ∧ es' ≡ₚ insert_all denylist es new.
Proof.
  revert root es s. induction new as [|e new IH]; intros root es s Hr Hrep Hdom Hok HD.
  { simpl in Hr. run_inv. by exists es. }
  simpl in Hr. apply Forall_cons in Hdom as [He Hdom].
  apply io_bind_ok in Hr as (r1 & s1 & Hr1 & Hr). simpl.
  pose proof (steps_batch_loop _ _ _ _ _ _ Hr) as Hadv.
  case_bool_decide as Hd.
  - run_inv. by eapply IH.
  - run_inv. rename a into h1.
    destruct (advances_within D s s1 s') as (Hok1 & _ & HD1); [by eapply steps_insert_one|done..|].
    eapply insert_one_rep in Hrun as (es1 & Hrep1 & Hes1); [|done..].
    destruct (IH _ _ _ Hr Hrep1) as (es2 & Hrep2 & Hes2); [done..|].
    exists es2. split; [done|]. rewrite Hes2. by apply insert_all_perm.
Qed.

Lemma insert_batch_rep root new denylist es s h s' :
  insert_batch root new m denylist s = (Ok h, s') →
  rep_root (contents s) root es → Forall leaf_entry_dom new → store_ok D s → Forall D (tr_log s') →
  ∃ es', rep_root (contents s') (Some h) es' ∧ es' ≡ₚ insert_all denylist es new.
Proof.
  unfold insert_batch. intros Hr Hrep Hdom Hok HD. apply io_bind_ok in Hr as (root1 & s1 & Hf & Hr).
  assert (advances D s1 s') as Hadv.
  { destruct root1; [run_inv; reflexivity|by eapply steps_put_node]. }
  pose proof (steps_batch_loop _ _ _ _ _ _ Hf) as Hadv0.
  destruct (advances_within D s s1 s') as (Hok1 & _ & HD1); [done..|].
  eapply insert_batch_loop_rep in Hf as (es1 & Hrep1 & Hes1); [|done..].
  destruct root1 as [h1|]; [run_inv; by exists es1|]. simpl in Hrep1. subst es1.
  exists []. split; [|done]. eapply (put_leaf_rep D); [exact Hr|..]; simpl; try done;
    [lia|constructor..].
Qed.
End batch.
#[export] Hint Resolve steps_insert_one steps_insert_batch : steps.
