(* ===== verification/HamtBuild.v ===== *)
(** The bottom-up construction builds a tree of the first occurrence of every
    key. *)

From S2P Require Import Prelude Hash Partition Record BlobStore Hamt HamtNodeFacts HamtFacts.

Section build.
Context `{Blake3} `{Sha256} `{!Codec LeafEntry, !LeafCodecLaws}.
Context {St : Type} `{!BlobStore St, !BlobStoreSpec St, !LocalStore St}.
Context (D : list byte → Prop) `{!CollisionFree D} (m : nat).
Implicit Types s : Traced St.

(** The entries as [build_from_entries] passes them down: with their digest. *)
Definition digested (x : LeafEntry * bytes32) : Prop := x.2 = key_digest (le_key x.1).

Definition below (p : list nat) (xs : list (LeafEntry * bytes32)) : Prop :=
  Forall digested xs ∧ NoDup (le_key <$> (fst <$> xs)) ∧
  Forall (under p) (fst <$> xs) ∧ Forall leaf_entry_dom (fst <$> xs).

Lemma below_bucket p xs i :
  below p xs → below (p ++ [i]) (filter (in_bucket snd (length p) i) xs).
Proof.
  intros (Hd & Hnd & Hu & Hdom). split_and!.
  - by apply Forall_filter_sub.
  - rewrite <-list_fmap_compose in *. by apply NoDup_fmap_filter.
  - apply Forall_fmap, Forall_forall. intros x [Hi Hx]%list_elem_of_filter. simpl.
    rewrite Forall_fmap, !Forall_forall in *. apply under_snoc. split; [by apply Hu|].
    unfold in_bucket in *. simpl. by rewrite <-(Hd _ Hx).
  - rewrite Forall_fmap in *. by apply Forall_filter_sub.
Qed.

Lemma steps_build_subtree fuel xs depth :
  steps_in (advances D) (build_subtree (St:=Traced St) fuel xs depth m).
Proof.
  revert xs depth. induction fuel as [|fuel IH]; intros xs depth; simpl; steps.
Qed.

Lemma sorted_leaf_perm (xs : list (LeafEntry * bytes32)) :
  fst <$> sort_by_key (le_key ∘ fst) xs ≡ₚ fst <$> xs.
Proof. by rewrite sort_by_key_perm. Qed.

Lemma build_leaf_rep p xs s h s' :
  put_node (Leaf (fst <$> sort_by_key (le_key ∘ fst) xs)) s = (Ok h, s') →
  below p xs → length p ≤ 31 → Forall D (tr_log s') →
  ∃ es, rep (contents s') p h es ∧ es ≡ₚ fst <$> xs.
Proof.
  intros Hr (Hd & Hnd & Hu & Hdom) Hp HD. eexists. split; [|apply sorted_leaf_perm].
  eapply (put_leaf_rep D); [done..| | | |]; rewrite ?sorted_leaf_perm; try done.
  apply key_sorted_fmap, sort_by_key_sorted.
Qed.

Lemma build_subtree_rep fuel p xs s h s' :
  build_subtree fuel xs (length p) m s = (Ok h, s') →
  below p xs → length p ≤ 31 → store_ok D s → Forall D (tr_log s') →
  ∃ es, rep (contents s') p h es ∧ es ≡ₚ fst <$> xs.
Proof.
  revert p xs s h s'. induction fuel as [|fuel IH]; intros p xs s h s'; simpl;
    destruct (length xs <=? m) eqn:Em; try done; intros Hr Hb Hp Hok HD; try by eapply build_leaf_rep.
  apply Nat.leb_gt in Em. run_inv.
  destruct (split_rep D fst snd (le_key ∘ fst) (λ b, build_subtree fuel b (S (length p)) m)
    xs a s a0 w0 h s' p) as (es & Hrep & Hes); try done.
  - intros. apply steps_build_subtree.
  - intros ->. simpl in *. lia.
  - intros i si hi si' b Hi Hbe Hlt Hw Hoki HDi.
    replace (S (length p)) with (length (p ++ [i])) in Hw by (rewrite length_app; simpl; lia).
    eapply IH; [done|by apply below_bucket|rewrite length_app; simpl; lia|done|done].
  - by exists es.
Qed.

Lemma below_unique (es : list LeafEntry) :
  Forall leaf_entry_dom es →
  below [] ((λ e, (e, key_digest (le_key e))) <$> dedup_first le_key es).
Proof.
  intros Hdom. unfold below. rewrite fmap_pair_fst. split_and!.
  - apply Forall_fmap, Forall_forall. by intros.
  - apply dedup_first_NoDup.
  - apply Forall_forall. intros e _. apply prefix_nil.
  - apply Forall_forall. intros e He. rewrite Forall_forall in Hdom.
    apply Hdom. by eapply dedup_first_sub.
Qed.

Lemma build_from_entries_rep es s h s' :
  build_from_entries es m s = (Ok h, s') →
  Forall leaf_entry_dom es → store_ok D s → Forall D (tr_log s') →
  ∃ es', rep_root (contents s') (Some h) es' ∧ es' ≡ₚ dedup_first le_key es.
Proof.
  unfold build_from_entries. intros Hr Hdom Hok HD.
  apply (build_subtree_rep DESCENT_FUEL []) in Hr as (es' & Hrep & Hes);
    [|by apply below_unique|simpl; lia|done..].
  exists es'. split; [done|]. by rewrite Hes, fmap_pair_fst.
Qed.

Lemma steps_build_from_entries es :
  steps_in (advances D) (build_from_entries (St:=Traced St) es m).
Proof. unfold build_from_entries. apply steps_build_subtree. Qed.
End build.
#[export] Hint Resolve steps_build_subtree steps_build_from_entries : steps.
