(* ===== verification/HamtTotal.v ===== *)
(** Termination and totality: the descent fuel never matters, an operation on
    a store that does not fail succeeds, and what it costs. *)

From S2P Require Import Prelude Hash Partition Record BlobStore Hamt HamtNodeFacts HamtFacts HamtInsert HamtBuild.

(** ** The fuel is enough *)

Section fuel.
Context `{Blake3} `{Sha256} `{!Codec LeafEntry} {St : Type} `{!BlobStore St} (m : nat).

Lemma descent_31 digest key depth (s : St) {B} (f : byte → io St HamtError B) :
  31 ≤ depth →
  (b ← io_lift (ok_or (DepthExhausted key depth) (descent_byte digest depth)); f b) s
  = (Err (DepthExhausted key depth), s).
Proof. intros Hd. by rewrite (proj2 (descent_byte_None digest depth) Hd). Qed.

Lemma lookup_loop_fuel k fuel digest key h depth (s : St) :
  depth ≤ 31 → 32 ≤ fuel + depth →
  lookup_loop (fuel + k) digest key h depth s = lookup_loop fuel digest key h depth s.
Proof.
  revert h depth s. induction fuel as [|fuel IH]; intros h depth s Hd Hf; [lia|]. simpl.
  apply io_bind_ext; [done|]. intros [es|slots] s1; [done|].
  destruct (decide (depth = 31)) as [->|Hne]; [by rewrite !descent_31 by lia|].
  apply io_bind_ext; [done|]. intros b s2. destruct (slot_at slots b); [|done]. apply IH; lia.
Qed.

Lemma insert_at_fuel k fuel o depth digest e (s : St) :
  depth ≤ 31 → 32 ≤ fuel + depth →
  insert_at (fuel + k) o depth digest e m s = insert_at fuel o depth digest e m s.
Proof.
  revert o depth s. induction fuel as [|fuel IH]; intros o depth s Hd Hf; [lia|]. simpl.
  apply io_bind_ext; [done|]. intros [es|slots] s1; [done|].
  destruct (decide (depth = 31)) as [->|Hne]; [by rewrite !descent_31 by lia|].
  apply io_bind_ext; [done|]. intros b s2. apply io_bind_ext; [|done]. apply IH; lia.
Qed.

Lemma build_subtree_fuel k fuel xs depth (s : St) :
  depth ≤ 31 → 32 ≤ fuel + depth →
  build_subtree (fuel + k) xs depth m s = build_subtree fuel xs depth m s.
Proof.
  revert xs depth s. induction fuel as [|fuel IH]; intros xs depth s Hd Hf; [lia|]. simpl.
  destruct (length xs <=? m) eqn:Em; [done|]. apply Nat.leb_gt in Em.
  destruct (decide (depth = 31)) as [->|Hne].
  { destruct (distribute_exhausted snd (le_key ∘ fst) 31 xs) as (x & _ & ->); [done| |done].
    intros ->. simpl in Em. lia. }
  apply io_bind_ext; [done|]. intros bs s1. apply io_bind_ext; [|done]. apply io_mapM_ext.
  intros b s2. case_bool_decide; [done|]. apply io_bind_ext; [|done]. apply IH; lia.
Qed.
End fuel.

(** ** A store that does not fail *)

Section total.
Context `{Blake3} `{Sha256} `{!Codec LeafEntry} {St : Type}
  `{!BlobStore St, !BlobStoreSpec St, !ReliableStore St} (m : nat).
Implicit Types s : St.

(** Different keys take different descent paths: 31 of the digest's 32
    bytes tell them apart. *)
Definition distinct_paths (es : list LeafEntry) : Prop :=
  ∀ e1 e2, e1 ∈ es → e2 ∈ es →
    path_of (key_digest (le_key e1)) = path_of (key_digest (le_key e2)) → le_key e1 = le_key e2.

Lemma under_full p e : under p e → length p = 31 → path_of (key_digest (le_key e)) = p.
Proof.
  intros [k Hk] Hp. assert (length k = 0) as Hlen.
  { pose proof (path_of_length (key_digest (le_key e))) as Hl. rewrite Hk, length_app in Hl. lia. }
  apply nil_length_inv in Hlen as ->. by rewrite Hk, app_nil_r.
Qed.

(** So two entries with different keys never share a full path. *)
Lemma distinct_depth p es :
  distinct_paths es → NoDup (le_key <$> es) → Forall (under p) es → 2 ≤ length es →
  length p ≤ 31 → length p < 31.
Proof.
  intros Hdp Hnd Hu Hlen Hp. destruct (decide (length p = 31)) as [Hp31|]; [|lia].
  destruct es as [|e1 [|e2 es]]; simpl in *; [lia..|].
  apply Forall_cons in Hu as [Hu1 Hu]. apply Forall_cons in Hu as [Hu2 _].
  apply NoDup_cons in Hnd as [Hn _]. destruct Hn. apply elem_of_cons. left.
  apply Hdp; [by left|by right; left|]. rewrite !(under_full p); done.
Qed.

Lemma put_node_succeeds n s : succeeds (put_node n) s.
Proof.
  apply succeeds_map_err. unfold succeeds. pose proof (put_total (encode n) s) as Ht.
  destruct (put (encode n) s) as [[h|e] s']; [by eexists _, _|done].
Qed.

Lemma put_buckets_succeeds {A} (write : list A → io St HamtError Hash) bs s :
  (∀ b s, b ∈ bs → b ≠ [] → succeeds (write b) s) → succeeds (put_buckets write bs) s.
Proof.
  intros Hw. apply succeeds_mapM. intros b s1 Hb. case_bool_decide; [by eexists _, _|].
  apply succeeds_bind; [by apply Hw|]. intros. by eexists _, _.
Qed.

Lemma split_succeeds {A} (digest_of : A → bytes32) key_of (write : list A → io St HamtError Hash)
    depth xs s :
  depth < 31 →
  (∀ i s, let b := filter (in_bucket digest_of depth i) xs in
     i < INTERMEDIATE_FANOUT → b ≠ [] → succeeds (write b) s) →
  succeeds (buckets ← io_lift (distribute digest_of key_of depth xs);
            slots ← put_buckets write buckets;
            put_node (Intermediate slots)) s.
Proof.
  intros Hd Hw. destruct (distribute_total digest_of key_of depth xs Hd) as [bs Hbs].
  apply succeeds_bind; [exists bs, s; by rewrite Hbs|]. intros bs' s' Heq. rewrite Hbs in Heq.
  injection Heq as <- <-. apply succeeds_bind; [|intros; apply put_node_succeeds].
  apply put_buckets_succeeds. intros b s1 Hb Hne. rewrite (distribute_buckets _ _ _ _ _ Hbs) in Hb.
  apply list_elem_of_fmap in Hb as (i & -> & [_ Hi]%elem_of_seq). by apply Hw.
Qed.

Lemma insert_at_succeeds fuel o p e es s :
  rep_at (contents s) p o es → under p e → 1 ≤ m → distinct_paths (e :: es) →
  length p ≤ 31 → 32 ≤ fuel + length p →
  succeeds (insert_at fuel o (length p) (key_digest (le_key e)) e m) s.
Proof.
  revert o p es s. induction fuel as [|fuel IH]; intros o p es s Hrep Hu Hm Hdp Hp Hf; [lia|].
  simpl. assert (∀ es0 o s, rep_at (contents s) p o es0 → (is_Some o ∨ es0 = []) →
    Forall (under p) es0 → NoDup (le_key <$> es0) → es0 = es →
    succeeds (insert_leaf o (length p) es0 e m) s) as Hleaf.
  { clear o s Hrep. intros es0 o s Hrep Ho Hus Hnd ->. unfold insert_leaf. case_bool_decide as Hin.
    { destruct Ho as [[h ->]| ->]; [by eexists _, _|by apply elem_of_nil in Hin]. }
    destruct (_ <=? m) eqn:Em; [apply put_node_succeeds|]. apply Nat.leb_gt in Em.
    rewrite sort_by_key_perm, length_app in Em. simpl in Em.
    apply split_succeeds; [|intros; apply put_node_succeeds].
    apply (distinct_depth p (e :: es)); [done|by constructor|by constructor|simpl; lia|done]. }
  destruct o as [h|]; simpl in *; last first.
  { subst es. eapply succeeds_bind; [by eexists _, _|]. intros n s1. unfold mret, io_ret, empty_leaf.
    intros [= <- <-]. apply Hleaf; [done|by right|constructor|constructor|done]. }
  inversion Hrep as [? ? bs ? Hbs Hd|? ? bs slots f Hbs Hd Hlen Hsome Hnone]; subst;
    pose proof (load_node_run _ _ _ _ Hbs Hd) as Hl;
    (apply succeeds_bind; [by eexists _, _|]); rewrite Hl; intros n s1 [= <- <-].
  { by apply Hleaf; eauto. }
  apply decode_intermediate_wf in Hd as [Hsl _].
  destruct (descent_byte_Some (key_digest (le_key e)) (length p) Hlen) as [b Eb]. rewrite Eb.
  apply succeeds_bind; [by eexists _, _|]. intros b' s1. unfold io_lift. simpl. intros [= <- <-].
  apply succeeds_bind; [|intros; apply put_node_succeeds].
  assert (byte_idx b < INTERMEDIATE_FANOUT) as Hi by (rewrite FANOUT_eq; apply byte_idx_lt).
  replace (S (length p)) with (length (p ++ [byte_idx b])) by (rewrite length_app; simpl; lia).
  apply (IH _ _ (f (byte_idx b))); [|by apply under_snoc; unfold in_bucket; simpl; rewrite Eb|done| | |].
  - destruct (slot_at slots b) as [c|] eqn:Ec; simpl.
    + apply slot_at_lookup in Ec. by apply Hsome.
    + apply Hnone. by apply slot_at_None.
  - intros e1 e2 H1' H2'. apply Hdp; rewrite elem_of_cons in *; rewrite concat_fmap_elem; naive_solver.
  - rewrite length_app. simpl. lia.
  - rewrite length_app. simpl. lia.
Qed.

Lemma build_subtree_succeeds fuel p xs s :
  below p xs → 1 ≤ m → distinct_paths (fst <$> xs) → length p ≤ 31 → 32 ≤ fuel + length p →
  succeeds (build_subtree fuel xs (length p) m) s.
Proof.
  revert p xs s. induction fuel as [|fuel IH]; intros p xs s Hb Hm Hdp Hp Hf; [lia|]. simpl.
  destruct (_ <=? m) eqn:Em; [apply put_node_succeeds|]. apply Nat.leb_gt in Em.
  pose proof Hb as (_ & Hnd & Hu & _).
  assert (length p < 31) as Hlt.
  { apply (distinct_depth p (fst <$> xs)); try done. rewrite length_fmap. lia. }
  apply split_succeeds; [done|]. intros i s1 b Hi Hbe.
  replace (S (length p)) with (length (p ++ [i])) by (rewrite length_app; simpl; lia).
  apply IH; [by apply below_bucket|done| |rewrite length_app; simpl; lia..].
  intros e1 e2 H1' H2'. apply Hdp.
  - apply list_elem_of_fmap in H1' as (x & -> & [_ Hx]%list_elem_of_filter). by apply list_elem_of_fmap_2.
  - apply list_elem_of_fmap in H2' as (x & -> & [_ Hx]%list_elem_of_filter). by apply list_elem_of_fmap_2.
Qed.
End total.
