(* ===== verification/HamtCost.v ===== *)
(** What an insertion costs, and that repeating one changes nothing. *)

From S2P Require Import Prelude Hash Partition Record BlobStore Hamt HamtNodeFacts HamtFacts HamtInsert.

(** ** Writes *)

Section writes.
Context {St E : Type}.

(** The program writes at most [n] blobs, whatever its result. *)
Definition writes (n : nat) {A} (m : io (Traced St) E A) : Prop :=
  ∀ t r t', m t = (r, t') → ∃ l, tr_log t' = tr_log t ++ l ∧ length l ≤ n.

Lemma writes_weaken {A} n n' (m : io (Traced St) E A) : writes n m → n ≤ n' → writes n' m.
Proof. intros Hm Hn t r t' (l & Hl & Hlen)%Hm. exists l. split; [done|lia]. Qed.

Lemma writes_pure {A} (m : io (Traced St) E A) : (∀ t, (m t).2 = t) → writes 0 m.
Proof.
  intros Hm t r t' Hr. specialize (Hm t). rewrite Hr in Hm. simpl in Hm. subst.
  exists []. by rewrite app_nil_r.
Qed.

Lemma writes_bind {A B} n1 n2 (m : io (Traced St) E A) (f : A → io (Traced St) E B) :
  writes n1 m → (∀ a, writes n2 (f a)) → writes (n1 + n2) (m ≫= f).
Proof.
  intros Hm Hf t r t'. unfold mbind, io_bind. destruct (m t) as [[a|e] t1] eqn:Em.
  - intros (l2 & Hl2 & Hn2)%Hf. apply Hm in Em as (l1 & Hl1 & Hn1).
    exists (l1 ++ l2). rewrite Hl2, Hl1, (assoc_L (++)), length_app. split; [done|lia].
  - intros [= <- <-]. apply Hm in Em as (l1 & Hl1 & Hn1). exists l1. split; [done|lia].
Qed.

Lemma writes_mapM {A B} n (f : A → io (Traced St) E B) xs :
  (∀ x, writes n (f x)) → writes (length xs * n) (io_mapM f xs).
Proof.
  intros Hf. induction xs as [|x xs IH]; simpl; [by apply writes_pure|].
  apply writes_bind; [done|]. intros y.
  replace (length xs * n) with (length xs * n + 0) by lia.
  apply writes_bind; [done|]. intros ys. by apply writes_pure.
Qed.
End writes.

Lemma writes_map_err {St E F A} (g : E → F) (m : io (Traced St) E A) n :
  writes n m → writes n (io_map_err g m).
Proof.
  intros Hm t r t'. unfold io_map_err. destruct (m t) as [r1 t1] eqn:Em. intros [= <- <-].
  by eapply Hm.
Qed.

Section cost.
Context `{Blake3} `{Sha256} `{!Codec LeafEntry} {St : Type} `{!BlobStore St} (m : nat).

Lemma writes_put b : writes 1 (put (St:=Traced St) b).
Proof.
  intros t r t'. simpl. destruct (put b (tr_store t)) as [r1 s1]. intros [= <- <-]. by exists [b].
Qed.

Lemma writes_get h : writes 0 (get (St:=Traced St) h).
Proof.
  intros t r t'. simpl. destruct (get h (tr_store t)) as [r1 s1]. intros [= <- <-].
  exists []. by rewrite app_nil_r.
Qed.

Lemma writes_put_node n : writes 1 (put_node (St:=Traced St) n).
Proof. apply writes_map_err, writes_put. Qed.

Lemma writes_node_at o : writes 0 (node_at (St:=Traced St) o).
Proof.
  destruct o as [h|]; [|by apply writes_pure]. change 0 with (0 + (0 + 0)).
  apply writes_bind; [apply writes_map_err, writes_get|]. intros bs.
  apply writes_bind; intros; by apply writes_pure.
Qed.

Lemma writes_split_leaf depth es : writes 257 (split_leaf (St:=Traced St) depth es).
Proof.
  intros t r t'. unfold split_leaf, mbind at 1, io_bind at 1, io_lift.
  destruct (distribute _ _ _ _) as [bs|e] eqn:Ed; last first.
  { intros [= <- <-]. exists []. rewrite app_nil_r. split; [done|simpl; lia]. }
  apply distribute_spec in Ed as [Hlen _]. revert t r t'.
  change (writes 257 (slots ← put_buckets (λ bucket, put_node (St:=Traced St) (Leaf bucket)) bs;
    put_node (Intermediate slots))).
  eapply writes_weaken; [apply writes_bind with (n1 := length bs * 1) (n2 := 1)|].
  - apply writes_mapM. intros b. case_bool_decide.
    + eapply writes_weaken; [by apply writes_pure|lia].
    + change 1 with (1 + 0). apply writes_bind; [apply writes_put_node|]. intros h. by apply writes_pure.
  - intros. apply writes_put_node.
  - rewrite Hlen, FANOUT_eq. simpl. lia.
Qed.

Lemma writes_insert_at fuel o depth d e :
  writes (fuel + 256) (insert_at (St:=Traced St) fuel o depth d e m).
Proof.
  revert o depth. induction fuel as [|fuel IH]; intros o depth; simpl.
  { eapply writes_weaken; [by apply writes_pure|lia]. }
  change (S (fuel + 256)) with (0 + S (fuel + 256)). apply writes_bind; [apply writes_node_at|].
  intros [es|slots].
  - unfold insert_leaf. case_bool_decide; [|case_match].
    + eapply writes_weaken; [by apply writes_pure|lia].
    + eapply writes_weaken; [apply writes_put_node|lia].
    + eapply writes_weaken; [apply writes_split_leaf|lia].
  - replace (S (fuel + 256)) with (0 + ((fuel + 256) + 1)) by lia.
    apply writes_bind; [by apply writes_pure|]. intros b.
    apply writes_bind; [apply IH|]. intros c. apply writes_put_node.
Qed.
End cost.

(** ** Inserting a key the tree has *)

Section noop.
Context `{Blake3} `{Sha256} `{!Codec LeafEntry, !LeafCodecLaws}.
Context {St : Type} `{!BlobStore St, !BlobStoreSpec St, !LocalStore St}.
Context (D : list byte → Prop) `{!CollisionFree D} (m : nat).
Implicit Types s : Traced St.

Lemma load_node_contents h n s s' :
  load_node h s = (Ok n, s') → store_ok D s → contents s' = contents s ∧ store_ok D s'.
Proof.
  unfold load_node. intros Hr [Hl Hok]. run_inv. apply get_local in Hrun as [Hc Hl']; [|done].
  split; [done|]. split; [done|]. by rewrite Hc.
Qed.

(** Writing a node the store has. *)
Lemma put_same n s h h' s' :
  put_node n s = (Ok h', s') → contents s !! h = Some (encode n) → store_ok D s →
  h' = h ∧ contents s' = contents s ∧ store_ok D s'.
Proof.
  unfold put_node. intros Hr Hc [Hl Hok]. run_inv. destruct (Hok _ _ Hc) as [<- HD].
  pose proof (put_hash _ _ _ _ Hr) as ->. split; [done|].
  assert (contents s' = contents s) as Hc'.
  { apply put_cases in Hr as [->|[? _]]; [|done]. by apply insert_id. }
  split; [done|]. split; [by eapply put_local|by rewrite Hc'].
Qed.

Lemma insert_at_existing fuel p h e es s h' s' :
  insert_at fuel (Some h) (length p) (key_digest (le_key e)) e m s = (Ok h', s') →
  rep (contents s) p h es → under p e → le_key e ∈ le_key <$> es → store_ok D s →
  h' = h ∧ contents s' = contents s ∧ store_ok D s'.
Proof.
  revert h p es s h' s'. induction fuel as [|fuel IH]; intros h p es s h' s'; [done|].
  simpl. intros Hr Hrep Hu Hin Hok. apply io_bind_ok in Hr as (n & s1 & Hn & Hr).
  pose proof (load_node_contents _ _ _ _ Hn Hok) as [Hc1 Hok1].
  inversion Hrep as [? ? bs ? Hbs Hd|? ? bs slots f Hbs Hd Hlen Hsome Hnone]; subst;
    pose proof (load_node_known _ _ _ _ _ Hn Hbs) as Hd'; rewrite Hd in Hd'; simplify_eq.
  { unfold insert_leaf in Hr. rewrite bool_decide_true in Hr by done. run_inv. injection Hr as <-. done. }
  apply io_bind_ok in Hr as (b & s1' & Hb & Hr). run_inv. rename a into c', w into s2.
  destruct (descent_byte _ (length p)) as [b'|] eqn:Eb; [|done]. injection Hb as ->.
  pose proof (encode_decode _ _ _ Hd) as Henc.
  apply decode_intermediate_wf in Hd as [Hsl _].
  apply list_elem_of_fmap in Hin as (e' & Hk & (j & Hj & He')%concat_fmap_elem).
  assert (under (p ++ [byte_idx b]) e) as Hui by (apply under_snoc; unfold in_bucket; simpl; by rewrite Eb).
  assert (byte_idx b = j) as <-.
  { eapply under_slot_inj; [exact Hui|by eapply rep_slot_under|done]. }
  edestruct (rep_node_slot slots f (byte_idx b)) as [c Hc]; [done..|].
  assert (slot_at slots b = Some c) as Hat by by apply slot_at_lookup.
  rewrite Hat in Hrun.
  replace (S (length p)) with (length (p ++ [byte_idx b])) in Hrun by (rewrite length_app; simpl; lia).
  eapply IH in Hrun as (-> & Hc2 & Hok2); [|rewrite Hc1; by apply Hsome|done| |done].
  2:{ rewrite Hk. by apply list_elem_of_fmap_2. }
  rewrite list_insert_id in Hr by done.
  destruct (put_same _ _ h _ _ Hr) as (-> & Hc3 & Hok3); [by rewrite Hc2, Hc1, Henc|done|].
  split_and!; [done|by etrans; [exact Hc3|etrans; [exact Hc2|exact Hc1]]|done].
Qed.
End noop.
