(* ===== verification/HamtWalkFacts.v ===== *)
(** The walkers: the recursive listing returns the entries of the tree, the
    warm-up counts them, and the collection of reachable blobs is exact. *)

From S2P Require Import Prelude Hash Partition Record BlobStore Hamt HamtNodeFacts HamtFacts.

(** ** Loops over the present children: [slots.iter().flatten()] *)

Section slots.
Context {W E A : Type} (g : A → Hash → io W E A).

Lemma fold_slots_ok slots (P : nat → A → W → Prop) a w a' w' :
  (∀ i c a w a' w', slots !! i = Some (Some c) → P i a w → g a c w = (Ok a', w') → P (S i) a' w') →
  (∀ i a w, slots !! i = Some None → P i a w → P (S i) a w) →
  P 0 a w → io_fold g a (omap id slots) w = (Ok a', w') → P (length slots) a' w'.
Proof.
  revert P a w. induction slots as [|[c|] slots IH]; intros P a w Hc Hn HP; simpl.
  - intros Hr. by run_inv.
  - intros Hr. run_inv. apply (IH (λ i, P (S i)) a0 w0); [| | |done].
    + intros i. apply (Hc (S i)).
    + intros i. apply (Hn (S i)).
    + by eapply (Hc 0).
  - intros Hr. apply (IH (λ i, P (S i)) a w); [| | |done].
    + intros i. apply (Hc (S i)).
    + intros i. apply (Hn (S i)).
    + by apply (Hn 0).
Qed.

Lemma fold_slots_succeeds slots (P : nat → A → W → Prop) a w :
  (∀ i c a w, slots !! i = Some (Some c) → P i a w →
     ∃ a' w', g a c w = (Ok a', w') ∧ P (S i) a' w') →
  (∀ i a w, slots !! i = Some None → P i a w → P (S i) a w) →
  P 0 a w → ∃ a' w', io_fold g a (omap id slots) w = (Ok a', w') ∧ P (length slots) a' w'.
Proof.
  revert P a w. induction slots as [|[c|] slots IH]; intros P a w Hc Hn HP; simpl.
  - by exists a, w.
  - destruct (Hc 0 c a w) as (a1 & w1 & Hg & HP1); [done..|].
    setoid_rewrite (io_bind_run _ _ _ _ _ Hg). apply (IH (λ i, P (S i)) a1 w1); [| |done].
    + intros i. apply (Hc (S i)).
    + intros i. apply (Hn (S i)).
  - apply (IH (λ i, P (S i)) a w); [| |by apply (Hn 0)].
    + intros i. apply (Hc (S i)).
    + intros i. apply (Hn (S i)).
Qed.
End slots.

Lemma concat_seq_S {A} (f : nat → list A) i :
  concat (f <$> seq 0 (S i)) = concat (f <$> seq 0 i) ++ f i.
Proof. by rewrite seq_S, fmap_app, concat_app; simpl; rewrite app_nil_r. Qed.


(** ** Listings *)

Section walk.
Context `{Blake3} `{Sha256} `{!Codec LeafEntry} {St : Type} `{!BlobStore St, !BlobStoreSpec St}.
Implicit Types s : St.

(** A completed walk returns exactly the entries, in order, on any store. *)
Lemma walk_entries_rep fuel p h es s out s' out' :
  walk_entries fuel h (s, out) = (Ok tt, (s', out')) → rep (contents s) p h es →
  out' = out ++ es ∧ contents s ⊆ contents s'.
Proof.
  revert p h es s out s' out'. induction fuel as [|fuel IH]; intros p h es s out s' out'; [done|].
  simpl. intros Hr Hrep. apply io_bind_ok in Hr as (n & [s1 out1] & Hl & Hr).
  apply on_fst_run in Hl as (? & Hl & [= <- ->]). apply io_map_err_ok in Hl.
  pose proof (load_node_ok _ _ _ _ Hl) as [HC _].
  inversion Hrep as [? ? bs ? Hbs Hd|? ? bs slots f Hbs Hd Hlen Hsome Hnone]; subst;
    pose proof (load_node_known _ _ _ _ _ Hl Hbs) as Hd'; rewrite Hd in Hd'; injection Hd' as <-.
  { unfold modify in Hr. injection Hr as <- <-. done. }
  apply decode_intermediate_wf in Hd as [Hsl _]. rewrite <-Hsl.
  apply (fold_slots_ok _ _ (λ i _ '(s', out'),
    out' = out ++ concat (f <$> seq 0 i) ∧ contents s ⊆ contents s')) in Hr; try done.
  - intros i c [] [s2 out2] [] [s3 out3] Hi [-> HC2] Hg.
    eapply IH in Hg as [-> HC3]; [|eapply rep_mono, Hsome; done].
    rewrite concat_seq_S, (assoc_L (++)). split; [done|by etrans].
  - intros i [] [s2 out2] Hi [-> HC2]. rewrite concat_seq_S, (Hnone _ Hi), app_nil_r. done.
  - simpl. by rewrite app_nil_r.
Qed.

Lemma warm_cache_rep fuel p h es s n s' :
  warm_cache fuel h s = (Ok n, s') → rep (contents s) p h es →
  n = length es ∧ contents s ⊆ contents s'.
Proof.
  revert p h es s n s'. induction fuel as [|fuel IH]; intros p h es s n s'; [done|].
  simpl. intros Hr Hrep. apply io_bind_ok in Hr as (nd & s1 & Hl & Hr).
  apply io_map_err_ok in Hl. pose proof (load_node_ok _ _ _ _ Hl) as [HC _].
  inversion Hrep as [? ? bs ? Hbs Hd|? ? bs slots f Hbs Hd Hlen Hsome Hnone]; subst;
    pose proof (load_node_known _ _ _ _ _ Hl Hbs) as Hd'; rewrite Hd in Hd'; injection Hd' as <-.
  { run_inv. split; [done|].
    apply (io_mapM_ok grows) in Hrun as (_ & HC' & _); [by etrans|].
    intros e. apply steps_in_map_err. intros s2 r s3. apply get_grows. }
  apply decode_intermediate_wf in Hd as [Hsl _]. rewrite <-Hsl.
  apply (fold_slots_ok _ _ (λ i n s', n = length (concat (f <$> seq 0 i)) ∧
    contents s ⊆ contents s')) in Hr; try done.
  - intros i c n2 s2 n3 s3 Hi [-> HC2] Hg. run_inv.
    eapply IH in Hrun as [-> HC3]; [|eapply rep_mono, Hsome; done].
    rewrite concat_seq_S, length_app. split; [done|by etrans].
  - intros i n2 s2 Hi [-> HC2]. rewrite concat_seq_S, (Hnone _ Hi), app_nil_r. done.
Qed.
End walk.

(** ** Totality of the walks *)

Section walk_total.
Context `{Blake3} `{Sha256} `{!Codec LeafEntry} {St : Type}
  `{!BlobStore St, !BlobStoreSpec St, !ReliableStore St}.
Implicit Types s : St.

Lemma on_fst_load s h n (bs : list byte) {V : Type} (v : V) :
  contents s !! h = Some bs → decode bs h = Ok n →
  on_fst (io_map_err (F:=fault HamtError) Raised (load_node h)) (s, v) = (Ok n, (s, v)).
Proof. intros Hbs Hd. unfold on_fst, io_map_err. by rewrite (load_node_run _ _ _ _ Hbs Hd). Qed.

Lemma walk_entries_run fuel p h es s out :
  rep (contents s) p h es → 32 ≤ fuel + length p →
  walk_entries fuel h (s, out) = (Ok tt, (s, out ++ es)).
Proof.
  revert p h es out. induction fuel as [|fuel IH]; intros p h es out Hrep Hf.
  { inversion Hrep; simpl in *; lia. }
  simpl. inversion Hrep as [? ? bs ? Hbs Hd|? ? bs slots f Hbs Hd Hlen Hsome Hnone]; subst;
    rewrite (io_bind_run _ _ _ _ _ (on_fst_load _ _ _ _ _ Hbs Hd)); [done|].
  apply decode_intermediate_wf in Hd as [Hsl _]. rewrite <-Hsl.
  destruct (fold_slots_succeeds (λ _, walk_entries fuel) slots (λ i _ '(s', out'),
    s' = s ∧ out' = out ++ concat (f <$> seq 0 i)) tt (s, out)) as ([] & [s' out'] & Hr & -> & ->);
    [| | |done].
  - intros i c [] [s2 out2] Hi [-> ->]. eexists tt, (_, _).
    rewrite (IH (p ++ [i]) c (f i)); [|by apply Hsome|rewrite length_app; simpl; lia].
    split; [done|]. split; [done|]. by rewrite concat_seq_S, (assoc_L (++)).
  - intros i [] [s2 out2] Hi [-> ->]. by rewrite concat_seq_S, (Hnone _ Hi), app_nil_r.
  - simpl. by rewrite app_nil_r.
Qed.

Lemma warm_cache_run fuel p h es s :
  rep (contents s) p h es → 32 ≤ fuel + length p → warm_cache fuel h s = (Ok (length es), s).
Proof.
  revert p h es. induction fuel as [|fuel IH]; intros p h es Hrep Hf.
  { inversion Hrep; simpl in *; lia. }
  simpl. inversion Hrep as [? ? bs ? Hbs Hd|? ? bs slots f Hbs Hd Hlen Hsome Hnone]; subst;
    (rewrite (io_bind_run _ _ s (match decode bs h with Ok n => n | Err _ => empty_leaf end) s);
      [rewrite Hd|unfold io_map_err; by rewrite (load_node_run _ _ _ _ Hbs Hd), Hd]).
  { rewrite (io_bind_run _ _ s ((λ e, contents s !! le_hash e) <$> es) s); [done|].
    apply io_mapM_run. intros e _. unfold io_map_err. by rewrite get_total. }
  apply decode_intermediate_wf in Hd as [Hsl _]. rewrite <-Hsl.
  destruct (fold_slots_succeeds (λ total child, n ← warm_cache fuel child; mret (total + n)) slots
    (λ i n s', s' = s ∧ n = length (concat (f <$> seq 0 i))) 0 s) as (n & s' & Hr & -> & ->); [| |done|done].
  - intros i c n s2 Hi [-> ->]. eexists _, _. unfold mbind, io_bind.
    rewrite (IH (p ++ [i]) c (f i)); [|by apply Hsome|rewrite length_app; simpl; lia].
    split; [done|]. split; [done|]. by rewrite concat_seq_S, length_app.
  - intros i n s2 Hi [-> ->]. by rewrite concat_seq_S, (Hnone _ Hi), app_nil_r.
Qed.

Lemma collect_reachable_succeeds fuel p h es s out :
  rep (contents s) p h es → 32 ≤ fuel + length p →
  ∃ out', collect_reachable fuel h (s, out) = (Ok tt, (s, out')).
Proof.
  revert p h es out. induction fuel as [|fuel IH]; intros p h es out Hrep Hf.
  { inversion Hrep; simpl in *; lia. }
  simpl. case_bool_decide; [by eexists|].
  inversion Hrep as [? ? bs ? Hbs Hd|? ? bs slots f Hbs Hd Hlen Hsome Hnone]; subst;
    rewrite (io_bind_run _ _ _ _ _ (on_fst_load _ _ _ _ _ Hbs Hd)); [by eexists|].
  destruct (fold_slots_succeeds (λ _, collect_reachable fuel) slots (λ i _ '(s', out'),
    s' = s) tt (s, {[h]} ∪ out)) as ([] & [s' out'] & Hr & ->); [|done|done|by eexists].
  intros i c [] [s2 out2] Hi ->.
  destruct (IH (p ++ [i]) c (f i) out2) as [out3 Hg]; [by apply Hsome|rewrite length_app; simpl; lia|].
  by eexists tt, (_, _).
Qed.
End walk_total.

(** ** Reachability, and the collection of everything reachable *)

Section reach.
Context `{Blake3} `{Sha256} `{!Codec LeafEntry}.
Implicit Types C : gmap Hash (list byte).

Definition child C (c h : Hash) : Prop :=
  ∃ bs slots i, C !! h = Some bs ∧ decode bs h = Ok (Intermediate slots) ∧
    slots !! i = Some (Some c).

(** [live C h x]: the blob [x] is needed by the tree stored under [h]: one
    of its nodes, or the content of one of its entries. *)
Inductive live C : Hash → Hash → Prop :=
| live_node h : live C h h
| live_content h bs es e :
    C !! h = Some bs → decode bs h = Ok (Leaf es) → e ∈ es → live C h (le_hash e)
| live_below h c x : child C c h → live C c x → live C h x.

Definition is_node C (h : Hash) : Prop := ∃ bs n, C !! h = Some bs ∧ decode bs h = Ok n.

(** The content blobs of the entries are not tree nodes themselves. *)
Definition contents_apart C (es : list LeafEntry) : Prop :=
  Forall (λ e, ¬ is_node C (le_hash e)) es.

Lemma live_not_node C h x : ¬ is_node C h → live C h x → x = h.
Proof.
  intros Hn. destruct 1 as [h|h bs es e Hbs Hd|h c x (bs & slots & i & Hbs & Hd & _)];
    [done|destruct Hn; by eexists _, _..].
Qed.

(** A represented tree has no cycle. *)
Lemma rep_acc C p h es : rep C p h es → Acc (child C) h.
Proof.
  induction 1 as [p h bs es Hbs Hd|p h bs slots f Hbs Hd Hlen _ IH _]; constructor;
    intros c (bs' & slots' & i & Hbs' & Hd' & Hi); simplify_eq; [congruence|].
  assert (slots' = slots) as -> by congruence. by eapply IH.
Qed.

Lemma tc_last {A} (R : relation A) x z : tc R x z → ∃ y, rtc R x y ∧ R y z.
Proof.
  induction 1 as [a b|a b c Hab _ (y & Hby & Hy)]; [by exists a|].
  exists y. split; [by eapply rtc_l|done].
Qed.

Lemma acc_irrefl {A} (R : relation A) x : Acc R x → ¬ tc R x x.
Proof.
  induction 1 as [x _ IH]. intros (y & Hxy & Hyx)%tc_last.
  apply (IH y Hyx). eapply tc_rtc_r; [by apply tc_once|done].
Qed.

Definition closed C (out : gset Hash) (h : Hash) : Prop := ∀ x, live C h x → x ∈ out.

(** Everything in the set is closed, the nodes being visited apart. *)
Definition all_closed C (T : gset Hash) (out : gset Hash) : Prop :=
  ∀ x, x ∈ out → x ∈ T ∨ closed C out x.

Lemma closed_mono C out out' h : out ⊆ out' → closed C out h → closed C out' h.
Proof. intros Hs Hc x Hx. by apply Hs, Hc. Qed.
End reach.

Section collect.
Context `{Blake3} `{Sha256} `{!Codec LeafEntry} {St : Type} `{!BlobStore St, !BlobStoreSpec St,
  !LocalStore St}.
Implicit Types (s : St) (C : gmap Hash (list byte)).

Lemma load_node_local h n s s' :
  load_node h s = (Ok n, s') → is_local s → contents s' = contents s ∧ is_local s'.
Proof. unfold load_node. intros Hr Hl. run_inv. by eapply get_local. Qed.

Lemma collect_reachable_spec fuel p h es s (T out out' : gset Hash) s' :
  collect_reachable fuel h (s, out) = (Ok tt, (s', out')) →
  is_local s → rep (contents s) p h es → contents_apart (contents s) es →
  (∀ t, t ∈ T → tc (child (contents s)) h t) → all_closed (contents s) T out →
  is_local s' ∧ contents s' = contents s ∧ out ⊆ out' ∧
  closed (contents s) out' h ∧ all_closed (contents s) T out' ∧
  (∀ x, x ∈ out' → x ∈ out ∨ live (contents s) h x).
Proof.
  revert p h es s T out out' s'.
  induction fuel as [|fuel IH]; intros p h es s T out out' s'; [done|].
  intros Hr Hloc Hrep Hap HT Hcl. simpl in Hr. case_bool_decide as Hin.
  { injection Hr as <- <-. pose proof (rep_acc _ _ _ _ Hrep) as Hacc.
    destruct (Hcl h Hin) as [Ht|Hc]; [|split_and!; auto].
    by apply HT, (acc_irrefl _ _ Hacc) in Ht. }
  apply io_bind_ok in Hr as (n & [s1 out1] & Hl & Hr). apply on_fst_run in Hl as (? & Hl & [= <- ->]).
  apply io_map_err_ok in Hl. destruct (load_node_local _ _ _ _ Hl Hloc) as [HC1 Hloc1].
  inversion Hrep as [? ? bs ? Hbs Hd|? ? bs slots f Hbs Hd Hlen Hsome Hnone]; subst;
    pose proof (load_node_known _ _ _ _ _ Hl Hbs) as Hd'; rewrite Hd in Hd'; injection Hd' as <-.
  { unfold modify in Hr. injection Hr as <- <-.
    assert (closed (contents s) (list_to_set (le_hash <$> es) ∪ ({[h]} ∪ out)) h) as Hclh.
    { intros x Hx. inversion Hx as [|? bs' es' e Hbs' Hd' He|? c ? (bs' & slots & i & Hbs' & Hd' & _)]; subst.
      - clear; set_solver.
      - assert (es' = es) as -> by congruence. rewrite elem_of_union. left.
        apply elem_of_list_to_set. by apply list_elem_of_fmap_2.
      - congruence. }
    split_and!; [done|done|clear; set_solver|done| |].
    - intros x Hx. rewrite !elem_of_union, elem_of_list_to_set, elem_of_singleton in Hx.
      destruct Hx as [(e & -> & He)%list_elem_of_fmap|[->|Hx]]; [|by right|].
      + right. intros y Hy. apply live_not_node in Hy as ->; [|unfold contents_apart in Hap; rewrite Forall_forall in Hap; by apply Hap].
        rewrite elem_of_union, elem_of_list_to_set. left. by apply list_elem_of_fmap_2.
      + destruct (Hcl x Hx) as [?|Hc]; [by left|right]. eapply closed_mono; [|done]. clear; set_solver.
    - intros x Hx. rewrite !elem_of_union, elem_of_list_to_set, elem_of_singleton in Hx.
      destruct Hx as [(e & -> & He)%list_elem_of_fmap|[->|Hx]]; [|right; apply live_node|by left].
      right. by eapply live_content. }
  pose proof Hd as Hd0. apply decode_intermediate_wf in Hd0 as [Hsl _].
  apply (fold_slots_ok _ _ (λ i _ '(s2, out2),
    is_local s2 ∧ contents s2 = contents s ∧ {[h]} ∪ out ⊆ out2 ∧
    (∀ j c, j < i → slots !! j = Some (Some c) → closed (contents s) out2 c) ∧
    all_closed (contents s) ({[h]} ∪ T) out2 ∧
    (∀ x, x ∈ out2 → x ∈ out ∨ live (contents s) h x))) in Hr as
    (Hl2 & HC2 & Hs2 & Hch & Hcl2 & Hsnd).
  - assert (closed (contents s) out' h) as Hclh.
    { intros x Hx. inversion Hx as [|? bs' es' e Hbs' Hd' He|? c ? (bs' & slots' & i & Hbs' & Hd' & Hi) Hlive]; subst.
      - set_solver + Hs2.
      - congruence.
      - assert (slots' = slots) as -> by congruence. eapply Hch; [|done|done].
        by eapply lookup_lt_Some. }
    split_and!; [done|done|set_solver + Hs2|done| |done].
    intros x Hx. destruct (Hcl2 x Hx) as [Ht|?]; [|by right]. set_solver + Ht Hclh.
  - intros i c [] [s2 out2] [] [s3 out3] Hi (Hl2 & HC2 & Hs2 & Hch & Hcl2 & Hsnd) Hg.
    assert (child (contents s) c h) as Hchild by by eexists _, _, _.
    assert (i < INTERMEDIATE_FANOUT) as Hilt by (rewrite <-Hsl; by eapply lookup_lt_Some).
    eapply (IH (p ++ [i]) c (f i) s2 ({[h]} ∪ T)) in Hg as (Hl3 & HC3 & Hs3 & Hc3 & Hcl3 & Hsnd3).
    + rewrite HC2 in *. split_and!; [done|done|set_solver + Hs2 Hs3| |done|].
      * intros j c' Hj Hjc. destruct (decide (j = i)) as [->|]; [by assert (c' = c) as -> by congruence|].
        eapply closed_mono, Hch; [done| |done]. lia.
      * intros x [Hx|Hx]%Hsnd3; [by apply Hsnd|]. right. by eapply live_below.
    + done.
    + rewrite HC2. by apply Hsome.
    + rewrite HC2. apply Forall_forall. intros e He. eapply Forall_forall in Hap; [exact Hap|].
      apply concat_fmap_elem. eauto.
    + rewrite HC2. intros t [->%elem_of_singleton|Ht%HT]%elem_of_union; [by apply tc_once|].
      by eapply tc_l.
    + by rewrite HC2.
  - intros i [] [s2 out2] Hi (Hl2 & HC2 & Hs2 & Hch & Hcl2 & Hsnd). split_and!; try done.
    intros j c Hj Hjc. apply (Hch j); [|done]. destruct (decide (j = i)) as [->|]; [congruence|lia].
  - split_and!; try done; [intros; lia| |].
    + intros x [->%elem_of_singleton|Hx]%elem_of_union; [left; clear; set_solver|].
      destruct (Hcl x Hx) as [?|Hc]; [left; by apply elem_of_union_r|right]. eapply closed_mono; [|done]. clear; set_solver.
    + intros x [->%elem_of_singleton|Hx]%elem_of_union; [right; apply live_node|by left].
Qed.
End collect.
