(* ===== verification/HamtWalk.v ===== *)
(** The concurrent walk: [walk_entries_parallel] of
    [crates/registry-core/src/hamt.rs], as a step relation.

    A level's fetches run as tasks whose results arrive in any order, each
    fetch may fail or panic, and the deadline may strike before any step.
    [walk_step] has one constructor per way the loop advances; the
    [concurrency] bound only restricts the order further. *)

From S2P Require Import Prelude Hash Partition Record BlobStore Hamt HamtNodeFacts HamtFacts.

Record WalkOutcome := mkWalkOutcome { wo_entries : list LeafEntry; wo_complete : bool }.

Section walk_parallel.
Context `{!Codec LeafEntry} {St : Type} `{!BlobStore St}.

(** The loop's variables; [ws_done] is set when it is left. *)
Record WalkState := mkWalkState {
  ws_store : St;
  ws_frontier : list Hash;
  ws_tasks : list Hash;
  ws_entries : list LeafEntry;
  ws_complete : bool;
  ws_done : bool;
}.

Definition walk_init (s : St) (root : Hash) : WalkState :=
  mkWalkState s [root] [] [] true false.

Definition node_entries (r : result HamtError HamtNode) : list LeafEntry :=
  match r with Ok (Leaf es) => es | _ => [] end.
Definition node_children (r : result HamtError HamtNode) : list Hash :=
  match r with Ok (Intermediate slots) => omap id slots | _ => [] end.

Inductive walk_step : WalkState → WalkState → Prop :=
| walk_level s f es ok remaining :
    f ≠ [] →
    walk_step (mkWalkState s f [] es ok false)
              (mkWalkState (prefetch f remaining s) [] f es ok false)
| walk_join s f t1 h t2 es ok r s' :
    load_node h s = (r, s') →
    walk_step (mkWalkState s f (t1 ++ h :: t2) es ok false)
              (mkWalkState s' (f ++ node_children r) (t1 ++ t2) (es ++ node_entries r)
                 (ok && is_ok r) false)
| walk_panic s f t1 h t2 es ok :
    walk_step (mkWalkState s f (t1 ++ h :: t2) es ok false)
              (mkWalkState s f (t1 ++ t2) es false false)
| walk_deadline s f ts es ok :
    walk_step (mkWalkState s f ts es ok false) (mkWalkState s f [] es false true)
| walk_finish s es ok :
    walk_step (mkWalkState s [] [] es ok false) (mkWalkState s [] [] es ok true).

Definition walk_outcome (w : WalkState) : WalkOutcome :=
  mkWalkOutcome (sort_by_key le_key (ws_entries w)) (ws_complete w).

(** [walk_entries_parallel store root .. = out] for some schedule. *)
Definition walk_entries_parallel (s : St) (root : Hash) (out : WalkOutcome) : Prop :=
  ∃ w, rtc walk_step (walk_init s root) w ∧ ws_done w = true ∧ out = walk_outcome w.
End walk_parallel.
Arguments WalkState : clear implicits.

Section walk_facts.
Context `{Blake3} `{Sha256} `{!Codec LeafEntry} {St : Type} `{!BlobStore St}.

(** As [good_reading]; while the walk runs, other tasks may change the
    store, but to good states only. *)
Context (C : gmap Hash (list byte)) (good : St → Prop).
Context (good_load : ∀ s h r s', good s → load_node h s = (r, s') →
  good s' ∧ ∀ n bs, r = Ok n → C !! h = Some bs → decode bs h = Ok n).
Context (good_prefetch : ∀ s hs n, good s → good (prefetch hs n s)).

(** A step of the walk or of another task. *)
Inductive shared_step : WalkState St → WalkState St → Prop :=
| shared_walk w w' : walk_step w w' → shared_step w w'
| shared_other s s' f ts es ok d : good s' → shared_step (mkWalkState s f ts es ok d) (mkWalkState s' f ts es ok d).

(** The entries of the pending subtrees, the collected ones and the lost
    ones make up the tree; nothing is lost while [complete] holds. *)
Definition walk_inv (es0 : list LeafEntry) (w : WalkState St) : Prop :=
  good (ws_store w) ∧
  ∃ pend lost,
    (ws_done w = true → ws_complete w = true → pend = []) ∧
    (ws_done w = false → Forall2 (λ h es, ∃ p, rep C p h es) (ws_frontier w ++ ws_tasks w) pend) ∧
    ws_entries w ++ concat pend ++ lost ≡ₚ es0 ∧
    (ws_complete w = true → lost = []).

Lemma children_pend p slots f k :
  (∀ i c, slots !! i = Some (Some c) → rep C (p ++ [k + i]) c (f (k + i))) →
  (∀ i, slots !! i = Some None → f (k + i) = []) →
  ∃ pend, Forall2 (λ h es, ∃ p, rep C p h es) (omap id slots) pend ∧
    concat pend = concat (f <$> seq k (length slots)).
Proof.
  revert k. induction slots as [|o slots IH]; intros k Hsome Hnone; [by exists []|].
  destruct (IH (S k)) as (pend & Hp & Hc).
  { intros i c Hi. replace (S k + i) with (k + S i) by lia. by apply Hsome. }
  { intros i Hi. replace (S k + i) with (k + S i) by lia. by apply Hnone. }
  pose proof (Hsome 0) as Hs0. pose proof (Hnone 0) as Hn0. rewrite Nat.add_0_r in *.
  destruct o as [c|]; simpl.
  - exists (f k :: pend). split; [|simpl; by rewrite Hc]. constructor; [|done]. eauto.
  - exists pend. split; [done|]. by rewrite Hc, Hn0.
Qed.

Lemma load_pend p h es (s : St) r s' :
  good s → load_node h s = (r, s') → rep C p h es →
  good s' ∧
  ∃ pend, Forall2 (λ h es, ∃ p, rep C p h es) (node_children r) pend ∧
    (is_ok r = true → node_entries r ++ concat pend = es) ∧
    (is_ok r = false → node_entries r = [] ∧ pend = []).
Proof.
  intros Hg Hl Hrep. destruct (good_load _ _ _ _ Hg Hl) as [Hg' Hk]. split; [done|].
  destruct r as [n|e]; last first.
  { exists []. split; [constructor|]. split; done. }
  inversion Hrep as [? ? bs ? Hbs Hd|? ? bs slots f Hbs Hd Hlen Hsome Hnone]; subst;
    pose proof (Hk _ _ eq_refl Hbs) as Hd'; rewrite Hd in Hd'; injection Hd' as <-.
  { exists []. split; [constructor|]. split; [|done]. intros _. simpl. by rewrite app_nil_r. }
  apply decode_intermediate_wf in Hd as [Hsl _].
  destruct (children_pend p slots f 0) as (pend & Hp & Hc); [done..|].
  exists pend. split; [done|]. split; [|done]. intros _. simpl. by rewrite Hc, Hsl.
Qed.

Lemma walk_step_inv es0 w w' : walk_inv es0 w → walk_step w w' → walk_inv es0 w'.
Proof.
  intros (Hg & pend & lost & _ & Hp & Hperm & Hl) Hst.
  destruct Hst as [s f es ok rem Hf|s f t1 h t2 es ok r s' Hld|s f t1 h t2 es ok|s f ts es ok|s es ok];
    simpl in *; specialize (Hp eq_refl).
  - split; [by apply good_prefetch|]. exists pend, lost. split_and!; try done. intros _. simpl. by rewrite app_nil_r in Hp.
  - apply Forall2_app_inv_l in Hp as (pf & pt & Hpf & Hpt & ->).
    apply Forall2_app_inv_l in Hpt as (p1 & p2' & Hp1 & Hp2' & ->).
    apply Forall2_cons_inv_l in Hp2' as (eh & p2 & [p Hrep] & Hp2 & ->).
    destruct (load_pend p h eh s r s' Hg Hld Hrep) as (Hg' & pc & Hpc & Hok & Herr). split; [done|].
    exists (pf ++ pc ++ p1 ++ p2), (if is_ok r then lost else eh ++ lost). split_and!; [done| | |].
    + intros _. simpl. rewrite <-(assoc_L (++) f). by repeat apply Forall2_app.
    + rewrite <-Hperm, !concat_app. simpl. destruct (is_ok r).
      * rewrite <-(Hok eq_refl). solve_Permutation.
      * destruct (Herr eq_refl) as [-> ->]. simpl. solve_Permutation.
    + intros [Hok' Hr]%andb_true_iff. rewrite Hr. by apply Hl.
  - apply Forall2_app_inv_l in Hp as (pf & pt & Hpf & Hpt & ->).
    apply Forall2_app_inv_l in Hpt as (p1 & p2' & Hp1 & Hp2' & ->).
    apply Forall2_cons_inv_l in Hp2' as (eh & p2 & _ & Hp2 & ->). split; [done|].
    exists (pf ++ p1 ++ p2), (eh ++ lost). split_and!; try done.
    + intros _. simpl. apply Forall2_app; [done|]. by apply Forall2_app.
    + rewrite <-Hperm, !concat_app. simpl. solve_Permutation.
  - split; [done|]. exists pend, lost. by split_and!.
  - split; [done|]. inversion Hp; subst. exists [], lost. by split_and!.
Qed.

Lemma shared_step_inv es0 w w' : walk_inv es0 w → shared_step w w' → walk_inv es0 w'.
Proof. intros Hi Hst. destruct Hst as [w w' Hst|]; [by eapply walk_step_inv|]. by destruct Hi as [_ Hi]. Qed.

Lemma walk_inv_init es0 (s : St) root : good s → rep_root C (Some root) es0 → walk_inv es0 (walk_init s root).
Proof.
  intros Hg Hr. split; [done|]. exists [es0], []. split_and!; try done.
  - intros _. simpl. constructor; [by exists []|constructor].
  - simpl. by rewrite !app_nil_r.
Qed.

Lemma walk_inv_reach es0 (s : St) root w :
  good s → rep_root C (Some root) es0 → rtc shared_step (walk_init s root) w → walk_inv es0 w.
Proof.
  intros Hg Hr. apply (rtc_ind_r (walk_inv es0)); [by apply walk_inv_init|].
  intros w1 w2 _ Hst Hi. by eapply shared_step_inv.
Qed.

(** What a complete and what a partial walk list. *)
Lemma walk_inv_outcome es0 w : NoDup (le_key <$> es0) → walk_inv es0 w → ws_done w = true →
  (wo_complete (walk_outcome w) = true → wo_entries (walk_outcome w) = sort_by_key le_key es0) ∧
  ∃ lost, wo_entries (walk_outcome w) ++ lost ≡ₚ es0.
Proof.
  intros Hnd (_ & pend & lost & Hpend & _ & Hperm & Hlost) Hdone. simpl. split.
  - intros Hc. rewrite (Hpend Hdone Hc), (Hlost Hc) in Hperm. simpl in Hperm.
    rewrite app_nil_r in Hperm. symmetry. apply sort_by_key_unique; [done|by rewrite Hperm].
  - exists (concat pend ++ lost). by rewrite sort_by_key_perm.
Qed.
End walk_facts.

(** On its own store, the walk sees the tree that the store holds. *)
Section own_store.
Context `{Blake3} `{Sha256} `{!Codec LeafEntry} {St : Type} `{!BlobStore St, !BlobStoreSpec St}.

Lemma own_walk_inv es0 (s : St) root w : rep_root (contents s) (Some root) es0 →
  rtc walk_step (walk_init s root) w → walk_inv (contents s) (λ s', contents s ⊆ contents s') es0 w.
Proof.
  intros Hr Hst. eapply walk_inv_reach; [| |reflexivity|exact Hr|].
  - intros s1 h r s2. apply own_load.
  - intros s1 hs n Hs. etrans; [exact Hs|]. apply prefetch_grows.
  - eapply rtc_subrel; [|exact Hst]. apply shared_walk.
Qed.
End own_store.

(** ** Every schedule ends *)

Section walk_ends.
Context `{Blake3} `{Sha256} `{!Codec LeafEntry} {St : Type} `{!BlobStore St, !BlobStoreSpec St}.

Lemma sum_list_fmap_S (l : list nat) : sum_list l ≤ sum_list (S <$> l).
Proof. induction l as [|n l IH]; [done|]. rewrite fmap_cons. simpl. lia. Qed.

(** [weight fuel C h n]: the tree under [h] takes [n] steps to walk. *)
Fixpoint weight (fuel : nat) (C : gmap Hash (list byte)) (h : Hash) (n : nat) : Prop :=
  match fuel with
  | 0 => False
  | S fuel => ∃ bs nd, C !! h = Some bs ∧ decode bs h = Ok nd ∧
      match nd with
      | Leaf _ => n = 1
      | Intermediate slots => ∃ ns,
          Forall2 (weight fuel C) (omap id slots) ns ∧ n = S (sum_list (S <$> ns))
      end
  end.

Lemma weight_mono fuel C C' h n : C ⊆ C' → weight fuel C h n → weight fuel C' h n.
Proof.
  intros HC. revert h n. induction fuel as [|fuel IH]; intros h n; simpl; [done|].
  intros (bs & nd & Hbs & Hd & Hn). exists bs, nd.
  split_and!; [by eapply lookup_weaken|done|]. destruct nd as [es|slots]; [done|].
  destruct Hn as (ns & Hns & ->). exists ns. split; [|done].
  eapply Forall2_impl; [exact Hns|]. auto.
Qed.

Lemma rep_weight fuel C p h es :
  rep C p h es → 32 ≤ fuel + length p → ∃ n, weight fuel C h n.
Proof.
  revert p h es. induction fuel as [|fuel IH]; intros p h es Hrep Hf.
  { inversion Hrep; simpl in *; lia. }
  inversion Hrep as [? ? bs ? Hbs Hd|? ? bs slots f Hbs Hd Hlen Hsome Hnone]; subst; simpl.
  { by exists 1, bs, (Leaf es). }
  assert (∃ ns, Forall2 (weight fuel C) (omap id slots) ns) as [ns Hns].
  { assert (∀ c, c ∈ omap id slots → ∃ n, weight fuel C c n) as Hall.
    { intros c ([c'|] & Hc & [= ->])%list_elem_of_omap.
      apply list_elem_of_lookup in Hc as [i Hi].
      eapply IH; [by apply Hsome|rewrite length_app; simpl; lia]. }
    induction (omap id slots) as [|c cs IHcs]; [by exists []|].
    destruct (Hall c) as [n Hn]; [by left|].
    destruct IHcs as [ns Hns]; [intros; apply Hall; by right|]. exists (n :: ns). by constructor. }
  exists (S (sum_list (S <$> ns))), bs, (Intermediate slots). eauto.
Qed.

Definition weights (s : St) (hs : list Hash) (ns : list nat) : Prop :=
  Forall2 (λ h n, ∃ fuel, weight fuel (contents s) h n) hs ns.

Lemma weights_mono (s s' : St) hs ns :
  contents s ⊆ contents s' → weights s hs ns → weights s' hs ns.
Proof.
  intros HC Hw. eapply Forall2_impl; [exact Hw|]. intros h n [fuel ?]. exists fuel.
  by eapply weight_mono.
Qed.

Definition walk_measure (w : WalkState St) (n : nat) : Prop :=
  if ws_done w then n = 0
  else ∃ nf nt, weights (ws_store w) (ws_frontier w) nf ∧ weights (ws_store w) (ws_tasks w) nt ∧
    n = S (sum_list (S <$> nf) + sum_list nt).

Lemma load_weight (s : St) h r s' n fuel :
  load_node h s = (r, s') → weight fuel (contents s) h n →
  contents s ⊆ contents s' ∧ ∃ ns, weights s' (node_children r) ns ∧ sum_list (S <$> ns) < n.
Proof.
  intros Hl Hw. pose proof (load_node_grows _ _ _ _ Hl) as HC. split; [done|]. destruct fuel as [|fuel]; [done|].
  destruct Hw as (bs & nd & Hbs & Hd & Hn). destruct r as [nd'|e]; last first.
  { exists []. split; [constructor|]. destruct nd; [by subst; simpl; lia|].
    destruct Hn as (ns & _ & ->). simpl. lia. }
  pose proof (load_node_known _ _ _ _ _ Hl Hbs) as Hd'. rewrite Hd in Hd'. injection Hd' as <-.
  destruct nd as [es|slots]; [exists []; split; [constructor|]; subst; simpl; lia|].
  destruct Hn as (ns & Hns & ->). exists ns. split; [|lia].
  eapply Forall2_impl; [exact Hns|]. intros c k Hk. exists fuel. by eapply weight_mono.
Qed.

Lemma walk_step_measure w w' n :
  walk_measure w n → walk_step w w' → ∃ n', n' < n ∧ walk_measure w' n'.
Proof.
  intros Hm Hst. destruct Hst as [s f es ok rem Hf|s f t1 h t2 es ok r s' Hld|s f t1 h t2 es ok|s f ts es ok|s es ok];
    destruct Hm as (nf & nt & Hnf & Hnt & ->); simpl in *.
  - inversion Hnt; subst. exists (S (sum_list nf)). split.
    + destruct f; [done|]. destruct nf as [|k nf]; [by inversion Hnf|].
      pose proof (sum_list_fmap_S nf). rewrite fmap_cons. simpl. lia.
    + exists [], nf. split_and!; [constructor| |done].
      eapply weights_mono; [apply prefetch_grows|done].
  - apply Forall2_app_inv_l in Hnt as (n1 & n2' & Hn1 & Hn2' & ->).
    apply Forall2_cons_inv_l in Hn2' as (nh & n2 & [fuel Hh] & Hn2 & ->).
    destruct (load_weight _ _ _ _ _ _ Hld Hh) as (HC & ns & Hns & Hlt).
    eexists. split; last first.
    + exists (nf ++ ns), (n1 ++ n2). split_and!; [| |done]; simpl.
      * apply Forall2_app; [by eapply weights_mono|done].
      * apply Forall2_app; by eapply weights_mono.
    + rewrite fmap_app, !sum_list_app. simpl. lia.
  - apply Forall2_app_inv_l in Hnt as (n1 & n2' & Hn1 & Hn2' & ->).
    apply Forall2_cons_inv_l in Hn2' as (nh & n2 & [fuel Hh] & Hn2 & ->).
    eexists. split; last first.
    + exists nf, (n1 ++ n2). split_and!; [done| |done]. by apply Forall2_app.
    + destruct fuel as [|fuel]; [done|]. destruct Hh as (bs & nd & _ & _ & Hnh).
      assert (0 < nh) by (destruct nd; [lia|destruct Hnh as (? & _ & ->); lia]).
      rewrite !sum_list_app. simpl. lia.
  - exists 0. split; [lia|done].
  - exists 0. split; [lia|done].
Qed.

Lemma walk_acc w n : walk_measure w n → Acc (flip walk_step) w.
Proof.
  revert w. induction n as [n IH] using (well_founded_induction lt_wf). intros w Hm.
  constructor. intros w' Hst. destruct (walk_step_measure _ _ _ Hm Hst) as (n' & Hlt & Hm').
  by eapply IH.
Qed.

Lemma walk_init_acc (s : St) root es :
  rep_root (contents s) (Some root) es → Acc (flip walk_step) (walk_init s root).
Proof.
  intros Hr. destruct (rep_weight 32 _ _ _ _ Hr) as [n Hn]; [simpl; lia|].
  eapply walk_acc. exists [n], []. split_and!; [|constructor|done].
  constructor; [by exists 32|constructor].
Qed.
End walk_ends.

(** ** Walks of a published tree

    Other tasks may write to the store while a walk runs. *)

Section published.
Context `{Blake3} `{Sha256} `{!Codec LeafEntry} {St : Type} `{!BlobStore St}.
Context (D : list byte → Prop) `{!CollisionFree D} `{!VerifiedStore St D}.

(** A walk from [root] came to [out], for some schedule of its fetches and
    of the other tasks. *)
Definition shared_walk_outcome (root : Hash) (out : WalkOutcome) : Prop :=
  ∃ s w, verified s ∧ rtc (shared_step verified) (walk_init s root) w ∧ ws_done w = true ∧ out = walk_outcome w.

(** A complete walk lists the tree, whatever the store has of it; any walk
    lists a part of it. *)
Lemma shared_walk_part C root es out : published D C → rep_root C (Some root) es → shared_walk_outcome root out →
  (wo_complete out = true → wo_entries out = sort_by_key le_key es) ∧ ∃ lost, wo_entries out ++ lost ≡ₚ es.
Proof.
  intros HC Hr (s & w & Hs & Hst & Hdone & ->). eapply walk_inv_outcome; [by eapply rep_NoDup| |done].
  eapply walk_inv_reach; [|intros; by apply prefetch_verified|exact Hs|exact Hr|exact Hst].
  intros s1 h r s2. by apply (verified_load D).
Qed.
Lemma shared_walk_lists C root es out : published D C → rep_root C (Some root) es →
  shared_walk_outcome root out → wo_complete out = true → wo_entries out = sort_by_key le_key es.
Proof. intros HC Hr Ho. by apply (shared_walk_part C root es out HC Hr Ho). Qed.
End published.

(** On a store that does not fail, some schedule lists the whole tree. *)
Section complete_walk.
Context `{Blake3} `{Sha256} `{!Codec LeafEntry} {St : Type} `{!BlobStore St, !BlobStoreSpec St, !ReliableStore St}.

Lemma load_node_reliable (s : St) p h es : rep (contents s) p h es → ∃ n, load_node h s = (Ok n, s).
Proof.
  intros Hr. assert (∃ bs n, contents s !! h = Some bs ∧ decode bs h = Ok n) as (bs & n & Hbs & Hd).
  { inversion Hr; subst; eauto. }
  exists n. unfold load_node, mbind, io_bind, io_map_err. rewrite get_total, Hbs. simpl. unfold io_lift. by rewrite Hd.
Qed.

Lemma walk_completes (s : St) root es : rep_root (contents s) (Some root) es →
  ∃ out, walk_entries_parallel s root out ∧ wo_complete out = true.
Proof.
  intros Hr. assert (∀ w, Acc (flip walk_step) w → rtc walk_step (walk_init s root) w → ws_done w = false →
    ws_complete w = true → ∃ w', rtc walk_step w w' ∧ ws_done w' = true ∧ ws_complete w' = true) as Hgo.
  { induction 1 as [[s1 f ts es1 ok d] _ IH]. simpl. intros Hst -> ->.
    assert (∀ w', walk_step (mkWalkState s1 f ts es1 true false) w' → ws_done w' = false → ws_complete w' = true →
      ∃ w'', rtc walk_step (mkWalkState s1 f ts es1 true false) w'' ∧ ws_done w'' = true ∧ ws_complete w'' = true) as Hnext.
    { intros w' Hw' Hd Hc. destruct (IH w' Hw') as (w'' & ? & ? & ?); [by eapply rtc_r|done..|].
      exists w''. split_and!; [by eapply rtc_l|done..]. }
    destruct ts as [|h ts].
    - destruct f as [|h f]; [eexists; split; [apply rtc_once, walk_finish|done]|].
      by eapply Hnext; [apply (walk_level s1 (h :: f) es1 true 0)|..].
    - destruct (own_walk_inv es s root _ Hr Hst) as (Hg & pend & lost & _ & Hp & _). simpl in *.
      specialize (Hp eq_refl). apply Forall2_app_inv_l in Hp as (? & ? & _ & Hp & _).
      apply Forall2_cons_inv_l in Hp as (eh & ? & [p Hh] & _ & _).
      destruct (load_node_reliable s1 p h eh) as [n Hn]; [by eapply rep_mono|].
      eapply Hnext; [by apply (walk_join s1 f [] h ts es1 true (Ok n) s1)|done..]. }
  destruct (Hgo (walk_init s root)) as (w & Hw & Hd & Hc); [by eapply walk_init_acc|done..|].
  exists (walk_outcome w). split; [|done]. by exists w.
Qed.
End complete_walk.

(** A traced store has an outcome that lists the whole tree; a walk whose
    deadline strikes at once lists nothing. *)
Section traced_walk.
Context `{Blake3} `{Sha256} `{!Codec LeafEntry} (D : list byte → Prop).

Lemma traced_listing (s : Traced MemoryBlobStore) root es : rep_root (contents s) (Some root) es → store_ok D s →
  ∃ out, shared_walk_outcome (St:=MemoryBlobStore) D root out ∧ wo_complete out = true.
Proof.
  intros Hrep [_ Hok]. destruct (walk_completes (tr_store s) root es Hrep) as (out & (w & Hst & Hd & ->) & Hc).
  exists (walk_outcome w). split; [|done]. exists (tr_store s), w. split_and!; [exact Hok| |done|done].
  eapply rtc_subrel; [|exact Hst]. apply shared_walk.
Qed.

Lemma shared_walk_late {St} `{!BlobStore St, !VerifiedStore St D} (s : St) root :
  verified s → shared_walk_outcome D root (mkWalkOutcome [] false).
Proof.
  intros Hs. exists s, (mkWalkState s [root] [] [] false true). split_and!; [done| |done|done].
  apply rtc_once, shared_walk, walk_deadline.
Qed.
End traced_walk.
