(* ===== verification/Samples.v ===== *)
(** Small concrete instances of the third-party operations, for evaluating
    the definitions on concrete inputs.

    They stand for no real algorithm: [sample_blake3] is a checksum,
    [sample_sha256] pads its input, so that the descent path of a short key
    is its own characters, and the JSON of a leaf entry is replaced by a
    two-letter code.  The laws the theorems ask of the real ones are proved
    of these. *)

From S2P Require Import Prelude Hash Partition Record BlobStore Hamt.

(** ** Hashes *)

Definition checksum (l : list byte) : N :=
  foldl (λ acc b, match b with
                  | x00 => N.succ acc
                  | _ => (acc * 257 + to_N b) mod 2305843009213693951
                  end)%N 7%N l.

Fixpoint le_bytes (k : nat) (n : N) : list byte :=
  match k with 0 => [] | S k => byte_of_N n :: le_bytes k (n / 256) end.

Definition sample_blake3 : Blake3 := λ l, pad32 (xff :: le_bytes 8 (checksum l)).
Definition sample_sha256 : Sha256 := λ l, pad32 l.

(** ** Hexadecimal *)

Definition nibble (n : N) : byte := if (n <? 10)%N then byte_of_N (48 + n) else byte_of_N (87 + n).
Definition unnibble (b : byte) : option N :=
  let n := to_N b in
  if ((48 <=? n) && (n <=? 57))%N%bool then Some (n - 48)%N
  else if ((97 <=? n) && (n <=? 102))%N%bool then Some (n - 87)%N
  else if ((65 <=? n) && (n <=? 70))%N%bool then Some (n - 55)%N
  else None.

Definition hex_byte (b : byte) : list byte := [nibble (to_N b / 16); nibble (to_N b mod 16)].

Fixpoint unhex (l : list byte) : option (list byte) :=
  match l with
  | [] => Some []
  | a :: b :: l =>
      x ← unnibble a; y ← unnibble b; r ← unhex l; Some (byte_of_N (x * 16 + y) :: r)
  | _ => None
  end.

#[local] Instance sample_hex : Hex := {
  FromHexError := string;
  hex_encode l := str_of_bytes (concat (hex_byte <$> l));
  hex_decode_to_slice s := ok_or "invalid hex" (unhex (str_bytes s) ≫= to_b32);
}.

Lemma unhex_hex_byte b l : unhex (hex_byte b ++ l) = cons b <$> unhex l.
Proof. destruct b; simpl; by destruct (unhex l). Qed.

Lemma unhex_hex l : unhex (concat (hex_byte <$> l)) = Some l.
Proof.
  induction l as [|b l IH]; [done|]. rewrite fmap_cons. cbn [concat].
  by rewrite unhex_hex_byte, IH.
Qed.

Lemma sample_hex_laws : HexLaws.
Proof.
  split.
  - intros b. simpl. rewrite str_bytes_of_bytes, unhex_hex. simpl. by rewrite to_b32_list.
  - intros l. simpl. rewrite str_bytes_of_bytes. induction l as [|b l IH]; [constructor|].
    rewrite fmap_cons. cbn [concat]. apply Forall_app. split; [|done].
    destruct b; repeat constructor.
Qed.

(** ** A serialisation of leaf entries *)

Fixpoint pos_bytes (p : positive) : list byte :=
  match p with
  | xI p => x41 :: pos_bytes p
  | xO p => x42 :: pos_bytes p
  | xH => [x43]
  end.
Fixpoint bytes_pos (l : list byte) : option positive :=
  match l with
  | [] => None
  | b :: l =>
      if decide (b = x43) then Some xH
      else p ← bytes_pos l; Some (if decide (b = x41) then xI p else xO p)
  end.

Lemma bytes_pos_bytes p : bytes_pos (pos_bytes p) = Some p.
Proof. induction p as [p IH|p IH|]; simpl; [by rewrite IH..|done]. Qed.

Lemma pos_bytes_letters p : Forall (λ b, b ≠ x0a) (pos_bytes p).
Proof. induction p; simpl; by repeat constructor. Qed.

#[local] Program Instance leaf_entry_countable : Countable LeafEntry :=
  inj_countable' (λ e, (le_key e, le_hash e, le_size e, le_added_at e, le_content_code e))
    (λ '(k, h, n, t, c), mkLeafEntry k h n t c) _.
Next Obligation. by intros []. Qed.

(** The codec of any countable type with a decidable domain. *)
Definition count_codec (A : Type) `{Countable A} (dom : A → Prop) `{∀ a, Decision (dom a)} : Codec A := {|
  ser a := pos_bytes (countable.encode a);
  de l := match bytes_pos l ≫= countable.decode with
          | Some a => if decide (dom a) then Ok a else Err "out of range"
          | None => Err "not a value"
          end;
|}.

Lemma count_codec_laws (A : Type) `{Countable A} (dom : A → Prop) `{∀ a, Decision (dom a)} :
  @CodecLaws A (count_codec A dom) dom.
Proof.
  split; simpl.
  - intros a Ha. rewrite bytes_pos_bytes. simpl. rewrite countable.decode_encode. by rewrite decide_True.
  - intros b a. destruct (bytes_pos b ≫= countable.decode) as [x|]; [|done]. case_decide; [|done].
    by intros [= <-].
Qed.

Definition sample_leaf_codec : Codec LeafEntry := count_codec LeafEntry leaf_entry_dom.

Lemma sample_leaf_laws : @LeafCodecLaws sample_leaf_codec.
Proof.
  split.
  - apply count_codec_laws.
  - intros e Hx. pose proof (pos_bytes_letters (countable.encode e)) as Hl. rewrite Forall_forall in Hl.
    by apply (Hl x0a).
  - intros e. simpl. by destruct (countable.encode e).
Qed.

(** ** A store and a trie *)

#[local] Existing Instances sample_blake3 sample_sha256 sample_leaf_codec sample_leaf_laws.

Definition sample_store : Traced MemoryBlobStore := mkTraced MemoryBlobStore_new [].

Definition sample_entry (k v : string) : LeafEntry :=
  mkLeafEntry k (content_hash v) (N.of_nat (String.length v)) 1700000000000000000 None.

(** The blobs a run from an empty store may use: the ones it wrote. *)
Definition written {St} (s : Traced St) : list byte → Prop := λ b, b ∈ tr_log s.

Lemma written_all {St} (s : Traced St) : Forall (written s) (tr_log s).
Proof. by apply Forall_forall. Qed.

Lemma sample_store_ok (D : list byte → Prop) : store_ok D sample_store.
Proof. split; [done|]. intros h b Hb. done. Qed.

(** The value of a run that succeeds. *)
Definition run_value {W E A} (d : A) (r : result E A * W) : A :=
  match r.1 with Ok a => a | Err _ => d end.

Lemma run_ok {W E A} (d : A) (r : result E A * W) :
  is_ok r.1 = true → r = (Ok (run_value d r), r.2).
Proof. by destruct r as [[] ?]. Qed.

(** Three entries, one to a leaf: the second and third share a descent byte. *)
Definition sample_entries : list LeafEntry :=
  [sample_entry "pa1" "{1}"; sample_entry "pb1" "{2}"; sample_entry "pb2" "{3}"].

Definition sample_run : result HamtError Hash * Traced MemoryBlobStore :=
  insert_batch None sample_entries 1 ∅ sample_store.
Definition sample_root : Hash := run_value ZERO sample_run.
Definition sample_after : Traced MemoryBlobStore := sample_run.2.

Lemma sample_run_ok :
  insert_batch None sample_entries 1 ∅ sample_store = (Ok sample_root, sample_after).
Proof.
  unfold sample_root, sample_after, sample_run. apply run_ok. vm_compute. reflexivity.
Qed.

Lemma sample_collision_free : CollisionFree (written sample_after).
Proof. apply collision_free_of_check. vm_compute. reflexivity. Qed.

#[global] Opaque sample_run sample_root sample_after.
