(* ===== verification/HamtSpec.v ===== *)
(** What the trie promises its clients: the theorems about
    [crates/registry-core/src/hamt.rs], with the runs that witness them. *)

From S2P Require Import Prelude Hash Partition Record BlobStore Hamt HamtNodeFacts HamtFacts HamtInsert HamtBuild HamtTotal HamtCost HamtWalkFacts HamtWalk Samples.

(** What a key maps to after a batch: what it mapped to before, else its first
    occurrence in the batch, unless it is denied. *)
Definition batch_lookup (denylist : gset string) (es new : list LeafEntry) (k : string)
    : option LeafEntry :=
  match find_key le_key k es with
  | Some e => Some e
  | None => if decide (k ∈ denylist) then None else find_key le_key k new
  end.

Section spec.
Context `{Blake3} `{Sha256} `{!Codec LeafEntry, !LeafCodecLaws}.

(** C14: An incremental batch refines a first-write-wins map.  If the old
    root represents [es] and [insert_batch] returns a root, that root
    represents entries with distinct keys in which every key maps to what
    it mapped to before, or else to its first occurrence in the batch, and
    denied keys of the batch are left out.  BLAKE3 is assumed free of
    collisions only among the blobs the store holds and the run writes. *)
Theorem insert_batch_refines {St} `{!BlobStore St, !BlobStoreSpec St, !LocalStore St}
    (D : list byte → Prop) `{!CollisionFree D} m root new denylist es (s : Traced St) h s' :
  insert_batch root new m denylist s = (Ok h, s') →
  rep_root (contents s) root es → Forall leaf_entry_dom new →
  store_ok D s → Forall D (tr_log s') →
  ∃ es', rep_root (contents s') (Some h) es' ∧ NoDup (le_key <$> es') ∧
    ∀ k, find_key le_key k es' = batch_lookup denylist es new k.
Proof.
  intros Hr Hrep Hdom Hok HD.
  destruct (insert_batch_rep D m _ _ _ _ _ _ _ Hr Hrep Hdom Hok HD) as (es' & Hrep' & Hp).
  pose proof (rep_NoDup _ _ _ _ Hrep') as Hnd. exists es'. split_and!; [done|done|].
  intros k. rewrite (find_key_perm _ _ _ _ Hnd Hp). apply insert_all_find.
Qed.

(** C15: Lookup returns the entry of the key in the tree the root represents.
    On a store that does not fail the answer is always produced; on any
    store (network fallback included) every answer that is produced is the
    right one, so a missing node is an error and never "absent". *)
Theorem lookup_correct {St} `{!BlobStore St, !BlobStoreSpec St} root es key (s : St) :
  rep_root (contents s) root es →
  (∀ r s', lookup root key s = (Ok r, s') → r = find_key le_key key es) ∧
  (ReliableStore St → lookup root key s = (Ok (find_key le_key key es), s)).
Proof.
  intros Hrep. destruct root as [h|]; unfold lookup.
  - split.
    + intros r s'. by apply (lookup_loop_rep DESCENT_FUEL key [] h), prefix_nil.
    + intros Hrel. apply (lookup_loop_total DESCENT_FUEL key [] h); [done|apply prefix_nil|simpl; lia].
  - unfold rep_root in Hrep. simpl in Hrep. subst es. split; [|done]. intros r s' Hr. by run_inv.
Qed.

(** C20: Bottom-up construction represents the first occurrence of every key
    of its input. *)
Theorem build_from_entries_refines {St} `{!BlobStore St, !BlobStoreSpec St, !LocalStore St}
    (D : list byte → Prop) `{!CollisionFree D} m entries (s : Traced St) h s' :
  build_from_entries entries m s = (Ok h, s') →
  Forall leaf_entry_dom entries → store_ok D s → Forall D (tr_log s') →
  ∃ es', rep_root (contents s') (Some h) es' ∧ NoDup (le_key <$> es') ∧
    ∀ k, find_key le_key k es' = find_key le_key k entries.
Proof.
  intros Hr Hdom Hok HD.
  destruct (build_from_entries_rep D m _ _ _ _ Hr Hdom Hok HD) as (es' & Hrep & Hp).
  pose proof (rep_NoDup _ _ _ _ Hrep) as Hnd. exists es'. split_and!; [done|done|].
  intros k. rewrite (find_key_perm _ _ _ _ Hnd Hp). apply dedup_first_find.
Qed.

(** C21: Whatever a write operation does (succeed, fail half way, be retried),
    every tree stored before it is still there and means the same: a
    publish that dies mid-batch leaves the old root readable. *)
Theorem writes_keep_old_trees {St} `{!BlobStore St, !BlobStoreSpec St, !LocalStore St}
    (D : list byte → Prop) `{!CollisionFree D} m root new denylist (s s1 s2 : Traced St) r1 r2 :
  insert_batch root new m denylist s = (r1, s1) → build_from_entries new m s1 = (r2, s2) →
  store_ok D s → Forall D (tr_log s2) →
  store_ok D s2 ∧ ∀ p h es, rep (contents s) p h es → rep (contents s2) p h es.
Proof.
  intros Hr1 Hr2 Hok HD.
  pose proof (steps_insert_batch D m _ _ _ _ _ _ Hr1) as H1'.
  pose proof (steps_build_from_entries D m _ _ _ _ Hr2) as H2'.
  destruct (advances_within D s s2 s2) as (Hok2 & HC & _); [by etrans|done..|].
  split; [done|]. intros p h es. by apply rep_mono.
Qed.

(** C28: On a store that does not fail, with room for an entry in a leaf and
    keys whose digests differ in their 31 descent bytes, insertion and
    construction always return a root: no legal input exhausts the depth. *)
Theorem insert_and_build_total {St} `{!BlobStore St, !BlobStoreSpec St, !ReliableStore St}
    m root e es (s : St) :
  rep_root (contents s) root es → 1 ≤ m → distinct_paths (e :: es) →
  succeeds (insert_one root e m) s ∧
  ∀ entries, Forall leaf_entry_dom entries → distinct_paths entries →
    succeeds (build_from_entries entries m) s.
Proof.
  intros Hrep Hm Hdp. split.
  - apply (insert_at_succeeds m DESCENT_FUEL root [] e es);
      [done|apply prefix_nil|done|done|simpl; lia..].
  - intros entries Hdom Hde. apply (build_subtree_succeeds m DESCENT_FUEL []);
      [by apply below_unique|done| |simpl; lia..].
    rewrite fmap_pair_fst. intros e1 e2 H1'%dedup_first_sub H2'%dedup_first_sub. by apply Hde.
Qed.

(** C29: The recursion bound of the model is never what stops an operation:
    any larger bound gives the same result and the same state, since the
    program itself stops with [DepthExhausted] at the digest's last byte. *)
Theorem descent_fuel_enough {St} `{!BlobStore St} m k :
  (∀ digest key h (s : St),
     lookup_loop (DESCENT_FUEL + k) digest key h 0 s = lookup_loop DESCENT_FUEL digest key h 0 s) ∧
  (∀ o digest e (s : St),
     insert_at (DESCENT_FUEL + k) o 0 digest e m s = insert_at DESCENT_FUEL o 0 digest e m s) ∧
  (∀ xs (s : St),
     build_subtree (DESCENT_FUEL + k) xs 0 m s = build_subtree DESCENT_FUEL xs 0 m s).
Proof.
  split_and!; intros;
    [apply lookup_loop_fuel|apply insert_at_fuel|apply build_subtree_fuel]; unfold DESCENT_FUEL; lia.
Qed.

(** C31: One insertion writes at most 288 nodes, whatever the size of the
    tree and whether or not it succeeds: the path copy of at most 31 nodes
    and one split of a leaf. *)
Theorem insert_one_write_bound {St} `{!BlobStore St} m root e (s s' : Traced St) r :
  insert_one root e m s = (r, s') →
  ∃ l, tr_log s' = tr_log s ++ l ∧ length l ≤ 288.
Proof. apply (writes_insert_at m DESCENT_FUEL). Qed.

(** Re-inserting a key the tree has is a no-op: the root hash is the
    same and the store holds the same blobs, whatever the new entry says
    (first write wins). *)
Theorem insert_existing_noop {St} `{!BlobStore St, !BlobStoreSpec St, !LocalStore St}
    (D : list byte → Prop) `{!CollisionFree D} m root e es (s : Traced St) h s' :
  insert_one (Some root) e m s = (Ok h, s') → rep_root (contents s) (Some root) es →
  le_key e ∈ le_key <$> es → store_ok D s →
  h = root ∧ contents s' = contents s.
Proof.
  intros Hr Hrep Hin Hok.
  destruct (insert_at_existing D m DESCENT_FUEL [] root e es s h s') as (-> & Hc & _); try done.
  apply prefix_nil.
Qed.

(** C32: The node format round-trips: what [encode] writes [decode] reads
    back, an intermediate node is determined byte for byte by its slots,
    and no node decodes with a wrong number of slots or an all-zero hash
    in one. *)
Theorem node_roundtrip n h :
  (node_wf n → decode (encode n) h = Ok n) ∧
  (∀ bs slots, decode bs h = Ok (Intermediate slots) →
     encode (Intermediate slots) = bs ∧ node_wf (Intermediate slots)).
Proof.
  split; [by apply decode_encode|]. intros bs slots Hd.
  split; [by eapply encode_decode|by eapply decode_intermediate_wf].
Qed.

(** C27: The concurrent walk is independent of its schedule.  Whatever order
    the fetches finish in, whichever fail or panic and whenever the
    deadline strikes: a result marked complete lists exactly the entries of
    the tree sorted by key, a partial one lists some of them and invents
    none, and no schedule goes on for ever. *)
Theorem walk_parallel_correct {St} `{!BlobStore St, !BlobStoreSpec St} root es (s : St) :
  rep_root (contents s) (Some root) es →
  (∀ out, walk_entries_parallel s root out →
     (wo_complete out = true → wo_entries out = sort_by_key le_key es) ∧
     ∃ lost, wo_entries out ++ lost ≡ₚ es) ∧
  Acc (flip walk_step) (walk_init s root).
Proof.
  intros Hrep. split; [|by eapply walk_init_acc]. intros out (w & Hst & Hdone & ->).
  eapply walk_inv_outcome; [by eapply rep_NoDup|by eapply own_walk_inv|done].
Qed.

(** C22: The collection of reachable blobs is exact.  Started from a set in
    which every collected blob's own tree is collected, a completed
    [collect_reachable] adds precisely the nodes of the tree and the
    contents its entries name, and keeps that property, so that partitions
    can share one set; on a store that does not fail it completes.  The
    content blobs must not be encodings of nodes. *)
Theorem collect_reachable_exact {St} `{!BlobStore St, !BlobStoreSpec St, !LocalStore St}
    fuel root es (s s' : St) (out out' : gset Hash) :
  collect_reachable fuel root (s, out) = (Ok tt, (s', out')) →
  is_local s → rep_root (contents s) (Some root) es → contents_apart (contents s) es →
  (∀ x, x ∈ out → closed (contents s) out x) →
  (∀ x, x ∈ out' ↔ x ∈ out ∨ live (contents s) root x) ∧
  (∀ x, x ∈ out' → closed (contents s) out' x) ∧ contents s' = contents s.
Proof.
  intros Hr Hl Hrep Hap Hcl.
  destruct (collect_reachable_spec fuel [] root es s ∅ out out' s')
    as (_ & HC & Hs & Hclr & Hcl' & Hsnd); try done.
  { intros x Hx. right. by apply Hcl. }
  split_and!; [|intros x Hx; by destruct (Hcl' x Hx)|done].
  intros x. split; [apply Hsnd|]. intros [Hx|Hx]; [by apply Hs|by apply Hclr].
Qed.

(** C30: The recursive walkers complete on a store that does not fail: the
    listing is the tree's entries in order, the warm-up counts them, the
    collection returns; 32 levels of recursion are enough. *)
Theorem walkers_total {St} `{!BlobStore St, !BlobStoreSpec St, !ReliableStore St} root es (s : St) out :
  rep_root (contents s) (Some root) es →
  walk_entries 32 root (s, []) = (Ok tt, (s, es)) ∧
  warm_cache 32 root s = (Ok (length es), s) ∧
  ∃ out', collect_reachable 32 root (s, out) = (Ok tt, (s, out')).
Proof.
  intros Hrep. split_and!.
  - rewrite (walk_entries_run 32 [] root es s []); [done|done|simpl; lia].
  - by apply (warm_cache_run 32 []); [|simpl; lia].
  - by eapply (collect_reachable_succeeds 32 []); [|simpl; lia].
Qed.
End spec.

(** ** Runs that witness the theorems *)

Section witnesses.
#[local] Existing Instances sample_blake3 sample_sha256 sample_leaf_codec sample_leaf_laws
  sample_collision_free.

#[local] Opaque insert_batch insert_one build_from_entries collect_reachable.

Lemma sample_dom : Forall leaf_entry_dom sample_entries.
Proof. repeat constructor. Qed.

(** The tree of the three sample entries. *)
Lemma sample_rep :
  ∃ es, rep_root (contents sample_after) (Some sample_root) es ∧ es ≡ₚ sample_entries ∧
    store_ok (written sample_after) sample_after.
Proof.
  pose proof sample_run_ok as Hr.
  destruct (insert_batch_rep (written sample_after) 1 None sample_entries ∅ [] sample_store
    sample_root sample_after Hr eq_refl sample_dom (sample_store_ok _) (written_all _))
    as (es & Hrep & Hp).
  exists es. split_and!; [done| |].
  - rewrite Hp. vm_compute. apply Permutation_rev.
  - destruct (steps_insert_batch (written sample_after) 1 _ _ _ _ _ _ Hr) as [_ Hadv].
    exact (proj1 (Hadv (written_all _) (sample_store_ok _))).
Qed.

Lemma insert_batch_refines_witness :
  ∃ es', rep_root (contents sample_after) (Some sample_root) es' ∧ NoDup (le_key <$> es') ∧
    ∀ k, find_key le_key k es' = batch_lookup ∅ [] sample_entries k.
Proof.
  apply (insert_batch_refines (written sample_after) 1 None sample_entries ∅ [] sample_store).
  - exact sample_run_ok.
  - done.
  - apply sample_dom.
  - apply sample_store_ok.
  - apply written_all.
Defined.

Lemma lookup_correct_witness :
  lookup (Some sample_root) "pb2" sample_after = (Ok (Some (sample_entry "pb2" "{3}")), sample_after).
Proof.
  destruct sample_rep as (es & Hrep & Hp & _).
  destruct (lookup_correct (Some sample_root) es "pb2" sample_after Hrep) as [_ Hl].
  rewrite (Hl _). f_equal. f_equal.
  rewrite (find_key_perm _ _ _ sample_entries (rep_NoDup _ _ _ _ Hrep) Hp). reflexivity.
Defined.

Definition sample_build : result HamtError Hash * Traced MemoryBlobStore :=
  build_from_entries sample_entries 1 sample_store.

Lemma sample_build_ok :
  build_from_entries sample_entries 1 sample_store = (Ok (run_value ZERO sample_build), sample_build.2).
Proof. unfold sample_build. apply run_ok. vm_compute. reflexivity. Qed.

Lemma sample_build_cf : CollisionFree (written sample_build.2).
Proof. apply collision_free_of_check. vm_compute. reflexivity. Qed.
#[local] Opaque sample_build.

Lemma build_from_entries_refines_witness :
  ∃ es', rep_root (contents sample_build.2) (Some (run_value ZERO sample_build)) es' ∧
    NoDup (le_key <$> es') ∧ ∀ k, find_key le_key k es' = find_key le_key k sample_entries.
Proof.
  pose proof sample_build_cf as Hcf.
  apply (build_from_entries_refines (written sample_build.2)
    1 sample_entries sample_store).
  - exact sample_build_ok.
  - apply sample_dom.
  - apply sample_store_ok.
  - apply written_all.
Defined.

(** A batch that loses its first write, then a rebuild. *)
Definition sample_again : result HamtError Hash * Traced MemoryBlobStore :=
  insert_batch (Some sample_root) [sample_entry "pc1" "{4}"] 1 ∅ sample_after.
Definition sample_rebuild : result HamtError Hash * Traced MemoryBlobStore :=
  build_from_entries [sample_entry "pc1" "{4}"] 1 sample_again.2.

Lemma sample_again_eq :
  insert_batch (Some sample_root) [sample_entry "pc1" "{4}"] 1 ∅ sample_after
  = (sample_again.1, sample_again.2).
Proof. unfold sample_again. apply surjective_pairing. Qed.
Lemma sample_rebuild_eq :
  build_from_entries [sample_entry "pc1" "{4}"] 1 sample_again.2
  = (sample_rebuild.1, sample_rebuild.2).
Proof. unfold sample_rebuild. apply surjective_pairing. Qed.

Lemma sample_rebuild_cf : CollisionFree (written sample_rebuild.2).
Proof. apply collision_free_of_check. vm_compute. reflexivity. Qed.

#[local] Opaque sample_again sample_rebuild.

Lemma sample_store_after : store_ok (written sample_rebuild.2) sample_after.
Proof.
  destruct sample_rep as (_ & _ & _ & Hl & Hok). split; [done|].
  intros h b Hb. destruct (Hok h b Hb) as [<- Hw]. split; [done|].
  destruct (steps_insert_batch (written sample_after) 1 (Some sample_root)
    [sample_entry "pc1" "{4}"] ∅ sample_after _ _ sample_again_eq) as [[k1 Hk1] _].
  destruct (steps_build_from_entries (written sample_after) 1 [sample_entry "pc1" "{4}"]
    sample_again.2 _ _ sample_rebuild_eq) as [[k2 Hk2] _].
  unfold written in *. rewrite Hk2, elem_of_app. left.
  rewrite Hk1, elem_of_app. by left.
Qed.

Lemma writes_keep_old_trees_witness :
  store_ok (written sample_rebuild.2) sample_rebuild.2 ∧
  ∀ p h es, rep (contents sample_after) p h es → rep (contents sample_rebuild.2) p h es.
Proof.
  pose proof sample_rebuild_cf as Hcf.
  apply (writes_keep_old_trees (written sample_rebuild.2)
    1 (Some sample_root) [sample_entry "pc1" "{4}"] ∅ sample_after sample_again.2 sample_rebuild.2
    sample_again.1 sample_rebuild.1).
  - exact sample_again_eq.
  - exact sample_rebuild_eq.
  - exact sample_store_after.
  - apply written_all.
Defined.

Lemma sample_distinct : distinct_paths (sample_entry "pc1" "{4}" :: sample_entries).
Proof.
  intros e1 e2 He1 He2 Hp.
  repeat (apply elem_of_cons in He1 as [->|He1]; [|]); [..|by apply elem_of_nil in He1];
    (repeat (apply elem_of_cons in He2 as [->|He2]; [|]); [..|by apply elem_of_nil in He2]);
    first [reflexivity|vm_compute in Hp; discriminate].
Qed.

Lemma insert_and_build_total_witness :
  succeeds (insert_one (Some sample_root) (sample_entry "pc1" "{4}") 1) sample_after ∧
  succeeds (build_from_entries sample_entries 1) sample_after.
Proof.
  destruct sample_rep as (es & Hrep & Hp & _).
  destruct (insert_and_build_total 1 (Some sample_root) (sample_entry "pc1" "{4}") es sample_after)
    as [Hi Hb].
  - exact Hrep.
  - lia.
  - intros e1 e2 He1 He2. rewrite Hp in He1, He2. by apply sample_distinct.
  - split; [exact Hi|]. apply Hb; [apply sample_dom|].
    intros e1 e2 He1 He2. apply sample_distinct; by right.
Defined.

Lemma insert_one_write_bound_witness :
  ∃ l, tr_log (insert_one None (sample_entry "pc1" "{4}") 1 sample_store).2 = l ∧ length l ≤ 288.
Proof.
  destruct (insert_one_write_bound 1 None (sample_entry "pc1" "{4}") sample_store
    (insert_one None (sample_entry "pc1" "{4}") 1 sample_store).2
    (insert_one None (sample_entry "pc1" "{4}") 1 sample_store).1) as (l & Hl & Hn).
  - apply surjective_pairing.
  - exists l. split; [exact Hl|exact Hn].
Defined.

Definition sample_noop : result HamtError Hash * Traced MemoryBlobStore :=
  insert_one (Some sample_root) (sample_entry "pb1" "{different}") 1 sample_after.

Lemma insert_existing_noop_witness :
  run_value ZERO sample_noop = sample_root ∧ contents sample_noop.2 = contents sample_after.
Proof.
  destruct sample_rep as (es & Hrep & Hp & Hok).
  apply (insert_existing_noop (written sample_after) 1 sample_root
    (sample_entry "pb1" "{different}") es sample_after).
  - exact (run_ok ZERO sample_noop ltac:(vm_compute; reflexivity)).
  - exact Hrep.
  - rewrite Hp. apply elem_of_cons. right. apply elem_of_cons. by left.
  - exact Hok.
Defined.

Lemma node_roundtrip_witness :
  decode (encode (Leaf sample_entries)) ZERO = Ok (Leaf sample_entries).
Proof. apply (node_roundtrip (Leaf sample_entries) ZERO). apply sample_dom. Defined.

Lemma walk_parallel_correct_witness :
  ∃ es, Acc (flip walk_step) (walk_init sample_after sample_root) ∧
    ∀ out, walk_entries_parallel sample_after sample_root out → wo_complete out = true →
      wo_entries out = sort_by_key le_key es.
Proof.
  destruct sample_rep as (es & Hrep & Hp & _).
  destruct (walk_parallel_correct sample_root es sample_after Hrep) as [Hw Hacc].
  exists es. split; [exact Hacc|]. intros out Ho. apply (Hw out Ho).
Defined.

Lemma sample_apart es : es ≡ₚ sample_entries → contents_apart (contents sample_after) es.
Proof.
  intros Hp. unfold contents_apart. rewrite Hp.
  assert (∀ e, e ∈ sample_entries → contents sample_after !! le_hash e = None) as Hn.
  { assert (forallb (λ e, match contents sample_after !! le_hash e with None => true | _ => false end)
      sample_entries = true) as Hb by (vm_compute; reflexivity).
    intros e He. rewrite forallb_forall in Hb. apply list_elem_of_In, Hb in He.
    by destruct (_ !! le_hash e). }
  apply Forall_forall. intros e He (bs & n & Hbs & _). rewrite Hn in Hbs; done.
Qed.

Definition sample_collect := collect_reachable 32 sample_root (sample_after, ∅).

Lemma sample_collect_ok :
  collect_reachable 32 sample_root (sample_after, ∅)
  = (Ok tt, (sample_collect.2.1, sample_collect.2.2)).
Proof.
  fold sample_collect. assert (is_ok sample_collect.1 = true) as Ho by (vm_compute; reflexivity).
  destruct sample_collect as [[[]|e] [s o]]; [reflexivity|discriminate].
Qed.

Lemma collect_reachable_exact_witness :
  is_ok sample_collect.1 = true ∧
  ∀ x, x ∈ sample_collect.2.2 ↔ live (contents sample_after) sample_root x.
Proof.
  destruct sample_rep as (es & Hrep & Hp & [Hl _]). split; [vm_compute; reflexivity|]. intros x.
  destruct (collect_reachable_exact 32 sample_root es sample_after sample_collect.2.1
    ∅ sample_collect.2.2) as (Hx & _ & _).
  - exact sample_collect_ok.
  - exact Hl.
  - exact Hrep.
  - by apply sample_apart.
  - intros y Hy. by apply elem_of_empty in Hy.
  - rewrite Hx, elem_of_empty. split; [intros [[]|]; done|by right].
Defined.

Lemma walkers_total_witness :
  ∃ es, es ≡ₚ sample_entries ∧ warm_cache 32 sample_root sample_after = (Ok (length es), sample_after).
Proof.
  destruct sample_rep as (es & Hrep & Hp & _). exists es. split; [exact Hp|].
  apply (walkers_total sample_root es sample_after ∅ Hrep).
Defined.
End witnesses.

(** ** Where incremental and bulk trees differ

    [insert_at] splits an overflowing leaf one level only, while
    [build_subtree] splits until the leaves fit.  When all the entries of the
    leaf share the next descent byte, the incremental tree keeps an oversize
    leaf and its root hash differs from the bulk one. *)

Section degenerate.
#[local] Existing Instances sample_blake3 sample_sha256 sample_leaf_codec sample_leaf_laws.

Definition twins : list LeafEntry := [sample_entry "pqa" "{1}"; sample_entry "pqb" "{2}"].

End degenerate.
