(* ===== verification/Similarity.v ===== *)
(** Banded similarity search over 64-bit content codes:
    [crates/registry-core/src/similarity.rs].

    A content code is a [u64], an [N] below [2^64]; [u32] parameters are [N]
    as well. *)

From S2P Require Import Prelude.

Definition CONTENT_CODE_BITS : nat := 64.

Inductive SimilarityError :=
| InvalidBandCount (n : N)
| RadiusTooLarge (requested max : N).

(** [u64::count_ones] *)
Definition count_ones (n : N) : nat :=
  length (filter (λ i, Is_true (N.testbit n (N.of_nat i))) (seq 0 CONTENT_CODE_BITS)).

(** [hamming] *)
Definition hamming (a b : N) : nat := count_ones (N.lxor a b).

Record BandParams := mkBandParams { num_bands : nat }.

(** [BandParams::new] *)
Definition BandParams_new (n : nat) : result SimilarityError BandParams :=
  if (n =? 0) || (CONTENT_CODE_BITS <? n) || negb (CONTENT_CODE_BITS mod n =? 0)
  then Err (InvalidBandCount (N.of_nat n))
  else Ok (mkBandParams n).

Record BucketId := mkBucketId { bi_band_index : nat; bi_band_value : N }.

#[global] Instance BucketId_eq_dec : EqDecision BucketId.
Proof. solve_decision. Defined.
#[global] Program Instance BucketId_countable : Countable BucketId :=
  inj_countable' (λ b, (bi_band_index b, bi_band_value b)) (λ '(i, v), mkBucketId i v) _.
Next Obligation. by intros []. Qed.

Definition hex_digit (n : N) : byte := if (n <? 10)%N then byte_of_N (48 + n) else byte_of_N (87 + n).

(** [format!("{:016x}", n)] for a [u64] *)
Definition hex16 (n : N) : list byte :=
  (λ i, hex_digit (N.land (N.shiftr n (4 * (15 - N.of_nat i))) 15)) <$> seq 0 16.

(** [BucketId::storage_key] *)
Definition storage_key (b : BucketId) : string :=
  "iscc/" +:+ dec_padded 2 (N.of_nat (bi_band_index b)) +:+ "/" +:+ str_of_bytes (hex16 (bi_band_value b)).

Section bands.
Context (params : BandParams).

Definition band_width : nat := CONTENT_CODE_BITS / num_bands params.

(** [BandParams::band_value] *)
Definition band_value (code : N) (band_index : nat) : N :=
  let width := band_width in
  let shift := CONTENT_CODE_BITS - width * (band_index + 1) in
  let mask := if width =? CONTENT_CODE_BITS then (2 ^ 64 - 1)%N
              else (N.shiftl 1 (N.of_nat width) - 1)%N in
  N.land (N.shiftr code (N.of_nat shift)) mask.

(** [BandParams::buckets] *)
Definition buckets (code : N) : list BucketId :=
  (λ band_index, mkBucketId band_index (band_value code band_index)) <$> seq 0 (num_bands params).
End bands.

(** One round of [bit_flip_masks]: every mask of [current] with one more bit,
    above its highest one ([64 - m.leading_zeros()] is the bit size of [m]). *)
Definition next_masks (width : nat) (current : list N) : list N :=
  concat ((λ m, (λ bit, N.lor m (N.shiftl 1 (N.of_nat bit)))
                 <$> seq (N.size_nat m) (width - N.size_nat m)) <$> current).

Fixpoint mask_rounds (rounds width : nat) (masks current : list N) : list N :=
  match rounds with
  | 0 => masks
  | S rounds =>
      let next := next_masks width current in
      mask_rounds rounds width (masks ++ next) next
  end.

(** [bit_flip_masks] *)
Definition bit_flip_masks (width radius : nat) : list N :=
  mask_rounds (Nat.min radius width) width [0%N] [0%N].

(** [BandParams::query_buckets] *)
Definition query_buckets (params : BandParams) (code : N) (probe_radius : nat) : list BucketId :=
  if probe_radius =? 0 then buckets params code
  else
    let width := band_width params in
    concat ((λ band_index,
      let base := band_value params code band_index in
      (λ flip, mkBucketId band_index (N.lxor base flip)) <$> bit_flip_masks width probe_radius)
      <$> seq 0 (num_bands params)).

Record IsccMember := mkIsccMember { im_key : string; im_content_code : N }.

#[global] Instance IsccMember_eq_dec : EqDecision IsccMember.
Proof. solve_decision. Defined.

Record SimilarityMatch := mkSimilarityMatch {
  sm_key : string; sm_content_code : N; sm_distance : nat;
}.

(** The map [best]: the smallest distance within the radius, per key. *)
Definition best_step (query : N) (radius : nat) (best : gmap string nat) (m : IsccMember)
    : gmap string nat :=
  let d := hamming query (im_content_code m) in
  if d <=? radius then
    partial_alter (λ cur, match cur with
                          | Some c => Some (if d <? c then d else c)
                          | None => Some d
                          end) (im_key m) best
  else best.

Definition best_of (query : N) (radius : nat) (candidates : list IsccMember) : gmap string nat :=
  foldl (best_step query radius) ∅ candidates.

(** [a.distance.cmp(&b.distance).then_with(|| a.key.cmp(&b.key))] is not
    [Greater] *)
Definition match_le (a b : SimilarityMatch) : bool :=
  (sm_distance a <? sm_distance b) ||
  ((sm_distance a =? sm_distance b) && str_le (sm_key a) (sm_key b)).

(** [dedup_by(|a, b| a.key == b.key)]: the first of each run. *)
Fixpoint dedup_runs (l : list SimilarityMatch) : list SimilarityMatch :=
  match l with
  | [] => []
  | x :: l' =>
      x :: match dedup_runs l' with
           | y :: r => if decide (sm_key x = sm_key y) then r else y :: r
           | [] => []
           end
  end.

(** [verify] *)
Definition verify (query : N) (candidates : list IsccMember) (radius : nat) : list SimilarityMatch :=
  let best := best_of query radius candidates in
  let matches := omap (λ m,
    d ← best !! im_key m;
    if hamming query (im_content_code m) =? d
    then Some (mkSimilarityMatch (im_key m) (im_content_code m) d)
    else None) candidates in
  dedup_runs (sort_by match_le matches).

(** ** The in-memory index *)

Record IsccIndex := mkIsccIndex {
  ix_params : BandParams;
  ix_buckets : gmap BucketId (list IsccMember);
}.

Definition IsccIndex_new (params : BandParams) : IsccIndex := mkIsccIndex params ∅.

(** [list.push(member)] unless the key is in the bucket *)
Definition bucket_push (member : IsccMember) (l : list IsccMember) : list IsccMember :=
  if bool_decide (im_key member ∈ im_key <$> l) then l else l ++ [member].

(** [IsccIndex::insert] *)
Definition IsccIndex_insert (key : string) (content_code : N) (ix : IsccIndex) : IsccIndex :=
  let member := mkIsccMember key content_code in
  mkIsccIndex (ix_params ix)
    (foldl (λ bs bucket, partial_alter (λ l, Some (bucket_push member (default [] l))) bucket bs)
       (ix_buckets ix) (buckets (ix_params ix) content_code)).

Definition IsccIndex_bucket (ix : IsccIndex) (id : BucketId) : option (list IsccMember) :=
  ix_buckets ix !! id.

(** [IsccIndex::candidates] *)
Definition candidates (ix : IsccIndex) (query : N) (probe_radius : nat) : list IsccMember :=
  concat ((λ bucket, default [] (ix_buckets ix !! bucket))
    <$> query_buckets (ix_params ix) query probe_radius).

(** [IsccIndex::query] *)
Definition IsccIndex_query (ix : IsccIndex) (query : N) (radius probe_radius : nat)
    : list SimilarityMatch :=
  verify query (candidates ix query probe_radius) radius.
