(* ===== verification/SimilarityFacts.v ===== *)
(** Similarity search: the bands of a code partition its bits, probing covers
    the neighbourhood of a band, verification is exact. *)

From S2P Require Import Prelude Similarity.

Abbreviation bit_set n i := (Is_true (N.testbit n (N.of_nat i))).

(** ** Bits of a band *)

Section bands.
Context (params : BandParams).

(** What [BandParams::new] guarantees. *)
Definition bands_ok : Prop := 0 < num_bands params ∧ num_bands params * band_width params = 64.

Lemma BandParams_new_ok n p :
  BandParams_new n = Ok p → p = mkBandParams n ∧ 0 < n ∧ n * (64 / n) = 64.
Proof.
  unfold BandParams_new, CONTENT_CODE_BITS. intros Hn.
  destruct (n =? 0) eqn:E0; [done|]. destruct (64 <? n) eqn:E1; [done|].
  destruct (64 mod n =? 0) eqn:E2; [|done]. simpl in Hn. injection Hn as <-.
  apply Nat.eqb_neq in E0. apply Nat.eqb_eq in E2.
  pose proof (Nat.div_mod 64 n E0). split; [done|]. split; [lia|]. lia.
Qed.

Definition band_shift (k : nat) : nat := 64 - band_width params * (k + 1).

Lemma band_mask_bit (w j : nat) :
  w ≤ 64 →
  N.testbit (if w =? CONTENT_CODE_BITS then (2 ^ 64 - 1)%N else (N.shiftl 1 (N.of_nat w) - 1)%N)
    (N.of_nat j) = (j <? w).
Proof.
  intros Hw.
  assert (∀ w, N.testbit (N.ones (N.of_nat w)) (N.of_nat j) = (j <? w)) as Hones.
  { clear. intros w. destruct (Nat.ltb_spec j w).
    - apply N.ones_spec_low. lia.
    - apply N.ones_spec_high. lia. }
  unfold CONTENT_CODE_BITS. destruct (Nat.eqb_spec w 64) as [->|].
  - change (2 ^ 64 - 1)%N with (N.ones (N.of_nat 64)). apply Hones.
  - rewrite N.shiftl_1_l. rewrite <-Hones. unfold N.ones. by rewrite N.shiftl_1_l, N.sub_1_r.
Qed.

Lemma band_width_le : bands_ok → band_width params ≤ 64.
Proof. intros [Hn Hw]. nia. Qed.

Lemma band_value_bit c k j :
  bands_ok → N.testbit (band_value params c k) (N.of_nat j) =
    (N.testbit c (N.of_nat (band_shift k + j)) && (j <? band_width params)).
Proof.
  intros Hok. unfold band_value. cbv zeta.
  rewrite N.land_spec, N.shiftr_spec', band_mask_bit by by apply band_width_le.
  f_equal. f_equal. unfold band_shift, CONTENT_CODE_BITS. lia.
Qed.

Lemma filter_ext_seq (P Q : nat → Prop) `{∀ x, Decision (P x)} `{∀ x, Decision (Q x)} a n :
  (∀ i, a ≤ i < a + n → P i ↔ Q i) → length (filter P (seq a n)) = length (filter Q (seq a n)).
Proof.
  revert a. induction n as [|n IH]; intros a HPQ; simpl; [done|].
  rewrite !filter_cons. pose proof (HPQ a ltac:(lia)) as Ha.
  destruct (decide (P a)), (decide (Q a)); try tauto; simpl; rewrite IH; try done; intros; apply HPQ; lia.
Qed.

Lemma filter_seq_shift (P : nat → Prop) `{∀ x, Decision (P x)} a n :
  length (filter P (seq a n)) = length (filter (λ i, P (a + i)) (seq 0 n)).
Proof.
  revert a. induction n as [|n IH]; intros a; [done|].
  rewrite !seq_S, !filter_app, !length_app, IH. f_equal. simpl.
  rewrite !filter_cons. simpl. by destruct (decide (P (a + n))).
Qed.

(** The bits in which two codes differ inside band [k]. *)
Definition band_diff (a b : N) (k : nat) : nat :=
  count_ones (N.lxor (band_value params a k) (band_value params b k)).

Lemma band_diff_bits a b k :
  bands_ok → k < num_bands params →
  band_diff a b k =
    length (filter (λ i, bit_set (N.lxor a b) i) (seq (band_shift k) (band_width params))).
Proof.
  intros Hok Hk. pose proof (band_width_le Hok) as Hw. unfold band_diff, count_ones.
  rewrite (filter_seq_shift _ (band_shift k)). unfold CONTENT_CODE_BITS.
  replace 64 with (band_width params + (64 - band_width params)) at 1 by lia.
  rewrite seq_app, filter_app, length_app. simpl.
  assert (length (filter (λ i, bit_set (N.lxor (band_value params a k) (band_value params b k)) i)
    (seq (band_width params) (64 - band_width params))) = 0) as ->.
  { rewrite (filter_ext_seq _ (λ _, False)).
    - induction (seq _ _) as [|x l IH]; [done|]. rewrite filter_cons. by destruct (decide False).
    - intros i Hi. rewrite N.lxor_spec, !band_value_bit by done.
      rewrite (proj2 (Nat.ltb_ge i (band_width params))) by lia. rewrite !andb_false_r. done. }
  rewrite Nat.add_0_r. apply filter_ext_seq. intros i Hi.
  rewrite !N.lxor_spec, !band_value_bit by done.
  rewrite (proj2 (Nat.ltb_lt i (band_width params))) by lia. by rewrite !andb_true_r.
Qed.

Lemma bands_cover n :
  bands_ok → n ≤ num_bands params →
  concat ((λ k, seq (band_shift k) (band_width params)) <$> seq 0 n)
  ≡ₚ seq (64 - band_width params * n) (band_width params * n).
Proof.
  intros Hok. induction n as [|n IH]; intros Hn; [by rewrite Nat.mul_0_r|].
  rewrite seq_S, fmap_app, concat_app, IH by lia. simpl. rewrite app_nil_r.
  destruct Hok as [_ Hw].
  assert (band_width params * S n ≤ 64) by nia.
  rewrite Permutation_app_comm. unfold band_shift. rewrite Nat.add_1_r.
  replace (64 - band_width params * n) with
    (64 - band_width params * S n + band_width params) by nia.
  rewrite <-seq_app. f_equiv. nia.
Qed.

(** The distance of two codes is the sum over the bands. *)
Lemma hamming_bands a b :
  bands_ok → hamming a b = sum_list (band_diff a b <$> seq 0 (num_bands params)).
Proof.
  intros Hok. pose proof (bands_cover (num_bands params) Hok ltac:(lia)) as Hc.
  pose proof Hok as [_ Hw]. rewrite Nat.mul_comm in Hw. rewrite Hw, Nat.sub_diag in Hc.
  unfold hamming, count_ones, CONTENT_CODE_BITS. rewrite <-Hc. clear Hc.
  assert (∀ n, n ≤ num_bands params →
    length (filter (λ i, bit_set (N.lxor a b) i)
      (concat ((λ k, seq (band_shift k) (band_width params)) <$> seq 0 n)))
    = sum_list (band_diff a b <$> seq 0 n)) as Hn; [|by apply Hn].
  induction n as [|n IH]; intros Hn; [done|].
  rewrite seq_S, !fmap_app, concat_app, filter_app, length_app, IH, sum_list_app by lia. simpl.
  rewrite app_nil_r, <-band_diff_bits by (done || lia). lia.
Qed.

(** Pigeonhole: codes at a distance below [bands * (probe + 1)] are within
    [probe] bits of each other in some band. *)
Lemma close_band a b probe :
  bands_ok → hamming a b < num_bands params * (probe + 1) →
  ∃ k, k < num_bands params ∧ band_diff a b k ≤ probe.
Proof.
  intros Hok. rewrite hamming_bands by done.
  assert (∀ n, sum_list (band_diff a b <$> seq 0 n) < n * (probe + 1) →
    ∃ k, k < n ∧ band_diff a b k ≤ probe) as Hp; [|apply Hp].
  induction n as [|n IH]; [simpl; lia|]. rewrite seq_S, fmap_app. intros Hs.
  rewrite sum_list_app in Hs. simpl in Hs. destruct (decide (band_diff a b n ≤ probe)) as [|Hgt].
  - exists n. lia.
  - destruct IH as (k & Hk & Hd); [lia|]. exists k. lia.
Qed.
End bands.

(** ** Probe masks *)

Section masks.
Context (width : nat) (Hw : width ≤ 64).

(** The masks of a [width]-bit field. *)
Definition in_field (m : N) : Prop := ∀ i, width ≤ i → N.testbit m (N.of_nat i) = false.

Lemma count_ones_0 : count_ones 0 = 0.
Proof. reflexivity. Qed.

Lemma count_ones_pos m : in_field m → m ≠ 0%N → 0 < count_ones m.
Proof.
  intros Hf Hm. pose proof (N.bit_log2 m Hm) as Hb. set (h := N.to_nat (N.log2 m)).
  assert (N.testbit m (N.of_nat h) = true) as Hh by (unfold h; by rewrite N2Nat.id).
  assert (h < width) as Hlt.
  { destruct (decide (h < width)); [done|]. rewrite Hf in Hh by lia. done. }
  unfold count_ones, CONTENT_CODE_BITS.
  assert (h ∈ filter (λ i, bit_set m i) (seq 0 64)) as Hin.
  { apply list_elem_of_filter. rewrite elem_of_seq. split; [by rewrite Hh|lia]. }
  destruct (filter _ _); [by apply elem_of_nil in Hin|simpl; lia].
Qed.

Lemma size_nat_log2 m : m ≠ 0%N → N.size_nat m = S (N.to_nat (N.log2 m)).
Proof.
  intros Hm. rewrite <-N2Nat.inj_succ, <-N.size_log2 by done.
  destruct m as [|p]; [done|]. clear Hm. simpl.
  induction p as [p IH|p IH|]; simpl; rewrite ?IH; lia.
Qed.

(** Removing the highest bit. *)
Lemma clear_high m :
  in_field m → m ≠ 0%N →
  let h := N.to_nat (N.log2 m) in let m' := N.clearbit m (N.log2 m) in
  h < width ∧ in_field m' ∧ N.size_nat m' ≤ h ∧ m = N.lor m' (N.shiftl 1 (N.of_nat h)) ∧
  count_ones m = S (count_ones m').
Proof.
  intros Hf Hm h m'. pose proof (N.bit_log2 m Hm) as Hb.
  assert (N.testbit m (N.of_nat h) = true) as Hh by (unfold h; by rewrite N2Nat.id).
  assert (h < width) as Hlt.
  { destruct (decide (h < width)); [done|]. rewrite Hf in Hh by lia. done. }
  assert (∀ i, N.testbit m' i = N.testbit m i && negb (N.log2 m =? i)%N) as Hbit.
  { intros i. unfold m'. apply N.clearbit_eqb. }
  split_and!; [done| | | |].
  - intros i Hi. rewrite Hbit, Hf by done. done.
  - destruct (decide (m' = 0%N)) as [->|Hm']; [simpl; lia|].
    assert (N.log2 m' < N.log2 m)%N as Hl.
    { destruct (N.lt_trichotomy (N.log2 m') (N.log2 m)) as [|[He|Hg]]; [done| |].
      - pose proof (N.bit_log2 m' Hm') as Hb'. rewrite He, Hbit, N.eqb_refl, andb_false_r in Hb'. done.
      - pose proof (N.bit_log2 m' Hm') as Hb'. rewrite Hbit, (N.bits_above_log2 m _ Hg) in Hb'. done. }
    rewrite size_nat_log2 by done. unfold h. lia.
  - apply N.bits_inj. intros i. rewrite N.lor_spec, Hbit, N.shiftl_1_l.
    unfold h. rewrite N2Nat.id.
    destruct (N.eqb_spec (N.log2 m) i) as [<-|Hne].
    + by rewrite Hb, N.pow2_bits_true, orb_true_r.
    + rewrite N.pow2_bits_false by done. by rewrite andb_true_r, orb_false_r.
  - unfold count_ones, CONTENT_CODE_BITS.
    replace 64 with (h + S (63 - h)) by lia. rewrite seq_app. simpl.
    rewrite !filter_app, !length_app, !filter_cons.
    rewrite decide_True by by rewrite Hh.
    rewrite decide_False; last first.
    { rewrite Hbit. unfold h. rewrite N2Nat.id, N.eqb_refl, andb_false_r. by intros []. }
    simpl. rewrite Nat.add_succ_r. f_equal. f_equal; apply filter_ext_seq; intros i Hi;
      rewrite Hbit; (destruct (N.eqb_spec (N.log2 m) (N.of_nat i)) as [He|];
        [exfalso; unfold h in Hi; rewrite He, Nat2N.id in Hi; lia|by rewrite andb_true_r]).
Qed.

(** After [r] rounds the current masks have every mask of [r] bits. *)
Lemma iter_masks r m :
  in_field m → count_ones m = r → m ∈ Nat.iter r (next_masks width) [0%N].
Proof.
  revert m. induction r as [|r IH]; intros m Hf Hc; simpl.
  { destruct (decide (m = 0%N)) as [->|Hm]; [by left|].
    pose proof (count_ones_pos m Hf Hm). lia. }
  assert (m ≠ 0%N) as Hm by by intros ->.
  destruct (clear_high m Hf Hm) as (Hh & Hf' & Hsz & Heq & Hcnt).
  set (m' := N.clearbit m (N.log2 m)) in *. set (h := N.to_nat (N.log2 m)) in *.
  assert (m' ∈ Nat.iter r (next_masks width) [0%N]) as Hin by (apply IH; [done|lia]).
  unfold next_masks at 1. rewrite list_elem_of_In, in_concat. setoid_rewrite <-list_elem_of_In.
  eexists. split; [apply list_elem_of_fmap_2, Hin|].
  apply list_elem_of_fmap. exists h. split; [done|]. apply elem_of_seq. lia.
Qed.

Lemma mask_rounds_mono rounds masks current m : m ∈ masks → m ∈ mask_rounds rounds width masks current.
Proof.
  revert masks current. induction rounds as [|rounds IH]; intros masks current Hm; simpl; [done|].
  apply IH, elem_of_app. by left.
Qed.

Lemma mask_rounds_iter rounds masks current j m :
  current ⊆ masks → j ≤ rounds → m ∈ Nat.iter j (next_masks width) current →
  m ∈ mask_rounds rounds width masks current.
Proof.
  revert masks current j. induction rounds as [|rounds IH]; intros masks current j Hs Hj Hm; simpl.
  { assert (j = 0) as -> by lia. by apply Hs. }
  destruct j as [|j].
  - apply mask_rounds_mono, elem_of_app. left. by apply Hs.
  - apply (IH _ _ j); [intros x Hx; apply elem_of_app; by right|lia|].
    by rewrite <-Nat.iter_succ_r.
Qed.

Lemma count_ones_field m : in_field m → count_ones m ≤ width.
Proof.
  intros Hf. unfold count_ones, CONTENT_CODE_BITS.
  replace 64 with (width + (64 - width)) by lia. rewrite seq_app, filter_app, length_app. simpl.
  assert (length (filter (λ i, bit_set m i) (seq width (64 - width))) = 0) as ->.
  { rewrite (filter_ext_seq _ (λ _, False)).
    - induction (seq _ _) as [|x l IH]; [done|]. rewrite filter_cons. by destruct (decide False).
    - intros i Hi. rewrite Hf by lia. done. }
  pose proof (length_filter (λ i, bit_set m i) (seq 0 width)) as Hl. rewrite length_seq in Hl. lia.
Qed.

Lemma bit_flip_masks_complete radius m :
  in_field m → count_ones m ≤ radius → m ∈ bit_flip_masks width radius.
Proof.
  intros Hf Hc. unfold bit_flip_masks. apply (mask_rounds_iter _ _ _ (count_ones m)); [done| |].
  - pose proof (count_ones_field m Hf). lia.
  - by apply iter_masks.
Qed.
End masks.

(** ** Verification *)

Lemma match_le_total a b : match_le a b = true ∨ match_le b a = true.
Proof.
  unfold match_le. destruct (Nat.lt_trichotomy (sm_distance a) (sm_distance b)) as [Hl|[He|Hl]].
  - left. by rewrite (proj2 (Nat.ltb_lt _ _)).
  - rewrite He, Nat.eqb_refl, !orb_true_iff. destruct (String.leb_total (sm_key a) (sm_key b)); auto.
  - right. by rewrite (proj2 (Nat.ltb_lt _ _)).
Qed.

Lemma match_le_spec a b :
  match_le a b = true ↔
  sm_distance a < sm_distance b ∨ sm_distance a = sm_distance b ∧ str_le (sm_key a) (sm_key b) = true.
Proof. unfold match_le. by rewrite orb_true_iff, andb_true_iff, Nat.ltb_lt, Nat.eqb_eq. Qed.

Lemma match_le_trans a b c : match_le a b = true → match_le b c = true → match_le a c = true.
Proof.
  rewrite !match_le_spec. intros [H1|[H1 H1']] [H2|[H2 H2']]; [left; lia..|]. right.
  split; [lia|]. unfold str_le in *. rewrite <-Is_true_true in *. eapply String.le_po; eauto.
Qed.

Section dedup.
(** Matches of the same key have the same distance. *)
Definition key_distance (l : list SimilarityMatch) : Prop :=
  ∀ a b, a ∈ l → b ∈ l → sm_key a = sm_key b → sm_distance a = sm_distance b.

Lemma dedup_runs_sub l x : x ∈ dedup_runs l → x ∈ l.
Proof.
  induction l as [|y l IH]; simpl; [done|]. intros [->|Hx]%elem_of_cons; [by left|]. right.
  destruct (dedup_runs l) as [|z r]; [by apply elem_of_nil in Hx|]. apply IH. case_decide; [by right|done].
Qed.

Lemma dedup_runs_keys l x : x ∈ l → ∃ y, y ∈ dedup_runs l ∧ sm_key y = sm_key x.
Proof.
  induction l as [|z l IH]; simpl; [by intros ?%elem_of_nil|].
  intros [->|Hx]%elem_of_cons; [exists z; split; [by left|done]|].
  destruct (IH Hx) as (y & Hy & Hk). destruct (dedup_runs l) as [|w r]; [by apply elem_of_nil in Hy|].
  case_decide as Hw.
  - apply elem_of_cons in Hy as [->|Hy].
    + exists z. split; [by left|congruence].
    + exists y. split; [by right|done].
  - exists y. split; [by right|done].
Qed.

Lemma dedup_runs_head x l : head (dedup_runs (x :: l)) = Some x.
Proof. done. Qed.

Lemma dedup_runs_NoDup l :
  key_distance l → StronglySorted (λ x y, match_le x y = true) l →
  NoDup (sm_key <$> dedup_runs l) ∧ StronglySorted (λ x y, match_le x y = true) (dedup_runs l).
Proof.
  induction l as [|x l IH]; intros Hk Hs; [by split; constructor|].
  apply StronglySorted_cons in Hs as [Hx Hs]. rewrite Forall_forall in Hx.
  destruct IH as [Hnd Hss]; [intros a b Ha Hb; apply Hk; by right|done|]. cbn [dedup_runs].
  assert (∀ r, r ⊆ dedup_runs l → NoDup (sm_key <$> r) → StronglySorted (λ x y, match_le x y = true) r →
    sm_key x ∉ sm_key <$> r →
    NoDup (sm_key <$> x :: r) ∧ StronglySorted (λ x y, match_le x y = true) (x :: r)) as Hcons.
  { intros r Hr Hndr Hsr Hxr. rewrite fmap_cons. split; [by constructor|].
    apply StronglySorted_cons. split; [|done]. apply Forall_forall. intros y Hy.
    by apply Hx, dedup_runs_sub, Hr. }
  destruct (dedup_runs l) as [|y r] eqn:E; [apply Hcons; [done|constructor|constructor|set_solver]|].
  rewrite fmap_cons in Hnd. apply NoDup_cons in Hnd as [Hyr Hnd].
  apply StronglySorted_cons in Hss as [Hsy Hss].
  case_decide as Hxy.
  - apply Hcons; [intros z Hz; by right|done|done|]. by rewrite Hxy.
  - apply Hcons; [done|rewrite fmap_cons; by constructor|by apply StronglySorted_cons|].
    rewrite fmap_cons, not_elem_of_cons. split; [done|].
    intros (z & Hz & Hzr)%list_elem_of_fmap.
    assert (z ∈ l) as Hzl by (apply dedup_runs_sub; rewrite E; by right).
    assert (y ∈ l) as Hyl by (apply dedup_runs_sub; rewrite E; by left).
    assert (match_le x y = true) as Hle1 by by apply Hx.
    assert (match_le y z = true) as Hle2 by (rewrite Forall_forall in Hsy; by apply Hsy).
    assert (sm_distance x = sm_distance z) as Hd by (apply Hk; [by left|by right|done]).
    rewrite match_le_spec in Hle1, Hle2. apply Hxy.
    destruct Hle1 as [?|[? Hl1]], Hle2 as [?|[? Hl2]]; [lia..|].
    rewrite <-Hz in Hl2. by apply String.leb_antisym.
Qed.
End dedup.

Section verify.
Context (query : N) (radius : nat).

Lemma best_step_lookup best m k :
  best_step query radius best m !! k =
  if decide (im_key m = k ∧ hamming query (im_content_code m) ≤ radius) then
    Some (match best !! k with
          | Some c => Nat.min (hamming query (im_content_code m)) c
          | None => hamming query (im_content_code m)
          end)
  else best !! k.
Proof.
  unfold best_step. cbv zeta. destruct (Nat.leb_spec (hamming query (im_content_code m)) radius) as [Hl|Hl].
  - destruct (decide (im_key m = k)) as [<-|Hne].
    + rewrite decide_True by done. rewrite lookup_partial_alter_eq.
      destruct (best !! im_key m) as [c|]; [|done]. f_equal.
      destruct (Nat.ltb_spec (hamming query (im_content_code m)) c); lia.
    + rewrite decide_False by naive_solver. by rewrite lookup_partial_alter_ne.
  - rewrite decide_False by (intros []; lia). done.
Qed.

(** [best] holds the smallest distance of each key's candidates. *)
Lemma best_of_spec cands k :
  match best_of query radius cands !! k with
  | Some d => d ≤ radius ∧
      (∃ m, m ∈ cands ∧ im_key m = k ∧ hamming query (im_content_code m) = d) ∧
      ∀ m, m ∈ cands → im_key m = k → d ≤ hamming query (im_content_code m)
  | None => ∀ m, m ∈ cands → im_key m = k → radius < hamming query (im_content_code m)
  end.
Proof.
  unfold best_of. induction cands as [|m cands IH] using rev_ind.
  { simpl. rewrite lookup_empty. intros m Hm. by apply elem_of_nil in Hm. }
  rewrite foldl_app. simpl. rewrite best_step_lookup.
  assert (∀ m1, m1 ∈ cands ++ [m] ↔ m1 ∈ cands ∨ m1 = m) as Hel.
  { intros m1. by rewrite elem_of_app, list_elem_of_singleton. }
  case_decide as Hd.
  - destruct Hd as [<- Hd]. destruct (foldl _ _ _ !! im_key m) as [c|].
    + destruct IH as (Hc & (m0 & Hm0 & Hk0 & He0) & Hmin). split; [lia|]. split.
      * destruct (Nat.min_spec (hamming query (im_content_code m)) c) as [[? ->]|[? ->]];
          [exists m|exists m0]; rewrite Hel; auto.
      * intros m1 [Hm1| ->]%Hel Hk1; [|lia]. specialize (Hmin _ Hm1 Hk1). lia.
    + split; [done|]. split; [exists m; rewrite Hel; auto|]. intros m1 [Hm1| ->]%Hel Hk1; [|lia].
      specialize (IH _ Hm1 Hk1). lia.
  - assert (im_key m = k → radius < hamming query (im_content_code m)) as Hgt.
    { intros Hk. destruct (decide (hamming query (im_content_code m) ≤ radius)); [|lia]. by destruct Hd. }
    destruct (foldl _ _ _ !! k) as [c|].
    + destruct IH as (Hc & (m0 & Hm0 & Hk0 & He0) & Hmin). split; [done|].
      split; [exists m0; rewrite Hel; auto|].
      intros m1 [Hm1| ->]%Hel Hk1; [by apply Hmin|]. specialize (Hgt Hk1). lia.
    + intros m1 [Hm1| ->]%Hel Hk1; [by apply IH|by apply Hgt].
Qed.

Definition matches_of (cands : list IsccMember) : list SimilarityMatch :=
  omap (λ m,
    d ← best_of query radius cands !! im_key m;
    if hamming query (im_content_code m) =? d
    then Some (mkSimilarityMatch (im_key m) (im_content_code m) d) else None) cands.

Lemma matches_of_spec cands r :
  r ∈ matches_of cands ↔
  mkIsccMember (sm_key r) (sm_content_code r) ∈ cands ∧
  sm_distance r = hamming query (sm_content_code r) ∧
  best_of query radius cands !! sm_key r = Some (sm_distance r).
Proof.
  unfold matches_of. rewrite list_elem_of_omap. split.
  - intros (m & Hm & Hr). destruct (best_of query radius cands !! im_key m) as [d|] eqn:E; [|done].
    simpl in Hr. destruct (Nat.eqb_spec (hamming query (im_content_code m)) d) as [<-|]; [|done].
    injection Hr as <-. simpl. by destruct m.
  - destruct r as [k c d]. simpl. intros (Hm & -> & Hb). eexists. split; [exact Hm|]. simpl.
    rewrite Hb. simpl. by rewrite Nat.eqb_refl.
Qed.

Lemma verify_spec cands :
  NoDup (sm_key <$> verify query cands radius) ∧
  StronglySorted (λ x y, match_le x y = true) (verify query cands radius) ∧
  (∀ r, r ∈ verify query cands radius →
     mkIsccMember (sm_key r) (sm_content_code r) ∈ cands ∧
     sm_distance r = hamming query (sm_content_code r) ∧ sm_distance r ≤ radius ∧
     ∀ m, m ∈ cands → im_key m = sm_key r → sm_distance r ≤ hamming query (im_content_code m)) ∧
  (∀ m, m ∈ cands → hamming query (im_content_code m) ≤ radius →
     ∃ r, r ∈ verify query cands radius ∧ sm_key r = im_key m).
Proof.
  change (verify query cands radius) with (dedup_runs (sort_by match_le (matches_of cands))).
  pose proof (sort_by_perm match_le (matches_of cands)) as Hperm.
  assert (key_distance (sort_by match_le (matches_of cands))) as Hkd.
  { intros a b. rewrite !Hperm, !matches_of_spec. intros (_ & _ & Ha) (_ & _ & Hb) Hk.
    rewrite Hk in Ha. congruence. }
  destruct (dedup_runs_NoDup _ Hkd (sort_by_sorted match_le match_le_total match_le_trans _)) as [Hnd Hs].
  split_and!; [done|done| |].
  - intros r Hr%dedup_runs_sub. rewrite Hperm in Hr. apply matches_of_spec in Hr as (Hm & Hd & Hb).
    pose proof (best_of_spec cands (sm_key r)) as Hsp. rewrite Hb in Hsp. naive_solver.
  - intros m Hm Hd. pose proof (best_of_spec cands (im_key m)) as Hsp.
    destruct (best_of query radius cands !! im_key m) as [d|] eqn:E.
    + destruct Hsp as (_ & (m0 & Hm0 & Hk0 & He0) & _).
      destruct (dedup_runs_keys (sort_by match_le (matches_of cands))
        (mkSimilarityMatch (im_key m0) (im_content_code m0) d)) as (r & Hr & Hk).
      { rewrite Hperm. apply matches_of_spec. simpl. split_and!; [by destruct m0|done|by rewrite Hk0]. }
      exists r. simpl in Hk. split; [done|congruence].
    + specialize (Hsp m Hm eq_refl). lia.
Qed.
End verify.

(** ** The index *)

Section index.
Context (params : BandParams).

Lemma buckets_NoDup code : NoDup (buckets params code).
Proof.
  unfold buckets. apply NoDup_fmap_2_strong; [|apply NoDup_seq].
  intros x y _ _ [= ->]. done.
Qed.

Lemma push_buckets (member : IsccMember) ids bs id :
  NoDup ids →
  foldl (λ bs bucket, partial_alter (λ l, Some (bucket_push member (default [] l))) bucket bs) bs ids !! id
  = if decide (id ∈ ids) then Some (bucket_push member (default [] (bs !! id)))
    else (bs : gmap BucketId (list IsccMember)) !! id.
Proof.
  revert bs. induction ids as [|i ids IH]; intros bs Hnd; [done|]. simpl.
  apply NoDup_cons in Hnd as [Hi Hnd]. rewrite IH by done.
  destruct (decide (id ∈ ids)) as [Hin|Hin].
  - rewrite decide_True by by right. rewrite lookup_partial_alter_ne by by intros ->. done.
  - destruct (decide (id = i)) as [->|Hne].
    + rewrite decide_True by by left. by rewrite lookup_partial_alter_eq.
    + rewrite decide_False by by intros [|]%elem_of_cons. by rewrite lookup_partial_alter_ne.
Qed.

Definition index_all (ms : list IsccMember) : IsccIndex :=
  foldl (λ ix m, IsccIndex_insert (im_key m) (im_content_code m) ix) (IsccIndex_new params) ms.

Lemma index_all_params ms : ix_params (index_all ms) = params.
Proof. unfold index_all. induction ms as [|m ms IH] using rev_ind; [done|]. by rewrite foldl_app. Qed.

(** A bucket lists the members whose code falls into it, in order. *)
Lemma index_bucket ms id :
  NoDup (im_key <$> ms) →
  default [] (ix_buckets (index_all ms) !! id)
  = filter (λ m, id ∈ buckets params (im_content_code m)) ms.
Proof.
  induction ms as [|m ms IH] using rev_ind; intros Hnd; [done|].
  rewrite fmap_app in Hnd. apply NoDup_app in Hnd as (Hnd & Hm & _).
  specialize (IH Hnd). unfold index_all. rewrite foldl_app. fold (index_all ms). simpl.
  rewrite index_all_params, push_buckets by apply buckets_NoDup.
  rewrite filter_app, filter_cons. simpl. case_decide as Hid.
  - simpl. unfold bucket_push. rewrite IH, bool_decide_false; [by destruct m|].
    simpl. intros (m' & Hk & [_ Hm']%list_elem_of_filter)%list_elem_of_fmap.
    apply (Hm (im_key m')); [by apply list_elem_of_fmap_2|]. rewrite <-Hk. by left.
  - by rewrite IH, app_nil_r.
Qed.

Lemma band_in_field a k : bands_ok params → in_field (band_width params) (band_value params a k).
Proof.
  intros Hok i Hi. rewrite band_value_bit by done.
  by rewrite (proj2 (Nat.ltb_ge i _)), andb_false_r by lia.
Qed.

(** A code at a small enough distance shares a queried bucket. *)
Lemma close_codes_share_bucket q c probe :
  bands_ok params → hamming q c < num_bands params * (probe + 1) →
  ∃ id, id ∈ buckets params c ∧ id ∈ query_buckets params q probe.
Proof.
  intros Hok Hh. destruct (close_band params q c probe Hok Hh) as (k & Hk & Hd).
  exists (mkBucketId k (band_value params c k)). split.
  { unfold buckets. apply list_elem_of_fmap. exists k. split; [done|]. apply elem_of_seq. lia. }
  pose proof (band_width_le params Hok) as Hw.
  set (flip := N.lxor (band_value params q k) (band_value params c k)).
  assert (in_field (band_width params) flip) as Hf.
  { intros i Hi. unfold flip. rewrite N.lxor_spec, !(band_in_field _ k Hok) by done. done. }
  assert (N.lxor (band_value params q k) flip = band_value params c k) as Hx.
  { unfold flip. by rewrite <-N.lxor_assoc, N.lxor_nilpotent, N.lxor_0_l. }
  unfold query_buckets. destruct (Nat.eqb_spec probe 0) as [->|Hp].
  - assert (flip = 0%N) as Hz.
    { destruct (decide (flip = 0%N)) as [|Hn]; [done|].
      pose proof (count_ones_pos (band_width params) Hw flip Hf Hn) as Hc.
      unfold band_diff in Hd. fold flip in Hd. lia. }
    rewrite <-Hx, Hz, N.lxor_0_r. unfold buckets. apply list_elem_of_fmap.
    exists k. split; [done|]. apply elem_of_seq. lia.
  - rewrite list_elem_of_In, in_concat. setoid_rewrite <-list_elem_of_In.
    eexists. split; [apply list_elem_of_fmap_2, elem_of_seq; split; [apply Nat.le_0_l|exact Hk]|].
    apply list_elem_of_fmap. exists flip. rewrite Hx. split; [done|].
    by apply bit_flip_masks_complete.
Qed.

Lemma candidates_complete ms m q probe :
  bands_ok params → NoDup (im_key <$> ms) → m ∈ ms →
  hamming q (im_content_code m) < num_bands params * (probe + 1) →
  m ∈ candidates (index_all ms) q probe.
Proof.
  intros Hok Hnd Hm Hh. destruct (close_codes_share_bucket q _ probe Hok Hh) as (id & Hid & Hq).
  unfold candidates. rewrite index_all_params, list_elem_of_In, in_concat.
  setoid_rewrite <-list_elem_of_In. eexists. split; [by apply list_elem_of_fmap_2|].
  rewrite index_bucket by done. by apply list_elem_of_filter.
Qed.

Lemma candidates_sound ms m q probe :
  NoDup (im_key <$> ms) → m ∈ candidates (index_all ms) q probe → m ∈ ms.
Proof.
  intros Hnd. unfold candidates. rewrite index_all_params, list_elem_of_In, in_concat.
  setoid_rewrite <-list_elem_of_In. intros (l & (id & -> & _)%list_elem_of_fmap & Hm).
  rewrite index_bucket in Hm by done. by apply list_elem_of_filter in Hm as [_ ?].
Qed.
End index.

(** ** Bucket addresses *)

Lemma hex_digit_inj a b : (a < 16)%N → (b < 16)%N → hex_digit a = hex_digit b → a = b.
Proof.
  intros Ha Hb Heq. apply (f_equal to_N) in Heq. unfold hex_digit in Heq.
  destruct (N.ltb_spec a 10), (N.ltb_spec b 10); rewrite !to_byte_of_N, !N.mod_small in Heq; lia.
Qed.

Lemma hex16_inj a b : (a < 2 ^ 64)%N → (b < 2 ^ 64)%N → hex16 a = hex16 b → a = b.
Proof.
  intros Ha Hb Heq. apply N.bits_inj. intros i.
  destruct (N.ltb_spec i 64) as [Hi|Hi]; last first.
  { rewrite !N.bits_above_log2; [done| |].
    - destruct (decide (b = 0%N)) as [->|]; [simpl; lia|]. apply N.log2_lt_pow2; [lia|].
      eapply N.lt_le_trans; [exact Hb|]. apply N.pow_le_mono_r; lia.
    - destruct (decide (a = 0%N)) as [->|]; [simpl; lia|]. apply N.log2_lt_pow2; [lia|].
      eapply N.lt_le_trans; [exact Ha|]. apply N.pow_le_mono_r; lia. }
  set (k := 15 - N.to_nat (i / 4)).
  assert (i / 4 < 16)%N as Hq by (apply N.Div0.div_lt_upper_bound; lia).
  assert (hex16 a !! k = hex16 b !! k) as Hk by by rewrite Heq.
  assert (k < 16) as Hk16 by (apply Nat.lt_succ_r, Nat.le_sub_l).
  unfold hex16 in Hk. rewrite !list_lookup_fmap, !lookup_seq_lt in Hk by exact Hk16.
  simpl in Hk. injection Hk as Hk.
  assert (15 - N.of_nat k = i / 4)%N as Hk4.
  { unfold k. rewrite Nat2N.inj_sub, N2Nat.id. change (N.of_nat 15) with 15%N.
    revert Hq. clear. generalize (i / 4)%N. intros q Hq. lia. }
  rewrite Hk4 in Hk.
  apply hex_digit_inj in Hk; [|change 15%N with (N.ones 4); rewrite N.land_ones; apply N.mod_upper_bound; lia..].
  apply (f_equal (λ n, N.testbit n (i mod 4))) in Hk.
  pose proof (N.mod_upper_bound i 4 ltac:(lia)) as Hm.
  rewrite !N.land_spec in Hk. change 15%N with (N.ones 4) in Hk.
  rewrite !N.ones_spec_low, !andb_true_r, !N.shiftr_spec' in Hk by lia.
  by replace (i mod 4 + 4 * (i / 4))%N with i in Hk by (pose proof (N.div_mod i 4 ltac:(lia)); lia).
Qed.

Lemma storage_key_inj b1 b2 :
  (N.of_nat (bi_band_index b1) < 2 ^ 32)%N → (N.of_nat (bi_band_index b2) < 2 ^ 32)%N →
  (bi_band_value b1 < 2 ^ 64)%N → (bi_band_value b2 < 2 ^ 64)%N →
  storage_key b1 = storage_key b2 → b1 = b2.
Proof.
  destruct b1 as [i1 v1], b2 as [i2 v2]. simpl. intros Hi1 Hi2 Hv1 Hv2 Heq.
  apply (f_equal str_bytes) in Heq. unfold storage_key in Heq. simpl bi_band_index in Heq.
  simpl bi_band_value in Heq. rewrite !str_bytes_app, !str_bytes_of_bytes in Heq.
  apply app_inj_1 in Heq as [_ Heq]; [|done]. rewrite !(assoc_L (++)) in Heq.
  apply app_inj_2 in Heq as [Hd Hh]; [|unfold hex16; by rewrite !length_fmap].
  apply app_inj_2 in Hd as [Hd _]; [|done]. apply hex16_inj in Hh as ->; [|done..].
  apply (inj str_bytes) in Hd. f_equal.
  apply (f_equal parse_u32) in Hd. rewrite !parse_u32_padded in Hd by done. by apply Nat2N.inj; congruence.
Qed.
