(* ===== verification/IsccStore.v ===== *)
(** The blob-backed similarity index, definitions:
    [crates/registry-core/src/iscc_store.rs].

    A [BTreeMap] is a [gmap]; its iteration order is [btree_list].  The JSON
    of the index structures is read and written by the [Codec] of their
    type. *)

From S2P Require Import Prelude Hash BlobStore Similarity.

Definition SEGMENT_MAX_MEMBERS : nat := 4096.

Inductive IsccStoreError :=
| IBlobStore (e : BlobStoreError)
| MissingBlob (h : Hash)
| Corrupt (h : Hash) (msg : string).

Record DirectoryV2 := mkDirectoryV2 { dv_v : N; dv_buckets : gmap string Hash }.

Record BucketManifest := mkBucketManifest { bm_count : N; bm_segments : list Hash }.
Definition BucketManifest_default : BucketManifest := mkBucketManifest 0 [].

Inductive BucketRef :=
| Manifest (h : Hash)
| LegacyList (h : Hash).

#[global] Instance BucketRef_eq_dec : EqDecision BucketRef.
Proof. solve_decision. Defined.

Definition Directory : Type := gmap string BucketRef.

Section iscc_store.
Context `{!Codec DirectoryV2, !Codec BucketManifest, !Codec (list IsccMember),
  !Codec (gmap string Hash)}.
Context {St : Type} `{!BlobStore St}.

Definition load_json {T} `{!Codec T} (hash : Hash) : io St IsccStoreError T :=
  found ← io_map_err IBlobStore (get hash);
  bs ← io_lift (ok_or (MissingBlob hash) found);
  io_lift (result_map_err (Corrupt hash) (de bs)).

Definition store_json {T} `{!Codec T} (value : T) : io St IsccStoreError Hash :=
  io_map_err IBlobStore (put (ser value)).

(** The parse of a directory blob: v2 first, then the v1 map. *)
Definition legacy_directory (root : Hash) (bs : list byte) : result IsccStoreError Directory :=
  match de (A:=gmap string Hash) bs with
  | Ok legacy => Ok (LegacyList <$> legacy)
  | Err e => Err (Corrupt root e)
  end.

Definition parse_directory (root : Hash) (bs : list byte) : result IsccStoreError Directory :=
  match de (A:=DirectoryV2) bs with
  | Ok v2 =>
      if (dv_v v2 =? 2)%N then Ok (Manifest <$> dv_buckets v2) else legacy_directory root bs
  | Err _ => legacy_directory root bs
  end.

Definition load_directory (root : option Hash) : io St IsccStoreError Directory :=
  match root with
  | None => mret ∅
  | Some root =>
      found ← io_map_err IBlobStore (get root);
      bs ← io_lift (ok_or (MissingBlob root) found);
      io_lift (parse_directory root bs)
  end.

Definition load_segment (hash : Hash) : io St IsccStoreError (list IsccMember) := load_json hash.

Definition load_bucket_manifest (bucket : BucketRef) : io St IsccStoreError BucketManifest :=
  match bucket with
  | Manifest hash => load_json hash
  | LegacyList hash =>
      list ← load_segment hash;
      mret (mkBucketManifest (wrap64 (N.of_nat (length list))) [hash])
  end.

(** Incoming members by the storage key of each of their buckets. *)
Definition by_bucket (params : BandParams) (members : list IsccMember)
    : gmap string (list IsccMember) :=
  foldl (λ acc member,
    foldl (λ acc bucket,
      partial_alter (λ l, Some (default [] l ++ [member])) (storage_key bucket) acc)
      acc (buckets params (im_content_code member)))
    ∅ members.

(** The hash a bucket the batch does not touch carries over with. *)
Definition carry_bucket (bucket : BucketRef) : io St IsccStoreError Hash :=
  match bucket with
  | Manifest h => mret h
  | LegacyList _ => manifest ← load_bucket_manifest bucket; store_json manifest
  end.

Definition carry_over (directory : Directory) (touched : gmap string (list IsccMember))
    : io St IsccStoreError (gmap string Hash) :=
  io_fold (λ new_buckets '(key, bucket),
    if bool_decide (is_Some (touched !! key)) then mret new_buckets
    else hash ← carry_bucket bucket; mret (<[key := hash]> new_buckets))
    ∅ (btree_list directory).

(** The tail segment, popped from the manifest when it has room. *)
Definition take_tail (manifest : BucketManifest)
    : io St IsccStoreError (BucketManifest * list IsccMember) :=
  match last (bm_segments manifest) with
  | Some hash =>
      seg ← load_segment hash;
      if length seg <? SEGMENT_MAX_MEMBERS then
        mret (mkBucketManifest (wrap64 (bm_count manifest + 2 ^ 64 - N.of_nat (length seg)))
                (take (length (bm_segments manifest) - 1) (bm_segments manifest)), seg)
      else mret (manifest, [])
  | None => mret (manifest, [])
  end.

Definition push_tail (tail new_members : list IsccMember) : list IsccMember :=
  foldl (λ tail m, if bool_decide (m ∈ tail) then tail else tail ++ [m]) tail new_members.

Definition write_segments (manifest : BucketManifest) (tail : list IsccMember)
    : io St IsccStoreError BucketManifest :=
  io_fold (λ manifest segment,
    hash ← store_json segment;
    mret (mkBucketManifest (wrap64 (bm_count manifest + N.of_nat (length segment)))
            (bm_segments manifest ++ [hash])))
    manifest (chunks_of (length tail) SEGMENT_MAX_MEMBERS tail).

Definition touch_bucket (bucket : option BucketRef) (new_members : list IsccMember)
    : io St IsccStoreError Hash :=
  manifest ← match bucket with
             | Some bucket => load_bucket_manifest bucket
             | None => mret BucketManifest_default
             end;
  popped ← take_tail manifest;
  manifest ← write_segments popped.1 (push_tail popped.2 new_members);
  store_json manifest.

Definition touch_buckets (directory : Directory) (touched : gmap string (list IsccMember))
    (new_buckets : gmap string Hash) : io St IsccStoreError (gmap string Hash) :=
  io_fold (λ new_buckets '(bucket_key, new_members),
    hash ← touch_bucket (directory !! bucket_key) new_members;
    mret (<[bucket_key := hash]> new_buckets))
    new_buckets (btree_list touched).

(** [iscc_store::insert_batch] *)
Definition iscc_insert_batch (root : option Hash) (params : BandParams)
    (members : list IsccMember) : io St IsccStoreError Hash :=
  directory ← load_directory root;
  let touched := by_bucket params members in
  new_buckets ← carry_over directory touched;
  new_buckets ← touch_buckets directory touched new_buckets;
  store_json (mkDirectoryV2 2 new_buckets).

(** The postings of one bucket. *)
Definition load_bucket (bucket : BucketRef) : io St IsccStoreError (list IsccMember) :=
  manifest ← load_bucket_manifest bucket;
  segments ← io_mapM load_segment (bm_segments manifest);
  mret (concat segments).

Definition query_step (directory : Directory) (acc : gset string * list IsccMember)
    (bucket : BucketId) : io St IsccStoreError (gset string * list IsccMember) :=
  let '(seen_buckets, candidates) := acc in
  let key := storage_key bucket in
  if bool_decide (key ∈ seen_buckets) then mret acc
  else
    match directory !! key with
    | Some bucket_ref =>
        members ← load_bucket bucket_ref;
        mret ({[key]} ∪ seen_buckets, candidates ++ members)
    | None => mret ({[key]} ∪ seen_buckets, candidates)
    end.

(** [candidates.retain(|m| seen.insert(..))] *)
Fixpoint retain_first (seen : list IsccMember) (l : list IsccMember) : list IsccMember :=
  match l with
  | [] => []
  | m :: l =>
      if bool_decide (m ∈ seen) then retain_first seen l
      else m :: retain_first (m :: seen) l
  end.

(** [iscc_store::query] *)
Definition iscc_query (root : option Hash) (params : BandParams) (query_code : N)
    (radius probe_radius : nat) : io St IsccStoreError (list SimilarityMatch) :=
  directory ← load_directory root;
  if bool_decide (directory = ∅) then mret []
  else
    acc ← io_fold (query_step directory) (∅, []) (query_buckets params query_code probe_radius);
    mret (verify query_code (retain_first [] acc.2) radius).

(** [iscc_store::collect_reachable] *)
Definition iscc_collect_bucket (bucket : BucketRef) : io (St * gset Hash) IsccStoreError unit :=
  match bucket with
  | Manifest hash =>
      _ ← modify (λ '(s, out), (s, {[hash]} ∪ out));
      manifest ← on_fst (load_json (T:=BucketManifest) hash);
      modify (λ '(s, out), (s, list_to_set (bm_segments manifest) ∪ out))
  | LegacyList hash => modify (λ '(s, out), (s, {[hash]} ∪ out))
  end.

Definition iscc_collect_reachable (root : Hash) : io (St * gset Hash) IsccStoreError unit :=
  λ '(s, out),
    if bool_decide (root ∈ out) then (Ok tt, (s, out))
    else
      (directory ← on_fst (load_directory (Some root));
       io_fold (λ _ '(_, bucket), iscc_collect_bucket bucket) tt (btree_list directory))
      (s, {[root]} ∪ out).
End iscc_store.
