(* ===== verification/IsccStoreFacts.v ===== *)
(** What the index blobs mean, and what an insertion and a query do with it. *)

From S2P Require Import Prelude Hash BlobStore Similarity SimilarityFacts IsccStore.

Definition manifest_dom (m : BucketManifest) : Prop := (bm_count m < 2 ^ 64)%N.
Definition directory_dom (d : DirectoryV2) : Prop := (dv_v d < 2 ^ 32)%N.
Definition member_dom (m : IsccMember) : Prop := (im_content_code m < 2 ^ 64)%N.
Definition members_dom (l : list IsccMember) : Prop := Forall member_dom l.

Lemma SEGMENT_MAX_pos : 0 < SEGMENT_MAX_MEMBERS.
Proof. apply Nat.ltb_lt. reflexivity. Qed.
Lemma SEGMENT_MAX_bound : (N.of_nat SEGMENT_MAX_MEMBERS < 2 ^ 64)%N.
Proof. reflexivity. Qed.
#[global] Opaque SEGMENT_MAX_MEMBERS.

(** [count - seg.len()] on [u64], for a [count] of [a + l] members. *)
Lemma wrap64_sub a l :
  (N.of_nat l < 2 ^ 64)%N →
  wrap64 (wrap64 (N.of_nat (a + l)) + 2 ^ 64 - N.of_nat l) = wrap64 (N.of_nat a).
Proof.
  unfold wrap64. generalize (2 ^ 64)%N. intros M Hl.
  pose proof (N.div_mod (N.of_nat (a + l)) M ltac:(lia)) as Hdm.
  pose proof (N.mod_upper_bound (N.of_nat (a + l)) M ltac:(lia)) as Hr.
  set (q := (N.of_nat (a + l) / M)%N) in *. set (r := (N.of_nat (a + l) mod M)%N) in *.
  destruct (N.le_gt_cases (N.of_nat l) r) as [Hle|Hgt].
  - rewrite <-(N.mod_unique (N.of_nat a) M q (r - N.of_nat l)) by nia.
    symmetry. apply (N.mod_unique _ M 1); lia.
  - assert (0 < q)%N by nia.
    rewrite <-(N.mod_unique (N.of_nat a) M (q - 1) (M + r - N.of_nat l)) by nia.
    symmetry. apply (N.mod_unique _ M 0); lia.
Qed.

Lemma wrap64_add a l :
  wrap64 (wrap64 (N.of_nat a) + N.of_nat l) = wrap64 (N.of_nat (a + l)).
Proof. unfold wrap64. by rewrite N.Div0.add_mod_idemp_l, Nat2N.inj_add. Qed.

Lemma chunks_of_concat {A} fuel n (l : list A) :
  0 < n → length l ≤ fuel → concat (chunks_of fuel n l) = l.
Proof.
  intros Hn. revert l. induction fuel as [|fuel IH]; intros [|x l] Hl; simpl in *; try done; [lia|].
  rewrite IH; [|rewrite length_drop; simpl; lia]. apply (take_drop n (x :: l)).
Qed.

Lemma chunks_of_length {A} fuel n (l : list A) c : c ∈ chunks_of fuel n l → length c ≤ n.
Proof.
  revert l. induction fuel as [|fuel IH]; intros [|x l]; simpl; try by intros ?%elem_of_nil.
  intros [->|Hc]%elem_of_cons; [rewrite length_take; lia|by eapply IH].
Qed.

Section json.
(** The blob under [h] is the JSON of [x]. *)
Definition json_at {T} `{!Codec T} (C : gmap Hash (list byte)) (h : Hash) (x : T) : Prop :=
  ∃ bs, C !! h = Some bs ∧ de bs = Ok x.

Lemma json_at_mono {T} `{!Codec T} C C' h (x : T) : C ⊆ C' → json_at C h x → json_at C' h x.
Proof. intros HC (bs & Hbs & Hd). exists bs. split; [by eapply lookup_weaken|done]. Qed.

Lemma json_at_det {T} `{!Codec T} C h (x y : T) : json_at C h x → json_at C h y → x = y.
Proof. intros (bs & Hbs & Hd) (bs' & Hbs' & Hd'). congruence. Qed.

Context `{Blake3} {St : Type} `{!BlobStore St, !BlobStoreSpec St}.

Lemma load_json_ok {T} `{!Codec T} h (x : T) (s s' : St) :
  load_json h s = (Ok x, s') → contents s ⊆ contents s' ∧ json_at (contents s') h x.
Proof.
  unfold load_json. intros (found & s1 & Hg & Hr)%io_bind_ok. apply io_map_err_ok in Hg.
  destruct found as [bs|]; [|done]. unfold mbind, io_bind, io_lift in Hr. simpl in Hr.
  destruct (de bs) as [y|] eqn:Ed; [|done]. injection Hr as -> ->.
  split; [by eapply get_grows|]. exists bs. split; [by eapply get_sound|done].
Qed.

Lemma load_json_known {T} `{!Codec T} h (x y : T) (s s' : St) :
  load_json h s = (Ok x, s') → json_at (contents s) h y → x = y.
Proof.
  intros [HC Hx]%load_json_ok Hy. eapply json_at_det; [done|by eapply json_at_mono].
Qed.

Lemma store_json_ok {T} `{!Codec T} (dom : T → Prop) `{!CodecLaws T dom} (x : T) h (s s' : St) :
  store_json x s = (Ok h, s') → dom x → json_at (contents s') h x.
Proof.
  unfold store_json. intros Hr Hd. apply io_map_err_ok in Hr.
  pose proof (put_hash _ _ _ _ Hr) as ->. exists (ser x). split; [|by apply de_ser].
  apply put_cases in Hr as [->|[_ []]]; [by rewrite lookup_insert_eq|done].
Qed.
End json.

Section iscc_facts.
Context `{Blake3} `{!Codec DirectoryV2, !Codec BucketManifest, !Codec (list IsccMember),
  !Codec (gmap string Hash)}.
Context `{!CodecLaws DirectoryV2 directory_dom, !CodecLaws BucketManifest manifest_dom,
  !CodecLaws (list IsccMember) members_dom}.

(** A manifest lists the segments of the postings, and counts them. *)
Definition man_rep (C : gmap Hash (list byte)) (man : BucketManifest) (ms : list IsccMember) : Prop :=
  ∃ ls, Forall2 (json_at C) (bm_segments man) ls ∧ ms = concat ls ∧
    bm_count man = wrap64 (N.of_nat (length ms)).

Definition bucket_rep (C : gmap Hash (list byte)) (bucket : BucketRef) (ms : list IsccMember) : Prop :=
  match bucket with
  | Manifest h => ∃ man, json_at C h man ∧ man_rep C man ms
  | LegacyList h => json_at C h ms
  end.

Definition dir_at (C : gmap Hash (list byte)) (root : option Hash) (dir : Directory) : Prop :=
  match root with
  | None => dir = ∅
  | Some r => ∃ bs, C !! r = Some bs ∧ parse_directory r bs = Ok dir
  end.

(** The index under [root] has the postings [P k] in the bucket [k]. *)
Definition index_rep (C : gmap Hash (list byte)) (root : option Hash)
    (P : string → list IsccMember) : Prop :=
  ∃ dir, dir_at C root dir ∧
    ∀ k, match dir !! k with Some bucket => bucket_rep C bucket (P k) | None => P k = [] end.

Lemma man_rep_mono C C' man ms : C ⊆ C' → man_rep C man ms → man_rep C' man ms.
Proof.
  intros HC (ls & Hls & Hms & Hc). exists ls. split_and!; [|done|done].
  eapply Forall2_impl; [exact Hls|]. intros. by eapply json_at_mono.
Qed.

Lemma bucket_rep_mono C C' bucket ms : C ⊆ C' → bucket_rep C bucket ms → bucket_rep C' bucket ms.
Proof.
  intros HC. destruct bucket as [h|h]; simpl; [|by apply json_at_mono].
  intros (man & Hj & Hm). exists man. split; [by eapply json_at_mono|by eapply man_rep_mono].
Qed.

Lemma index_rep_mono C C' root P : C ⊆ C' → index_rep C root P → index_rep C' root P.
Proof.
  intros HC (dir & Hd & HP). exists dir. split.
  - destruct root; [|done]. destruct Hd as (bs & Hbs & Hp). exists bs. split; [by eapply lookup_weaken|done].
  - intros k. specialize (HP k). destruct (dir !! k); [by eapply bucket_rep_mono|done].
Qed.

Lemma wrap64_lt n : (wrap64 n < 2 ^ 64)%N.
Proof. apply N.mod_upper_bound. lia. Qed.

Lemma man_rep_dom C man ms : man_rep C man ms → manifest_dom man.
Proof. intros (ls & _ & _ & Hc). unfold manifest_dom. rewrite Hc. apply wrap64_lt. Qed.

Section reading.
Context {St : Type} `{!BlobStore St, !BlobStoreSpec St}.

Lemma load_directory_ok root dir0 dir (s s' : St) :
  load_directory root s = (Ok dir, s') → dir_at (contents s) root dir0 →
  dir = dir0 ∧ contents s ⊆ contents s'.
Proof.
  destruct root as [r|]; simpl; [|intros Hr ->; by run_inv].
  intros (found & s1 & Hg & Hr)%io_bind_ok (bs & Hbs & Hp). apply io_map_err_ok in Hg.
  destruct found as [bs'|]; [|done]. unfold mbind, io_bind, io_lift in Hr. simpl in Hr.
  injection Hr as Hr <-. pose proof (get_grows _ _ _ _ Hg) as HC. split; [|done].
  apply get_sound in Hg. pose proof (lookup_weaken _ _ _ _ Hbs HC). congruence.
Qed.

Lemma load_bucket_manifest_ok bucket ms man (s s' : St) :
  load_bucket_manifest bucket s = (Ok man, s') → bucket_rep (contents s) bucket ms →
  man_rep (contents s) man ms ∧ contents s ⊆ contents s'.
Proof.
  destruct bucket as [h|h]; simpl.
  - intros Hr (man' & Hj & Hm). pose proof (load_json_known _ _ _ _ _ Hr Hj) as ->.
    split; [done|]. by apply load_json_ok in Hr as [? _].
  - intros (l & s1 & Hl & Hr)%io_bind_ok Hj. run_inv. unfold load_segment in Hl.
    pose proof (load_json_known _ _ _ _ _ Hl Hj) as ->. apply load_json_ok in Hl as [HC _].
    split; [|done]. exists [ms]. split_and!; [by repeat constructor| |done].
    simpl. by rewrite app_nil_r.
Qed.

Lemma load_segments_ok hs ls ls' (s s' : St) :
  io_mapM load_segment hs s = (Ok ls', s') → Forall2 (json_at (contents s)) hs ls →
  ls' = ls ∧ contents s ⊆ contents s'.
Proof.
  revert ls ls' s. induction hs as [|h hs IH]; intros ls ls' s Hr Hls; simpl in Hr.
  - run_inv. by inversion Hls.
  - apply Forall2_cons_inv_l in Hls as (l & ls1 & Hl & Hls & ->). run_inv.
    unfold load_segment in Hrun. pose proof (load_json_known _ _ _ _ _ Hrun Hl) as ->.
    apply load_json_ok in Hrun as [HC _]. eapply IH in Hrun0 as [-> HC2].
    + split; [done|by etrans].
    + eapply Forall2_impl; [exact Hls|]. intros. by eapply json_at_mono.
Qed.

Lemma load_bucket_ok bucket ms ms' (s s' : St) :
  load_bucket bucket s = (Ok ms', s') → bucket_rep (contents s) bucket ms →
  ms' = ms ∧ contents s ⊆ contents s'.
Proof.
  unfold load_bucket. intros Hr Hb. run_inv.
  destruct (load_bucket_manifest_ok _ _ _ _ _ Hrun Hb) as [(ls & Hls & -> & _) HC].
  eapply load_segments_ok in Hrun0 as [-> HC2]; [split; [done|by etrans]|].
  eapply Forall2_impl; [exact Hls|]. intros. by eapply json_at_mono.
Qed.

(** The query sees exactly the postings of the probed buckets. *)
Lemma query_fold_ok dir P ids acc (s s' : St) :
  (∀ k, match dir !! k with Some b => bucket_rep (contents s) b (P k) | None => P k = [] end) →
  io_fold (query_step dir) (∅, []) ids s = (Ok acc, s') →
  ∀ m, m ∈ acc.2 ↔ ∃ id, id ∈ ids ∧ m ∈ P (storage_key id).
Proof.
  intros HP Hr.
  apply (io_fold_ok _ (λ done acc s2, contents s ⊆ contents s2 ∧
    (∀ k, k ∈ acc.1 ↔ k ∈ storage_key <$> done) ∧
    (∀ m, m ∈ acc.2 ↔ ∃ id, id ∈ done ∧ m ∈ P (storage_key id)))) in Hr as (_ & _ & Hm); [done| |].
  - clear Hr acc s'. intros done id rest [seen c] s2 [seen' c'] s3 _ (HC & Hs & Hm) Hst.
    unfold query_step in Hst. simpl in *. assert (∀ m, m ∈ c ∨ m ∈ P (storage_key id) ↔
      ∃ id0, id0 ∈ done ++ [id] ∧ m ∈ P (storage_key id0)) as Hm'.
    { intros m. rewrite Hm. setoid_rewrite elem_of_app. setoid_rewrite list_elem_of_singleton.
      split; [naive_solver|]. intros (id0 & [Hin| ->] & Hp); eauto. }
    assert (∀ k, k ∈ storage_key <$> done ++ [id] ↔ k = storage_key id ∨ k ∈ storage_key <$> done) as Hk'.
    { intros k. rewrite fmap_app, elem_of_app. simpl. rewrite list_elem_of_singleton. tauto. }
    case_bool_decide as Hseen.
    + run_inv. split_and!; [done| |].
      * intros k. rewrite Hk', Hs. rewrite Hs in Hseen. naive_solver.
      * intros m. rewrite <-Hm'. split; [by left|]. intros [?|Hp]; [done|]. apply Hm.
        apply Hs, list_elem_of_fmap in Hseen as (id0 & Heq & Hin). exists id0. by rewrite <-Heq.
    + specialize (HP (storage_key id)). destruct (dir !! storage_key id) as [b|] eqn:Eb.
      * run_inv. rename a into ms.
        eapply load_bucket_ok in Hrun as [-> HC3]; [|by eapply bucket_rep_mono].
        split_and!; [by etrans| |].
        -- intros k. rewrite Hk', elem_of_union, elem_of_singleton, Hs. done.
        -- intros m. by rewrite elem_of_app, Hm'.
      * run_inv. split_and!; [done| |].
        -- intros k. rewrite Hk', elem_of_union, elem_of_singleton, Hs. done.
        -- intros m. rewrite <-Hm', HP, elem_of_nil. tauto.
  - split_and!; [done|set_solver|]. simpl. intros m. rewrite elem_of_nil. split; [done|].
    intros (id & Hid & _). by apply elem_of_nil in Hid.
Qed.

Lemma retain_first_elem seen l m : m ∈ retain_first seen l ↔ m ∈ l ∧ m ∉ seen.
Proof.
  revert seen. induction l as [|x l IH]; intros seen; simpl.
  { rewrite elem_of_nil. tauto. }
  case_bool_decide; rewrite ?elem_of_cons, IH, ?not_elem_of_cons; [naive_solver|].
  destruct (decide (m = x)); naive_solver.
Qed.
End reading.

Lemma push_tail_elem tail new m : m ∈ push_tail tail new ↔ m ∈ tail ∨ m ∈ new.
Proof.
  unfold push_tail. revert tail. induction new as [|x new IH]; intros tail; simpl.
  { rewrite elem_of_nil. tauto. }
  rewrite IH, elem_of_cons. case_bool_decide; [naive_solver|].
  rewrite elem_of_app, list_elem_of_singleton. tauto.
Qed.

Lemma by_bucket_elem params ms k m :
  m ∈ default [] (by_bucket params ms !! k) ↔
  m ∈ ms ∧ k ∈ storage_key <$> buckets params (im_content_code m).
Proof.
  assert (∀ (x : IsccMember) ids (acc : gmap string (list IsccMember)),
    m ∈ default [] (foldl (λ acc bucket,
      partial_alter (λ l, Some (default [] l ++ [x])) (storage_key bucket) acc) acc ids !! k)
    ↔ m ∈ default [] (acc !! k) ∨ m = x ∧ k ∈ storage_key <$> ids) as Hin.
  { intros x ids. induction ids as [|i ids IH]; intros acc; simpl.
    { rewrite elem_of_nil. tauto. }
    rewrite IH. destruct (decide (storage_key i = k)) as [<-|Hne].
    - rewrite lookup_partial_alter_eq. simpl. rewrite elem_of_app, list_elem_of_singleton, elem_of_cons.
      naive_solver.
    - rewrite lookup_partial_alter_ne by done. rewrite elem_of_cons. naive_solver. }
  unfold by_bucket. induction ms as [|x ms IH] using rev_ind.
  { simpl. rewrite lookup_empty, !elem_of_nil. tauto. }
  rewrite foldl_app. simpl. rewrite Hin, IH, elem_of_app, list_elem_of_singleton. naive_solver.
Qed.

Lemma Forall2_json_mono C C' hs (ls : list (list IsccMember)) :
  C ⊆ C' → Forall2 (json_at C) hs ls → Forall2 (json_at C') hs ls.
Proof. intros HC Hf. eapply Forall2_impl; [exact Hf|]. intros. by eapply json_at_mono. Qed.

(** The postings of a bucket, read off the blobs. *)
Definition json_read {T} `{!Codec T} (C : gmap Hash (list byte)) (h : Hash) : option T :=
  bs ← C !! h; result_ok (de bs).
Definition bucket_list (C : gmap Hash (list byte)) (bucket : BucketRef) : list IsccMember :=
  match bucket with
  | Manifest h =>
      match json_read (T:=BucketManifest) C h with
      | Some man => concat ((λ h, default [] (json_read C h)) <$> bm_segments man)
      | None => []
      end
  | LegacyList h => default [] (json_read C h)
  end.

Lemma json_read_at {T} `{!Codec T} C h (x : T) : json_at C h x → json_read C h = Some x.
Proof. intros (bs & Hbs & Hd). unfold json_read. rewrite Hbs. simpl. by rewrite Hd. Qed.

Lemma bucket_list_rep C bucket ms : bucket_rep C bucket ms → bucket_list C bucket = ms.
Proof.
  destruct bucket as [h|h]; simpl.
  - intros (man & Hj & (ls & Hls & -> & _)). rewrite (json_read_at _ _ _ Hj). f_equal.
    induction Hls as [|h0 l hs ls Hl _ IH]; [done|]. rewrite fmap_cons, IH.
    by rewrite (json_read_at _ _ _ Hl).
  - intros Hj. by rewrite (json_read_at _ _ _ Hj).
Qed.

Section writing.
Context {St : Type} `{!BlobStore St, !BlobStoreSpec St, !LocalStore St}.
Context (D : list byte → Prop) `{!CollisionFree D}.
Implicit Types s : Traced St.

Lemma steps_load_json {T} `{!Codec T} h : steps_in (advances D) (load_json (St:=Traced St) (T:=T) h).
Proof. unfold load_json. steps. Qed.
Lemma steps_store_json {T} `{!Codec T} (x : T) : steps_in (advances D) (store_json (St:=Traced St) x).
Proof. unfold store_json. steps. Qed.
#[local] Hint Resolve steps_load_json steps_store_json : steps.

Lemma steps_load_directory root : steps_in (advances D) (load_directory (St:=Traced St) root).
Proof. unfold load_directory. steps. Qed.
Lemma steps_load_bucket_manifest b : steps_in (advances D) (load_bucket_manifest (St:=Traced St) b).
Proof. unfold load_bucket_manifest, load_segment. steps. Qed.
#[local] Hint Resolve steps_load_bucket_manifest : steps.
Lemma steps_carry_bucket b : steps_in (advances D) (carry_bucket (St:=Traced St) b).
Proof. unfold carry_bucket. steps. Qed.
Lemma steps_take_tail man : steps_in (advances D) (take_tail (St:=Traced St) man).
Proof. unfold take_tail, load_segment. steps. Qed.
Lemma steps_write_segments man tail : steps_in (advances D) (write_segments (St:=Traced St) man tail).
Proof. unfold write_segments. steps. Qed.
#[local] Hint Resolve steps_carry_bucket steps_take_tail steps_write_segments : steps.
Lemma steps_touch_bucket b new : steps_in (advances D) (touch_bucket (St:=Traced St) b new).
Proof. unfold touch_bucket. steps. Qed.
#[local] Hint Resolve steps_touch_bucket : steps.
Lemma steps_carry_over dir touched : steps_in (advances D) (carry_over (St:=Traced St) dir touched).
Proof. unfold carry_over. steps. Qed.
Lemma steps_touch_buckets dir touched nb :
  steps_in (advances D) (touch_buckets (St:=Traced St) dir touched nb).
Proof. unfold touch_buckets. steps. Qed.
#[local] Hint Resolve steps_load_directory steps_carry_over steps_touch_buckets : steps.
Lemma steps_iscc_insert_batch root params ms :
  steps_in (advances D) (iscc_insert_batch (St:=Traced St) root params ms).
Proof. unfold iscc_insert_batch. steps. Qed.

(** The contents around a run whose writes are in the domain. *)
Lemma advances_grow s s' : advances D s s' → Forall D (tr_log s') → store_ok D s →
  store_ok D s' ∧ contents s ⊆ contents s'.
Proof. intros [_ Ha]. auto. Qed.

Lemma take_tail_rep man ms s man' tail s' :
  take_tail man s = (Ok (man', tail), s') → man_rep (contents s) man ms →
  ∃ front, man_rep (contents s) man' front ∧ ms = front ++ tail ∧ members_dom tail.
Proof.
  unfold take_tail. intros Hr Hm. pose proof Hm as (ls & Hls & Hms & Hc).
  destruct (bm_segments man) as [|hh hs _] eqn:Eseg using rev_ind.
  { simpl in Hr. injection Hr as <- <- <-. exists ms. rewrite app_nil_r.
    split_and!; [done|done|constructor]. }
  rewrite last_snoc in Hr. apply io_bind_ok in Hr as (seg & s1 & Hrun & Hr).
  apply Forall2_app_inv_l in Hls as (ls1 & ls2 & Hls1 & Hls2 & ->).
  apply Forall2_cons_inv_l in Hls2 as (l & ? & Hl & Hnil & ->).
  apply Forall2_nil_inv_l in Hnil as ->. unfold load_segment in Hrun.
  pose proof (load_json_known _ _ _ _ _ Hrun Hl) as ->.
  assert (members_dom l) as Hdom by (destruct Hl as (bs & _ & Hd); by apply de_dom in Hd).
  rewrite concat_app in Hms. simpl in Hms. rewrite app_nil_r in Hms.
  destruct (Nat.ltb_spec (length l) SEGMENT_MAX_MEMBERS) as [Hlt|_]; injection Hr as <- <- <-.
  - exists (concat ls1). split_and!; [|done|done]. exists ls1. simpl. split_and!; [|done|].
    + rewrite length_app. simpl. rewrite take_app_le by lia. by rewrite take_ge by lia.
    + rewrite Hc, Hms, length_app. apply wrap64_sub. pose proof SEGMENT_MAX_bound. lia.
  - exists ms. rewrite app_nil_r. split_and!; [done|done|constructor].
Qed.

Lemma write_segments_rep man front tail s man' s' :
  write_segments man tail s = (Ok man', s') → man_rep (contents s) man front →
  members_dom tail → store_ok D s → Forall D (tr_log s') →
  man_rep (contents s') man' (front ++ tail).
Proof.
  intros Hr Hm Hdom Hok HD. unfold write_segments in Hr.
  rewrite <-(chunks_of_concat (length tail) SEGMENT_MAX_MEMBERS tail) in Hdom |- *
    by (done || apply SEGMENT_MAX_pos).
  generalize dependent (chunks_of (length tail) SEGMENT_MAX_MEMBERS tail). intros segs Hr Hdom.
  revert man front s Hr Hm Hok. induction segs as [|seg segs IH]; intros man front s Hr Hm Hok.
  { simpl in *. run_inv. by rewrite app_nil_r. }
  simpl in Hr. apply io_bind_ok in Hr as (man1 & s1 & Hr1 & Hr).
  unfold members_dom in Hdom. simpl in Hdom. apply Forall_app in Hdom as [Hd1 Hd2].
  assert (advances D s1 s') as Ha.
  { eapply (steps_in_fold (advances D)); [|exact Hr]. intros. cbv beta. steps. }
  apply io_bind_ok in Hr1 as (h & s2 & Hst & Hr1). injection Hr1 as <- <-.
  destruct (advances_within D s s2 s') as (Hok1 & HC1 & HD1);
    [exact (steps_store_json _ _ _ _ Hst)|done..|].
  simpl. rewrite (assoc_L (++)). eapply IH; [done|exact Hr| |done].
  destruct Hm as (ls & Hls & -> & Hc). exists (ls ++ [seg]). simpl. split_and!.
  - apply Forall2_app; [by eapply Forall2_json_mono|].
    constructor; [|constructor]. exact (store_json_ok members_dom _ _ _ _ Hst Hd1).
  - rewrite concat_app. simpl. by rewrite app_nil_r.
  - by rewrite Hc, wrap64_add, length_app.
Qed.

Lemma touch_bucket_rep bucket ms new s h s' :
  touch_bucket bucket new s = (Ok h, s') →
  match bucket with Some b => bucket_rep (contents s) b ms | None => ms = [] end →
  members_dom new → store_ok D s → Forall D (tr_log s') →
  ∃ ms', bucket_rep (contents s') (Manifest h) ms' ∧ ∀ m, m ∈ ms' ↔ m ∈ ms ∨ m ∈ new.
Proof.
  unfold touch_bucket. intros Hr Hb Hnew Hok HD.
  apply io_bind_ok in Hr as (man & s1 & Hman & Hr).
  apply io_bind_ok in Hr as ([man1 tail] & s2 & Htail & Hr).
  apply io_bind_ok in Hr as (man2 & s3 & Hseg & Hr). simpl in Hseg.
  assert (advances D s s1) as A1.
  { destruct bucket; [by eapply steps_load_bucket_manifest|run_inv; reflexivity]. }
  assert (advances D s1 s2) as A2 by by eapply steps_take_tail.
  assert (advances D s2 s3) as A3 by by eapply steps_write_segments.
  pose proof (steps_store_json _ _ _ _ Hr) as A4.
  destruct (advances_within D s s1 s') as (Hok1 & HC1 & _); [done|by etrans; [|etrans]|done..|].
  destruct (advances_within D s1 s2 s') as (Hok2 & HC2 & _); [done|by etrans|done..|].
  destruct (advances_within D s2 s3 s') as (Hok3 & HC3 & HD3); [done..|].
  destruct (advances_within D s3 s' s') as (_ & HC4 & _); [done..|].
  assert (man_rep (contents s1) man ms) as Hm.
  { destruct bucket as [b|].
    - eapply man_rep_mono; [exact HC1|]. by eapply load_bucket_manifest_ok.
    - run_inv. by exists []. }
  destruct (take_tail_rep _ _ _ _ _ _ Htail Hm) as (front & Hfront & -> & Htd).
  exists (front ++ push_tail tail new). split.
  - assert (man_rep (contents s3) man2 (front ++ push_tail tail new)) as Hm2.
    { eapply write_segments_rep; [exact Hseg|by eapply man_rep_mono| |done|done].
      apply Forall_forall. intros m [Hm0|Hm0]%push_tail_elem;
        [unfold members_dom in Htd; rewrite Forall_forall in Htd; by apply Htd|].
      unfold members_dom in Hnew. rewrite Forall_forall in Hnew. by apply Hnew. }
    exists man2. split; [|by eapply man_rep_mono].
    exact (store_json_ok manifest_dom _ _ _ _ Hr (man_rep_dom _ _ _ Hm2)).
  - intros m. rewrite !elem_of_app, push_tail_elem. tauto.
Qed.

Lemma carry_bucket_rep bucket ms s h s' :
  carry_bucket bucket s = (Ok h, s') → bucket_rep (contents s) bucket ms →
  store_ok D s → Forall D (tr_log s') → bucket_rep (contents s') (Manifest h) ms.
Proof.
  unfold carry_bucket. intros Hr Hb Hok HD. destruct bucket as [h0|h0]; [by run_inv|].
  apply io_bind_ok in Hr as (man & s1 & Hman & Hr).
  assert (advances D s s1) as A1 by by eapply steps_load_bucket_manifest.
  pose proof (steps_store_json _ _ _ _ Hr) as A2.
  destruct (advances_within D s s1 s') as (Hok1 & HC1 & _); [done..|].
  destruct (advances_within D s1 s' s') as (_ & HC2 & _); [done..|].
  destruct (load_bucket_manifest_ok _ _ _ _ _ Hman Hb) as [Hm _].
  exists man. split; [|eapply man_rep_mono; [|exact Hm]; by etrans].
  exact (store_json_ok manifest_dom _ _ _ _ Hr (man_rep_dom _ _ _ Hm)).
Qed.

(** One pass over the buckets of a map, each rewritten to a manifest. *)
Lemma bucket_pass {A} (l : list (string * A)) (skip : string → bool)
    (work : string → A → io (Traced St) IsccStoreError Hash) (P' : string → list IsccMember → Prop)
    (nb0 : gmap string Hash) s (nb : gmap string Hash) s' :
  NoDup l.*1 → (∀ k x, steps_in (advances D) (work k x)) →
  (∀ k x si h si', (k, x) ∈ l → skip k = false → work k x si = (Ok h, si') →
     contents s ⊆ contents si → store_ok D si → Forall D (tr_log si') →
     ∃ ms, bucket_rep (contents si') (Manifest h) ms ∧ P' k ms) →
  io_fold (λ nb '(k, x), if skip k then mret nb else h ← work k x; mret (<[k := h]> nb)) nb0 l s
    = (Ok nb, s') →
  store_ok D s → Forall D (tr_log s') →
  advances D s s' ∧
  ∀ k, if bool_decide (k ∈ l.*1) && negb (skip k)
       then ∃ h ms, nb !! k = Some h ∧ bucket_rep (contents s') (Manifest h) ms ∧ P' k ms
       else nb !! k = nb0 !! k.
Proof.
  intros Hnd Hst. revert nb0 s. induction l as [|[k x] l IH]; intros nb0 s Hw Hr Hok HD.
  { simpl in Hr. run_inv. split; [reflexivity|]. intros k. by rewrite bool_decide_false by set_solver. }
  rewrite fmap_cons in Hnd. apply NoDup_cons in Hnd as [Hk Hnd]. simpl in Hk.
  simpl in Hr. apply io_bind_ok in Hr as (nb1 & s1 & Hr1 & Hr).
  assert (advances D s s1) as A1.
  { destruct (skip k); [run_inv; reflexivity|]. run_inv. by eapply Hst. }
  assert (advances D s1 s') as A2.
  { eapply (steps_in_fold (advances D)); [|exact Hr]. intros ? []. cbv beta. steps. }
  destruct (advances_within D s s1 s') as (Hok1 & HC1 & HD1); [done..|].
  destruct (IH Hnd nb1 s1) as [_ Hnb]; [|done|done|done|].
  { intros k' x' si h si' Hin Hsk Hwr HC. eapply Hw; [by right|done|done|by etrans]. }
  split; [by etrans|]. intros k'. specialize (Hnb k').
  destruct (decide (k' = k)) as [->|Hne].
  - rewrite (bool_decide_false (k ∈ l.*1)) in Hnb by done. simpl in Hnb.
    rewrite bool_decide_true by by left. destruct (skip k) eqn:Esk; cbn [andb negb].
    + run_inv. done.
    + run_inv. rename a into h. destruct (Hw k x s h s1) as (ms & Hms & HP'); try done; [by left|].
      exists h, ms. rewrite Hnb, lookup_insert_eq. split_and!; [done| |done].
      eapply bucket_rep_mono; [|exact Hms]. by destruct (advances_within D s1 s' s') as (_ & ? & _).
  - rewrite (bool_decide_ext (k' ∈ ((k, x) :: l).*1) (k' ∈ l.*1)) by (simpl; rewrite elem_of_cons; tauto).
    destruct (bool_decide (k' ∈ l.*1) && negb (skip k')); [done|]. rewrite Hnb.
    destruct (skip k); run_inv; [done|]. by rewrite lookup_insert_ne.
Qed.

Lemma iscc_insert_rep root params members P s r s' :
  iscc_insert_batch root params members s = (Ok r, s') →
  index_rep (contents s) root P → members_dom members → store_ok D s → Forall D (tr_log s') →
  ∃ P', index_rep (contents s') (Some r) P' ∧
    ∀ k m, m ∈ P' k ↔ m ∈ P k ∨
      m ∈ members ∧ k ∈ storage_key <$> buckets params (im_content_code m).
Proof.
  unfold iscc_insert_batch. intros Hr (dir & Hdir & HP) Hdom Hok HD. unfold Directory in *.
  apply io_bind_ok in Hr as (dir' & s1 & Hld & Hr).
  apply io_bind_ok in Hr as (nb1 & s2 & Hcarry & Hr).
  apply io_bind_ok in Hr as (nb2 & s3 & Htouch & Hr).
  assert (advances D s s1) as A1 by by eapply steps_load_directory.
  assert (advances D s1 s2) as A2 by by eapply steps_carry_over.
  assert (advances D s2 s3) as A3 by by eapply steps_touch_buckets.
  pose proof (steps_store_json _ _ _ _ Hr) as A4.
  destruct (load_directory_ok _ _ _ _ _ Hld Hdir) as [-> HC1].
  destruct (advances_within D s s1 s') as (Hok1 & _ & _); [done|by etrans; [|etrans]|done..|].
  destruct (advances_within D s1 s2 s') as (Hok2 & HC2 & HD2); [done|by etrans|done..|].
  destruct (advances_within D s2 s3 s') as (Hok3 & HC3 & HD3); [done..|].
  destruct (advances_within D s3 s' s') as (_ & HC4 & _); [done..|].
  set (touched := by_bucket params members) in *.
  assert (∀ k x, (k, x) ∈ btree_list dir → bucket_rep (contents s1) x (P k)) as HP1.
  { intros k x Hin%btree_list_elem. specialize (HP k). rewrite Hin in HP. by eapply bucket_rep_mono. }
  destruct (bucket_pass (btree_list dir) (λ k, bool_decide (is_Some (touched !! k)))
    (λ _, carry_bucket) (λ k ms, ms = P k) ∅ s1 nb1 s2) as [_ Hnb1];
    [apply btree_list_NoDup|intros; apply steps_carry_bucket| |exact Hcarry|done|done|].
  { intros k x si h si' Hin _ Hw HC Hoki HDi. exists (P k). split; [|done].
    eapply carry_bucket_rep; [exact Hw| |done|done]. eapply bucket_rep_mono; [exact HC|by apply HP1]. }
  destruct (bucket_pass (btree_list touched) (λ _, false)
    (λ k new, touch_bucket (dir !! k) new)
    (λ k ms, ∀ m, m ∈ ms ↔ m ∈ P k ∨ m ∈ default [] (touched !! k)) nb1 s2 nb2 s3) as [_ Hnb2];
    [apply btree_list_NoDup|intros; apply steps_touch_bucket| |exact Htouch|done|done|].
  { intros k new si h si' Hin%btree_list_elem _ Hw HC Hoki HDi. rewrite Hin.
    eapply touch_bucket_rep; [exact Hw| | |done|done].
    - specialize (HP k). destruct (dir !! k) as [b|]; [|done].
      eapply bucket_rep_mono; [|exact HP]. etrans; [exact HC1|]. by etrans.
    - apply Forall_forall. intros m Hm. unfold members_dom in Hdom. rewrite Forall_forall in Hdom.
      apply Hdom. assert (m ∈ default [] (touched !! k)) as Hm' by by rewrite Hin.
      by apply by_bucket_elem in Hm' as [? _]. }
  assert (∀ k, match nb2 !! k with
    | Some h => ∃ ms, bucket_rep (contents s3) (Manifest h) ms ∧
        ∀ m, m ∈ ms ↔ m ∈ P k ∨ m ∈ default [] (touched !! k)
    | None => P k = [] ∧ touched !! k = None
    end) as Hfin.
  { intros k. specialize (Hnb1 k). specialize (Hnb2 k). cbn [negb] in Hnb2. rewrite andb_true_r in Hnb2.
    case_bool_decide as Ht; [by destruct Hnb2 as (h & ms & -> & Hb & Hm); eauto|].
    assert (touched !! k = None) as Hnone.
    { destruct (touched !! k) eqn:E; [|done]. destruct Ht. apply list_elem_of_fmap.
      eexists (k, _). split; [done|]. by apply btree_list_elem. }
    rewrite Hnb2. rewrite Hnone, (bool_decide_false (is_Some None)), andb_true_r in Hnb1 by by intros [].
    case_bool_decide as Hk.
    - destruct Hnb1 as (h & ms & -> & Hb & ->). exists (P k).
      split; [by eapply bucket_rep_mono|]. intros m. rewrite Hnone. simpl. rewrite elem_of_nil. tauto.
    - rewrite Hnb1, lookup_empty. split; [|done]. specialize (HP k).
      destruct (dir !! k) eqn:E; [|done]. destruct Hk. apply list_elem_of_fmap.
      eexists (k, _). split; [done|]. by apply btree_list_elem. }
  exists (λ k, match nb2 !! k with Some h => bucket_list (contents s') (Manifest h) | None => [] end).
  split.
  - exists (Manifest <$> nb2). split.
    + destruct (store_json_ok directory_dom _ _ _ _ Hr) as (bs & Hbs & Hde); [done|].
      exists bs. split; [done|]. unfold parse_directory. by rewrite Hde.
    + intros k. unfold Directory. rewrite lookup_fmap. specialize (Hfin k). destruct (nb2 !! k) as [h|]; [|done].
      destruct Hfin as (ms & Hb & _). eapply (bucket_rep_mono _ (contents s')) in Hb; [|done].
      change (Manifest <$> Some h) with (Some (Manifest h)). cbv iota.
      by rewrite (bucket_list_rep _ _ _ Hb).
  - intros k m. specialize (Hfin k). rewrite <-by_bucket_elem. fold touched.
    destruct (nb2 !! k) as [h|].
    + destruct Hfin as (ms & Hb & Hm). eapply (bucket_rep_mono _ (contents s')) in Hb; [|done].
      by rewrite (bucket_list_rep _ _ _ Hb).
    + destruct Hfin as [-> ->]. simpl. rewrite elem_of_nil. tauto.
Qed.
End writing.
End iscc_facts.
