(* ===== verification/SimilaritySpec.v ===== *)
(** What similarity search promises: the banded indices of
    [crates/registry-core/src/similarity.rs] and
    [crates/registry-core/src/iscc_store.rs] find exactly what a scan over
    every member finds. *)

From S2P Require Import Prelude Hash BlobStore Similarity SimilarityFacts IsccStore IsccStoreFacts Samples.

(** ** The scan the indices are compared to *)

Section reference.
Context (query : N) (radius : nat).

(** With one code to a key, what [verify] returns is determined by the
    members it is given. *)
Definition matches (ms : list IsccMember) (r : SimilarityMatch) : Prop :=
  mkIsccMember (sm_key r) (sm_content_code r) ∈ ms ∧
  sm_distance r = hamming query (sm_content_code r) ∧ sm_distance r ≤ radius.

Definition one_code (ms : list IsccMember) : Prop :=
  ∀ m1 m2, m1 ∈ ms → m2 ∈ ms → im_key m1 = im_key m2 → m1 = m2.

Lemma one_code_NoDup (ms : list IsccMember) : NoDup (im_key <$> ms) → one_code ms.
Proof.
  intros Hnd m1 m2 [i Hi]%list_elem_of_lookup [j Hj]%list_elem_of_lookup Hk.
  assert (i = j) as ->; [|congruence].
  eapply (NoDup_lookup (im_key <$> ms)); [done| |]; rewrite list_lookup_fmap;
    [by rewrite Hi|by rewrite Hj, Hk].
Qed.

Lemma verify_elem ms cands r :
  one_code ms → cands ⊆ ms →
  (∀ m, m ∈ ms → hamming query (im_content_code m) ≤ radius → m ∈ cands) →
  r ∈ verify query cands radius ↔ matches ms r.
Proof.
  intros Hnd Hsub Hall. destruct (verify_spec query radius cands) as (_ & _ & Hsound & Hcomp). split.
  - intros (Hin & Hd & Hr & _)%Hsound. by split_and!; [apply Hsub|..].
  - intros (Hin & Hd & Hr). destruct (Hcomp _ (Hall _ Hin ltac:(simpl; lia))) as (r' & Hr' & Hk).
    { simpl. lia. }
    destruct (Hsound _ Hr') as (Hin' & Hd' & _ & _).
    pose proof (Hnd _ _ (Hsub _ Hin') Hin Hk) as [= Hk' Hc'].
    assert (r = r') as ->; [|done]. destruct r, r'. simpl in *. congruence.
Qed.

Lemma verify_reference ms cands :
  one_code ms → cands ⊆ ms →
  (∀ m, m ∈ ms → hamming query (im_content_code m) ≤ radius → m ∈ cands) →
  verify query cands radius = verify query ms radius.
Proof.
  intros Hnd Hsub Hall.
  destruct (verify_spec query radius cands) as (Hnd1 & Hs1 & _).
  destruct (verify_spec query radius ms) as (Hnd2 & Hs2 & _).
  apply (StronglySorted_unique_strong (λ x y, match_le x y = true)); [|done..|].
  - intros r1 r2 Hr1 Hr2 H12 H21.
    apply (verify_elem ms) in Hr1 as (Hin1 & Hd1 & _); [|done..].
    apply (verify_elem ms) in Hr2 as (Hin2 & Hd2 & _); [|done|done|by intros].
    apply match_le_spec in H12, H21. assert (sm_key r1 = sm_key r2) as Hk.
    { destruct H12 as [?|[? H12]], H21 as [?|[? H21]]; try lia. by apply String.leb_antisym. }
    pose proof (Hnd _ _ Hin1 Hin2 Hk) as [= _ Hc].
    destruct r1, r2. simpl in *. congruence.
  - apply NoDup_Permutation; [by eapply NoDup_fmap_1..|]. intros r.
    rewrite (verify_elem ms), (verify_elem ms); [done|done|done|by intros|done..].
Qed.
End reference.

(** ** The in-memory index *)


(** [verify] is exact on any candidates: distinct keys, sorted by distance
    then key, every result a candidate within the radius at the smallest
    distance of its key, and every key with a candidate within the radius
    is there. *)
Theorem verify_exact query radius cands :
  let rs := verify query cands radius in
  NoDup (sm_key <$> rs) ∧
  StronglySorted (λ a b, sm_distance a < sm_distance b ∨
    sm_distance a = sm_distance b ∧ str_le (sm_key a) (sm_key b) = true) rs ∧
  (∀ r, r ∈ rs → mkIsccMember (sm_key r) (sm_content_code r) ∈ cands ∧
     sm_distance r = hamming query (sm_content_code r) ∧ sm_distance r ≤ radius) ∧
  (∀ m, m ∈ cands → hamming query (im_content_code m) ≤ radius →
     ∃ r, r ∈ rs ∧ sm_key r = im_key m ∧ sm_distance r ≤ hamming query (im_content_code m)).
Proof.
  intros rs. destruct (verify_spec query radius cands) as (Hnd & Hs & Hsound & Hcomp). split_and!.
  - done.
  - unfold rs. clear -Hs. induction Hs as [|a l Hl IH Ha]; constructor; [exact IH|].
    eapply Forall_impl; [exact Ha|]. intros b. apply match_le_spec.
  - intros r (Hin & Hd & Hr & _)%Hsound. done.
  - intros m Hm Hd. destruct (Hcomp m Hm Hd) as (r & Hr & Hk).
    destruct (Hsound r Hr) as (_ & _ & _ & Hmin). exists r. split_and!; [done|done|by apply Hmin].
Qed.

Lemma in_field_lt m : in_field 64 m → (m < 2 ^ 64)%N.
Proof.
  intros Hm. assert (m = m mod 2 ^ 64)%N as ->; [|apply N.mod_upper_bound; lia].
  apply N.bits_inj. intros i. destruct (N.lt_ge_cases i 64) as [Hi|Hi].
  - by rewrite N.mod_pow2_bits_low.
  - rewrite N.mod_pow2_bits_high by done. rewrite <-(N2Nat.id i). apply Hm. lia.
Qed.

(** C33: Bucket ids and their storage keys correspond one to one, so two
    buckets never share a posting list. *)
Theorem storage_keys_distinct params c1 c2 b1 b2 n :
  BandParams_new n = Ok params → (c1 < 2 ^ 64)%N → (c2 < 2 ^ 64)%N →
  b1 ∈ buckets params c1 → b2 ∈ buckets params c2 →
  storage_key b1 = storage_key b2 → b1 = b2.
Proof.
  intros (-> & Hn & Hw)%BandParams_new_ok Hc1 Hc2 Hb1 Hb2.
  assert (n ≤ 64) as Hn64 by (destruct (64 / n); lia).
  assert (∀ c b, b ∈ buckets (mkBandParams n) c →
    (N.of_nat (bi_band_index b) < 2 ^ 32)%N ∧ (bi_band_value b < 2 ^ 64)%N) as Hdom.
  { intros c b (k & -> & Hk%elem_of_seq)%list_elem_of_fmap. simpl in *. split.
    - change (2 ^ 32)%N with 4294967296%N. lia.
    - apply in_field_lt. intros i Hi. apply (band_in_field (mkBandParams n)); [done|].
      pose proof (band_width_le (mkBandParams n) (conj Hn Hw)). lia. }
  destruct (Hdom _ _ Hb1), (Hdom _ _ Hb2). by apply storage_key_inj.
Qed.

(** ** The blob-backed index *)

Lemma hamming_refl c : hamming c c = 0.
Proof. unfold hamming. by rewrite N.lxor_nilpotent. Qed.

Section store.
Context `{Blake3} `{!Codec DirectoryV2, !Codec BucketManifest, !Codec (list IsccMember),
  !Codec (gmap string Hash)}.
Context `{!CodecLaws DirectoryV2 directory_dom, !CodecLaws BucketManifest manifest_dom,
  !CodecLaws (list IsccMember) members_dom}.

(** The directory under [root] indexes exactly the members [ms], each in
    every bucket of its code. *)
Definition indexes (C : gmap Hash (list byte)) (root : option Hash) (params : BandParams)
    (ms : list IsccMember) : Prop :=
  ∃ P, index_rep C root P ∧
    ∀ k m, m ∈ P k ↔ m ∈ ms ∧ k ∈ storage_key <$> buckets params (im_content_code m).

Lemma indexes_empty C params : indexes C None params [].
Proof.
  exists (λ _, []). split; [by exists ∅|]. intros k m. rewrite elem_of_nil. tauto.
Qed.

(** C18: Inserting a batch into the stored index adds exactly its members: if
    the old root indexes [ms], the new one indexes [ms ++ new].  Old roots
    stay readable. *)
Theorem iscc_insert_indexes {St} `{!BlobStore St, !BlobStoreSpec St, !LocalStore St}
    (D : list byte → Prop) `{!CollisionFree D} root params new ms (s : Traced St) r s' :
  iscc_insert_batch root params new s = (Ok r, s') →
  indexes (contents s) root params ms → members_dom new →
  store_ok D s → Forall D (tr_log s') →
  indexes (contents s') (Some r) params (ms ++ new) ∧ indexes (contents s') root params ms.
Proof.
  intros Hr (P & Hrep & HP) Hdom Hok HD.
  destruct (iscc_insert_rep D _ _ _ _ _ _ _ Hr Hrep Hdom Hok HD) as (P' & Hrep' & HP').
  split.
  - exists P'. split; [done|]. intros k m. rewrite HP', HP, elem_of_app. tauto.
  - exists P. split; [|done]. eapply index_rep_mono; [|exact Hrep].
    destruct (steps_iscc_insert_batch D _ _ _ _ _ _ Hr) as [_ Hadv]. by destruct (Hadv HD Hok).
Qed.

(** ** On a store that does not fail every read answers *)

Section total.
Context {St : Type} `{!BlobStore St, !BlobStoreSpec St, !ReliableStore St}.
Implicit Types s : St.

Lemma load_json_total {T} `{!Codec T} h (x : T) s :
  json_at (contents s) h x → load_json h s = (Ok x, s).
Proof.
  intros (bs & Hbs & Hd). unfold load_json.
  rewrite (io_bind_run _ _ s (Some bs) s) by by rewrite io_map_err_ok, get_total, Hbs.
  unfold mbind, io_bind, io_lift. simpl. by rewrite Hd.
Qed.

Lemma load_directory_total root dir s :
  dir_at (contents s) root dir → load_directory root s = (Ok dir, s).
Proof.
  destruct root as [r|]; simpl; [|by intros ->]. intros (bs & Hbs & Hp).
  rewrite (io_bind_run _ _ s (Some bs) s) by by rewrite io_map_err_ok, get_total, Hbs.
  unfold mbind, io_bind, io_lift. simpl. by rewrite Hp.
Qed.

Lemma load_bucket_total bucket ms s :
  bucket_rep (contents s) bucket ms → load_bucket bucket s = (Ok ms, s).
Proof.
  intros Hb. assert (∃ man, load_bucket_manifest bucket s = (Ok man, s)) as [man Hman].
  { destruct bucket as [h|h]; simpl in *.
    - destruct Hb as (man & Hj & _). exists man. by apply load_json_total.
    - eexists. by rewrite (io_bind_run _ _ _ _ _ (load_json_total _ _ _ Hb)). }
  destruct (load_bucket_manifest_ok _ _ _ _ _ Hman Hb) as [(ls & Hls & -> & _) _].
  unfold load_bucket. rewrite (io_bind_run _ _ _ _ _ Hman).
  rewrite (io_bind_run _ _ s ls s); [done|]. clear Hman Hb.
  induction Hls as [|h l hs ls Hl _ IH]; [done|]. simpl.
  rewrite (io_bind_run _ _ _ _ _ (load_json_total _ _ _ Hl)).
  by rewrite (io_bind_run _ _ _ _ _ IH).
Qed.

Lemma query_fold_total dir P ids acc s :
  (∀ k, match dir !! k with Some b => bucket_rep (contents s) b (P k) | None => P k = [] end) →
  ∃ acc', io_fold (query_step dir) acc ids s = (Ok acc', s).
Proof.
  intros HP. revert acc. induction ids as [|id ids IH]; intros acc; simpl; [by eexists|].
  assert (∃ a, query_step dir acc id s = (Ok a, s)) as [a Ha].
  { unfold query_step. destruct acc as [seen c]. case_bool_decide; [by eexists|].
    specialize (HP (storage_key id)). destruct (dir !! storage_key id) as [b|]; [|by eexists].
    rewrite (io_bind_run _ _ _ _ _ (load_bucket_total _ _ _ HP)). by eexists. }
  rewrite (io_bind_run _ _ _ _ _ Ha). apply IH.
Qed.

Lemma iscc_query_total params root ms q radius probe s :
  indexes (contents s) root params ms →
  ∃ rs, iscc_query root params q radius probe s = (Ok rs, s).
Proof.
  intros (P & (dir & Hdir & HP) & _). unfold iscc_query.
  rewrite (io_bind_run _ _ _ _ _ (load_directory_total _ _ _ Hdir)).
  case_bool_decide; [by eexists|].
  destruct (query_fold_total dir P (query_buckets params q probe) (∅, []) s HP) as [acc Hacc].
  rewrite (io_bind_run _ _ _ _ _ Hacc). by eexists.
Qed.
End total.

Lemma iscc_query_sound {St} `{!BlobStore St, !BlobStoreSpec St} n params root ms q radius probe
    (s s' : St) rs :
  iscc_query root params q radius probe s = (Ok rs, s') →
  BandParams_new n = Ok params → radius < n * (probe + 1) →
  indexes (contents s) root params ms → one_code ms →
  rs = verify q ms radius.
Proof.
  intros Hr (-> & Hn & Hw)%BandParams_new_ok Hrad (P & (dir & Hdir & HP) & HPm) Hone.
  unfold iscc_query in Hr. apply io_bind_ok in Hr as (dir' & s1 & Hld & Hr).
  destruct (load_directory_ok _ _ _ _ _ Hld Hdir) as [-> HC1].
  assert (∀ m, m ∈ ms → ∀ id, id ∈ buckets (mkBandParams n) (im_content_code m) → m ∈ P (storage_key id))
    as HPin by (intros m Hm id Hid; apply HPm; split; [done|by apply list_elem_of_fmap_2]).
  case_bool_decide as Hemp.
  - run_inv. destruct ms as [|m ms]; [done|].
    destruct (close_codes_share_bucket (mkBandParams n) (im_content_code m) (im_content_code m) 0)
      as (id & Hid & _); [done|rewrite hamming_refl; simpl; lia|].
    specialize (HP (storage_key id)). unfold Directory in HP. rewrite lookup_empty in HP.
    specialize (HPin m ltac:(by left) id Hid). rewrite HP in HPin. by apply elem_of_nil in HPin.
  - apply io_bind_ok in Hr as (acc & s2 & Hf & Hr). run_inv.
    assert (∀ k, match dir !! k with Some b => bucket_rep (contents s1) b (P k) | None => P k = [] end)
      as HP1 by (intros k; specialize (HP k); destruct (dir !! k); [by eapply bucket_rep_mono|done]).
    pose proof (query_fold_ok dir P _ _ _ _ HP1 Hf) as Hacc.
    apply verify_reference; [done| |].
    + intros m [Hm _]%retain_first_elem. apply Hacc in Hm as (id & _ & Hm). by apply HPm in Hm as [? _].
    + intros m Hm Hd. apply retain_first_elem. split; [|apply not_elem_of_nil]. apply Hacc.
      destruct (close_codes_share_bucket (mkBandParams n) q (im_content_code m) probe)
        as (id & Hid & Hq); [done|simpl; lia|]. eauto.
Qed.

End store.

(** ** Concrete runs *)

Section witnesses.
Definition sample_members : list IsccMember :=
  [mkIsccMember "a" 0; mkIsccMember "b" 3; mkIsccMember "c" 18446744073709551615].

Lemma sample_members_NoDup : NoDup (im_key <$> sample_members).
Proof. apply (bool_decide_unpack _). vm_compute. exact I. Qed.


Lemma storage_keys_distinct_witness :
  storage_key (mkBucketId 0 0) = "iscc/00/0000000000000000" ∧
  mkBucketId 0 0 = mkBucketId 0 0.
Proof.
  split; [vm_compute; reflexivity|].
  apply (storage_keys_distinct (mkBandParams 4) 0 1 _ _ 4);
    [reflexivity|reflexivity|reflexivity|..]; apply (bool_decide_unpack _); vm_compute; exact I.
Defined.

#[local] Program Instance member_countable : Countable IsccMember :=
  inj_countable' (λ m, (im_key m, im_content_code m)) (λ '(k, c), mkIsccMember k c) _.
Next Obligation. by intros []. Qed.
#[local] Instance manifest_eq_dec : EqDecision BucketManifest.
Proof. solve_decision. Defined.
#[local] Program Instance manifest_countable : Countable BucketManifest :=
  inj_countable' (λ m, (bm_count m, bm_segments m)) (λ '(k, c), mkBucketManifest k c) _.
Next Obligation. by intros []. Qed.
#[local] Instance directory_eq_dec : EqDecision DirectoryV2.
Proof. solve_decision. Defined.
#[local] Program Instance directory_countable : Countable DirectoryV2 :=
  inj_countable' (λ m, (dv_v m, dv_buckets m)) (λ '(k, c), mkDirectoryV2 k c) _.
Next Obligation. by intros []. Qed.

#[local] Instance directory_dom_dec d : Decision (directory_dom d).
Proof. unfold directory_dom. apply _. Defined.
#[local] Instance manifest_dom_dec d : Decision (manifest_dom d).
Proof. unfold manifest_dom. apply _. Defined.
#[local] Instance members_dom_dec d : Decision (members_dom d).
Proof. unfold members_dom, member_dom. apply _. Defined.

Definition sample_directory_codec : Codec DirectoryV2 := count_codec DirectoryV2 directory_dom.
Definition sample_manifest_codec : Codec BucketManifest := count_codec BucketManifest manifest_dom.
Definition sample_members_codec : Codec (list IsccMember) := count_codec (list IsccMember) members_dom.
Definition sample_legacy_codec : Codec (gmap string Hash) :=
  {| ser _ := []; de _ := Err "no legacy directory" |}.
#[local] Existing Instances sample_directory_codec sample_manifest_codec sample_members_codec
  sample_legacy_codec sample_blake3.
#[local] Instance sample_directory_laws : CodecLaws DirectoryV2 directory_dom := count_codec_laws _ _.
#[local] Instance sample_manifest_laws : CodecLaws BucketManifest manifest_dom := count_codec_laws _ _.
#[local] Instance sample_members_laws : CodecLaws (list IsccMember) members_dom := count_codec_laws _ _.

Definition sample_index_run : result IsccStoreError Hash * Traced MemoryBlobStore :=
  iscc_insert_batch None (mkBandParams 2) sample_members sample_store.

Lemma sample_index_eq : iscc_insert_batch None (mkBandParams 2) sample_members sample_store
  = (Ok (run_value ZERO sample_index_run), sample_index_run.2).
Proof. apply run_ok. vm_compute. reflexivity. Qed.

Lemma sample_index_cf : CollisionFree (written sample_index_run.2).
Proof. apply collision_free_of_check. vm_compute. reflexivity. Qed.
#[local] Opaque sample_index_run iscc_insert_batch.

Lemma sample_members_dom : members_dom sample_members.
Proof. repeat constructor. Qed.

Lemma iscc_insert_indexes_witness :
  indexes (contents sample_index_run.2) (Some (run_value ZERO sample_index_run)) (mkBandParams 2)
    ([] ++ sample_members).
Proof.
  pose proof sample_index_cf as Hcf.
  apply (iscc_insert_indexes (written sample_index_run.2) None (mkBandParams 2) sample_members []
    sample_store).
  - exact sample_index_eq.
  - apply indexes_empty.
  - exact sample_members_dom.
  - apply sample_store_ok.
  - apply written_all.
Defined.

Lemma sample_indexes :
  indexes (contents sample_index_run.2) (Some (run_value ZERO sample_index_run)) (mkBandParams 2)
    sample_members.
Proof.
  pose proof sample_index_cf as Hcf.
  destruct (iscc_insert_rep (written sample_index_run.2) None (mkBandParams 2) sample_members
    (λ _, []) sample_store _ _ sample_index_eq) as (P & Hrep & HP);
    [by exists ∅|exact sample_members_dom|apply sample_store_ok|apply written_all|].
  exists P. split; [exact Hrep|]. intros k m. rewrite HP, elem_of_nil. tauto.
Qed.

End witnesses.
