(* ===== verification/Iscc.v ===== *)
(** Decoding ISCC strings to content codes: [crates/registry-core/src/iscc.rs].

    The [data-encoding] crate's unpadded Base32 and [serde_json] are the
    operations of the classes [Base32] and [SerdeJson].  Strings are their
    UTF-8 bytes; [trim] works on the encodings of the Unicode white-space
    characters. *)

From S2P Require Import Prelude.

Definition MAINTYPE_CONTENT : N := 2.
Definition MAINTYPE_ISCC : N := 5.

Inductive IsccError :=
| Empty
| Base32Error (msg : string)
| TooShort
| UnsupportedMainType (t : N)
| UnexpectedBodyLength (n : nat).

Class Base32 := {
  base32_encode : list byte → string;
  base32_decode : list byte → result string (list byte);
}.

(** [serde_json::Value]; an object is its entries in iteration order. *)
Inductive JsonValue :=
| JNull
| JBool (b : bool)
| JNumber (repr : string)
| JString (s : string)
| JArray (l : list JsonValue)
| JObject (fields : list (string * JsonValue)).

Class SerdeJson := {
  json_from_str : string → result string JsonValue;
  json_to_string : JsonValue → string;
}.

(** ** String operations *)

(** The white-space characters, UTF-8 encoded. *)
Definition whitespace : list (list byte) :=
  [[x09]; [x0a]; [x0b]; [x0c]; [x0d]; [x20]; [xc2; x85]; [xc2; xa0]; [xe1; x9a; x80];
   [xe2; x80; x80]; [xe2; x80; x81]; [xe2; x80; x82]; [xe2; x80; x83]; [xe2; x80; x84];
   [xe2; x80; x85]; [xe2; x80; x86]; [xe2; x80; x87]; [xe2; x80; x88]; [xe2; x80; x89];
   [xe2; x80; x8a]; [xe2; x80; xa8]; [xe2; x80; xa9]; [xe2; x80; xaf]; [xe2; x81; x9f];
   [xe3; x80; x80]].

Fixpoint strip_bytes (p l : list byte) : option (list byte) :=
  match p, l with
  | [], _ => Some l
  | a :: p, b :: l => if decide (a = b) then strip_bytes p l else None
  | _ :: _, [] => None
  end.

Fixpoint strip_first (ps : list (list byte)) (l : list byte) : option (list byte) :=
  match ps with
  | [] => None
  | p :: ps => match strip_bytes p l with Some r => Some r | None => strip_first ps l end
  end.

(** Strip any of [ps] from the front while one is there. *)
Fixpoint trim_front (fuel : nat) (ps : list (list byte)) (l : list byte) : list byte :=
  match fuel with
  | 0 => l
  | S fuel => match strip_first ps l with Some r => trim_front fuel ps r | None => l end
  end.

(** [str::trim] *)
Definition trim (l : list byte) : list byte :=
  let l := trim_front (length l) whitespace l in
  reverse (trim_front (length l) (reverse <$> whitespace) (reverse l)).

Definition ascii_upper (b : byte) : byte :=
  let n := to_N b in if ((97 <=? n) && (n <=? 122))%N%bool then byte_of_N (n - 32) else b.
Definition ascii_lower (b : byte) : byte :=
  let n := to_N b in if ((65 <=? n) && (n <=? 90))%N%bool then byte_of_N (n + 32) else b.

(** [a.eq_ignore_ascii_case(b)] *)
Definition eq_ignore_ascii_case (a b : string) : bool :=
  bool_decide (ascii_lower <$> str_bytes a = ascii_lower <$> str_bytes b).

(** [u64::from_be_bytes] and [u64::to_be_bytes] *)
Definition from_be_bytes (l : list byte) : N := foldl (λ acc b, acc * 256 + to_N b)%N 0%N l.
Definition to_be_bytes (n : N) : list byte :=
  (λ i, byte_of_N (N.shiftr n (8 * (7 - N.of_nat i)))) <$> seq 0 8.

Section iscc.
Context `{Base32}.

(** [decode_content_code] *)
Definition decode_content_code (iscc : string) : result IsccError N :=
  let trimmed := trim (str_bytes iscc) in
  if bool_decide (trimmed = []) then Err Empty
  else
    let without_scheme :=
      match strip_bytes (str_bytes "ISCC:") trimmed with
      | Some r => r
      | None => default trimmed (strip_bytes (str_bytes "iscc:") trimmed)
      end in
    let normalized := ascii_upper <$> trim without_scheme in
    bytes ← result_map_err Base32Error (base32_decode normalized);
    match bytes with
    | b0 :: _ :: body =>
        let maintype := N.shiftr (to_N b0) 4 in
        if (maintype =? MAINTYPE_CONTENT)%N then
          if length body <? 8 then Err (UnexpectedBodyLength (length body))
          else Ok (from_be_bytes (take 8 body))
        else if (maintype =? MAINTYPE_ISCC)%N then
          if negb (length body =? 32) then Err (UnexpectedBodyLength (length body))
          else Ok (from_be_bytes (take 8 (drop 8 body)))
        else Err (UnsupportedMainType maintype)
    | _ => Err TooShort
    end.

(** [encode_content_code_unit]: the bytes, and the string *)
Definition content_unit_bytes (code subtype : N) : list byte :=
  byte_of_N (N.lor (N.shiftl MAINTYPE_CONTENT 4) (N.land subtype 15)) :: x01 :: to_be_bytes code.
Definition encode_content_code_unit (code subtype : N) : string :=
  "ISCC:" +:+ base32_encode (content_unit_bytes code subtype).

Context `{SerdeJson}.

(** [extract_from_json] *)
Definition iscc_field (fields : list (string * JsonValue)) : option JsonValue :=
  match snd <$> list_find (λ kv, kv.1 = "ISCC") fields with
  | Some (_, v) => Some v
  | None => snd ∘ snd <$> list_find (λ kv, eq_ignore_ascii_case kv.1 "iscc" = true) fields
  end.

Definition extract_from_json (value : string) : option N :=
  parsed ← result_ok (json_from_str value);
  fields ← match parsed with JObject fields => Some fields | _ => None end;
  field ← iscc_field fields;
  iscc ← match field with JString s => Some s | _ => None end;
  result_ok (decode_content_code iscc).
End iscc.

(** Documented behaviour of unpadded Base32: decoding inverts encoding, and
    the output is made of the letters [A-Z] and the digits [2-7]. *)
Definition is_base32_char (b : byte) : bool :=
  let n := to_N b in (((65 <=? n) && (n <=? 90)) || ((50 <=? n) && (n <=? 55)))%N%bool.

Class Base32Laws `{Base32} := {
  base32_roundtrip l : base32_decode (str_bytes (base32_encode l)) = Ok l;
  base32_chars l : Forall (λ c, Is_true (is_base32_char c)) (str_bytes (base32_encode l));
  base32_nonempty l : l ≠ [] → base32_encode l ≠ "";
}.

(** ** Facts *)

Lemma strip_bytes_app p r : strip_bytes p (p ++ r) = Some r.
Proof. induction p as [|a p IH]; simpl; [by destruct r|]. by rewrite decide_True. Qed.

Lemma strip_bytes_Some p l r : strip_bytes p l = Some r → l = p ++ r.
Proof.
  revert l. induction p as [|a p IH]; intros l; simpl; [by intros [= ->]|].
  destruct l as [|b l]; [done|]. case_decide as E; [|done]. subst. intros ->%IH. done.
Qed.

(** Strings whose ends are not white space are left alone. *)
Definition solid (b : byte) : bool :=
  forallb (λ w, match w with c :: _ => negb (bool_decide (c = b)) | [] => false end)
    (whitespace ++ (reverse <$> whitespace)).

Lemma strip_first_solid ps b l :
  forallb (λ w, match w with c :: _ => negb (bool_decide (c = b)) | [] => false end) ps = true →
  strip_first ps (b :: l) = None.
Proof.
  induction ps as [|p ps IH]; simpl; [done|]. destruct p as [|c p]; [done|].
  rewrite andb_true_iff. intros [Hc Hps]. simpl. rewrite decide_False; [by apply IH|].
  intros ->. by rewrite bool_decide_true in Hc.
Qed.

Lemma trim_front_solid fuel ps b l :
  forallb (λ w, match w with c :: _ => negb (bool_decide (c = b)) | [] => false end) ps = true →
  trim_front fuel ps (b :: l) = b :: l.
Proof. destruct fuel; simpl; [done|]. intros Hs. by rewrite strip_first_solid. Qed.

Lemma trim_solid l : l ≠ [] → Forall (λ b, solid b = true) l → trim l = l.
Proof.
  intros Hne Hs. unfold trim.
  destruct l as [|b l]; [done|]. rewrite Forall_cons in Hs. destruct Hs as [Hb Hs].
  pose proof Hb as Hb'. unfold solid in Hb'. rewrite forallb_app, andb_true_iff in Hb'.
  rewrite trim_front_solid by tauto.
  destruct (reverse (b :: l)) as [|c r] eqn:Er.
  { apply (f_equal length) in Er. rewrite length_reverse in Er. done. }
  assert (solid c = true) as Hc.
  { assert (c ∈ b :: l) as Hin by (rewrite <-(reverse_involutive (b :: l)), Er; apply elem_of_reverse; by left).
    apply elem_of_cons in Hin as [->|Hin]; [done|]. rewrite Forall_forall in Hs. by apply Hs. }
  unfold solid in Hc. rewrite forallb_app, andb_true_iff in Hc.
  rewrite trim_front_solid by tauto. by rewrite <-Er, reverse_involutive.
Qed.

Lemma base32_char_solid b : Is_true (is_base32_char b) → solid b = true.
Proof. destruct b; vm_compute; intros H; try reflexivity; destruct H. Qed.
Lemma base32_char_upper b : Is_true (is_base32_char b) → ascii_upper b = b.
Proof. destruct b; vm_compute; intros H; try reflexivity; destruct H. Qed.
Lemma base32_char_lower b : Is_true (is_base32_char b) → ascii_upper (ascii_lower b) = b ∧ solid (ascii_lower b) = true.
Proof. destruct b; vm_compute; intros H; try (split; reflexivity); destruct H. Qed.

Lemma to_be_bytes_length n : length (to_be_bytes n) = 8.
Proof. unfold to_be_bytes. by rewrite length_fmap, length_seq. Qed.

Lemma from_be_bytes_prefix n k :
  (n < 2 ^ 64)%N → k ≤ 8 →
  from_be_bytes ((λ i, byte_of_N (N.shiftr n (8 * (7 - N.of_nat i)))) <$> seq 0 k)
  = (n / 2 ^ (8 * (8 - N.of_nat k)))%N.
Proof.
  intros Hn. induction k as [|k IH]; intros Hk.
  { symmetry. by apply N.div_small. }
  rewrite seq_S, fmap_app. unfold from_be_bytes in *. rewrite foldl_app, IH by lia.
  cbn [fmap list_fmap foldl]. rewrite to_byte_of_N, N.shiftr_div_pow2. rewrite Nat.add_0_l.
  replace (8 - N.of_nat (S k))%N with (7 - N.of_nat k)%N by lia.
  replace (8 * (8 - N.of_nat k))%N with (8 * (7 - N.of_nat k) + 8)%N by lia.
  rewrite N.pow_add_r, <-N.Div0.div_div. change (2 ^ 8)%N with 256%N.
  pose proof (N.div_mod (n / 2 ^ (8 * (7 - N.of_nat k))) 256 ltac:(lia)). lia.
Qed.

Lemma from_to_be_bytes n : (n < 2 ^ 64)%N → from_be_bytes (to_be_bytes n) = n.
Proof.
  intros Hn. unfold to_be_bytes. rewrite from_be_bytes_prefix by (done || lia). apply N.div_1_r.
Qed.

Section roundtrip.
Context `{Base32, !Base32Laws}.

Lemma content_unit_maintype subtype :
  N.shiftr (to_N (byte_of_N (N.lor (N.shiftl MAINTYPE_CONTENT 4) (N.land subtype 15)))) 4
  = MAINTYPE_CONTENT.
Proof.
  assert (N.land subtype 15 < 16)%N as Hx.
  { change 15%N with (N.ones 4). rewrite N.land_ones. apply N.mod_upper_bound. lia. }
  revert Hx. generalize (N.land subtype 15). intros x Hx.
  assert (x = 0%N ∨ x = 1%N ∨ x = 2%N ∨ x = 3%N ∨ x = 4%N ∨ x = 5%N ∨ x = 6%N ∨ x = 7%N ∨
    x = 8%N ∨ x = 9%N ∨ x = 10%N ∨ x = 11%N ∨ x = 12%N ∨ x = 13%N ∨ x = 14%N ∨ x = 15%N) as Hcase by lia.
  destruct_or! Hcase; subst x; reflexivity.
Qed.

(** The decoder on a scheme and a body that is the encoding up to case. *)
Lemma decode_unit scheme body code subtype :
  (code < 2 ^ 64)%N →
  scheme = str_bytes "ISCC:" ∨ scheme = str_bytes "iscc:" ∨ scheme = [] →
  Forall (λ b, solid b = true ∧ b ≠ x3a) body →
  ascii_upper <$> body = str_bytes (base32_encode (content_unit_bytes code subtype)) →
  decode_content_code (str_of_bytes (scheme ++ body)) = Ok code.
Proof.
  intros Hc Hs Hb Hu. unfold decode_content_code. rewrite str_bytes_of_bytes. cbv zeta.
  assert (body ≠ []) as Hne.
  { intros ->. apply (base32_nonempty (content_unit_bytes code subtype)); [done|].
    apply (inj str_bytes). by rewrite <-Hu. }
  assert (Forall (λ b, solid b = true) body) as Hsol by (eapply Forall_impl; [exact Hb|]; naive_solver).
  assert (trim (scheme ++ body) = scheme ++ body) as ->.
  { apply trim_solid; [by intros [_ ?]%app_nil|]. apply Forall_app. split; [|done].
    destruct Hs as [->|[->| ->]]; repeat constructor. }
  rewrite bool_decide_false by by intros [_ ?]%app_nil.
  assert (∀ p r, strip_bytes (p ++ [x3a]) body = Some r → False) as Hno.
  { intros p r Hst%strip_bytes_Some. rewrite Forall_forall in Hb. destruct (Hb x3a) as [_ Hx]; [|done].
    rewrite Hst, !elem_of_app, list_elem_of_singleton. auto. }
  assert (match strip_bytes (str_bytes "ISCC:") (scheme ++ body) with
    | Some r => r
    | None => default (scheme ++ body) (strip_bytes (str_bytes "iscc:") (scheme ++ body)) end = body) as ->.
  { destruct Hs as [->|[->| ->]].
    - by rewrite strip_bytes_app.
    - by destruct body.
    - simpl app. destruct (strip_bytes (str_bytes "ISCC:") body) eqn:E1.
      { by apply (Hno (str_bytes "ISCC")) in E1. }
      destruct (strip_bytes (str_bytes "iscc:") body) eqn:E2; [|done].
      by apply (Hno (str_bytes "iscc")) in E2. }
  rewrite trim_solid by done. rewrite Hu, base32_roundtrip. simpl result_map_err.
  unfold mbind, result_bind, content_unit_bytes. rewrite content_unit_maintype, N.eqb_refl.
  rewrite to_be_bytes_length. simpl Nat.ltb. cbv iota.
  rewrite take_ge by by rewrite to_be_bytes_length. by rewrite from_to_be_bytes.
Qed.

Lemma encoded_chars l (f : byte → byte) :
  (∀ b, Is_true (is_base32_char b) → solid (f b) = true ∧ f b ≠ x3a) →
  Forall (λ b, solid b = true ∧ b ≠ x3a) (f <$> str_bytes (base32_encode l)).
Proof.
  intros Hf. apply Forall_fmap. eapply Forall_impl; [apply base32_chars|]. intros b Hb. by apply Hf.
Qed.

Lemma base32_char_colon b : Is_true (is_base32_char b) → b ≠ x3a ∧ ascii_lower b ≠ x3a.
Proof. destruct b; vm_compute; intros H'; try (split; discriminate); destruct H'. Qed.

Lemma upper_id l : ascii_upper <$> str_bytes (base32_encode l) = str_bytes (base32_encode l).
Proof.
  pose proof (base32_chars l) as Hc. induction Hc as [|b bs Hb _ IH]; [done|].
  rewrite fmap_cons, IH. by rewrite base32_char_upper.
Qed.

Lemma upper_lower l :
  ascii_upper <$> (ascii_lower <$> str_bytes (base32_encode l)) = str_bytes (base32_encode l).
Proof.
  pose proof (base32_chars l) as Hc. induction Hc as [|b bs Hb _ IH]; [done|].
  rewrite !fmap_cons, IH. by rewrite (proj1 (base32_char_lower b Hb)).
Qed.
End roundtrip.
