(* ===== verification/CidKey.v ===== *)
(** Record keys: [crates/registry-core/src/cidkey.rs].

    The [cid] crate is the operation of the class [CidCrate]: parsing, and
    the version of a parsed identifier. *)

From S2P Require Import Prelude.

Class CidCrate := {
  Cid : Type;
  Cid_from_str : string → result string Cid;
  (** [cid.version()], as its number *)
  Cid_version : Cid → N;
}.

Inductive CidKeyError :=
| InvalidCid (msg : string)
| WrongVersion (v : N).

Definition ALPHABET : list byte := str_bytes "abcdefghijklmnopqrstuvwxyz234567".

(** [ALPHABET.iter().position(|&a| a == ch)] *)
Definition alphabet_position (ch : byte) : option N :=
  N.of_nat ∘ fst <$> list_find (λ a, a = ch) ALPHABET.

(** [for b in bytes.iter_mut() { carry += b << 5; .. }], in [u32] *)
Fixpoint carry_pass (bytes : list byte) (carry : N) : list byte * N :=
  match bytes with
  | [] => ([], carry)
  | b :: bytes =>
      let carry := wrap32 (carry + N.shiftl (to_N b) 5) in
      let '(rest, out) := carry_pass bytes (N.shiftr carry 8) in
      (byte_of_N (N.land carry 255) :: rest, out)
  end.

(** [while carry > 0 { bytes.push(..); carry >>= 8; }]: a [u32] has four
    bytes. *)
Fixpoint push_carry (fuel : nat) (bytes : list byte) (carry : N) : list byte :=
  match fuel with
  | 0 => bytes
  | S fuel =>
      if (0 <? carry)%N then push_carry fuel (bytes ++ [byte_of_N (N.land carry 255)]) (N.shiftr carry 8)
      else bytes
  end.

Definition decode_step (bytes : list byte) (ch : byte) : option (list byte) :=
  carry ← alphabet_position ch;
  let '(bytes, carry) := carry_pass bytes carry in
  Some (push_carry 4 bytes carry).

Fixpoint decode_loop (bytes input : list byte) : option (list byte) :=
  match input with
  | [] => Some bytes
  | ch :: input => bytes ← decode_step bytes ch; decode_loop bytes input
  end.

Fixpoint leading (c : byte) (l : list byte) : nat :=
  match l with
  | [] => 0
  | x :: l => if decide (x = c) then S (leading c l) else 0
  end.

(** [base_x_decode_b32] *)
Definition base_x_decode_b32 (input : string) : option (list byte) :=
  bytes ← decode_loop [] (str_bytes input);
  Some (reverse (bytes ++ replicate (leading x61 (str_bytes input)) x00)).

(** [is_legacy_declaration_id] *)
Definition is_legacy_declaration_id (s : string) : bool :=
  if negb (length (str_bytes s) =? 57) then false
  else match base_x_decode_b32 s with
       | None => false
       | Some bytes =>
           (length bytes =? 36) && bool_decide (take 4 bytes = [x01; x0c; x12; x20])
       end.

Section cid.
Context `{CidCrate}.

Definition validate_cidv1 (s : string) : result CidKeyError Cid :=
  cid ← result_map_err InvalidCid (Cid_from_str s);
  if negb (Cid_version cid =? 1)%N then Err (WrongVersion (Cid_version cid)) else Ok cid.

Definition is_valid_cidv1 (s : string) : bool := is_ok (validate_cidv1 s).

Definition is_valid_record_key (s : string) : bool :=
  is_valid_cidv1 s || is_legacy_declaration_id s.
End cid.

(** ** What the decoder computes *)

(** Little-endian and big-endian values. *)
Definition le_value (l : list byte) : N := foldr (λ b acc, to_N b + 256 * acc)%N 0%N l.
Definition be_value (l : list byte) : N := foldl (λ acc b, acc * 256 + to_N b)%N 0%N l.

#[local] Arguments push_carry : simpl never.

(** The value of a string of base-32 digits, most significant first. *)
Definition digits32_value (ds : list N) : N := foldl (λ acc d, acc * 32 + d)%N 0%N ds.

Lemma le_value_app l k : le_value (l ++ k) = (le_value l + 256 ^ N.of_nat (length l) * le_value k)%N.
Proof.
  induction l as [|b l IH]; [simpl; lia|]. simpl. fold (le_value (l ++ k)) (le_value l).
  rewrite IH, Nat2N.inj_succ, N.pow_succ_r'. lia.
Qed.

Lemma le_value_singleton b : le_value [b] = to_N b.
Proof. change (le_value [b]) with (to_N b + 256 * 0)%N. lia. Qed.

Lemma be_value_reverse l : be_value (reverse l) = le_value l.
Proof.
  unfold be_value. induction l as [|b l IH]; [done|].
  rewrite reverse_cons, foldl_app, IH. simpl. lia.
Qed.

Lemma land_255 n : N.land n 255 = (n mod 256)%N.
Proof. change 255%N with (N.ones 8). by rewrite N.land_ones. Qed.

Lemma byte_of_land n : to_N (byte_of_N (N.land n 255)) = (n mod 256)%N.
Proof. by rewrite to_byte_of_N, land_255, N.Div0.mod_mod. Qed.

(** The carry stays below [2^13], far from the [u32] bound. *)
Lemma carry_pass_spec bytes carry out c :
  carry_pass bytes carry = (out, c) → (carry < 32)%N →
  length out = length bytes ∧ (c < 32)%N ∧
  (le_value out + 256 ^ N.of_nat (length bytes) * c = 32 * le_value bytes + carry)%N.
Proof.
  revert carry out c. induction bytes as [|b bytes IH]; intros carry out c; simpl.
  { intros [= <- <-] Hc. simpl. split_and!; [done|done|lia]. }
  intros Hr Hc. pose proof (to_N_bounded b) as Hb.
  assert (N.shiftl (to_N b) 5 = 32 * to_N b)%N as Hs by (rewrite N.shiftl_mul_pow2; lia).
  rewrite Hs, wrap32_small in Hr by (change (2 ^ 32)%N with 4294967296%N; lia).
  rewrite N.shiftr_div_pow2 in Hr. change (2 ^ 8)%N with 256%N in Hr.
  set (v := (carry + 32 * to_N b)%N) in *.
  destruct (carry_pass bytes (v / 256)) as [rest c1] eqn:E. injection Hr as <- <-.
  assert (v / 256 < 32)%N as Hv by (apply N.Div0.div_lt_upper_bound; unfold v; lia).
  destruct (IH _ _ _ E Hv) as (Hl & Hc1 & Heq). simpl. split_and!; [by rewrite Hl|done|].
  rewrite byte_of_land. pose proof (N.div_mod v 256 ltac:(lia)) as Hdm.
  fold (le_value rest) (le_value bytes). rewrite Nat2N.inj_succ, N.pow_succ_r'. unfold v in *. nia.
Qed.

(** A carry below 256 is one byte or none. *)
Lemma push_carry_small fuel bytes c :
  (c < 256)%N → 0 < fuel →
  push_carry fuel bytes c = if (0 <? c)%N then bytes ++ [byte_of_N c] else bytes.
Proof.
  intros Hc Hf. destruct fuel as [|fuel]; [lia|]. unfold push_carry; fold push_carry.
  destruct (0 <? c)%N eqn:E; [|done].
  rewrite land_255, N.mod_small by lia. rewrite N.shiftr_div_pow2, N.div_small by done.
  by destruct fuel.
Qed.

(** The accumulated bytes have no most-significant zero. *)
Definition normal (bytes : list byte) : Prop := last bytes ≠ Some x00.

Lemma carry_pass_last bytes carry out c :
  carry_pass bytes carry = (out, c) → (carry < 32)%N → normal bytes → c = 0%N → normal out.
Proof.
  intros Hr Hc Hn ->. destruct (carry_pass_spec _ _ _ _ Hr Hc) as (Hl & _ & Heq).
  unfold normal in *. intros Hlast.
  destruct out as [|x out _] using rev_ind; [done|]. rewrite last_snoc in Hlast. injection Hlast as ->.
  destruct bytes as [|y bytes _] using rev_ind; [rewrite length_app in Hl; simpl in Hl; lia|].
  rewrite last_snoc in Hn. rewrite !length_app in Hl. simpl in Hl.
  rewrite !le_value_app in Heq. simpl in Heq.
  assert (length out = length bytes) as Hlen by lia. rewrite Hlen in Heq.
  assert (le_value out < 256 ^ N.of_nat (length bytes))%N as Hub.
  { rewrite <-Hlen. clear. induction out as [|b out IH]; [simpl; lia|].
    simpl. fold (le_value out). pose proof (to_N_bounded b).
    rewrite Nat2N.inj_succ, N.pow_succ_r'. lia. }
  assert (0 < to_N y)%N as Hy.
  { destruct (decide (to_N y = 0%N)) as [Hz|]; [|lia]. destruct Hn. f_equal.
    apply byte_idx_inj. unfold byte_idx. by rewrite Hz. }
  nia.
Qed.

Lemma alphabet_position_lt ch d : alphabet_position ch = Some d → (d < 32)%N.
Proof.
  unfold alphabet_position. intros ([i x] & Hf & Hd)%fmap_Some. simpl in Hd. subst d.
  apply list_find_Some in Hf as (Hi & _). apply lookup_lt_Some in Hi.
  change (length ALPHABET) with 32 in Hi. lia.
Qed.

Lemma decode_step_spec bytes ch out :
  decode_step bytes ch = Some out → normal bytes →
  ∃ d, alphabet_position ch = Some d ∧ (le_value out = 32 * le_value bytes + d)%N ∧ normal out.
Proof.
  unfold decode_step. destruct (alphabet_position ch) as [d|] eqn:Ed; [|done]. cbn [mbind option_bind].
  pose proof (alphabet_position_lt _ _ Ed) as Hd.
  destruct (carry_pass bytes d) as [bs c] eqn:Ec. intros <-%(inj Some) Hn.
  destruct (carry_pass_spec _ _ _ _ Ec Hd) as (Hl & Hc & Heq).
  exists d. split; [done|]. rewrite push_carry_small by lia.
  destruct (N.ltb_spec 0 c) as [Hpos|Hz].
  - split.
    + rewrite le_value_app, le_value_singleton, to_byte_of_N, N.mod_small by lia. rewrite Hl. lia.
    + unfold normal. rewrite last_snoc. intros Hb%(inj Some)%(f_equal to_N).
      rewrite to_byte_of_N, N.mod_small in Hb by lia. change (to_N x00) with 0%N in Hb. lia.
  - assert (c = 0%N) as -> by lia. split; [lia|]. by eapply carry_pass_last.
Qed.

Lemma decode_loop_spec bytes input out :
  decode_loop bytes input = Some out → normal bytes →
  ∃ ds, mapM alphabet_position input = Some ds ∧ normal out ∧
    le_value out = foldl (λ acc d, acc * 32 + d)%N (le_value bytes) ds.
Proof.
  revert bytes. induction input as [|ch input IH]; intros bytes; simpl.
  { intros [= <-] Hn. by exists []. }
  destruct (decode_step bytes ch) as [bs|] eqn:E; [|done]. simpl. intros Hr Hn.
  destruct (decode_step_spec _ _ _ E Hn) as (d & Hd & Hv & Hn').
  destruct (IH _ Hr Hn') as (ds & Hds & Hno & Hval). exists (d :: ds). rewrite Hd. simpl. rewrite Hds. simpl.
  split_and!; [done|done|]. rewrite Hval, Hv. do 2 f_equal. lia.
Qed.

Lemma decode_loop_total bytes input ds :
  mapM alphabet_position input = Some ds → ∃ out, decode_loop bytes input = Some out.
Proof.
  revert bytes ds. induction input as [|ch input IH]; intros bytes ds; simpl; [by eexists|].
  unfold decode_step. destruct (alphabet_position ch) as [d|]; [|done]. simpl.
  destruct (carry_pass bytes d) as [bs c]. destruct (mapM alphabet_position input) as [ds'|]; [|done].
  intros _. eapply IH. done.
Qed.

(** ** Legacy identifiers *)

Lemma le_value_cons b l : le_value (b :: l) = (to_N b + 256 * le_value l)%N.
Proof. reflexivity. Qed.

Lemma normal_cons b l : normal (b :: l) → l ≠ [] → normal l.
Proof. unfold normal. destruct l as [|c l]; [done|]. by rewrite last_cons_cons. Qed.

Lemma to_N_inj b1 b2 : to_N b1 = to_N b2 → b1 = b2.
Proof. intros H. apply byte_idx_inj. unfold byte_idx. by rewrite H. Qed.

Lemma normal_zero l : normal l → le_value l = 0%N → l = [].
Proof.
  induction l as [|b l IH]; intros Hn Hv; [done|]. rewrite le_value_cons in Hv.
  destruct l as [|c l].
  - exfalso. apply Hn. simpl. f_equal. apply to_N_inj. change (to_N x00) with 0%N. lia.
  - apply normal_cons in Hn; [|done]. specialize (IH Hn ltac:(lia)). done.
Qed.

Lemma normal_inj l1 l2 : normal l1 → normal l2 → le_value l1 = le_value l2 → l1 = l2.
Proof.
  revert l2. induction l1 as [|b1 l1 IH]; intros l2 Hn1 Hn2 Heq.
  { symmetry. by apply normal_zero. }
  destruct l2 as [|b2 l2]; [by apply normal_zero|].
  rewrite !le_value_cons in Heq. pose proof (to_N_bounded b1). pose proof (to_N_bounded b2).
  assert (to_N b1 = to_N b2) as Hb by lia. apply to_N_inj in Hb as ->. f_equal.
  apply IH; [| |lia].
  - destruct l1; [done|]. by eapply normal_cons.
  - destruct l2; [done|]. by eapply normal_cons.
Qed.

Lemma digits32_snoc ds d : digits32_value (ds ++ [d]) = (digits32_value ds * 32 + d)%N.
Proof. unfold digits32_value. by rewrite foldl_app. Qed.

Lemma digits32_lt ds : Forall (λ d, d < 32)%N ds → (digits32_value ds < 32 ^ N.of_nat (length ds))%N.
Proof.
  induction ds as [|d ds IH] using rev_ind; intros Hds; [reflexivity|].
  apply Forall_app in Hds as [Hds Hd]. apply Forall_cons in Hd as [Hd _].
  rewrite digits32_snoc, length_app, Nat.add_1_r, Nat2N.inj_succ, N.pow_succ_r'.
  specialize (IH Hds). revert IH Hd. generalize (32 ^ N.of_nat (length ds))%N (digits32_value ds). lia.
Qed.

Lemma digits32_inj ds1 ds2 :
  Forall (λ d, d < 32)%N ds1 → Forall (λ d, d < 32)%N ds2 → length ds1 = length ds2 →
  digits32_value ds1 = digits32_value ds2 → ds1 = ds2.
Proof.
  revert ds2. induction ds1 as [|d1 ds1 IH] using rev_ind; intros ds2 H1 H2 Hl Hv.
  { symmetry. by apply nil_length_inv. }
  destruct ds2 as [|d2 ds2 _] using rev_ind; [rewrite length_app in Hl; simpl in Hl; lia|].
  apply Forall_app in H1 as [H1 Hd1]. apply Forall_cons in Hd1 as [Hd1 _].
  apply Forall_app in H2 as [H2 Hd2]. apply Forall_cons in Hd2 as [Hd2 _].
  rewrite !length_app in Hl. simpl in Hl. rewrite !digits32_snoc in Hv.
  assert (d1 = d2) as -> by lia. f_equal. apply IH; [done|done|lia|lia].
Qed.

Lemma digits32_leading0 ds :
  Forall (λ d, d < 32)%N ds → (digits32_value (0%N :: ds) < 32 ^ N.of_nat (length ds))%N.
Proof. intros Hds. change (digits32_value (0%N :: ds)) with (digits32_value ds). by apply digits32_lt. Qed.

Lemma mapM_digits input ds : mapM alphabet_position input = Some ds →
  Forall (λ d, d < 32)%N ds ∧ length ds = length input.
Proof.
  intros Hm. apply mapM_Some in Hm. split; [|symmetry; by eapply Forall2_length].
  induction Hm as [|c d input ds Hc _ IH]; constructor; [|done]. by eapply alphabet_position_lt.
Qed.

Lemma alphabet_position_char ch d : alphabet_position ch = Some d → ALPHABET !! N.to_nat d = Some ch.
Proof.
  unfold alphabet_position. intros ([i x] & Hf & Hd)%fmap_Some. simpl in Hd. subst d.
  apply list_find_Some in Hf as (Hi & -> & _). by rewrite Nat2N.id.
Qed.

Lemma mapM_alphabet_inj i1 i2 ds :
  mapM alphabet_position i1 = Some ds → mapM alphabet_position i2 = Some ds → i1 = i2.
Proof.
  intros H1%mapM_Some H2%mapM_Some. revert i2 H2.
  induction H1 as [|c d i1 ds Hc _ IH]; intros i2 H2; inversion H2 as [|c2 ? i2' ? Hc2 H2']; subst; [done|].
  apply alphabet_position_char in Hc, Hc2. f_equal; [congruence|by apply IH].
Qed.

Lemma leading_zero ch l ds :
  mapM alphabet_position (ch :: l) = Some ds → head ds ≠ Some 0%N → leading x61 (ch :: l) = 0.
Proof.
  simpl. destruct (decide (ch = x61)) as [->|]; [|done].
  change (alphabet_position x61) with (Some 0%N). simpl.
  destruct (mapM alphabet_position l); simpl; [|done]. by intros [= <-].
Qed.

Definition legacy_header : list byte := [x01; x0c; x12; x20].

(** The decoder on the digits of a payload that starts with a non-zero byte. *)
Lemma base_x_decode_payload s ds payload :
  mapM alphabet_position (str_bytes s) = Some ds → length ds = 57 →
  digits32_value ds = be_value payload → length payload = 36 → head payload = Some x01 →
  base_x_decode_b32 s = Some payload.
Proof.
  intros Hm Hlen Hv Hpl Hhd. unfold base_x_decode_b32.
  destruct (decode_loop_total [] _ _ Hm) as [out Hout]. rewrite Hout. simpl.
  destruct (decode_loop_spec _ _ _ Hout) as (ds' & Hm' & Hn & Hval); [by unfold normal|].
  assert (ds' = ds) as -> by congruence.
  destruct payload as [|b payload]; [done|]. injection Hhd as ->.
  assert (out = reverse (x01 :: payload)) as ->.
  { apply normal_inj; [done| |].
    - unfold normal. rewrite reverse_cons, last_snoc. done.
    - rewrite Hval, <-(be_value_reverse (reverse _)), reverse_involutive. exact Hv. }
  destruct (mapM_digits _ _ Hm) as [Hds Hl].
  assert (leading x61 (str_bytes s) = 0) as ->.
  { destruct (str_bytes s) as [|ch l]; [done|]. apply (leading_zero ch l ds Hm). intros H0.
    destruct ds as [|d ds]; [done|]. injection H0 as ->.
    apply Forall_cons in Hds as [_ Hds]. pose proof (digits32_leading0 ds Hds) as Hlt.
    rewrite Hv in Hlt. injection Hlen as Hlen. rewrite Hlen in Hlt.
    injection Hpl as Hpl. rewrite <-(reverse_involutive (x01 :: payload)), be_value_reverse in Hlt.
    rewrite reverse_cons, le_value_app, le_value_singleton, length_reverse, Hpl in Hlt.
    assert (32 ^ N.of_nat 56 = 256 ^ N.of_nat 35)%N as He by reflexivity.
    rewrite He in Hlt. change (to_N x01) with 1%N in Hlt. lia. }
  simpl. by rewrite app_nil_r, reverse_involutive.
Qed.

Lemma base_x_decode_value s bytes :
  base_x_decode_b32 s = Some bytes →
  ∃ ds, mapM alphabet_position (str_bytes s) = Some ds ∧ digits32_value ds = be_value bytes.
Proof.
  unfold base_x_decode_b32. destruct (decode_loop [] (str_bytes s)) as [out|] eqn:E; [|done]. simpl.
  intros [= <-]. destruct (decode_loop_spec _ _ _ E) as (ds & Hm & _ & Hval); [by unfold normal|].
  exists ds. split; [done|]. rewrite be_value_reverse, le_value_app.
  assert (∀ k, le_value (replicate k x00) = 0%N) as ->.
  { induction k as [|k IH]; [done|]. simpl replicate. rewrite le_value_cons, IH. done. }
  change (le_value []) with 0%N in Hval. fold (digits32_value ds) in Hval. rewrite <-Hval. lia.
Qed.

Lemma is_legacy_iff s :
  is_legacy_declaration_id s = true ↔
  ∃ ds digest, mapM alphabet_position (str_bytes s) = Some ds ∧ length ds = 57 ∧
    length digest = 32 ∧ digits32_value ds = be_value (legacy_header ++ digest).
Proof.
  unfold is_legacy_declaration_id. split.
  - destruct (Nat.eqb_spec (length (str_bytes s)) 57) as [Hl|]; [|done]. simpl.
    destruct (base_x_decode_b32 s) as [bytes|] eqn:E; [|done].
    rewrite andb_true_iff, Nat.eqb_eq, bool_decide_eq_true. intros [H36 H4].
    destruct (base_x_decode_value _ _ E) as (ds & Hm & Hv).
    exists ds, (drop 4 bytes). split_and!; [done| |rewrite length_drop; lia|].
    + apply mapM_digits in Hm as [_ ->]. done.
    + rewrite Hv. f_equal. rewrite <-(take_drop 4 bytes) at 1. by rewrite H4.
  - intros (ds & digest & Hm & Hl & Hd & Hv). pose proof (mapM_digits _ _ Hm) as [_ Hls].
    rewrite <-Hls, Hl. simpl negb. cbv iota.
    rewrite (base_x_decode_payload s ds (legacy_header ++ digest)); [|done|done|done| |done].
    + rewrite length_app, Hd. reflexivity.
    + rewrite length_app, Hd. done.
Qed.
