(* ===== verification/CodesSpec.v ===== *)
(** What the codecs of keys, codes and hashes promise:
    [crates/registry-core/src/iscc.rs], [cidkey.rs], [hash.rs] and
    [partition.rs]. *)

From S2P Require Import Prelude Hash Partition Iscc CidKey Samples.

(** ** Content codes *)

(** C35: Decoding inverts encoding: for every 64-bit code and subtype, the
    encoded unit decodes to the code, as written, in lower case, with the
    scheme in either case, and without a scheme. *)
Theorem content_code_roundtrip `{Base32, !Base32Laws} code subtype scheme lower :
  (code < 2 ^ 64)%N → scheme ∈ ["ISCC:"; "iscc:"; ""] →
  let unit := str_bytes (base32_encode (content_unit_bytes code subtype)) in
  let body := if lower : bool then ascii_lower <$> unit else unit in
  decode_content_code (encode_content_code_unit code subtype) = Ok code ∧
  decode_content_code (scheme +:+ str_of_bytes body) = Ok code.
Proof.
  intros Hc Hs unit body. unfold encode_content_code_unit.
  assert (∀ sch b, sch ∈ ["ISCC:"; "iscc:"; ""] → b = unit ∨ b = ascii_lower <$> unit →
    decode_content_code (sch +:+ str_of_bytes b) = Ok code) as Hall.
  { intros sch b Hsch Hb.
    rewrite <-(str_of_bytes_of (sch +:+ _)), str_bytes_app, str_bytes_of_bytes.
    apply (decode_unit _ _ code subtype); [done| | |].
    - repeat (apply elem_of_cons in Hsch as [->|Hsch]; [auto|]). by apply elem_of_nil in Hsch.
    - destruct Hb as [->| ->].
      + rewrite <-(list_fmap_id unit). apply encoded_chars. intros x Hx. simpl.
        split; [by apply base32_char_solid|by apply base32_char_colon].
      + apply encoded_chars. intros x Hx.
        split; [by apply base32_char_lower|by apply base32_char_colon].
    - destruct Hb as [->| ->]; [apply upper_id|apply upper_lower]. }
  split.
  - rewrite <-(str_of_bytes_of (base32_encode _)). apply Hall; [by left|by left].
  - apply Hall; [done|]. unfold body. destruct lower; auto.
Qed.

(** ** Legacy declaration ids *)

(** The encoder the decoder is for: 57 base-32 digits of the 36 bytes. *)
Fixpoint digits32 (n : nat) (v : N) : list N :=
  match n with 0 => [] | S n => digits32 n (v / 32) ++ [(v mod 32)%N] end.
Definition digit32_char (d : N) : byte := default x00 (ALPHABET !! N.to_nat d).
Definition legacy_id (digest : list byte) : string :=
  str_of_bytes (digit32_char <$> digits32 57 (be_value (legacy_header ++ digest))).

Lemma digits32_ok n v :
  length (digits32 n v) = n ∧ Forall (λ d, d < 32)%N (digits32 n v) ∧
  ((v < 32 ^ N.of_nat n)%N → digits32_value (digits32 n v) = v).
Proof.
  revert v. induction n as [|n IH]; intros v.
  { split_and!; [done|constructor|]. simpl. intros Hv. unfold digits32_value. simpl. lia. }
  simpl digits32. destruct (IH (v / 32)%N) as (Hl & Hd & Hv). split_and!.
  - rewrite length_app, Hl. simpl. lia.
  - apply Forall_app. split; [done|]. repeat constructor. apply N.mod_upper_bound. lia.
  - intros Hlt. rewrite digits32_snoc, Hv; [pose proof (N.div_mod v 32 ltac:(lia)); lia|].
    apply N.Div0.div_lt_upper_bound. rewrite Nat2N.inj_succ, N.pow_succ_r' in Hlt. done.
Qed.

Lemma digit32_char_position d : (d < 32)%N → alphabet_position (digit32_char d) = Some d.
Proof.
  intros Hd. assert (Forall (λ d, alphabet_position (digit32_char d) = Some d) (N.of_nat <$> seq 0 32)) as Hall.
  { apply (bool_decide_unpack _). vm_compute. exact I. }
  rewrite Forall_forall in Hall. apply Hall. apply list_elem_of_fmap. exists (N.to_nat d).
  rewrite N2Nat.id, elem_of_seq. split; [done|lia].
Qed.

Lemma be_value_lt l : (be_value l < 256 ^ N.of_nat (length l))%N.
Proof.
  rewrite <-(reverse_involutive l), be_value_reverse, length_reverse.
  induction (reverse l) as [|b k IH]; [done|]. rewrite le_value_cons. simpl length.
  rewrite Nat2N.inj_succ, N.pow_succ_r'. pose proof (to_N_bounded b). nia.
Qed.

Lemma legacy_value_lt digest : length digest = 32 → (be_value (legacy_header ++ digest) < 32 ^ 57)%N.
Proof.
  intros Hl. assert (be_value (legacy_header ++ digest) < 2 * 256 ^ 35)%N as Hlt.
  { rewrite <-(reverse_involutive (_ ++ _)), be_value_reverse.
    change (legacy_header ++ digest) with (x01 :: ([x0c; x12; x20] ++ digest)).
    rewrite reverse_cons, le_value_app, le_value_singleton, length_reverse, <-be_value_reverse,
      reverse_involutive.
    pose proof (be_value_lt ([x0c; x12; x20] ++ digest)) as Hb.
    rewrite length_app, Hl in *. change (to_N x01) with 1%N.
    change (N.of_nat (length [x0c; x12; x20] + 32)) with 35%N in *. lia. }
  assert (2 * 256 ^ 35 < 32 ^ 57)%N by reflexivity. lia.
Qed.

(** C34: The legacy key check is exact: the strings it accepts are the base-32
    encodings of the 32-byte digests under the fixed header, one for each
    digest, and different digests have different ids. *)
Theorem legacy_ids_exact :
  (∀ s, is_legacy_declaration_id s = true ↔ ∃ digest, length digest = 32 ∧ s = legacy_id digest) ∧
  (∀ d1 d2, length d1 = 32 → length d2 = 32 → legacy_id d1 = legacy_id d2 → d1 = d2).
Proof.
  assert (∀ digest, length digest = 32 →
    mapM alphabet_position (str_bytes (legacy_id digest))
    = Some (digits32 57 (be_value (legacy_header ++ digest)))) as Hid.
  { intros digest Hl. unfold legacy_id. rewrite str_bytes_of_bytes. apply mapM_Some.
    destruct (digits32_ok 57 (be_value (legacy_header ++ digest))) as (_ & Hd & _).
    induction Hd as [|d ds Hd _ IH]; [constructor|]. rewrite fmap_cons.
    constructor; [by apply digit32_char_position|done]. }
  assert (∀ digest, length digest = 32 → digits32_value (digits32 57 (be_value (legacy_header ++ digest)))
    = be_value (legacy_header ++ digest)) as Hval.
  { intros digest Hl. by apply digits32_ok, legacy_value_lt. }
  split.
  - intros s. rewrite is_legacy_iff. split.
    + intros (ds & digest & Hm & Hl & Hd & Hv). exists digest. split; [done|].
      apply (inj str_bytes). eapply mapM_alphabet_inj; [done|]. rewrite Hid by done. f_equal.
      destruct (digits32_ok 57 (be_value (legacy_header ++ digest))) as (Hl' & Hd' & _).
      pose proof (mapM_digits _ _ Hm) as [Hds _].
      apply digits32_inj; [done|done|lia|]. by rewrite Hval, Hv.
    + intros (digest & Hl & ->). exists (digits32 57 (be_value (legacy_header ++ digest))), digest.
      split_and!; [by apply Hid|apply digits32_ok|done|by apply Hval].
  - intros d1 d2 H1 H2 Heq. pose proof (Hid _ H1) as E1. rewrite Heq, (Hid _ H2) in E1.
    apply (inj Some) in E1. pose proof (Hval _ H1) as V1. rewrite <-E1, (Hval _ H2) in V1.
    assert (legacy_header ++ d2 = legacy_header ++ d1) as Hh; [|by apply (inj (app legacy_header)) in Hh].
    apply (inj reverse). apply normal_inj.
    + unfold normal. change (legacy_header ++ d2) with (x01 :: [x0c; x12; x20] ++ d2).
      rewrite reverse_cons, last_snoc. done.
    + unfold normal. change (legacy_header ++ d1) with (x01 :: [x0c; x12; x20] ++ d1).
      rewrite reverse_cons, last_snoc. done.
    + by rewrite <-!be_value_reverse, !reverse_involutive.
Qed.

(** A record key is valid exactly when it is a version-1 CID or a legacy
    declaration id, and the error of the CID check names what is wrong. *)
Theorem record_key_valid `{CidCrate} s :
  (is_valid_record_key s = true ↔
    (∃ cid, Cid_from_str s = Ok cid ∧ Cid_version cid = 1%N) ∨ is_legacy_declaration_id s = true) ∧
  validate_cidv1 s = match Cid_from_str s with
                     | Err e => Err (InvalidCid e)
                     | Ok cid => if decide (Cid_version cid = 1%N) then Ok cid
                                 else Err (WrongVersion (Cid_version cid))
                     end.
Proof.
  assert (validate_cidv1 s = match Cid_from_str s with
                     | Err e => Err (InvalidCid e)
                     | Ok cid => if decide (Cid_version cid = 1%N) then Ok cid
                                 else Err (WrongVersion (Cid_version cid))
                     end) as Hv.
  { unfold validate_cidv1. destruct (Cid_from_str s) as [cid|e]; [|done]. simpl.
    destruct (N.eqb_spec (Cid_version cid) 1); simpl; by case_decide. }
  split; [|done]. unfold is_valid_record_key, is_valid_cidv1. rewrite orb_true_iff, Hv.
  destruct (Cid_from_str s) as [cid|e]; [|naive_solver]. case_decide; naive_solver.
Qed.

(** ** Hashes and partition keys *)

(** A hash round-trips through its text: bare hex, the [b3-] form, and its
    serde form all parse back to it, and the printed form is never prefixed. *)
Theorem hash_text_roundtrip `{Hex, !HexLaws} h :
  Hash_from_hex (Hash_to_hex h) = Ok h ∧
  Hash_from_hex (Hash_to_prefixed h) = Ok h ∧
  Hash_deserialize (Hash_serialize h) = Ok h ∧
  strip_prefix "b3-" (Hash_to_hex h) = None ∧
  (Hash_is_zero h = true ↔ h = ZERO).
Proof.
  split_and!; [apply from_to_hex|apply from_prefixed|apply from_to_hex|apply hex_no_prefix|apply is_zero_iff].
Qed.

(** Partition keys of 32-bit ids are injective and parse back to the id;
    every key falls in a partition below the count, decided by the first
    digest byte alone; and the descent bytes are the other 31, so the trie
    has at most 31 levels. *)
Theorem partition_addressing `{Sha256} key n id id' :
  (0 < n)%N → (id < 2 ^ 32)%N → (id' < 2 ^ 32)%N →
  (partition_id_for_key key n < n)%N ∧
  (partition_key id = partition_key id' → id = id') ∧
  (strip_prefix "partition/" (partition_key id) ≫= parse_u32) = Some id ∧
  (∀ d, is_Some (descent_byte (key_digest key) d) ↔ d < 31).
Proof.
  intros Hn Hid Hid'. split_and!.
  - by apply partition_id_lt.
  - by apply partition_key_inj.
  - destruct (strip_prefix "partition/" (partition_key id)) as [r|] eqn:E; simpl.
    + by eapply partition_key_parse.
    + unfold partition_key in E. by rewrite strip_prefix_app in E.
  - intros d. split; [intros [b Hb]; by eapply descent_byte_lt|apply descent_byte_Some].
Qed.

(** ** Concrete runs *)

Section witnesses.
(** A stand-in for Base32: two letters a byte. *)
Definition sample_letter (n : N) : byte := byte_of_N (65 + n).
Fixpoint sample_unletters (l : list byte) : result string (list byte) :=
  match l with
  | [] => Ok []
  | a :: b :: l =>
      r ← sample_unletters l; Ok (byte_of_N ((to_N a - 65) * 16 + (to_N b - 65)) :: r)
  | _ => Err "odd length"
  end.
#[local] Instance sample_base32 : Base32 := {
  base32_encode l := str_of_bytes (concat ((λ b, [sample_letter (to_N b / 16); sample_letter (to_N b mod 16)]) <$> l));
  base32_decode := sample_unletters;
}.

Lemma sample_base32_laws : Base32Laws.
Proof.
  split; simpl.
  - intros l. rewrite str_bytes_of_bytes. induction l as [|b l IH]; [done|].
    rewrite fmap_cons. simpl. rewrite IH. simpl. do 2 f_equal. by destruct b.
  - intros l. rewrite str_bytes_of_bytes. induction l as [|b l IH]; [constructor|].
    rewrite fmap_cons. cbn [concat]. apply Forall_app. split; [destruct b; by repeat constructor|done].
  - intros [|b l] Hne; [done|]. by destruct b.
Qed.

Lemma content_code_roundtrip_witness :
  decode_content_code (encode_content_code_unit 1234567890123 3) = Ok 1234567890123%N.
Proof.
  pose proof sample_base32_laws as Hlaws.
  destruct (content_code_roundtrip 1234567890123 3 "iscc:" true) as [Hr _]; [reflexivity| |exact Hr].
  apply elem_of_cons. right. by left.
Defined.

#[local] Existing Instance sample_hex.

Lemma hash_text_roundtrip_witness : Hash_from_hex (Hash_to_prefixed ZERO) = Ok ZERO.
Proof. pose proof sample_hex_laws as Hlaws. apply (hash_text_roundtrip ZERO). Defined.

#[local] Existing Instance sample_sha256.

Lemma partition_addressing_witness :
  (partition_id_for_key "abc" 256 < 256)%N ∧
  (strip_prefix "partition/" (partition_key 42) ≫= parse_u32) = Some 42%N.
Proof.
  split; [apply (partition_addressing "abc" 256 42 43); done|].
  apply (partition_addressing "abc" 256 42 43); done.
Defined.
End witnesses.
