(* ===== verification/Anyhow.v ===== *)
(** [anyhow::Error] of the node and the daemon, by what it wraps. *)

From S2P Require Import Prelude BlobStore Hamt IsccStore.

Inductive anyhow :=
| ERedb
| EJson (msg : string)
| EBlob (e : BlobStoreError)
| EHamt (e : HamtError)
| EIscc (e : IsccStoreError)
| EDoc (msg : string)
| EIo (msg : string)
| EBail (msg : string)
| EFuel
| EPanic.

(** Conversion of a walker's error; [EFuel] is the model's own. *)
Definition of_fault (f : fault HamtError) : anyhow :=
  match f with Raised e => EHamt e | OutOfFuel => EFuel end.
