(* ===== verification/Index.v ===== *)
(** The record index and pending queue: [crates/registryd/src/index.rs].

    [redb] is not part of the repository.  A database is its four tables; a
    transaction is a function on them that either commits as a whole or
    leaves them alone.  Whether a transaction's I/O fails is decided by a
    list of outcomes in the state, one per transaction, so that theorems hold
    for every pattern of failures; an exhausted list means no more failures.
    Spill files are modelled by the lines they hold. *)

From S2P Require Import Prelude Hash Record Hamt Iscc Anyhow.

Record IndexRecord := mkIndexRecord {
  ir_content_hash : Hash;
  ir_size : N;
  ir_partition_id : N;
  ir_status : RecordStatus;
  ir_created_at : DateTime;
  ir_content_code : option N;
  ir_published_at : option DateTime;
}.

#[global] Instance IndexRecord_eq_dec : EqDecision IndexRecord.
Proof. solve_decision. Defined.

(** The values of the Rust type. *)
Definition index_record_dom (r : IndexRecord) : Prop :=
  (ir_size r < 2 ^ 64)%N ∧ (ir_partition_id r < 2 ^ 32)%N ∧
  from_option (λ c, (c < 2 ^ 64)%N) True (ir_content_code r).

(** [IndexRecord::leaf_entry] *)
Definition leaf_entry (r : IndexRecord) (key : string) : LeafEntry :=
  mkLeafEntry key (ir_content_hash r) (ir_size r) (ir_created_at r) (ir_content_code r).

(** [DateTime::from_timestamp_millis] of the [chrono] crate, and
    [Value::get], [Value::as_i64] of [serde_json] on a number. *)
Class Timestamps := {
  from_timestamp_millis : Z → option DateTime;
  number_as_i64 : string → option Z;
}.

(** [declaration_timestamp] *)
Definition declaration_timestamp `{SerdeJson, Timestamps} (value_str : string) : option DateTime :=
  value ← result_ok (json_from_str value_str);
  field ← match value with
          | JObject fields => snd ∘ snd <$> list_find (λ kv, kv.1 = "timestamp") fields
          | _ => None
          end;
  millis ← match field with JNumber repr => number_as_i64 repr | _ => None end;
  from_timestamp_millis millis.

Inductive SubmitOutcome :=
| Queued
| DuplicateIdentical
| Conflict (existing_hash : Hash).

#[global] Instance SubmitOutcome_eq_dec : EqDecision SubmitOutcome.
Proof. solve_decision. Defined.

(** ** The database *)

Record Tables := mkTables {
  t_records : gmap string (list byte);
  t_queue : gmap N string;
  t_next_seq : option N;
  t_roots : gmap N (list byte);
}.

Record RecordIndex := mkRecordIndex { db : Tables; db_faults : list bool }.

Definition with_records (m : gmap string (list byte)) (t : Tables) : Tables :=
  mkTables m (t_queue t) (t_next_seq t) (t_roots t).
Definition with_queue (m : gmap N string) (t : Tables) : Tables :=
  mkTables (t_records t) m (t_next_seq t) (t_roots t).
Definition with_next_seq (n : N) (t : Tables) : Tables :=
  mkTables (t_records t) (t_queue t) (Some n) (t_roots t).
Definition with_roots (m : gmap N (list byte)) (t : Tables) : Tables :=
  mkTables (t_records t) (t_queue t) (t_next_seq t) m.

(** [begin_write .. commit] around [body]; dropped without a commit, the
    transaction leaves no trace. *)
Definition write_txn {A} (body : Tables → result anyhow (A * Tables)) : io RecordIndex anyhow A :=
  λ ix,
    match db_faults ix with
    | true :: faults => (Err ERedb, mkRecordIndex (db ix) faults)
    | faults =>
        match body (db ix) with
        | Ok (a, t) => (Ok a, mkRecordIndex t (tail faults))
        | Err e => (Err e, mkRecordIndex (db ix) (tail faults))
        end
    end.

Definition read_txn {A} (body : Tables → result anyhow A) : io RecordIndex anyhow A :=
  λ ix,
    match db_faults ix with
    | true :: faults => (Err ERedb, mkRecordIndex (db ix) faults)
    | faults => (body (db ix), mkRecordIndex (db ix) (tail faults))
    end.

Section index.
Context `{!Codec IndexRecord}.

(** [RecordIndex::open] on a fresh path: empty tables. *)
Definition RecordIndex_open (faults : list bool) : RecordIndex :=
  mkRecordIndex (mkTables ∅ ∅ None ∅) faults.

Definition parse_record (raw : list byte) : result anyhow IndexRecord :=
  result_map_err EJson (de raw).

(** [records.get(key)?.map(|raw| from_slice(raw)).transpose()?] *)
Definition read_record (t : Tables) (key : string) : result anyhow (option IndexRecord) :=
  match t_records t !! key with
  | Some raw => r ← parse_record raw; Ok (Some r)
  | None => Ok None
  end.

Definition put_record (key : string) (r : IndexRecord) (t : Tables) : Tables :=
  with_records (<[key := ser r]> (t_records t)) t.

Definition next_seq_of (t : Tables) : N := default 0%N (t_next_seq t).

(** One submission of the loop, [next_seq] as a loop variable. *)
Definition submit_one (key : string) (record : IndexRecord) (t : Tables) (next_seq : N)
    : result anyhow (SubmitOutcome * Tables * N) :=
  existing ← read_record t key;
  match existing with
  | Some existing =>
      Ok (if decide (ir_content_hash existing = ir_content_hash record) then DuplicateIdentical
          else Conflict (ir_content_hash existing), t, next_seq)
  | None =>
      let t := put_record key record t in
      Ok (Queued, with_queue (<[next_seq := key]> (t_queue t)) t, wrap64 (next_seq + 1))
  end.

Fixpoint submit_loop (submissions : list (string * IndexRecord)) (t : Tables) (next_seq : N)
    : result anyhow (list SubmitOutcome * Tables * N) :=
  match submissions with
  | [] => Ok ([], t, next_seq)
  | (key, record) :: rest =>
      match submit_one key record t next_seq with
      | Ok (o, t, next_seq) =>
          match submit_loop rest t next_seq with
          | Ok (os, t, next_seq) => Ok (o :: os, t, next_seq)
          | Err e => Err e
          end
      | Err e => Err e
      end
  end.

(** [RecordIndex::submit_many] *)
Definition submit_many (submissions : list (string * IndexRecord))
    : io RecordIndex anyhow (list SubmitOutcome) :=
  write_txn (λ t,
    match submit_loop submissions t (next_seq_of t) with
    | Ok (outcomes, t, next_seq) => Ok (outcomes, with_next_seq next_seq t)
    | Err e => Err e
    end).

(** [RecordIndex::submit] *)
Definition submit (key : string) (record : IndexRecord) : io RecordIndex anyhow SubmitOutcome :=
  outcomes ← submit_many [(key, record)];
  io_lift (ok_or EPanic (last outcomes)).

(** [RecordIndex::get] *)
Definition RecordIndex_get (key : string) : io RecordIndex anyhow (option IndexRecord) :=
  read_txn (λ t, read_record t key).

Fixpoint read_records (t : Tables) (keys : list string) : result anyhow (list (option IndexRecord)) :=
  match keys with
  | [] => Ok []
  | key :: keys =>
      match read_record t key with
      | Ok r => match read_records t keys with Ok rs => Ok (r :: rs) | Err e => Err e end
      | Err e => Err e
      end
  end.

(** [RecordIndex::get_many] *)
Definition get_many (keys : list string) : io RecordIndex anyhow (list (option IndexRecord)) :=
  read_txn (λ t, read_records t keys).

(** [RecordIndex::pending_batch] *)
Fixpoint pending_loop (t : Tables) (max : nat) (queue : list (N * string))
    : result anyhow (list (N * string * IndexRecord)) :=
  match max, queue with
  | 0, _ | _, [] => Ok []
  | S max', (seq, key) :: queue =>
      match read_record t key with
      | Ok (Some r) =>
          match pending_loop t max' queue with Ok out => Ok ((seq, key, r) :: out) | Err e => Err e end
      | Ok None => pending_loop t max queue
      | Err e => Err e
      end
  end.

Definition pending_batch (max : nat) : io RecordIndex anyhow (list (N * string * IndexRecord)) :=
  read_txn (λ t, pending_loop t max (rows (t_queue t))).

(** One item of [finish]. *)
Definition finish_record (status : RecordStatus) (now : DateTime) (r : IndexRecord) : IndexRecord :=
  mkIndexRecord (ir_content_hash r) (ir_size r) (ir_partition_id r) status (ir_created_at r)
    (ir_content_code r)
    (if decide (status = Published) then Some now else ir_published_at r).

Definition finish_one (status : RecordStatus) (now : DateTime) (seq : N) (key : string) (t : Tables)
    : result anyhow Tables :=
  record ← read_record t key;
  let t := match record with
           | Some r => put_record key (finish_record status now r) t
           | None => t
           end in
  Ok (with_queue (delete seq (t_queue t)) t).

Fixpoint finish_loop (status : RecordStatus) (now : DateTime) (items : list (N * string)) (t : Tables)
    : result anyhow Tables :=
  match items with
  | [] => Ok t
  | (seq, key) :: items =>
      match finish_one status now seq key t with
      | Ok t => finish_loop status now items t
      | Err e => Err e
      end
  end.

(** [RecordIndex::finish] *)
Definition finish (items : list (N * string)) (status : RecordStatus) (now : DateTime)
    : io RecordIndex anyhow unit :=
  if bool_decide (items = []) then mret tt
  else write_txn (λ t, t ← finish_loop status now items t; Ok (tt, t)).

Definition mark_published (items : list (N * string)) (now : DateTime) : io RecordIndex anyhow unit :=
  finish items Published now.
Definition mark_denylisted (items : list (N * string)) (now : DateTime) : io RecordIndex anyhow unit :=
  finish items Denylisted now.

(** [RecordIndex::requeue] *)
Definition requeue (key : string) : io RecordIndex anyhow bool :=
  write_txn (λ t,
    let known := bool_decide (is_Some (t_records t !! key)) in
    if known then
      let seq := next_seq_of t in
      let t := with_next_seq (wrap64 (seq + 1)) t in
      Ok (true, with_queue (<[seq := key]> (t_queue t)) t)
    else Ok (false, t)).

(** [RecordIndex::bulk_mark_published] *)
Definition bulk_mark_published (records : list (string * IndexRecord)) : io RecordIndex anyhow unit :=
  if bool_decide (records = []) then mret tt
  else write_txn (λ t, Ok (tt, foldl (λ t '(key, record), put_record key record t) t records)).

(** [RecordIndex::update_created_at] *)
Fixpoint update_loop (batch : list (string * DateTime)) (t : Tables) (updated missing : N)
    : result anyhow (N * N * Tables) :=
  match batch with
  | [] => Ok (updated, missing, t)
  | (key, created_at) :: batch =>
      match read_record t key with
      | Ok None => update_loop batch t updated (wrap64 (missing + 1))
      | Ok (Some r) =>
          let t := if decide (ir_created_at r = created_at) then t
                   else put_record key (mkIndexRecord (ir_content_hash r) (ir_size r)
                          (ir_partition_id r) (ir_status r) created_at (ir_content_code r)
                          (ir_published_at r)) t in
          update_loop batch t (wrap64 (updated + 1)) missing
      | Err e => Err e
      end
  end.

Definition update_created_at (batch : list (string * DateTime)) : io RecordIndex anyhow (N * N) :=
  write_txn (λ t,
    match update_loop batch t 0 0 with
    | Ok (updated, missing, t) => Ok ((updated, missing), t)
    | Err e => Err e
    end).

(** The records in key order, parsed: the scans of the whole index. *)
Fixpoint parse_rows (l : list (string * list byte)) : result anyhow (list (string * IndexRecord)) :=
  match l with
  | [] => Ok []
  | (key, raw) :: l =>
      match parse_record raw with
      | Ok r => match parse_rows l with Ok rs => Ok ((key, r) :: rs) | Err e => Err e end
      | Err e => Err e
      end
  end.

Definition scan (t : Tables) : result anyhow (list (string * IndexRecord)) :=
  parse_rows (btree_list (t_records t)).

(** [RecordIndex::spill_published_entries]: indexing past the spill files
    panics. *)
Fixpoint spill_entries (rs : list (string * IndexRecord)) (spills : list (list LeafEntry)) (spilled : N)
    : result anyhow (list (list LeafEntry) * N) :=
  match rs with
  | [] => Ok (spills, spilled)
  | (key, r) :: rs =>
      if negb (bool_decide (ir_status r = Published)) then spill_entries rs spills spilled
      else
        let p := N.to_nat (ir_partition_id r) in
        if p <? length spills then
          spill_entries rs (alter (λ l, l ++ [leaf_entry r key]) p spills) (wrap64 (spilled + 1))
        else Err EPanic
  end.

Definition spill_published_entries (partitions : nat)
    : io RecordIndex anyhow (list (list LeafEntry) * N) :=
  read_txn (λ t, rs ← scan t; spill_entries rs (replicate partitions []) 0).

(** [RecordIndex::set_local_root], [get_local_root], [all_local_roots] *)
Definition set_local_root (partition_id : N) (root : Hash) : io RecordIndex anyhow unit :=
  write_txn (λ t, Ok (tt, with_roots (<[partition_id := b32_list (hash_0 root)]> (t_roots t)) t)).

Definition get_local_root (partition_id : N) : io RecordIndex anyhow (option Hash) :=
  read_txn (λ t, Ok (raw ← t_roots t !! partition_id; mkHash <$> to_b32 raw)).

Definition all_local_roots : io RecordIndex anyhow (list (N * Hash)) :=
  read_txn (λ t, Ok (omap (λ '(p, raw), b ← to_b32 raw; Some (p, mkHash b)) (rows (t_roots t)))).

Definition queue_depth : io RecordIndex anyhow nat := read_txn (λ t, Ok (size (t_queue t))).
Definition records_total : io RecordIndex anyhow nat := read_txn (λ t, Ok (size (t_records t))).

(** [RecordIndex::published_keys_for_partition] *)
Definition published_keys_for_partition (partition_id : N) : io RecordIndex anyhow (list string) :=
  read_txn (λ t, result_map (λ rs,
    fst <$> filter (λ kr, ir_partition_id kr.2 = partition_id ∧ ir_status kr.2 = Published) rs) (scan t)).

(** [RecordIndex::spill_published_keys] *)
Definition spill_keys (partitions : nat) (rs : list (string * IndexRecord)) : list (list string) * N :=
  foldl (λ '(files, total) '(key, r),
    if bool_decide (ir_status r = Published) && (ir_partition_id r <? N.of_nat partitions)%N
    then (alter (λ l, l ++ [key]) (N.to_nat (ir_partition_id r)) files, wrap64 (total + 1))
    else (files, total)) (replicate partitions [], 0%N) rs.

Definition spill_published_keys (partitions : nat) : io RecordIndex anyhow (list (list string) * N) :=
  read_txn (λ t, result_map (spill_keys partitions) (scan t)).

(** [RecordIndex::all_content_hashes] *)
Definition all_content_hashes : io RecordIndex anyhow (list Hash) :=
  read_txn (λ t, result_map (λ rs, (λ kr, ir_content_hash kr.2) <$> rs) (scan t)).
End index.
