(* ===== verification/IndexFacts.v ===== *)
(** The record index: what the tables mean, and that every operation keeps
    the index well formed. *)

From S2P Require Import Prelude Hash Record Hamt Anyhow Index.

Section facts.
Context `{!Codec IndexRecord, !CodecLaws IndexRecord index_record_dom}.

(** The records the table holds. *)
Definition recs (t : Tables) : gmap string IndexRecord :=
  omap (λ raw, result_ok (de raw)) (t_records t).

Definition parses (t : Tables) : Prop :=
  map_Forall (λ _ raw, ∃ r : IndexRecord, de raw = Ok r) (t_records t).

(** Every row parses; every queue row names a record and is older than the
    next sequence number. *)
Record tables_wf (t : Tables) : Prop := {
  wf_parse : parses t;
  wf_queue : ∀ seq k, t_queue t !! seq = Some k → is_Some (t_records t !! k);
  wf_seq : ∀ seq k, t_queue t !! seq = Some k → (seq < next_seq_of t)%N;
}.

(** No record is claimed and forgotten: a pending record has a queue row. *)
Definition pending_queued (t : Tables) : Prop :=
  ∀ k r, recs t !! k = Some r → ir_status r = Pending → ∃ seq, t_queue t !! seq = Some k.

Definition index_inv (t : Tables) : Prop := tables_wf t ∧ pending_queued t.

Lemma recs_lookup t k r : recs t !! k = Some r ↔ ∃ raw, t_records t !! k = Some raw ∧ de raw = Ok r.
Proof.
  unfold recs. rewrite lookup_omap. destruct (t_records t !! k) as [raw|]; simpl.
  - destruct (de raw) as [x|x] eqn:Ed; simpl; (split; [intros [= ->]; eauto|]);
      intros (raw' & [= <-] & Hd); congruence.
  - split; [done|]. by intros (raw & ? & _).
Qed.

Lemma recs_dom t k r : recs t !! k = Some r → index_record_dom r.
Proof. rewrite recs_lookup. intros (raw & _ & Hd). by eapply de_dom. Qed.

Lemma read_record_ok t k : parses t → read_record t k = Ok (recs t !! k).
Proof.
  intros Hwf. unfold read_record, recs. rewrite lookup_omap.
  destruct (t_records t !! k) as [raw|] eqn:E; [|done].
  destruct (Hwf k raw E) as [r Hr]. unfold parse_record. simpl. by rewrite Hr.
Qed.

Lemma read_records_ok t keys : parses t →
  read_records t keys = Ok ((λ k, recs t !! k) <$> keys).
Proof.
  intros Hp. induction keys as [|k keys IH]; simpl; [done|]. by rewrite read_record_ok, IH.
Qed.

Lemma recs_is_Some t k : tables_wf t → is_Some (recs t !! k) ↔ is_Some (t_records t !! k).
Proof.
  intros Hwf. unfold recs. rewrite lookup_omap. destruct (t_records t !! k) as [raw|] eqn:E; simpl.
  - destruct (wf_parse t Hwf k raw E) as [r ->]. simpl. split; eauto.
  - done.
Qed.

Lemma recs_put k r t : index_record_dom r → recs (put_record k r t) = <[k := r]> (recs t).
Proof.
  intros Hd. unfold recs, put_record. simpl. apply map_eq. intros k'. rewrite lookup_omap.
  destruct (decide (k = k')) as [<-|Hne].
  - rewrite !lookup_insert_eq. simpl. by rewrite de_ser.
  - rewrite !lookup_insert_ne by done. by rewrite lookup_omap.
Qed.

Lemma put_record_wf k r t :
  index_record_dom r → tables_wf t → tables_wf (put_record k r t).
Proof.
  intros Hd [Hp Hq Hs]. split; simpl.
  - apply map_Forall_insert_2; [|done]. exists r. by apply de_ser.
  - intros seq k' Hk'. destruct (decide (k = k')) as [<-|Hne].
    + rewrite lookup_insert_eq. eauto.
    + rewrite lookup_insert_ne by done. by eapply Hq.
  - done.
Qed.

(** ** Transactions *)

Lemma write_txn_cases {A} (body : Tables → result anyhow (A * Tables)) ix r ix' :
  write_txn body ix = (r, ix') →
  (∃ a t, r = Ok a ∧ body (db ix) = Ok (a, t) ∧ db ix' = t) ∨
  (∃ e, r = Err e ∧ db ix' = db ix).
Proof.
  unfold write_txn. destruct (db_faults ix) as [|[] faults].
  - destruct (body (db ix)) as [[a t]|e]; intros [= <- <-]; eauto 10.
  - intros [= <- <-]. eauto.
  - destruct (body (db ix)) as [[a t]|e]; intros [= <- <-]; eauto 10.
Qed.

Lemma read_txn_cases {A} (body : Tables → result anyhow A) ix r ix' :
  read_txn body ix = (r, ix') → db ix' = db ix ∧ (r = Err ERedb ∨ r = body (db ix)).
Proof.
  unfold read_txn. destruct (db_faults ix) as [|[] faults]; intros [= <- <-]; eauto.
Qed.

(** ** Submission *)

(** The specification: first content wins, per key. *)
Fixpoint spec_submit (m : gmap string IndexRecord) (subs : list (string * IndexRecord))
    : list SubmitOutcome * gmap string IndexRecord :=
  match subs with
  | [] => ([], m)
  | (k, r) :: subs =>
      match m !! k with
      | Some e =>
          let '(os, m') := spec_submit m subs in
          ((if decide (ir_content_hash e = ir_content_hash r) then DuplicateIdentical
            else Conflict (ir_content_hash e)) :: os, m')
      | None => let '(os, m') := spec_submit (<[k := r]> m) subs in (Queued :: os, m')
      end
  end.

Fixpoint queued_keys (subs : list (string * IndexRecord)) (os : list SubmitOutcome) : list string :=
  match subs, os with
  | (k, _) :: subs, Queued :: os => k :: queued_keys subs os
  | _ :: subs, _ :: os => queued_keys subs os
  | _, _ => []
  end.

(** Consecutive queue rows. *)
Fixpoint queue_rows (seq : N) (ks : list string) : list (N * string) :=
  match ks with [] => [] | k :: ks => (seq, k) :: queue_rows (seq + 1) ks end.

Lemma rows_insert_last {A} (m : gmap N A) n x :
  (∀ k y, m !! k = Some y → (k < n)%N) → rows (<[n := x]> m) = rows m ++ [(n, x)].
Proof.
  intros Hlt. assert (m !! n = None) as Hn.
  { destruct (m !! n) as [y|] eqn:E; [|done]. apply Hlt in E. lia. }
  apply (StronglySorted_unique_strong (λ x y, row_le x y = true)).
  - intros [k1 y1] [k2 y2] H1 H2 Hle1 Hle2. unfold row_le in *. simpl in *.
    rewrite N.leb_le in *. assert (k1 = k2) as -> by lia.
    rewrite rows_elem in H1. rewrite elem_of_app, list_elem_of_singleton, rows_elem in H2.
    destruct H2 as [H2|[= -> ->]].
    + pose proof (Hlt _ _ H2). rewrite lookup_insert_ne in H1 by lia. congruence.
    + rewrite lookup_insert_eq in H1. congruence.
  - apply rows_sorted.
  - pose proof (rows_sorted m) as Hs. assert (Forall (λ y, row_le y (n, x) = true) (rows m)) as Hall.
    { apply Forall_forall. intros [k y] Hk%rows_elem%Hlt. unfold row_le. simpl. apply N.leb_le. lia. }
    induction (rows m) as [|a l IH]; simpl; [by repeat constructor|].
    apply StronglySorted_cons in Hs as [Ha Hs]. apply Forall_cons in Hall as [Han Hall].
    apply StronglySorted_cons. split; [|by apply IH].
    apply Forall_app. split; [done|]. by constructor.
  - unfold rows. rewrite !sort_by_perm, map_to_list_insert by done.
    apply Permutation_cons_append.
Qed.

Lemma put_record_parses k r t : index_record_dom r → parses t → parses (put_record k r t).
Proof. intros Hd Hp. apply map_Forall_insert_2; [|done]. exists r. by apply de_ser. Qed.

Lemma submit_loop_spec subs t n :
  parses t → Forall (λ kr, index_record_dom kr.2) subs →
  (∀ seq k, t_queue t !! seq = Some k → (seq < n)%N) → (n + N.of_nat (length subs) < 2 ^ 64)%N →
  let '(os, m) := spec_submit (recs t) subs in
  ∃ t', submit_loop subs t n = Ok (os, t', (n + N.of_nat (length (queued_keys subs os)))%N) ∧
    recs t' = m ∧ parses t' ∧
    rows (t_queue t') = rows (t_queue t) ++ queue_rows n (queued_keys subs os) ∧
    t_roots t' = t_roots t.
Proof.
  revert t n. induction subs as [|[k r] subs IH]; intros t n Hp Hdom Hq Hn; simpl.
  { exists t. by rewrite N.add_0_r, app_nil_r. }
  apply Forall_cons in Hdom as [Hr Hdom]. simpl in Hr. cbn [length] in Hn. rewrite Nat2N.inj_succ in Hn.
  unfold submit_one. rewrite read_record_ok by done. cbn [mbind result_bind].
  destruct (recs t !! k) as [e|] eqn:Ek.
  - specialize (IH t n Hp Hdom Hq ltac:(lia)).
    destruct (spec_submit (recs t) subs) as [os m].
    destruct IH as (t' & Heq & Hm & Hp' & Hrows & Hro). exists t'. rewrite Heq.
    destruct (decide (ir_content_hash e = ir_content_hash r)); by split_and!.
  - set (t1 := with_queue (<[n := k]> (t_queue (put_record k r t))) (put_record k r t)).
    assert (recs t1 = <[k := r]> (recs t)) as Hr1 by by rewrite <-recs_put.
    specialize (IH t1 (n + 1)%N). rewrite Hr1 in IH.
    destruct (spec_submit (<[k := r]> (recs t)) subs) as [os m].
    rewrite wrap64_small by lia.
    destruct IH as (t' & Heq & Hm & Hp' & Hrows & Hro).
    + by apply put_record_parses.
    + done.
    + intros seq k'. simpl. destruct (decide (seq = n)) as [->|Hne]; [intros _; lia|].
      rewrite lookup_insert_ne by done. intros Hx%Hq. lia.
    + lia.
    + exists t'. rewrite Heq. split_and!; try done.
      * cbn [queued_keys length]. do 2 f_equal. lia.
      * rewrite Hrows. simpl. rewrite rows_insert_last by done. by rewrite <-(assoc_L (++)).
Qed.

Lemma spec_submit_facts m subs os m' :
  spec_submit m subs = (os, m') →
  length os = length subs ∧ m ⊆ m' ∧ (∀ k, k ∈ queued_keys subs os → is_Some (m' !! k) ∧ m !! k = None) ∧
  (∀ k r, m' !! k = Some r → m !! k = Some r ∨ k ∈ queued_keys subs os).
Proof.
  revert m os m'. induction subs as [|[k r] subs IH]; intros m os m'; simpl.
  { intros [= <- <-]. split_and!; [done|done|by intros k ?%elem_of_nil|by left]. }
  destruct (m !! k) as [e|] eqn:Ek.
  - destruct (spec_submit m subs) as [os1 m1] eqn:E. intros [= <- <-].
    destruct (IH _ _ _ E) as (Hl & Hsub & Hq & Hm). split_and!; [simpl; by rewrite Hl|done| |];
      by destruct (decide _).
  - destruct (spec_submit (<[k := r]> m) subs) as [os1 m1] eqn:E. intros [= <- <-].
    destruct (IH _ _ _ E) as (Hl & Hsub & Hq & Hm). split_and!; [simpl; by rewrite Hl| | |].
    + etrans; [|exact Hsub]. by apply insert_subseteq.
    + intros k' [->|Hk']%elem_of_cons.
      * split; [|done]. exists r. eapply lookup_weaken; [|exact Hsub]. apply lookup_insert_eq.
      * destruct (Hq _ Hk') as [? Hn]. split; [done|].
        destruct (decide (k = k')) as [->|]; [by rewrite lookup_insert_eq in Hn|].
        by rewrite lookup_insert_ne in Hn.
    + intros k' r' Hk'. destruct (Hm _ _ Hk') as [Hi|Hi]; [|right; by right].
      destruct (decide (k = k')) as [<-|]; [right; by left|]. rewrite lookup_insert_ne in Hi by done. by left.
Qed.

Lemma queue_rows_elem n ks seq k :
  (seq, k) ∈ queue_rows n ks → k ∈ ks ∧ (n ≤ seq < n + N.of_nat (length ks))%N.
Proof.
  revert n. induction ks as [|k' ks IH]; intros n; simpl; [by intros ?%elem_of_nil|].
  intros [[= -> ->]|Hin]%elem_of_cons; [split; [by left|lia]|].
  apply IH in Hin as [? ?]. split; [by right|lia].
Qed.

Lemma queue_rows_has n ks k : k ∈ ks → ∃ seq, (seq, k) ∈ queue_rows n ks.
Proof.
  revert n. induction ks as [|k' ks IH]; intros n; [by intros ?%elem_of_nil|]. simpl.
  intros [->|Hin]%elem_of_cons; [exists n; by left|].
  destruct (IH (n + 1)%N Hin) as [seq Hs]. exists seq. by right.
Qed.

(** [submit_many] on a well-formed index. *)
Lemma submit_many_spec subs ix r ix' :
  submit_many subs ix = (r, ix') → index_inv (db ix) →
  Forall (λ kr, index_record_dom kr.2) subs →
  (next_seq_of (db ix) + N.of_nat (length subs) < 2 ^ 64)%N →
  let '(os, m) := spec_submit (recs (db ix)) subs in
  (r = Err ERedb ∧ db ix' = db ix) ∨
  (r = Ok os ∧ recs (db ix') = m ∧
   rows (t_queue (db ix')) =
     rows (t_queue (db ix)) ++ queue_rows (next_seq_of (db ix)) (queued_keys subs os) ∧
   next_seq_of (db ix') = (next_seq_of (db ix) + N.of_nat (length (queued_keys subs os)))%N ∧
   t_roots (db ix') = t_roots (db ix) ∧ parses (db ix')).
Proof.
  intros Hr [[Hp Hq Hs] _] Hdom Hn.
  pose proof (submit_loop_spec subs (db ix) (next_seq_of (db ix)) Hp Hdom Hs Hn) as Hsp.
  destruct (spec_submit (recs (db ix)) subs) as [os m].
  destruct Hsp as (t' & Heq & Hm & Hp' & Hrows & Hro).
  unfold submit_many, write_txn in Hr. rewrite Heq in Hr.
  destruct (db_faults ix) as [|[] faults]; injection Hr as <- <-; [|by left|]; right; split_and!; try done.
Qed.

Lemma queued_count subs os : length (queued_keys subs os) ≤ length subs.
Proof.
  revert os. induction subs as [|[k r] subs IH]; intros [|o os]; simpl; try lia.
  specialize (IH os). destruct o; simpl; lia.
Qed.

Lemma submit_many_inv subs ix r ix' :
  submit_many subs ix = (r, ix') → index_inv (db ix) →
  Forall (λ kr, index_record_dom kr.2) subs →
  (next_seq_of (db ix) + N.of_nat (length subs) < 2 ^ 64)%N → index_inv (db ix').
Proof.
  intros Hr Hinv Hdom Hn. pose proof (submit_many_spec _ _ _ _ Hr Hinv Hdom Hn) as Hsp.
  destruct (spec_submit (recs (db ix)) subs) as [os m] eqn:E.
  destruct (spec_submit_facts _ _ _ _ E) as (_ & Hsub & Hqk & Hnew).
  destruct Hsp as [[_ ->]|(_ & Hm & Hrows & Hns & _ & Hp')]; [done|].
  destruct Hinv as [[Hp Hq Hs] Hpend].
  assert (∀ seq k, t_queue (db ix') !! seq = Some k ↔ t_queue (db ix) !! seq = Some k ∨
    (seq, k) ∈ queue_rows (next_seq_of (db ix)) (queued_keys subs os)) as Hqe.
  { intros seq k. rewrite <-!rows_elem, Hrows. by rewrite elem_of_app. }
  assert (∀ k, is_Some (t_records (db ix') !! k) ↔ is_Some (m !! k)) as Hrec.
  { intros k. rewrite <-Hm. unfold recs. rewrite lookup_omap.
    destruct (t_records (db ix') !! k) as [raw|] eqn:Ek; simpl; [|done].
    destruct (Hp' _ _ Ek) as [x ->]. simpl. split; eauto. }
  split; [split; [done| |]|].
  - intros seq k Hk%Hqe. rewrite Hrec. destruct Hk as [Hk|[Hk _]%queue_rows_elem]; [|by apply Hqk].
    apply Hq in Hk as [raw Hraw]. destruct (Hp _ _ Hraw) as [x Hx].
    exists x. eapply lookup_weaken; [|exact Hsub]. apply recs_lookup. eauto.
  - intros seq k [Hk%Hs|[_ Hk]%queue_rows_elem]%Hqe; rewrite Hns; lia.
  - intros k x Hk Hpd. rewrite Hm in Hk. destruct (Hnew _ _ Hk) as [Hold|Hkq].
    + destruct (Hpend _ _ Hold Hpd) as [seq Hseq]. exists seq. apply Hqe. by left.
    + destruct (queue_rows_has (next_seq_of (db ix)) _ _ Hkq) as [seq Hseq]. exists seq. apply Hqe. by right.
Qed.

(** ** The queue *)

Lemma pending_loop_ok t max l :
  tables_wf t → (∀ seq k, (seq, k) ∈ l → t_queue t !! seq = Some k) →
  ∃ out, pending_loop t max l = Ok out ∧ out.*1 = take max l ∧
    ∀ seq k r, (seq, k, r) ∈ out → recs t !! k = Some r.
Proof.
  intros Hwf. revert max. induction l as [|[seq k] l IH]; intros max Hl.
  { exists []. split_and!; [by destruct max|by rewrite take_nil|by intros ??? ?%elem_of_nil]. }
  destruct max as [|max].
  { exists []. split_and!; [done|done|by intros ??? ?%elem_of_nil]. }
  simpl. rewrite read_record_ok by apply wf_parse, Hwf.
  destruct (wf_queue t Hwf seq k) as [raw Hraw]; [apply Hl; by left|].
  destruct (wf_parse t Hwf _ _ Hraw) as [r Hr].
  assert (recs t !! k = Some r) as Hk by (apply recs_lookup; eauto). rewrite Hk.
  destruct (IH max) as (out & -> & Hout & Hrs); [intros; apply Hl; by right|].
  exists ((seq, k, r) :: out). simpl. split_and!; [done|cbn; by f_equal|].
  intros seq' k' r' [[= -> -> ->]|Hin]%elem_of_cons; [done|by eapply Hrs].
Qed.

Lemma pending_batch_ok max ix r ix' :
  pending_batch max ix = (r, ix') → index_inv (db ix) →
  db ix' = db ix ∧ (r = Err ERedb ∨ ∃ out, r = Ok out ∧ out.*1 = take max (rows (t_queue (db ix))) ∧
    ∀ seq k x, (seq, k, x) ∈ out → recs (db ix) !! k = Some x).
Proof.
  intros [Hdb Hr]%read_txn_cases [Hwf _]. split; [done|]. destruct Hr as [->| ->]; [by left|right].
  destruct (pending_loop_ok (db ix) max (rows (t_queue (db ix))) Hwf) as (out & -> & Ho & Hrs).
  - intros seq k. apply rows_elem.
  - eauto.
Qed.

(** ** Finishing, requeueing, rewriting *)

(** Queue items as [pending_batch] hands them out: the row, if still there,
    has the item's key. *)
Definition items_ok (t : Tables) (items : list (N * string)) : Prop :=
  ∀ seq k k', (seq, k) ∈ items → t_queue t !! seq = Some k' → k' = k.

Lemma finish_record_idem status now r :
  finish_record status now (finish_record status now r) = finish_record status now r.
Proof. unfold finish_record. simpl. by destruct (decide _). Qed.

Lemma finish_loop_ok status now items t :
  index_inv t → status ≠ Pending → items_ok t items →
  ∃ t', finish_loop status now items t = Ok t' ∧ index_inv t' ∧
    t_queue t' = foldr (λ it, delete it.1) (t_queue t) items ∧
    t_roots t' = t_roots t ∧ t_next_seq t' = t_next_seq t ∧
    ∀ k, recs t' !! k = (if bool_decide (k ∈ items.*2) then finish_record status now <$> recs t !! k
                         else recs t !! k).
Proof.
  revert t. induction items as [|[seq k] items IH]; intros t Hinv Hst Hit.
  { exists t. split_and!; try done. }
  pose proof Hinv as [Hwf Hpend]. cbn [finish_loop]. unfold finish_one.
  rewrite read_record_ok by apply wf_parse, Hwf. cbn [mbind result_bind].
  set (t1 := match recs t !! k with
             | Some r => put_record k (finish_record status now r) t | None => t end).
  set (t2 := with_queue (delete seq (t_queue t1)) t1).
  assert (t_queue t1 = t_queue t ∧ t_roots t1 = t_roots t ∧ t_next_seq t1 = t_next_seq t) as (Hq1 & Hro1 & Hn1).
  { unfold t1. by destruct (recs t !! k). }
  assert (∀ k', recs t2 !! k' = if bool_decide (k' = k) then finish_record status now <$> recs t !! k'
    else recs t !! k') as Hr2.
  { intros k'. change (recs t2) with (recs t1). unfold t1. destruct (recs t !! k) as [r|] eqn:Ek.
    - rewrite recs_put by (apply recs_dom in Ek; exact Ek).
      case_bool_decide as Hk; [subst; by rewrite lookup_insert_eq, Ek|by rewrite lookup_insert_ne].
    - case_bool_decide as Hk; [subst; by rewrite Ek|done]. }
  assert (tables_wf t1) as Hwf1.
  { unfold t1. destruct (recs t !! k) as [r|] eqn:Ek; [|done]. apply put_record_wf; [|done].
    by apply recs_dom in Ek. }
  assert (index_inv t2) as Hinv2.
  { split; [split|].
    - apply Hwf1.
    - intros s k' Hk'. unfold t2 in *. simpl in *. apply lookup_delete_Some in Hk' as [_ Hk']. by eapply wf_queue.
    - intros s k' Hk'. unfold t2 in *. simpl in *. apply lookup_delete_Some in Hk' as [_ Hk'].
      by eapply (wf_seq t1).
    - intros k' r' Hk' Hpd. rewrite Hr2 in Hk'. case_bool_decide as Hkk.
      + destruct (recs t !! k') as [x|]; [|done]. injection Hk' as <-. simpl in Hpd. done.
      + destruct (Hpend _ _ Hk' Hpd) as [s Hs]. exists s. unfold t2. simpl. rewrite Hq1.
        rewrite lookup_delete_ne; [done|]. intros ->. apply Hkk.
        eapply Hit; [by left|done]. }
  destruct (IH t2 Hinv2 Hst) as (t' & Heq & Hinv' & Hq' & Hro' & Hn' & Hrec').
  { intros s k1 k2 Hin Hk2. unfold t2 in Hk2. simpl in Hk2. apply lookup_delete_Some in Hk2 as [_ Hk2].
    rewrite Hq1 in Hk2. eapply Hit; [by right|done]. }
  exists t'. split_and!; [done|done| | | |].
  - rewrite Hq'. unfold t2. simpl. rewrite Hq1. clear.
    induction items as [|[s' k'] items IH]; [done|]. simpl. rewrite IH. apply delete_delete.
  - by rewrite Hro'.
  - by rewrite Hn'.
  - intros k'. rewrite Hrec', Hr2. rewrite fmap_cons. simpl.
    rewrite (bool_decide_ext (k' ∈ k :: items.*2) (k' = k ∨ k' ∈ items.*2)) by apply elem_of_cons.
    destruct (decide (k' = k)) as [->|Hne].
    + rewrite (bool_decide_true (k = k)), (bool_decide_true (k = k ∨ _)) by auto.
      case_bool_decide; [|done]. destruct (recs t !! k) as [r|]; [|done]. simpl. by rewrite finish_record_idem.
    + rewrite (bool_decide_false (k' = k)) by done.
      rewrite (bool_decide_ext (k' = k ∨ k' ∈ items.*2) (k' ∈ items.*2)) by tauto. done.
Qed.
End facts.
