(* ===== verification/IndexOps.v ===== *)
(** Every operation of the record index keeps it well formed, and none but
    the bulk load changes what a key's record says about its content. *)

From S2P Require Import Prelude Hash Record Hamt Anyhow Index IndexFacts.

(** What a record never changes. *)
Definition same_content (r r' : IndexRecord) : Prop :=
  ir_content_hash r' = ir_content_hash r ∧ ir_size r' = ir_size r ∧
  ir_partition_id r' = ir_partition_id r ∧ ir_content_code r' = ir_content_code r.

#[global] Instance same_content_preorder : PreOrder same_content.
Proof. split; [by intros r|]. unfold same_content. intros x y z ??. naive_solver congruence. Qed.

Section ops.
Context `{!Codec IndexRecord, !CodecLaws IndexRecord index_record_dom}.

(** The index only moves forward: records stay and keep their content,
    queue rows keep their key, sequence numbers are never reused. *)
Record index_ext (t t' : Tables) : Prop := {
  ext_recs k r : recs t !! k = Some r → ∃ r', recs t' !! k = Some r' ∧ same_content r r';
  ext_rows seq k : (seq < next_seq_of t)%N → t_queue t' !! seq = Some k → t_queue t !! seq = Some k;
  ext_seq : (next_seq_of t ≤ next_seq_of t')%N;
}.

#[global] Instance index_ext_preorder : PreOrder index_ext.
Proof.
  split.
  - intros t. split; [intros k r Hk; by exists r|done|lia].
  - intros t1 t2 t3 [H1 Q1 S1] [H2 Q2 S2]. split; [|intros; apply Q1; [done|]; apply Q2; [lia|done]|lia].
    intros k r Hk. destruct (H1 _ _ Hk) as (r2 & Hk2 & Hs2).
    destruct (H2 _ _ Hk2) as (r3 & Hk3 & Hs3). exists r3. split; [done|by etrans].
Qed.

(** Items taken from the queue stay what they were. *)
Definition items_known (t : Tables) (items : list (N * string)) : Prop :=
  items_ok t items ∧ Forall (λ it, it.1 < next_seq_of t)%N items.

Lemma items_known_ext t t' items : index_ext t t' → items_known t items → items_known t' items.
Proof.
  intros [_ Hq Hs] [Hok Hlt]. split.
  - intros seq k k' Hin Hk'. apply (Hok seq); [done|]. apply Hq; [|done].
    rewrite Forall_forall in Hlt. by apply (Hlt (seq, k)).
  - eapply Forall_impl; [exact Hlt|]. simpl. lia.
Qed.

Lemma items_known_taken t items :
  tables_wf t → (∀ seq k, (seq, k) ∈ items → t_queue t !! seq = Some k) → items_known t items.
Proof.
  intros Hwf Hin. split.
  - intros seq k k' Hk%Hin Hk'. congruence.
  - apply Forall_forall. intros [seq k] Hk%Hin. simpl. by eapply wf_seq.
Qed.

Lemma items_known_sub t items items' : items' ⊆ items → items_known t items → items_known t items'.
Proof.
  intros Hsub [Hok Hlt]. split.
  - intros seq k k' Hin. by apply Hok, Hsub.
  - rewrite Forall_forall in *. auto.
Qed.

(** ** Submission *)

Lemma spec_submit_new m subs os m' k r :
  spec_submit m subs = (os, m') → m' !! k = Some r → m !! k = Some r ∨ (k, r) ∈ subs.
Proof.
  revert m os m'. induction subs as [|[k1 r1] subs IH]; intros m os m'; simpl.
  { intros [= <- <-]. by left. }
  destruct (m !! k1) as [e|] eqn:Ek.
  - destruct (spec_submit m subs) as [os1 m1] eqn:E. intros [= <- <-] Hk.
    destruct (IH _ _ _ E Hk); [by left|right; by right].
  - destruct (spec_submit (<[k1 := r1]> m) subs) as [os1 m1] eqn:E. intros [= <- <-] Hk.
    destruct (IH _ _ _ E Hk) as [Hi|?]; [|right; by right].
    destruct (decide (k1 = k)) as [<-|Hne].
    + rewrite lookup_insert_eq in Hi. injection Hi as ->. right. by left.
    + rewrite lookup_insert_ne in Hi by done. by left.
Qed.

(** The side conditions of a submission. *)
Definition submittable (t : Tables) (subs : list (string * IndexRecord)) : Prop :=
  Forall (λ kr, index_record_dom kr.2) subs ∧
  (next_seq_of t + N.of_nat (length subs) < 2 ^ 64)%N.

Lemma submit_many_ext subs ix r ix' :
  submit_many subs ix = (r, ix') → index_inv (db ix) → submittable (db ix) subs →
  index_ext (db ix) (db ix') ∧ t_roots (db ix') = t_roots (db ix) ∧
  (∀ k x, recs (db ix') !! k = Some x → recs (db ix) !! k = Some x ∨ (k, x) ∈ subs).
Proof.
  intros Hr Hinv [Hdom Hn]. pose proof (submit_many_spec _ _ _ _ Hr Hinv Hdom Hn) as Hsp.
  destruct (spec_submit (recs (db ix)) subs) as [os m] eqn:E.
  destruct (spec_submit_facts _ _ _ _ E) as (_ & Hsub & _ & _).
  destruct Hsp as [[_ ->]|(_ & Hm & Hrows & Hns & Hro & _)]; [split; [reflexivity|]; auto|].
  split_and!; [split|done|].
  - intros k x Hk. exists x. rewrite Hm. split; [by eapply lookup_weaken|reflexivity].
  - intros seq k Hlt Hk. apply rows_elem in Hk. rewrite Hrows, elem_of_app in Hk.
    destruct Hk as [Hk%rows_elem|[_ Hk]%queue_rows_elem]; [done|lia].
  - lia.
  - intros k x. rewrite Hm. by apply (spec_submit_new _ _ _ _ _ _ E).
Qed.

(** ** Finishing *)

Lemma finish_ok items status now ix r ix' :
  finish items status now ix = (r, ix') → index_inv (db ix) → status ≠ Pending →
  items_known (db ix) items →
  (r = Err ERedb ∧ db ix' = db ix) ∨
  (r = Ok tt ∧ index_inv (db ix') ∧ index_ext (db ix) (db ix') ∧
    t_queue (db ix') = foldr (λ it, delete it.1) (t_queue (db ix)) items ∧
    t_roots (db ix') = t_roots (db ix) ∧ next_seq_of (db ix') = next_seq_of (db ix) ∧
    ∀ k, recs (db ix') !! k = (if bool_decide (k ∈ items.*2) then finish_record status now <$> recs (db ix) !! k
                         else recs (db ix) !! k)).
Proof.
  unfold finish. intros Hr Hinv Hst [Hit _]. case_bool_decide as Hemp.
  { injection Hr as <- <-. right. subst items. split_and!; try done; reflexivity. }
  destruct (finish_loop_ok status now items (db ix) Hinv Hst Hit)
    as (t' & Heq & Hinv' & Hq & Hro & Hns & Hrec).
  unfold write_txn in Hr. rewrite Heq in Hr.
  assert (index_ext (db ix) t') as Hext.
  { split.
    - intros k x Hk. rewrite Hrec, Hk. case_bool_decide; simpl; [|by exists x].
      exists (finish_record status now x). split; [done|by split_and!].
    - intros seq k _. rewrite Hq. clear. induction items as [|it items IH]; simpl; [done|].
      intros [_ ?]%lookup_delete_Some. by apply IH.
    - unfold next_seq_of. by rewrite Hns. }
  assert (next_seq_of t' = next_seq_of (db ix)) as Hn by (unfold next_seq_of; by rewrite Hns).
  destruct (db_faults ix) as [|[] faults]; injection Hr as <- <-; [right|by left|right]; by split_and!.
Qed.

(** ** Requeueing *)

Lemma requeue_ok key ix r ix' :
  requeue key ix = (r, ix') → index_inv (db ix) → (next_seq_of (db ix) + 1 < 2 ^ 64)%N →
  (r = Err ERedb ∧ db ix' = db ix) ∨
  (r = Ok (bool_decide (is_Some (recs (db ix) !! key))) ∧ index_inv (db ix') ∧
    index_ext (db ix) (db ix') ∧ recs (db ix') = recs (db ix) ∧ t_roots (db ix') = t_roots (db ix) ∧
    rows (t_queue (db ix')) = rows (t_queue (db ix)) ++
      (if bool_decide (is_Some (recs (db ix) !! key)) then [(next_seq_of (db ix), key)] else [])).
Proof.
  intros Hr [Hwf Hpend] Hn. pose proof (recs_is_Some (db ix) key Hwf) as Hk. unfold requeue, write_txn in Hr.
  rewrite (bool_decide_ext _ _ (iff_sym Hk)) in Hr.
  assert (∀ seq k, t_queue (db ix) !! seq = Some k → (seq < next_seq_of (db ix))%N) as Hs
    by (intros; by eapply wf_seq).
  case_bool_decide as Hknown.
  - set (t' := with_queue _ _) in Hr.
    assert (next_seq_of t' = next_seq_of (db ix) + 1)%N as Hns.
    { unfold t', next_seq_of at 1. simpl. by rewrite wrap64_small. }
    assert (∀ seq k, t_queue t' !! seq = Some k →
      t_queue (db ix) !! seq = Some k ∨ seq = next_seq_of (db ix) ∧ k = key) as Hq.
    { intros seq k. unfold t'. simpl. intros [[<- <-]|[_ ?]]%lookup_insert_Some; auto. }
    assert (index_inv t' ∧ index_ext (db ix) t' ∧ rows (t_queue t') =
      rows (t_queue (db ix)) ++ [(next_seq_of (db ix), key)]) as (Hinv & Hext & Hrows).
    { split_and!; [split; [split|]|split|].
      - exact (wf_parse _ Hwf).
      - intros seq k [Hqk|[-> ->]]%Hq; [by eapply (wf_queue _ Hwf)|]. by apply (recs_is_Some (db ix)).
      - intros seq k [Hqk%Hs|[-> ->]]%Hq; lia.
      - intros k x Hx Hpd. destruct (Hpend _ _ Hx Hpd) as [seq Hseq]. exists seq. unfold t'. simpl.
        rewrite lookup_insert_ne; [done|]. apply Hs in Hseq. lia.
      - intros k x Hx. by exists x.
      - intros seq k Hlt [?|[-> _]]%Hq; [done|lia].
      - lia.
      - unfold t'. simpl. by apply rows_insert_last. }
    destruct (db_faults ix) as [|[] faults]; injection Hr as <- <-; [right|by left|right]; by split_and!.
  - destruct (db_faults ix) as [|[] faults]; injection Hr as <- <-; [right|by left|right];
      rewrite app_nil_r; by split_and!.
Qed.

(** ** Rewriting and bulk loading *)

Lemma put_record_inv k r t :
  index_inv t → index_record_dom r → (ir_status r = Pending → ∃ seq, t_queue t !! seq = Some k) →
  index_inv (put_record k r t).
Proof.
  intros [Hwf Hpend] Hd Hp. split; [by apply put_record_wf|]. intros k' r'.
  rewrite recs_put by done. intros [[<- <-]|[Hne Hk]]%lookup_insert_Some Hst; [by apply Hp|].
  by apply (Hpend k' r').
Qed.

(** One re-stamped record. *)
Definition restamp (m : gmap string IndexRecord) (kc : string * DateTime) : gmap string IndexRecord :=
  alter (λ r, mkIndexRecord (ir_content_hash r) (ir_size r) (ir_partition_id r) (ir_status r) kc.2
    (ir_content_code r) (ir_published_at r)) kc.1 m.

Lemma restamp_put k c r t : index_record_dom r → recs t !! k = Some r →
  recs (put_record k (mkIndexRecord (ir_content_hash r) (ir_size r) (ir_partition_id r) (ir_status r) c
    (ir_content_code r) (ir_published_at r)) t) = restamp (recs t) (k, c).
Proof.
  intros Hd Hk. rewrite recs_put by done. apply map_eq. intros k'. unfold restamp. simpl.
  destruct (decide (k = k')) as [<-|Hne].
  - by rewrite lookup_insert_eq, lookup_alter_eq, Hk.
  - by rewrite lookup_insert_ne, lookup_alter_ne.
Qed.

Lemma restamp_same m k c : (∀ r, m !! k = Some r → ir_created_at r = c) → restamp m (k, c) = m.
Proof.
  intros Hc. apply map_eq. intros k'. unfold restamp. simpl. destruct (decide (k = k')) as [<-|Hne].
  - rewrite lookup_alter_eq. destruct (m !! k) as [r|]; [|done]. simpl. rewrite <-(Hc r eq_refl). by destruct r.
  - by rewrite lookup_alter_ne.
Qed.

Lemma update_loop_ok batch t u m :
  index_inv t → (u + N.of_nat (length batch) < 2 ^ 64)%N → (m + N.of_nat (length batch) < 2 ^ 64)%N →
  ∃ t' u' m', update_loop batch t u m = Ok (u', m', t') ∧ index_inv t' ∧ index_ext t t' ∧
    t_roots t' = t_roots t ∧ t_queue t' = t_queue t ∧
    (u' + m' = u + m + N.of_nat (length batch))%N ∧ recs t' = foldl restamp (recs t) batch.
Proof.
  revert t u m. induction batch as [|[k c] batch IH]; intros t u m Hinv Hu Hm.
  { exists t, u, m. split_and!; try done. simpl; lia. }
  cbn [length] in Hu, Hm. rewrite Nat2N.inj_succ in Hu, Hm. cbn [update_loop].
  rewrite read_record_ok by apply Hinv. destruct (recs t !! k) as [r|] eqn:Ek.
  - rewrite wrap64_small by lia. set (t1 := if decide _ then t else _).
    assert (index_inv t1 ∧ index_ext t t1 ∧ t_roots t1 = t_roots t ∧ t_queue t1 = t_queue t ∧
      recs t1 = restamp (recs t) (k, c)) as (Hinv1 & Hext1 & Hro1 & Hq1 & Hst1).
    { unfold t1. case_decide as Hc.
      { split_and!; try done. symmetry. apply restamp_same. intros r0 Hr0. congruence. }
      pose proof (recs_dom _ _ _ Ek) as Hd. split_and!; try done.
      - apply put_record_inv; [done|done|]. intros Hp. destruct Hinv as [_ Hpend]. by apply (Hpend k r).
      - split; [|done|reflexivity]. intros k' r'. rewrite recs_put by done. intros Hk'.
        destruct (decide (k = k')) as [<-|Hne].
        + rewrite lookup_insert_eq. eexists. split; [done|]. assert (r = r') as <- by congruence. by split_and!.
        + rewrite lookup_insert_ne by done. by exists r'.
      - by apply restamp_put. }
    destruct (IH t1 (u + 1)%N m) as (t' & u' & m' & Heq & Hinv' & Hext' & Hro' & Hq' & Hsum & Hst');
      [done|lia|lia|].
    exists t', u', m'. split_and!; [done|done|by etrans|congruence|congruence|cbn [length]; lia|].
    cbn [foldl]. by rewrite Hst', Hst1.
  - rewrite wrap64_small by lia.
    destruct (IH t u (m + 1)%N) as (t' & u' & m' & Heq & Hinv' & Hext' & Hro' & Hq' & Hsum & Hst');
      [done|lia|lia|].
    exists t', u', m'. split_and!; try done; [cbn [length]; lia|]. cbn [foldl].
    rewrite restamp_same; [done|]. intros r0 Hr0. congruence.
Qed.

Lemma update_created_at_ok batch ix r ix' :
  update_created_at batch ix = (r, ix') → index_inv (db ix) → (N.of_nat (length batch) < 2 ^ 64)%N →
  (r = Err ERedb ∧ db ix' = db ix) ∨
  (∃ u m, r = Ok (u, m) ∧ (u + m = N.of_nat (length batch))%N ∧ index_inv (db ix') ∧
    index_ext (db ix) (db ix') ∧ t_roots (db ix') = t_roots (db ix) ∧ t_queue (db ix') = t_queue (db ix) ∧
    recs (db ix') = foldl restamp (recs (db ix)) batch).
Proof.
  intros Hr Hinv Hn.
  destruct (update_loop_ok batch (db ix) 0 0 Hinv) as (t' & u & m & Heq & Hinv' & Hext & Hro & Hq & Hsum & Hst);
    [lia|lia|].
  unfold update_created_at, write_txn in Hr. rewrite Heq in Hr.
  destruct (db_faults ix) as [|[] faults]; injection Hr as <- <-; [right|by left|right];
    exists u, m; split_and!; try done; lia.
Qed.

Lemma bulk_mark_published_ok records ix r ix' :
  bulk_mark_published records ix = (r, ix') → index_inv (db ix) →
  Forall (λ kr, index_record_dom kr.2 ∧ ir_status kr.2 ≠ Pending) records →
  (r = Err ERedb ∧ db ix' = db ix) ∨
  (r = Ok tt ∧ index_inv (db ix') ∧ t_roots (db ix') = t_roots (db ix) ∧
    t_queue (db ix') = t_queue (db ix) ∧
    recs (db ix') = foldl (λ m kr, <[kr.1 := kr.2]> m) (recs (db ix)) records).
Proof.
  intros Hr Hinv Hdom. unfold bulk_mark_published in Hr. case_bool_decide as Hemp.
  { injection Hr as <- <-. subst. right. by split_and!. }
  assert (∀ t, index_inv t →
    let t' := foldl (λ t '(key, record), put_record key record t) t records in
    index_inv t' ∧ t_roots t' = t_roots t ∧ t_queue t' = t_queue t ∧
    recs t' = foldl (λ m kr, <[kr.1 := kr.2]> m) (recs t) records) as Hloop.
  { clear -Hdom CodecLaws0. induction Hdom as [|[k x] l [Hd Hs] _ IH]; intros t Hinv; [done|]. simpl in *.
    destruct (IH (put_record k x t)) as (Hi & Hro & Hq & Hm); [by apply put_record_inv|].
    split_and!; [done|by rewrite Hro|by rewrite Hq|by rewrite Hm, recs_put]. }
  destruct (Hloop _ Hinv) as (Hi & Hro & Hq & Hm). unfold write_txn in Hr.
  destruct (db_faults ix) as [|[] faults]; injection Hr as <- <-; [right|by left|right]; by split_and!.
Qed.

(** ** Roots *)

(** The local roots, as [get_local_root] reads them. *)
Definition local_root (t : Tables) (p : N) : option Hash :=
  raw ← t_roots t !! p; mkHash <$> to_b32 raw.

Lemma set_local_root_ok p root ix r ix' :
  set_local_root p root ix = (r, ix') → index_inv (db ix) →
  (r = Err ERedb ∧ db ix' = db ix) ∨
  (r = Ok tt ∧ index_inv (db ix') ∧ index_ext (db ix) (db ix') ∧ recs (db ix') = recs (db ix) ∧
    t_queue (db ix') = t_queue (db ix) ∧ next_seq_of (db ix') = next_seq_of (db ix) ∧
    ∀ p', local_root (db ix') p' = if decide (p' = p) then Some root else local_root (db ix) p').
Proof.
  intros Hr Hinv. unfold set_local_root, write_txn in Hr.
  set (t' := with_roots _ _) in Hr.
  assert (index_inv t') as Hinv' by (destruct Hinv as [[] ?]; by split; [split|]).
  assert (index_ext (db ix) t') as Hext by (split; [intros k x Hk; by exists x|done|reflexivity]).
  assert (∀ p', local_root t' p' = if decide (p' = p) then Some root else local_root (db ix) p') as Hl.
  { intros p'. unfold local_root, t'. simpl. case_decide as Hp.
    - subst. rewrite lookup_insert_eq. simpl. rewrite to_b32_list. by destruct root.
    - by rewrite lookup_insert_ne. }
  destruct (db_faults ix) as [|[] faults]; injection Hr as <- <-; [right|by left|right]; by split_and!.
Qed.

Lemma get_local_root_ok p ix r ix' :
  get_local_root p ix = (r, ix') →
  db ix' = db ix ∧ (r = Err ERedb ∨ r = Ok (local_root (db ix) p)).
Proof. intros [Hdb Hr]%read_txn_cases. split; [done|]. destruct Hr as [->| ->]; auto. Qed.

Lemma all_local_roots_ok ix r ix' :
  all_local_roots ix = (r, ix') →
  db ix' = db ix ∧ (r = Err ERedb ∨ ∃ l, r = Ok l ∧
    ∀ p h, (p, h) ∈ l ↔ local_root (db ix) p = Some h).
Proof.
  intros [Hdb Hr]%read_txn_cases. split; [done|]. destruct Hr as [->| ->]; [by left|right].
  eexists. split; [done|]. intros p h. rewrite list_elem_of_omap. unfold local_root. split.
  - intros ([p' raw] & Hin%rows_elem & Heq). destruct (to_b32 raw) as [b|] eqn:Eb; [|done].
    simpl in Heq. injection Heq as <- <-. rewrite Hin. simpl. by rewrite Eb.
  - destruct (t_roots (db ix) !! p) as [raw|] eqn:E; [|done]. simpl.
    destruct (to_b32 raw) as [b|] eqn:Eb; [|done]. intros [= <-].
    exists (p, raw). split; [by apply rows_elem|]. by rewrite Eb.
Qed.
End ops.
