(* ===== verification/PointerDoc.v ===== *)
(** The root pointer document: [crates/registry-node/src/pointer_doc.rs].

    The [iroh-docs] replica is the state [Dc] of the class [IrohDocs].  An
    entry's value is a blob in the same blob store, so reading and writing
    entries works on the pair of both states.  [IrohDocsLaws] is what the
    code relies on: a read returns the entry's content hash, and a write
    stores the value as a blob and points the entry at it. *)

From S2P Require Import Prelude Hash Partition BlobStore Anyhow.

Class IrohDocs (St Dc : Type) := {
  AuthorId : Type;
  (** [doc.get_one(Query::key_exact(key))]: the entry's content hash *)
  doc_get_one : string → io Dc string (option Hash);
  (** [doc.get_many(Query::key_prefix(prefix))], the stream collected: each
      item is an entry's key and content hash, or an error *)
  doc_get_many : string → io Dc string (list (result string (string * Hash)));
  (** [doc.set_bytes(author, key, value)] *)
  doc_set_bytes : AuthorId → string → list byte → io (St * Dc) string unit;
}.

Definition ISCC_INDEX_ROOT_KEY : string := "iscc-index/root".

Section pointer_doc.
Context {St Dc : Type} `{!BlobStore St, !IrohDocs St Dc}.

(** The handle: the write capability of this holder. *)
Record PointerDoc := mkPointerDoc { writer_author : option (AuthorId (St:=St) (Dc:=Dc)) }.

(** [PointerDoc::get_named_root] *)
Definition get_named_root (key : string) : io (St * Dc) anyhow (option Hash) :=
  entry ← on_snd (io_map_err EDoc (doc_get_one (St:=St) key));
  match entry with
  | None => mret None
  | Some content_hash =>
      found ← on_fst (io_map_err EBlob (get content_hash));
      match found with
      | None => io_err (EBail "entry exists but its content blob is unreadable")
      | Some bytes =>
          match to_b32 bytes with
          | Some arr => mret (Some (mkHash arr))
          | None => io_err (EBail "corrupt root pointer entry")
          end
      end
  end.

(** [PointerDoc::get_partition_root] *)
Definition get_partition_root (partition_id : N) : io (St * Dc) anyhow (option Hash) :=
  get_named_root (partition_key partition_id).

Context (doc : PointerDoc).

(** [PointerDoc::set_named_root] *)
Definition set_named_root (key : string) (hash : Hash) : io (St * Dc) anyhow unit :=
  match writer_author doc with
  | None => io_err (EBail "this PointerDoc handle holds no write capability")
  | Some author => io_map_err EDoc (doc_set_bytes author key (b32_list (hash_0 hash)))
  end.

(** [PointerDoc::set_partition_root] *)
Definition set_partition_root (partition_id : N) (hash : Hash) : io (St * Dc) anyhow unit :=
  set_named_root (partition_key partition_id) hash.

(** The streamed entries up to the first error. *)
Fixpoint collect_entries (l : list (result string (string * Hash)))
    : result anyhow (list (string * Hash)) :=
  match l with
  | [] => Ok []
  | Ok e :: l => match collect_entries l with Ok es => Ok (e :: es) | Err x => Err x end
  | Err x :: _ => Err (EDoc x)
  end.

Definition partition_entry (e : string * Hash) : option (N * Hash) :=
  rest ← strip_prefix "partition/" e.1; id ← parse_u32 rest; Some (id, e.2).

(** One of the concurrent reads; its failure leaves the partition out. *)
Definition read_root (e : N * Hash) : io (St * Dc) anyhow (option (N * Hash)) :=
  r ← io_try (on_fst (get e.2));
  mret (bytes ← match r with Ok found => found | Err _ => None end;
        arr ← to_b32 bytes; Some (e.1, mkHash arr)).

(** [PointerDoc::partition_roots].  The reads run concurrently; they are
    independent, and joined in some order: this is the run in entry order
    (the map does not depend on it unless two entries parse to the same id,
    see [partition_roots_order] in [PointerDocFacts]). *)
Definition partition_roots : io (St * Dc) anyhow (gmap N Hash) :=
  entries ← on_snd (io_map_err EDoc (doc_get_many (St:=St) "partition/"));
  entries ← io_lift (collect_entries entries);
  roots ← io_mapM read_root (omap partition_entry entries);
  mret (foldl (λ m e, <[e.1 := e.2]> m) ∅ (omap id roots)).

(** [PointerDoc::entry_content_hashes] *)
Definition entry_content_hashes : io (St * Dc) anyhow (list Hash) :=
  entries ← on_snd (io_map_err EDoc (doc_get_many (St:=St) ""));
  entries ← io_lift (collect_entries entries);
  mret entries.*2.
End pointer_doc.

Arguments PointerDoc St Dc {_}.
Arguments mkPointerDoc {St Dc _}.
Arguments writer_author {St Dc _}.

Class IrohDocsLaws (St Dc : Type) `{!BlobStore St, !IrohDocs St Dc, Blake3} := {
  doc_entries : Dc → gmap string Hash;
  doc_get_one_run k d r d' : doc_get_one (St:=St) k d = (r, d') →
    doc_entries d' = doc_entries d ∧ ∀ o, r = Ok o → o = doc_entries d !! k;
  doc_get_many_run p d r d' : doc_get_many (St:=St) p d = (r, d') →
    doc_entries d' = doc_entries d ∧
    ∀ l es, r = Ok l → collect_entries l = Ok es →
      ∀ k h, (k, h) ∈ es ↔ doc_entries d !! k = Some h ∧ is_Some (strip_prefix p k);
  (** the value is put first; the entry points at it unless the call fails *)
  doc_set_bytes_run a k v s d r s' d' : doc_set_bytes a k v (s, d) = (r, (s', d')) →
    ∃ rp, put v s = (rp, s') ∧
      (is_ok rp ∧ doc_entries d' = <[k := Hash_of v]> (doc_entries d) ∨
       ¬ is_ok r ∧ doc_entries d' = doc_entries d);
}.
