(* ===== verification/PointerDocFacts.v ===== *)
(** What reading and writing the pointer document does to the blob store and
    the entries. *)

From S2P Require Import Prelude Hash Partition BlobStore Anyhow PointerDoc.

Section facts.
Context `{Blake3} {St Dc : Type} `{!BlobStore St, !BlobStoreSpec St, !LocalStore St}.
Context `{!IrohDocs (Traced St) Dc, !IrohDocsLaws (Traced St) Dc}.
Context (D : list byte → Prop) `{!CollisionFree D}.
Implicit Types n : (Traced St * Dc)%type.

(** A read of the node: nothing is written, nothing changes. *)
Record node_read n n' : Prop := {
  nr_log : tr_log n'.1 = tr_log n.1;
  nr_docs : doc_entries (St:=Traced St) n'.2 = doc_entries (St:=Traced St) n.2;
  nr_local : is_local n.1 → contents n'.1 = contents n.1 ∧ is_local n'.1;
}.

#[global] Instance node_read_preorder : PreOrder node_read.
Proof.
  split; [intros n; by split|]. intros n1 n2 n3 [L1 D1 C1] [L2 D2 C2]. split; [congruence..|].
  intros Hl. destruct (C1 Hl) as [E1 Hl1], (C2 Hl1) as [E2 Hl2]. split; [congruence|done].
Qed.

Lemma node_read_store n n' : node_read n n' → store_ok D n.1 →
  contents n'.1 = contents n.1 ∧ store_ok D n'.1.
Proof. intros [_ _ Hc] [Hl Hok]. destruct (Hc Hl) as [He Hl']. unfold store_ok. by rewrite He. Qed.

Lemma get_log (h : Hash) (s : Traced St) r s' : get h s = (r, s') → tr_log s' = tr_log s.
Proof. simpl. destruct (get h (tr_store s)). by intros [= <- <-]. Qed.

Lemma read_on_fst_get {F} (g : BlobStoreError → F) h : steps_in node_read (on_fst (io_map_err g (get h))).
Proof.
  intros [s d] r n' Hr. apply on_fst_run in Hr as (s' & Hg & ->). unfold io_map_err in Hg.
  destruct (get h s) as [r1 s1] eqn:E. injection Hg as <- <-. split; [by eapply get_log|done|].
  intros Hl. by eapply (get_local (St:=Traced St)).
Qed.

Lemma read_on_snd_get_one {F} (g : string → F) k :
  steps_in node_read (on_snd (io_map_err g (doc_get_one (St:=Traced St) k))).
Proof.
  intros [s d] r n' Hr. apply on_snd_run in Hr as (d' & Hg & ->). unfold io_map_err in Hg.
  destruct (doc_get_one k d) as [r1 d1] eqn:E. injection Hg as <- <-.
  destruct (doc_get_one_run _ _ _ _ E) as [He _]. by split.
Qed.

Lemma read_get_named_root k : steps_in node_read (get_named_root (St:=Traced St) (Dc:=Dc) k).
Proof.
  apply steps_in_bind; [apply _|apply read_on_snd_get_one|]. intros [h|]; [|by apply steps_in_ret; apply _].
  apply steps_in_bind; [apply _|apply read_on_fst_get|]. intros [bs|]; [|by apply steps_in_err; apply _].
  destruct (to_b32 bs); [by apply steps_in_ret; apply _|by apply steps_in_err; apply _].
Qed.

(** What a successful read returns: [None] only when there is no entry. *)
Lemma get_named_root_ok k n o n' :
  get_named_root k n = (Ok o, n') →
  match doc_entries (St:=Traced St) n.2 !! k with
  | None => o = None
  | Some h => ∃ r, o = Some r ∧ contents n'.1 !! h = Some (b32_list (hash_0 r))
  end.
Proof.
  destruct n as [s d]. unfold get_named_root. intros (entry & n1 & H1 & Hr)%io_bind_ok.
  apply on_snd_run in H1 as (d1 & H1 & ->). apply io_map_err_ok in H1.
  destruct (doc_get_one_run _ _ _ _ H1) as [_ He]. specialize (He entry eq_refl). simpl. rewrite <-He.
  destruct entry as [h|]; [|by run_inv].
  apply io_bind_ok in Hr as (found & n2 & H2 & Hr). apply on_fst_run in H2 as (s2 & H2 & ->).
  apply io_map_err_ok in H2. destruct found as [bs|]; [|done].
  destruct (to_b32 bs) as [arr|] eqn:Eb; [|done]. run_inv. exists (mkHash arr). split; [done|].
  apply to_b32_Some in Eb. simpl. rewrite Eb. by apply (get_sound (St:=Traced St)) in H2.
Qed.

(** A write: on success the entry points at the stored value; on an error
    it does, or nothing happened to the entries. *)
Lemma set_named_root_run doc k h n r n' :
  set_named_root doc k h n = (r, n') →
  advances D n.1 n'.1 ∧
  (doc_entries (St:=Traced St) n'.2 = <[k := Hash_of (b32_list (hash_0 h))]> (doc_entries (St:=Traced St) n.2) ∧
     contents n'.1 !! Hash_of (b32_list (hash_0 h)) = Some (b32_list (hash_0 h)) ∨
   ¬ is_ok r ∧ doc_entries (St:=Traced St) n'.2 = doc_entries (St:=Traced St) n.2).
Proof.
  destruct n as [s d]. unfold set_named_root. destruct (writer_author doc) as [a|].
  - unfold io_map_err. destruct (doc_set_bytes _ _ _ _) as [r1 [s1 d1]] eqn:E. intros [= <- <-].
    destruct (doc_set_bytes_run _ _ _ _ _ _ _ _ E) as (rp & Hput & Hcases). simpl.
    split; [by eapply (steps_put D)|]. destruct Hcases as [[Hok He]|[Hno He]].
    + left. split; [done|]. destruct rp as [h'|]; [|done].
      by destruct (put_ok_run _ _ _ _ Hput) as (-> & Hc & _).
    + right. split; [|done]. by destruct r1.
  - intros [= <- <-]. split; [reflexivity|]. right. by split; [intros []|].
Qed.
End facts.

(** In whatever order the reads are joined, the map is the same. *)
Lemma partition_roots_order (l l' : list (N * Hash)) (m : gmap N Hash) : NoDup l.*1 → l ≡ₚ l' →
  foldl (λ m e, <[e.1 := e.2]> m) m l = foldl (λ m e, <[e.1 := e.2]> m) m l'.
Proof.
  intros Hnd Hp. revert m Hnd. induction Hp as [|x l l' _ IH|x y l|l1 l2 l3 H12 IH12 _ IH23]; intros m Hnd; simpl.
  - done.
  - apply IH. by apply NoDup_cons in Hnd as [_ ?].
  - rewrite !fmap_cons in Hnd. apply NoDup_cons in Hnd as [Hxy _]. apply not_elem_of_cons in Hxy as [Hne _].
    by rewrite (insert_insert_ne m).
  - rewrite IH12 by done. apply IH23. by rewrite <-H12.
Qed.
