(* ===== verification/Daemon.v ===== *)
(** The state of the daemon and how its tasks share it:
    [crates/registryd/src/main.rs] (the wiring of [run]).

    The publisher, the HTTP handlers and the blob store's garbage collector
    run concurrently on the same index, blob store and pointer document.  A
    task is a program over [World]; every call into the index or the node is
    an await point, where the other writers may have moved: [w_env] lists,
    for each such point to come, the writes other tasks complete there.
    Theorems hold for every [w_env] whose submissions are well formed. *)

From S2P Require Import Prelude Hash Record BlobStore Anyhow Index PointerDoc.

(** A write another task completes: a value blob stored, a batch of records
    claimed.  Handlers do nothing else to the shared state. *)
Inductive EnvAction :=
| EnvPut (value : list byte)
| EnvSubmit (submissions : list (string * IndexRecord)).

(** [PublisherStatus] *)
Record PublisherStatus := mkPublisherStatus {
  last_publish_unix : Z;
  cycles_completed : N;
  records_published : N;
  last_error : option anyhow;
}.

Definition PublisherStatus_default : PublisherStatus := mkPublisherStatus 0 0 0 None.

(** [GcSources]: the handles are the shared components of the world, the
    blob store in its local-only view. *)
Record GcSources := mkGcSources { gc_top_level_partitions : N }.

Section daemon.
Context {St Dc : Type}.

Record World := mkWorld {
  w_index : RecordIndex;
  w_node : St * Dc;
  (** [GcState]: the count of writes in flight, and the sources once they
      are wired *)
  w_active_writes : nat;
  w_sources : option GcSources;
  w_status : PublisherStatus;
  (** [Utc::now()], and the files [read_to_string] can read *)
  w_now : DateTime;
  w_files : string → option string;
  w_env : list (list EnvAction);
}.

Definition with_index (ix : RecordIndex) (w : World) : World :=
  mkWorld ix (w_node w) (w_active_writes w) (w_sources w) (w_status w) (w_now w) (w_files w) (w_env w).
Definition with_node (n : St * Dc) (w : World) : World :=
  mkWorld (w_index w) n (w_active_writes w) (w_sources w) (w_status w) (w_now w) (w_files w) (w_env w).
Definition with_active (a : nat) (w : World) : World :=
  mkWorld (w_index w) (w_node w) a (w_sources w) (w_status w) (w_now w) (w_files w) (w_env w).
Definition with_status (s : PublisherStatus) (w : World) : World :=
  mkWorld (w_index w) (w_node w) (w_active_writes w) (w_sources w) s (w_now w) (w_files w) (w_env w).
Definition with_env (e : list (list EnvAction)) (w : World) : World :=
  mkWorld (w_index w) (w_node w) (w_active_writes w) (w_sources w) (w_status w) (w_now w) (w_files w) e.

Context `{!Codec IndexRecord, !BlobStore St}.

Definition env_action (w : World) (a : EnvAction) : World :=
  match a with
  | EnvPut v => with_node ((put v (w_node w).1).2, (w_node w).2) w
  | EnvSubmit subs => with_index (submit_many subs (w_index w)).2 w
  end.

(** What happens between two steps of a task. *)
Definition interfere (w : World) : World :=
  match w_env w with
  | [] => w
  | actions :: env => foldl env_action (with_env env w) actions
  end.

(** [spawn_blocking(move || index.op()).await] *)
Definition on_index {A} (m : io RecordIndex anyhow A) : io World anyhow A :=
  λ w, let w := interfere w in
       match m (w_index w) with (r, ix) => (r, with_index ix w) end.

(** A call on the blob store and the pointer document. *)
Definition on_node {A} (m : io (St * Dc) anyhow A) : io World anyhow A :=
  λ w, let w := interfere w in
       match m (w_node w) with (r, n) => (r, with_node n w) end.

Definition read_world {E A} (f : World → A) : io World E A := λ w, (Ok (f w), w).

(** [let _guard = gc_state.write_guard();] around [m]: dropped on every
    exit. *)
Definition with_write_guard {E A} (m : io World E A) : io World E A :=
  λ w, match m (with_active (S (w_active_writes w)) w) with
       | (r, w') => (r, with_active (w_active_writes w' - 1) w')
       end.
End daemon.

Arguments World St Dc : clear implicits.
Arguments mkWorld {St Dc}.
