(* ===== verification/Files.v ===== *)
(** Text files and paths of the local file system.

    A task sees the files as [w_files] of its world: the contents of the
    regular files that can be read.  Which paths can be written is a
    parameter [writable]; a write to another path fails and changes
    nothing. *)

From stdpp Require Import functions.
From S2P Require Import Prelude BlobStore Anyhow Index Daemon.

(** [str::lines], [BufRead::lines]: a line ends at a newline, with the
    carriage return before it; an unterminated last line is kept as it is,
    unless empty. *)
Definition strip_cr (l : list byte) : list byte :=
  match last l with Some x0d => take (length l - 1) l | _ => l end.
Fixpoint line_pieces (l : list (list byte)) : list (list byte) :=
  match l with
  | [] => []
  | [x] => if bool_decide (x = []) then [] else [x]
  | x :: l => strip_cr x :: line_pieces l
  end.
Definition lines (s : string) : list (list byte) := line_pieces (split_on x0a (str_bytes s)).

(** [str::from_utf8(l).is_ok()] *)
Definition byte_in (lo hi : N) (b : byte) : bool := ((lo <=? to_N b) && (to_N b <=? hi))%N.
Definition continuation : byte → bool := byte_in 128 191.
Fixpoint utf8_valid (l : list byte) : bool :=
  match l with
  | [] => true
  | b :: l =>
      if byte_in 0 127 b then utf8_valid l
      else if byte_in 194 223 b then
        match l with c :: l => continuation c && utf8_valid l | _ => false end
      else if byte_in 224 239 b then
        match l with
        | c :: d :: l =>
            byte_in (if to_N b =? 224 then 160 else 128)%N (if to_N b =? 237 then 159 else 191)%N c
            && continuation d && utf8_valid l
        | _ => false
        end
      else if byte_in 240 244 b then
        match l with
        | c :: d :: e :: l =>
            byte_in (if to_N b =? 240 then 144 else 128)%N (if to_N b =? 244 then 143 else 191)%N c
            && continuation d && continuation e && utf8_valid l
        | _ => false
        end
      else false
  end.

(** The items of [BufRead::lines]. *)
Definition reader_lines (text : string) : list (result anyhow string) :=
  (λ l, if utf8_valid l then Ok (str_of_bytes l) else Err (EIo "stream did not contain valid UTF-8"))
  <$> lines text.

(** [Path::join] *)
Definition path_join (base name : string) : string :=
  if bool_decide (is_Some (strip_prefix "/" name)) then name
  else if bool_decide (base = "" ∨ last (str_bytes base) = Some x2f) then (base +:+ name)%stdpp
  else (base +:+ "/" +:+ name)%stdpp.

(** [Path::file_name], [Path::extension] *)
Definition path_file_name (path : string) : option (list byte) :=
  n ← last (filter (λ c, c ≠ [] ∧ c ≠ [x2e]) (split_on x2f (str_bytes path)));
  if decide (n = [x2e; x2e]) then None else Some n.
Definition path_extension (path : string) : option (list byte) :=
  n ← path_file_name path;
  let pieces := split_on x2e n in
  if decide (length pieces < 2 ∨ take (length pieces - 1) pieces = [[]]) then None else last pieces.

Section files.
Context {St Dc : Type} (writable : string → bool).

Definition with_files (f : string → option string) (w : World St Dc) : World St Dc :=
  mkWorld (w_index w) (w_node w) (w_active_writes w) (w_sources w) (w_status w) (w_now w) f (w_env w).

(** [std::fs::read_to_string(path)], [File::open(path)] read to its end *)
Definition read_file (path : string) : io (World St Dc) anyhow string :=
  λ w, match w_files w path with
       | Some text => (Ok text, w)
       | None => (Err (EIo "No such file or directory (os error 2)"), w)
       end.

(** [File::create(path)] with everything written to it *)
Definition write_file (path text : string) : io (World St Dc) anyhow unit :=
  λ w, if writable path then (Ok tt, with_files (<[path := Some text]> (w_files w)) w)
       else (Err (EIo "Permission denied (os error 13)"), w).

(** [OpenOptions::new().create(true).append(true).open(path)], and a write
    to it *)
Definition append_file (path text : string) : io (World St Dc) anyhow unit :=
  λ w, write_file path (default "" (w_files w path) +:+ text)%stdpp w.

(** [std::fs::remove_file(path)] *)
Definition remove_file (path : string) : io (World St Dc) anyhow unit :=
  λ w, if writable path then (Ok tt, with_files (<[path := None]> (w_files w)) w)
       else (Err (EIo "Permission denied (os error 13)"), w).
End files.

(** ** Lines written are lines read *)

(** A line a writer may put before its newline. *)
Definition line_ok (l : list byte) : Prop := x0a ∉ l ∧ last l ≠ Some x0d.

(** What is written for the lines [ls]. *)
Definition text_of (ls : list (list byte)) : string := str_of_bytes (concat ((λ l, l ++ [x0a]) <$> ls)).

Lemma line_pieces_cons x l : l ≠ [] → line_pieces (x :: l) = strip_cr x :: line_pieces l.
Proof. by destruct l. Qed.

Lemma split_on_nonnil sep l : split_on sep l ≠ [].
Proof. destruct l as [|b l]; simpl; [done|]. case_decide; [done|]. by destruct (split_on sep l). Qed.

Lemma strip_cr_ok l : last l ≠ Some x0d → strip_cr l = l.
Proof. unfold strip_cr. destruct (last l) as [[]|]; done. Qed.

Lemma lines_text ls : Forall line_ok ls → lines (text_of ls) = ls.
Proof.
  intros Hls. unfold lines, text_of. rewrite str_bytes_of_bytes.
  induction Hls as [|l ls [Hnl Hcr] _ IH]; [done|]. rewrite fmap_cons. cbn [concat].
  rewrite <-(assoc_L (++)). cbn [app]. rewrite split_on_seg by done.
  rewrite line_pieces_cons by apply split_on_nonnil. by rewrite strip_cr_ok, IH.
Qed.

Lemma text_of_app ls ls' : text_of (ls ++ ls') = (text_of ls +:+ text_of ls')%stdpp.
Proof.
  unfold text_of. apply (inj str_bytes). rewrite str_bytes_app, !str_bytes_of_bytes.
  by rewrite fmap_app, concat_app.
Qed.

(** ** Paths *)

Example path_join_plain : path_join "/var/lib/registryd" "blobs" = "/var/lib/registryd/blobs".
Proof. reflexivity. Qed.
Example path_extension_gz : path_extension "/tmp/dump.ndjson.gz" = Some (str_bytes "gz").
Proof. reflexivity. Qed.
Example path_extension_hidden : path_extension "/tmp/.gz" = None.
Proof. reflexivity. Qed.
