(* ===== verification/Gc.v ===== *)
(** The protect callback of the blob store's garbage collector:
    [crates/registryd/src/gc.rs].

    Before each run the callback collects the blobs that must survive; the
    store then drops every other blob ([sweep]).  The walks write into the
    shared set as they go, so what a failing walk had collected stays in it.
    The iteration order of the [HashMap] of roots is a parameter. *)

From S2P Require Import Prelude Hash Partition Record BlobStore Hamt Similarity IsccStore Anyhow Index PointerDoc Daemon.

(** [iroh_blobs::store::ProtectOutcome] *)
Inductive ProtectOutcome := ProtectContinue | ProtectAbort.

(** What the store does after [ProtectContinue]. *)
Definition sweep (C : gmap Hash (list byte)) (live : gset Hash) : gmap Hash (list byte) :=
  filter (λ hb, hb.1 ∈ live) C.

(** [.into_iter().collect()] into the map of roots. *)
Definition root_map (l : list (N * Hash)) : gmap N Hash :=
  foldl (λ m pr, <[pr.1 := pr.2]> m) ∅ l.

Section gc.
Context `{Blake3} `{Sha256} `{!Codec LeafEntry, !Codec IndexRecord}.
Context `{!Codec DirectoryV2, !Codec BucketManifest, !Codec (list IsccMember), !Codec (gmap string Hash)}.
Context {St Dc : Type} `{!BlobStore St, !IrohDocs St Dc}.
Context (hash_order : gmap N Hash → list (N * Hash)) (fuel : nat).

(** A walk whose error is logged and dropped: the set keeps what the walk
    had put into it. *)
Definition keep_partial {E} (walk : io (St * gset Hash) E unit) (live : gset Hash)
    : io St anyhow (gset Hash) :=
  λ s, match walk (s, live) with (_, (s, live)) => (Ok live, s) end.

(** The roots of the partitions without a local one come from the pointer
    document. *)
Definition fill_root (roots : gmap N Hash) (partition_id : N) : io (World St Dc) anyhow (gmap N Hash) :=
  match roots !! partition_id with
  | Some _ => mret roots
  | None =>
      root ← on_node (get_partition_root partition_id);
      mret (match root with Some root => <[partition_id := root]> roots | None => roots end)
  end.

Definition walk_partition (live : gset Hash) (pr : N * Hash) : io (World St Dc) anyhow (gset Hash) :=
  on_node (on_fst (keep_partial (collect_reachable fuel pr.2) live)).

(** [collect_live] *)
Definition collect_live (sources : GcSources) : io (World St Dc) anyhow (gset Hash) :=
  hashes ← on_index all_content_hashes;
  local_roots ← on_index all_local_roots;
  let partition_ids := N.of_nat <$> seq 0 (N.to_nat (gc_top_level_partitions sources)) in
  roots ← io_fold fill_root (root_map local_roots) partition_ids;
  live ← io_fold walk_partition (list_to_set hashes) (hash_order roots);
  iscc_root ← on_node (get_named_root ISCC_INDEX_ROOT_KEY);
  live ← match iscc_root with
         | Some root => on_node (on_fst (keep_partial (iscc_collect_reachable root) live))
         | None => mret live
         end;
  entry_hashes ← on_node entry_content_hashes;
  mret (list_to_set entry_hashes ∪ live).

(** The [add_protected] closure of [config]: the sources and the counter of
    writes are read once, when the run starts. *)
Definition add_protected (live : gset Hash) (w : World St Dc)
    : ProtectOutcome * gset Hash * World St Dc :=
  match w_sources w with
  | None => (ProtectAbort, live, w)
  | Some sources =>
      if 0 <? w_active_writes w then (ProtectAbort, live, w)
      else
        match collect_live sources w with
        | (Ok protected, w) => (ProtectContinue, protected ∪ live, w)
        | (Err _, w) => (ProtectAbort, live, w)
        end
  end.

Record GcConfig := mkGcConfig {
  gc_interval : N;
  gc_add_protected : gset Hash → World St Dc → ProtectOutcome * gset Hash * World St Dc;
}.

(** [config] *)
Definition config (interval_seconds : N) : option GcConfig :=
  if (interval_seconds =? 0)%N then None else Some (mkGcConfig interval_seconds add_protected).
End gc.
