(* ===== verification/Api.v ===== *)
(** The HTTP write API: [crates/registryd/src/api.rs].

    A handler is a program over the daemon's [World] that ends in a response
    or an [ApiError]; [router] is the dispatch with the token check in front
    of the write endpoints.  A request is already parsed (axum's extractors
    are not part of the repository).  A JSON object is a [BTreeMap]: its
    fields are sorted by name.  The texts of errors and times are the
    operations of the class [Texts]. *)

From S2P Require Import Prelude Hash Partition Record BlobStore Hamt Iscc CidKey Anyhow Index PointerDoc Daemon.

Class Texts := {
  anyhow_text : anyhow → string;
  blob_error_text : BlobStoreError → string;
  to_rfc3339 : DateTime → string;
  (** [DateTime::from_timestamp(secs, 0)] *)
  from_timestamp : Z → option DateTime;
}.

(** ** JSON bodies *)

(** [json!({..})] *)
Definition json_object (fields : list (string * JsonValue)) : JsonValue :=
  JObject (sort_by_key fst fields).

(** [body[key] = value] on an object *)
Definition json_set (key : string) (value : JsonValue) (body : JsonValue) : JsonValue :=
  match body with
  | JObject fields => json_object ((key, value) :: filter (λ kv, kv.1 ≠ key) fields)
  | _ => body
  end.

Definition json_nat (n : N) : JsonValue := JNumber (dec_padded 1 n).
Definition json_option (o : option JsonValue) : JsonValue := default JNull o.

(** ** Errors *)

Inductive ApiError :=
| InvalidKey (msg : string)
| InvalidValue (msg : string)
| ValueTooLarge (limit : N)
| Unauthorized
| ApiConflict (existing_hash : string)
| BatchTooLarge (limit : N)
| Internal (detail : string).

(** [#[error(..)]] *)
Definition ApiError_to_string (e : ApiError) : string :=
  match e with
  | InvalidKey m => "invalid record key: " +:+ m
  | InvalidValue m => "invalid value: " +:+ m
  | ValueTooLarge limit => "value too large (limit " +:+ dec_padded 1 limit +:+ " bytes)"
  | Unauthorized => "missing or unknown bearer token"
  | ApiConflict _ => "key already exists with different content"
  | BatchTooLarge limit => "too many records in batch (limit " +:+ dec_padded 1 limit +:+ ")"
  | Internal d => "internal error: " +:+ d
  end.

(** [ApiError::code], [ApiError::status] *)
Definition ApiError_code (e : ApiError) : string :=
  match e with
  | InvalidKey _ => "invalid_key"
  | InvalidValue _ => "invalid_value"
  | ValueTooLarge _ => "value_too_large"
  | Unauthorized => "unauthorized"
  | ApiConflict _ => "conflict"
  | BatchTooLarge _ => "batch_too_large"
  | Internal _ => "internal_error"
  end.

Definition ApiError_status (e : ApiError) : N :=
  match e with
  | InvalidKey _ | InvalidValue _ => 400
  | ValueTooLarge _ => 413
  | Unauthorized => 401
  | ApiConflict _ => 409
  | BatchTooLarge _ => 400
  | Internal _ => 500
  end.

Inductive Body := BodyJson (j : JsonValue) | BodyText (s : string).
Record Response := mkResponse { rs_status : N; rs_body : Body }.

(** [impl IntoResponse for ApiError] *)
Definition ApiError_into_response (e : ApiError) : Response :=
  let body := json_object [("error", JString (ApiError_code e)); ("message", JString (ApiError_to_string e))] in
  let body := match e with
              | ApiConflict h => json_set "existing_hash" (JString h) body
              | _ => body
              end in
  mkResponse (ApiError_status e) (BodyJson body).

Record SubmitRecordRequest := mkSubmitRecordRequest { rq_key : string; rq_value : JsonValue }.

(** [AppState]; the index, store, GC state and publisher status are the
    world's. *)
Record AppState := mkAppState {
  api_tokens : gset string;
  read_ticket : string;
  endpoint_id : string;
  max_value_bytes : N;
  batch_max_records : N;
  top_level_partitions : N;
}.

Section api.
Context `{Blake3} `{Hex} `{Sha256} `{CidCrate} `{Base32} `{SerdeJson} `{Timestamps} `{Texts}.
Context `{!Codec IndexRecord} {St Dc : Type} `{!BlobStore St}.
Context (state : AppState).

Abbreviation handler A := (io (World St Dc) ApiError A).

(** [.map_err(|e| ApiError::Internal(e.to_string()))] *)
Definition internal {A} (m : io (World St Dc) anyhow A) : handler A :=
  io_map_err (λ e, Internal (anyhow_text e)) m.

(** [canonical_value] *)
Definition canonical_value (value : JsonValue) : result ApiError string :=
  match value with
  | JObject _ => Ok (json_to_string value)
  | JString raw =>
      match json_from_str raw with
      | Err e => Err (InvalidValue ("string value is not JSON: " +:+ e))
      | Ok (JObject _) => Ok raw
      | Ok _ => Err (InvalidValue "value must be a JSON object")
      end
  | _ => Err (InvalidValue "value must be a JSON object")
  end.

(** [validate_one], at the time [now] *)
Definition validate_one (now : DateTime) (key : string) (value : JsonValue)
    : result ApiError (string * IndexRecord) :=
  if negb (is_valid_record_key key) then
    Err (InvalidKey ("'" +:+ key +:+ "' is not a valid CIDv1 or declaration id"))
  else
    match canonical_value value with
    | Err e => Err e
    | Ok value_str =>
        if (max_value_bytes state <? N.of_nat (String.length value_str))%N then
          Err (ValueTooLarge (max_value_bytes state))
        else
          Ok (value_str,
              mkIndexRecord (content_hash value_str) (N.of_nat (String.length value_str))
                (partition_id_for_key key (top_level_partitions state)) Pending
                (default now (declaration_timestamp value_str)) (extract_from_json value_str) None)
    end.

(** The write of a value blob, with its error's text. *)
Definition store_value (value_str : string) : handler Hash :=
  io_map_err (λ e, Internal ("failed to store value blob: " +:+
      match e with EBlob b => blob_error_text b | _ => anyhow_text e end))
    (on_node (on_fst (io_map_err EBlob (put (str_bytes value_str))))).

(** [prepare_one] *)
Definition prepare_one (key : string) (value : JsonValue) : handler (string * IndexRecord) :=
  now ← read_world w_now;
  checked ← io_lift (validate_one now key value);
  _ ← store_value checked.1;
  mret (key, checked.2).

(** [ingest_one] *)
Definition ingest_one (key : string) (value : JsonValue) : handler (SubmitOutcome * N) :=
  with_write_guard (
    prepared ← prepare_one key value;
    outcome ← internal (on_index (submit prepared.1 prepared.2));
    mret (outcome, ir_partition_id prepared.2)).

(** [submit_record] *)
Definition submit_record (req : SubmitRecordRequest) : handler Response :=
  r ← ingest_one (rq_key req) (rq_value req);
  let '(outcome, partition) := r in
  match outcome with
  | Queued => mret (mkResponse 202 (BodyJson (json_object
      [("key", JString (rq_key req)); ("status", JString "queued"); ("partition", json_nat partition)])))
  | DuplicateIdentical => mret (mkResponse 200 (BodyJson (json_object
      [("key", JString (rq_key req)); ("status", JString "queued"); ("partition", json_nat partition);
       ("duplicate", JBool true)])))
  | Conflict existing_hash => io_err (ApiConflict (Hash_to_prefixed existing_hash))
  end.

(** ** Batches *)

Definition error_result (key : string) (err : ApiError) : JsonValue :=
  json_object [("key", JString key); ("status", JString "error"); ("error", JString (ApiError_code err));
    ("message", JString (ApiError_to_string err))].
Definition queued_result (key : string) (partition : N) (duplicate : bool) : JsonValue :=
  json_object [("key", JString key); ("status", JString "queued"); ("partition", json_nat partition);
    ("duplicate", JBool duplicate)].
Definition conflict_result (key : string) (existing_hash : Hash) : JsonValue :=
  json_object [("key", JString key); ("status", JString "error"); ("error", JString "conflict");
    ("existing_hash", JString (Hash_to_prefixed existing_hash))].

(** A valid record of the batch: its slot, key, value and index record. *)
Definition candidate : Type := nat * string * string * IndexRecord.

(** The validation loop: the results so far and the candidates. *)
Fixpoint validate_batch (now : DateTime) (i : nat) (records : list SubmitRecordRequest)
    : list (option JsonValue) * list candidate :=
  match records with
  | [] => ([], [])
  | record :: records =>
      let '(results, candidates) := validate_batch now (S i) records in
      match validate_one now (rq_key record) (rq_value record) with
      | Ok (value_str, rec) => (None :: results, (i, rq_key record, value_str, rec) :: candidates)
      | Err err => (Some (error_result (rq_key record) err) :: results, candidates)
      end
  end.

(** One candidate after the precheck: answered from the index, or its value
    written.  The writes run concurrently, at most 32 at a time; here they
    run in slot order, with the other tasks in between. *)
Definition precheck_one (acc : list (option JsonValue) * list (nat * string * IndexRecord))
    (c : candidate * option IndexRecord)
    : handler (list (option JsonValue) * list (nat * string * IndexRecord)) :=
  let '(results, prepared) := acc in
  let '((slot, key, value_str, rec), known) := c in
  match known with
  | Some prior =>
      if decide (ir_content_hash prior = ir_content_hash rec) then
        mret (<[slot := Some (queued_result key (ir_partition_id rec) true)]> results, prepared)
      else mret (<[slot := Some (conflict_result key (ir_content_hash prior))]> results, prepared)
  | None =>
      outcome ← io_try (store_value value_str);
      match outcome with
      | Ok _ => mret (results, prepared ++ [(slot, key, rec)])
      | Err err => mret (<[slot := Some (error_result key err)]> results, prepared)
      end
  end.

Definition claim_result (p : nat * string * IndexRecord) (outcome : SubmitOutcome) : JsonValue :=
  match outcome with
  | Conflict existing_hash => conflict_result p.1.2 existing_hash
  | outcome => queued_result p.1.2 (ir_partition_id p.2) (bool_decide (outcome = DuplicateIdentical))
  end.

(** [submit_batch] *)
Definition submit_batch (records : list SubmitRecordRequest) : handler Response :=
  if (batch_max_records state <? N.of_nat (length records))%N then
    io_err (BatchTooLarge (batch_max_records state))
  else
    with_write_guard (
      now ← read_world w_now;
      let '(results, candidates) := validate_batch now 0 records in
      existing ← internal (on_index (get_many ((λ c : candidate, c.1.1.2) <$> candidates)));
      acc ← io_fold precheck_one (results, []) (zip candidates existing);
      let '(results, prepared) := acc in
      outcomes ← internal (on_index (submit_many ((λ p, (p.1.2, p.2)) <$> prepared)));
      let results := foldl (λ results po, <[po.1.1.1 := Some (claim_result po.1 po.2)]> results)
                       results (zip prepared outcomes) in
      mret (mkResponse 207 (BodyJson (json_object [("results", JArray (json_option <$> results))])))).

(** ** Reads *)

(** [get_record] *)
Definition get_record (key : string) : handler Response :=
  record ← internal (on_index (RecordIndex_get key));
  match record with
  | None => mret (mkResponse 404 (BodyJson (json_object [("key", JString key); ("status", JString "not_found")])))
  | Some record =>
      let body := json_object
        [("key", JString key); ("status", JString (RecordStatus_as_str (ir_status record)));
         ("hash", JString (Hash_to_prefixed (ir_content_hash record)));
         ("partition", json_nat (ir_partition_id record)); ("size", json_nat (ir_size record));
         ("created_at", JString (to_rfc3339 (ir_created_at record)))] in
      let body := match ir_published_at record with
                  | Some t => json_set "published_at" (JString (to_rfc3339 t)) body
                  | None => body
                  end in
      found ← io_try (E:=anyhow) (on_node (on_fst (io_map_err EBlob (get (ir_content_hash record)))));
      let body := match found with
                  | Ok (Some bytes) =>
                      match json_from_str (str_of_bytes bytes) with
                      | Ok value => json_set "value" value body
                      | Err _ => body
                      end
                  | _ => body
                  end in
      mret (mkResponse 200 (BodyJson body))
  end.

(** [health]: a failing index counts as an empty one. *)
Definition health : handler Response :=
  stats ← io_try (E:=anyhow) (on_index (depth ← queue_depth; total ← records_total; mret (depth, total)));
  let '(queue_depth, records_total) := match stats with Ok counts => counts | Err _ => (0, 0) end in
  status ← read_world w_status;
  let last_publish := last_publish_unix status in
  mret (mkResponse 200 (BodyJson (json_object
    [("status", JString "ok"); ("queue_depth", json_nat (N.of_nat queue_depth));
     ("records_total", json_nat (N.of_nat records_total));
     ("partitions", json_nat (top_level_partitions state));
     ("endpoint_id", JString (endpoint_id state));
     ("last_publish_at", json_option (
        if (0 <? last_publish)%Z then JString ∘ to_rfc3339 <$> from_timestamp last_publish else None));
     ("cycles_completed", json_nat (cycles_completed status));
     ("records_published", json_nat (records_published status));
     ("last_publish_error", json_option (JString ∘ anyhow_text <$> last_error status))]))).

(** [ticket] *)
Definition ticket : handler Response := mret (mkResponse 200 (BodyText (read_ticket state))).

(** ** Dispatch *)

(** [require_api_token] in front of [next]; the header is its text, when it
    has one. *)
Definition require_api_token (authorization : option string) (next : handler Response) : handler Response :=
  match (h ← authorization; strip_prefix "Bearer " h) with
  | Some t => if decide (t ∈ api_tokens state) then next else io_err Unauthorized
  | None => io_err Unauthorized
  end.

Inductive Request :=
| PostRecord (req : SubmitRecordRequest)
| PostBatch (records : list SubmitRecordRequest)
| GetRecord (key : string)
| GetHealth
| GetTicket.

(** [router]: the token check on the write routes, and an error turned into
    its response. *)
Definition route (authorization : option string) (req : Request) : handler Response :=
  match req with
  | PostRecord req => require_api_token authorization (submit_record req)
  | PostBatch records => require_api_token authorization (submit_batch records)
  | GetRecord key => get_record key
  | GetHealth => health
  | GetTicket => ticket
  end.

Definition router (authorization : option string) (req : Request) (w : World St Dc)
    : Response * World St Dc :=
  match route authorization req w with
  | (Ok response, w) => (response, w)
  | (Err e, w) => (ApiError_into_response e, w)
  end.

(** The limit on request bodies, in [usize] arithmetic. *)
Definition body_limit : N :=
  let saturate n := N.min n (2 ^ 64 - 1) in
  saturate (saturate (batch_max_records state * max_value_bytes state) + 1024 * 1024)%N.
End api.
