(* ===== verification/Hoare.v ===== *)
(** Triples for programs that write blobs.

    [triple P m Q E]: from a state satisfying [P], the program [m] ends in a
    state satisfying [Q] of its value, or [E] on an error, provided every
    blob in the log of the final state is in the collision-free domain [D];
    and [m] only appends to the log.  The condition is on the end of the run,
    so a theorem about a whole run needs it once. *)

From S2P Require Import Prelude BlobStore.

Section triple.
Context {W : Type} (log : W → list (list byte)) (D : list byte → Prop).

Definition triple {E A} (P : W → Prop) (m : io W E A) (Q : A → W → Prop) (X : W → Prop) : Prop :=
  ∀ w r w', m w = (r, w') →
    log w `prefix_of` log w' ∧
    (Forall D (log w') → P w → match r with Ok a => Q a w' | Err _ => X w' end).

Lemma prefix_Forall (l k : list (list byte)) : l `prefix_of` k → Forall D k → Forall D l.
Proof. intros [j ->] [? _]%Forall_app. done. Qed.

Lemma triple_ret {E A} (a : A) P Q X : (∀ w, P w → Q a w) → triple P (mret a : io W E A) Q X.
Proof. intros HQ w r w' [= <- <-]. split; [done|]. auto. Qed.

Lemma triple_err {E A} (e : E) P Q X : (∀ w, P w → X w) → triple P (@io_err W E A e) Q X.
Proof. intros HX w r w' [= <- <-]. split; [done|]. auto. Qed.

Lemma triple_bind {E A B} (m : io W E A) (f : A → io W E B) P R Q X :
  triple P m R X → (∀ a, triple (R a) (f a) Q X) → triple P (m ≫= f) Q X.
Proof.
  intros Hm Hf w r w' Hr. unfold mbind, io_bind in Hr. destruct (m w) as [[a|e] w1] eqn:E1.
  - destruct (Hm _ _ _ E1) as [Hp1 H1]. destruct (Hf _ _ _ _ Hr) as [Hp2 H2].
    split; [by etrans|]. intros HD HP. apply H2; [done|]. apply H1; [by eapply prefix_Forall|done].
  - injection Hr as <- <-. destruct (Hm _ _ _ E1) as [Hp1 H1]. auto.
Qed.

Lemma triple_conseq {E A} (m : io W E A) (P P' : W → Prop) (Q Q' : A → W → Prop) (X X' : W → Prop) :
  triple P' m Q' X' → (∀ w, P w → P' w) → (∀ a w, Q' a w → Q a w) → (∀ w, X' w → X w) →
  triple P m Q X.
Proof.
  intros Hm HP HQ HX w r w' Hr. destruct (Hm _ _ _ Hr) as [Hp H]. split; [done|].
  intros HD Hw. specialize (H HD (HP _ Hw)). destruct r; auto.
Qed.

(** The precondition is kept in mind: it was true of the starting state. *)
Lemma triple_pre {E A} (m : io W E A) P Q X :
  (∀ w0, P w0 → triple (λ w, w = w0) m Q X) → (∀ w r w', m w = (r, w') → log w `prefix_of` log w') →
  triple P m Q X.
Proof.
  intros Hm Hlog w r w' Hr. split; [by eapply Hlog|]. intros HD Hw.
  by destruct (Hm w Hw w r w' Hr) as [_ H]; apply H.
Qed.

(** A fact about the values at hand travels along. *)
Lemma triple_pure_frame {E A} (φ : Prop) (m : io W E A) P Q X :
  triple P m Q X → triple (λ w, φ ∧ P w) m (λ a w, φ ∧ Q a w) X.
Proof.
  intros Hm w r w' Hr. destruct (Hm _ _ _ Hr) as [Hp H]. split; [done|].
  intros HD [Hφ HP]. specialize (H HD HP). by destruct r.
Qed.

Lemma triple_lift {E A} (r : result E A) P (Q : A → W → Prop) X :
  (∀ a w, r = Ok a → P w → Q a w) → (∀ w, P w → X w) → triple P (io_lift r) Q X.
Proof. intros HQ HX w r' w' [= <- <-]. split; [done|]. intros _ HP. destruct r; auto. Qed.

Lemma triple_fold {E A B} (f : A → B → io W E A) (I : list B → A → W → Prop) X xs a :
  (∀ done x rest a, xs = done ++ x :: rest → triple (I done a) (f a x) (I (done ++ [x])) X) →
  triple (I [] a) (io_fold f a xs) (I xs) X.
Proof.
  intros Hf. assert (∀ rest done a, xs = done ++ rest → triple (I done a) (io_fold f a rest) (I xs) X)
    as Hgen; [|by apply (Hgen xs [])].
  induction rest as [|x rest IH]; intros done a0 Hxs; simpl.
  - apply triple_ret. intros w. by rewrite Hxs, app_nil_r.
  - eapply triple_bind; [by eapply Hf|]. intros a1. apply IH. by rewrite <-(assoc_L (++)).
Qed.

Lemma triple_try {E F A} (m : io W E A) P Q X Q' X' :
  triple P m Q' X' → (∀ a w, Q' a w → Q (Ok a) w) → (∀ e w, X' w → Q (Err e) w) →
  triple P (@io_try W E F A m) Q X.
Proof.
  intros Hm HQ HX w r w' Hr. unfold io_try in Hr. destruct (m w) as [r1 w1] eqn:E1.
  injection Hr as <- <-. destruct (Hm _ _ _ E1) as [Hp H]. split; [done|].
  intros HD HP. specialize (H HD HP). destruct r1; auto.
Qed.
End triple.
