(* ===== verification/Publisher.v ===== *)
(** The publisher: [crates/registryd/src/publisher.rs].

    [publish_cycle], [current_root], [heal_pointer_doc], [seed_local_roots],
    [load_denylist] and the iterations of [run] are the source's.  The two
    clocks of [run] ([Instant::now], in seconds) are an argument of its
    iteration. *)

From S2P Require Import Prelude Hash Partition Record BlobStore Hamt Iscc Anyhow Index PointerDoc Daemon Files.

(** [load_denylist] *)
Definition parse_denylist (raw : string) : gset string :=
  list_to_set (str_of_bytes <$> filter (λ l, l ≠ [] ∧ head l ≠ Some x23) (trim <$> lines raw)).

Definition load_denylist (files : string → option string) (path : option string) : gset string :=
  match path with
  | None => ∅
  | Some path => match files path with Some raw => parse_denylist raw | None => ∅ end
  end.

Definition HEAL_INTERVAL : N := 600.

Section publisher.
Context `{Blake3} `{Sha256} `{!Codec LeafEntry, !Codec IndexRecord}.
Context {St Dc : Type} `{!BlobStore St, !IrohDocs St Dc}.

Record Publisher := mkPublisher {
  pointer_doc : PointerDoc St Dc;
  leaf_max_entries : nat;
  max_pending : nat;
  max_interval : N;
  denylist_path : option string;
  top_level_partitions : N;
}.

Context (self : Publisher).

(** [Publisher::queue_depth]: errors count as an empty queue. *)
Definition publisher_queue_depth : io (World St Dc) anyhow nat :=
  r ← io_try (on_index queue_depth);
  mret (match r with Ok n => n | Err _ => 0 end).

(** [Publisher::current_root] *)
Definition current_root (partition_id : N) : io (World St Dc) anyhow (option Hash) :=
  local ← on_index (get_local_root partition_id);
  match local with
  | Some root => mret (Some root)
  | None => on_node (get_partition_root partition_id)
  end.

(** [Publisher::heal_pointer_doc] *)
Definition heal_one (healed : nat) (lr : N * Hash) : io (World St Dc) anyhow nat :=
  r ← io_try (on_node (get_partition_root lr.1));
  match r with
  | Ok (Some _) => mret healed
  | Ok None | Err _ =>
      _ ← on_node (set_partition_root (pointer_doc self) lr.1 lr.2);
      mret (S healed)
  end.

Definition heal_pointer_doc : io (World St Dc) anyhow nat :=
  local_roots ← on_index all_local_roots;
  io_fold heal_one 0 local_roots.

(** [Publisher::seed_local_roots] *)
Definition seed_one (seeded : nat) (partition_id : N) : io (World St Dc) anyhow nat :=
  have ← on_index (get_local_root partition_id);
  match have with
  | Some _ => mret seeded
  | None =>
      r ← io_try (on_node (get_partition_root partition_id));
      match r with
      | Ok (Some root) => _ ← on_index (set_local_root partition_id root); mret (S seeded)
      | _ => mret seeded
      end
  end.

Definition partition_ids : list N := N.of_nat <$> seq 0 (N.to_nat (top_level_partitions self)).

Definition seed_local_roots : io (World St Dc) anyhow nat := io_fold seed_one 0 partition_ids.

(** [per_partition]: the batch by partition, in queue order. *)
Definition group_items (batch : list (N * string * IndexRecord))
    : gmap N (list (N * string * IndexRecord)) :=
  foldl (λ m item, partial_alter (λ l, Some (default [] l ++ [item])) (ir_partition_id item.2) m)
    ∅ batch.

Definition publishable (denylist : gset string) (items : list (N * string * IndexRecord))
    : list (N * string * IndexRecord) := filter (λ it, it.1.2 ∉ denylist) items.
Definition denied (denylist : gset string) (items : list (N * string * IndexRecord))
    : list (N * string * IndexRecord) := filter (λ it, it.1.2 ∈ denylist) items.
Definition entries_of (items : list (N * string * IndexRecord)) : list LeafEntry :=
  (λ it, leaf_entry it.2 it.1.2) <$> items.

(** The tree part of one partition: build, publish, mirror. *)
Definition publish_tree (partition_id : N) (entries : list LeafEntry) : io (World St Dc) anyhow unit :=
  current ← current_root partition_id;
  new_root ← on_node (on_fst (io_map_err EHamt
               (insert_batch current entries (leaf_max_entries self) ∅)));
  _ ← on_node (set_partition_root (pointer_doc self) partition_id new_root);
  on_index (set_local_root partition_id new_root).

(** [index.mark_published(&done)?; index.mark_denylisted(&denied)] *)
Definition mark_items (done denied : list (N * string)) : io (World St Dc) anyhow unit :=
  now ← read_world w_now;
  on_index (_ ← mark_published done now; mark_denylisted denied now).

Definition publish_partition (denylist : gset string) (total : nat)
    (group : N * list (N * string * IndexRecord)) : io (World St Dc) anyhow nat :=
  let '(partition_id, items) := group in
  let ok := publishable denylist items in
  _ ← (if bool_decide (ok = []) then mret tt else publish_tree partition_id (entries_of ok));
  _ ← mark_items ok.*1 (denied denylist items).*1;
  mret (total + length ok).

(** [Publisher::publish_cycle] *)
Definition publish_cycle : io (World St Dc) anyhow nat :=
  with_write_guard (
    batch ← on_index (pending_batch (max_pending self));
    if bool_decide (batch = []) then mret 0
    else
      denylist ← read_world (λ w, load_denylist (w_files w) (denylist_path self));
      io_fold (publish_partition denylist) 0 (rows (group_items batch))).

(** ** The loop of [run] *)

Definition note_success (published : nat) (w : World St Dc) : World St Dc :=
  let s := w_status w in
  with_status (mkPublisherStatus (w_now w / 1000000000) (wrap64 (cycles_completed s + 1))
    (wrap64 (records_published s + N.of_nat published)) None) w.
Definition note_error (e : anyhow) (w : World St Dc) : World St Dc :=
  let s := w_status w in
  with_status (mkPublisherStatus (last_publish_unix s) (cycles_completed s)
    (records_published s) (Some e)) w.

Record LoopState := mkLoopState { last_cycle : N; last_heal : N }.

(** What one turn of the loop decides. *)
Inductive turn := Continue (l : LoopState) | Wait (l : LoopState).

(** One iteration up to the [select!]: heal when due, publish when due; a
    success cycles again at once. *)
Definition run_turn (clock : N) (l : LoopState) : io (World St Dc) anyhow turn :=
  let heal_due := (HEAL_INTERVAL <=? clock - last_heal l)%N in
  _ ← (if heal_due then _ ← io_try (F:=anyhow) heal_pointer_doc; mret tt else mret tt);
  let l := if heal_due then mkLoopState (last_cycle l) clock else l in
  depth ← publisher_queue_depth;
  let due := (0 <? depth) && ((max_pending self <=? depth)
             || (max_interval self <=? clock - last_cycle l)%N) in
  if due then
    r ← io_try publish_cycle;
    match r with
    | Ok published => _ ← modify (note_success published); mret (Continue (mkLoopState clock (last_heal l)))
    | Err e => _ ← modify (note_error e); mret (Wait (mkLoopState clock (last_heal l)))
    end
  else mret (Wait l).

(** The drain on shutdown. *)
Definition run_drain : io (World St Dc) anyhow unit :=
  depth ← publisher_queue_depth;
  if 0 <? depth then _ ← io_try (F:=anyhow) publish_cycle; mret tt else mret tt.

(** [Publisher::run], given the clock reading and the shutdown flag seen by
    each turn; the last turn's wait is where the flag is read. *)
Fixpoint run_loop (ticks : list (N * bool)) (l : LoopState) : io (World St Dc) anyhow unit :=
  match ticks with
  | [] => mret tt
  | (clock, shutdown) :: ticks =>
      t ← run_turn clock l;
      match t with
      | Continue l => run_loop ticks l
      | Wait l => if shutdown : bool then run_drain else run_loop ticks l
      end
  end.

Definition run (clock : N) (ticks : list (N * bool)) : io (World St Dc) anyhow unit :=
  _ ← io_try (F:=anyhow) seed_local_roots;
  _ ← io_try (F:=anyhow) heal_pointer_doc;
  run_loop ticks (mkLoopState clock clock).
End publisher.

Arguments Publisher St Dc {_}.
Arguments mkPublisher {St Dc _}.

Example denylist_parses_comments_and_blanks :
  parse_denylist "# taken down 2026-01-01
key-a

  key-b  
" = {["key-a"; "key-b"]}.
Proof. vm_compute. reflexivity. Qed.
