(* ===== verification/Config.v ===== *)
(** Configuration: [crates/registry-core/src/config.rs],
    [crates/registryd/src/config.rs], [crates/storectl/src/config.rs], and
    the start-up guard and wiring of [crates/registryd/src/main.rs].

    The process environment is a function [env]; a variable that is not
    Unicode counts as unset, as it does for the code.  TOML parsing, the
    platform's directories and socket addresses are operations of classes. *)

From S2P Require Import Prelude Hash Partition BlobStore Iscc Anyhow Index PointerDoc Daemon Files Publisher Api.

Abbreviation Env := (string → option string).

(** ** Environment helpers *)

Inductive ConfigError :=
| MissingVar (key : string)
| InvalidVar (key value msg : string).

Definition ConfigError_to_string (e : ConfigError) : string :=
  match e with
  | MissingVar key => "missing required environment variable " +:+ key
  | InvalidVar key value msg =>
      "environment variable " +:+ key +:+ " has invalid value '" +:+ value +:+ "': " +:+ msg
  end.

(** [T: FromStr], with the error's text. *)
Class FromStr (T : Type) := from_str : string → result string T.

(** Decimal [FromStr] of the unsigned integers of a width: an optional plus
    sign, then digits while the value fits. *)
Fixpoint parse_uint_loop (bits : N) (acc : N) (l : list byte) : result string N :=
  match l with
  | [] => Ok acc
  | b :: l =>
      match byte_digit b with
      | None => Err "invalid digit found in string"
      | Some d =>
          let acc := (acc * 10 + d)%N in
          if (acc <? 2 ^ bits)%N then parse_uint_loop bits acc l
          else Err "number too large to fit in target type"
      end
  end.
Definition parse_uint (bits : N) (s : string) : result string N :=
  match str_bytes s with
  | [] => Err "cannot parse integer from empty string"
  | [x2b] | [x2d] => Err "invalid digit found in string"
  | x2b :: l => parse_uint_loop bits 0 l
  | l => parse_uint_loop bits 0 l
  end.

Definition env_required (env : Env) (key : string) : result ConfigError string :=
  ok_or (MissingVar key) (env key).
Definition env_or (env : Env) (key dflt : string) : string := default dflt (env key).
Definition env_optional (env : Env) (key : string) : option string := env key.

Definition env_parse_or {T} `{!FromStr T} (env : Env) (key : string) (dflt : T) : result ConfigError T :=
  match env key with
  | Some v => result_map_err (InvalidVar key v) (from_str v)
  | None => Ok dflt
  end.
Definition env_parse_required {T} `{!FromStr T} (env : Env) (key : string) : result ConfigError T :=
  v ← env_required env key;
  result_map_err (InvalidVar key v) (from_str v).

Definition log_level_filter (env : Env) (dflt : string) : string :=
  match env "RUST_LOG" with
  | Some v => v
  | None => default dflt (env "LOG_LEVEL")
  end.

(** [u32], [u64] and [usize] variables *)
Definition env_u32 (env : Env) : string → N → result ConfigError N :=
  @env_parse_or N (parse_uint 32) env.
Definition env_u64 (env : Env) : string → N → result ConfigError N :=
  @env_parse_or N (parse_uint 64) env.

(** [IsccConfig], its [Default] and [from_env] *)
Record IsccConfig := mkIsccConfig {
  index_bands : N;
  search_max_radius : N;
  band_probe_radius : N;
}.
Definition IsccConfig_default : IsccConfig := mkIsccConfig 8 16 0.
Definition IsccConfig_from_env (env : Env) : result ConfigError IsccConfig :=
  bands ← env_u32 env "ISCC_INDEX_BANDS" 8%N;
  radius ← env_u32 env "ISCC_SEARCH_MAX_RADIUS" 16%N;
  probe ← env_u32 env "ISCC_BAND_PROBE_RADIUS" 0%N;
  Ok (mkIsccConfig bands radius probe).

(** ** The daemon's configuration *)

(** [SocketAddr] with its [FromStr]; [default_bind_addr] is what the literal
    default parses to. *)
Class SocketAddrs := {
  SocketAddr : Type;
  socket_from_str : string → result string SocketAddr;
  default_bind_addr : SocketAddr;
  default_bind_addr_eq : socket_from_str "127.0.0.1:8080" = Ok default_bind_addr;
}.

Section daemon_config.
Context `{SocketAddrs}.

Record Config := mkConfig {
  cfg_bind_addr : SocketAddr;
  cfg_data_dir : string;
  cfg_api_tokens : list string;
  cfg_max_value_bytes : N;
  cfg_batch_max_records : N;
  cfg_publish_max_pending : N;
  cfg_publish_interval_secs : N;
  cfg_top_level_partitions : N;
  cfg_leaf_max_entries : N;
  cfg_denylist_path : option string;
  cfg_gc_interval_secs : N;
}.

(** [impl Default for Config] *)
Definition Config_default : Config :=
  mkConfig default_bind_addr "/var/lib/registryd" [] (64 * 1024) 500 1000 30
    TOP_LEVEL_PARTITIONS_DEFAULT (N.of_nat LEAF_MAX_ENTRIES_DEFAULT) None 3600.

Definition DEFAULT_CONFIG_PATH : string := "/etc/registryd/config.toml".

(** The tokens of a comma-separated list. *)
Definition split_tokens (v : string) : list string :=
  str_of_bytes <$> filter (λ t, t ≠ []) (trim <$> split_on x2c (str_bytes v)).

(** [Config::apply_env] *)
Definition apply_env (env : Env) (c : Config) : result anyhow Config :=
  let var := result_map_err (λ e, EBail (ConfigError_to_string e)) in
  bind_addr ← match env_optional env "REGISTRYD_BIND_ADDR" with
              | Some v => result_map_err (λ e, EBail ("REGISTRYD_BIND_ADDR '" +:+ v +:+ "' is invalid: " +:+ e))
                            (socket_from_str v)
              | None => Ok (cfg_bind_addr c)
              end;
  let data_dir := default (cfg_data_dir c) (env_optional env "REGISTRYD_DATA_DIR") in
  let api_tokens := match env_optional env "REGISTRYD_API_TOKENS" with
                    | Some v => split_tokens v
                    | None => cfg_api_tokens c
                    end in
  let denylist_path := match env_optional env "REGISTRYD_DENYLIST_PATH" with
                       | Some v => Some v
                       | None => cfg_denylist_path c
                       end in
  max_value_bytes ← var (env_u64 env "REGISTRYD_MAX_VALUE_BYTES" (cfg_max_value_bytes c));
  batch_max_records ← var (env_u64 env "REGISTRYD_BATCH_MAX_RECORDS" (cfg_batch_max_records c));
  publish_max_pending ← var (env_u64 env "REGISTRYD_PUBLISH_MAX_PENDING" (cfg_publish_max_pending c));
  publish_interval_secs ← var (env_u64 env "REGISTRYD_PUBLISH_INTERVAL_SECS" (cfg_publish_interval_secs c));
  top_level_partitions ← var (env_u32 env "REGISTRYD_TOP_LEVEL_PARTITIONS" (cfg_top_level_partitions c));
  leaf_max_entries ← var (env_u64 env "REGISTRYD_LEAF_MAX_ENTRIES" (cfg_leaf_max_entries c));
  gc_interval_secs ← var (env_u64 env "REGISTRYD_GC_INTERVAL_SECS" (cfg_gc_interval_secs c));
  Ok (mkConfig bind_addr data_dir api_tokens max_value_bytes batch_max_records publish_max_pending
    publish_interval_secs top_level_partitions leaf_max_entries denylist_path gc_interval_secs).

(** [toml::from_str::<Config>], [#[serde(deny_unknown_fields, default)]] *)
Context (toml_from_str : string → result string Config).

(** The path to read, and whether it was named explicitly. *)
Definition config_path (env : Env) (cli_path : option string) : string * bool :=
  match cli_path with
  | Some p => (p, true)
  | None => match env "REGISTRYD_CONFIG" with
            | Some p => (p, true)
            | None => (DEFAULT_CONFIG_PATH, false)
            end
  end.

(** [Config::load] *)
Definition Config_load (env : Env) (files : string → option string) (cli_path : option string)
    : result anyhow Config :=
  let '(path, explicit) := config_path env cli_path in
  cfg ← match files path with
        | Some raw => result_map_err (λ e, EBail ("failed to parse " +:+ path +:+ ": " +:+ e)) (toml_from_str raw)
        | None => if explicit then Err (EBail ("cannot read config file " +:+ path)) else Ok Config_default
        end;
  apply_env env cfg.

(** The paths under [data_dir] *)
Definition blob_store_path (c : Config) : string := path_join (cfg_data_dir c) "blobs".
Definition docs_store_path (c : Config) : string := path_join (cfg_data_dir c) "docs".
Definition secrets_dir (c : Config) : string := path_join (cfg_data_dir c) "secrets".
Definition index_path (c : Config) : string := path_join (cfg_data_dir c) "index.redb".
Definition ticket_path (c : Config) : string := path_join (cfg_data_dir c) "read-ticket.txt".

(** ** Start-up: the parts [run] builds from the configuration *)

Context {St Dc : Type} `{!BlobStore St, !IrohDocs St Dc}.

(** The refusal to run without a token. *)
Definition run_guard (c : Config) : result anyhow unit :=
  if bool_decide (cfg_api_tokens c = []) then Err (EBail "no API tokens configured") else Ok tt.

Definition publisher_of (c : Config) (doc : PointerDoc St Dc) : Publisher St Dc :=
  mkPublisher doc (N.to_nat (cfg_leaf_max_entries c)) (N.to_nat (cfg_publish_max_pending c))
    (cfg_publish_interval_secs c) (cfg_denylist_path c) (cfg_top_level_partitions c).

Definition app_state_of (c : Config) (ticket endpoint : string) : AppState :=
  mkAppState (list_to_set (cfg_api_tokens c)) ticket endpoint (cfg_max_value_bytes c)
    (cfg_batch_max_records c) (cfg_top_level_partitions c).

Definition gc_sources_of (c : Config) : GcSources := mkGcSources (cfg_top_level_partitions c).
End daemon_config.

(** ** The client's configuration *)

(** [ConfigFile]: every key may be absent. *)
Record ConfigFile := mkConfigFile {
  cf_read_ticket : option string;
  cf_storage_dir : option string;
  cf_top_level_partitions : option N;
}.
Definition ConfigFile_default : ConfigFile := mkConfigFile None None None.

Record ResolvedConfig := mkResolvedConfig {
  rc_read_ticket : string;
  rc_read_ticket_source : string;
  rc_storage_dir : string;
  rc_storage_dir_source : string;
  rc_top_level_partitions : N;
}.

Section client_config.
(** [dirs::config_dir()], [dirs::data_local_dir()],
    [toml::from_str::<ConfigFile>], and the text compiled in from
    [default_ticket.txt] *)
Context (config_dir data_local_dir : option string) (config_file_from_str : string → result string ConfigFile).
Context (DEFAULT_TICKET : string).

Definition config_file_path : option string :=
  (λ d, path_join (path_join d "storectl") "config.toml") <$> config_dir.

(** [read_config_file] *)
Definition read_config_file (files : string → option string) : ConfigFile :=
  match config_file_path with
  | None => ConfigFile_default
  | Some path =>
      match files path with
      | Some contents => default ConfigFile_default (result_ok (config_file_from_str contents))
      | None => ConfigFile_default
      end
  end.

Definition default_storage_dir : string := path_join (default "." data_local_dir) "storectl".

Definition trim_str (s : string) : string := str_of_bytes (trim (str_bytes s)).

(** [resolve] *)
Definition resolve (env : Env) (files : string → option string) (cli_ticket cli_storage_dir : option string)
    : result anyhow ResolvedConfig :=
  let file := read_config_file files in
  let file_ticket := t ← cf_read_ticket file; if decide (t = "") then None else Some t in
  let '(read_ticket, read_ticket_source) :=
    match cli_ticket, env "STORECTL_READ_TICKET", file_ticket with
    | Some t, _, _ => (t, "--ticket flag")
    | None, Some t, _ => if decide (t = "") then ("", "unset") else (t, "STORECTL_READ_TICKET")
    | None, None, Some t => (t, "config file")
    | None, None, None =>
        if decide (trim_str DEFAULT_TICKET = "") then ("", "unset")
        else (trim_str DEFAULT_TICKET, "compiled-in default")
    end in
  if decide (read_ticket = "") then Err (EBail "no read ticket configured")
  else
    let '(storage_dir, storage_dir_source) :=
      match cli_storage_dir, env "STORECTL_STORAGE_DIR", cf_storage_dir file with
      | Some d, _, _ => (d, "--storage-dir flag")
      | None, Some d, _ => (d, "STORECTL_STORAGE_DIR")
      | None, None, Some d => (d, "config file")
      | None, None, None => (default_storage_dir, "platform default")
      end in
    let from_env := v ← env "STORECTL_TOP_LEVEL_PARTITIONS"; result_ok (parse_uint 32 v) in
    let top_level_partitions :=
      match from_env, cf_top_level_partitions file with
      | Some n, _ | None, Some n => n
      | None, None => TOP_LEVEL_PARTITIONS_DEFAULT
      end in
    Ok (mkResolvedConfig read_ticket read_ticket_source storage_dir storage_dir_source top_level_partitions).
End client_config.
