(* ===== verification/BulkLoad.v ===== *)
(** Offline bulk loading: [crates/registryd/src/bulk_load.rs].

    The commands run with the daemon stopped, on a world without other
    tasks.  A dump is a file of JSON lines, possibly compressed: the decoded
    lines of a [.gz] file, and the parse of one line, are operations of the
    class [DumpFormat].  The blob writes of a batch are tasks of their own;
    here they run in order when the batch is flushed, and the first that
    fails ends the command.  Buffered spill lines are written at once. *)

From S2P Require Import Prelude Hash Partition Record BlobStore Hamt Iscc CidKey Anyhow Index PointerDoc Daemon Files Publisher Api Config.

Record DumpLine := mkDumpLine { dl_key : string; dl_value : JsonValue }.

Class DumpFormat := {
  (** [serde_json::from_str::<DumpLine>] *)
  dump_line_from_str : string → result string DumpLine;
  (** the lines of [BufReader::new(MultiGzDecoder::new(file))] *)
  gz_lines : string → list (result anyhow string);
}.

Section bulk_load.
Context `{Blake3} `{Hex} `{Sha256} `{CidCrate} `{Base32} `{SerdeJson} `{Timestamps} `{SocketAddrs} `{DumpFormat}.
Context `{!Codec LeafEntry, !Codec IndexRecord} {St Dc : Type} `{!BlobStore St, !IrohDocs St Dc}.
Context (writable : string → bool) (cfg : Config) (doc : PointerDoc St Dc).

Abbreviation command A := (io (World St Dc) anyhow A).

(** [open_dump] *)
Definition open_dump (path : string) : command (list (result anyhow string)) :=
  text ← read_file path;
  mret (if decide (path_extension path = Some (str_bytes "gz")) then gz_lines text else reader_lines text).

(** [canonical_value_str] *)
Definition canonical_value_str (value : JsonValue) : option string :=
  match value with
  | JObject _ => Some (json_to_string value)
  | JString raw =>
      match json_from_str raw with
      | Ok (JObject _) => Some raw
      | _ => None
      end
  | _ => None
  end.

Definition spill_path (spill_dir : string) (partition_id : N) : string :=
  path_join spill_dir (dec_padded 3 partition_id +:+ ".ndjson")%stdpp.

(** ** One ingest chunk *)

(** The variables of the ingest loop. *)
Record Ingest := mkIngest {
  ig_batch : list (string * string * IndexRecord);
  ig_seen_lines : N;
  ig_total : N;
  ig_invalid : N;
  ig_new_records : N;
  ig_conflicts : N;
}.

(** What a parsed line claims, unless it is invalid. *)
Definition accept_line (now : DateTime) (line : string) : option (string * string * IndexRecord) :=
  parsed ← result_ok (dump_line_from_str line);
  value_str ← canonical_value_str (dl_value parsed);
  if negb (is_valid_record_key (dl_key parsed))
     || (cfg_max_value_bytes cfg <? N.of_nat (String.length value_str))%N then None
  else Some (dl_key parsed, value_str,
    mkIndexRecord (content_hash value_str) (N.of_nat (String.length value_str))
      (partition_id_for_key (dl_key parsed) (cfg_top_level_partitions cfg)) Published
      (default now (declaration_timestamp value_str)) (extract_from_json value_str) (Some now)).

(** The accumulator of [flush_batch]: the two counters, [to_insert] and
    [to_put]. *)
Record Flush := mkFlush {
  fl_new_records : N;
  fl_conflicts : N;
  fl_to_insert : list (string * IndexRecord);
  fl_to_put : list string;
}.

Definition flush_known (acc : Flush) (x : string * string * IndexRecord) (known : option IndexRecord)
    : IndexRecord * Flush :=
  let '((key, value_str), record) := x in
  let '(mkFlush new_records conflicts to_insert to_put) := acc in
  match known with
  | Some prior =>
      if decide (ir_content_hash prior = ir_content_hash record) then
        (prior, mkFlush new_records conflicts to_insert (to_put ++ [value_str]))
      else (prior, mkFlush new_records (wrap64 (conflicts + 1)) to_insert to_put)
  | None => (record, mkFlush (wrap64 (new_records + 1)) conflicts (to_insert ++ [(key, record)])
               (to_put ++ [value_str]))
  end.

(** [spills[partition_id as usize]], and the line written to it *)
Definition spill_line (spill_dir : string) (entry_record : IndexRecord) (key : string) : command unit :=
  if (ir_partition_id entry_record <? cfg_top_level_partitions cfg)%N then
    append_file writable (spill_path spill_dir (ir_partition_id entry_record))
      (str_of_bytes (ser (leaf_entry entry_record key) ++ [x0a]))
  else io_err EPanic.

Definition flush_one (spill_dir : string) (acc : Flush)
    (xk : string * string * IndexRecord * option IndexRecord) : command Flush :=
  let '(entry_record, acc) := flush_known acc xk.1 xk.2 in
  _ ← spill_line spill_dir entry_record xk.1.1.1;
  mret acc.

(** [flush_batch] *)
Definition flush_batch (spill_dir : string) (batch : list (string * string * IndexRecord))
    (new_records conflicts : N) : command Flush :=
  existing ← on_index (get_many batch.*1.*1);
  acc ← io_fold (flush_one spill_dir) (mkFlush new_records conflicts [] []) (zip batch existing);
  _ ← on_index (bulk_mark_published (fl_to_insert acc));
  mret acc.

Definition put_value (_ : unit) (value_str : string) : command unit :=
  _ ← on_node (on_fst (io_map_err EBlob (put (str_bytes value_str))));
  mret tt.

(** The batch flushed and its values written. *)
Definition flush (spill_dir : string) (st : Ingest) : command Ingest :=
  acc ← flush_batch spill_dir (ig_batch st) (ig_new_records st) (ig_conflicts st);
  _ ← io_fold put_value tt (fl_to_put acc);
  mret (mkIngest [] (ig_seen_lines st) (ig_total st) (ig_invalid st) (fl_new_records acc) (fl_conflicts acc)).

Definition INGEST_BATCH : nat := N.to_nat 2000.

(** A line that counts: it is in the chunk. *)
Definition ingest_line (spill_dir : string) (st : Ingest) (line : string) : command Ingest :=
  now ← read_world w_now;
  let total := wrap64 (ig_total st + 1) in
  match accept_line now line with
  | None => mret (mkIngest (ig_batch st) (ig_seen_lines st) total (wrap64 (ig_invalid st + 1))
                    (ig_new_records st) (ig_conflicts st))
  | Some x =>
      let st := mkIngest (ig_batch st ++ [x]) (ig_seen_lines st) total (ig_invalid st)
                  (ig_new_records st) (ig_conflicts st) in
      if INGEST_BATCH <=? length (ig_batch st) then flush spill_dir st else mret st
  end.

(** The loop over the lines: [skip] of them passed over, then at most
    [limit]. *)
Fixpoint ingest_lines (spill_dir : string) (skip limit : N) (lines : list (result anyhow string))
    (st : Ingest) : command Ingest :=
  match lines with
  | [] => mret st
  | Err e :: _ => io_err e
  | Ok line :: lines =>
      if decide (line = "") then ingest_lines spill_dir skip limit lines st
      else
        let seen_lines := wrap64 (ig_seen_lines st + 1) in
        let st := mkIngest (ig_batch st) seen_lines (ig_total st) (ig_invalid st)
                    (ig_new_records st) (ig_conflicts st) in
        if (seen_lines <=? skip)%N then ingest_lines spill_dir skip limit lines st
        else if (limit <=? ig_total st)%N then mret st
        else st ← ingest_line spill_dir st line; ingest_lines spill_dir skip limit lines st
  end.

Definition partitions : list N := N.of_nat <$> seq 0 (N.to_nat (cfg_top_level_partitions cfg)).

(** Opening the spill files creates them. *)
Definition open_spills (spill_dir : string) : command unit :=
  io_fold (λ _ p, append_file writable (spill_path spill_dir p) "") tt partitions.

(** [ingest]: the counters it prints; the code returns the lines read. *)
Definition ingest (dump spill_dir : string) (skip limit : N) : command Ingest :=
  _ ← open_spills spill_dir;
  lines ← open_dump dump;
  st ← ingest_lines spill_dir skip limit lines (mkIngest [] 0 0 0 0 0);
  flush spill_dir st.

(** ** Building the trees *)

(** The entries of a spill file. *)
Fixpoint parse_spill (lines : list (result anyhow string)) : result anyhow (list LeafEntry) :=
  match lines with
  | [] => Ok []
  | Err e :: _ => Err e
  | Ok line :: lines =>
      if decide (line = "") then parse_spill lines
      else
        match de (str_bytes line) with
        | Ok e => match parse_spill lines with Ok es => Ok (e :: es) | Err x => Err x end
        | Err x => Err (EJson x)
        end
  end.

Definition build_partition (spill_dir : string) (_ : unit) (partition_id : N) : command unit :=
  text ← read_file (spill_path spill_dir partition_id);
  entries ← io_lift (parse_spill (reader_lines text));
  root ← on_node (on_fst (io_map_err EHamt (build_from_entries entries (N.to_nat (cfg_leaf_max_entries cfg)))));
  _ ← on_node (set_partition_root doc partition_id root);
  on_index (set_local_root partition_id root).

(** [build_trees] *)
Definition build_trees (spill_dir : string) : command unit :=
  io_fold (build_partition spill_dir) tt partitions.

(** ** Re-stamping *)

(** The variables of the dump pass. *)
Record Restamp := mkRestamp {
  rt_batch : list (string * DateTime);
  rt_updated : N;
  rt_missing : N;
  rt_no_timestamp : N;
}.

Definition restamp_flush (st : Restamp) : command Restamp :=
  um ← on_index (update_created_at (rt_batch st));
  mret (mkRestamp [] (wrap64 (rt_updated st + um.1)) (wrap64 (rt_missing st + um.2)) (rt_no_timestamp st)).

Definition RESTAMP_BATCH : nat := N.to_nat 10000.

Definition restamp_line (st : Restamp) (line : string) : command Restamp :=
  match (parsed ← result_ok (dump_line_from_str line);
         value_str ← canonical_value_str (dl_value parsed); Some (dl_key parsed, value_str)) with
  | None => mret st
  | Some (key, value_str) =>
      match declaration_timestamp value_str with
      | None => mret (mkRestamp (rt_batch st) (rt_updated st) (rt_missing st) (wrap64 (rt_no_timestamp st + 1)))
      | Some created_at =>
          let st := mkRestamp (rt_batch st ++ [(key, created_at)]) (rt_updated st) (rt_missing st)
                      (rt_no_timestamp st) in
          if RESTAMP_BATCH <=? length (rt_batch st) then restamp_flush st else mret st
      end
  end.

Fixpoint restamp_lines (lines : list (result anyhow string)) (st : Restamp) : command Restamp :=
  match lines with
  | [] => mret st
  | Err e :: _ => io_err e
  | Ok line :: lines =>
      if decide (line = "") then restamp_lines lines st
      else st ← restamp_line st line; restamp_lines lines st
  end.

(** The files [spill_published_entries] writes: created before the scan, not
    appended to. *)
Definition write_spill (spill_dir : string) (_ : unit) (pe : N * list LeafEntry) : command unit :=
  write_file writable (spill_path spill_dir pe.1) (text_of (ser <$> pe.2)).

(** [retimestamp] *)
Definition retimestamp (dump spill_dir : string) : command unit :=
  lines ← open_dump dump;
  st ← restamp_lines lines (mkRestamp [] 0 0 0);
  _ ← restamp_flush st;
  _ ← io_fold (λ _ p, write_file writable (spill_path spill_dir p) "") tt partitions;
  spilled ← on_index (spill_published_entries (N.to_nat (cfg_top_level_partitions cfg)));
  _ ← io_fold (write_spill spill_dir) tt (zip partitions spilled.1);
  build_trees spill_dir.
End bulk_load.
