(* ===== verification/PublisherInv.v ===== *)
(** The invariant of the daemon's state, and what the other tasks may do to
    it between two steps of the publisher. *)

From S2P Require Import Prelude Hash Partition Record BlobStore Hamt HamtNodeFacts HamtFacts Anyhow Index IndexFacts IndexOps PointerDoc Daemon Hoare.

Section inv.
Context `{Blake3} `{Sha256} `{!Codec LeafEntry, !LeafCodecLaws}.
Context `{!Codec IndexRecord, !CodecLaws IndexRecord index_record_dom}.
Context {St Dc : Type} `{!BlobStore St, !BlobStoreSpec St, !LocalStore St}.
Context `{!IrohDocs (Traced St) Dc, !IrohDocsLaws (Traced St) Dc}.
Context (D : list byte → Prop) `{!CollisionFree D}.
(** the index at some earlier time *)
Context (t0 : Tables).
Implicit Types w : World (Traced St) Dc.

Definition blobs w : gmap Hash (list byte) := contents (w_node w).1.
Definition wlog w : list (list byte) := tr_log (w_node w).1.
Definition entries w : gmap string Hash := doc_entries (St:=Traced St) (w_node w).2.
Definition tables w : Tables := db (w_index w).

(** A root of partition [p] whose tree agrees with the index: every entry
    is the content of its key's record, and the record is of [p]. *)
Definition tree_ok (C : gmap Hash (list byte)) (t : Tables) (p : N) (r : Hash) : Prop :=
  ∃ es, rep_root C (Some r) es ∧
    ∀ e, e ∈ es → ∃ x, recs t !! le_key e = Some x ∧
      ir_content_hash x = le_hash e ∧ ir_partition_id x = p.

Definition in_tree (C : gmap Hash (list byte)) (r : Hash) (k : string) : Prop :=
  ∃ es, rep_root C (Some r) es ∧ k ∈ le_key <$> es.

(** The root a pointer-document entry holds. *)
Definition doc_root (C : gmap Hash (list byte)) (ents : gmap string Hash) (p : N) (r : Hash) : Prop :=
  ∃ h, ents !! partition_key p = Some h ∧ C !! h = Some (b32_list (hash_0 r)).

(** Published means visible: the key is in the tree readers reach through
    the pointer document, and in the writer's own root. *)
Definition visible w (p : N) (k : string) : Prop :=
  (∃ r, doc_root (blobs w) (entries w) p r ∧ in_tree (blobs w) r k) ∧
  (∀ r, local_root (tables w) p = Some r → in_tree (blobs w) r k).

Record pub_inv w : Prop := {
  pi_index : index_inv (tables w);
  pi_ext : index_ext t0 (tables w);
  pi_store : store_ok D (w_node w).1;
  pi_local p r : local_root (tables w) p = Some r →
    (p < 2 ^ 32)%N ∧ tree_ok (blobs w) (tables w) p r;
  pi_doc p h : (p < 2 ^ 32)%N → entries w !! partition_key p = Some h →
    ∃ r, doc_root (blobs w) (entries w) p r ∧ tree_ok (blobs w) (tables w) p r;
  pi_published k x : recs (tables w) !! k = Some x → ir_status x = Published →
    visible w (ir_partition_id x) k;
}.

(** ** Other tasks *)

Definition env_len (actions : list EnvAction) : nat :=
  sum_list ((λ a, match a with EnvSubmit subs => length subs | EnvPut _ => 0 end) <$> actions).

Definition action_ok (a : EnvAction) : Prop :=
  match a with
  | EnvSubmit subs => Forall (λ kr, index_record_dom kr.2 ∧ ir_status kr.2 = Pending) subs
  | EnvPut _ => True
  end.

(** What the handlers submit is well formed and pending, and the sequence
    numbers suffice. *)
Definition env_ok w : Prop :=
  Forall action_ok (concat (w_env w)) ∧
  (next_seq_of (tables w) + N.of_nat (env_len (concat (w_env w))) < 2 ^ 64)%N.

Definition winv w : Prop := pub_inv w ∧ env_ok w.

(** What the other tasks leave alone. *)
Record env_le w w' : Prop := {
  el_blobs : blobs w ⊆ blobs w';
  el_ext : index_ext (tables w) (tables w');
  el_recs : recs (tables w) ⊆ recs (tables w');
  el_new k x : recs (tables w') !! k = Some x → recs (tables w) !! k = Some x ∨ ir_status x = Pending;
  el_queue : rows (t_queue (tables w)) `prefix_of` rows (t_queue (tables w'));
  el_roots : t_roots (tables w') = t_roots (tables w);
  el_doc : entries w' = entries w;
  el_now : w_now w' = w_now w;
  el_files : w_files w' = w_files w;
}.

#[global] Instance env_le_preorder : PreOrder env_le.
Proof.
  split; [intros w; split; try done; by left|]. intros w1 w2 w3 [] []. split; try congruence; [by etrans..| |by etrans].
  intros k x Hk. destruct (el_new1 _ _ Hk); auto.
Qed.

(** The sequence numbers the writes to come may use up. *)
Definition seq_end w : N := (next_seq_of (tables w) + N.of_nat (env_len (concat (w_env w))))%N.

Definition stable (P : World (Traced St) Dc → Prop) : Prop := ∀ w w', env_le w w' → P w → P w'.

(** ** Frames *)

Lemma in_tree_mono C C' r k : C ⊆ C' → in_tree C r k → in_tree C' r k.
Proof. intros HC (es & Hrep & Hk). exists es. split; [by eapply rep_mono|done]. Qed.

Lemma doc_root_mono C C' ents p r : C ⊆ C' → doc_root C ents p r → doc_root C' ents p r.
Proof. intros HC (h & He & Hb). exists h. split; [done|by eapply lookup_weaken]. Qed.

Lemma tree_ok_mono C C' t t' p r :
  C ⊆ C' → index_ext t t' → tree_ok C t p r → tree_ok C' t' p r.
Proof.
  intros HC Hext (es & Hrep & Hes). exists es. split; [by eapply rep_mono|].
  intros e (x & Hx & Hh & Hp)%Hes. destruct (ext_recs _ _ Hext _ _ Hx) as (x' & Hx' & (Hc & _ & Hpid & _)).
  exists x'. split_and!; [done|congruence..].
Qed.

Lemma visible_mono w w' p k :
  blobs w ⊆ blobs w' → entries w' = entries w → local_root (tables w') = local_root (tables w) →
  visible w p k → visible w' p k.
Proof.
  intros HC Hd Hl [(r & Hdoc & Hin) Hloc]. split.
  - exists r. rewrite Hd. split; [by eapply doc_root_mono|by eapply in_tree_mono].
  - intros r'. rewrite Hl. intros ?%Hloc. by eapply in_tree_mono.
Qed.

(** A step that keeps both kinds of roots and publishes nothing new. *)
Lemma pub_inv_frame w w' :
  pub_inv w → index_inv (tables w') → store_ok D (w_node w').1 → blobs w ⊆ blobs w' →
  index_ext (tables w) (tables w') → local_root (tables w') = local_root (tables w) →
  entries w' = entries w →
  (∀ k x', recs (tables w') !! k = Some x' → ir_status x' = Published →
     ∃ x, recs (tables w) !! k = Some x ∧
       (ir_status x = Published ∨ visible w (ir_partition_id x) k)) →
  pub_inv w'.
Proof.
  intros Hi Hidx Hst HC Hext Hl Hd Hnew. split; [done|etrans; [apply Hi|done]|done| | |].
  - intros p r. rewrite Hl. intros [? ?]%(pi_local _ Hi). split; [done|by eapply tree_ok_mono].
  - intros p h Hp. rewrite Hd. intros (r & Hdr & Ht)%(pi_doc _ Hi); [|done].
    exists r. split; [by eapply doc_root_mono|by eapply tree_ok_mono].
  - intros k x' Hk Hp. destruct (Hnew _ _ Hk Hp) as (x & Hx & Hor).
    destruct (ext_recs _ _ Hext _ _ Hx) as (x2 & Hx2 & (_ & _ & Hpid & _)).
    assert (x2 = x') as -> by congruence. rewrite Hpid. apply (visible_mono w); [done..|].
    destruct Hor as [Hp'|]; [|done]. by apply (pi_published _ Hi).
Qed.

(** ** Interference *)

Lemma env_action_ok w a :
  let w' := env_action w a in
  wlog w `prefix_of` wlog w' ∧ w_env w' = w_env w ∧
  (Forall D (wlog w') → pub_inv w → action_ok a →
   (next_seq_of (tables w) + N.of_nat (env_len [a]) < 2 ^ 64)%N →
   pub_inv w' ∧ env_le w w' ∧
   (next_seq_of (tables w') ≤ next_seq_of (tables w) + N.of_nat (env_len [a]))%N).
Proof.
  destruct a as [v|subs]; cbn [env_action action_ok].
  - destruct (put v (w_node w).1) as [r s'] eqn:Hput. cbn [snd].
    pose proof (steps_put D v _ _ _ Hput) as Hadv.
    assert (blobs (with_node (s', (w_node w).2) w) = contents s') as Hb by done.
    split_and!; [apply Hadv|done|]. intros HD Hi _ _. destruct Hadv as [_ Hadv].
    destruct (Hadv HD (pi_store _ Hi)) as [Hok HC].
    split_and!.
    + apply (pub_inv_frame w); try done; [apply Hi|]. intros k x Hk Hp. exists x. by split; [|left].
    + split; try done. by left.
    + unfold tables. simpl. lia.
  - destruct (submit_many subs (w_index w)) as [r ix'] eqn:Hsub. cbn [snd].
    split_and!; [done|done|]. intros _ Hi Hact Hlen.
    assert (env_len [EnvSubmit subs] = length subs) as Hl1 by apply Nat.add_0_r. rewrite Hl1 in *.
    assert (submittable (tables w) subs) as Hs.
    { split; [|done]. eapply Forall_impl; [exact Hact|]. naive_solver. }
    destruct (submit_many_ext _ _ _ _ Hsub (pi_index _ Hi) Hs) as (Hext & Hro & Hnew).
    assert (index_inv (db ix')) as Hinv' by (destruct Hs; by eapply submit_many_inv; [exact Hsub|apply Hi|..]).
    assert (recs (tables w) ⊆ recs (db ix') ∧
      rows (t_queue (tables w)) `prefix_of` rows (t_queue (db ix')) ∧
      (next_seq_of (db ix') ≤ next_seq_of (tables w) + N.of_nat (length subs))%N) as (Hsubm & Hqueue & Hseq).
    { destruct Hs as [Hdom Hn].
      pose proof (submit_many_spec _ _ _ _ Hsub (pi_index _ Hi) Hdom Hn) as Hsp.
      destruct (spec_submit (recs (db (w_index w))) subs) as [os m] eqn:E.
      destruct (spec_submit_facts _ _ _ _ E) as (_ & Hsm & _ & _).
      pose proof (queued_count subs os).
      destruct Hsp as [[_ ->]|(_ & -> & -> & -> & _)]; split_and!; try done; unfold tables;
        [lia|by eexists|lia]. }
    split_and!.
    + apply (pub_inv_frame w); try done; [apply Hi| |].
      * unfold local_root. simpl. unfold tables. simpl. by rewrite Hro.
      * intros k x Hk Hp. destruct (Hnew _ _ Hk) as [Hold|Hin]; [exists x; by split; [|left]|].
        rewrite Forall_forall in Hact. apply Hact in Hin as [_ Hpd]. simpl in Hpd. congruence.
    + split; try done. intros k x Hk. destruct (Hnew _ _ Hk) as [|Hin]; [by left|right].
      rewrite Forall_forall in Hact. by apply Hact in Hin as [_ ?].
    + exact Hseq.
Qed.

Lemma interfere_ok w :
  wlog w `prefix_of` wlog (interfere w) ∧
  (Forall D (wlog (interfere w)) → winv w →
   winv (interfere w) ∧ env_le w (interfere w) ∧ (seq_end (interfere w) ≤ seq_end w)%N).
Proof.
  unfold interfere. destruct (w_env w) as [|actions env] eqn:Henv.
  { split; [done|]. intros _ Hw. by split_and!. }
  assert (∀ acts w1, wlog w1 `prefix_of` wlog (foldl env_action w1 acts) ∧
    (Forall D (wlog (foldl env_action w1 acts)) → pub_inv w1 → w_env w1 = env →
     Forall action_ok (acts ++ concat env) →
     (next_seq_of (tables w1) + N.of_nat (env_len (acts ++ concat env)) < 2 ^ 64)%N →
     winv (foldl env_action w1 acts) ∧ env_le w1 (foldl env_action w1 acts) ∧
     (seq_end (foldl env_action w1 acts) ≤
      next_seq_of (tables w1) + N.of_nat (env_len (acts ++ concat env)))%N)) as Hgen.
  { clear w Henv actions. induction acts as [|a acts IH]; intros w1; simpl.
    { split; [done|]. intros _ Hi He Hall Hn. unfold seq_end. rewrite He.
      split_and!; [|done|lia]. split; [done|]. unfold env_ok; by rewrite He. }
    destruct (env_action_ok w1 a) as (Hp1 & He1 & Ha). destruct (IH (env_action w1 a)) as [Hp2 Hrest].
    split; [by etrans|]. intros HD Hi He [Hact Hall]%Forall_cons Hn.
    assert (env_len (a :: acts ++ concat env) = env_len [a] + env_len (acts ++ concat env)) as Hlen.
    { unfold env_len. rewrite fmap_cons. simpl. lia. }
    rewrite Hlen, Nat2N.inj_add in Hn.
    destruct Ha as (Hi1 & Hle1 & Hseq); [by eapply prefix_Forall|done|done|lia|].
    destruct Hrest as (Hw & Hle & Hend); [done|done|by rewrite He1|done|lia|].
    split_and!; [done|by etrans|lia]. }
  destruct (Hgen actions (with_env env w)) as [Hp Hrest]. split; [done|].
  intros HD [Hi [Hall Hn]]. rewrite Henv in Hall, Hn. simpl in Hall, Hn.
  destruct Hrest as (Hw & Hle & Hend); [done| |done|done|done|].
  - apply (pub_inv_frame w); try done; [apply Hi|apply Hi|]. intros k x Hk Hp'. exists x. by split; [|left].
  - split_and!; [done| |].
    + etrans; [|exact Hle]. split; try done. by left.
    + unfold seq_end at 2. rewrite Henv. exact Hend.
Qed.

(** ** Triples for the calls of a task *)


(** An index call, from the interfered state. *)
Lemma triple_on_index_seq {A} (m : io RecordIndex anyhow A) P (Q : A → World (Traced St) Dc → Prop) X :
  (∀ w w', env_le w w' → (seq_end w' ≤ seq_end w)%N → P w → P w') →
  (∀ w r ix', winv w → P w → m (w_index w) = (r, ix') → Forall D (wlog w) →
     match r with Ok a => Q a (with_index ix' w) | Err _ => X (with_index ix' w) end) →
  triple wlog D (λ w, winv w ∧ P w) (on_index m) Q X.
Proof.
  intros Hst Hm w r w' Hr. unfold on_index in Hr.
  destruct (m (w_index (interfere w))) as [r1 ix'] eqn:Em. injection Hr as <- <-.
  destruct (interfere_ok w) as [Hp Hi]. split; [done|]. intros HD [Hw HP].
  destruct (Hi HD Hw) as (Hw' & Hle & Hend). apply Hm; [done| |done|exact HD]. by eapply Hst.
Qed.

Lemma triple_on_index {A} (m : io RecordIndex anyhow A) P (Q : A → World (Traced St) Dc → Prop) X :
  stable P →
  (∀ w r ix', winv w → P w → m (w_index w) = (r, ix') →
     match r with Ok a => Q a (with_index ix' w) | Err _ => X (with_index ix' w) end) →
  triple wlog D (λ w, winv w ∧ P w) (on_index m) Q X.
Proof.
  intros Hst Hm. apply triple_on_index_seq; [intros w w' Hle _; by apply Hst|].
  intros w r ix' Hw HP Hr _. by apply Hm.
Qed.

Lemma triple_on_node_seq {A} (m : io (Traced St * Dc) anyhow A) P (Q : A → World (Traced St) Dc → Prop) X :
  (∀ w w', env_le w w' → (seq_end w' ≤ seq_end w)%N → P w → P w') →
  (∀ n r n', m n = (r, n') → tr_log n.1 `prefix_of` tr_log n'.1) →
  (∀ w r n', winv w → P w → m (w_node w) = (r, n') → Forall D (tr_log n'.1) →
     match r with Ok a => Q a (with_node n' w) | Err _ => X (with_node n' w) end) →
  triple wlog D (λ w, winv w ∧ P w) (on_node m) Q X.
Proof.
  intros Hst Hlog Hm w r w' Hr. unfold on_node in Hr.
  destruct (m (w_node (interfere w))) as [r1 n'] eqn:Em. injection Hr as <- <-.
  destruct (interfere_ok w) as [Hp Hi]. pose proof (Hlog _ _ _ Em) as Hp2.
  split; [by etrans|]. intros HD [Hw HP].
  destruct (Hi (prefix_Forall D _ _ Hp2 HD) Hw) as (Hw' & Hle & Hend).
  apply Hm; [done| |done|done]. by eapply Hst.
Qed.

Lemma triple_on_node {A} (m : io (Traced St * Dc) anyhow A) P (Q : A → World (Traced St) Dc → Prop) X :
  stable P →
  (∀ n r n', m n = (r, n') → tr_log n.1 `prefix_of` tr_log n'.1) →
  (∀ w r n', winv w → P w → m (w_node w) = (r, n') → Forall D (tr_log n'.1) →
     match r with Ok a => Q a (with_node n' w) | Err _ => X (with_node n' w) end) →
  triple wlog D (λ w, winv w ∧ P w) (on_node m) Q X.
Proof. intros Hst. apply triple_on_node_seq. intros w w' Hle _. by apply Hst. Qed.
End inv.
