(* ===== verification/PublisherFacts.v ===== *)
(** Every step of the publisher keeps the invariant of the daemon's state, and
    what a step that succeeds has achieved. *)

From S2P Require Import Prelude Hash Partition Record BlobStore Hamt HamtNodeFacts HamtFacts HamtInsert Anyhow Index IndexFacts IndexOps PointerDoc PointerDocFacts Daemon Hoare Publisher PublisherInv.

Section facts.
Context `{Blake3} `{Sha256} `{!Codec LeafEntry, !LeafCodecLaws}.
Context `{!Codec IndexRecord, !CodecLaws IndexRecord index_record_dom}.
Context {St Dc : Type} `{!BlobStore St, !BlobStoreSpec St, !LocalStore St}.
Context `{!IrohDocs (Traced St) Dc, !IrohDocsLaws (Traced St) Dc}.
Context (D : list byte → Prop) `{!CollisionFree D} (t0 : Tables).
Implicit Types w : World (Traced St) Dc.

#[local] Abbreviation winv := (winv D t0).
#[local] Abbreviation triple := (triple wlog D).

Context (deny : gset string).

(** The item left the queue with the status the denylist gives it. *)
Definition item_done w (it : N * string) : Prop :=
  t_queue (tables w) !! it.1 = None ∧ (it.1 < next_seq_of (tables w))%N ∧
  ∃ x, recs (tables w) !! it.2 = Some x ∧
    ir_status x = if decide (it.2 ∈ deny) then Denylisted else Published.

(** What no step of the publisher undoes. *)
Record progress w w' : Prop := {
  pg_blobs : blobs w ⊆ blobs w';
  pg_ext : index_ext (tables w) (tables w');
  pg_done it : item_done w it → item_done w' it;
}.

#[global] Instance progress_preorder : PreOrder progress.
Proof. split; [by split|]. intros w1 w2 w3 [] []. split; [by etrans..|auto]. Qed.

Definition kept (P : World (Traced St) Dc → Prop) : Prop := ∀ w w', progress w w' → P w → P w'.

Lemma item_done_later w w' it :
  index_ext (tables w) (tables w') → recs (tables w) ⊆ recs (tables w') → item_done w it → item_done w' it.
Proof.
  intros Hext Hrec (Hq & Hlt & x & Hx & Hst). split_and!.
  - destruct (t_queue (tables w') !! it.1) as [k|] eqn:E; [|done].
    apply (ext_rows _ _ Hext) in E; [congruence|done].
  - pose proof (ext_seq _ _ Hext). lia.
  - exists x. split; [by eapply lookup_weaken|done].
Qed.

Lemma env_progress w w' : env_le w w' → progress w w'.
Proof. intros He. split; [apply He|apply He|]. intros it. apply item_done_later; apply He. Qed.

Lemma kept_stable P : kept P → stable P.
Proof. intros HP w w' He%env_progress. by apply HP. Qed.

(** ** Reads *)

Lemma winv_index w ix' :
  db ix' = db (w_index w) → winv w → winv (with_index ix' w) ∧ env_le w (with_index ix' w).
Proof.
  intros Hdb [Hi He]. assert (tables (with_index ix' w) = tables w) as Ht by done.
  split; [split|].
  - apply (pub_inv_frame D t0 w); rewrite ?Ht; try done; [apply Hi|apply Hi|].
    intros k x Hk Hp. exists x. by split; [|left].
  - unfold env_ok in *. by rewrite Ht.
  - split; rewrite ?Ht; try done. by left.
Qed.

Lemma winv_node w n' :
  store_ok D n'.1 → contents (w_node w).1 ⊆ contents n'.1 →
  doc_entries (St:=Traced St) n'.2 = doc_entries (St:=Traced St) (w_node w).2 →
  winv w → winv (with_node n' w) ∧ env_le w (with_node n' w).
Proof.
  intros Hok HC Hd [Hi He]. split; [split; [|done]|].
  - apply (pub_inv_frame D t0 w); try done; [apply Hi|]. intros k x Hk Hp. exists x. by split; [|left].
  - split; try done. by left.
Qed.

Lemma winv_node_read w n' :
  node_read (w_node w) n' → winv w →
  winv (with_node n' w) ∧ env_le w (with_node n' w) ∧ contents n'.1 = contents (w_node w).1.
Proof.
  intros Hrd Hw. destruct (node_read_store D _ _ Hrd (pi_store _ _ _ (proj1 Hw))) as [Hc Hok].
  destruct (winv_node w n'); [done|by rewrite Hc|apply Hrd|done|]. done.
Qed.

(** A root that covers what partition [p] has published; [None] when it has
    published nothing. *)
Definition cur w (p : N) (o : option Hash) : Prop :=
  (∀ r, o = Some r → tree_ok (blobs w) (tables w) p r) ∧
  ∀ k x, recs (tables w) !! k = Some x → ir_status x = Published → ir_partition_id x = p →
    ∃ r, o = Some r ∧ in_tree (blobs w) r k.

Lemma cur_env w w' p o : env_le w w' → cur w p o → cur w' p o.
Proof.
  intros He [Ht Hp]. split.
  - intros r ->. eapply tree_ok_mono; [apply He|apply He|by apply Ht].
  - intros k x Hk Hs Hpid. destruct (el_new _ _ He _ _ Hk) as [Hk'|]; [|congruence].
    destruct (Hp _ _ Hk' Hs Hpid) as (r & -> & Hin). exists r. split; [done|].
    by eapply in_tree_mono; [apply He|].
Qed.

Lemma cur_local w p r : winv w → local_root (tables w) p = Some r → cur w p (Some r).
Proof.
  intros [Hi _] Hl. split.
  - intros r' [= <-]. by apply (pi_local _ _ _ Hi).
  - intros k x Hk Hs <-. exists r. split; [done|]. by apply (pi_published _ _ _ Hi _ _ Hk Hs).
Qed.

Lemma doc_root_det C ents p r r' : doc_root C ents p r → doc_root C ents p r' → r = r'.
Proof. intros (h & Hh & Hr) (h' & Hh' & Hr'). apply hash_list_inj. congruence. Qed.

(** What [get_partition_root] returns is the document's root. *)
Lemma get_partition_root_cur w p o n' :
  get_partition_root p (w_node w) = (Ok o, n') → winv w → (p < 2 ^ 32)%N →
  cur (with_node n' w) p o.
Proof.
  intros Hr Hw Hp. pose proof (read_get_named_root _ _ _ _ Hr) as Hrd.
  pose proof (get_named_root_ok _ _ _ _ Hr) as Ho.
  destruct (winv_node_read _ _ Hrd Hw) as (Hw' & Hle & Hc). destruct Hw as [Hi _].
  change (doc_entries (w_node w).2) with (entries w) in Ho. rewrite Hc in Ho.
  apply (cur_env w); [done|]. destruct (entries w !! partition_key p) as [h|] eqn:Eh.
  - destruct Ho as (r & -> & Hb). destruct (pi_doc _ _ _ Hi p h Hp Eh) as (r' & Hdr & Ht).
    assert (doc_root (blobs w) (entries w) p r) as Hdr2 by by exists h.
    pose proof (doc_root_det _ _ _ _ _ Hdr Hdr2) as ->. split; [by intros ? [= <-]|].
    intros k x Hk Hs Hpid. exists r. split; [done|].
    destruct (pi_published _ _ _ Hi _ _ Hk Hs) as [(r2 & Hdr3 & Hin) _]. rewrite Hpid in Hdr3.
    by rewrite (doc_root_det _ _ _ _ _ Hdr2 Hdr3).
  - subst o. split; [done|]. intros k x Hk Hs Hpid.
    destruct (pi_published _ _ _ Hi _ _ Hk Hs) as [(r2 & (h & Hh & _) & _) _]. rewrite Hpid in Hh. congruence.
Qed.

Lemma node_read_log n n' : node_read (St:=St) (Dc:=Dc) n n' → tr_log n.1 `prefix_of` tr_log n'.1.
Proof. intros Hrd. by rewrite (nr_log _ _ Hrd). Qed.

Lemma triple_current_root p P :
  kept P → (∀ w, P w → (p < 2 ^ 32)%N) →
  triple (λ w, winv w ∧ P w) (current_root p) (λ o w, winv w ∧ P w ∧ cur w p o) winv.
Proof.
  intros HP Hp. unfold current_root.
  apply (triple_bind _ _ _ _ _ (λ o w, winv w ∧ P w ∧ from_option (λ r, cur w p (Some r)) True o)).
  - apply (triple_on_index D t0); [by apply kept_stable|]. intros w r ix' Hw HPw Hr.
    destruct (get_local_root_ok _ _ _ _ Hr) as [Hdb Hres].
    destruct (winv_index w ix' Hdb Hw) as [Hw' Hle]. destruct Hres as [->| ->]; [done|].
    split_and!; [done|by apply (HP w); [apply env_progress|]|].
    destruct (local_root (db (w_index w)) p) as [h|] eqn:E; [|done]. simpl.
    by apply (cur_env w), cur_local.
  - intros [r|]; [by apply triple_ret|]. simpl.
    apply (triple_conseq _ _ _ _ (λ w, winv w ∧ P w) _ (λ o w, winv w ∧ P w ∧ cur w p o) _ winv); [|tauto|done|done].
    apply (triple_on_node D t0); [by apply kept_stable|..].
    + intros n r n' Hr. by eapply node_read_log, read_get_named_root.
    + intros w r n' Hw HPw Hr _.
      destruct (winv_node_read w n' (read_get_named_root _ _ _ _ Hr) Hw) as (Hw' & Hle & _).
      destruct r as [o|e]; [|done]. split_and!; [done|by apply (HP w); [apply env_progress|]|].
      apply get_partition_root_cur; [done|done|by eapply Hp].
Qed.

(** ** Building and publishing one partition *)

(** The entries are what the index says of their keys. *)
Definition entries_known w (p : N) (es : list LeafEntry) : Prop :=
  ∀ e, e ∈ es → leaf_entry_dom e ∧ ∃ x, recs (tables w) !! le_key e = Some x ∧
    ir_content_hash x = le_hash e ∧ ir_partition_id x = p.

Definition covers w (r : Hash) (es : list LeafEntry) : Prop :=
  ∀ e, e ∈ es → in_tree (blobs w) r (le_key e).

Lemma covers_env w w' r es : env_le w w' → covers w r es → covers w' r es.
Proof. intros He Hc e Hin. eapply in_tree_mono; [apply He|by apply Hc]. Qed.

Lemma insert_cur w p o es m new n' :
  on_fst (io_map_err EHamt (insert_batch o es m ∅)) (w_node w) = (Ok new, n') →
  Forall D (tr_log n'.1) → winv w → cur w p o → entries_known w p es →
  winv (with_node n' w) ∧ env_le w (with_node n' w) ∧
  cur (with_node n' w) p (Some new) ∧ covers (with_node n' w) new es.
Proof.
  intros Hr HD Hw [Ht Hpub] Hes. destruct (w_node w) as [s d] eqn:En.
  apply on_fst_run in Hr as (s' & Hr & ->). apply io_map_err_ok in Hr. simpl in HD.
  pose proof (steps_insert_batch D m o es ∅ _ _ _ Hr) as [_ Hadv].
  assert (store_ok D s) as Hok by (pose proof (pi_store _ _ _ (proj1 Hw)) as Hx; by rewrite En in Hx).
  destruct (Hadv HD Hok) as [Hok' HC].
  assert (blobs w = contents s) as Hb by (unfold blobs; by rewrite En).
  destruct (winv_node w (s', d)) as [Hw' Hle]; [done|by rewrite En|by rewrite En|done|].
  assert (∃ es0, rep_root (contents s) o es0 ∧
    ∀ e, e ∈ es0 → ∃ x, recs (tables w) !! le_key e = Some x ∧
      ir_content_hash x = le_hash e ∧ ir_partition_id x = p) as (es0 & Hrep & Hes0).
  { destruct o as [r|]; [|exists []; split; [done|by intros e ?%elem_of_nil]].
    destruct (Ht r eq_refl) as (es0 & Hrep & He0). exists es0. by rewrite <-Hb. }
  assert (Forall leaf_entry_dom es) as Hdom by (apply Forall_forall; intros e He; by apply Hes).
  destruct (insert_batch_rep D m _ _ _ _ _ _ _ Hr Hrep Hdom Hok HD) as (es' & Hrep' & Hp).
  pose proof (rep_NoDup _ _ _ _ Hrep') as Hnd.
  assert (∀ k, find_key le_key k es' = match find_key le_key k es0 with
    | Some x => Some x | None => find_key le_key k es end) as Hfind.
  { intros k. rewrite (find_key_perm _ _ _ _ Hnd Hp), insert_all_find. by rewrite decide_False by set_solver. }
  split_and!; [done|done|split|].
  - intros r [= <-]. exists es'. split; [done|]. intros e He.
    pose proof (find_key_elem _ _ _ _ Hnd He eq_refl) as Hf. rewrite Hfind in Hf.
    destruct (find_key le_key (le_key e) es0) as [e0|] eqn:E.
    + injection Hf as ->. apply find_key_Some in E as [E _]. by apply Hes0.
    + apply find_key_Some in Hf as [Hf _]. by apply Hes.
  - intros k x Hk Hs Hpid. destruct (Hpub _ _ Hk Hs Hpid) as (r & -> & (es1 & Hrep1 & Hin)).
    exists new. split; [done|]. exists es'. split; [done|]. rewrite Hb in Hrep1.
    unfold rep_root in Hrep, Hrep1. simpl in Hrep, Hrep1.
    rewrite (rep_det _ _ _ _ _ Hrep1 Hrep) in Hin.
    destruct (find_key le_key k es0) as [e0|] eqn:E; [|by apply find_key_None in E].
    specialize (Hfind k). rewrite E in Hfind. apply find_key_Some in Hfind as [? <-].
    by apply list_elem_of_fmap_2.
  - intros e He. exists es'. split; [done|]. specialize (Hfind (le_key e)).
    destruct (find_key le_key (le_key e) es') as [e1|] eqn:E.
    + apply find_key_Some in E as [? <-]. by apply list_elem_of_fmap_2.
    + destruct (find_key le_key (le_key e) es0); [done|]. symmetry in Hfind.
      apply find_key_None in Hfind. destruct Hfind. by apply list_elem_of_fmap_2.
Qed.

(** The entry of [p] pointed at a root that covers what [p] has published. *)
Lemma set_doc_root doc w p new r n' :
  set_partition_root doc p new (w_node w) = (r, n') → Forall D (tr_log n'.1) →
  winv w → cur w p (Some new) → (p < 2 ^ 32)%N →
  winv (with_node n' w) ∧ progress w (with_node n' w) ∧ cur (with_node n' w) p (Some new) ∧
  blobs w ⊆ blobs (with_node n' w) ∧
  (is_ok r → doc_root (blobs (with_node n' w)) (entries (with_node n' w)) p new).
Proof.
  intros Hr HD Hw Hcur Hp. destruct (set_named_root_run D _ _ _ _ _ _ Hr) as [[_ Hadv] Hcases].
  destruct (Hadv HD (pi_store _ _ _ (proj1 Hw))) as [Hok HC].
  destruct Hcases as [[He Hb]|[Hno He]].
  2: { destruct (winv_node w n' Hok HC He Hw) as [Hw' Hle].
       split_and!; [done|by apply env_progress|by eapply cur_env|done|done]. }
  set (w' := with_node n' w) in *. assert (blobs w ⊆ blobs w') as HC' by exact HC.
  assert (∀ q, q ≠ p → (q < 2 ^ 32)%N → entries w' !! partition_key q = entries w !! partition_key q) as Hne.
  { intros q Hq Hlt. unfold entries, w'. simpl. rewrite He. apply lookup_insert_ne.
    intros Heq. apply partition_key_inj in Heq; [by subst|done..]. }
  assert (doc_root (blobs w') (entries w') p new) as Hdoc.
  { eexists. split; [|exact Hb]. unfold entries, w'. simpl. rewrite He. apply lookup_insert_eq. }
  assert (tree_ok (blobs w') (tables w) p new) as Htree
    by (eapply tree_ok_mono; [done|reflexivity|by apply Hcur]).
  split_and!; [|by split|..|done|by intros _].
  - destruct Hw as [Hi Henv]. split; [split|done].
    + apply Hi.
    + apply Hi.
    + done.
    + intros q x [Hq Hl]%(pi_local _ _ _ Hi). split; [done|]. by eapply tree_ok_mono; [..|exact Hl].
    + intros q h Hq Hh. destruct (decide (q = p)) as [->|Hqp]; [by exists new|].
      rewrite Hne in Hh by done. destruct (pi_doc _ _ _ Hi q h Hq Hh) as (x & (h' & Hh' & Hx) & Ht).
      exists x. split; [|by eapply tree_ok_mono]. exists h'. rewrite Hne by done.
      split; [done|by eapply lookup_weaken].
    + intros k x Hk Hs. destruct (pi_published _ _ _ Hi _ _ Hk Hs) as [(y & (h & Hh & Hy) & Hin) Hloc].
      pose proof (recs_dom _ _ _ Hk) as (_ & Hpx & _). split.
      * destruct (decide (ir_partition_id x = p)) as [<-|Hqp].
        -- exists new. split; [done|]. destruct Hcur as [_ Hcur].
           destruct (Hcur _ _ Hk Hs eq_refl) as (? & [= <-] & Hin'). by eapply in_tree_mono.
        -- exists y. split; [|by eapply in_tree_mono]. exists h. rewrite Hne by done.
           split; [done|by eapply lookup_weaken].
      * intros z Hz. eapply in_tree_mono; [done|by apply Hloc].
  - split; [by intros z [= <-]|]. intros k x Hk Hs Hpid. destruct Hcur as [_ Hcur].
    destruct (Hcur _ _ Hk Hs Hpid) as (? & [= <-] & Hin'). exists new. split; [done|by eapply in_tree_mono].
Qed.

(** The local root mirrored. *)
Lemma set_local_step w p new r ix' es :
  set_local_root p new (w_index w) = (r, ix') → winv w → cur w p (Some new) →
  doc_root (blobs w) (entries w) p new → covers w new es → (p < 2 ^ 32)%N →
  winv (with_index ix' w) ∧ progress w (with_index ix' w) ∧
  (is_ok r → ∀ e, e ∈ es → visible (with_index ix' w) p (le_key e)).
Proof.
  intros Hr Hw Hcur Hdoc Hcov Hp. pose proof Hw as [Hi [Hact Hn]].
  destruct (set_local_root_ok _ _ _ _ _ Hr (pi_index _ _ _ Hi))
    as [[-> Hdb]|(-> & Hinv & Hext & Hrec & Hq & Hns & Hl)].
  { destruct (winv_index w ix' Hdb Hw) as [Hw' Hle]. split_and!; [done|by apply env_progress|by intros []]. }
  set (w' := with_index ix' w) in *.
  assert (recs (tables w') = recs (tables w)) as Hrec' by exact Hrec.
  assert (∀ k, in_tree (blobs w) new k → visible w' p k) as Hvis.
  { intros k Hin. split; [by exists new|]. intros x. unfold tables, w'. simpl. rewrite Hl.
    rewrite decide_True by done. by intros [= <-]. }
  split_and!.
  - split; [split|].
    + exact Hinv.
    + etrans; [apply Hi|exact Hext].
    + apply Hi.
    + intros q x. unfold tables at 1, w'. simpl. rewrite Hl. case_decide as Hqp.
      * intros [= <-]. subst q. split; [done|]. eapply tree_ok_mono; [done|exact Hext|by apply Hcur].
      * intros [Hq' Hx]%(pi_local _ _ _ Hi). split; [done|]. by eapply tree_ok_mono; [done|exact Hext|].
    + intros q h Hq2 Hh. destruct (pi_doc _ _ _ Hi q h Hq2 Hh) as (x & Hx & Ht). exists x.
      split; [done|]. eapply tree_ok_mono; [done|exact Hext|done].
    + intros k x. rewrite Hrec'. intros Hk Hs. destruct (decide (ir_partition_id x = p)) as [Hpx|Hpx].
      * rewrite Hpx. apply Hvis. destruct Hcur as [_ Hcur].
        by destruct (Hcur _ _ Hk Hs Hpx) as (? & [= <-] & Hin).
      * destruct (pi_published _ _ _ Hi _ _ Hk Hs) as [Hd Hloc]. split; [done|].
        intros z. unfold tables, w'. simpl. rewrite Hl, decide_False by done. apply Hloc.
    + split; [exact Hact|]. unfold tables, w'. simpl. by rewrite Hns.
  - split; [done|exact Hext|]. intros it (Hit & Hlt & x & Hx & Hst). split_and!.
    + unfold tables, w'. simpl. by rewrite Hq.
    + unfold tables, w'. simpl. by rewrite Hns.
    + exists x. by rewrite Hrec'.
  - intros _ e He. by apply Hvis, Hcov.
Qed.

Context (self : Publisher (Traced St) Dc).

Lemma triple_publish_tree p es P :
  kept P → (∀ w, P w → entries_known w p es) → (∀ w, P w → (p < 2 ^ 32)%N) →
  triple (λ w, winv w ∧ P w) (publish_tree self p es)
    (λ _ w, winv w ∧ P w ∧ ∀ e, e ∈ es → visible w p (le_key e)) winv.
Proof.
  intros HP Hes Hp. pose proof (kept_stable _ HP) as Hst. unfold publish_tree.
  eapply triple_bind; [by apply triple_current_root|]. intros o. cbv beta.
  eapply (triple_bind _ _ _ _ _ (λ new w, winv w ∧ (P w ∧ cur w p (Some new) ∧ covers w new es))).
  { apply (triple_conseq _ _ _ _ (λ w, winv w ∧ (P w ∧ cur w p o)) _
      (λ new w, winv w ∧ (P w ∧ cur w p (Some new) ∧ covers w new es)) _ winv); [|tauto|done|done].
    apply (triple_on_node D t0).
    - intros w w' He [HPw Hc]. split; [by eapply Hst|by eapply cur_env].
    - intros [s d] r n' Hr. apply on_fst_run in Hr as (s' & Hr & ->).
      eapply (steps_in_map_err (advances D)) in Hr; [by destruct Hr|]. apply (steps_insert_batch D).
    - intros w r n' Hw [HPw Hc] Hr HD. destruct r as [new|e].
      + destruct (insert_cur w p o es _ new n' Hr HD Hw Hc (Hes _ HPw)) as (Hw' & Hle & Hc' & Hcov).
        split_and!; [done|by eapply Hst|done|done].
      + destruct (w_node w) as [s d] eqn:En. apply on_fst_run in Hr as (s' & Hr & ->).
        eapply (steps_in_map_err (advances D)) in Hr as [_ Hadv]; [|apply (steps_insert_batch D)].
        pose proof (pi_store _ _ _ (proj1 Hw)) as Hok. rewrite En in Hok. destruct (Hadv HD Hok) as [Hok' HC].
        destruct (winv_node w (s', d)) as [Hw' _]; [done|by rewrite En|by rewrite En|done|done]. }
  intros new. cbv beta.
  eapply (triple_bind _ _ _ _ _ (λ _ w, winv w ∧ (P w ∧ cur w p (Some new) ∧ covers w new es ∧
    doc_root (blobs w) (entries w) p new))).
  { apply (triple_on_node D t0).
    - intros w w' He (HPw & Hc & Hcov). split_and!; [by eapply Hst|by eapply cur_env|by eapply covers_env].
    - intros n r n' Hr. by destruct (set_named_root_run D _ _ _ _ _ _ Hr) as [[Hpre _] _].
    - intros w r n' Hw (HPw & Hc & Hcov) Hr HD.
      destruct (set_doc_root _ w p new r n' Hr HD Hw Hc (Hp _ HPw)) as (Hw' & Hpg & Hc' & HC & Hdoc).
      destruct r as [[]|e]; [|done]. split_and!; [done|by eapply HP|done| |by apply Hdoc].
      intros e He. eapply in_tree_mono; [done|by apply Hcov]. }
  intros _. cbv beta. apply (triple_on_index D t0).
  - intros w w' He (HPw & Hc & Hcov & Hdoc). split_and!; [by eapply Hst|by eapply cur_env|by eapply covers_env|].
    rewrite (el_doc _ _ He). eapply doc_root_mono; [apply He|done].
  - intros w r ix' Hw (HPw & Hc & Hcov & Hdoc) Hr.
    destruct (set_local_step w p new r ix' es Hr Hw Hc Hdoc Hcov (Hp _ HPw)) as (Hw' & Hpg & Hvis).
    destruct r as [[]|e]; [|done]. split_and!; [done|by eapply HP|by apply Hvis].
Qed.

(** ** Marking *)

(** What the marking transactions rely on. *)
Definition markable w (status : RecordStatus) (items : list (N * string)) : Prop :=
  items_known (tables w) items ∧
  ∀ it, it ∈ items → status = (if decide (it.2 ∈ deny) then Denylisted else Published) ∧
    ∃ x, recs (tables w) !! it.2 = Some x ∧ (status = Published → visible w (ir_partition_id x) it.2).

Lemma markable_later w w' status items :
  index_ext (tables w) (tables w') → blobs w ⊆ blobs w' → entries w' = entries w →
  local_root (tables w') = local_root (tables w) →
  markable w status items → markable w' status items.
Proof.
  intros Hext HC Hd Hl [Hk Hit]. split; [by eapply items_known_ext|].
  intros it Hin. destruct (Hit it Hin) as (Hs & x & Hx & Hv). split; [done|].
  destruct (ext_recs _ _ Hext _ _ Hx) as (x' & Hx' & (_ & _ & Hpid & _)). exists x'. split; [done|].
  intros Hst. rewrite Hpid. by apply (visible_mono w); [..|apply Hv].
Qed.

Lemma foldr_delete_None (items : list (N * string)) (m : gmap N string) seq :
  m !! seq = None ∨ seq ∈ items.*1 → foldr (λ it, delete it.1) m items !! seq = None.
Proof.
  induction items as [|it items IH]; simpl; [by intros [?|?%elem_of_nil]|].
  rewrite elem_of_cons. intros Hor. destruct (decide (seq = it.1)) as [->|Hne].
  - apply lookup_delete_eq.
  - rewrite lookup_delete_ne by done. apply IH. tauto.
Qed.

Lemma finish_step w status items now r ix' :
  finish items status now (w_index w) = (r, ix') → winv w → status ≠ Pending → markable w status items →
  winv (with_index ix' w) ∧ progress w (with_index ix' w) ∧
  local_root (db ix') = local_root (tables w) ∧ index_ext (tables w) (db ix') ∧
  (is_ok r → ∀ it, it ∈ items → item_done (with_index ix' w) it).
Proof.
  intros Hr Hw Hst [Hkn Hit]. pose proof Hw as [Hi [Hact Hn]].
  destruct (finish_ok _ _ _ _ _ _ Hr (pi_index _ _ _ Hi) Hst Hkn)
    as [[-> Hdb]|(-> & Hinv & Hext & Hq & Hro & Hns & Hrec)].
  { destruct (winv_index w ix' Hdb Hw) as [Hw' Hle].
    split_and!; [done|by apply env_progress|by rewrite Hdb|by rewrite Hdb|by intros []]. }
  set (w' := with_index ix' w) in *.
  assert (local_root (db ix') = local_root (tables w)) as Hl by (unfold local_root; by rewrite Hro).
  assert (∀ k, k ∈ items.*2 → ∃ it, it ∈ items ∧ it.2 = k) as Hkey
    by (intros k (it & -> & ?)%list_elem_of_fmap; eauto).
  split_and!; [| |done|done|].
  - split.
    + apply (pub_inv_frame D t0 w); [done|exact Hinv|apply Hi|done|exact Hext|exact Hl|done|].
      intros k x'. unfold tables at 1, w'. simpl. rewrite Hrec. case_bool_decide as Hk; [|by intros Hx Hs; exists x'; split; [|left]].
      apply Hkey in Hk as (it & Hin & <-). destruct (Hit it Hin) as (Hs & x & Hx & Hv).
      change (db (w_index w)) with (tables w). rewrite Hx. intros [= <-] Hp. exists x. split; [done|].
      right. apply Hv. exact Hp.
    + split; [exact Hact|]. unfold tables, w'. simpl. by rewrite Hns.
  - split; [done|exact Hext|]. intros it (Hqn & Hlt & x & Hx & Hsx). split_and!.
    + unfold tables, w'. simpl. rewrite Hq. apply foldr_delete_None. by left.
    + unfold tables, w'. simpl. by rewrite Hns.
    + unfold tables at 1, w'. simpl. rewrite Hrec. change (db (w_index w)) with (tables w). rewrite Hx.
      case_bool_decide as Hk; [|by exists x]. apply Hkey in Hk as (it' & Hin & Heq).
      eexists. split; [done|]. simpl. rewrite <-Heq. by apply Hit.
  - intros _ it Hin. destruct Hkn as [_ Hlt]. rewrite Forall_forall in Hlt.
    destruct (Hit it Hin) as (Hs & x & Hx & _). split_and!.
    + unfold tables, w'. simpl. rewrite Hq. apply foldr_delete_None. right. by apply list_elem_of_fmap_2.
    + unfold tables, w'. simpl. rewrite Hns. by apply Hlt.
    + unfold tables at 1, w'. simpl. rewrite Hrec. change (db (w_index w)) with (tables w). rewrite Hx.
      rewrite bool_decide_true by (by apply list_elem_of_fmap_2). by eexists.
Qed.

Lemma triple_mark_items ok no P :
  kept P →
  triple (λ w, winv w ∧ (P w ∧ markable w Published ok ∧ markable w Denylisted no))
    (mark_items ok no) (λ _ w, winv w ∧ P w ∧ ∀ it, it ∈ ok ++ no → item_done w it) winv.
Proof.
  intros HP. unfold mark_items.
  eapply (triple_bind _ _ _ _ _ (λ _ w, winv w ∧ (P w ∧ markable w Published ok ∧ markable w Denylisted no))).
  { intros w r w' [= <- <-]. split; [done|]. auto. }
  intros now. cbv beta. apply (triple_on_index D t0).
  { intros w w' He (HPw & H1' & H2'). pose proof (el_ext _ _ He). pose proof (el_blobs _ _ He).
    pose proof (el_doc _ _ He).
    assert (local_root (tables w') = local_root (tables w)) by (unfold local_root; by rewrite (el_roots _ _ He)).
    split_and!; [by eapply (kept_stable _ HP)|by eapply markable_later..]. }
  intros w r ix' Hw (HPw & Hm1 & Hm2) Hr. unfold mark_published, mark_denylisted in Hr.
  unfold mbind, io_bind in Hr. destruct (finish ok Published now (w_index w)) as [r1 ix1] eqn:E1.
  destruct (finish_step w Published ok now r1 ix1 E1 Hw ltac:(done) Hm1) as (Hw1 & Hpg1 & Hl1 & Hext1 & Hd1).
  destruct r1 as [[]|e]; [|by injection Hr as <- <-].
  set (w1 := with_index ix1 w) in *.
  assert (markable w1 Denylisted no) as Hm2' by by eapply markable_later.
  destruct (finish_step w1 Denylisted no now r ix' Hr Hw1 ltac:(done) Hm2') as (Hw2 & Hpg2 & _ & _ & Hd2).
  change (with_index ix' w1) with (with_index ix' w) in *.
  destruct r as [[]|e]; [|done]. split_and!; [done|eapply HP; [exact Hpg2|by eapply HP]|].
  intros it [Hin|Hin]%elem_of_app; [|by apply Hd2]. apply (pg_done _ _ Hpg2). by apply Hd1.
Qed.

(** ** One partition of a cycle *)

Definition batch_ok w (batch : list (N * string * IndexRecord)) : Prop :=
  items_known (tables w) batch.*1 ∧
  ∀ it, it ∈ batch → index_record_dom it.2 ∧
    ∃ x, recs (tables w) !! it.1.2 = Some x ∧ same_content it.2 x.

Lemma batch_ok_kept batch : kept (λ w, batch_ok w batch).
Proof.
  intros w w' [_ Hext _] [Hk Hb]. split; [by eapply items_known_ext|].
  intros it Hin. destruct (Hb it Hin) as (Hd & x & Hx & Hs). split; [done|].
  destruct (ext_recs _ _ Hext _ _ Hx) as (x' & Hx' & Hs'). exists x'. split; [done|by etrans].
Qed.

Lemma batch_ok_sub w batch batch' : batch' ⊆ batch → batch_ok w batch → batch_ok w batch'.
Proof.
  intros Hsub [Hk Hb]. split; [|auto]. eapply items_known_sub; [|exact Hk]. 
  intros x (it & -> & Hin)%list_elem_of_fmap. by apply list_elem_of_fmap_2, Hsub.
Qed.

Lemma entries_of_known w p items :
  batch_ok w items → (∀ it, it ∈ items → ir_partition_id it.2 = p) → entries_known w p (entries_of items).
Proof.
  intros [_ Hb] Hp e ([[seq k] r] & -> & Hin)%list_elem_of_fmap. simpl.
  destruct (Hb _ Hin) as ((Hsz & _ & Hcode) & x & Hx & (Hh & _ & Hpid & _)). simpl in *.
  split; [by split|]. exists x. split_and!; [done|done|]. rewrite Hpid. by apply (Hp _ Hin).
Qed.

Lemma markable_items w status items :
  batch_ok w items →
  (∀ it, it ∈ items → status = if decide (it.1.2 ∈ deny) then Denylisted else Published) →
  (status = Published → ∀ it, it ∈ items → visible w (ir_partition_id it.2) it.1.2) →
  markable w status items.*1.
Proof.
  intros [Hk Hb] Hs Hv. split; [done|]. intros it' (it & -> & Hin)%list_elem_of_fmap.
  split; [by apply Hs|]. destruct (Hb _ Hin) as (_ & x & Hx & (_ & _ & Hpid & _)). exists x.
  split; [done|]. intros Hst. rewrite Hpid. by apply Hv.
Qed.

Lemma triple_publish_partition total p items P :
  kept P → (∀ w, P w → batch_ok w items) → (∀ w, P w → (p < 2 ^ 32)%N) →
  (∀ it, it ∈ items → ir_partition_id it.2 = p) →
  triple (λ w, winv w ∧ P w) (publish_partition self deny total (p, items))
    (λ n w, winv w ∧ P w ∧ n = total + length (publishable deny items) ∧
      ∀ it, it ∈ items → item_done w it.1) winv.
Proof.
  intros HP Hb Hp Hpid. unfold publish_partition.
  set (ok := publishable deny items). set (no := denied deny items).
  assert (ok ⊆ items ∧ no ⊆ items) as [Hok Hno].
  { split; intros it Hin; by apply list_elem_of_filter in Hin as [_ ?]. }
  eapply (triple_bind _ _ _ _ _ (λ _ w, winv w ∧ (P w ∧ ∀ it, it ∈ ok → visible w p it.1.2))).
  { case_bool_decide as Hemp.
    - rewrite Hemp. apply triple_ret. intros w [Hw HPw]. split_and!; [done|done|by intros it ?%elem_of_nil].
    - eapply triple_conseq; [apply (triple_publish_tree p (entries_of ok) P HP)|done| |done]; [|exact Hp|].
      + intros w HPw. apply entries_of_known; [|auto]. by eapply batch_ok_sub, Hb.
      + intros _ w (Hw & HPw & Hv). split_and!; [done|done|]. intros it Hin.
        apply (Hv (leaf_entry it.2 it.1.2)). unfold entries_of. apply list_elem_of_fmap. by exists it. }
  intros _. cbv beta.
  eapply (triple_bind _ _ _ _ _ (λ _ w, winv w ∧ P w ∧ ∀ it, it ∈ items → item_done w it.1)).
  - eapply triple_conseq; [apply (triple_mark_items ok.*1 no.*1 P HP)| | |done].
    + intros w (Hw & HPw & Hv). split_and!; [done|done|..]; apply markable_items;
        [by eapply batch_ok_sub, Hb| | |by eapply batch_ok_sub, Hb| |done].
      * intros it [Hn _]%list_elem_of_filter. by rewrite decide_False.
      * intros _ it Hin. rewrite Hpid by auto. by apply Hv.
      * intros it [Hn _]%list_elem_of_filter. by rewrite decide_True.
    + intros _ w (Hw & HPw & Hd). split_and!; [done|done|]. intros it Hin. apply Hd.
      rewrite <-fmap_app. apply list_elem_of_fmap_2, elem_of_app.
      destruct (decide (it.1.2 ∈ deny)); [right|left]; by apply list_elem_of_filter.
  - intros _. cbv beta. apply triple_ret. intros w (Hw & HPw & Hd). done.
Qed.

(** ** The groups of a batch *)

Lemma group_items_lookup batch p :
  group_items batch !! p =
    (let l := filter (λ it, ir_partition_id it.2 = p) batch in if bool_decide (l = []) then None else Some l).
Proof.
  unfold group_items. induction batch as [|it batch IH] using rev_ind; [done|].
  rewrite foldl_app. simpl. rewrite filter_app, filter_cons, filter_nil.
  destruct (decide (ir_partition_id it.2 = p)) as [<-|Hne].
  - rewrite lookup_partial_alter_eq, IH. cbv zeta.
    rewrite (bool_decide_false (_ ++ [it] = [])) by (by intros [_ ?]%app_nil).
    do 2 f_equal. by case_bool_decide as Hl; [rewrite Hl|].
  - rewrite lookup_partial_alter_ne, IH by done. by rewrite app_nil_r.
Qed.

Lemma group_items_rows batch p items :
  (p, items) ∈ rows (group_items batch) →
  items = filter (λ it, ir_partition_id it.2 = p) batch ∧ items ≠ [].
Proof.
  rewrite rows_elem, group_items_lookup. simpl. case_bool_decide; [done|]. by intros [= <-].
Qed.

Lemma group_items_cover batch it :
  it ∈ batch → ∃ items, (ir_partition_id it.2, items) ∈ rows (group_items batch) ∧ it ∈ items.
Proof.
  intros Hin. eexists. rewrite rows_elem, group_items_lookup. simpl.
  assert (it ∈ filter (λ it', ir_partition_id it'.2 = ir_partition_id it.2) batch) as Hf
    by (by apply list_elem_of_filter).
  rewrite bool_decide_false; [by split|]. intros Hx. rewrite Hx in Hf. by apply elem_of_nil in Hf.
Qed.

End facts.


(** ** The cycle *)

Section cycle.
Context `{Blake3} `{Sha256} `{!Codec LeafEntry, !LeafCodecLaws}.
Context `{!Codec IndexRecord, !CodecLaws IndexRecord index_record_dom}.
Context {St Dc : Type} `{!BlobStore St, !BlobStoreSpec St, !LocalStore St}.
Context `{!IrohDocs (Traced St) Dc, !IrohDocsLaws (Traced St) Dc}.
Context (D : list byte → Prop) `{!CollisionFree D} (t0 : Tables).
Implicit Types w : World (Traced St) Dc.

#[local] Abbreviation winv := (winv D t0).
#[local] Abbreviation triple := (triple wlog D).

Context (self : Publisher (Traced St) Dc).

Lemma winv_active w n : winv w → winv (with_active n w).
Proof. intros [[] []]. by split; split. Qed.

Lemma triple_write_guard {E A} (m : io (World (Traced St) Dc) E A) P Q (X : World (Traced St) Dc → Prop) :
  triple P m Q X → (∀ n w, P w → P (with_active n w)) → (∀ a n w, Q a w → Q a (with_active n w)) →
  (∀ n w, X w → X (with_active n w)) → triple P (with_write_guard m) Q X.
Proof.
  intros Hm HP HQ HX w r w' Hr. unfold with_write_guard in Hr.
  destruct (m _) as [r1 w1] eqn:Em. injection Hr as <- <-. destruct (Hm _ _ _ Em) as [Hp Hpost].
  split; [exact Hp|]. intros HD HPw. specialize (Hpost HD (HP _ _ HPw)). destruct r1; auto.
Qed.

(** The cycle from a given state: on success every row among the oldest
    [max_pending] is finished, as the denylist says. *)
Lemma triple_publish_cycle w0 :
  let deny := load_denylist (w_files w0) (denylist_path self) in
  let oldest := take (max_pending self) (rows (t_queue (tables w0))) in
  triple (λ w, winv w ∧ env_le w0 w) (publish_cycle self)
    (λ _ w, winv w ∧ ∀ it, it ∈ oldest → item_done deny w it) winv.
Proof.
  intros deny oldest. unfold publish_cycle. apply triple_write_guard.
  2: { intros n w [Hw []]. split; [by apply winv_active|by split]. }
  2: { intros _ n w [Hw Hd]. split; [by apply winv_active|exact Hd]. }
  2: { intros n w. apply winv_active. }
  eapply (triple_bind _ _ _ _ _ (λ batch w, winv w ∧ w_files w = w_files w0 ∧ batch_ok w batch ∧
    oldest ⊆ batch.*1)).
  { apply (triple_on_index D t0); [intros w w' He He0; by etrans|].
    intros w r ix' Hw Hle Hr. destruct (pending_batch_ok _ _ _ _ Hr (pi_index _ _ _ (proj1 Hw))) as [Hdb Hres].
    destruct (winv_index D t0 w ix' Hdb Hw) as [Hw' Hle']. destruct Hres as [->|(batch & -> & Hb & Hrs)]; [done|].
    split_and!; [done|by apply Hle| |].
    - assert (tables (with_index ix' w) = tables w) as Ht by exact Hdb. unfold batch_ok. rewrite Ht. split.
      + apply items_known_taken; [apply (pi_index _ _ _ (proj1 Hw))|]. intros seq k. rewrite Hb.
        intros Hin%elem_of_take. destruct Hin as (i & Hi & _). by apply list_elem_of_lookup_2, rows_elem in Hi.
      + intros [[seq k] x] Hin. apply Hrs in Hin. simpl. split; [by eapply recs_dom|]. by exists x.
    - rewrite Hb. destruct (el_queue _ _ Hle) as [l Hl]. fold (tables w). rewrite Hl.
      intros it (i & Hi & Hlt)%elem_of_take. apply elem_of_take. exists i. split; [|done].
      by apply lookup_app_l_Some. }
  intros batch. cbv beta. case_bool_decide as Hemp.
  { apply triple_ret. intros w (Hw & _ & _ & Hsub). split; [done|]. subst batch. intros it Hin.
    apply Hsub in Hin. by apply elem_of_nil in Hin. }
  eapply (triple_bind _ _ _ _ _ (λ d w, winv w ∧ (d = deny ∧ batch_ok w batch ∧ oldest ⊆ batch.*1))).
  { intros w r w' [= <- <-]. split; [done|]. intros _ (Hw & Hf & Hb & Hsub). by rewrite Hf. }
  intros d. cbv beta.
  set (Done (gs : list (N * list (N * string * IndexRecord))) w := ∀ g, g ∈ gs → ∀ it : N * string * IndexRecord, it ∈ g.2 → item_done d w it.1).
  eapply (triple_conseq _ _ _ _ (λ w, winv w ∧ (d = deny ∧ batch_ok w batch ∧ oldest ⊆ batch.*1) ∧ Done [] w) _
    (λ _ w, winv w ∧ (d = deny ∧ batch_ok w batch ∧ oldest ⊆ batch.*1) ∧ Done (rows (group_items batch)) w)
    _ winv); [| | |done].
  2: { intros w (Hw & Hb). split_and!; try done; try apply Hb. by intros g ?%elem_of_nil. }
  2: { intros _ w (Hw & (-> & Hb & Hsub) & Hdone). split; [done|]. intros it Hin.
       apply Hsub, list_elem_of_fmap in Hin as (it' & -> & Hin).
       destruct (group_items_cover batch it' Hin) as (items & Hg & Hi). by apply (Hdone _ Hg). }
  apply (triple_fold wlog D (publish_partition self d) (λ done _ w,
    winv w ∧ (d = deny ∧ batch_ok w batch ∧ oldest ⊆ batch.*1) ∧ Done done w)).
  intros done [p items] rest total Hrows.
  assert ((p, items) ∈ rows (group_items batch)) as Hg by (rewrite Hrows, elem_of_app; right; by left).
  apply group_items_rows in Hg as [Hitems Hne].
  assert (∀ it, it ∈ items → ir_partition_id it.2 = p ∧ it ∈ batch) as Hit
    by (intros it; rewrite Hitems; by intros ?%list_elem_of_filter).
  assert (items ⊆ batch) as Hsubi by (intros it Hin; by apply Hit).
  eapply triple_conseq; [apply (triple_publish_partition D t0 d self total p items
    (λ w, (d = deny ∧ batch_ok w batch ∧ oldest ⊆ batch.*1) ∧ Done done w))|done| |done].
  - intros w1 w2 Hpg [(Hd & Hb & Hs) Hdone]. split_and!; [done|by eapply (batch_ok_kept d)|done|].
    intros g Hg it Hin. apply (pg_done _ _ _ Hpg). by apply (Hdone g).
  - intros w [(_ & Hb & _) _]. by eapply batch_ok_sub.
  - intros w [(_ & [_ Hb] & _) _]. destruct items as [|it items']; [done|].
    destruct (Hit it) as [<- Hin]; [by left|]. by destruct (Hb it Hin) as ((_ & Hlt & _) & _).
  - intros it Hin. by apply Hit.
  - intros n w (Hw & (Hb & Hdone) & _ & Hnew). split_and!; try done; try apply Hb.
    intros g [Hg|Hg%list_elem_of_singleton]%elem_of_app; [by apply Hdone|by subst g].
Qed.

(** ** Healing and seeding *)

(** A program run for its effect on the invariant only. *)
Lemma get_partition_root_doc w p r n' :
  get_partition_root p (w_node w) = (Ok (Some r), n') →
  doc_root (blobs (with_node n' w)) (entries (with_node n' w)) p r.
Proof.
  intros Hr. pose proof (get_named_root_ok _ _ _ _ Hr) as Ho.
  pose proof (nr_docs _ _ (read_get_named_root _ _ _ _ Hr)) as Hd.
  destruct (doc_entries (w_node w).2 !! partition_key p) as [h|] eqn:Eh; [|done].
  destruct Ho as (r' & [= <-] & Hb). exists h. split; [|exact Hb].
  unfold entries. simpl. by rewrite Hd.
Qed.

Lemma triple_get_partition_root p P :
  stable P → (∀ w w', tables w' = tables w → P w → P w') →
  triple (λ w, winv w ∧ P w) (on_node (get_partition_root p))
    (λ o w, winv w ∧ P w ∧ ∀ r, o = Some r → (p < 2 ^ 32)%N →
       cur w p (Some r) ∧ doc_root (blobs w) (entries w) p r) (λ w, winv w ∧ P w).
Proof.
  intros Hst Htb. apply (triple_on_node D t0); [done| |].
  - intros n r n' Hr. by eapply node_read_log, read_get_named_root.
  - intros w r n' Hw HPw Hr _. pose proof (read_get_named_root _ _ _ _ Hr) as Hrd.
    destruct (winv_node_read D t0 w n' Hrd Hw) as (Hw' & Hle & _).
    assert (P (with_node n' w)) as HP' by by apply (Htb w).
    destruct r as [o|e]; [|done]. split_and!; [done|done|]. intros r -> Hp. split.
    + by eapply (get_partition_root_cur D t0).
    + by apply get_partition_root_doc.
Qed.

(** The roots of a listing are still the local ones. *)
Definition listed (l : list (N * Hash)) w : Prop :=
  ∀ p h, (p, h) ∈ l → local_root (tables w) p = Some h.

Lemma listed_stable l : stable (listed l).
Proof. intros w w' He Hl p h Hin. unfold local_root. rewrite (el_roots _ _ He). by apply Hl. Qed.

Lemma triple_heal_one l healed p h :
  (p, h) ∈ l →
  triple (λ w, winv w ∧ listed l w) (heal_one self healed (p, h)) (λ _ w, winv w ∧ listed l w) winv.
Proof.
  intros Hin. unfold heal_one.
  eapply triple_bind.
  { eapply (triple_try _ _ _ _ (λ _ w, winv w ∧ listed l w));
      [apply (triple_get_partition_root p (listed l))|..].
    - apply listed_stable.
    - intros w w' Ht Hl q x Hq. rewrite Ht. by apply Hl.
    - by intros o w (Hw & HLw & _).
    - done. }
  intros r. cbv beta.
  assert (triple (λ w, winv w ∧ listed l w)
    (_ ← on_node (set_partition_root (pointer_doc self) p h); mret (S healed))
    (λ _ w, winv w ∧ listed l w) winv) as Hset.
  { eapply (triple_bind _ _ _ _ _ (λ _ w, winv w ∧ listed l w)); [|intros _; by apply triple_ret].
    apply (triple_on_node D t0); [apply listed_stable| |].
    - intros n r' n' Hr. by destruct (set_named_root_run D _ _ _ _ _ _ Hr) as [[Hpre _] _].
    - intros w r' n' Hw HLw Hr HD. pose proof (HLw _ _ Hin) as Hl.
      destruct (pi_local _ _ _ (proj1 Hw) _ _ Hl) as [Hp _].
      destruct (set_doc_root D t0 ∅ _ w p h r' n' Hr HD Hw (cur_local D t0 w p h Hw Hl) Hp) as (Hw' & _).
      destruct r' as [[]|e]; done. }
  destruct r as [[x|]|e]; [by apply triple_ret|exact Hset|exact Hset].
Qed.

Lemma triple_heal : triple winv (heal_pointer_doc self) (λ _ w, winv w) winv.
Proof.
  unfold heal_pointer_doc.
  eapply (triple_conseq _ _ _ _ (λ w, winv w ∧ True) _ (λ _ w, winv w) _ winv); [|by intros|done|done].
  eapply (triple_bind _ _ _ _ _ (λ l w, winv w ∧ listed l w)).
  { apply (triple_on_index D t0); [done|]. intros w r ix' Hw _ Hr.
    destruct (all_local_roots_ok _ _ _ Hr) as [Hdb Hres]. destruct (winv_index D t0 w ix' Hdb Hw) as [Hw' _].
    destruct Hres as [->|(l & -> & Hl)]; [done|]. split; [done|]. intros p h Hin%Hl.
    unfold tables. simpl. by rewrite Hdb. }
  intros l. cbv beta. eapply triple_conseq;
    [apply (triple_fold wlog D (heal_one self) (λ _ _ w, winv w ∧ listed l w) winv l 0)|done| |done].
  - intros done [p h] rest healed ->. apply triple_heal_one. rewrite elem_of_app. right. by left.
  - by intros _ w [Hw _].
Qed.

Lemma triple_seed_one seeded p :
  (p < 2 ^ 32)%N → triple winv (seed_one seeded p) (λ _ w, winv w) winv.
Proof.
  intros Hp. unfold seed_one.
  eapply (triple_conseq _ _ _ _ (λ w, winv w ∧ True) _ (λ _ w, winv w) _ winv); [|by intros|done|done].
  eapply (triple_bind _ _ _ _ _ (λ _ w, winv w ∧ True)).
  { apply (triple_on_index D t0); [done|]. intros w r ix' Hw _ Hr.
    destruct (get_local_root_ok _ _ _ _ Hr) as [Hdb _]. destruct (winv_index D t0 w ix' Hdb Hw) as [Hw' _].
    by destruct r. }
  intros [x|]; cbv beta; [apply triple_ret; by intros w [Hw _]|].
  eapply (triple_bind _ _ _ _ _ (λ r w, winv w ∧ ∀ x, r = Ok (Some x) →
    cur w p (Some x) ∧ doc_root (blobs w) (entries w) p x)).
  { eapply (triple_try _ _ _ _ _ _ _); [apply (triple_get_partition_root p (λ _, True)); done|..].
    - intros o w (Hw & _ & Ho). split; [done|]. intros x [= ->]. by apply Ho.
    - intros e w [Hw _]. by split. }
  assert (∀ r : result anyhow (option Hash), (∀ x, r ≠ Ok (Some x)) →
    triple (λ w, winv w ∧ ∀ x, r = Ok (Some x) → cur w p (Some x) ∧ doc_root (blobs w) (entries w) p x)
      (mret seeded : io (World (Traced St) Dc) anyhow nat) (λ _ w, winv w) winv) as Hskip by (intros r _; apply triple_ret; by intros w [Hw _]).
  intros [[x|]|e]; cbv beta iota; [|by apply Hskip|by apply Hskip].
  eapply (triple_bind _ _ _ _ _ (λ _ w, winv w)); [|intros _; by apply triple_ret].
  eapply (triple_conseq _ _ _ _ (λ w, winv w ∧ (cur w p (Some x) ∧ doc_root (blobs w) (entries w) p x)) _
    (λ _ w, winv w) _ winv); [|intros w [Hw Hx]; split; [done|by apply Hx]|done|done].
  apply (triple_on_index D t0).
  - intros w w' He [Hc Hd]. split; [by eapply cur_env|]. rewrite (el_doc _ _ He).
    eapply doc_root_mono; [apply He|done].
  - intros w r ix' Hw [Hc Hd] Hr.
    destruct (set_local_step D t0 ∅ w p x r ix' [] Hr Hw Hc Hd ltac:(by intros e ?%elem_of_nil) Hp) as (Hw' & _).
    by destruct r.
Qed.

Lemma triple_seed :
  (top_level_partitions self < 2 ^ 32)%N → triple winv (seed_local_roots self) (λ _ w, winv w) winv.
Proof.
  intros Hn. unfold seed_local_roots.
  apply (triple_fold wlog D seed_one (λ _ _ w, winv w) winv (partition_ids self) 0).
  intros done p rest seeded Hps. apply triple_seed_one.
  assert (p ∈ partition_ids self) as Hin by (rewrite Hps, elem_of_app; right; by left).
  apply list_elem_of_fmap in Hin as (i & -> & Hi%elem_of_seq). lia.
Qed.

(** ** The loop *)

Lemma triple_queue_depth : triple winv publisher_queue_depth (λ _ w, winv w) winv.
Proof.
  unfold publisher_queue_depth.
  eapply (triple_bind _ _ _ _ _ (λ _ w, winv w)); [|intros r; by apply triple_ret].
  eapply triple_try; [|by intros a w Hw; exact Hw|by intros e w Hw; exact Hw].
  eapply (triple_conseq _ _ _ _ (λ w, winv w ∧ True) _ (λ _ w, winv w) _ winv); [|by intros|done|done].
  apply (triple_on_index D t0); [done|]. intros w r ix' Hw _ Hr.
  apply read_txn_cases in Hr as [Hdb _]. destruct (winv_index D t0 w ix' Hdb Hw) as [Hw' _]. by destruct r.
Qed.

Lemma triple_cycle : triple winv (publish_cycle self) (λ _ w, winv w) winv.
Proof.
  intros w r w' Hr. destruct (triple_publish_cycle w w r w' Hr) as [Hp Hpost]. split; [done|].
  intros HD Hw. specialize (Hpost HD (conj Hw (reflexivity w))). by destruct r; [apply Hpost|].
Qed.

Lemma winv_status s w : winv w → winv (with_status s w).
Proof. intros [[] []]. by split; split. Qed.

Lemma triple_modify (f : World (Traced St) Dc → World (Traced St) Dc) :
  (∀ w, wlog (f w) = wlog w) → (∀ w, winv w → winv (f w)) →
  triple winv (modify (E:=anyhow) f) (λ _ w, winv w) winv.
Proof. intros Hl Hf w r w' [= <- <-]. rewrite Hl. split; [done|]. auto. Qed.

Lemma triple_try_inv {E F A} (m : io (World (Traced St) Dc) E A) :
  triple winv m (λ _ w, winv w) winv → triple winv (@io_try _ E F A m) (λ _ w, winv w) winv.
Proof. intros Hm. by eapply triple_try. Qed.

Lemma triple_run_turn clock l : triple winv (run_turn self clock l) (λ _ w, winv w) winv.
Proof.
  unfold run_turn. eapply (triple_bind _ _ _ _ _ (λ _ w, winv w)).
  { case_match; [|by apply triple_ret].
    eapply (triple_bind _ _ _ _ _ (λ _ w, winv w)); [|intros _; by apply triple_ret].
    apply triple_try_inv, triple_heal. }
  intros _. cbv beta. eapply (triple_bind _ _ _ _ _ (λ _ w, winv w)); [apply triple_queue_depth|].
  intros depth. cbv beta. case_match; [|by apply triple_ret].
  eapply (triple_bind _ _ _ _ _ (λ _ w, winv w)); [apply triple_try_inv, triple_cycle|].
  intros [n|e]; cbv beta iota;
    (eapply (triple_bind _ _ _ _ _ (λ _ w, winv w)); [|intros _; by apply triple_ret]);
    apply triple_modify; [done|intros; by apply winv_status|done|intros; by apply winv_status].
Qed.

Lemma triple_run_drain : triple winv (run_drain self) (λ _ w, winv w) winv.
Proof.
  unfold run_drain. eapply (triple_bind _ _ _ _ _ (λ _ w, winv w)); [apply triple_queue_depth|].
  intros depth. cbv beta. case_match; [|by apply triple_ret].
  eapply (triple_bind _ _ _ _ _ (λ _ w, winv w)); [|intros _; by apply triple_ret].
  apply triple_try_inv, triple_cycle.
Qed.

Lemma triple_run clock ticks :
  (top_level_partitions self < 2 ^ 32)%N →
  triple winv (run self clock ticks) (λ _ w, winv w) winv.
Proof.
  intros Hn. unfold run.
  eapply (triple_bind _ _ _ _ _ (λ _ w, winv w)); [by apply triple_try_inv, triple_seed|]. intros _.
  eapply (triple_bind _ _ _ _ _ (λ _ w, winv w)); [apply triple_try_inv, triple_heal|]. intros _. cbv beta.
  generalize (mkLoopState clock clock). induction ticks as [|[c shutdown] ticks IH]; intros l; simpl;
    [by apply triple_ret|].
  eapply (triple_bind _ _ _ _ _ (λ _ w, winv w)); [apply triple_run_turn|].
  intros [l'|l']; cbv beta iota; [apply IH|]. destruct shutdown; [apply triple_run_drain|apply IH].
Qed.
End cycle.
