(* ===== verification/ApiFacts.v ===== *)
(** The steps of the API handlers: what each call keeps and adds. *)

From S2P Require Import Prelude Hash Partition Record BlobStore Hamt HamtNodeFacts HamtFacts Iscc CidKey Anyhow Index IndexFacts IndexOps PointerDoc PointerDocFacts Daemon Hoare PublisherInv PublisherFacts Api.

(** ** Validation *)

Section validation.
Context `{Blake3} `{Hex} `{Sha256} `{CidCrate} `{Base32} `{SerdeJson} `{Timestamps} `{Texts}.

Lemma from_be_bytes_lt l : length l ≤ 8 → (from_be_bytes l < 2 ^ 64)%N.
Proof.
  intros Hl. unfold from_be_bytes.
  assert (∀ a, (foldl (λ acc b, acc * 256 + to_N b)%N a l < (a + 1) * 256 ^ N.of_nat (length l))%N) as Hg.
  { clear Hl. induction l as [|b l IH]; intros a; simpl length; [simpl; lia|]. cbn [foldl].
    specialize (IH (a * 256 + to_N b)%N). pose proof (Byte.to_N_bounded b).
    rewrite Nat2N.inj_succ, N.pow_succ_r'. nia. }
  specialize (Hg 0%N). assert (256 ^ N.of_nat (length l) ≤ 256 ^ 8)%N by (apply N.pow_le_mono_r; lia).
  change (256 ^ 8)%N with (2 ^ 64)%N in *. lia.
Qed.

Lemma decode_content_code_lt s c : decode_content_code s = Ok c → (c < 2 ^ 64)%N.
Proof.
  unfold decode_content_code. case_bool_decide; [done|]. cbv zeta.
  destruct (result_map_err Base32Error _) as [bytes|]; [|done]. cbn [mbind result_bind].
  destruct bytes as [|b0 [|b1 body]]; [done..|]. destruct (_ =? _)%N.
  - destruct (_ <? _); [done|]. intros [= <-]. apply from_be_bytes_lt. rewrite length_take. lia.
  - destruct (_ =? _)%N; [|done]. destruct (negb _); [done|]. intros [= <-].
    apply from_be_bytes_lt. rewrite length_take. lia.
Qed.

Lemma extract_from_json_lt v c : extract_from_json v = Some c → (c < 2 ^ 64)%N.
Proof.
  unfold extract_from_json. intros Hx. destruct (result_ok (json_from_str v)) as [p|]; [|done]. simpl in Hx.
  destruct p; try done. simpl in Hx. destruct (iscc_field fields) as [[]|]; try done. simpl in Hx.
  destruct (decode_content_code s) eqn:E; [|done]. injection Hx as <-. by eapply decode_content_code_lt.
Qed.

(** The values of the configuration's types. *)
Definition state_ok (state : AppState) : Prop :=
  (max_value_bytes state < 2 ^ 64)%N ∧ (0 < top_level_partitions state < 2 ^ 32)%N.

Lemma validate_one_ok state now key value v rec :
  state_ok state → validate_one state now key value = Ok (v, rec) →
  is_valid_record_key key = true ∧ canonical_value value = Ok v ∧
  (N.of_nat (String.length v) ≤ max_value_bytes state)%N ∧
  index_record_dom rec ∧ ir_status rec = Pending ∧ ir_content_hash rec = content_hash v ∧
  ir_partition_id rec = partition_id_for_key key (top_level_partitions state).
Proof.
  intros [Hm Hp]. unfold validate_one. destruct (is_valid_record_key key); [|done]. simpl.
  destruct (canonical_value value) as [v'|]; [|done]. destruct (N.ltb_spec (max_value_bytes state) (N.of_nat (String.length v'))); [done|].
  intros [= <- <-]. split_and!; try done. unfold index_record_dom. simpl. split_and!; [lia| |].
  - eapply N.lt_trans; [apply partition_id_lt|]; lia.
  - destruct (extract_from_json v') eqn:E; [|done]. by eapply extract_from_json_lt.
Qed.
End validation.

(** ** How a program can fail *)

Section fails.
Context {W E : Type} (Φ : E → Prop).

Definition fails_with {A} (m : io W E A) : Prop := ∀ w e w', m w = (Err e, w') → Φ e.

Lemma fails_ret {A} (a : A) : fails_with (mret a).
Proof. by intros w e w' ?. Qed.
Lemma fails_err {A} e : Φ e → fails_with (A:=A) (io_err e).
Proof. by intros He w e' w' [= <- _]. Qed.
Lemma fails_bind {A B} (m : io W E A) (f : A → io W E B) :
  fails_with m → (∀ a, fails_with (f a)) → fails_with (m ≫= f).
Proof.
  intros Hm Hf w e w'. unfold mbind, io_bind. destruct (m w) as [[a|e1] w1] eqn:Em.
  - apply Hf.
  - intros [= <- _]. by eapply Hm.
Qed.
Lemma fails_map_err {F A} (g : F → E) (m : io W F A) : (∀ e, Φ (g e)) → fails_with (io_map_err g m).
Proof.
  intros Hg w e w'. unfold io_map_err. destruct (m w) as [[a|e1] w1]; [done|]. by intros [= <- _].
Qed.
Lemma fails_try {F A} (m : io W F A) : fails_with (io_try m).
Proof. intros w e w'. unfold io_try. by destruct (m w). Qed.
Lemma fails_fold {A B} (f : A → B → io W E A) a xs :
  (∀ a x, fails_with (f a x)) → fails_with (io_fold f a xs).
Proof.
  intros Hf. revert a. induction xs as [|x xs IH]; intros a; simpl; [apply fails_ret|].
  apply fails_bind; [apply Hf|intros a'; apply IH].
Qed.
End fails.

(** ** Calls *)

Section calls.
Context `{Blake3} `{Hex} `{Sha256} `{CidCrate} `{Base32} `{SerdeJson} `{Timestamps} `{Texts}.
Context `{!Codec LeafEntry, !LeafCodecLaws}.
Context `{!Codec IndexRecord, !CodecLaws IndexRecord index_record_dom}.
Context {St Dc : Type} `{!BlobStore St, !BlobStoreSpec St, !LocalStore St}.
Context `{!IrohDocs (Traced St) Dc, !IrohDocsLaws (Traced St) Dc}.
Context (D : list byte → Prop) `{!CollisionFree D} (t0 : Tables).
Implicit Types w : World (Traced St) Dc.
#[local] Abbreviation winv := (winv D t0).
#[local] Abbreviation triple := (triple wlog D).

(** What survives the other tasks' writes. *)
Definition lasting (P : World (Traced St) Dc → Prop) : Prop :=
  ∀ w w', env_le w w' → (seq_end w' ≤ seq_end w)%N → P w → P w'.

(** A write of our own is one the other tasks could have made. *)
Lemma winv_action w a :
  winv w → action_ok a → (seq_end w + N.of_nat (env_len [a]) < 2 ^ 64)%N →
  Forall D (wlog (env_action w a)) →
  winv (env_action w a) ∧ env_le w (env_action w a) ∧
  (seq_end (env_action w a) ≤ seq_end w + N.of_nat (env_len [a]))%N.
Proof.
  intros [Hi [Hact Hn]] Ha Hs HD. destruct (env_action_ok D t0 w a) as (_ & He & Hok).
  unfold seq_end in *. destruct Hok as (Hi' & Hle & Hseq); [done..|lia|].
  split_and!; [|done|rewrite He; lia]. split; [done|]. split; [by rewrite He|]. rewrite He. lia.
Qed.

Lemma triple_map_err {E F A} (g : E → F) (m : io (World (Traced St) Dc) E A) P Q X :
  triple P m Q X → triple P (io_map_err g m) Q X.
Proof.
  intros Hm w r w' Hr. unfold io_map_err in Hr. destruct (m w) as [r1 w1] eqn:Em. injection Hr as <- <-.
  destruct (Hm _ _ _ Em) as [Hp Hx]. split; [done|]. intros HD HP. specialize (Hx HD HP). by destruct r1.
Qed.

Lemma triple_lift_eq {E A} (r : result E A) P : triple P (io_lift r : io (World (Traced St) Dc) E A)
  (λ a w, P w ∧ r = Ok a) P.
Proof. intros w r' w' [= <- <-]. split; [done|]. intros _ HP. by destruct r. Qed.

Lemma triple_read_world {E A} (f : World (Traced St) Dc → A) P :
  triple P (read_world f : io _ E A) (λ _ w, P w) P.
Proof. intros w r w' [= <- <-]. by split. Qed.

(** An index read. *)
Lemma triple_index_read {A} (body : Tables → result anyhow A) P (Q : A → World (Traced St) Dc → Prop) :
  lasting P → (∀ a w, winv w → P w → body (tables w) = Ok a → Q a w) →
  (∀ a ix w, db ix = tables w → Q a w → Q a (with_index ix w)) →
  triple (λ w, winv w ∧ P w) (on_index (read_txn body)) (λ a w, winv w ∧ P w ∧ Q a w) (λ w, winv w ∧ P w).
Proof.
  intros HP HQ HQi. apply (triple_on_index_seq D t0); [done|]. intros w r ix' Hw HPw Hr _.
  apply read_txn_cases in Hr as [Hdb Hr].
  destruct (winv_index D t0 w ix' Hdb Hw) as [Hw' Hle].
  assert (P (with_index ix' w)) as HP'.
  { eapply HP; [exact Hle| |done]. unfold seq_end, tables. simpl. by rewrite Hdb. }
  destruct r as [a|e]; [|done]. split_and!; [done|done|]. apply HQi; [done|].
  apply HQ; [done|done|]. destruct Hr as [?|Hr]; [done|by symmetry].
Qed.

(** The value is in the store before anything refers to it. *)
Lemma triple_put_value v P : lasting P →
  triple (λ w, winv w ∧ P w) (on_node (on_fst (io_map_err EBlob (put (str_bytes v)))))
    (λ _ w, winv w ∧ P w ∧ blobs w !! content_hash v = Some (str_bytes v)) (λ w, winv w ∧ P w).
Proof.
  intros HP. apply (triple_on_node_seq D t0); [done| |].
  - intros [s d] r n' Hr. apply on_fst_run in Hr as (s' & Hr & ->). unfold io_map_err in Hr.
    destruct (put _ s) as [r1 s1] eqn:Ep. injection Hr as _ <-. by destruct (steps_put D _ _ _ _ Ep).
  - intros w r n' Hw HPw Hr HD. destruct (w_node w) as [s d] eqn:En.
    apply on_fst_run in Hr as (s' & Hr & ->). unfold io_map_err in Hr.
    destruct (put _ s) as [r1 s1] eqn:Ep. injection Hr as <- <-.
    assert (with_node (s1, d) w = env_action w (EnvPut (str_bytes v))) as Ha
      by (cbn [env_action]; by rewrite En; cbn [fst snd]; rewrite Ep).
    assert (seq_end w < 2 ^ 64)%N as Hs by (unfold seq_end; apply Hw).
    destruct (winv_action w (EnvPut (str_bytes v))) as (Hw' & Hle & Hse); [done|done|change (env_len [EnvPut (str_bytes v)]) with 0; lia| |].
    { rewrite <-Ha. exact HD. }
    rewrite <-Ha in *. change (env_len _) with 0 in Hse.
    assert (P (with_node (s1, d) w)) as HP' by (eapply HP; [exact Hle|lia|done]).
    destruct r1 as [h|e]; [|done]. split_and!; [done|done|].
    destruct (put_ok_run _ _ _ _ Ep) as (-> & Hc & _). exact Hc.
Qed.

Lemma triple_store_value v P : lasting P →
  triple (λ w, winv w ∧ P w) (store_value v)
    (λ _ w, winv w ∧ P w ∧ blobs w !! content_hash v = Some (str_bytes v)) (λ w, winv w ∧ P w).
Proof. intros HP. by apply triple_map_err, triple_put_value. Qed.

(** The outcome of a value's write as a result: the error is internal. *)
Lemma triple_try_store v P : lasting P →
  triple (λ w, winv w ∧ P w) (io_try (F:=ApiError) (store_value v))
    (λ r w, winv w ∧ P w ∧ match r with
       | Ok _ => blobs w !! content_hash v = Some (str_bytes v)
       | Err e => ∃ d, e = Internal d end) (λ _, False).
Proof.
  intros HP. intros w r w' Hr. unfold io_try, store_value, io_map_err in Hr.
  destruct (on_node _ w) as [r1 w1] eqn:En. injection Hr as <- <-.
  destruct (triple_put_value v P HP w r1 w1 En) as [Hp Hx]. split; [done|]. intros HD Hw.
  specialize (Hx HD Hw). destruct r1 as [h|e]; [done|]. destruct Hx. split_and!; [done|done|by eexists].
Qed.

(** The claim: the index afterwards is the specification's. *)
Lemma triple_submit_many subs P (Q : list SubmitOutcome → World (Traced St) Dc → Prop) :
  lasting P →
  (∀ w os w', winv w → P w → env_le w w' → spec_submit (recs (tables w)) subs = (os, recs (tables w')) →
     blobs w' = blobs w → Q os w') →
  triple (λ w, winv w ∧ P w ∧ Forall (λ kr, index_record_dom kr.2 ∧ ir_status kr.2 = Pending) subs ∧
      (seq_end w + N.of_nat (length subs) < 2 ^ 64)%N)
    (on_index (submit_many subs)) (λ os w, winv w ∧ Q os w) winv.
Proof.
  intros HP HQ. apply (triple_on_index_seq D t0).
  { intros w w' Hle Hs (HPw & Hsubs & Hn). split_and!; [by eapply HP|done|lia]. }
  intros w r ix' Hw (HPw & Hsubs & Hn) Hr HD.
  assert (with_index ix' w = env_action w (EnvSubmit subs)) as Ha by (cbn [env_action]; by rewrite Hr).
  assert (env_len [EnvSubmit subs] = length subs) as Hl by apply Nat.add_0_r.
  destruct (winv_action w (EnvSubmit subs)) as (Hw' & Hle & _); [done|done|by rewrite Hl|exact HD|].
  rewrite <-Ha in Hw', Hle. destruct r as [os|e]; [|done]. split; [done|].
  pose proof (submit_many_spec _ _ _ _ Hr (pi_index _ _ _ (proj1 Hw))) as Hsp.
  destruct (spec_submit (recs (db (w_index w))) subs) as [os' m] eqn:Es.
  destruct Hsp as [[? _]|(Hos & Hm & _)]; [|unfold seq_end, tables in Hn; lia|done|].
  { eapply Forall_impl; [exact Hsubs|]. by intros ? [? _]. }
  injection Hos as ->. apply (HQ w); [done..| |done].
  unfold tables at 1. rewrite Es. by rewrite <-Hm.
Qed.

(** A result computed from what an index call returns. *)
Lemma on_index_lift {A B} (m : io RecordIndex anyhow A) (f : A → result anyhow B) w :
  on_index (a ← m; io_lift (f a)) w = (a ← on_index m; io_lift (f a)) w.
Proof.
  unfold on_index, mbind, io_bind. by destruct (m (w_index (interfere w))) as [[a|e] ix'].
Qed.

Lemma triple_ext {E A} (m m' : io (World (Traced St) Dc) E A) P Q X :
  (∀ w, m w = m' w) → triple P m' Q X → triple P m Q X.
Proof. intros He Hm w r w' Hr. rewrite He in Hr. by apply Hm. Qed.

(** What one claim finds or makes of its key. *)
Definition claimed w (key : string) (rec : IndexRecord) (o : SubmitOutcome) : Prop :=
  ∃ x, recs (tables w) !! key = Some x ∧
    match o with
    | Queued => x = rec
    | DuplicateIdentical => ir_content_hash x = ir_content_hash rec
    | Conflict h => ir_content_hash x = h ∧ h ≠ ir_content_hash rec
    end.

Lemma spec_submit_claimed m subs os m' : spec_submit m subs = (os, m') →
  Forall2 (λ kr o, ∃ x, m' !! kr.1 = Some x ∧
    match o with
    | Queued => x = kr.2
    | DuplicateIdentical => ir_content_hash x = ir_content_hash kr.2
    | Conflict h => ir_content_hash x = h ∧ h ≠ ir_content_hash kr.2
    end) subs os.
Proof.
  revert m os m'. induction subs as [|[k r] subs IH]; intros m os m'; simpl; [by intros [= <- <-]|].
  destruct (m !! k) as [e|] eqn:Ek.
  - destruct (spec_submit m subs) as [os1 m1] eqn:E. intros [= <- <-]. constructor; [|by eapply IH].
    destruct (spec_submit_facts _ _ _ _ E) as (_ & Hs & _). exists e. split; [by eapply lookup_weaken|].
    by case_decide.
  - destruct (spec_submit (<[k := r]> m) subs) as [os1 m1] eqn:E. intros [= <- <-].
    constructor; [|by eapply IH]. destruct (spec_submit_facts _ _ _ _ E) as (_ & Hs & _).
    exists r. split; [|done]. eapply lookup_weaken; [apply lookup_insert_eq|exact Hs].
Qed.

Lemma stable_lasting P : stable P → lasting P.
Proof. intros HP w w' Hle _. by apply HP. Qed.

Lemma triple_submit key rec P :
  stable P → index_record_dom rec → ir_status rec = Pending →
  triple (λ w, winv w ∧ P w ∧ (seq_end w + 1 < 2 ^ 64)%N) (on_index (submit key rec))
    (λ o w, winv w ∧ P w ∧ claimed w key rec o) winv.
Proof.
  intros HP Hd Hs. eapply triple_ext; [intros w; apply on_index_lift|].
  eapply triple_bind.
  { eapply triple_conseq; [apply (triple_submit_many [(key, rec)] P (λ os w, P w ∧ ∃ o, os = [o] ∧ claimed w key rec o));
      [by apply stable_lasting|]| |intros os w Hw; exact Hw|done].
    2: { intros w (? & ? & ?). split_and!; [done|done|by apply Forall_singleton|done]. }
    intros w os w' _ HPw Hle Hsp _. split; [by eapply HP|]. apply spec_submit_claimed in Hsp.
    apply Forall2_cons_inv_l in Hsp as (o & os' & (x & Hx & Ho) & ->%Forall2_nil_inv_l & ->).
    exists o. split; [done|]. by exists x. }
  intros os. eapply triple_conseq; [apply triple_lift_eq|intros w Hw; exact Hw| |by intros w []].
  intros o w [(Hw & HPw & o' & -> & Hc) Ho]. simpl in Ho. injection Ho as <-. done.
Qed.

(** [ingest_one] with its validation in front. *)
Definition ingest_checked (state : AppState) (now : DateTime) (key : string) (value : JsonValue)
    : io (World (Traced St) Dc) ApiError (SubmitOutcome * N) :=
  match validate_one state now key value with
  | Ok (v, rec) =>
      _ ← store_value v;
      o ← internal (on_index (submit key rec));
      mret (o, ir_partition_id rec)
  | Err e => io_err e
  end.

Lemma ingest_one_checked state key value w :
  ingest_one state key value w = with_write_guard (now ← read_world w_now; ingest_checked state now key value) w.
Proof.
  unfold ingest_one, prepare_one, with_write_guard. unfold read_world, mbind, io_bind, io_lift, ingest_checked.
  destruct (validate_one _ _ _ _) as [[v rec]|e]; [|done]. cbn [fst snd].
  unfold mbind, io_bind. by destruct (store_value v _) as [[h|e] w1].
Qed.
End calls.
