(* ===== verification/PublisherSpec.v ===== *)
(** What the publisher promises, under concurrent submissions and any pattern
    of failures. *)

From S2P Require Import Prelude Hash Partition Record BlobStore Hamt HamtNodeFacts HamtFacts Anyhow Index IndexFacts IndexOps PointerDoc PointerDocFacts Daemon Hoare Publisher PublisherInv PublisherFacts Samples.

Section spec.
Context `{Blake3} `{Sha256} `{!Codec LeafEntry, !LeafCodecLaws}.
Context `{!Codec IndexRecord, !CodecLaws IndexRecord index_record_dom}.
Context {St Dc : Type} `{!BlobStore St, !BlobStoreSpec St, !LocalStore St}.
Context `{!IrohDocs (Traced St) Dc, !IrohDocsLaws (Traced St) Dc}.
Context (D : list byte → Prop) `{!CollisionFree D}.
Context (self : Publisher (Traced St) Dc).
Implicit Types w : World (Traced St) Dc.

(** A reader who resolves the partition's root in the pointer document and
    looks the key up finds the record's content hash. *)
Definition readable w (k : string) (x : IndexRecord) : Prop :=
  ∃ r e, doc_root (blobs w) (entries w) (ir_partition_id x) r ∧
    le_key e = k ∧ le_hash e = ir_content_hash x ∧
    (∀ o s', lookup (Some r) k (w_node w).1 = (Ok o, s') → o = Some e) ∧
    (ReliableStore St → lookup (Some r) k (w_node w).1 = (Ok (Some e), (w_node w).1)).

(** The entry of a published record in the tree of the document's root. *)
Lemma published_entry t0 w k x :
  pub_inv D t0 w → recs (tables w) !! k = Some x → ir_status x = Published →
  ∃ r es e, doc_root (blobs w) (entries w) (ir_partition_id x) r ∧ rep_root (blobs w) (Some r) es ∧
    find_key le_key k es = Some e ∧ le_key e = k ∧ le_hash e = ir_content_hash x.
Proof.
  intros Hi Hk Hs. destruct (pi_published _ _ _ Hi _ _ Hk Hs) as [(r & Hdr & (es & Hrep & Hin)) _].
  unfold rep_root in Hrep. simpl in Hrep.
  destruct (find_key le_key k es) as [e|] eqn:E; [|by apply find_key_None in E].
  pose proof (find_key_Some _ _ _ _ E) as [He Hek]. exists r, es, e. split_and!; [done..|].
  destruct Hdr as (h & Hh & Hb). destruct (recs_dom _ _ _ Hk) as (_ & Hp & _).
  destruct (pi_doc _ _ _ Hi _ _ Hp Hh) as (r' & Hdr' & (es' & Hrep' & Hes')).
  assert (r' = r) as -> by (eapply doc_root_det; [exact Hdr'|by exists h]).
  unfold rep_root in Hrep'. simpl in Hrep'. rewrite (rep_det _ _ _ _ _ Hrep' Hrep) in Hes'.
  destruct (Hes' e He) as (x' & Hx' & Hh' & _). rewrite Hek in Hx'. congruence.
Qed.

Lemma published_readable t0 w k x :
  pub_inv D t0 w → recs (tables w) !! k = Some x → ir_status x = Published → readable w k x.
Proof.
  intros Hi Hk Hs. destruct (published_entry t0 w k x Hi Hk Hs) as (r & es & e & Hdr & Hrep & E & Hek & Hh).
  exists r, e. split_and!; [done..| |].
  - intros o s' Hr. rewrite <-E.
    apply (lookup_loop_rep DESCENT_FUEL k [] r es) in Hr; [done|done|apply prefix_nil].
  - intros Hrel. rewrite <-E.
    apply (lookup_loop_total DESCENT_FUEL k [] r es); [done|apply prefix_nil|simpl; lia].
Qed.

(** The state of a running registry: what [pub_inv] says of the index, the
    trees and the document, and well-formed submissions to come. *)
Definition registry_ok w : Prop := winv D (tables w) w.

(** What every later state [w'] keeps of [w]. *)
Definition safe_from w w' : Prop :=
  index_ext (tables w) (tables w') ∧ index_inv (tables w') ∧
  ∀ k x, recs (tables w') !! k = Some x → ir_status x = Published → readable w' k x.

Lemma winv_safe w w' : winv D (tables w) w' → safe_from w w'.
Proof.
  intros [Hi _]. split_and!; [apply Hi|apply Hi|]. intros k x. by apply (published_readable (tables w)).
Qed.

(** C3: The publisher never reports a record published that readers cannot
    find.  Through any run of its loop (seeding, healing, any number of
    cycles and the final drain), with submissions accepted in between by
    the HTTP handlers, index transactions and blob or document writes
    failing anywhere: accepted records stay and keep their content, every
    pending record stays queued, and every record with status [published]
    is found, with its content hash, under the root its partition has in
    the pointer document. *)
Theorem run_publishes_safely clock ticks w r w' :
  run self clock ticks w = (r, w') → (top_level_partitions self < 2 ^ 32)%N →
  registry_ok w → Forall D (wlog w') → safe_from w w'.
Proof.
  intros Hr Hn Hw HD. destruct (triple_run D (tables w) self clock ticks Hn w r w' Hr) as [_ Hpost].
  apply winv_safe. specialize (Hpost HD Hw). by destruct r.
Qed.

(** C4: A publish cycle that succeeds has finished the oldest [max_pending]
    rows of the queue: each row is gone and its record is published, or
    denylisted when the denylist file names its key.  Whether the cycle
    succeeds or fails half way, nothing accepted is lost and nothing is
    published that readers cannot find. *)
Theorem publish_cycle_finishes w r w' :
  publish_cycle self w = (r, w') → registry_ok w → Forall D (wlog w') →
  safe_from w w' ∧
  (is_ok r → ∀ it, it ∈ take (max_pending self) (rows (t_queue (tables w))) →
     item_done (load_denylist (w_files w) (denylist_path self)) w' it).
Proof.
  intros Hr Hw HD. split.
  - destruct (triple_cycle D (tables w) self w r w' Hr) as [_ Hpost]. apply winv_safe.
    specialize (Hpost HD Hw). by destruct r.
  - destruct (triple_publish_cycle D (tables w) self w w r w' Hr) as [_ Hpost].
    specialize (Hpost HD (conj Hw (reflexivity w))). destruct r; [|done]. by intros _; apply Hpost.
Qed.
End spec.

(** ** A concrete run *)

(** A replica as a plain map: a write stores the value and points the entry at
    it. *)
Section sample_docs.
Context {St : Type} `{!BlobStore St}.
Definition sample_docs : IrohDocs St (gmap string Hash) := {|
  AuthorId := unit;
  doc_get_one k d := (Ok (d !! k), d);
  doc_get_many p d :=
    (Ok ((λ e, Ok e) <$> filter (λ e, is_Some (strip_prefix p e.1)) (btree_list d)), d);
  doc_set_bytes _ k v sd :=
    match put v sd.1 with
    | (Ok h, s') => (Ok tt, (s', <[k := h]> sd.2))
    | (Err _, s') => (Err "put", (s', sd.2))
    end;
|}.
#[local] Existing Instance sample_docs.

Lemma collect_entries_Ok l : collect_entries ((λ e : string * Hash, Ok e) <$> l) = Ok l.
Proof. induction l as [|e l IH]; [done|]. rewrite fmap_cons. simpl. by rewrite IH. Qed.

Lemma sample_docs_laws `{Blake3} `{!BlobStoreSpec St} : IrohDocsLaws St (gmap string Hash).
Proof.
  refine (Build_IrohDocsLaws _ _ _ _ _ (λ d, d) _ _ _).
  - intros k d r d' [= <- <-]. split; [done|]. by intros o [= <-].
  - intros p d r d' [= <- <-]. split; [done|]. intros l es [= <-]. rewrite collect_entries_Ok.
    intros [= <-] k h. rewrite list_elem_of_filter, btree_list_elem. naive_solver.
  - intros a k v s d r s' d' Hr. simpl in Hr. destruct (put v s) as [[h|e] s1] eqn:E.
    + injection Hr as <- <- <-. exists (Ok h). split; [done|]. left. split; [done|].
      by rewrite (put_hash _ _ _ _ E).
    + injection Hr as <- <- <-. exists (Err e). split; [done|]. right. by split; [intros []|].
Defined.
End sample_docs.

#[local] Existing Instances sample_blake3 sample_sha256 sample_leaf_codec sample_leaf_laws.

Definition status_code (s : RecordStatus) : option bool :=
  match s with Pending => None | Published => Some true | Denylisted => Some false end.
Definition status_decode (o : option bool) : RecordStatus :=
  match o with None => Pending | Some true => Published | Some false => Denylisted end.
#[local] Instance status_countable : Countable RecordStatus.
Proof. refine (inj_countable' status_code status_decode _). by intros []. Defined.

#[local] Program Instance record_countable : Countable IndexRecord :=
  inj_countable' (λ r, (ir_status r, ir_size r, ir_partition_id r, ir_content_code r, ir_created_at r,
      ir_published_at r, ir_content_hash r))
    (λ '(d, b, c, f, e, g, a), mkIndexRecord a b c d e f g) _.
Next Obligation. by intros []. Qed.

#[global] Instance index_record_dom_dec r : Decision (index_record_dom r).
Proof. unfold index_record_dom. destruct (ir_content_code r); simpl; apply _. Defined.

Definition sample_record_codec : Codec IndexRecord := count_codec IndexRecord index_record_dom.
#[local] Existing Instance sample_record_codec.
Lemma sample_record_laws : CodecLaws IndexRecord index_record_dom.
Proof. apply count_codec_laws. Qed.

Section witnesses.
#[local] Existing Instance sample_docs.

Definition sample_record (value : string) (p : N) : IndexRecord :=
  mkIndexRecord (content_hash value) (N.of_nat (String.length value)) p Pending 1700000000000000000%Z None None.

Abbreviation SampleWorld := (World (Traced MemoryBlobStore) (gmap string Hash)).

(** A fresh registry; while the publisher works, three records arrive, the
    third of them for a denylisted key. *)
Definition sample_world : SampleWorld :=
  mkWorld (RecordIndex_open []) (sample_store, ∅) 0 (Some (mkGcSources 4)) PublisherStatus_default 1700000001000000000%Z
    (λ f, if decide (f = "denylist") then Some "kb2" else None)
    [[EnvSubmit [("ka1", sample_record "{1}" 3); ("kb1", sample_record "{2}" 4)]];
     [EnvSubmit [("kb2", sample_record "{3}" 4)]]].

Definition sample_publisher : Publisher (Traced MemoryBlobStore) (gmap string Hash) :=
  mkPublisher (St:=Traced MemoryBlobStore) (Dc:=gmap string Hash)
    (mkPointerDoc (St:=Traced MemoryBlobStore) (Dc:=gmap string Hash) (Some tt)) 1 10 30 (Some "denylist") 5.

Definition sample_world_run : result anyhow unit * SampleWorld :=
  run sample_publisher 0 [(31%N, false); (62%N, true)] sample_world.

Definition sample_status (k : string) (w : SampleWorld) : option RecordStatus :=
  match read_record (db (w_index w)) k with Ok (Some r) => Some (ir_status r) | _ => None end.

Lemma sample_world_statuses :
  (λ k, sample_status k sample_world_run.2) <$> ["ka1"; "kb1"; "kb2"]
  = [Some Published; Some Published; Some Denylisted].
Proof. vm_compute. reflexivity. Qed.

#[local] Instance sample_docs_laws' : IrohDocsLaws (Traced MemoryBlobStore) (gmap string Hash) :=
  sample_docs_laws.
#[local] Existing Instance sample_record_laws.

(** An empty registry satisfies the invariant. *)
Lemma fresh_registry_ok D w :
  db (w_index w) = mkTables ∅ ∅ None ∅ → store_ok D (w_node w).1 → (w_node w).2 = ∅ → env_ok w →
  registry_ok (St:=MemoryBlobStore) (Dc:=gmap string Hash) D w.
Proof.
  intros Hdb Hst Hd He. split; [|done]. unfold tables. split.
  - unfold tables. rewrite Hdb. split; [split|].
    + by intros k raw ?.
    + by intros seq k ?.
    + by intros seq k ?.
    + intros k r Hk. by apply recs_lookup in Hk as (raw & ? & _).
  - reflexivity.
  - done.
  - intros p r. unfold local_root, tables. by rewrite Hdb.
  - intros p h _. unfold entries. rewrite Hd. done.
  - intros k x Hk. unfold tables in Hk. rewrite Hdb in Hk. by apply recs_lookup in Hk as (raw & ? & _).
Qed.

Lemma sample_env_ok : env_ok sample_world.
Proof.
  split; [|reflexivity]. repeat constructor.
Qed.

Lemma sample_run_cf : CollisionFree (λ b, b ∈ wlog sample_world_run.2).
Proof. apply collision_free_of_check. vm_compute. reflexivity. Qed.

Lemma sample_run_eq : run sample_publisher 0 [(31%N, false); (62%N, true)] sample_world
  = (sample_world_run.1, sample_world_run.2).
Proof. apply surjective_pairing. Qed.
#[local] Opaque sample_world_run run.

Lemma run_publishes_safely_witness : safe_from sample_world sample_world_run.2.
Proof.
  pose proof sample_run_cf as Hcf.
  apply (run_publishes_safely (λ b, b ∈ wlog sample_world_run.2) sample_publisher 0
    [(31%N, false); (62%N, true)] sample_world sample_world_run.1 sample_world_run.2).
  - exact sample_run_eq.
  - reflexivity.
  - apply fresh_registry_ok; [reflexivity|apply sample_store_ok|reflexivity|exact sample_env_ok].
  - by apply Forall_forall.
Defined.

(** The cycle, with two records already queued. *)
Definition sample_queued : SampleWorld := interfere sample_world.
Definition sample_cycle : result anyhow nat * SampleWorld := publish_cycle sample_publisher sample_queued.

Lemma sample_cycle_rows : take 10 (rows (t_queue (tables sample_queued))) = [(0%N, "ka1"); (1%N, "kb1")].
Proof. vm_compute. reflexivity. Qed.
Lemma sample_cycle_ok : is_ok sample_cycle.1 = true.
Proof. vm_compute. reflexivity. Qed.
Lemma sample_cycle_cf : CollisionFree (λ b, b ∈ wlog sample_cycle.2).
Proof. apply collision_free_of_check. vm_compute. reflexivity. Qed.
Lemma sample_cycle_eq : publish_cycle sample_publisher sample_queued = (sample_cycle.1, sample_cycle.2).
Proof. apply surjective_pairing. Qed.
#[local] Opaque sample_cycle publish_cycle sample_queued.

Lemma sample_queued_ok (D : list byte → Prop) `{!CollisionFree D} : registry_ok D sample_queued.
Proof.
  assert (registry_ok D sample_world) as Hw.
  { apply fresh_registry_ok; [reflexivity|apply sample_store_ok|reflexivity|exact sample_env_ok]. }
  destruct (interfere_ok D (tables sample_world) sample_world) as [_ Hi].
  destruct Hi as ([Hi He] & _); [constructor|done|]. split; [|done]. destruct Hi. by split.
Qed.

Lemma publish_cycle_finishes_witness :
  item_done (load_denylist (w_files sample_queued) (Some "denylist")) sample_cycle.2 (0%N, "ka1").
Proof.
  pose proof sample_cycle_cf as Hcf.
  destruct (publish_cycle_finishes (λ b, b ∈ wlog sample_cycle.2) sample_publisher sample_queued
    sample_cycle.1 sample_cycle.2) as [_ Hdone].
  - exact sample_cycle_eq.
  - by apply sample_queued_ok.
  - by apply Forall_forall.
  - apply Hdone; [pose proof sample_cycle_ok as Ho; by destruct sample_cycle.1|].
    change (max_pending sample_publisher) with 10. rewrite sample_cycle_rows. by left.
Defined.
End witnesses.
