(* ===== verification/ApiSpec.v ===== *)
(** What the HTTP API promises its clients. *)

From S2P Require Import Prelude Hash Partition Record BlobStore Hamt HamtNodeFacts HamtFacts Iscc CidKey Anyhow Index IndexFacts IndexOps PointerDoc PointerDocFacts Daemon Hoare PublisherInv PublisherFacts PublisherSpec Api ApiFacts CodesSpec Samples.

Section spec.
Context `{Blake3} `{Hex} `{Sha256} `{CidCrate} `{Base32} `{SerdeJson} `{Timestamps} `{Texts}.
Context `{!Codec LeafEntry, !LeafCodecLaws}.
Context `{!Codec IndexRecord, !CodecLaws IndexRecord index_record_dom}.
Context {St Dc : Type} `{!BlobStore St, !BlobStoreSpec St, !LocalStore St}.
Context `{!IrohDocs (Traced St) Dc, !IrohDocsLaws (Traced St) Dc}.
Context (D : list byte → Prop) `{!CollisionFree D} (t0 : Tables) (state : AppState).
Implicit Types w : World (Traced St) Dc.
#[local] Abbreviation winv := (winv D t0).
#[local] Abbreviation triple := (triple wlog D).

Definition stored w (v : string) : Prop := blobs w !! content_hash v = Some (str_bytes v).

Lemma stored_stable v : stable (λ w, stored w v).
Proof. intros w w' Hle Hs. eapply lookup_weaken; [exact Hs|apply Hle]. Qed.

(** ** One record *)

(** What [ingest_one] answers about a request. *)
Definition ingested (now : DateTime) (key : string) (value : JsonValue) (o : SubmitOutcome) (p : N) w : Prop :=
  ∃ v rec, validate_one state now key value = Ok (v, rec) ∧ p = ir_partition_id rec ∧
    stored w v ∧ claimed w key rec o.

Lemma validate_one_err now key value e :
  validate_one state now key value = Err e → ∀ h, e ≠ ApiConflict h.
Proof.
  intros Hv h ->. revert Hv. unfold validate_one.
  destruct (negb _); [done|]. destruct (canonical_value value) as [v|e] eqn:Hc; [by destruct (_ <? _)%N|].
  intros [= ->]. revert Hc. unfold canonical_value. destruct value; try done.
  by destruct (json_from_str s) as [[]|].
Qed.

Lemma ingest_one_err key value w e w' : ingest_one state key value w = (Err e, w') → ∀ h, e ≠ ApiConflict h.
Proof.
  rewrite ingest_one_checked. unfold with_write_guard.
  destruct ((now ← read_world w_now; ingest_checked state now key value) _) as [r1 w1] eqn:Em. intros [= -> _].
  revert Em. apply (fails_bind (λ e, ∀ h, e ≠ ApiConflict h)); [by intros ????|].
  intros now. unfold ingest_checked. destruct (validate_one state now key value) as [[v rec]|e1] eqn:Hv.
  - apply fails_bind; [by apply fails_map_err|]. intros h.
    apply fails_bind; [by apply fails_map_err|]. intros o. apply fails_ret.
  - apply fails_err. by eapply validate_one_err.
Qed.

Lemma triple_ingest_one now key value : state_ok state →
  triple (λ w, winv w ∧ w_now w = now ∧ (seq_end w + 1 < 2 ^ 64)%N) (ingest_one state key value)
    (λ op w, winv w ∧ ingested now key value op.1 op.2 w) winv.
Proof.
  intros Hst. eapply triple_ext; [intros w; apply ingest_one_checked|].
  apply (triple_write_guard D).
  2: { intros n w [Hw ?]. split; [by apply winv_active|done]. }
  2: { intros op n w [Hw ?]. split; [by apply winv_active|done]. }
  2: { intros n w. apply winv_active. }
  eapply (triple_bind _ _ _ _ _ (λ n w, winv w ∧ n = now ∧ (seq_end w + 1 < 2 ^ 64)%N)).
  { by intros w r w' [= <- <-]. }
  intros n. unfold ingest_checked. destruct (validate_one state n key value) as [[v rec]|e] eqn:Hv;
    [|by apply triple_err; intros w []].
  destruct (validate_one_ok _ _ _ _ _ _ Hst Hv) as (_ & _ & _ & Hd & Hs & _ & _).
  eapply triple_bind.
  { eapply triple_conseq; [apply (triple_store_value D t0 v (λ w, n = now ∧ (seq_end w + 1 < 2 ^ 64)%N))|done| |
      by intros w [? _]]; [|intros a w Hw; exact Hw].
    intros w w' _ Hle [? ?]. split; [done|lia]. }
  intros h. eapply triple_bind.
  { apply triple_map_err. eapply triple_conseq;
      [apply (triple_submit D t0 key rec (λ w, n = now ∧ stored w v)); [|done|done]| | |by intros w Hw; exact Hw].
    - intros w w' Hle [? ?]. split; [done|by eapply stored_stable].
    - intros w (Hw & (? & ?) & ?). done.
    - intros o w Hw. exact Hw. }
  intros o. apply triple_ret. intros w (Hw & (-> & Hb) & Hc). split; [done|]. by exists v, rec.
Qed.


(** ** Batches *)

(** What a batch may answer about one of its records. *)
Inductive slot_ok (now : DateTime) w (r : SubmitRecordRequest) : JsonValue → Prop :=
| slot_invalid e :
    validate_one state now (rq_key r) (rq_value r) = Err e → slot_ok now w r (error_result (rq_key r) e)
| slot_not_stored d :
    is_ok (validate_one state now (rq_key r) (rq_value r)) → slot_ok now w r (error_result (rq_key r) (Internal d))
| slot_claimed i v rec o :
    validate_one state now (rq_key r) (rq_value r) = Ok (v, rec) → claimed w (rq_key r) rec o →
    (o = Queued → stored w v) → slot_ok now w r (claim_result (i, rq_key r, rec) o).

Lemma claimed_stable key rec o : stable (λ w, claimed w key rec o).
Proof.
  intros w w' Hle (x & Hx & Ho). exists x. split; [|done]. eapply lookup_weaken; [exact Hx|apply Hle].
Qed.

Lemma slot_ok_stable now r j : stable (λ w, slot_ok now w r j).
Proof.
  intros w w' Hle []; [by apply slot_invalid|by apply slot_not_stored|].
  eapply slot_claimed; [done|by eapply claimed_stable|]. intros ->. eapply stored_stable; [done|auto].
Qed.

Lemma validate_batch_ok now records i :
  let '(results, cands) := validate_batch state now i records in
  length results = length records ∧
  (∀ k r, records !! k = Some r → match validate_one state now (rq_key r) (rq_value r) with
     | Ok (v, rec) => results !! k = Some None ∧ (i + k, rq_key r, v, rec) ∈ cands
     | Err e => results !! k = Some (Some (error_result (rq_key r) e)) end) ∧
  (∀ c, c ∈ cands → ∃ k r, c.1.1.1 = i + k ∧ records !! k = Some r ∧ c.1.1.2 = rq_key r ∧
     validate_one state now (rq_key r) (rq_value r) = Ok (c.1.2, c.2)) ∧
  length cands ≤ length records.
Proof.
  revert i. induction records as [|r records IH]; intros i; simpl.
  { split_and!; [done|done|by intros c ?%elem_of_nil|done]. }
  specialize (IH (S i)). destruct (validate_batch state now (S i) records) as [results cands].
  destruct IH as (Hl & Hr & Hc & Hlen).
  assert (∀ c, c ∈ cands → ∃ k r0, c.1.1.1 = i + k ∧ (r :: records) !! k = Some r0 ∧ c.1.1.2 = rq_key r0 ∧
    validate_one state now (rq_key r0) (rq_value r0) = Ok (c.1.2, c.2)) as Hc'.
  { intros c (k & r0 & Hk & ? & ? & ?)%Hc. exists (S k), r0. split_and!; [lia|done..]. }
  destruct (validate_one state now (rq_key r) (rq_value r)) as [[v rec]|e] eqn:Hv; simpl; split_and!; try lia.
  - intros [|k] r0; simpl; [intros [= <-]; rewrite Hv, Nat.add_0_r; split; [done|by left]|].
    intros Hk%Hr. destruct (validate_one state now (rq_key r0) (rq_value r0)) as [[v0 rec0]|e0]; [|done].
    destruct Hk as [? Hin]. split; [done|]. right. by replace (i + S k) with (S i + k) by lia.
  - intros c [->|Hin]%elem_of_cons; [|by apply Hc']. exists 0, r. split_and!; [simpl; lia|done..].
  - intros [|k] r0; simpl; [intros [= <-]; by rewrite Hv|].
    intros Hk%Hr. destruct (validate_one state now (rq_key r0) (rq_value r0)) as [[v0 rec0]|e0]; [|done].
    destruct Hk as [? Hin]. split; [done|]. by replace (i + S k) with (S i + k) by lia.
  - done.
Qed.

Section batch.
Context (records : list SubmitRecordRequest) (now : DateTime).

(** A record of the batch and what validation made of it. *)
Definition valid_slot (i : nat) (key v : string) (rec : IndexRecord) : Prop :=
  ∃ r, records !! i = Some r ∧ key = rq_key r ∧
    validate_one state now (rq_key r) (rq_value r) = Ok (v, rec).

(** The results so far are right, the prepared records are stored, and every
    unanswered slot is prepared or still to come. *)
Record batch_inv (rest : list nat) (results : list (option JsonValue))
    (prepared : list (nat * string * IndexRecord)) w : Prop := {
  bi_length : length results = length records;
  bi_ok i r j : records !! i = Some r → results !! i = Some (Some j) → slot_ok now w r j;
  bi_prepared p : p ∈ prepared → ∃ v, valid_slot p.1.1 p.1.2 v p.2 ∧ stored w v;
  bi_open i : results !! i = Some None → i ∈ prepared.*1.*1 ∨ i ∈ rest;
}.

Lemma batch_inv_stable rest results prepared : stable (batch_inv rest results prepared).
Proof.
  intros w w' Hle [Hl Hok Hp Ho]. split; [done| | |done].
  - intros i r j Hi Hj. eapply slot_ok_stable; [done|by eapply Hok].
  - intros p (v & Hv & Hs)%Hp. exists v. split; [done|]. by eapply stored_stable.
Qed.

(** Answering a slot. *)
Lemma batch_inv_answer i key v rec rest results prepared j w :
  valid_slot i key v rec → batch_inv (i :: rest) results prepared w →
  (∀ r, records !! i = Some r → slot_ok now w r j) →
  batch_inv rest (<[i := Some j]> results) prepared w.
Proof.
  intros (r & Hr & -> & Hv) [Hl Hok Hp Ho] Hj. split; [by rewrite length_insert| |done|].
  - intros i' r' j' Hi' Hres. destruct (decide (i' = i)) as [->|Hne].
    + rewrite list_lookup_insert_eq in Hres by (rewrite Hl; by eapply lookup_lt_Some).
      injection Hres as <-. by apply Hj.
    + rewrite list_lookup_insert_ne in Hres by done. by eapply Hok.
  - intros i' Hres. destruct (decide (i' = i)) as [->|Hne].
    + rewrite list_lookup_insert_eq in Hres by (rewrite Hl; by eapply lookup_lt_Some). done.
    + rewrite list_lookup_insert_ne in Hres by done.
      destruct (Ho _ Hres) as [?|[->|?]%elem_of_cons]; [by left|done|by right].
Qed.

(** One candidate.  [K] is what else is known. *)
Lemma triple_precheck i key v rec known rest results prepared (K : World (Traced St) Dc → Prop) :
  valid_slot i key v rec → lasting K →
  triple (λ w, winv w ∧ batch_inv (i :: rest) results prepared w ∧
      (∀ x, known = Some x → recs (tables w) !! key = Some x) ∧ K w)
    (precheck_one (results, prepared) ((i, key, v, rec), known))
    (λ acc w, winv w ∧ batch_inv rest acc.1 acc.2 w ∧ K w ∧ length acc.2 ≤ S (length prepared)) winv.
Proof.
  intros Hval HK. pose proof Hval as (r & Hr & -> & Hv). simpl.
  assert (∀ w x o, recs (tables w) !! rq_key r = Some x → o ≠ Queued →
    match o with Queued => x = rec | DuplicateIdentical => ir_content_hash x = ir_content_hash rec
    | Conflict h => ir_content_hash x = h ∧ h ≠ ir_content_hash rec end →
    ∀ r', records !! i = Some r' → slot_ok now w r' (claim_result (i, rq_key r, rec) o)) as Hslot.
  { intros w x o Hx Ho Hm r' Hr'. assert (r' = r) as -> by congruence.
    eapply slot_claimed; [done|by exists x|done]. }
  destruct known as [prior|].
  - destruct (decide (ir_content_hash prior = ir_content_hash rec)) as [Heq|Hne];
      apply triple_ret; intros w (Hw & Hinv & Hk & HKw); (split_and!; [done| |done|simpl; lia]);
      (eapply batch_inv_answer; [exact Hval|exact Hinv|]); specialize (Hk prior eq_refl).
    + exact (Hslot w prior DuplicateIdentical Hk ltac:(done) Heq).
    + exact (Hslot w prior (Conflict (ir_content_hash prior)) Hk ltac:(done) (conj eq_refl Hne)).
  - eapply triple_bind.
    { eapply triple_conseq; [apply (triple_try_store D t0 v (λ w, batch_inv (i :: rest) results prepared w ∧ K w))| |
        intros a w Hw; exact Hw|done].
      - intros w w' Hle Hs [? ?]. split; [by eapply batch_inv_stable|by eapply HK].
      - by intros w (? & ? & _ & ?). }
    intros [h|err]; apply triple_ret; intros w (Hw & [Hinv HKw] & Hres);
      (split_and!; [done| |done|cbn [snd]; rewrite ?length_app; simpl; lia]); cbn [fst snd].
    + destruct Hinv as [Hl Hok Hp Ho]. split; [done|done| |].
      * intros p [Hp'|Hp'%list_elem_of_singleton]%elem_of_app; [by apply Hp|]. subst p. by exists v.
      * intros i' [?|[->|?]%elem_of_cons]%Ho; [left|left|by right]; rewrite !fmap_app, elem_of_app; [by left|right].
        by left.
    + destruct Hres as [d ->]. eapply batch_inv_answer; [exact Hval|exact Hinv|].
      intros r' Hr'. assert (r' = r) as -> by congruence. apply slot_not_stored. by rewrite Hv.
Qed.

(** The whole precheck. *)
Definition known_ok (cs : list (candidate * option IndexRecord)) w : Prop :=
  ∀ c x, c ∈ cs → c.2 = Some x → recs (tables w) !! c.1.1.1.2 = Some x.

Lemma known_ok_stable cs : stable (known_ok cs).
Proof. intros w w' Hle Hk c x Hc Hx. eapply lookup_weaken; [by apply (Hk c)|apply Hle]. Qed.

Lemma triple_prechecks cs results prepared B :
  (∀ c, c ∈ cs → valid_slot c.1.1.1.1 c.1.1.1.2 c.1.1.2 c.1.2) →
  triple (λ w, winv w ∧ batch_inv ((λ c, c.1.1.1.1) <$> cs) results prepared w ∧ known_ok cs w ∧ (seq_end w + B < 2 ^ 64)%N)
    (io_fold precheck_one (results, prepared) cs)
    (λ acc w, winv w ∧ batch_inv [] acc.1 acc.2 w ∧ (seq_end w + B < 2 ^ 64)%N ∧
      length acc.2 ≤ length prepared + length cs) winv.
Proof.
  revert results prepared. induction cs as [|[[[[i key] v] rec] known] cs IH]; intros results prepared Hval.
  { apply triple_ret. intros w (? & ? & _ & ?). split_and!; [done..|simpl; lia]. }
  cbn [io_fold]. eapply triple_bind.
  { eapply (triple_conseq _ _ _ _ (λ w, winv w ∧ batch_inv (i :: ((λ c, c.1.1.1.1) <$> cs)) results prepared w ∧
      (∀ x, known = Some x → recs (tables w) !! key = Some x) ∧ (known_ok cs w ∧ (seq_end w + B < 2 ^ 64)%N)));
      [apply (triple_precheck i key v rec known _ results prepared (λ w, known_ok cs w ∧ (seq_end w + B < 2 ^ 64)%N))| |
       intros a w Hw; exact Hw|done].
    - apply (Hval ((i, key, v, rec), known)). by left.
    - intros w w' Hle Hs [? ?]. split; [by eapply known_ok_stable|lia].
    - intros w (Hw & Hinv & Hk & Hs). split_and!; [done|done| | |done].
      + intros x ->. by apply (Hk ((i, key, v, rec), Some x)); [left|].
      + intros c x Hc. apply Hk. by right. }
  intros [results' prepared']. eapply triple_conseq; [| | |done].
  - apply (triple_pure_frame _ _ (length prepared' ≤ S (length prepared))). apply (IH results' prepared').
    intros c Hc. apply Hval. by right.
  - intros w (? & ? & [? ?] & Hlen). split; [exact Hlen|done].
  - intros acc w (Hlen & ? & ? & ? & ?). split_and!; [done..|]. cbn [snd] in *. simpl. lia.
Qed.

Lemma all_answered (results : list (option JsonValue)) :
  (∀ i, results !! i ≠ Some None) → ∃ js, results = Some <$> js.
Proof.
  induction results as [|[j|] results IH]; intros Hn; [by exists []| |by destruct (Hn 0)].
  destruct IH as [js ->]; [intros i; apply (Hn (S i))|]. by exists (j :: js).
Qed.

(** The answers of the claims fill every open slot. *)
Lemma answer_claims l results w :
  length results = length records →
  (∀ i r j, records !! i = Some r → results !! i = Some (Some j) → slot_ok now w r j) →
  (∀ po, po ∈ l → ∃ r, records !! po.1.1.1 = Some r ∧ slot_ok now w r (claim_result po.1 po.2)) →
  (∀ i, results !! i = Some None → i ∈ (λ po : nat * string * IndexRecord * SubmitOutcome, po.1.1.1) <$> l) →
  ∃ js, foldl (λ results po, <[po.1.1.1 := Some (claim_result po.1 po.2)]> results) results l = Some <$> js ∧
    Forall2 (slot_ok now w) records js.
Proof.
  revert results. induction l as [|po l IH]; intros results Hl Hok Hpo Hopen.
  { destruct (all_answered results) as [js ->]; [intros i Hi%Hopen; by apply elem_of_nil in Hi|].
    exists js. split; [done|]. rewrite length_fmap in Hl. apply Forall2_same_length_lookup_2; [done|].
    intros i r j Hr Hj. eapply Hok; [done|]. by rewrite list_lookup_fmap, Hj. }
  destruct (Hpo po) as (r & Hr & Hs); [by left|]. cbn [foldl]. apply IH.
  - by rewrite length_insert.
  - intros i r' j Hr' Hj. destruct (decide (i = po.1.1.1)) as [->|Hne].
    + rewrite list_lookup_insert_eq in Hj by (rewrite Hl; by eapply lookup_lt_Some). congruence.
    + rewrite list_lookup_insert_ne in Hj by done. by eapply Hok.
  - intros po' Hin. apply Hpo. by right.
  - intros i Hi. destruct (decide (i = po.1.1.1)) as [->|Hne].
    + rewrite list_lookup_insert_eq in Hi by (rewrite Hl; by eapply lookup_lt_Some). done.
    + rewrite list_lookup_insert_ne in Hi by done. apply Hopen in Hi. rewrite fmap_cons in Hi.
      by apply elem_of_cons in Hi as [->|?].
Qed.

Lemma answer_prepared prepared outcomes results w :
  batch_inv [] results prepared w →
  Forall2 (λ p o, claimed w p.1.2 p.2 o) prepared outcomes →
  ∃ js, foldl (λ results po, <[po.1.1.1 := Some (claim_result po.1 po.2)]> results)
      results (zip prepared outcomes) = Some <$> js ∧ Forall2 (slot_ok now w) records js.
Proof.
  intros [Hl Hok Hp Ho] Hc. apply answer_claims; [done|done| |].
  - intros [[[i key] rec] o] Hin. apply elem_of_lookup_zip_with in Hin as (k & p & o' & [= <- <-] & Hk & Hko).
    pose proof (Hp (i, key, rec) (list_elem_of_lookup_2 _ _ _ Hk)) as Hx. cbn [fst snd] in Hx.
    destruct Hx as (v & (r & Hr & -> & Hv) & Hs).
    exists r. split; [done|]. eapply slot_claimed; [done| |done].
    exact (Forall2_lookup_lr _ _ _ _ _ _ Hc Hk Hko).
  - intros i [Hi|Hi%elem_of_nil]%Ho; [|done].
    assert ((λ po : nat * string * IndexRecord * SubmitOutcome, po.1.1.1) <$> zip prepared outcomes = prepared.*1.*1) as ->; [|done].
    rewrite <-(fst_zip prepared outcomes) at 2 by (apply Forall2_length in Hc; lia).
    by rewrite <-!list_fmap_compose.
Qed.
End batch.

(** The handler after the size check, at the time its validation sees. *)
Definition batch_body (now : DateTime) (records : list SubmitRecordRequest)
    : io (World (Traced St) Dc) ApiError Response :=
  let '(results, candidates) := validate_batch state now 0 records in
  existing ← internal (on_index (get_many ((λ c : candidate, c.1.1.2) <$> candidates)));
  acc ← io_fold precheck_one (results, []) (zip candidates existing);
  let '(results, prepared) := acc in
  outcomes ← internal (on_index (submit_many ((λ p, (p.1.2, p.2)) <$> prepared)));
  let results := foldl (λ results po, <[po.1.1.1 := Some (claim_result po.1 po.2)]> results)
                   results (zip prepared outcomes) in
  mret (mkResponse 207 (BodyJson (json_object [("results", JArray (json_option <$> results))]))).

Lemma submit_batch_run records w :
  (N.of_nat (length records) ≤ batch_max_records state)%N →
  submit_batch state records w = with_write_guard (batch_body (w_now w) records) w.
Proof. intros Hn. unfold submit_batch. by destruct (N.ltb_spec (batch_max_records state) (N.of_nat (length records))); [lia|]. Qed.

(** The answer to a batch. *)
Definition batch_answer (now : DateTime) (records : list SubmitRecordRequest) (resp : Response) w : Prop :=
  ∃ js, resp = mkResponse 207 (BodyJson (json_object [("results", JArray js)])) ∧
    Forall2 (slot_ok now w) records js.

Lemma triple_batch_body now records : state_ok state →
  triple (λ w, winv w ∧ (seq_end w + N.of_nat (length records) < 2 ^ 64)%N) (batch_body now records)
    (λ resp w, winv w ∧ batch_answer now records resp w) winv.
Proof.
  intros Hst. unfold batch_body. pose proof (validate_batch_ok now records 0) as Hvb.
  destruct (validate_batch state now 0 records) as [results cands].
  destruct Hvb as (Hl & Hres & Hc & Hlen). set (B := N.of_nat (length records)).
  assert (∀ c, c ∈ cands → valid_slot records now c.1.1.1 c.1.1.2 c.1.2 c.2) as Hval.
  { intros c (k & r & -> & Hr & -> & Hv)%Hc. by exists r. }
  eapply triple_bind.
  { apply triple_map_err. eapply triple_conseq;
      [apply (triple_index_read D t0 (λ t, read_records t ((λ c : candidate, c.1.1.2) <$> cands))
        (λ w, (seq_end w + B < 2 ^ 64)%N)
        (λ rs w, rs = (λ k, recs (tables w) !! k) <$> ((λ c : candidate, c.1.1.2) <$> cands)))
      |intros w Hw; exact Hw|intros rs w Hw; exact Hw|by intros w []].
    - intros w w' _ Hle ?. lia.
    - intros rs w Hw _. rewrite read_records_ok by (eapply wf_parse, (pi_index _ _ _ (proj1 Hw))). by intros [= <-].
    - intros rs ix w Hix ->. unfold tables at 2. simpl. by rewrite Hix. }
  intros existing. eapply triple_bind.
  { eapply triple_conseq; [apply (triple_prechecks records now (zip cands existing) results [] B)| |
      intros acc w Hw; exact Hw|done].
    - intros [c known] Hin. apply Hval. apply elem_of_lookup_zip_with in Hin as (k & c' & o & [= <- <-] & Hk & _).
      by eapply list_elem_of_lookup_2.
    - intros w (Hw & Hs & Hex). split_and!; [done| | |done].
      + assert ((zip cands existing).*1 = cands) as Hfst.
        { apply fst_zip. by rewrite Hex, !length_fmap. }
        split; [done| |by intros p ?%elem_of_nil|].
        * intros i r j Hr Hj. specialize (Hres _ _ Hr).
          destruct (validate_one state now (rq_key r) (rq_value r)) as [[v rec]|e] eqn:Hv; [destruct Hres; congruence|].
          assert (j = error_result (rq_key r) e) as -> by congruence. by apply slot_invalid.
        * intros i Hi. right. destruct (lookup_lt_is_Some_2 records i) as [r Hr];
            [rewrite <-Hl; by eapply lookup_lt_Some|]. specialize (Hres _ _ Hr).
          destruct (validate_one state now (rq_key r) (rq_value r)) as [[v rec]|e] eqn:Hv; [|congruence].
          destruct Hres as [_ Hin]. rewrite <-Hfst in Hin. apply list_elem_of_fmap in Hin as ([c known] & Hceq & Hin).
          apply list_elem_of_fmap. exists (c, known). split; [|done]. cbn [fst] in *. by rewrite <-Hceq.
      + intros [c known] x Hin Hx. cbn [fst snd] in *. subst known. apply elem_of_lookup_zip_with in Hin as (k & c' & o & [= <- <-] & Hk & Ho).
        rewrite Hex, !list_lookup_fmap, Hk in Ho. simpl in Ho. by injection Ho as ->. }
  intros [results' prepared]. cbn [fst snd]. eapply triple_bind.
  { apply triple_map_err. eapply triple_conseq;
      [apply (triple_submit_many D t0 ((λ p, (p.1.2, p.2)) <$> prepared) (batch_inv records now [] results' prepared)
        (λ os w, batch_inv records now [] results' prepared w ∧ Forall2 (λ p o, claimed w p.1.2 p.2 o) prepared os))
      | |intros os w Hw; exact Hw|done].
    - intros w w' Hle _. by apply batch_inv_stable.
    - intros w os w' _ Hinv Hle Hsp _. split; [by eapply batch_inv_stable|].
      apply spec_submit_claimed in Hsp. apply Forall2_fmap_l in Hsp. exact Hsp.
    - intros w (Hw & Hinv & Hs & Hlp). split_and!; [done|done| |].
      + apply Forall_fmap, Forall_forall. intros p Hp. destruct (bi_prepared _ _ _ _ _ _ Hinv _ Hp) as (v & (r & _ & _ & Hv) & _).
        by apply validate_one_ok in Hv as (_ & _ & _ & ? & ? & _).
      + rewrite length_fmap. cbn [fst snd length] in *. assert (length (zip cands existing) ≤ length cands) by (rewrite length_zip; lia).
        unfold B, candidate in *. lia. }
  intros outcomes. apply triple_ret. intros w (Hw & Hinv & Hcl). split; [done|].
  destruct (answer_prepared _ _ _ _ _ _ Hinv Hcl) as (js & -> & Hjs). exists js. split; [|done].
  assert (json_option <$> (Some <$> js) = js) as ->; [|done].
  rewrite <-list_fmap_compose. apply list_fmap_id.
Qed.

Lemma batch_body_fails now records : fails_with (λ e, ∃ d, e = Internal d) (batch_body now records).
Proof.
  unfold batch_body. destruct (validate_batch state now 0 records) as [results cands].
  apply fails_bind; [apply fails_map_err; by eexists|]. intros existing.
  apply fails_bind.
  - apply fails_fold. intros [results' prepared] [[[[i key] v] rec] known]. simpl.
    destruct known as [prior|]; [by destruct (decide _); apply fails_ret|].
    apply fails_bind; [apply fails_try|]. intros [h|err]; apply fails_ret.
  - intros [results' prepared]. apply fails_bind; [apply fails_map_err; by eexists|].
    intros outcomes. apply fails_ret.
Qed.

(** C7: A batch answers every one of its records, in order, and each answer
    is true.  The response has one result per record: the validation error
    of an invalid one, an internal error for one whose value could not be
    stored, and for any other what the index says of its key when the batch
    ends: queued (the index has it with this content and the value is
    stored), duplicate (the index has it with this content), or conflict
    (with the content hash it names).  The precheck that answers known keys
    without storing their value never changes an answer.  On every outcome
    the registry stays well formed. *)
Theorem submit_batch_answers records w r w' :
  submit_batch state records w = (r, w') → winv w → state_ok state →
  (seq_end w + N.of_nat (length records) < 2 ^ 64)%N → Forall D (wlog w') →
  winv w' ∧
  match r with
  | Ok resp => (N.of_nat (length records) ≤ batch_max_records state)%N ∧
      batch_answer (w_now w) records resp w'
  | Err e => e = BatchTooLarge (batch_max_records state) ∧ w' = w ∧
               (batch_max_records state < N.of_nat (length records))%N ∨
             ∃ d, e = Internal d
  end.
Proof.
  intros Hr Hw Hst Hs HD.
  destruct (N.le_gt_cases (N.of_nat (length records)) (batch_max_records state)) as [Hle|Hgt].
  - rewrite submit_batch_run in Hr by done.
    assert (triple (λ w, winv w ∧ (seq_end w + N.of_nat (length records) < 2 ^ 64)%N)
      (with_write_guard (batch_body (w_now w) records))
      (λ resp w', winv w' ∧ batch_answer (w_now w) records resp w') winv) as Ht.
    { apply (triple_write_guard D); [by apply triple_batch_body| | |].
      - intros n w1 [Hw1 ?]. split; [by apply winv_active|done].
      - intros resp n w1 [Hw1 (js & Hj & Hjs)]. split; [by apply winv_active|].
        exists js. split; [done|]. eapply Forall2_impl; [exact Hjs|]. intros r1 j.
        apply slot_ok_stable. split; try done. by left.
      - intros n w1. apply winv_active. }
    destruct (Ht w r w' Hr) as [_ Hpost].
    specialize (Hpost HD (conj Hw Hs)). destruct r as [resp|e]; [by destruct Hpost|].
    split; [done|]. right. unfold with_write_guard in Hr. destruct (batch_body _ _ _) as [r1 w1] eqn:Eb.
    injection Hr as -> _. by apply batch_body_fails in Eb.
  - unfold submit_batch in Hr. rewrite (proj2 (N.ltb_lt _ _)) in Hr by done.
    injection Hr as <- <-. split; [done|]. by left.
Qed.
End spec.

(** ** Concrete requests *)

(** Stand-ins for the crates: every text is an object or a string of any
    key, no value has a timestamp, texts of errors are constants. *)
Definition sample_cid : CidCrate := {|
  Cid := unit; Cid_from_str s := if decide (s = "") then Err "empty" else Ok tt; Cid_version _ := 1 |}%N.
Definition sample_json : SerdeJson := {|
  json_from_str s := if bool_decide (is_Some (strip_prefix "{" s)) then Ok (JObject []) else Err "not an object";
  json_to_string _ := "{}" |}.
Definition sample_timestamps : Timestamps := {| from_timestamp_millis _ := None; number_as_i64 _ := None |}.
Definition sample_texts : Texts := {|
  anyhow_text _ := "failed"; blob_error_text _ := "io"; to_rfc3339 _ := "then"; from_timestamp t := Some t |}.

Definition sample_state : AppState := mkAppState {["token"]} "ticket" "endpoint" 65536 500 256.

Section witnesses.
#[local] Existing Instances sample_blake3 sample_sha256 sample_hex sample_leaf_codec sample_leaf_laws
  sample_record_codec sample_record_laws sample_docs sample_docs_laws' sample_cid sample_base32 sample_json
  sample_timestamps sample_texts.
Abbreviation SampleWorld := (World (Traced MemoryBlobStore) (gmap string Hash)).

Lemma sample_state_ok : state_ok sample_state.
Proof. by repeat split. Qed.

Definition sample_request : SubmitRecordRequest := mkSubmitRecordRequest "kc1" (JString "{9}").
Definition sample_submit : result ApiError Response * SampleWorld :=
  submit_record sample_state sample_request sample_world.

Lemma sample_submit_eq : submit_record sample_state sample_request sample_world
  = (sample_submit.1, sample_submit.2).
Proof. apply surjective_pairing. Qed.
Lemma sample_submit_status : (rs_status <$> result_ok sample_submit.1) = Some 202%N.
Proof. vm_compute. reflexivity. Qed.
Lemma sample_submit_cf : CollisionFree (λ b, b ∈ wlog sample_submit.2).
Proof. apply collision_free_of_check. vm_compute. reflexivity. Qed.
#[local] Opaque sample_submit submit_record.

Lemma sample_world_ok (D : list byte → Prop) `{!CollisionFree D} : winv D (tables sample_world) sample_world.
Proof. apply fresh_registry_ok; [reflexivity|apply sample_store_ok|reflexivity|exact sample_env_ok]. Qed.


Definition sample_batch_records : list SubmitRecordRequest :=
  [sample_request; mkSubmitRecordRequest "ka1" (JString "{1}"); mkSubmitRecordRequest "kd1" JNull;
   mkSubmitRecordRequest "kc1" (JString "{8}")].
Definition sample_batch : result ApiError Response * SampleWorld :=
  submit_batch sample_state sample_batch_records sample_world.

Lemma sample_batch_eq : submit_batch sample_state sample_batch_records sample_world
  = (sample_batch.1, sample_batch.2).
Proof. apply surjective_pairing. Qed.
Lemma sample_batch_status : (rs_status <$> result_ok sample_batch.1) = Some 207%N.
Proof. vm_compute. reflexivity. Qed.
Lemma sample_batch_cf : CollisionFree (λ b, b ∈ wlog sample_batch.2).
Proof. apply collision_free_of_check. vm_compute. reflexivity. Qed.
#[local] Opaque sample_batch submit_batch.

Lemma submit_batch_answers_witness : ∃ resp,
  batch_answer (St:=MemoryBlobStore) (Dc:=gmap string Hash) sample_state (w_now sample_world)
    sample_batch_records resp sample_batch.2.
Proof.
  pose proof sample_batch_cf as Hcf. pose proof sample_batch_status as Hs.
  destruct (submit_batch_answers (λ b, b ∈ wlog sample_batch.2) (tables sample_world) sample_state
    sample_batch_records sample_world sample_batch.1 sample_batch.2) as [_ Hr].
  - exact sample_batch_eq.
  - by apply sample_world_ok.
  - exact sample_state_ok.
  - reflexivity.
  - by apply Forall_forall.
  - destruct sample_batch.1 as [resp|e]; [|done]. exists resp. apply Hr.
Defined.
End witnesses.
