(* ===== verification/IsccReach.v ===== *)
(** What the similarity index keeps alive in the blob store. *)

From S2P Require Import Prelude Hash BlobStore Similarity SimilarityFacts IsccStore IsccStoreFacts SimilaritySpec.

Section reach.
Context `{Blake3} `{!Codec DirectoryV2, !Codec BucketManifest, !Codec (list IsccMember),
  !Codec (gmap string Hash)}.
Implicit Types C : gmap Hash (list byte).

Definition bucket_live C (b : BucketRef) (x : Hash) : Prop :=
  match b with
  | LegacyList h => x = h
  | Manifest h => x = h ∨ ∃ man, json_at C h man ∧ x ∈ bm_segments man
  end.

(** [x] is the directory blob, a manifest, or a segment of a bucket. *)
Definition iscc_live C (root x : Hash) : Prop :=
  x = root ∨ ∃ dir k b, dir_at C (Some root) dir ∧ dir !! k = Some b ∧ bucket_live C b x.

Lemma dir_at_det C root d d' : dir_at C root d → dir_at C root d' → d = d'.
Proof.
  destruct root as [r|]; simpl; [|congruence].
  intros (bs & Hb & Hp) (bs' & Hb' & Hp'). congruence.
Qed.

Lemma bucket_live_det C C' b ms x :
  bucket_rep C b ms → C ⊆ C' → bucket_live C' b x → bucket_live C b x.
Proof.
  intros Hr HC. destruct b as [h|h]; [|done]. destruct Hr as (man & Hj & _).
  intros [->|(man' & Hj' & Hx)]; [by left|right]. exists man. split; [done|].
  by rewrite (json_at_det _ _ _ _ (json_at_mono _ _ _ _ HC Hj) Hj').
Qed.

Lemma dir_at_mono C C' root dir : C ⊆ C' → dir_at C root dir → dir_at C' root dir.
Proof.
  intros HC. destruct root; simpl; [|done]. intros (bs & ? & ?). exists bs. by split; [eapply lookup_weaken|].
Qed.

Lemma iscc_live_mono C C' root x : C ⊆ C' → iscc_live C root x → iscc_live C' root x.
Proof.
  intros HC [->|(dir & k & b & Hdir & Hk & Hx)]; [by left|right]. exists dir, k, b.
  split_and!; [by eapply dir_at_mono|done|]. destruct b as [h|h]; [|done].
  destruct Hx as [->|(man & Hj & Hx)]; [by left|right]. exists man. split; [by eapply json_at_mono|done].
Qed.

Lemma iscc_live_det C C' root P x :
  index_rep C (Some root) P → C ⊆ C' → iscc_live C' root x → iscc_live C root x.
Proof.
  intros (dir & Hdir & HP) HC [->|(dir' & k & b & Hdir' & Hk & Hx)]; [by left|right].
  pose proof (dir_at_det _ _ _ _ (dir_at_mono _ _ _ _ HC Hdir) Hdir') as <-.
  specialize (HP k). rewrite Hk in HP. exists dir, k, b. split_and!; [done|done|by eapply bucket_live_det].
Qed.

Lemma json_at_keep {T} `{!Codec T} C C' h (x : T) : C' !! h = C !! h → json_at C h x → json_at C' h x.
Proof. intros He (bs & Hb & Hd). exists bs. by rewrite He. Qed.

Lemma Forall2_json_keep {T} `{!Codec T} C C' hs (ls : list T) :
  Forall2 (json_at C) hs ls → (∀ h, h ∈ hs → C' !! h = C !! h) → Forall2 (json_at C') hs ls.
Proof.
  induction 1 as [|h l hs ls Hh _ IH]; intros Hk; constructor.
  - eapply json_at_keep; [apply Hk; by left|done].
  - apply IH. intros x Hx. apply Hk. by right.
Qed.

(** An index whose blobs are all kept means the same. *)
Lemma index_rep_keep C C' root P :
  index_rep C (Some root) P → (∀ x, iscc_live C root x → C' !! x = C !! x) → index_rep C' (Some root) P.
Proof.
  intros (dir & Hdir & HP) Hk. exists dir. split.
  - destruct Hdir as (bs & Hb & Hp). exists bs. split; [|done]. rewrite Hk; [done|by left].
  - intros k. specialize (HP k). destruct (dir !! k) as [b|] eqn:Eb; [|done].
    assert (∀ x, bucket_live C b x → C' !! x = C !! x) as Hk' by (intros x Hx; apply Hk; right; by eexists _, _, _).
    destruct b as [h|h]; simpl in *; [|by eapply json_at_keep; [apply Hk'|]].
    destruct HP as (man & Hj & ls & Hls & -> & Hc). exists man.
    split; [eapply json_at_keep; [apply Hk'; by left|done]|]. exists ls. split_and!; [|done|done].
    eapply Forall2_json_keep; [done|]. intros x Hx. apply Hk'. right. by exists man.
Qed.

Section collect.
Context {St : Type} `{!BlobStore St, !BlobStoreSpec St, !LocalStore St}.
Implicit Types s : St.

Lemma load_json_local {T} `{!Codec T} h s (r : result IsccStoreError T) s' :
  load_json h s = (r, s') → is_local s → contents s' = contents s ∧ is_local s'.
Proof.
  unfold load_json, mbind, io_bind, io_map_err, io_lift. intros Hr Hl.
  destruct (get h s) as [[found|e] s1] eqn:E; pose proof (get_local _ _ _ _ Hl E) as [??].
  - destruct found; simpl in Hr; by injection Hr as <- <-.
  - by injection Hr as <- <-.
Qed.

Lemma iscc_collect_bucket_ok b ms s out s' out' :
  iscc_collect_bucket b (s, out) = (Ok tt, (s', out')) → is_local s → bucket_rep (contents s) b ms →
  contents s' = contents s ∧ is_local s' ∧ ∀ x, x ∈ out' ↔ x ∈ out ∨ bucket_live (contents s) b x.
Proof.
  destruct b as [h|h]; simpl; intros Hr Hl Hb.
  - destruct Hb as (man & Hj & _). apply io_bind_ok in Hr as ([] & w1 & [= <-] & Hr).
    apply io_bind_ok in Hr as (man' & w2 & Hm & Hr). apply on_fst_run in Hm as (s2 & Hm & ->).
    destruct (load_json_local _ _ _ _ Hm Hl) as [Hc Hl2].
    assert (man' = man) as -> by (by eapply load_json_known). injection Hr as <- <-.
    split_and!; [done|done|]. intros x. rewrite !elem_of_union, elem_of_list_to_set, elem_of_singleton.
    split; [intros [?|[->|?]]; [right; right; by exists man|by right; left|by left]|]. intros [?|[->|(man' & Hj' & ?)]]; [auto..|].
    rewrite (json_at_det _ _ _ _ Hj' Hj) in *. auto.
  - injection Hr as <- <-. split_and!; [done|done|]. intros x. set_solver.
Qed.

(** The collection adds the index's blobs, and nothing else. *)
Lemma iscc_collect_ok root P s out s' out' :
  iscc_collect_reachable root (s, out) = (Ok tt, (s', out')) → is_local s →
  index_rep (contents s) (Some root) P → root ∉ out →
  contents s' = contents s ∧ is_local s' ∧ ∀ x, x ∈ out' ↔ x ∈ out ∨ iscc_live (contents s) root x.
Proof.
  intros Hr Hl (dir & Hdir & HP) Hout. unfold iscc_collect_reachable in Hr.
  rewrite bool_decide_eq_false_2 in Hr by done.
  apply io_bind_ok in Hr as (dir' & w1 & Hd & Hr). apply on_fst_run in Hd as (s1 & Hd & ->).
  assert (contents s1 = contents s ∧ is_local s1) as [Hc1 Hl1].
  { simpl in Hd. apply io_bind_ok in Hd as (found & s2 & Hg & Hd). apply io_map_err_ok in Hg.
    destruct (get_local _ _ _ _ Hl Hg). destruct found; [|done]. simpl in Hd.
    unfold mbind, io_bind, io_lift in Hd. simpl in Hd. by injection Hd as _ <-. }
  destruct (load_directory_ok _ _ _ _ _ Hd Hdir) as [-> _].
  apply (io_fold_ok _ (λ done _ '(s2, out2), contents s2 = contents s ∧ is_local s2 ∧
    ∀ x, x ∈ out2 ↔ x ∈ {[root]} ∪ out ∨ ∃ k b, (k, b) ∈ done ∧ bucket_live (contents s) b x)) in Hr.
  - destruct Hr as (Hc & Hl' & Hx). split_and!; [done|done|]. intros x. rewrite Hx, elem_of_union, elem_of_singleton.
    split.
    + intros [[->|?]|(k & b & Hk%btree_list_elem & Hb)]; [right; by left|by left|].
      right; right. by exists dir, k, b.
    + intros [?|[->|(dir' & k & b & Hdir' & Hk & Hb)]]; [by left; right|by left; left|].
      rewrite (dir_at_det _ _ _ _ Hdir' Hdir) in Hk. right. exists k, b. by rewrite btree_list_elem.
  - intros done [k b] rest [] [s2 out2] [] [s3 out3] Hsplit (Hc2 & Hl2 & Hx2) Hb.
    assert (dir !! k = Some b) as Hkb by (apply btree_list_elem; rewrite Hsplit; set_solver).
    specialize (HP k). rewrite Hkb in HP.
    rewrite <-Hc2 in HP. destruct (iscc_collect_bucket_ok _ _ _ _ _ _ Hb Hl2 HP) as (Hc3 & Hl3 & Hx3).
    split_and!; [congruence|done|]. intros x. rewrite Hx3, Hx2, Hc2. setoid_rewrite elem_of_app.
    setoid_rewrite list_elem_of_singleton. split.
    + intros [[?|(k' & b' & ? & ?)]|?]; [by left|right; exists k', b'; auto|right; exists k, b; auto].
    + intros [?|(k' & b' & [?|[= -> ->]] & ?)]; [by left; left|left; right; by exists k', b'|by right].
  - split_and!; [done|done|]. intros x. split; [by left|]. by intros [?|(k & b & ?%elem_of_nil & _)].
Qed.
End collect.

(** On a store that does not fail the collection completes. *)
Lemma iscc_collect_total {St} `{!BlobStore St, !BlobStoreSpec St, !ReliableStore St} root P (s : St) out :
  index_rep (contents s) (Some root) P →
  ∃ out', iscc_collect_reachable root (s, out) = (Ok tt, (s, out')).
Proof.
  intros (dir & Hdir & HP). unfold iscc_collect_reachable. case_bool_decide as Hro; [by eexists|].
  rewrite (io_bind_run _ _ _ dir (s, {[root]} ∪ out))
    by (unfold on_fst; by rewrite (load_directory_total _ _ _ Hdir)).
  assert (∀ l out, (∀ k b, (k, b) ∈ l → dir !! k = Some b) →
    ∃ out', io_fold (λ _ '(_, bucket), iscc_collect_bucket bucket) tt l (s, out) = (Ok tt, (s, out'))) as Hg.
  { clear out Hro. induction l as [|[k b] l IH]; intros out Hl; simpl; [by eexists|].
    assert (∃ out1, iscc_collect_bucket b (s, out) = (Ok tt, (s, out1))) as [out1 Hb].
    { specialize (HP k). rewrite (Hl k b) in HP by by left. destruct b as [h|h]; [|by eexists].
      destruct HP as (man & Hj & _). simpl. eexists. setoid_rewrite io_bind_run; [|done].
      rewrite (io_bind_run _ _ _ man (s, {[h]} ∪ out))
        by (unfold on_fst; by rewrite (load_json_total _ _ _ Hj)). done. }
    rewrite (io_bind_run _ _ _ _ _ Hb). apply IH. intros k' b' Hin. apply Hl. by right. }
  apply Hg. intros k b. by rewrite btree_list_elem.
Qed.
End reach.
