(* ===== verification/GcFacts.v ===== *)
(** What the garbage collector's walk reads, and what its set contains. *)

From S2P Require Import Prelude Hash Partition Record BlobStore Hamt HamtNodeFacts HamtFacts HamtWalkFacts Similarity IsccStore IsccStoreFacts Anyhow Index IndexFacts IndexOps PointerDoc PointerDocFacts Daemon Gc Hoare PublisherInv PublisherFacts.

(** ** Trees and sweeps *)

Section sweep.
Context `{Blake3} `{Sha256} `{!Codec LeafEntry}.
Implicit Types C : gmap Hash (list byte).

Lemma child_mono C C' c h : C ⊆ C' → child C c h → child C' c h.
Proof. intros HC (bs & slots & i & Hbs & Hd & Hi). exists bs, slots, i. by split; [eapply lookup_weaken|]. Qed.

Lemma live_mono C C' h x : C ⊆ C' → live C h x → live C' h x.
Proof.
  intros HC. induction 1 as [h|h bs es e Hbs Hd He|h c x Hc _ IH].
  - apply live_node.
  - by eapply live_content; [eapply lookup_weaken| |].
  - by eapply live_below; [eapply child_mono|].
Qed.

Lemma closed_weaken C C' out h : C ⊆ C' → closed C' out h → closed C out h.
Proof. intros HC Hcl x Hx. by eapply Hcl, live_mono. Qed.

(** The tree of a represented root does not depend on the rest of the store. *)
Lemma rep_live_det C C' p h es x : rep C p h es → C ⊆ C' → live C' h x → live C h x.
Proof.
  intros Hrep HC Hl. revert p es Hrep. induction Hl as [h|h bs es' e Hbs Hd He|h c x Hc _ IH]; intros p es Hrep.
  - apply live_node.
  - destruct (rep_lookup _ _ _ _ Hrep) as [bs0 Hbs0]. pose proof (lookup_weaken _ _ _ _ Hbs0 HC).
    simplify_eq. by eapply live_content.
  - destruct Hc as (bs & slots & i & Hbs & Hd & Hi).
    inversion Hrep as [? ? bs0 es0 Hbs0 Hd0|? ? bs0 slots0 f Hbs0 Hd0 _ Hsome _]; subst;
      pose proof (lookup_weaken _ _ _ _ Hbs0 HC); simplify_eq; [congruence|].
    assert (slots0 = slots) as -> by congruence.
    eapply live_below; [by eexists _, _, _|by eapply IH, Hsome].
Qed.

Lemma rep_contents_live C p h es e : rep C p h es → e ∈ es → live C h (le_hash e).
Proof.
  induction 1 as [p h bs es Hbs Hd|p h bs slots f Hbs Hd Hlen Hsome IH Hnone]; intros He.
  { by eapply live_content. }
  apply concat_fmap_elem in He as (i & Hi & He). pose proof Hd as [Hsl _]%decode_intermediate_wf.
  destruct (lookup_lt_is_Some_2 slots i) as [o Ho]; [lia|].
  destruct o as [c|]; [|by rewrite Hnone in He by done; apply elem_of_nil in He].
  eapply live_below; [by eexists _, _, _|by apply (IH i c)].
Qed.

Lemma rep_live_trans C p h es x y :
  rep C p h es → contents_apart C es → live C h x → live C x y → live C h y.
Proof.
  intros Hrep Hap Hl. revert p es Hrep Hap. induction Hl as [h|h bs es' e Hbs Hd He|h c x Hc _ IH];
    intros p es Hrep Hap Hxy; [done|..].
  - inversion Hrep as [? ? bs0 es0 Hbs0 Hd0|]; simplify_eq; [|congruence].
    assert (es' = es) as -> by congruence. unfold contents_apart in Hap. rewrite Forall_forall in Hap.
    apply live_not_node in Hxy as ->; [by eapply live_content|by apply Hap].
  - eapply live_below; [done|]. destruct Hc as (bs & slots & i & Hbs & Hd & Hi).
    inversion Hrep as [? ? ? ? Hbs0 Hd0|? ? ? slots0 f Hbs0 Hd0 _ Hsome _]; simplify_eq; [congruence|].
    assert (slots0 = slots) as -> by congruence. eapply IH; [by apply Hsome| |done].
    pose proof (proj1 (decode_intermediate_wf _ _ _ Hd)) as Hlen. eapply Forall_forall. intros e He.
    unfold contents_apart in Hap. rewrite Forall_forall in Hap. apply Hap, concat_fmap_elem.
    exists i. split; [|done]. apply lookup_lt_Some in Hi. lia.
Qed.

Lemma sweep_lookup C live h b : C !! h = Some b → h ∈ live → sweep C live !! h = Some b.
Proof. intros Hb Hh. by apply map_lookup_filter_Some. Qed.

Lemma sweep_eq C alive h : h ∈ alive → sweep C alive !! h = C !! h.
Proof.
  intros Hh. destruct (C !! h) as [b|] eqn:E; [by apply sweep_lookup|].
  apply map_lookup_filter_None. by left.
Qed.

(** A tree whose blobs are all protected survives the sweep. *)
Lemma rep_sweep C p h es (alive : gset Hash) :
  rep C p h es → (∀ x, live C h x → x ∈ alive) → rep (sweep C alive) p h es.
Proof.
  induction 1 as [p h bs es Hbs Hd|p h bs slots f Hbs Hd Hlen Hsome IH Hnone]; intros Hal.
  - eapply rep_leaf; [|done..]. apply sweep_lookup; [done|]. apply Hal, live_node.
  - eapply rep_node; [|done|done| |done].
    + apply sweep_lookup; [done|]. apply Hal, live_node.
    + intros i c Hi. apply (IH i c Hi). intros x Hx. apply Hal.
      eapply live_below; [by eexists _, _, _|done].
Qed.
End sweep.

(** ** The callback only reads *)

Section reads.
Context `{Blake3} `{Sha256} `{!Codec LeafEntry}.
Context `{!Codec DirectoryV2, !Codec BucketManifest, !Codec (list IsccMember), !Codec (gmap string Hash)}.
Context {St : Type} `{!BlobStore St, !BlobStoreSpec St, !LocalStore St}.

(** A read of a traced store. *)
Definition store_read (s s' : Traced St) : Prop :=
  tr_log s' = tr_log s ∧ (is_local s → contents s' = contents s ∧ is_local s').

#[global] Instance store_read_preorder : PreOrder store_read.
Proof.
  split; [intros s; by split|]. intros s1 s2 s3 [L1 C1] [L2 C2]. split; [congruence|].
  intros Hl. destruct (C1 Hl) as [E1 Hl1], (C2 Hl1) as [E2 Hl2]. split; [congruence|done].
Qed.

Definition set_read {V} (x y : Traced St * V) : Prop := store_read x.1 y.1.
#[global] Instance set_read_preorder V : PreOrder (@set_read V).
Proof. split; [intros x; unfold set_read; reflexivity|]. unfold set_read. intros x y z ??. by etrans. Qed.

Lemma read_get h : steps_in store_read (get (St:=Traced St) h).
Proof. intros s r s' Hg. split; [by eapply get_log|]. intros Hl. by eapply (get_local (St:=Traced St)). Qed.

Lemma read_on_fst {V E A} (m : io (Traced St) E A) :
  steps_in store_read m → steps_in (@set_read V) (on_fst m).
Proof. intros Hm [s v] r x' Hr. apply on_fst_run in Hr as (s' & Hr & ->). by eapply Hm. Qed.

Lemma read_modify {V E} (f : Traced St * V → Traced St * V) :
  (∀ x, (f x).1 = x.1) → steps_in set_read (modify (E:=E) f).
Proof. intros Hf x r y [= _ <-]. unfold set_read. rewrite Hf. reflexivity. Qed.

Lemma read_load_node h : steps_in store_read (load_node (St:=Traced St) h).
Proof. unfold load_node. repeat (steps_step || apply read_get); apply read_get. Qed.

Lemma read_collect_reachable fuel h : steps_in set_read (collect_reachable (St:=Traced St) fuel h).
Proof.
  revert h. induction fuel as [|fuel IH]; intros h; simpl; [by apply steps_in_err; apply _|].
  intros [s out] r x' Hr. case_bool_decide; [injection Hr as <- <-; unfold set_read; reflexivity|].
  change (set_read (s, {[h]} ∪ out) x'). revert Hr. generalize ({[h]} ∪ out). intros out1 Hr.
  eapply (steps_in_bind set_read) in Hr; [exact Hr|apply read_on_fst, steps_in_map_err, read_load_node|].
  intros [es|slots]; [apply read_modify; by intros []|]. apply steps_in_fold; [apply _|intros _ c; apply IH].
Qed.

Lemma read_load_json {T} `{!Codec T} h : steps_in store_read (load_json (St:=Traced St) (T:=T) h).
Proof. unfold load_json. steps. apply read_get. Qed.

Lemma read_iscc_collect h : steps_in set_read (iscc_collect_reachable (St:=Traced St) h).
Proof.
  intros [s out] r x' Hr. unfold iscc_collect_reachable in Hr.
  case_bool_decide; [injection Hr as <- <-; unfold set_read; reflexivity|].
  change (set_read (s, {[h]} ∪ out) x'). revert Hr. generalize ({[h]} ∪ out). intros out1 Hr.
  eapply (steps_in_bind set_read) in Hr; [exact Hr| |].
  - apply read_on_fst. unfold load_directory. steps. apply read_get.
  - intros dir. apply steps_in_fold; [apply _|]. intros _ [k [m|l]]; simpl; [|apply read_modify; by intros []].
    apply steps_in_bind; [apply _|apply read_modify; by intros []|]. intros _.
    apply steps_in_bind; [apply _|apply read_on_fst, read_load_json|].
    intros man. apply read_modify; by intros [].
Qed.

Lemma read_keep_partial {E} (walk : io (Traced St * gset Hash) E unit) live :
  steps_in set_read walk → steps_in store_read (keep_partial walk live).
Proof.
  intros Hw s r s' Hr. unfold keep_partial in Hr. destruct (walk (s, live)) as [r1 [s1 live1]] eqn:E1.
  injection Hr as <- <-. by apply (Hw _ _ _ E1).
Qed.
End reads.

Section world.
Context `{Blake3} `{Sha256} `{!Codec LeafEntry, !LeafCodecLaws}.
Context `{!Codec IndexRecord, !CodecLaws IndexRecord index_record_dom}.
Context `{!Codec DirectoryV2, !Codec BucketManifest, !Codec (list IsccMember), !Codec (gmap string Hash)}.
Context {St Dc : Type} `{!BlobStore St, !BlobStoreSpec St, !LocalStore St}.
Context `{!IrohDocs (Traced St) Dc, !IrohDocsLaws (Traced St) Dc}.
Context (D : list byte → Prop) `{!CollisionFree D} (t0 : Tables).
Implicit Types w : World (Traced St) Dc.

(** A step that reads, with other tasks at work. *)
Definition gc_step w w' : Prop :=
  wlog w `prefix_of` wlog w' ∧
  (Forall D (wlog w') → winv D t0 w → winv D t0 w' ∧ env_le w w').

#[global] Instance gc_step_preorder : PreOrder gc_step.
Proof.
  split; [intros w; by split|]. intros w1 w2 w3 [P1 S1] [P2 S2]. split; [by etrans|].
  intros HD Hw. destruct S1 as [Hw2 ?]; [by eapply prefix_Forall|done|].
  destruct S2 as [Hw3 ?]; [done..|]. split; [done|by etrans].
Qed.

(** An index read sees the tables the step ends with. *)
Lemma on_index_read {A} (m : io RecordIndex anyhow A) w r w' :
  (∀ ix r ix', m ix = (r, ix') → db ix' = db ix) → on_index m w = (r, w') →
  gc_step w w' ∧ ∃ ix ix', m ix = (r, ix') ∧ db ix = tables w'.
Proof.
  intros Hm Hr. unfold on_index in Hr. destruct (m (w_index (interfere w))) as [r1 ix'] eqn:Em.
  injection Hr as <- <-. pose proof (Hm _ _ _ Em) as Hdb. destruct (interfere_ok D t0 w) as [Hp Hi].
  split; [split; [done|]|by exists (w_index (interfere w)), ix'].
  intros HD Hw. destruct (Hi HD Hw) as (Hw1 & Hle & _).
  destruct (winv_index D t0 (interfere w) ix' Hdb Hw1). split; [done|by etrans].
Qed.

(** A node read sees the blobs and entries the step ends with. *)
Lemma on_node_read {A} (m : io (Traced St * Dc) anyhow A) w r w' :
  steps_in node_read m → on_node m w = (r, w') →
  gc_step w w' ∧ ∃ n n', m n = (r, n') ∧ node_read n n' ∧ n' = w_node w' ∧
    (Forall D (wlog w') → winv D t0 w → is_local n.1 ∧ contents n.1 = blobs w' ∧ doc_entries (St:=Traced St) n.2 = entries w').
Proof.
  intros Hm Hr. unfold on_node in Hr. destruct (m (w_node (interfere w))) as [r1 n'] eqn:Em.
  injection Hr as <- <-. pose proof (Hm _ _ _ Em) as Hrd. destruct (interfere_ok D t0 w) as [Hp Hi].
  assert (Forall D (wlog (with_node n' (interfere w))) → Forall D (wlog (interfere w))) as HDi.
  { unfold wlog. simpl. by rewrite (nr_log _ _ Hrd). }
  split; [split|].
  - unfold wlog at 2. simpl. by rewrite (nr_log _ _ Hrd).
  - intros HD Hw. destruct (Hi (HDi HD) Hw) as (Hw1 & Hle & _).
    destruct (winv_node_read D t0 (interfere w) n' Hrd Hw1) as (? & ? & _). split; [done|by etrans].
  - exists (w_node (interfere w)), n'. split_and!; [done..|]. intros HD Hw.
    destruct (Hi (HDi HD) Hw) as (Hw1 & Hle & _).
    destruct (winv_node_read D t0 (interfere w) n' Hrd Hw1) as (_ & _ & Hc).
    split_and!; [apply (pi_store _ _ _ (proj1 Hw1))|done|]. symmetry. apply Hrd.
Qed.

Lemma node_read_fst {A} (m : io (Traced St) anyhow A) :
  steps_in store_read m → steps_in node_read (on_fst (V:=Dc) m).
Proof.
  intros Hm [s d] r x' Hr. apply on_fst_run in Hr as (s' & Hr & ->).
  destruct (Hm _ _ _ Hr) as [Hl Hc]. by split.
Qed.

Lemma read_doc_get_many {F} (g : string → F) p :
  steps_in node_read (on_snd (io_map_err g (doc_get_many (St:=Traced St) p))).
Proof.
  intros [s d] r n' Hr. apply on_snd_run in Hr as (d' & Hg & ->). unfold io_map_err in Hg.
  destruct (doc_get_many p d) as [r1 d1] eqn:E. injection Hg as <- <-.
  destruct (doc_get_many_run _ _ _ _ E) as [He _]. by split.
Qed.

Lemma read_entry_hashes : steps_in node_read (entry_content_hashes (St:=Traced St) (Dc:=Dc)).
Proof. unfold entry_content_hashes. steps. apply read_doc_get_many. Qed.

(** Every entry's content hash is listed. *)
Lemma entry_content_hashes_ok n hs n' k h :
  entry_content_hashes n = (Ok hs, n') →
  doc_entries (St:=Traced St) n.2 !! k = Some h → h ∈ hs.
Proof.
  destruct n as [s d]. unfold entry_content_hashes. intros (l & n1 & Hg & Hr)%io_bind_ok Hk.
  apply on_snd_run in Hg as (d1 & Hg & ->). apply io_map_err_ok in Hg.
  unfold mbind, io_bind, io_lift in Hr. destruct (collect_entries l) as [es|] eqn:Ec; [|done].
  injection Hr as <- <-. destruct (doc_get_many_run _ _ _ _ Hg) as [_ Hes].
  apply list_elem_of_fmap. exists (k, h). split; [done|]. apply (Hes l es eq_refl Ec).
  split; [done|]. eexists. apply (strip_prefix_app "" k).
Qed.

(** ** Records and their content hashes *)

Lemma parse_rows_ok l : Forall (λ kr, ∃ r : IndexRecord, de kr.2 = Ok r) l →
  ∃ rs, parse_rows l = Ok rs ∧ ∀ k r, (k, r) ∈ rs ↔ ∃ raw, (k, raw) ∈ l ∧ de raw = Ok r.
Proof.
  induction 1 as [|[k raw] l [r Hr] _ (rs & Hrs & Hin)]; simpl.
  - eexists. split; [done|]. intros. split; [by intros ?%elem_of_nil|by intros (? & ?%elem_of_nil & _)].
  - simpl in Hr. unfold parse_record. rewrite Hr, Hrs. simpl. eexists. split; [done|]. intros k' r'.
    rewrite elem_of_cons, Hin. split.
    + intros [[= -> ->]|(raw' & ? & ?)]; [exists raw; split; [by left|done]|exists raw'; split; [by right|done]].
    + intros (raw' & [[= -> ->]|?]%elem_of_cons & Hd); [left; congruence|right; by exists raw'].
Qed.

Lemma scan_ok t : index_inv t → ∃ rs, scan t = Ok rs ∧ ∀ k r, (k, r) ∈ rs ↔ recs t !! k = Some r.
Proof.
  intros [Hwf _]. destruct (parse_rows_ok (btree_list (t_records t))) as (rs & Hrs & Hin).
  - apply Forall_forall. intros [k raw] Hk%btree_list_elem. exact (wf_parse _ Hwf k raw Hk).
  - exists rs. split; [done|]. intros k r. rewrite Hin, recs_lookup.
    split; intros (raw & Hk & Hd); exists raw; (split; [by apply btree_list_elem|done]).
Qed.

Lemma all_content_hashes_ok ix r ix' :
  all_content_hashes ix = (r, ix') → db ix' = db ix ∧
  (index_inv (db ix) → ∀ hs, r = Ok hs →
     ∀ h, h ∈ hs ↔ ∃ k x, recs (db ix) !! k = Some x ∧ ir_content_hash x = h).
Proof.
  intros [Hdb Hr]%read_txn_cases. split; [done|]. intros Hinv hs ->.
  destruct Hr as [?|Hr]; [done|]. destruct (scan_ok _ Hinv) as (rs & Hs & Hin).
  rewrite Hs in Hr. injection Hr as ->. intros h. rewrite list_elem_of_fmap.
  split; [intros ([k x] & -> & ?%Hin); by exists k, x|]. intros (k & x & ?%Hin & <-). by exists (k, x).
Qed.
End world.
