(* ===== verification/GcSpec.v ===== *)
(** What the garbage collector's protect set guarantees. *)

From S2P Require Import Prelude Hash Partition Record BlobStore Hamt HamtNodeFacts HamtFacts HamtWalkFacts Similarity IsccStore IsccStoreFacts IsccReach Anyhow Index IndexFacts IndexOps PointerDoc PointerDocFacts Daemon Gc Hoare PublisherInv Publisher PublisherFacts PublisherSpec GcFacts SimilaritySpec Samples.

Lemma root_map_lookup (l : list (N * Hash)) (f : N → option Hash) p :
  (∀ p h, (p, h) ∈ l ↔ f p = Some h) → root_map l !! p = f p.
Proof.
  intros Hf. assert (∀ l' (m : gmap N Hash), (∀ p h, (p, h) ∈ l' → f p = Some h) →
    foldl (λ m pr, <[pr.1 := pr.2]> m) m l' !! p = if decide (p ∈ l'.*1) then f p else m !! p) as Hg.
  { induction l' as [|[q h] l' IH]; intros m Hl; [done|]. simpl.
    rewrite IH by (intros; apply Hl; by right). destruct (decide (p ∈ l'.*1)).
    - by rewrite decide_True by by right.
    - destruct (decide (p = q)) as [->|Hne].
      + rewrite lookup_insert_eq, decide_True by by left. symmetry. apply Hl. by left.
      + rewrite lookup_insert_ne by done. rewrite decide_False; [done|].
        by intros [?|?]%elem_of_cons. }
  unfold root_map. rewrite Hg by (by intros; apply Hf). case_decide as Hp; [done|].
  destruct (f p) as [h|] eqn:E; [|done]. apply Hf in E. destruct Hp.
  apply list_elem_of_fmap. by exists (p, h).
Qed.

Section walk.
Context `{Blake3} `{Sha256} `{!Codec LeafEntry}.
Context {St : Type} `{!BlobStore St, !BlobStoreSpec St, !LocalStore St, !ReliableStore St}.

(** One partition's walk, as seen from a later content [Cf] of the store. *)
Lemma collect_tree fuel r es Cf (s : St) out :
  is_local s → contents s ⊆ Cf → rep (contents s) [] r es → contents_apart Cf es → 32 ≤ fuel →
  (∀ x, x ∈ out → closed Cf out x) →
  ∃ out', keep_partial (collect_reachable fuel r) out s = (Ok out', s) ∧
    (∀ x, x ∈ out' ↔ x ∈ out ∨ live Cf r x) ∧ ∀ x, x ∈ out' → closed Cf out' x.
Proof.
  intros Hl HC Hrep Hap Hf Hcl.
  destruct (collect_reachable_succeeds fuel [] r es s out Hrep) as [out' Hr]; [simpl; lia|].
  assert (contents_apart (contents s) es) as Hap'.
  { eapply Forall_impl; [exact Hap|]. intros e Hn (bs & n & Hb & Hd). apply Hn.
    exists bs, n. by split; [eapply lookup_weaken|]. }
  destruct (collect_reachable_spec fuel [] r es s ∅ out out' s Hr) as (_ & _ & Hs & Hclr & Hcl' & Hsnd); try done.
  { intros x Hx. right. eapply closed_weaken; [exact HC|by apply Hcl]. }
  assert (∀ x, live Cf r x ↔ live (contents s) r x) as Hlive.
  { intros x. split; [by eapply rep_live_det|by eapply live_mono]. }
  exists out'. unfold keep_partial. rewrite Hr. split; [done|].
  assert (∀ x, x ∈ out' ↔ x ∈ out ∨ live Cf r x) as Hx.
  { intros x. rewrite Hlive. split; [apply Hsnd|]. intros [Hx|Hx]; [by apply Hs|by apply Hclr]. }
  split; [done|]. intros x [Ho|Hlx]%Hx y Hy; apply Hx.
  - left. by apply (Hcl x Ho).
  - right. assert (rep Cf [] r es) as Hrep' by by eapply rep_mono. by eapply rep_live_trans.
Qed.
End walk.

Section spec.
Context `{Blake3} `{Sha256} `{!Codec LeafEntry, !LeafCodecLaws}.
Context `{!Codec IndexRecord, !CodecLaws IndexRecord index_record_dom}.
Context `{!Codec DirectoryV2, !Codec BucketManifest, !Codec (list IsccMember), !Codec (gmap string Hash)}.
Context {St Dc : Type} `{!BlobStore St, !BlobStoreSpec St, !LocalStore St, !ReliableStore St}.
Context `{!IrohDocs (Traced St) Dc, !IrohDocsLaws (Traced St) Dc}.
Context (D : list byte → Prop) `{!CollisionFree D} (t0 : Tables).
Context (hash_order : gmap N Hash → list (N * Hash)) (fuel : nat).
Implicit Types w : World (Traced St) Dc.

Lemma fill_root_ok m id w m' w' Cf :
  fill_root m id w = (Ok m', w') → gc_step D t0 w w' ∧
  (Forall D (wlog w') → winv D t0 w → blobs w' ⊆ Cf → ∀ p r, m' !! p = Some r ↔
    m !! p = Some r ∨ m !! p = None ∧ p = id ∧ doc_root Cf (entries w') p r).
Proof.
  unfold fill_root. destruct (m !! id) as [r0|] eqn:Em.
  { intros [= <- <-]. split; [done|]. intros _ _ _ p r. split; [by left|].
    intros [?|(? & -> & _)]; [done|congruence]. }
  intros (o & w1 & Hr & Hw)%io_bind_ok.
  destruct (on_node_read D t0 _ _ _ _ (read_get_named_root _) Hr) as (Hstep & n & n' & Hn & Hrd & Hn' & Hst).
  assert (w' = w1 ∧ m' = match o with Some r => <[id := r]> m | None => m end) as [-> ->] by by injection Hw.
  split; [done|]. intros HD Hwi HC p r. destruct (Hst HD Hwi) as (Hl & Hc & He).
  apply get_named_root_ok in Hn. rewrite He in Hn. subst n'.
  change (contents (w_node w1).1) with (blobs w1) in Hn.
  assert (∀ r, o = Some r ↔ doc_root Cf (entries w1) id r) as Ho.
  { intros r1. destruct (entries w1 !! partition_key id) as [h|] eqn:Eh.
    - destruct Hn as (r2 & -> & Hb). pose proof (lookup_weaken _ _ _ _ Hb HC).
      assert (doc_root Cf (entries w1) id r2) as Hd by by exists h.
      split; [by intros [= ->]|]. intros Hd'. by rewrite (doc_root_det _ _ _ _ _ Hd Hd').
    - subst o. split; [done|]. intros (h & Hh & _). congruence. }
  destruct o as [r1|]; simpl.
  - destruct (decide (p = id)) as [->|Hne].
    + rewrite lookup_insert_eq, Em, Ho. naive_solver.
    + rewrite lookup_insert_ne by done. naive_solver.
  - split; [by left|]. by intros [?|(_ & -> & Hd%Ho)].
Qed.

Lemma fill_roots_ok ids m w m' w' Cf :
  io_fold fill_root m ids w = (Ok m', w') → gc_step D t0 w w' ∧
  (Forall D (wlog w') → winv D t0 w → blobs w' ⊆ Cf → ∀ p r, m' !! p = Some r ↔
    m !! p = Some r ∨ m !! p = None ∧ p ∈ ids ∧ doc_root Cf (entries w') p r).
Proof.
  revert m w. induction ids as [|id ids IH]; intros m w; simpl.
  { intros [= <- <-]. split; [done|]. intros _ _ _ p r. split; [by left|].
    by intros [?|(_ & ?%elem_of_nil & _)]. }
  intros (m1 & w1 & Hf & Hr)%io_bind_ok. destruct (fill_root_ok _ _ _ _ _ Cf Hf) as [Hs1 H1'].
  destruct (IH _ _ Hr) as [Hs2 H2']. split; [by etrans|]. intros HD Hw HC p r.
  destruct Hs2 as [Hp2 Hs2]. pose proof (prefix_Forall D _ _ Hp2 HD) as HD1.
  destruct Hs1 as [_ Hs1]. destruct (Hs1 HD1 Hw) as [Hw1 _]. destruct (Hs2 HD Hw1) as [_ Hle].
  assert (blobs w1 ⊆ Cf) as HC1 by (etrans; [apply Hle|done]).
  rewrite (H2' HD Hw1 HC). pose proof (H1' HD1 Hw HC1 p) as Hm1. rewrite (el_doc _ _ Hle) in *.
  rewrite Hm1, elem_of_cons. split.
  - intros [[?|(? & ? & ?)]|(Hn & ? & Hd)]; [by left|naive_solver|right].
    destruct (m !! p) as [r2|] eqn:E; [|naive_solver]. pose proof (proj2 (Hm1 r2) (or_introl eq_refl)). congruence.
  - intros [?|(Hn & [->|?] & Hd)]; [by left; left|naive_solver|].
    destruct (m1 !! p) as [r2|] eqn:E; [|naive_solver]. left.
    destruct (proj1 (Hm1 r2) eq_refl) as [?|(_ & -> & Hd')]; [congruence|].
    rewrite (doc_root_det _ _ _ _ _ Hd Hd'). naive_solver.
Qed.

Lemma walk_roots_ok l out w out' w' Cf :
  io_fold (walk_partition fuel) out l w = (Ok out', w') → gc_step D t0 w w' ∧
  (Forall D (wlog w') → winv D t0 w → 32 ≤ fuel → blobs w' ⊆ Cf →
   (∀ p r, (p, r) ∈ l → ∃ es, rep (blobs w) [] r es ∧ contents_apart Cf es) →
   (∀ x, x ∈ out → closed Cf out x) →
   (∀ x, x ∈ out' ↔ x ∈ out ∨ ∃ p r, (p, r) ∈ l ∧ live Cf r x) ∧ ∀ x, x ∈ out' → closed Cf out' x).
Proof.
  revert out w. induction l as [|[p r] l IH]; intros out w; simpl.
  { intros [= <- <-]. split; [done|]. intros _ _ _ _ _ Hcl. split; [|done]. intros x. split; [by left|].
    by intros [?|(? & ? & ?%elem_of_nil & _)]. }
  intros (out1 & w1 & Hf & Hr)%io_bind_ok. unfold walk_partition in Hf. simpl in Hf.
  destruct (on_node_read D t0 _ _ _ _ (node_read_fst _ (read_keep_partial _ _ (read_collect_reachable fuel r))) Hf)
    as (Hs1 & n & n' & Hn & Hrd & Hn' & Hst).
  destruct (IH _ _ Hr) as [Hs2 H2']. split; [by etrans|]. intros HD Hw Hfu HC Hreps Hcl.
  destruct Hs2 as [Hp2 Hs2]. pose proof (prefix_Forall D _ _ Hp2 HD) as HD1.
  destruct Hs1 as [_ Hs1]. destruct (Hs1 HD1 Hw) as [Hw1 Hle1]. destruct (Hs2 HD Hw1) as [_ Hle2].
  destruct (Hst HD1 Hw) as (Hloc & Hc & _).
  assert (blobs w1 ⊆ Cf) as HC1 by (etrans; [apply Hle2|done]).
  destruct (Hreps p r) as (es & Hrep & Hap); [by left|].
  destruct n as [s d]. apply on_fst_run in Hn as (s' & Hn & ->). cbn [fst] in Hloc, Hc.
  destruct (collect_tree fuel r es Cf s out) as (out2 & Hc2 & Hx1 & Hcl1); [done|by change (contents s ⊆ Cf); rewrite Hc| |done..|].
  { change (rep (contents s) [] r es). rewrite Hc. eapply rep_mono, Hrep. apply Hle1. }
  rewrite Hc2 in Hn. injection Hn as <- <-.
  destruct (H2' HD Hw1 Hfu HC) as [Hx2 Hcl2]; [|done|].
  { intros p' r' Hin. destruct (Hreps p' r') as (es' & Hrep' & ?); [by right|]. exists es'.
    split; [|done]. eapply rep_mono, Hrep'. apply Hle1. }
  split; [|done]. intros x. rewrite Hx2, Hx1. setoid_rewrite elem_of_cons. split.
  - intros [[?|?]|(p' & r' & ? & ?)]; [by left|right; by exists p, r; split; [left|]|right].
    exists p', r'. by split; [right|].
  - intros [?|(p' & r' & [[= -> ->]|?] & ?)]; [by left; left|by left; right|right; by exists p', r'].
Qed.
(** The root the walk takes for a partition: the local one, else the pointer
    document's. *)
Definition gc_root w (p : N) (r : Hash) : Prop :=
  local_root (tables w) p = Some r ∨
  local_root (tables w) p = None ∧ doc_root (blobs w) (entries w) p r.

(** No record's content is the encoding of a tree node (contents are JSON
    objects, nodes start with a tag byte). *)
Definition values_apart w : Prop :=
  ∀ k x, recs (tables w) !! k = Some x → ¬ is_node (blobs w) (ir_content_hash x).

(** The similarity index's root in the pointer document. *)
Definition iscc_root w (r : Hash) : Prop :=
  ∃ h, entries w !! ISCC_INDEX_ROOT_KEY = Some h ∧ blobs w !! h = Some (b32_list (hash_0 r)).

Lemma live_cases C p h es x : rep C p h es → live C h x → is_node C x ∨ x ∈ le_hash <$> es.
Proof.
  intros Hrep Hl. revert p es Hrep. induction Hl as [h|h bs es' e Hbs Hd He|h c x Hc _ IH]; intros p es Hrep.
  - left. inversion Hrep; subst; by eexists _, _.
  - right. inversion Hrep; simplify_eq; [|congruence]. assert (es' = es) as -> by congruence.
    by apply list_elem_of_fmap_2.
  - destruct Hc as (bs & slots & i & Hbs & Hd & Hi).
    inversion Hrep as [? ? ? ? Hbs0 Hd0|? ? ? slots0 f Hbs0 Hd0 _ Hsome _]; simplify_eq; [congruence|].
    assert (slots0 = slots) as -> by congruence. destruct (IH _ _ (Hsome _ _ Hi)) as [?|Hx]; [by left|right].
    apply list_elem_of_fmap in Hx as (e & -> & He). apply list_elem_of_fmap_2, concat_fmap_elem.
    exists i. split; [|done]. pose proof (proj1 (decode_intermediate_wf _ _ _ Hd)).
    apply lookup_lt_Some in Hi. lia.
Qed.

Lemma gc_chain w w1 w' : gc_step D t0 w w1 → gc_step D t0 w1 w' → Forall D (wlog w') → winv D t0 w →
  Forall D (wlog w1) ∧ winv D t0 w1 ∧ env_le w w1 ∧ env_le w1 w'.
Proof.
  intros [_ S1] [P2 S2] HD Hw. pose proof (prefix_Forall D _ _ P2 HD) as HD1.
  destruct (S1 HD1 Hw) as [Hw1 ?]. by destruct (S2 HD Hw1).
Qed.

(** The trees the walk visits agree with the index. *)
Lemma gc_root_tree w p r : winv D t0 w → (p < 2 ^ 32)%N → gc_root w p r →
  tree_ok (blobs w) (tables w) p r.
Proof.
  intros [Hi _] Hp [Hl|[_ (h & Hh & Hb)]]; [by apply (pi_local _ _ _ Hi)|].
  destruct (pi_doc _ _ _ Hi _ _ Hp Hh) as (r' & Hd & Ht).
  by rewrite (doc_root_det _ _ _ _ _ Hd (ex_intro _ h (conj Hh Hb))) in Ht.
Qed.

Lemma gc_root_env w w' p r : winv D t0 w → (p < 2 ^ 32)%N → env_le w w' → gc_root w' p r → gc_root w p r.
Proof.
  intros [Hi _] Hp Hle. unfold gc_root, local_root. rewrite (el_roots _ _ Hle), (el_doc _ _ Hle).
  intros [?|[? (h & Hh & Hb)]]; [by left|right]. split; [done|].
  destruct (pi_doc _ _ _ Hi _ _ Hp Hh) as (r' & Hd & _).
  assert (doc_root (blobs w') (entries w) p r') as Hd' by by eapply doc_root_mono, Hd; apply Hle.
  by rewrite (doc_root_det _ _ _ _ _ Hd' (ex_intro _ h (conj Hh Hb))) in Hd.
Qed.

Lemma tree_apart w w' p r : env_le w w' → values_apart w' → tree_ok (blobs w) (tables w) p r →
  ∃ es, rep (blobs w) [] r es ∧ contents_apart (blobs w') es ∧
    ∀ e, e ∈ es → ∃ k x, recs (tables w') !! k = Some x ∧ ir_content_hash x = le_hash e.
Proof.
  intros Hle Hap (es & Hrep & Hes). exists es.
  assert (∀ e, e ∈ es → ∃ k x, recs (tables w') !! k = Some x ∧ ir_content_hash x = le_hash e) as Hk.
  { intros e (x & Hx & Hh & _)%Hes. exists (le_key e), x. split; [|done].
    eapply lookup_weaken; [exact Hx|apply Hle]. }
  split_and!; [done| |done]. apply Forall_forall. intros e He.
  destruct (Hk e He) as (k & x & Hx & <-). by eapply Hap.
Qed.

(** What survives a sweep by the protect set [alive]. *)
Record protected (n : N) w w' (alive : gset Hash) : Prop := {
  pr_values k x : recs (tables w) !! k = Some x → ir_content_hash x ∈ alive;
  pr_docs k h : entries w' !! k = Some h → h ∈ alive;
  pr_trees p r es : (p < n)%N ∨ is_Some (local_root (tables w') p) → gc_root w' p r →
    rep_root (blobs w') (Some r) es →
    rep_root (sweep (blobs w') alive) (Some r) es ∧ ∀ e, e ∈ es → le_hash e ∈ alive;
  pr_iscc r P : iscc_root w r → index_rep (blobs w) (Some r) P →
    (∀ k x, recs (tables w') !! k = Some x → ir_content_hash x ≠ r) → ¬ is_node (blobs w') r →
    index_rep (sweep (blobs w') alive) (Some r) P;
}.

(** The similarity index's part of the walk. *)
Definition iscc_part (o : option Hash) (out : gset Hash) : io (World (Traced St) Dc) anyhow (gset Hash) :=
  match o with
  | Some root => on_node (on_fst (keep_partial (iscc_collect_reachable root) out))
  | None => mret out
  end.

Lemma iscc_collect_grows root (s : Traced St) out r s' out' :
  iscc_collect_reachable root (s, out) = (r, (s', out')) → out ⊆ out'.
Proof.
  set (R := λ x y : Traced St * gset Hash, x.2 ⊆ y.2).
  assert (PreOrder R) by (split; [intros x; unfold R; done|intros x y z; unfold R; set_solver]).
  assert (∀ E (f : Traced St * gset Hash → Traced St * gset Hash), (∀ x, x.2 ⊆ (f x).2) →
    steps_in R (modify (E:=E) f)) as Hmod by (intros E f Hf x y z [= _ <-]; apply Hf).
  assert (∀ E A (m : io (Traced St) E A), steps_in R (on_fst m)) as Hfst.
  { intros E A m [s1 o1] r1 x' Hr. apply on_fst_run in Hr as (s2 & _ & ->). unfold R. done. }
  intros Hr. unfold iscc_collect_reachable in Hr. case_bool_decide; [by injection Hr as <- <- <-|].
  etrans; [apply (union_subseteq_r {[root]})|]. change (R (s, {[root]} ∪ out) (s', out')).
  revert Hr. generalize ({[root]} ∪ out). intros o1 Hr.
  eapply (steps_in_bind R) in Hr; [exact Hr|apply Hfst|]. intros dir.
  apply steps_in_fold; [apply _|]. intros _ [k [m|l]]; simpl; [|apply Hmod; intros []; simpl; set_solver].
  apply steps_in_bind; [apply _|apply Hmod; intros []; simpl; set_solver|]. intros _.
  apply steps_in_bind; [apply _|apply Hfst|]. intros man. apply Hmod. intros []; simpl; set_solver.
Qed.

Lemma iscc_part_ok o out w out' w' :
  iscc_part o out w = (Ok out', w') → gc_step D t0 w w' ∧ out ⊆ out' ∧
  (Forall D (wlog w') → winv D t0 w → ∀ root P, o = Some root → root ∉ out →
   index_rep (blobs w) (Some root) P → ∀ x, iscc_live (blobs w) root x → x ∈ out').
Proof.
  destruct o as [root|]; simpl; [|intros [= <- <-]; split_and!; [done|done|by intros]].
  intros Hr. destruct (on_node_read D t0 _ _ _ _ (node_read_fst _ (read_keep_partial _ _ (read_iscc_collect root))) Hr)
    as (Hs & [s d] & n' & Hn & _ & -> & Hst).
  apply on_fst_run in Hn as (s' & Hn & _). unfold keep_partial in Hn.
  destruct (iscc_collect_reachable root (s, out)) as [r1 [s1 out1]] eqn:E1. injection Hn as -> ->.
  split_and!; [done|by eapply iscc_collect_grows|]. intros HD Hw root' P [= <-] Hroot Hrep x Hx.
  destruct (Hst HD Hw) as (Hl & Hc & _). cbn [fst] in Hl, Hc. destruct Hs as [_ Hs].
  destruct (Hs HD Hw) as [_ Hle]. assert (blobs w ⊆ contents s) as HC by (rewrite Hc; apply Hle).
  assert (index_rep (contents s) (Some root) P) as Hrep' by by eapply index_rep_mono.
  destruct (iscc_collect_total root P s out Hrep') as [out2 E2].
  assert (out2 = out' ∧ s' = s) as [-> ->] by (by rewrite E2 in E1; simplify_eq).
  destruct (iscc_collect_ok root P s out s out' E2 Hl Hrep' Hroot) as (_ & _ & Hall).
  apply Hall. right. by eapply iscc_live_mono.
Qed.

(** The set built from the contents of the records and the trees of the
    roots has no gaps. *)
Lemma trees_part hs roots out w1 w2 w' Cf :
  io_fold (walk_partition fuel) (list_to_set hs) (hash_order roots) w1 = (Ok out, w2) →
  gc_step D t0 w2 w' → Forall D (wlog w') → winv D t0 w1 → Cf = blobs w' →
  32 ≤ fuel → (∀ m, hash_order m ≡ₚ map_to_list m) → values_apart w' →
  (∀ h, h ∈ hs → ∃ k x, recs (tables w') !! k = Some x ∧ ir_content_hash x = h) →
  (∀ p r, roots !! p = Some r → (p < 2 ^ 32)%N ∧ gc_root w1 p r) →
  (∀ h, h ∈ hs → h ∈ out) ∧ (∀ p r x, roots !! p = Some r → live Cf r x → x ∈ out) ∧
  (∀ x, x ∈ out → is_node Cf x ∨ ∃ k y, recs (tables w') !! k = Some y ∧ ir_content_hash y = x).
Proof.
  intros Hwalk Hs2 HD Hw -> Hf Hord Hap Hhs Hroots.
  destruct (walk_roots_ok _ _ _ _ _ (blobs w') Hwalk) as [Hs1 Hx].
  destruct (gc_chain _ _ _ Hs1 Hs2 HD Hw) as (HD2 & Hw2 & Hle1 & Hle2).
  assert (env_le w1 w') as Hle by by etrans.
  assert (∀ p r, (p, r) ∈ hash_order roots ↔ roots !! p = Some r) as Hin
    by (intros; rewrite Hord; apply elem_of_map_to_list).
  assert (∀ p r, roots !! p = Some r → ∃ es, rep (blobs w1) [] r es ∧ contents_apart (blobs w') es ∧
    ∀ e, e ∈ es → ∃ k x, recs (tables w') !! k = Some x ∧ ir_content_hash x = le_hash e) as Htree.
  { intros p r [Hp Hr]%Hroots. by eapply tree_apart, gc_root_tree. }
  destruct Hx as [Hx _]; [done|done|done|apply Hle2|..].
  { intros p r Hr%Hin%Htree. destruct Hr as (es & ? & ? & _). by exists es. }
  { intros x Hxh%elem_of_list_to_set. destruct (Hhs x Hxh) as (k & y & Hy & <-). intros z Hz.
    apply live_not_node in Hz as ->; [by apply elem_of_list_to_set|by eapply Hap]. }
  split_and!.
  - intros h Hh. apply Hx. left. by apply elem_of_list_to_set.
  - intros p r x Hr%Hin Hl. apply Hx. right. by exists p, r.
  - intros x [Hxh%elem_of_list_to_set|(p & r & Hr%Hin & Hl)]%Hx; [right; by apply Hhs|].
    destruct (Htree p r Hr) as (es & Hrep & _ & Hes).
    assert (rep (blobs w') [] r es) as Hrep' by (eapply rep_mono, Hrep; apply Hle).
    destruct (live_cases _ _ _ _ _ Hrep' Hl) as [?|He]; [by left|right].
    apply list_elem_of_fmap in He as (e & -> & He). by apply Hes.
Qed.

(** The map of roots: the local ones, and those of the document for the
    partitions without. *)
Lemma gathered_roots locals (roots : gmap N Hash) n t C ents :
  (∀ p h, (p, h) ∈ locals ↔ local_root t p = Some h) →
  (∀ p r, roots !! p = Some r ↔ root_map locals !! p = Some r ∨
    root_map locals !! p = None ∧ p ∈ N.of_nat <$> seq 0 (N.to_nat n) ∧ doc_root C ents p r) →
  ∀ p r, roots !! p = Some r ↔
    local_root t p = Some r ∨ local_root t p = None ∧ (p < n)%N ∧ doc_root C ents p r.
Proof.
  intros Hl Hr p r. rewrite Hr, (root_map_lookup locals (local_root t)) by done.
  assert (p ∈ N.of_nat <$> seq 0 (N.to_nat n) ↔ (p < n)%N) as ->; [|done].
  rewrite list_elem_of_fmap. setoid_rewrite elem_of_seq. split; [intros (i & -> & ?); lia|].
  intros ?. exists (N.to_nat p). lia.
Qed.

Lemma collect_live_ok sources w alive w' :
  collect_live hash_order fuel sources w = (Ok alive, w') → gc_step D t0 w w' ∧
  (Forall D (wlog w') → winv D t0 w → 32 ≤ fuel → (∀ m, hash_order m ≡ₚ map_to_list m) →
   (gc_top_level_partitions sources < 2 ^ 32)%N → values_apart w' →
   protected (gc_top_level_partitions sources) w w' alive).
Proof.
  unfold collect_live. intros (hs & w1 & R1 & Hr)%io_bind_ok.
  apply io_bind_ok in Hr as (locals & w2 & R2 & Hr). apply io_bind_ok in Hr as (roots & w3 & R3 & Hr).
  apply io_bind_ok in Hr as (out & w4 & R4 & Hr). apply io_bind_ok in Hr as (iroot & w5 & R5 & Hr).
  apply io_bind_ok in Hr as (out2 & w6 & R6 & Hr). apply io_bind_ok in Hr as (ents & w7 & R7 & Hr).
  injection Hr as <- <-. set (n := gc_top_level_partitions sources) in *.
  destruct (on_index_read D t0 _ _ _ _ (λ ix r ix' E, proj1 (all_content_hashes_ok _ _ _ E)) R1)
    as (S1 & ix1 & ix1' & Q1 & T1).
  destruct (on_index_read D t0 _ _ _ _ (λ ix r ix' E, proj1 (all_local_roots_ok _ _ _ E)) R2)
    as (S2 & ix2 & ix2' & Q2 & T2).
  destruct (fill_roots_ok _ _ _ _ _ (blobs w7) R3) as [S3 F3].
  destruct (walk_roots_ok _ _ _ _ _ (blobs w7) R4) as [S4 _].
  destruct (on_node_read D t0 _ _ _ _ (read_get_named_root _) R5) as (S5 & n5 & n5' & Q5 & _ & N5 & H5).
  change (iscc_part iroot out w5 = (Ok out2, w6)) in R6.
  destruct (iscc_part_ok _ _ _ _ _ R6) as (S6 & G6 & H6).
  destruct (on_node_read D t0 _ _ _ _ read_entry_hashes R7) as (S7 & n7 & n7' & Q7 & _ & _ & H7).
  assert (gc_step D t0 w6 w7) as C6 by done.
  assert (gc_step D t0 w5 w7) as C5 by (etrans; [exact S6|done]).
  assert (gc_step D t0 w4 w7) as C4 by (etrans; [exact S5|done]).
  assert (gc_step D t0 w3 w7) as C3 by (etrans; [exact S4|done]).
  assert (gc_step D t0 w2 w7) as C2 by (etrans; [exact S3|done]).
  assert (gc_step D t0 w1 w7) as C1 by (etrans; [exact S2|done]).
  split; [by etrans|]. intros HD Hw Hf Hord Hn Hap.
  destruct (gc_chain _ _ _ S1 C1 HD Hw) as (D1 & W1 & L1 & M1).
  destruct (gc_chain _ _ _ S2 C2 HD W1) as (D2 & W2 & L2 & M2).
  destruct (gc_chain _ _ _ S3 C3 HD W2) as (D3 & W3 & L3 & M3).
  destruct (gc_chain _ _ _ S4 C4 HD W3) as (D4 & W4 & L4 & M4).
  destruct (gc_chain _ _ _ S5 C5 HD W4) as (D5 & W5 & L5 & M5).
  destruct (gc_chain _ _ _ S6 C6 HD W5) as (D6 & W6 & L6 & M6).
  destruct (all_content_hashes_ok _ _ _ Q1) as [_ Hhs]. rewrite T1 in Hhs.
  specialize (Hhs (pi_index _ _ _ (proj1 W1)) hs eq_refl).
  destruct (all_local_roots_ok _ _ _ Q2) as [_ [?|(l & [= <-] & Hl)]]; [done|]. rewrite T2 in Hl.
  assert (∀ p, local_root (tables w7) p = local_root (tables w2) p) as Hloc2
    by (intros p; unfold local_root; by rewrite (el_roots _ _ M2)).
  pose proof (gathered_roots locals roots n (tables w2) (blobs w7) (entries w7) Hl) as Hroots.
  setoid_rewrite <-Hloc2 in Hroots. rewrite (el_doc _ _ M3) in Hroots.
  specialize (Hroots (F3 D3 W2 (el_blobs _ _ M3))). rewrite <-(el_doc _ _ M3) in Hroots.
  assert (∀ p r, roots !! p = Some r → (p < 2 ^ 32)%N ∧ gc_root w3 p r) as Hgr.
  { intros p r Hpr. apply Hroots in Hpr.
    assert ((p < 2 ^ 32)%N ∧ gc_root w7 p r) as [Hp Hg].
    { destruct Hpr as [Hlr|(? & ? & ?)]; [|split; [lia|by right]]. split; [|by left].
      rewrite Hloc2 in Hlr. by apply (pi_local _ _ _ (proj1 W2)) in Hlr as [? _]. }
    split; [done|]. exact (gc_root_env w3 w7 p r W3 Hp M3 Hg). }
  destruct (trees_part hs roots out w3 w4 w7 _ R4 C4 HD W3 eq_refl Hf Hord Hap) as (Ph & Pt & Pn); [|done|].
  { intros h (k & x & Hk & Hx)%Hhs. exists k, x. split; [|done]. eapply lookup_weaken; [exact Hk|apply M1]. }
  split.
  - intros k x Hk. apply elem_of_union_r, G6, Ph, Hhs. exists k, x. split; [|done].
    eapply lookup_weaken; [exact Hk|apply L1].
  - intros k h Hk. apply elem_of_union_l, elem_of_list_to_set.
    destruct (H7 HD W6) as (_ & _ & He). eapply entry_content_hashes_ok; [exact Q7|]. rewrite He. exact Hk.
  - intros p r es Hp Hg Hrep. assert (roots !! p = Some r) as Hpr.
    { apply Hroots. destruct Hg as [?|[Hno ?]]; [by left|right]. split_and!; [done| |done].
      destruct Hp as [?|[? Hs]]; [done|congruence]. }
    unfold rep_root in *. simpl in *. split.
    + apply rep_sweep; [done|]. intros x Hx. apply elem_of_union_r, G6. by eapply Pt.
    + intros e He. apply elem_of_union_r, G6. eapply Pt; [done|]. by eapply rep_contents_live.
  - intros r P (h & Hh & Hb) Hidx Hne Hnn.
    destruct (H5 D5 W4) as (Hl5 & Hc5 & He5). apply get_named_root_ok in Q5. rewrite He5 in Q5.
    assert (env_le w w5) as Lw by (etrans; [exact L1|etrans; [exact L2|etrans; [exact L3|by etrans]]]).
    rewrite (el_doc _ _ Lw), Hh in Q5. destruct Q5 as (r' & -> & Hb').
    assert (r' = r) as ->.
    { rewrite N5 in Hb'. change (contents (w_node w5).1) with (blobs w5) in Hb'.
      pose proof (lookup_weaken _ _ _ _ Hb (el_blobs _ _ Lw)). destruct r as [r], r' as [r']. simpl in *.
      f_equal. apply b32_ext. congruence. }
    assert (index_rep (blobs w5) (Some r) P) as Hidx5 by (eapply index_rep_mono; [apply Lw|done]).
    assert (r ∉ out) as Hro.
    { intros Hro. destruct (Pn r Hro) as [?|(k & y & Hk & Hy)]; [done|by eapply Hne]. }
    eapply (index_rep_keep (blobs w7)); [eapply index_rep_mono; [apply M5|done]|].
    intros x Hx. apply sweep_eq, elem_of_union_r. eapply (H6 D6 W5); [done|done|exact Hidx5|].
    eapply iscc_live_det; [exact Hidx5|apply M5|done].
Qed.

(** On every outcome the walk is a sequence of reads. *)
Lemma collect_live_steps sources : steps_in (gc_step D t0) (collect_live hash_order fuel sources).
Proof.
  assert (∀ A (m : io RecordIndex anyhow A), (∀ ix r ix', m ix = (r, ix') → db ix' = db ix) →
    steps_in (gc_step D t0) (on_index (St:=Traced St) (Dc:=Dc) m)) as Hix.
  { intros A m Hm w r w' Hr. by apply (on_index_read D t0 m w r w'). }
  assert (∀ A (m : io (Traced St * Dc) anyhow A), steps_in node_read m →
    steps_in (gc_step D t0) (on_node m)) as Hnd.
  { intros A m Hm w r w' Hr. by apply (on_node_read D t0 m w r w'). }
  unfold collect_live, fill_root, walk_partition. steps.
  - apply Hix. intros ix r ix' E. apply (all_content_hashes_ok _ _ _ E).
  - apply Hix. intros ix r ix' E. apply (all_local_roots_ok _ _ _ E).
  - apply Hnd, read_get_named_root.
  - apply Hnd, node_read_fst, read_keep_partial, read_collect_reachable.
  - apply Hnd, read_get_named_root.
  - apply Hnd, node_read_fst, read_keep_partial, read_iscc_collect.
  - apply Hnd, read_entry_hashes.
Qed.

Lemma protected_mono n w w' alive alive' :
  alive ⊆ alive' → protected n w w' alive → protected n w w' alive'.
Proof.
  intros Hs [Hv Hd Ht Hi]. assert (sweep (blobs w') alive ⊆ sweep (blobs w') alive') as Hsw.
  { apply map_subseteq_spec. intros h b [Hb Hh]%map_lookup_filter_Some. apply sweep_lookup; [done|by apply Hs]. }
  split.
  - intros k x Hk. by eapply Hs, Hv.
  - intros k h Hk. by eapply Hs, Hd.
  - intros p r es Hp Hg Hrep. destruct (Ht p r es Hp Hg Hrep) as [Hr He].
    split; [by eapply rep_mono|]. intros e Hin. by apply Hs, He.
  - intros r P Hr Hx Hne Hnn. eapply index_rep_mono; [exact Hsw|by eapply Hi].
Qed.

End spec.

(** ** Concrete runs *)

Section witnesses.
#[local] Existing Instances sample_blake3 sample_sha256 sample_leaf_codec sample_leaf_laws
  sample_record_codec sample_record_laws sample_directory_codec sample_manifest_codec sample_members_codec
  sample_legacy_codec sample_docs sample_docs_laws'.

Definition is_node_b (C : gmap Hash (list byte)) (h : Hash) : bool :=
  match C !! h with Some bs => is_ok (decode bs h) | None => false end.

Lemma is_node_b_spec C h : is_node_b C h = false → ¬ is_node C h.
Proof. unfold is_node_b. intros Hb (bs & n & Hbs & Hd). by rewrite Hbs, Hd in Hb. Qed.

Abbreviation SampleWorld := (World (Traced MemoryBlobStore) (gmap string Hash)).

Definition values_apart_b (w : SampleWorld) : bool :=
  forallb (λ kx, negb (is_node_b (blobs w) (ir_content_hash kx.2))) (map_to_list (recs (tables w))).

Lemma values_apart_b_spec (w : SampleWorld) : values_apart_b w = true → values_apart w.
Proof.
  intros Hb k x Hk. unfold values_apart_b in Hb. rewrite forallb_forall in Hb.
  apply is_node_b_spec. specialize (Hb (k, x)). rewrite <-list_elem_of_In, elem_of_map_to_list in Hb.
  specialize (Hb Hk). simpl in Hb. by destruct (is_node_b _ _).
Qed.

(** A collection after the sample run of the publisher. *)
Definition sample_gc : ProtectOutcome * gset Hash * SampleWorld :=
  add_protected map_to_list 32 ∅ sample_world_run.2.

Lemma sample_gc_runs : sample_gc.1.1 = ProtectContinue ∧ w_sources sample_world_run.2 = Some (mkGcSources 4).
Proof. vm_compute. by split. Qed.
Lemma sample_gc_cf : CollisionFree (λ b, b ∈ wlog sample_gc.2).
Proof. apply collision_free_of_check. vm_compute. reflexivity. Qed.
Lemma sample_gc_log : wlog sample_gc.2 = wlog sample_world_run.2.
Proof. vm_compute. reflexivity. Qed.
Lemma sample_gc_apart : values_apart sample_gc.2.
Proof. apply values_apart_b_spec. vm_compute. reflexivity. Qed.
Lemma sample_gc_eq : add_protected map_to_list 32 ∅ sample_world_run.2
  = (ProtectContinue, sample_gc.1.2, sample_gc.2).
Proof.
  destruct sample_gc_runs as [Ho _]. change (add_protected _ _ _ _) with sample_gc.
  destruct sample_gc as [[o out] w]. simpl in Ho. by rewrite Ho.
Qed.
#[local] Opaque sample_gc add_protected sample_world_run run.

Lemma sample_gc_start (D : list byte → Prop) `{!CollisionFree D} :
  Forall D (wlog sample_world_run.2) → winv D (tables sample_world) sample_world_run.2.
Proof.
  intros HD. destruct (triple_run D (tables sample_world) sample_publisher 0 [(31%N, false); (62%N, true)]
    ltac:(reflexivity) sample_world sample_world_run.1 sample_world_run.2 sample_run_eq) as [_ Hp].
  assert (winv D (tables sample_world) sample_world) as Hw.
  { apply fresh_registry_ok; [reflexivity|apply sample_store_ok|reflexivity|exact sample_env_ok]. }
  specialize (Hp HD Hw). by destruct sample_world_run.1.
Qed.


(** ** Two ways the protect set comes out short *)

Definition gc_world (roots : gmap N (list byte)) (records : gmap string (list byte))
    (blobs : gmap Hash (list byte)) (docs : gmap string Hash) : SampleWorld :=
  mkWorld (mkRecordIndex (mkTables records ∅ None roots) [])
    (mkTraced (mkMemoryBlobStore blobs) [], docs) 0 (Some (mkGcSources 4)) PublisherStatus_default
    1700000001000000000%Z (λ _, None) [].

Definition swept (w : SampleWorld) : Traced MemoryBlobStore :=
  mkTraced (mkMemoryBlobStore (sweep (blobs w) (add_protected map_to_list 32 ∅ w).1.2)) [].

(** The sample tree, the leaf of its first key lost. *)
Definition damaged_world : SampleWorld :=
  gc_world {[0%N := b32_list (hash_0 sample_root)]} ∅
    (delete (Hash_of (encode (Leaf [sample_entry "pa1" "{1}"]))) (contents sample_after)) ∅.

Definition finds (k : string) (r : result HamtError (option LeafEntry)) : bool :=
  match r with Ok (Some e) => bool_decide (le_key e = k) | _ => false end.


(** A registry with a similarity index, and a record whose value is the JSON
    of the index's directory. *)
Definition index_root : Hash := run_value ZERO sample_index_run.
Definition squatted_world : SampleWorld :=
  gc_world ∅ {["k" := ser (mkIndexRecord index_root 0 0 Pending 0 None None)]}
    (<[Hash_of (b32_list (hash_0 index_root)) := b32_list (hash_0 index_root)]> (contents sample_index_run.2))
    {[ISCC_INDEX_ROOT_KEY := Hash_of (b32_list (hash_0 index_root))]}.

End witnesses.
