(* ===== verification/ApiEnv.v ===== *)
(** The API handlers are the environment the other tasks are proved against.

    The theorems on the publisher and the garbage collector let the other
    tasks store values and claim batches of pending records between any two
    of their steps ([EnvAction]).  Here the handlers are shown to do nothing
    else: what a request leaves behind is what a sequence of such actions
    leaves behind. *)

From S2P Require Import Prelude Hash Partition Record BlobStore Hamt Iscc CidKey Anyhow Index IndexFacts IndexOps PointerDoc PointerDocFacts Daemon Hoare PublisherInv GcFacts Api ApiFacts PublisherSpec CodesSpec ApiSpec Samples.

Section env.
Context `{Blake3} `{Hex} `{Sha256} `{CidCrate} `{Base32} `{SerdeJson} `{Timestamps} `{Texts}.
Context `{!Codec IndexRecord, !CodecLaws IndexRecord index_record_dom}.
Context {St Dc : Type} `{!BlobStore St, !BlobStoreSpec St, !LocalStore St}.
Context `{!IrohDocs (Traced St) Dc, !IrohDocsLaws (Traced St) Dc}.
Context (state : AppState).
Implicit Types w : World (Traced St) Dc.

(** The shared state: the index and the node. *)
Definition shared w : RecordIndex * (Traced St * Dc) := (w_index w, w_node w).

Lemma env_action_shared w1 w2 a : shared w1 = shared w2 → shared (env_action w1 a) = shared (env_action w2 a).
Proof. unfold shared. intros [= Hi Hn]. destruct a; cbn; by rewrite Hi, Hn. Qed.

Lemma env_actions_shared acts w1 w2 : shared w1 = shared w2 →
  shared (foldl env_action w1 acts) = shared (foldl env_action w2 acts).
Proof.
  revert w1 w2. induction acts as [|a acts IH]; intros w1 w2 Hs; [done|]. by apply IH, env_action_shared.
Qed.

(** Without other tasks a call runs on the state as it is. *)
Lemma quiet_on_index {A} (m : io RecordIndex anyhow A) w r w' :
  w_env w = [] → on_index m w = (r, w') → ∃ ix', m (w_index w) = (r, ix') ∧ w' = with_index ix' w.
Proof.
  unfold on_index, interfere. intros ->. destruct (m (w_index w)) as [r1 ix']. intros [= <- <-]. eauto.
Qed.

Lemma quiet_on_node {A} (m : io (Traced St * Dc) anyhow A) w r w' :
  w_env w = [] → on_node m w = (r, w') → ∃ n', m (w_node w) = (r, n') ∧ w' = with_node n' w.
Proof.
  unfold on_node, interfere. intros ->. destruct (m (w_node w)) as [r1 n']. intros [= <- <-]. eauto.
Qed.

(** Storing a value is the action [EnvPut], whether it succeeds or not. *)
Lemma quiet_store_value v w r w' :
  w_env w = [] → store_value v w = (r, w') → w' = env_action w (EnvPut (str_bytes v)).
Proof.
  intros He Hr. unfold store_value, io_map_err at 1 in Hr. destruct (on_node _ w) as [r1 w1] eqn:En.
  apply (quiet_on_node _ _ _ _ He) in En as (n' & Hn & ->). injection Hr as _ <-.
  destruct (w_node w) as [s d] eqn:Ew. apply on_fst_run in Hn as (s' & Hp & ->).
  unfold io_map_err in Hp. cbn [env_action]. rewrite Ew. cbn [fst snd]. destruct (put (str_bytes v) s) as [[h|e] s1].
  - by injection Hp as _ <-.
  - by injection Hp as _ <-.
Qed.

(** A claim is the action [EnvSubmit]. *)
Lemma quiet_submit_many subs w r w' :
  w_env w = [] → on_index (submit_many subs) w = (r, w') → w' = env_action w (EnvSubmit subs).
Proof.
  intros He Hr. apply (quiet_on_index _ _ _ _ He) in Hr as (ix' & Hr & ->). cbn. by rewrite Hr.
Qed.

Lemma quiet_submit key rec w r w' :
  w_env w = [] → on_index (submit key rec) w = (r, w') → w' = env_action w (EnvSubmit [(key, rec)]).
Proof.
  intros He Hr. unfold submit in Hr. rewrite on_index_lift in Hr. unfold mbind, io_bind in Hr.
  destruct (on_index (submit_many [(key, rec)]) w) as [[os|e] w1] eqn:En;
    apply (quiet_submit_many _ _ _ _ He) in En as ->; by injection Hr as _ <-.
Qed.

(** What a run did to the shared state: [acts], on an index that fails as
    [faults] says. *)
Definition did w acts w' : Prop :=
  ∃ faults, let w1 := foldl env_action (with_index (mkRecordIndex (db (w_index w)) faults) w) acts in
    tables w' = tables w1 ∧ node_read (w_node w1) (w_node w').

Lemma did_shared w acts w' : shared w' = shared (foldl env_action w acts) → did w acts w'.
Proof.
  unfold shared. intros [= Hi Hn]. exists (db_faults (w_index w)).
  assert (with_index (mkRecordIndex (db (w_index w)) (db_faults (w_index w))) w = w) as -> by by destruct w as [[] ?].
  unfold tables. rewrite Hi, Hn. by split.
Qed.

Lemma ingest_did key value w r w' : w_env w = [] → state_ok state →
  ingest_one state key value w = (r, w') →
  ∃ acts, Forall action_ok acts ∧ env_len acts ≤ 1 ∧ did w acts w'.
Proof.
  intros He Hst Hr. rewrite ingest_one_checked in Hr. unfold with_write_guard in Hr.
  set (w0 := with_active (S (w_active_writes w)) w) in *.
  destruct ((now ← read_world w_now; ingest_checked state now key value) w0) as [r1 w1] eqn:Em.
  injection Hr as <- <-. assert (w_env w0 = []) as He0 by done.
  assert (∀ acts, shared w1 = shared (foldl env_action w0 acts) →
    did w acts (with_active (w_active_writes w1 - 1) w1)) as Hdid.
  { intros acts Hs. apply did_shared. transitivity (shared w1); [done|]. rewrite Hs. by apply env_actions_shared. }
  unfold mbind, io_bind, read_world in Em. unfold ingest_checked in Em.
  destruct (validate_one state (w_now w0) key value) as [[v rec]|e] eqn:Hv.
  2: { injection Em as _ <-. exists []. split_and!; [done|unfold env_len; simpl; lia|by apply Hdid]. }
  destruct (validate_one_ok _ _ _ _ _ _ Hst Hv) as (_ & _ & _ & Hd & Hp & _ & _).
  unfold mbind, io_bind, internal, io_map_err in Em.
  destruct (store_value v w0) as [[h|e] w2] eqn:Es; apply (quiet_store_value _ _ _ _ He0) in Es as ->.
  2: { injection Em as _ <-. exists [EnvPut (str_bytes v)]. split_and!; [by constructor|unfold env_len; simpl; lia|by apply Hdid]. }
  destruct (on_index (submit key rec) _) as [r2 w3] eqn:Ei.
  assert (w1 = w3) as -> by (destruct r2; by injection Em).
  apply quiet_submit in Ei; [|done]. subst w3.
  exists [EnvPut (str_bytes v); EnvSubmit [(key, rec)]]. split_and!; [|done|by apply Hdid].
  apply Forall_cons_2; [done|]. apply Forall_singleton. by apply Forall_singleton.
Qed.

(** The precheck of a batch stores values and nothing else. *)
Lemma quiet_prechecks cs acc w r w' : w_env w = [] → io_fold precheck_one acc cs w = (r, w') →
  ∃ vs acc', r = Ok acc' ∧ w' = foldl env_action w (EnvPut <$> vs) ∧
    length acc'.2 ≤ length acc.2 + length cs ∧
    ∀ p, p ∈ acc'.2 → p ∈ acc.2 ∨ ∃ c, c ∈ cs ∧ p = (c.1.1.1.1, c.1.1.1.2, c.1.2).
Proof.
  revert acc w. induction cs as [|[[[[i key] v] rec] known] cs IH]; intros [results prepared] w He Hr.
  { injection Hr as <- <-. exists [], (results, prepared). split_and!; [done|done|simpl; lia|by left]. }
  cbn [io_fold] in Hr.
  destruct (precheck_one (results, prepared) ((i, key, v, rec), known) w) as [r1 w1] eqn:E1.
  assert (∃ vs acc1, r1 = Ok acc1 ∧ w1 = foldl env_action w (EnvPut <$> vs) ∧
    (acc1.2 = prepared ∨ acc1.2 = prepared ++ [(i, key, rec)])) as (vs & acc1 & -> & -> & Hacc).
  { clear Hr IH. simpl in E1. destruct known as [prior|].
    - destruct (decide _); injection E1 as <- <-; (eexists [], _; split_and!; [done|done|by left]).
    - unfold mbind, io_bind, io_try in E1. destruct (store_value v w) as [[h|e] w2] eqn:Es;
        apply (quiet_store_value _ _ _ _ He) in Es as ->; injection E1 as <- <-;
        (eexists [str_bytes v], _; split_and!; [done|done|]); [by right|by left]. }
  assert (w_env (foldl env_action w (EnvPut <$> vs)) = []) as He1.
  { clear -He. revert w He. induction vs as [|v vs IH]; intros w He; [done|]. by apply IH. }
  rewrite (io_bind_run _ _ _ _ _ E1) in Hr. destruct (IH acc1 _ He1 Hr) as (vs' & acc' & -> & -> & Hlen & Hin).
  exists (vs ++ vs'), acc'. split_and!; [done|by rewrite fmap_app, foldl_app| |].
  - simpl in *. destruct Hacc as [Ha|Ha]; rewrite Ha, ?length_app in Hlen; simpl in Hlen; lia.
  - intros p [Hp|(c & Hc & ->)]%Hin; [|right; exists c; split; [by right|done]].
    destruct Hacc as [Ha|Ha]; rewrite Ha in Hp; [by left|].
    apply elem_of_app in Hp as [?|Hp%list_elem_of_singleton]; [by left|right]. subst p.
    exists ((i, key, v, rec), known). split; [by left|done].
Qed.

(** The same, the index having been read in between. *)
Lemma did_index w w0 ix acts w' :
  w_node w0 = w_node w → db ix = db (w_index w) →
  shared w' = shared (foldl env_action (with_index ix w0) acts) → did w acts w'.
Proof.
  intros Hn Hdb Hs. exists (db_faults ix).
  assert (shared (with_index ix w0) = shared (with_index (mkRecordIndex (db (w_index w)) (db_faults ix)) w)) as Hw.
  { unfold shared. simpl. rewrite Hn, <-Hdb. by destruct ix. }
  apply (env_actions_shared acts) in Hw. rewrite Hw in Hs. unfold shared in Hs. injection Hs as Hi Hn'.
  unfold tables. rewrite Hi, Hn'. by split.
Qed.

Lemma env_len_puts vs subs : env_len ((EnvPut <$> vs) ++ [EnvSubmit subs]) = length subs.
Proof.
  unfold env_len. rewrite fmap_app, sum_list_app. simpl. rewrite Nat.add_0_r.
  induction vs as [|v vs IH]; [done|]. exact IH.
Qed.

Lemma batch_did records w r w' : w_env w = [] → state_ok state →
  submit_batch state records w = (r, w') →
  ∃ acts, Forall action_ok acts ∧ env_len acts ≤ length records ∧ did w acts w'.
Proof.
  intros He Hst Hr.
  destruct (N.le_gt_cases (N.of_nat (length records)) (batch_max_records state)) as [Hle|Hgt].
  2: { unfold submit_batch in Hr. rewrite (proj2 (N.ltb_lt _ _)) in Hr by done. injection Hr as _ <-.
       exists []. split_and!; [done|unfold env_len; simpl; lia|by apply did_shared]. }
  rewrite submit_batch_run in Hr by done. unfold with_write_guard in Hr.
  set (w0 := with_active (S (w_active_writes w)) w) in *.
  destruct (batch_body state (w_now w) records w0) as [r1 w1] eqn:Em. injection Hr as <- <-.
  unfold batch_body in Em. pose proof (validate_batch_ok state (w_now w) records 0) as Hvb.
  destruct (validate_batch state (w_now w) 0 records) as [results cands]. destruct Hvb as (_ & _ & Hc & Hlen).
  unfold mbind at 1, io_bind at 1, internal, io_map_err in Em.
  destruct (on_index (get_many _) w0) as [r2 w2] eqn:Eg.
  apply quiet_on_index in Eg as (ix & Hg & ->); [|done]. apply read_txn_cases in Hg as [Hdb _].
  change (w_index w0) with (w_index w) in Hdb. destruct r2 as [existing|e]; simpl in Em.
  2: { injection Em as _ <-. exists []. split_and!; [done|unfold env_len; simpl; lia|].
       by apply (did_index w w0 ix). }
  unfold mbind at 1, io_bind at 1 in Em.
  destruct (io_fold precheck_one (results, []) (zip cands existing) _) as [r3 w3] eqn:Ef.
  apply quiet_prechecks in Ef as (vs & [results' prepared] & -> & -> & Hlp & Hin); [|done].
  assert (w_env (foldl env_action (with_index ix w0) (EnvPut <$> vs)) = []) as He3.
  { generalize (with_index ix w0) (eq_refl : w_env (with_index ix w0) = w_env w). rewrite He. clear.
    induction vs as [|v vs IH]; intros w He; [done|]. by apply IH. }
  unfold mbind, io_bind in Em.
  destruct (on_index (submit_many _) _) as [r4 w4] eqn:Es. apply quiet_submit_many in Es; [|done].
  assert (w1 = w4) as -> by (destruct r4; by injection Em). subst w4.
  set (subs := (λ p : nat * string * IndexRecord, (p.1.2, p.2)) <$> prepared).
  exists ((EnvPut <$> vs) ++ [EnvSubmit subs]). split_and!.
  - apply Forall_app. split; [apply Forall_fmap; by apply Forall_true|]. apply Forall_singleton.
    apply Forall_fmap, Forall_forall. intros p Hp. destruct (Hin p Hp) as [Hx|([c known] & Hx & ->)];
      [by apply elem_of_nil in Hx|]. apply elem_of_lookup_zip_with in Hx as (k & c' & o & [= <- <-] & Hk & _).
    apply list_elem_of_lookup_2 in Hk. destruct (Hc c Hk) as (j & r & _ & _ & _ & Hv).
    by apply validate_one_ok in Hv as (_ & _ & _ & ? & ? & _).
  - rewrite env_len_puts. unfold subs. rewrite length_fmap. simpl in Hlp.
    rewrite length_zip in Hlp. unfold candidate in *. lia.
  - apply (did_index w w0 ix); [done|done|]. rewrite foldl_app. done.
Qed.

(** An index call that only reads. *)
Lemma quiet_index_read {A} (m : io RecordIndex anyhow A) w r w' :
  w_env w = [] → (∀ ix r ix', m ix = (r, ix') → db ix' = db ix) → on_index m w = (r, w') →
  tables w' = tables w ∧ w_node w' = w_node w ∧ w_env w' = [].
Proof.
  intros He Hm Hr. apply (quiet_on_index _ _ _ _ He) in Hr as (ix' & Hr & ->).
  split_and!; [exact (Hm _ _ _ Hr)|done|done].
Qed.

Lemma read_did w w' : tables w' = tables w → node_read (w_node w) (w_node w') → did w [] w'.
Proof. intros Ht Hn. exists []. by split. Qed.

Lemma get_record_did key w r w' : w_env w = [] → get_record key w = (r, w') → did w [] w'.
Proof.
  intros He Hr. unfold get_record in Hr. unfold mbind at 1, io_bind at 1, internal, io_map_err in Hr.
  destruct (on_index (RecordIndex_get key) w) as [r1 w1] eqn:Eg.
  apply (quiet_index_read _ _ _ _ He) in Eg as (Ht & Hn & He1).
  2: { intros ix r2 ix' E. by apply read_txn_cases in E as [? _]. }
  destruct r1 as [[record|]|e]; simpl in Hr;
    [|injection Hr as _ <-; apply read_did; [done|by rewrite Hn]..].
  unfold mbind, io_bind, io_try in Hr. destruct (on_node _ w1) as [r2 w2] eqn:E2.
  apply (quiet_on_node _ _ _ _ He1) in E2 as (n' & Hg & ->). injection Hr as _ <-.
  apply read_did; [done|]. simpl. rewrite <-Hn. by apply (read_on_fst_get _ _ _ _ _ Hg).
Qed.

Lemma health_did w r w' : w_env w = [] → health state w = (r, w') → did w [] w'.
Proof.
  intros He Hr. unfold health in Hr. unfold mbind at 1, io_bind at 1, io_try in Hr.
  destruct (on_index _ w) as [r1 w1] eqn:Eg. apply (quiet_index_read _ _ _ _ He) in Eg as (Ht & Hn & _).
  - destruct r1 as [[? ?]|]; injection Hr as _ <-; (apply read_did; [done|by rewrite Hn]).
  - intros ix r2 ix' E. revert E. set (R := λ a b : RecordIndex, db b = db a). change (R ix ix') with (R ix ix').
    assert (PreOrder R) by (split; [by intros x|intros x y z; unfold R; congruence]).
    intros E. apply (steps_in_bind R) in E; [exact E| |].
    + intros a r3 b E3. by apply read_txn_cases in E3 as [? _].
    + intros d. apply steps_in_bind; [done| |intros t; by apply steps_in_ret].
      intros a r3 b E3. by apply read_txn_cases in E3 as [? _].
Qed.

Definition request_size (req : Request) : nat :=
  match req with PostRecord _ => 1 | PostBatch records => length records | _ => 0 end.

(** C24: The handlers are the environment.  Whatever a request answers, what
    it leaves in the index and the node is what a sequence of [EnvAction]s
    leaves there (up to which later transactions fail), each storing a value
    or claiming well-formed pending records, no more of them than the
    request has; a read leaves both alone.  So the theorems on the publisher
    and the collector hold next to these handlers. *)
Theorem handlers_are_env authorization req w response w' :
  router state authorization req w = (response, w') → w_env w = [] → state_ok state →
  ∃ acts, Forall action_ok acts ∧ env_len acts ≤ request_size req ∧ did w acts w'.
Proof.
  intros Hr He Hst. unfold router in Hr. destruct (route state authorization req w) as [r w1] eqn:E.
  assert (w1 = w') as -> by (destruct r; by injection Hr). clear Hr.
  assert (did w [] w → w' = w → ∃ acts, Forall action_ok acts ∧ env_len acts ≤ request_size req ∧ did w acts w') as Hno.
  { intros Hd ->. exists []. split_and!; [done|unfold env_len; simpl; lia|done]. }
  assert (did w [] w) as Hid by by apply did_shared.
  assert (did w [] w' → ∃ acts, Forall action_ok acts ∧ env_len acts ≤ request_size req ∧ did w acts w') as Hrd.
  { intros Hd. exists []. split_and!; [done|unfold env_len; simpl; lia|done]. }
  destruct req as [req|records|key| |]; simpl in E.
  - unfold require_api_token in E. destruct (_ ≫= _) as [t|]; [|by injection E as _ <-; apply Hno].
    destruct (decide _); [|by injection E as _ <-; apply Hno].
    unfold submit_record, mbind, io_bind in E. destruct (ingest_one state _ _ w) as [r1 w1] eqn:Ei.
    apply ingest_did in Ei as Hx; [|done|done].
    assert (w1 = w') as -> by (destruct r1 as [[[] p]|]; by injection E). exact Hx.
  - unfold require_api_token in E. destruct (_ ≫= _) as [t|]; [|by injection E as _ <-; apply Hno].
    destruct (decide _); [|by injection E as _ <-; apply Hno]. by eapply batch_did.
  - apply Hrd. by eapply get_record_did.
  - apply Hrd. by eapply health_did.
  - injection E as _ <-. by apply Hno.
Qed.

(** C25: The write endpoints need a token.  A request to store records whose
    [Authorization] header is not [Bearer] and one of the configured tokens
    is answered with status 401 and changes nothing at all; with such a
    header it is handled. *)
Theorem writes_need_token authorization req w :
  match req with PostRecord _ | PostBatch _ => True | _ => False end →
  ((∀ t, authorization = Some ("Bearer " +:+ t)%stdpp → t ∉ api_tokens state) →
     router state authorization req w = (ApiError_into_response Unauthorized, w)) ∧
  (∀ t, authorization = Some ("Bearer " +:+ t)%stdpp → t ∈ api_tokens state →
     route state authorization req w = match req with
       | PostRecord r => submit_record state r w
       | PostBatch rs => submit_batch state rs w
       | _ => (Err Unauthorized, w) end).
Proof.
  intros Hreq. split.
  - intros Hno. assert (∀ next, require_api_token (St:=Traced St) (Dc:=Dc) state authorization next = io_err Unauthorized) as Hu.
    { intros next. unfold require_api_token. destruct authorization as [h|]; [|done]. cbn [mbind option_bind].
      destruct (strip_prefix "Bearer " h) as [t|] eqn:Ep; [|done]. apply strip_prefix_Some in Ep as ->.
      by rewrite decide_False by by apply Hno. }
    unfold router. destruct req; try done; simpl; by rewrite Hu.
  - intros t -> Ht. assert (∀ next, require_api_token (St:=Traced St) (Dc:=Dc) state (Some ("Bearer " +:+ t)%stdpp) next = next) as Hu.
    { intros next. unfold require_api_token. cbn [mbind option_bind]. rewrite strip_prefix_app. by rewrite decide_True. }
    destruct req; try done; cbn [route]; by rewrite Hu.
Qed.
End env.

(** ** Concrete requests *)

Section witnesses.
#[local] Existing Instances sample_blake3 sample_sha256 sample_hex sample_leaf_codec sample_leaf_laws
  sample_record_codec sample_record_laws sample_docs sample_docs_laws' sample_cid sample_base32 sample_json
  sample_timestamps sample_texts.

(** A batch against a sample registry without other tasks. *)
Definition quiet_world : World (Traced MemoryBlobStore) (gmap string Hash) := with_env [] sample_world.
Definition sample_routed : Response * World (Traced MemoryBlobStore) (gmap string Hash) :=
  router sample_state (Some "Bearer token"%string) (PostBatch sample_batch_records) quiet_world.

Lemma sample_routed_status : rs_status sample_routed.1 = 207%N.
Proof. vm_compute. reflexivity. Qed.

Lemma handlers_are_env_witness : rs_status sample_routed.1 = 207%N ∧
  ∃ acts, Forall action_ok acts ∧ env_len acts ≤ 4 ∧ did quiet_world acts sample_routed.2.
Proof.
  split; [exact sample_routed_status|].
  apply (handlers_are_env sample_state (Some "Bearer token"%string) (PostBatch sample_batch_records)
    quiet_world sample_routed.1 sample_routed.2).
  - apply surjective_pairing.
  - reflexivity.
  - exact sample_state_ok.
Defined.

Lemma writes_need_token_witness :
  router sample_state (Some "Bearer guess"%string) (PostRecord sample_request) quiet_world
  = (ApiError_into_response Unauthorized, quiet_world).
Proof.
  apply (writes_need_token sample_state (Some "Bearer guess"%string) (PostRecord sample_request) quiet_world I).
  intros t Ht%(inj Some). apply (f_equal (strip_prefix "Bearer ")) in Ht. rewrite strip_prefix_app in Ht.
  injection Ht as <-. unfold sample_state. cbn [api_tokens]. set_solver.
Defined.
End witnesses.
