(* ===== verification/Offline.v ===== *)
(** The registry while the daemon is stopped: what the offline commands keep,
    and the steps they share.

    [registry_ok] is the part of the publisher's invariant that a command
    may rely on and must keep at every step, whatever fails: the index and
    the store are well formed, and every root readers or the writer can
    reach is a tree that agrees with the index. *)

From stdpp Require Import functions.
From S2P Require Import Prelude Hash Partition Record BlobStore Hamt HamtNodeFacts HamtFacts HamtBuild Anyhow Index IndexFacts IndexOps PointerDoc PointerDocFacts Daemon Files Hoare PublisherInv.

Section offline.
Context `{Blake3} `{Sha256} `{!Codec LeafEntry, !LeafCodecLaws}.
Context `{!Codec IndexRecord, !CodecLaws IndexRecord index_record_dom}.
Context {St Dc : Type} `{!BlobStore St, !BlobStoreSpec St, !LocalStore St}.
Context `{!IrohDocs (Traced St) Dc, !IrohDocsLaws (Traced St) Dc}.
Context (D : list byte → Prop) `{!CollisionFree D}.
Implicit Types w : World (Traced St) Dc.

Record registry_ok w : Prop := {
  ro_quiet : w_env w = [];
  ro_index : index_inv (tables w);
  ro_store : store_ok D (w_node w).1;
  ro_local p r : local_root (tables w) p = Some r →
    (p < 2 ^ 32)%N ∧ tree_ok (blobs w) (tables w) p r;
  ro_doc p h : (p < 2 ^ 32)%N → entries w !! partition_key p = Some h →
    ∃ r, doc_root (blobs w) (entries w) p r ∧ tree_ok (blobs w) (tables w) p r;
}.

Lemma pub_inv_registry t0 w : w_env w = [] → pub_inv D t0 w → registry_ok w.
Proof. intros Hq []. by split. Qed.

(** Records keep their content. *)
Definition keeps_content (t t' : Tables) : Prop :=
  ∀ k x, recs t !! k = Some x → ∃ x', recs t' !! k = Some x' ∧ same_content x x'.

Lemma keeps_sub t t' : recs t ⊆ recs t' → keeps_content t t'.
Proof. intros Hs k x Hk. exists x. split; [by eapply lookup_weaken|reflexivity]. Qed.
Lemma keeps_ext t t' : index_ext t t' → keeps_content t t'.
Proof. intros Hext k x Hk. by apply (ext_recs _ _ Hext). Qed.

Lemma tree_ok_keeps C C' t t' p r :
  C ⊆ C' → keeps_content t t' → tree_ok C t p r → tree_ok C' t' p r.
Proof.
  intros HC Hk (es & Hrep & Hes). exists es. split; [by eapply rep_mono|].
  intros e (x & Hx & Hh & Hp)%Hes. destruct (Hk _ _ Hx) as (x' & Hx' & (Hc & _ & Hpid & _)).
  exists x'. split_and!; [done|congruence..].
Qed.

(** A step that leaves the roots alone. *)
Lemma registry_frame w w' :
  registry_ok w → w_env w' = [] → index_inv (tables w') → store_ok D (w_node w').1 →
  blobs w ⊆ blobs w' → keeps_content (tables w) (tables w') →
  local_root (tables w') = local_root (tables w) → entries w' = entries w →
  registry_ok w'.
Proof.
  intros Hi Hq Hidx Hst HC Hk Hl Hd. split; [done..| |].
  - intros p r. rewrite Hl. intros [? ?]%(ro_local _ Hi). split; [done|by eapply tree_ok_keeps].
  - intros p h Hp. rewrite Hd. intros (r & Hdr & Ht)%(ro_doc _ Hi); [|done].
    exists r. split; [by eapply doc_root_mono|by eapply tree_ok_keeps].
Qed.

Lemma registry_files f w : registry_ok w → registry_ok (with_files f w).
Proof. intros Hw. apply (registry_frame w); try done; [apply Hw..|by apply keeps_sub]. Qed.

Lemma registry_index_same ix' w : db ix' = db (w_index w) → registry_ok w → registry_ok (with_index ix' w).
Proof.
  intros Hdb Hw. apply (registry_frame w); unfold tables; simpl; rewrite ?Hdb; try done; [apply Hw..|by apply keeps_sub].
Qed.

(** ** The calls of a command *)

Lemma foldl_log acts w : wlog w `prefix_of` wlog (foldl env_action w acts).
Proof.
  revert w. induction acts as [|a acts IH]; intros w; [done|]. etrans; [|apply IH].
  by apply (env_action_ok D (tables w)).
Qed.

Lemma triple_index {A} (m : io RecordIndex anyhow A) P Q :
  (∀ w r ix', registry_ok w → P w → m (w_index w) = (r, ix') →
     match r with Ok a => Q a (with_index ix' w) | Err _ => registry_ok (with_index ix' w) end) →
  triple wlog D (λ w, registry_ok w ∧ P w) (on_index m) Q registry_ok.
Proof.
  intros Hm w r w' Hr. unfold on_index in Hr. destruct (m (w_index (interfere w))) as [r1 ix'] eqn:Em.
  injection Hr as <- <-. destruct (w_env w) as [|acts env] eqn:He.
  - assert (interfere w = w) as Hi by (unfold interfere; by rewrite He). rewrite Hi in *. split; [done|].
    intros _ [Hw HP]. by apply Hm.
  - split; [|intros _ [Hw _]; by rewrite (ro_quiet _ Hw) in He].
    unfold interfere. rewrite He. apply (foldl_log acts (with_env env w)).
Qed.

Lemma triple_node {A} (m : io (Traced St * Dc) anyhow A) P Q :
  (∀ n r n', m n = (r, n') → tr_log n.1 `prefix_of` tr_log n'.1) →
  (∀ w r n', registry_ok w → P w → m (w_node w) = (r, n') → Forall D (tr_log n'.1) →
     match r with Ok a => Q a (with_node n' w) | Err _ => registry_ok (with_node n' w) end) →
  triple wlog D (λ w, registry_ok w ∧ P w) (on_node m) Q registry_ok.
Proof.
  intros Hlog Hm w r w' Hr. unfold on_node in Hr. destruct (m (w_node (interfere w))) as [r1 n'] eqn:Em.
  injection Hr as <- <-. pose proof (Hlog _ _ _ Em) as Hp. destruct (w_env w) as [|acts env] eqn:He.
  - assert (interfere w = w) as Hi by (unfold interfere; by rewrite He). rewrite Hi in *. split; [done|].
    intros HD [Hw HP]. by apply Hm.
  - split; [|intros _ [Hw _]; by rewrite (ro_quiet _ Hw) in He].
    etrans; [|exact Hp]. unfold interfere. rewrite He. apply (foldl_log acts (with_env env w)).
Qed.

Lemma triple_now {E} P : triple wlog D P (read_world w_now : io (World (Traced St) Dc) E DateTime) (λ now w, P w ∧ now = w_now w) registry_ok.
Proof. intros w r w' [= <- <-]. by split. Qed.

(** File operations leave the index and the node alone. *)
Lemma triple_read_file path P (X : World (Traced St) Dc → Prop) :
  (∀ w, P w → X w) → triple wlog D P (read_file path) (λ t w, P w ∧ w_files w path = Some t) X.
Proof.
  intros HX w r w' Hr. unfold read_file in Hr. destruct (w_files w path) eqn:E; injection Hr as <- <-;
    (split; [done|]); intros _ HP; [done|by apply HX].
Qed.

Lemma triple_write_file writable path text P (Q : unit → World (Traced St) Dc → Prop) (X : World (Traced St) Dc → Prop) :
  (∀ w, P w → Q tt (with_files (<[path := Some text]> (w_files w)) w)) → (∀ w, P w → X w) →
  triple wlog D P (write_file writable path text) Q X.
Proof.
  intros HQ HX w r w' Hr. unfold write_file in Hr. destruct (writable path); injection Hr as <- <-;
    (split; [done|]); intros _ HP; auto.
Qed.

Lemma triple_append_file writable path text P (Q : unit → World (Traced St) Dc → Prop) (X : World (Traced St) Dc → Prop) :
  (∀ w, P w → Q tt (with_files (<[path := Some (default "" (w_files w path) +:+ text)%stdpp]> (w_files w)) w)) →
  (∀ w, P w → X w) → triple wlog D P (append_file writable path text) Q X.
Proof.
  intros HQ HX w r w' Hr.
  destruct (triple_write_file writable path (default "" (w_files w path) +:+ text)%stdpp (λ w0, P w0 ∧ w0 = w) Q X)
    with (w := w) (r := r) (w' := w') as [Hl Hpost]; [|by intros w0 [? _]; apply HX|exact Hr|].
  - intros w0 [HP ->]. by apply HQ.
  - split; [done|]. intros HD HP. by apply Hpost.
Qed.

(** A call that only writes blobs. *)
Lemma store_step {A} (m : io (Traced St) anyhow A) w r n' :
  steps_in (advances D) m → on_fst m (w_node w) = (r, n') → Forall D (tr_log n'.1) → registry_ok w →
  registry_ok (with_node n' w) ∧ blobs w ⊆ blobs (with_node n' w) ∧ n'.2 = (w_node w).2.
Proof.
  intros Hm Hr HD Hw. destruct (w_node w) as [s d] eqn:En. apply on_fst_run in Hr as (s' & Hr & ->).
  destruct (Hm _ _ _ Hr) as [_ Hadv]. pose proof (ro_store _ Hw) as Hok. rewrite En in Hok.
  destruct (Hadv HD Hok) as [Hok' HC].
  assert (blobs w ⊆ blobs (with_node (s', d) w)) as HC' by (unfold blobs; rewrite En; exact HC).
  split_and!; [|done|done]. apply (registry_frame w); try done; [apply Hw..|by apply keeps_sub|].
  unfold entries. by rewrite En.
Qed.

Lemma store_log {A} (m : io (Traced St) anyhow A) (n n' : Traced St * Dc) r :
  steps_in (advances D) m → on_fst m n = (r, n') → tr_log n.1 `prefix_of` tr_log n'.1.
Proof. intros Hm Hr. destruct n as [s d]. apply on_fst_run in Hr as (s' & Hr & ->). by apply (Hm _ _ _ Hr). Qed.

(** ** A partition's root replaced *)

(** Readers and the writer are at [r]. *)
Definition at_root w (p : N) (r : Hash) : Prop :=
  doc_root (blobs w) (entries w) p r ∧ local_root (tables w) p = Some r.

Lemma entry_apart p q : (p < 2 ^ 32)%N → (q < 2 ^ 32)%N → q ≠ p → partition_key p ≠ partition_key q.
Proof. intros Hp Hq Hne Heq. apply Hne. by apply partition_key_inj. Qed.

Lemma set_doc_step doc w p new r n' :
  set_partition_root doc p new (w_node w) = (r, n') → Forall D (tr_log n'.1) → registry_ok w →
  (p < 2 ^ 32)%N → tree_ok (blobs w) (tables w) p new →
  registry_ok (with_node n' w) ∧ blobs w ⊆ blobs (with_node n' w) ∧
  (∀ q x, q ≠ p → (q < 2 ^ 32)%N → at_root w q x → at_root (with_node n' w) q x) ∧
  (is_ok r → doc_root (blobs (with_node n' w)) (entries (with_node n' w)) p new).
Proof.
  intros Hr HD Hw Hp Htree. destruct (set_named_root_run D _ _ _ _ _ _ Hr) as [[_ Hadv] Hcases].
  destruct (Hadv HD (ro_store _ Hw)) as [Hok HC]. set (w' := with_node n' w).
  assert (blobs w ⊆ blobs w') as HC' by exact HC. destruct Hcases as [[He Hb]|[Hno He]].
  2: { split_and!; [|done| |done].
       - apply (registry_frame w); try done; [apply Hw..|by apply keeps_sub].
       - intros q x _ _ [Hd Hl]. split; [|done]. replace (entries w') with (entries w) by (symmetry; exact He).
         by eapply doc_root_mono. }
  assert (∀ q, q ≠ p → (q < 2 ^ 32)%N → entries w' !! partition_key q = entries w !! partition_key q) as Hne.
  { intros q Hq Hlt. unfold entries, w'. simpl. rewrite He. apply lookup_insert_ne. by apply entry_apart. }
  assert (doc_root (blobs w') (entries w') p new) as Hdoc.
  { eexists. split; [|exact Hb]. unfold entries, w'. simpl. rewrite He. apply lookup_insert_eq. }
  split_and!; [|done| |by intros _].
  - split; [apply Hw|apply Hw|done| |].
    + intros q x [Hq Hl]%(ro_local _ Hw). split; [done|]. eapply tree_ok_keeps; [done|by apply keeps_sub|done].
    + intros q h Hq Hh. destruct (decide (q = p)) as [->|Hqp].
      { exists new. split; [done|]. eapply tree_ok_keeps; [done|by apply keeps_sub|done]. }
      rewrite Hne in Hh by done. destruct (ro_doc _ Hw q h Hq Hh) as (x & (h' & Hh' & Hx) & Ht).
      exists x. split; [|eapply tree_ok_keeps; [done|by apply keeps_sub|done]].
      exists h'. rewrite Hne by done. split; [done|by eapply lookup_weaken].
  - intros q x Hq Hlt [(h & Hh & Hx) Hl]. split; [|done]. exists h. rewrite Hne by done.
    split; [done|by eapply lookup_weaken].
Qed.

Lemma set_local_step_ok w p new r ix' :
  set_local_root p new (w_index w) = (r, ix') → registry_ok w → (p < 2 ^ 32)%N →
  tree_ok (blobs w) (tables w) p new →
  registry_ok (with_index ix' w) ∧ recs (db ix') = recs (tables w) ∧
  (∀ q x, q ≠ p → at_root w q x → at_root (with_index ix' w) q x) ∧
  (is_ok r → local_root (db ix') p = Some new).
Proof.
  intros Hr Hw Hp Htree. destruct (set_local_root_ok _ _ _ _ _ Hr (ro_index _ Hw))
    as [[-> Hdb]|(-> & Hinv & Hext & Hrec & _ & _ & Hl)].
  { unfold tables. rewrite <-Hdb. split_and!; [by apply registry_index_same|done| |done].
    intros q x _ [Hd Hlo]. split; [done|]. unfold tables in *. simpl. by rewrite Hdb. }
  split_and!; [|done| |].
  - split; [apply Hw|done|apply Hw| |].
    + intros q x. unfold tables at 1. simpl. rewrite Hl. case_decide as Hqp.
      * intros [= <-]. subst q. split; [done|]. by eapply tree_ok_keeps; [|apply keeps_ext|].
      * intros [Hq' Hx]%(ro_local _ Hw). split; [done|]. by eapply tree_ok_keeps; [|apply keeps_ext|].
    + intros q h Hq Hh. destruct (ro_doc _ Hw q h Hq Hh) as (x & Hx & Ht). exists x.
      split; [done|]. by eapply tree_ok_keeps; [|apply keeps_ext|].
  - intros q x Hq [Hd Hlo]. split; [done|]. unfold tables. simpl. rewrite Hl. by rewrite decide_False.
  - intros _. rewrite Hl. by rewrite decide_True.
Qed.

(** What a replaced root leaves alone. *)
Record root_moved (p : N) w w' : Prop := {
  rm_recs : recs (tables w') = recs (tables w);
  rm_blobs : blobs w ⊆ blobs w';
  rm_files : w_files w' = w_files w;
  rm_roots q x : q ≠ p → (q < 2 ^ 32)%N → at_root w q x → at_root w' q x;
}.

Lemma triple_set_roots doc p new (P : World (Traced St) Dc → Prop) :
  (p < 2 ^ 32)%N →
  triple wlog D (λ w, registry_ok w ∧ (tree_ok (blobs w) (tables w) p new ∧ P w))
    (_ ← on_node (set_partition_root doc p new); on_index (set_local_root p new))
    (λ _ w', registry_ok w' ∧ at_root w' p new ∧ ∃ w, P w ∧ root_moved p w w') registry_ok.
Proof.
  intros Hp. eapply (triple_bind _ _ _ _ _ (λ _ w', registry_ok w' ∧ (tree_ok (blobs w') (tables w') p new ∧
    doc_root (blobs w') (entries w') p new ∧ ∃ w, P w ∧ tables w' = tables w ∧ root_moved p w w'))).
  - apply triple_node.
    + intros n r n' Hr. by destruct (set_named_root_run D _ _ _ _ _ _ Hr) as [[? _] _].
    + intros w r n' Hw [Ht HP] Hr HD.
      destruct (set_doc_step doc w p new r n' Hr HD Hw Hp Ht) as (Hw' & HC & Hroots & Hdoc).
      destruct r as [[]|e]; [|done]. split_and!; [done| |by apply Hdoc|].
      * eapply tree_ok_keeps; [exact HC|by apply keeps_sub|done].
      * exists w. split_and!; [done|done|]. by split.
  - intros _. apply triple_index. intros w r ix' Hw (Ht & Hdoc & w0 & HP & Htab & Hm) Hr.
    destruct (set_local_step_ok w p new r ix' Hr Hw Hp Ht) as (Hw' & Hrec & Hroots & Hl).
    destruct r as [[]|e]; [|done]. split_and!; [done|split; [done|by apply Hl]|]. exists w0. split; [done|].
    destruct Hm as [Hr0 Hb0 Hf0 Hro0]. split; [|done|done|].
    + unfold tables at 1. simpl. by rewrite Hrec.
    + intros q x Hq Hlt Hx. by apply Hroots, Hro0.
Qed.
End offline.
