(* ===== verification/BulkFacts.v ===== *)
(** What the bulk commands do to the spill files, the index and the trees. *)

From stdpp Require Import functions.
From S2P Require Import Prelude Hash Partition Record BlobStore Hamt HamtNodeFacts HamtFacts HamtInsert HamtBuild Iscc CidKey Anyhow Index IndexFacts IndexOps PointerDoc PointerDocFacts Daemon Files Hoare PublisherInv Publisher Api Config BulkLoad Offline GcFacts.

(** ** Paths of the spill files *)

Lemma padded_name_relative ext p : (p < 2 ^ 32)%N → strip_prefix "/" (dec_padded 3 p +:+ ext)%stdpp = None.
Proof.
  intros Hp. pose proof (parse_u32_padded 3 p Hp) as Hparse.
  destruct (strip_prefix _ _) as [r|] eqn:E; [|done]. apply strip_prefix_Some in E.
  destruct (dec_padded 3 p) as [|a t]; [done|]. injection E as -> _. simpl in Hparse. discriminate.
Qed.

Lemma path_join_inj base n1 n2 :
  strip_prefix "/" n1 = None → strip_prefix "/" n2 = None →
  path_join base n1 = path_join base n2 → n1 = n2.
Proof.
  intros H1 H2. unfold path_join. rewrite H1, H2. rewrite !bool_decide_false by (by intros []).
  destruct (bool_decide _); intros Heq; by repeat apply (inj (String.app _)) in Heq.
Qed.

(** The numbered files of a directory are distinct. *)
Lemma padded_path_inj dir ext p q : (p < 2 ^ 32)%N → (q < 2 ^ 32)%N →
  path_join dir (dec_padded 3 p +:+ ext)%stdpp = path_join dir (dec_padded 3 q +:+ ext)%stdpp → p = q.
Proof.
  intros Hp Hq Heq. apply path_join_inj in Heq; [|by apply padded_name_relative..].
  assert (dec_padded 3 p = dec_padded 3 q) as Hd.
  { apply (f_equal str_bytes) in Heq. rewrite !str_bytes_app in Heq. apply (inj (.++ _)) in Heq.
    by apply (inj str_bytes). }
  pose proof (parse_u32_padded 3 p Hp) as H1. rewrite Hd, parse_u32_padded in H1 by done. congruence.
Qed.

Lemma spill_path_inj dir p q : (p < 2 ^ 32)%N → (q < 2 ^ 32)%N → spill_path dir p = spill_path dir q → p = q.
Proof. apply padded_path_inj. Qed.

(** ** Their contents *)

(** The JSON of an entry is a line of text. *)
Class LeafTextLaws `{!Codec LeafEntry} := {
  leaf_utf8 e : utf8_valid (ser (A:=LeafEntry) e) = true;
  leaf_no_cr e : last (ser (A:=LeafEntry) e) ≠ Some x0d;
}.

Section spill_text.
Context `{!Codec LeafEntry, !LeafCodecLaws, !LeafTextLaws}.

Definition spill_text (es : list LeafEntry) : string := text_of (ser <$> es).

Lemma spill_text_app es es' : spill_text (es ++ es') = (spill_text es +:+ spill_text es')%stdpp.
Proof. unfold spill_text. by rewrite fmap_app, text_of_app. Qed.

Lemma spill_text_one e : spill_text [e] = str_of_bytes (ser e ++ [x0a]).
Proof. unfold spill_text, text_of. simpl. by rewrite app_nil_r. Qed.

Lemma parse_spill_text es : Forall leaf_entry_dom es → parse_spill (reader_lines (spill_text es)) = Ok es.
Proof.
  intros Hdom. unfold reader_lines, spill_text. rewrite lines_text.
  2: { apply Forall_fmap, Forall_true. intros e. split; [apply leaf_no_newline|apply leaf_no_cr]. }
  induction Hdom as [|e es He _ IH]; [done|]. rewrite !fmap_cons. cbn [parse_spill]. rewrite leaf_utf8.
  rewrite decide_False.
  2: { intros Hx. apply (leaf_nonempty e). apply (f_equal str_bytes) in Hx. by rewrite str_bytes_of_bytes in Hx. }
  rewrite str_bytes_of_bytes, de_ser by done. by rewrite IH.
Qed.
End spill_text.

(** ** The batch sizes *)

Lemma RESTAMP_BATCH_N : N.of_nat RESTAMP_BATCH = 10000%N.
Proof. apply N2Nat.id. Qed.
Lemma INGEST_BATCH_N : N.of_nat INGEST_BATCH = 2000%N.
Proof. apply N2Nat.id. Qed.
#[global] Opaque RESTAMP_BATCH INGEST_BATCH.

Section bulk.
Context `{Blake3} `{Hex} `{Sha256} `{CidCrate} `{Base32} `{SerdeJson} `{Timestamps} `{SocketAddrs} `{DumpFormat}.
Context `{!Codec LeafEntry, !LeafCodecLaws, !LeafTextLaws}.
Context `{!Codec IndexRecord, !CodecLaws IndexRecord index_record_dom}.
Context {St Dc : Type} `{!BlobStore St, !BlobStoreSpec St, !LocalStore St}.
Context `{!IrohDocs (Traced St) Dc, !IrohDocsLaws (Traced St) Dc}.
Context (D : list byte → Prop) `{!CollisionFree D}.
Context (writable : string → bool) (cfg : Config) (doc : PointerDoc (Traced St) Dc) (spill_dir : string).
Context (Hparts : (cfg_top_level_partitions cfg < 2 ^ 32)%N).
Implicit Types w : World (Traced St) Dc.
Abbreviation triple := (triple wlog D).
Abbreviation registry_ok := (registry_ok D).

(** The spill files hold [es]. *)
Definition spills w (es : N → list LeafEntry) : Prop :=
  ∀ p, p ∈ partitions cfg → w_files w (spill_path spill_dir p) = Some (spill_text (es p)).

(** An entry of partition [p] that agrees with the index. *)
Definition agrees (t : Tables) (p : N) (e : LeafEntry) : Prop :=
  ∃ x, recs t !! le_key e = Some x ∧ e = leaf_entry x (le_key e) ∧ ir_partition_id x = p.

Lemma agrees_dom t p e : agrees t p e → leaf_entry_dom e.
Proof. intros (x & (Hs & _ & Hc)%recs_dom & -> & _). by split. Qed.

Lemma agrees_recs t t' p e : recs t' = recs t → agrees t p e → agrees t' p e.
Proof. intros Hr (x & Hx & He & Hp). exists x. by rewrite Hr. Qed.

Lemma partitions_elem p : p ∈ partitions cfg ↔ (p < cfg_top_level_partitions cfg)%N.
Proof.
  clear Hparts. unfold partitions. rewrite list_elem_of_fmap. split.
  - intros (i & -> & Hi%elem_of_seq). lia.
  - intros Hp. exists (N.to_nat p). rewrite N2Nat.id. split; [done|]. apply elem_of_seq. lia.
Qed.

Lemma NoDup_partitions : NoDup (partitions cfg).
Proof. apply NoDup_fmap; [apply _|]. apply NoDup_seq. Qed.

Lemma partitions_lt p : p ∈ partitions cfg → (p < 2 ^ 32)%N.
Proof. rewrite partitions_elem. lia. Qed.

(** ** Building the trees *)

(** Readers and the writer are at a tree with the first entry of every key
    of [es]. *)
Definition built w (p : N) (es : list LeafEntry) : Prop :=
  ∃ r es', at_root w p r ∧ rep_root (blobs w) (Some r) es' ∧
    ∀ k, find_key le_key k es' = find_key le_key k es.

Lemma built_agrees w p es es' r :
  rep_root (blobs w) (Some r) es' → (∀ k, find_key le_key k es' = find_key le_key k es) →
  Forall (agrees (tables w) p) es → tree_ok (blobs w) (tables w) p r.
Proof.
  intros Hrep Hf Hag. exists es'. split; [done|]. intros e He.
  pose proof (find_key_elem le_key (le_key e) _ _ (rep_NoDup _ _ _ _ Hrep) He eq_refl) as Hk. rewrite Hf in Hk.
  apply find_key_Some in Hk as [Hin _]. rewrite Forall_forall in Hag.
  destruct (Hag _ Hin) as (x & Hx & He' & Hp). exists x. split_and!; [done| |done]. by rewrite He'.
Qed.

(** What the build goes by: the spill files, the records and the blobs. *)
Definition build_inv (C : gmap Hash (list byte)) (m : gmap string IndexRecord) (es : N → list LeafEntry) (done : list N) w : Prop :=
  recs (tables w) = m ∧ C ⊆ blobs w ∧ spills w es ∧
  (∀ p, p ∈ partitions cfg → Forall (agrees (tables w) p) (es p)) ∧
  ∀ p, p ∈ done → built w p (es p).

Lemma triple_build_partition C m es done p :
  p ∈ partitions cfg → p ∉ done → done ⊆ partitions cfg →
  triple (λ w, registry_ok w ∧ build_inv C m es done w) (build_partition cfg doc spill_dir tt p)
    (λ _ w, registry_ok w ∧ build_inv C m es (done ++ [p]) w) registry_ok.
Proof.
  intros Hp Hnew Hdone. pose proof (partitions_lt p Hp) as Hlt. unfold build_partition.
  eapply triple_bind; [apply triple_read_file; by intros w []|]. intros text. cbv beta.
  eapply (triple_bind _ _ _ _ _ (λ entries w, registry_ok w ∧ (entries = es p ∧ build_inv C m es done w))).
  { apply triple_lift; [|by intros w [[] _]]. intros es1 w Hparse [[Hw Hinv] Htext].
    split_and!; [done| |done]. destruct Hinv as (_ & _ & Hs & Hag & _). rewrite (Hs p Hp) in Htext.
    injection Htext as <-. rewrite parse_spill_text in Hparse; [congruence|].
    eapply Forall_impl; [by apply Hag|]. intros e. apply agrees_dom. }
  intros es1. cbv beta.
  eapply (triple_bind _ _ _ _ _ (λ root w, registry_ok w ∧ (tree_ok (blobs w) (tables w) p root ∧ (build_inv C m es done w ∧
    ∃ es', rep_root (blobs w) (Some root) es' ∧ ∀ k, find_key le_key k es' = find_key le_key k (es p))))).
  { apply (triple_node D).
    - intros n r n'. apply (store_log D). steps.
    - intros w r n' Hw [-> Hinv] Hr HD.
      destruct (store_step D _ w r n' ltac:(steps) Hr HD Hw) as (Hw' & HCn & Hd).
      destruct r as [root|e]; [|done]. destruct Hinv as (Hm & HC & Hs & Hag & Hb).
      assert (∃ es', rep_root (blobs (with_node n' w)) (Some root) es' ∧ ∀ k, find_key le_key k es' = find_key le_key k (es p))
        as (es' & Hrep & Hf).
      { destruct (w_node w) as [s d] eqn:En. apply on_fst_run in Hr as (s' & Hr & ->). apply io_map_err_ok in Hr.
        pose proof (ro_store _ _ Hw) as Hok. rewrite En in Hok.
        assert (Forall leaf_entry_dom (es p)) as Hdom.
        { eapply Forall_impl; [by apply Hag|]. intros e. apply agrees_dom. }
        destruct (build_from_entries_rep D _ _ _ _ _ Hr Hdom Hok HD) as (es' & Hrep & Hperm).
        exists es'. split; [done|]. intros k. rewrite (find_key_perm _ _ _ _ (rep_NoDup _ _ _ _ Hrep) Hperm).
        apply dedup_first_find. }
      split_and!; [done|by eapply built_agrees; [..|apply Hag]| |by exists es'].
      split_and!; [done|by etrans|done|done|]. intros q Hq. destruct (Hb q Hq) as (x & ex & Hx & Hrx & Hfx).
      exists x, ex. split_and!; [|by eapply rep_mono|done]. destruct Hx as [Hdx Hlx]. split; [|done].
      replace (entries (with_node n' w)) with (entries w) by (unfold entries; simpl; by rewrite Hd).
      by eapply doc_root_mono. }
  intros root. cbv beta. eapply triple_conseq; [by apply (triple_set_roots D doc p root (λ w, build_inv C m es done w ∧
    ∃ es', rep_root (blobs w) (Some root) es' ∧ ∀ k, find_key le_key k es' = find_key le_key k (es p)))|intros w Hw; exact Hw| |by intros w].
  intros _ w' (Hw' & Hat & w & [(Hm & HC & Hs & Hag & Hb) (es' & Hrep & Hf)] & [Hmr HCn Hfi Hro]).
  split; [done|]. split_and!; [by rewrite Hmr|by etrans| | |].
  - intros q Hq. rewrite Hfi. by apply Hs.
  - intros q Hq. eapply Forall_impl; [by apply Hag|]. intros e. by apply agrees_recs.
  - intros q [Hq|Hq%list_elem_of_singleton]%elem_of_app; [|subst q].
    + destruct (Hb q Hq) as (x & ex & Hx & Hrx & Hfx). exists x, ex. split_and!; [|by eapply rep_mono|done].
      apply Hro; [by intros ->|by apply partitions_lt, Hdone|done].
    + exists root, es'. split_and!; [done|by eapply rep_mono|done].
Qed.

Lemma triple_build C m es :
  triple (λ w, registry_ok w ∧ (recs (tables w) = m ∧ C ⊆ blobs w ∧ spills w es ∧
      ∀ p, p ∈ partitions cfg → Forall (agrees (tables w) p) (es p)))
    (build_trees cfg doc spill_dir)
    (λ _ w, registry_ok w ∧ build_inv C m es (partitions cfg) w) registry_ok.
Proof.
  unfold build_trees. eapply triple_conseq;
    [apply (triple_fold wlog D (build_partition cfg doc spill_dir) (λ done _ w, registry_ok w ∧ build_inv C m es done w) registry_ok)| | |].
  - intros done p rest [] Hsplit. apply triple_build_partition.
    + rewrite Hsplit. set_solver.
    + pose proof (NoDup_partitions) as Hnd. rewrite Hsplit in Hnd. apply NoDup_app in Hnd as (_ & Hd & _).
      intros Hin. by apply (Hd p Hin); left.
    + rewrite Hsplit. set_solver.
  - intros w (Hw & Hm & HC & Hs & Hag). split; [done|]. split_and!; [done|done|done|done|by intros p ?%elem_of_nil].
  - intros [] w Hw. exact Hw.
  - done.
Qed.

(** ** The dump *)

(** The lines of the dump. *)
Definition dump_lines (path text : string) : list (result anyhow string) :=
  if decide (path_extension path = Some (str_bytes "gz")) then gz_lines text else reader_lines text.

Lemma triple_open_dump path P (X : World (Traced St) Dc → Prop) : (∀ w, P w → X w) →
  triple P (open_dump path) (λ ls w, P w ∧ ∃ text, w_files w path = Some text ∧ ls = dump_lines path text) X.
Proof.
  intros HX. unfold open_dump. eapply triple_bind; [by apply triple_read_file|]. intros text.
  apply triple_ret. intros w [HP Ht]. split; [done|]. by exists text.
Qed.

End bulk.
