(* ===== verification/RestampFacts.v ===== *)
(** The dump pass of [retimestamp] and the spill of the published records. *)

From stdpp Require Import functions.
From S2P Require Import Prelude Hash Partition Record BlobStore Hamt HamtNodeFacts HamtFacts Iscc CidKey Anyhow Index IndexFacts IndexOps PointerDoc PointerDocFacts Daemon Files Hoare PublisherInv Publisher Api Config BulkLoad Offline BulkFacts GcFacts.

(** ** The entries a partition publishes *)

Definition published_in (p : N) (x : IndexRecord) : Prop := ir_status x = Published ∧ ir_partition_id x = p.
#[global] Instance published_in_dec p x : Decision (published_in p x).
Proof. unfold published_in. apply _. Defined.

(** What the tree of [p] says of [k]. *)
Definition published_entry (m : gmap string IndexRecord) (p : N) (k : string) : option LeafEntry :=
  x ← m !! k; if decide (published_in p x) then Some (leaf_entry x k) else None.

Definition entries_in (p : N) (rs : list (string * IndexRecord)) : list LeafEntry :=
  (λ kr, leaf_entry kr.2 kr.1) <$> filter (λ kr, published_in p kr.2) rs.

Lemma entries_in_elem p rs e :
  e ∈ entries_in p rs ↔ ∃ x, (le_key e, x) ∈ rs ∧ published_in p x ∧ e = leaf_entry x (le_key e).
Proof.
  unfold entries_in. rewrite list_elem_of_fmap. split.
  - intros ([k x] & -> & [? ?]%list_elem_of_filter). by exists x.
  - intros (x & Hin & Hp & He). exists (le_key e, x). split; [done|]. by apply list_elem_of_filter.
Qed.

Lemma entries_in_find m p rs k :
  (∀ k x, (k, x) ∈ rs ↔ m !! k = Some x) → find_key le_key k (entries_in p rs) = published_entry m p k.
Proof.
  intros Hm. unfold published_entry. destruct (find_key le_key k (entries_in p rs)) as [e|] eqn:E.
  - apply find_key_Some in E as [(x & Hx & Hp & He)%entries_in_elem <-]. apply Hm in Hx. rewrite Hx. simpl.
    by rewrite decide_True, <-He.
  - destruct (m !! k) as [x|] eqn:Ek; [|done]. simpl. case_decide as Hp; [|done].
    apply find_key_None in E. destruct E. apply list_elem_of_fmap. exists (leaf_entry x k). split; [done|].
    apply entries_in_elem. exists x. split_and!; [|done|done]. by apply Hm.
Qed.

Lemma spill_entries_ok rs spills n spills' n' :
  spill_entries rs spills n = Ok (spills', n') →
  length spills' = length spills ∧
  (∀ p es, spills !! p = Some es → spills' !! p = Some (es ++ entries_in (N.of_nat p) rs)) ∧
  ∀ k x, (k, x) ∈ rs → ir_status x = Published → N.to_nat (ir_partition_id x) < length spills.
Proof.
  revert spills n. induction rs as [|[k x] rs IH]; intros spills n; cbn [spill_entries].
  { intros [= <- <-]. split_and!; [done| |by intros k x ?%elem_of_nil]. intros p es ->. by rewrite app_nil_r. }
  unfold entries_in. case_bool_decide as Hs; cbn [negb].
  - case_match eqn:E; [|done]. apply Nat.ltb_lt in E. intros Hr.
    destruct (IH _ _ Hr) as (Hlen & Hes & Hall). rewrite length_alter in *. split_and!; [done| |].
    + intros p es Hp. rewrite filter_cons. unfold published_in at 1. cbn [snd].
      destruct (decide (p = N.to_nat (ir_partition_id x))) as [->|Hne].
      * rewrite decide_True by (split; [done|]; by rewrite N2Nat.id).
        rewrite fmap_cons. cbn [fst snd].
        rewrite (Hes _ (es ++ [leaf_entry x k])); [by rewrite <-(assoc_L (++))|].
        by rewrite list_lookup_alter_eq, Hp.
      * rewrite decide_False by (intros [_ Hq]; apply Hne; rewrite Hq; by rewrite Nat2N.id).
        apply Hes. by rewrite list_lookup_alter_ne.
    + intros k' x' [[= -> ->]|?]%elem_of_cons; [done|by eapply Hall].
  - intros Hr. destruct (IH _ _ Hr) as (Hlen & Hes & Hall). split_and!; [done| |].
    + intros p es Hp. rewrite filter_cons. unfold published_in at 1. cbn [snd].
      rewrite decide_False by (by intros [? _]). by apply Hes.
    + intros k' x' [[= -> ->]|?]%elem_of_cons; [done|by eapply Hall].
Qed.

Section restamp.
Context `{Blake3} `{Hex} `{Sha256} `{CidCrate} `{Base32} `{SerdeJson} `{Timestamps} `{SocketAddrs} `{DumpFormat}.
Context `{!Codec LeafEntry, !LeafCodecLaws, !LeafTextLaws}.
Context `{!Codec IndexRecord, !CodecLaws IndexRecord index_record_dom}.
Context {St Dc : Type} `{!BlobStore St, !BlobStoreSpec St, !LocalStore St}.
Context `{!IrohDocs (Traced St) Dc, !IrohDocsLaws (Traced St) Dc}.
Context (D : list byte → Prop) `{!CollisionFree D}.
Context (writable : string → bool) (cfg : Config) (doc : PointerDoc (Traced St) Dc) (spill_dir : string).
Context (Hparts : (cfg_top_level_partitions cfg < 2 ^ 32)%N).
Implicit Types w : World (Traced St) Dc.
Abbreviation triple := (triple wlog D).
Abbreviation registry_ok := (registry_ok D).

Lemma spill_published_entries_ok ix r ix' :
  spill_published_entries (N.to_nat (cfg_top_level_partitions cfg)) ix = (r, ix') → index_inv (db ix) →
  db ix' = db ix ∧ ∀ spills n, r = Ok (spills, n) →
    ∃ rs, (∀ k x, (k, x) ∈ rs ↔ recs (db ix) !! k = Some x) ∧
      zip (partitions cfg) spills = (λ p, (p, entries_in p rs)) <$> partitions cfg ∧
      ∀ k x, recs (db ix) !! k = Some x → ir_status x = Published → ir_partition_id x ∈ partitions cfg.
Proof.
  intros [Hdb Hr]%read_txn_cases Hinv. split; [done|]. intros spills n ->.
  destruct (scan_ok _ Hinv) as (rs & Hscan & Hrs). destruct Hr as [?|Hr]; [done|]. rewrite Hscan in Hr.
  cbn [mbind result_bind] in Hr. symmetry in Hr.
  destruct (spill_entries_ok _ _ _ _ _ Hr) as (Hlen & Hes & Hall). rewrite length_replicate in *.
  exists rs. split_and!; [done| |].
  - apply list_eq. intros i. rewrite lookup_zip_with, list_lookup_fmap. unfold partitions.
    rewrite list_lookup_fmap. destruct (decide (i < N.to_nat (cfg_top_level_partitions cfg))) as [Hi|Hi].
    + rewrite lookup_seq_lt by done. simpl. rewrite (Hes i []) by (by apply lookup_replicate_2). done.
    + by rewrite lookup_seq_ge by lia.
  - intros k x Hk Hs. apply partitions_elem. apply Hrs in Hk. pose proof (Hall _ _ Hk Hs). lia.
Qed.

(** ** The dump pass *)

(** The re-stamping a line asks for. *)
Definition stamp_of (line : result anyhow string) : option (string * DateTime) :=
  line ← result_ok line;
  if decide (line = "") then None
  else
    parsed ← result_ok (dump_line_from_str line);
    value_str ← canonical_value_str (dl_value parsed);
    created_at ← declaration_timestamp value_str;
    Some (dl_key parsed, created_at).

(** The records after the stamps [done], the last ones still in the batch. *)
Definition restamp_inv w0 (done : list (string * DateTime)) (st : Restamp) w : Prop :=
  index_ext (tables w0) (tables w) ∧ w_files w = w_files w0 ∧ length (rt_batch st) < RESTAMP_BATCH ∧
  ∃ flushed, done = flushed ++ rt_batch st ∧ recs (tables w) = foldl restamp (recs (tables w0)) flushed.

Lemma triple_restamp_flush w0 done st :
  triple (λ w, registry_ok w ∧ (index_ext (tables w0) (tables w) ∧ w_files w = w_files w0 ∧
      length (rt_batch st) ≤ RESTAMP_BATCH ∧
      ∃ flushed, done = flushed ++ rt_batch st ∧ recs (tables w) = foldl restamp (recs (tables w0)) flushed))
    (restamp_flush st) (λ st' w, registry_ok w ∧ restamp_inv w0 done st' w ∧ rt_batch st' = []) registry_ok.
Proof.
  unfold restamp_flush. eapply triple_bind.
  { apply (triple_index D _ _ (λ _ w, registry_ok w ∧ index_ext (tables w0) (tables w) ∧ w_files w = w_files w0 ∧
      recs (tables w) = foldl restamp (recs (tables w0)) done)).
    intros w r ix' Hw (Hext & Hf & Hlen & flushed & -> & Hrec) Hr.
    assert (N.of_nat (length (rt_batch st)) < 2 ^ 64)%N as Hlt by (pose proof RESTAMP_BATCH_N; lia).
    destruct (update_created_at_ok _ _ _ _ Hr (ro_index _ _ Hw) Hlt) as [[-> Hdb]|(u & m & -> & _ & Hinv & He & Hro & _ & Hrs)];
      [by apply registry_index_same|].
    split_and!; [|by etrans|done|].
    - apply (registry_frame D w); try done; [apply Hw..|by apply keeps_ext|].
      unfold local_root, tables. simpl. by rewrite Hro.
    - unfold tables at 1. simpl. rewrite Hrs. change (db (w_index w)) with (tables w). by rewrite Hrec, foldl_app. }
  intros [u m]. apply triple_ret. intros w (Hw & He & Hf & Hrec). split_and!; [done| |done].
  split_and!; [done|done|pose proof RESTAMP_BATCH_N; simpl; lia|]. exists done. by rewrite app_nil_r.
Qed.

Lemma triple_restamp_line w0 done st line : line ≠ "" →
  triple (λ w, registry_ok w ∧ restamp_inv w0 done st w) (restamp_line st line)
    (λ st' w, registry_ok w ∧ restamp_inv w0 (done ++ option_list (stamp_of (Ok line))) st' w) registry_ok.
Proof.
  intros Hne. unfold restamp_line, stamp_of. cbn [result_ok mbind option_bind]. rewrite decide_False by done.
  assert (∀ n, triple (λ w, registry_ok w ∧ restamp_inv w0 done st w)
    (mret (mkRestamp (rt_batch st) (rt_updated st) (rt_missing st) n) : io (World (Traced St) Dc) anyhow Restamp)
    (λ st' w, registry_ok w ∧ restamp_inv w0 (done ++ []) st' w) registry_ok) as Hskip.
  { intros n. apply triple_ret. intros w. by rewrite app_nil_r. }
  destruct (result_ok (dump_line_from_str line)) as [parsed|]; simpl.
  2: { destruct st. apply Hskip. }
  destruct (canonical_value_str (dl_value parsed)) as [v|]; simpl.
  2: { destruct st. apply Hskip. }
  destruct (declaration_timestamp v) as [created_at|]; simpl; [|apply Hskip].
  set (st1 := mkRestamp _ _ _ _). change (rt_batch st ++ [(dl_key parsed, created_at)]) with (rt_batch st1).
  assert (∀ w, restamp_inv w0 done st w → index_ext (tables w0) (tables w) ∧ w_files w = w_files w0 ∧
    length (rt_batch st1) ≤ RESTAMP_BATCH ∧ ∃ flushed, done ++ [(dl_key parsed, created_at)] = flushed ++ rt_batch st1 ∧
      recs (tables w) = foldl restamp (recs (tables w0)) flushed) as Hst1.
  { intros w (He & Hf & Hlen & flushed & -> & Hrec). split_and!; [done|done| |].
    - unfold st1. simpl. rewrite length_app. simpl. lia.
    - exists flushed. unfold st1. simpl. by rewrite (assoc_L (++)). }
  case_match eqn:E.
  - eapply triple_conseq; [apply (triple_restamp_flush w0 (done ++ [(dl_key parsed, created_at)]) st1)| | |done].
    + intros w [Hw Hinv]. split; [done|]. by apply Hst1.
    + by intros st' w (? & ? & _).
  - apply triple_ret. intros w [Hw Hinv]. split; [done|]. destruct (Hst1 _ Hinv) as (He & Hf & _ & Hrec).
    apply Nat.leb_gt in E. by split_and!.
Qed.

Lemma triple_restamp_lines w0 ls done st :
  triple (λ w, registry_ok w ∧ restamp_inv w0 done st w) (restamp_lines ls st)
    (λ st' w, registry_ok w ∧ restamp_inv w0 (done ++ omap stamp_of ls) st' w) registry_ok.
Proof.
  revert done st. induction ls as [|[line|e] ls IH]; intros done st; cbn [restamp_lines].
  - apply triple_ret. intros w. cbn [omap list_omap]. by rewrite app_nil_r.
  - case_decide as Hemp.
    { subst line. apply IH. }
    eapply triple_bind; [by apply triple_restamp_line|]. intros st1. cbv beta.
    eapply triple_conseq; [apply IH|intros w Hw; exact Hw| |done]. intros st' w.
    rewrite <-(assoc_L (++)). cbn [omap list_omap]. by destruct (stamp_of (Ok line)).
  - apply triple_err. by intros w [].
Qed.

(** ** The spill files written *)

Lemma triple_create_spills w0 :
  triple (λ w, registry_ok w ∧ tables w = tables w0)
    (io_fold (λ _ p, write_file writable (spill_path spill_dir p) "") tt (partitions cfg))
    (λ _ w, registry_ok w ∧ tables w = tables w0) registry_ok.
Proof.
  apply (triple_fold wlog D _ (λ _ _ w, registry_ok w ∧ tables w = tables w0) registry_ok). intros done p rest a _.
  apply triple_write_file; [|by intros w []]. intros w [Hw Ht]. split; [by apply registry_files|done].
Qed.

Lemma triple_write_spills w0 (f : N → list LeafEntry) :
  triple (λ w, registry_ok w ∧ tables w = tables w0)
    (io_fold (write_spill writable spill_dir) tt ((λ p, (p, f p)) <$> partitions cfg))
    (λ _ w, registry_ok w ∧ tables w = tables w0 ∧ spills cfg spill_dir w f) registry_ok.
Proof.
  assert (∀ ps, ps ⊆ partitions cfg → triple (λ w, registry_ok w ∧ tables w = tables w0)
    (io_fold (write_spill writable spill_dir) tt ((λ p, (p, f p)) <$> ps))
    (λ _ w, registry_ok w ∧ tables w = tables w0 ∧
      ∀ p, p ∈ ps → w_files w (spill_path spill_dir p) = Some (spill_text (f p))) registry_ok) as Hgen.
  { intros ps. induction ps as [|p ps IH] using rev_ind; intros Hsub.
    { apply triple_ret. intros w [? ?]. split_and!; [done..|]. by intros p ?%elem_of_nil. }
    intros w r w' Hr. rewrite fmap_app, io_fold_app in Hr. revert w r w' Hr.
    apply (triple_bind _ _ _ _ _ (λ _ w, registry_ok w ∧ tables w = tables w0 ∧
      ∀ p, p ∈ ps → w_files w (spill_path spill_dir p) = Some (spill_text (f p)))); [apply IH; set_solver|].
    intros []. cbn [io_fold fmap list_fmap].
    apply (triple_bind _ _ _ _ _ (λ _ w, registry_ok w ∧ tables w = tables w0 ∧
      ∀ q, q ∈ ps ++ [p] → w_files w (spill_path spill_dir q) = Some (spill_text (f q))));
      [|by intros []; apply triple_ret].
    unfold write_spill. apply triple_write_file; [|by intros w [? _]].
    intros w (Hw & Ht & Hs). split_and!; [by apply registry_files|done|]. intros q Hq. unfold with_files. cbn [w_files].
    destruct (decide (q = p)) as [->|Hne]; [by rewrite fn_lookup_insert|].
    rewrite fn_lookup_insert_ne.
    - apply Hs. apply elem_of_app in Hq as [|?%list_elem_of_singleton]; [done|by subst].
    - intros Heq. apply Hne. symmetry. eapply spill_path_inj; [| |exact Heq]; apply (partitions_lt cfg); set_solver. }
  eapply triple_conseq; [by apply (Hgen (partitions cfg))|done|done|done].
Qed.

Lemma write_spills_log ps w r w' : io_fold (write_spill writable spill_dir) tt ps w = (r, w') → wlog w `prefix_of` wlog w'.
Proof.
  intros Hr. apply (triple_fold wlog D (write_spill writable spill_dir) (λ _ _ _, True) (λ _, True) ps tt) in Hr as [? _];
    [done|]. intros done p rest a _. by apply triple_write_file.
Qed.

(** ** The whole command *)

(** The tree of every partition says what the index says. *)
Definition trees_published w : Prop :=
  (∀ k x, recs (tables w) !! k = Some x → ir_status x = Published → ir_partition_id x ∈ partitions cfg) ∧
  ∀ p, p ∈ partitions cfg → ∃ r es, at_root w p r ∧ rep_root (blobs w) (Some r) es ∧
    ∀ k, find_key le_key k es = published_entry (recs (tables w)) p k.

Lemma entries_agree t p rs :
  (∀ k x, (k, x) ∈ rs ↔ recs t !! k = Some x) → Forall (agrees t p) (entries_in p rs).
Proof.
  intros Hrs. apply Forall_forall. intros e (x & Hx%Hrs & [_ Hp] & He)%entries_in_elem. by exists x.
Qed.

Lemma triple_retimestamp dump w0 :
  triple (λ w, registry_ok w ∧ w = w0) (retimestamp writable cfg doc dump spill_dir)
    (λ _ w, registry_ok w ∧ trees_published w ∧ ∃ text, w_files w0 dump = Some text ∧
      recs (tables w) = foldl restamp (recs (tables w0)) (omap stamp_of (dump_lines dump text)))
    registry_ok.
Proof.
  unfold retimestamp. eapply triple_bind; [apply triple_open_dump; by intros w []|]. intros ls. cbv beta.
  set (m := foldl restamp (recs (tables w0)) (omap stamp_of ls)).
  set (L := ∃ text, w_files w0 dump = Some text ∧ ls = dump_lines dump text).
  eapply (triple_bind _ _ _ _ _ (λ st w, L ∧ (registry_ok w ∧ restamp_inv w0 (omap stamp_of ls) st w))).
  { eapply triple_conseq; [apply (triple_pure_frame _ _ L), (triple_restamp_lines w0 ls [])| |done|done].
    intros w [[Hw ->] Hls]. split; [done|]. split; [done|].
    split_and!; [done|done|pose proof RESTAMP_BATCH_N; simpl; lia|by exists []]. }
  intros st. cbv beta.
  eapply (triple_bind _ _ _ _ _ (λ _ w, registry_ok w ∧ (L ∧ recs (tables w) = m))).
  { eapply triple_conseq; [apply (triple_pure_frame _ _ L), (triple_restamp_flush w0 (omap stamp_of ls) st)| | |done].
    - intros w (HL & Hw & He & Hf & Hlen & Hrec). split_and!; [done|done|done|done|lia|done].
    - intros st' w (HL & Hw & (_ & _ & _ & flushed & Hfl & Hrec) & Hnil). split_and!; [done|done|].
      rewrite Hrec. unfold m. rewrite Hfl, Hnil. by rewrite app_nil_r. }
  intros _. cbv beta.
  eapply (triple_bind _ _ _ _ _ (λ _ w, registry_ok w ∧ (L ∧ recs (tables w) = m))).
  { intros w r w' Hr. destruct (triple_create_spills w w r w' Hr) as [Hl Hpost]. split; [done|].
    intros HD (Hw & HL & Hm). specialize (Hpost HD (conj Hw eq_refl)). destruct r as [[]|e]; [|done].
    destruct Hpost as [? ->]. done. }
  intros _. cbv beta.
  eapply (triple_bind _ _ _ _ _ (λ spilled w, registry_ok w ∧ (L ∧ recs (tables w) = m ∧
    ∃ rs, (∀ k x, (k, x) ∈ rs ↔ m !! k = Some x) ∧
      zip (partitions cfg) spilled.1 = (λ p, (p, entries_in p rs)) <$> partitions cfg ∧
      ∀ k x, m !! k = Some x → ir_status x = Published → ir_partition_id x ∈ partitions cfg))).
  { apply (triple_index D). intros w r ix' Hw (HL & Hm) Hr.
    destruct (spill_published_entries_ok _ _ _ Hr (ro_index _ _ Hw)) as [Hdb Hsp].
    assert (registry_ok (with_index ix' w)) as Hw' by by apply registry_index_same.
    destruct r as [[spills n]|e]; [|done]. destruct (Hsp _ _ eq_refl) as (rs & Hrs & Hz & Hall).
    change (recs (db (w_index w))) with (recs (tables w)) in *. rewrite Hm in *.
    split_and!; [done|done|unfold tables; simpl; by rewrite Hdb|by exists rs]. }
  intros [spilled n]. cbn [fst].
  eapply (triple_bind _ _ _ _ _ (λ _ w, registry_ok w ∧ (L ∧ recs (tables w) = m ∧
    ∃ rs, (∀ k x, (k, x) ∈ rs ↔ m !! k = Some x) ∧ spills cfg spill_dir w (λ p, entries_in p rs) ∧
      ∀ k x, m !! k = Some x → ir_status x = Published → ir_partition_id x ∈ partitions cfg))).
  { intros w r w' Hr. split.
    - assert (∃ f : N → list LeafEntry, True) as [f _] by by exists (λ _, []).
      revert w r w' Hr. apply write_spills_log.
    - intros HD (Hw & HL & Hm & rs & Hrs & Hz & Hall). rewrite Hz in Hr.
      destruct (triple_write_spills w (λ p, entries_in p rs) w r w' Hr) as [_ Hpost].
      specialize (Hpost HD (conj Hw eq_refl)). destruct r as [[]|e]; [|done].
      destruct Hpost as (Hw' & Ht & Hs). split_and!; [done|done|by rewrite Ht|by exists rs]. }
  intros []. cbv beta. intros w r w' Hr. split.
  { by destruct (triple_build D writable cfg doc spill_dir Hparts ∅ m (λ _, []) w r w' Hr). }
  intros HD (Hw & [text Htext] & Hm & rs & Hrs & Hs & Hall).
  destruct (triple_build D writable cfg doc spill_dir Hparts ∅ m (λ p, entries_in p rs) w r w' Hr) as [_ Hpost].
  destruct r as [[]|e]; specialize (Hpost HD).
  2: { apply Hpost. split_and!; [done|done|apply map_empty_subseteq|done|]. intros p _. apply entries_agree. by rewrite Hm. }
  destruct Hpost as (Hw' & Hm' & _ & _ & _ & Hb).
  { split_and!; [done|done|apply map_empty_subseteq|done|]. intros p _. apply entries_agree. by rewrite Hm. }
  split_and!; [done| |].
  - split; [by rewrite Hm'|]. intros p Hp. destruct (Hb p Hp) as (x & es & Hx & Hrep & Hf).
    exists x, es. split_and!; [done|done|]. intros k. rewrite Hf, Hm'. by apply entries_in_find.
  - exists text. destruct Htext as [? ->]. by split.
Qed.
End restamp.
