(* ===== verification/IngestFacts.v ===== *)
(** One ingest chunk: what it adds to the index, the store and the spill
    files. *)

From stdpp Require Import functions.
From S2P Require Import Prelude Hash Partition Record BlobStore Hamt HamtNodeFacts HamtFacts Iscc CidKey Anyhow Index IndexFacts IndexOps PointerDoc PointerDocFacts Daemon Files Hoare PublisherInv Publisher Api ApiFacts Config BulkLoad Offline BulkFacts.

(** ** Accepted lines *)

(** A line's key, value and record, as [accept_line] gives them. *)
Abbreviation accepted := (string * string * IndexRecord)%type.
Definition akey (x : accepted) : string := x.1.1.
Definition aval (x : accepted) : string := x.1.2.
Definition arec (x : accepted) : IndexRecord := x.2.

(** What the index says of the line's key: its own record, or the one it
    had. *)
Definition bound_rec (m : gmap string IndexRecord) (x : accepted) : IndexRecord :=
  default (arec x) (m !! akey x).
Definition bound_entry (m : gmap string IndexRecord) (x : accepted) : LeafEntry :=
  leaf_entry (bound_rec m x) (akey x).
Definition spilled_in (m : gmap string IndexRecord) (p : N) (xs : list accepted) : list LeafEntry :=
  bound_entry m <$> filter (λ x, ir_partition_id (bound_rec m x) = p) xs.

(** The lines that claim a new key, and those whose value is written. *)
Definition new_of (m : gmap string IndexRecord) (xs : list accepted) : list accepted :=
  filter (λ x, m !! akey x = None) xs.
Definition puts_of (m : gmap string IndexRecord) (xs : list accepted) : list accepted :=
  filter (λ x, ir_content_hash (bound_rec m x) = ir_content_hash (arec x)) xs.

(** No key is given two contents. *)
Definition functional (xs : list accepted) : Prop :=
  ∀ x y, x ∈ xs → y ∈ xs → akey x = akey y → arec x = arec y.

Lemma functional_sub xs ys : xs ⊆ ys → functional ys → functional xs.
Proof. intros Hs Hf x y Hx Hy. apply Hf; by apply Hs. Qed.

Lemma flush_known_spec m n c ins puts x :
  ∃ n' c', flush_known (mkFlush n c ins puts) x (m !! akey x) =
    (bound_rec m x, mkFlush n' c' (ins ++ ((λ x, (akey x, arec x)) <$> new_of m [x])) (puts ++ (aval <$> puts_of m [x]))).
Proof.
  destruct x as [[key v] rec]. unfold flush_known, new_of, puts_of, bound_rec, akey, arec, aval. cbn [fst snd].
  rewrite !filter_cons, !filter_nil. cbn [fst snd]. destruct (m !! key) as [prior|]; cbn [default].
  - simpl. case_decide as Hh; simpl; rewrite ?app_nil_r; by eexists _, _.
  - simpl. rewrite decide_True by done. by eexists _, _.
Qed.

(** Inserting a functional list. *)
Definition insert_recs (m : gmap string IndexRecord) (xs : list accepted) : gmap string IndexRecord :=
  foldl (λ m kr, <[kr.1 := kr.2]> m) m ((λ x, (akey x, arec x)) <$> xs).

Lemma insert_recs_other m xs k : k ∉ akey <$> xs → insert_recs m xs !! k = m !! k.
Proof.
  unfold insert_recs. revert m. induction xs as [|x xs IH]; intros m; [done|]. rewrite !fmap_cons, not_elem_of_cons.
  intros [Hk Hks]. cbn [foldl fst snd]. rewrite IH by done. by apply lookup_insert_ne.
Qed.

Lemma insert_recs_in m xs x : functional xs → x ∈ xs → insert_recs m xs !! akey x = Some (arec x).
Proof.
  unfold insert_recs. revert m x. induction xs as [|y xs IH] using rev_ind; intros m x Hf; [by intros ?%elem_of_nil|].
  rewrite fmap_app, foldl_app. cbn [fmap list_fmap foldl fst snd].
  intros Hx. destruct (decide (akey y = akey x)) as [Heq|Hne].
  - rewrite Heq, lookup_insert_eq. f_equal. symmetry. apply Hf; [done| |done]. apply elem_of_app. right. by left.
  - rewrite lookup_insert_ne by done. apply IH; [eapply functional_sub; [|exact Hf]; set_solver|].
    apply elem_of_app in Hx as [|Hx%list_elem_of_singleton]; [done|]. by subst.
Qed.

Section ingest.
Context `{Blake3} `{Hex} `{Sha256} `{CidCrate} `{Base32} `{SerdeJson} `{Timestamps} `{SocketAddrs} `{DumpFormat}.
Context `{!Codec LeafEntry, !LeafCodecLaws, !LeafTextLaws}.
Context `{!Codec IndexRecord, !CodecLaws IndexRecord index_record_dom}.
Context {St Dc : Type} `{!BlobStore St, !BlobStoreSpec St, !LocalStore St}.
Context `{!IrohDocs (Traced St) Dc, !IrohDocsLaws (Traced St) Dc}.
Context (D : list byte → Prop) `{!CollisionFree D}.
Context (writable : string → bool) (cfg : Config) (spill_dir : string).
Context (Hparts : (0 < cfg_top_level_partitions cfg < 2 ^ 32)%N) (Hmax : (cfg_max_value_bytes cfg < 2 ^ 64)%N).
Implicit Types w : World (Traced St) Dc.
Abbreviation triple := (triple wlog D).
Abbreviation registry_ok := (registry_ok D).

(** What [accept_line] guarantees. *)
Definition valid_line (x : accepted) : Prop :=
  index_record_dom (arec x) ∧ ir_status (arec x) = Published ∧ ir_content_hash (arec x) = content_hash (aval x) ∧
  is_valid_record_key (akey x) = true.

Lemma accept_line_valid now line x : accept_line cfg now line = Some x → valid_line x.
Proof.
  unfold accept_line. destruct (result_ok _) as [parsed|]; [|done]. simpl.
  destruct (canonical_value_str _) as [v|]; [|done]. simpl.
  destruct (is_valid_record_key (dl_key parsed)) eqn:Hk; [|done]. simpl.
  destruct (N.ltb_spec (cfg_max_value_bytes cfg) (N.of_nat (String.length v))); [done|].
  intros [= <-]. split_and!; [|done..]. unfold index_record_dom, arec. simpl. split_and!; [lia| |].
  - eapply N.lt_trans; [apply partition_id_lt|]; lia.
  - destruct (extract_from_json v) eqn:E; [|done]. by eapply extract_from_json_lt.
Qed.

(** The state after the lines [xs], from records [m] and spill files [es]. *)
Record loaded (m : gmap string IndexRecord) (es : N → list LeafEntry) (xs : list accepted) w : Prop := {
  ld_old : m ⊆ recs (tables w);
  ld_bound x : x ∈ xs → recs (tables w) !! akey x = Some (bound_rec m x);
  ld_new k y : recs (tables w) !! k = Some y → m !! k = Some y ∨ ∃ x, x ∈ xs ∧ akey x = k ∧ y = arec x;
  ld_value x : x ∈ xs → ir_content_hash (bound_rec m x) = ir_content_hash (arec x) →
    blobs w !! content_hash (aval x) = Some (str_bytes (aval x));
  ld_spills : spills cfg spill_dir w (λ p, es p ++ spilled_in m p xs);
  ld_pids x : x ∈ xs → ir_partition_id (bound_rec m x) ∈ partitions cfg;
}.

(** ** The spill lines of a batch *)

Definition spilling w0 (m : gmap string IndexRecord) (es : N → list LeafEntry) (done : list accepted) (acc : Flush) w : Prop :=
  tables w = tables w0 ∧ w_node w = w_node w0 ∧ w_now w = w_now w0 ∧
  spills cfg spill_dir w (λ p, es p ++ spilled_in m p done) ∧
  (∀ x, x ∈ done → ir_partition_id (bound_rec m x) ∈ partitions cfg) ∧
  fl_to_insert acc = (λ x, (akey x, arec x)) <$> new_of m done ∧
  fl_to_put acc = aval <$> puts_of m done.

Lemma spilled_in_app m p xs ys : spilled_in m p (xs ++ ys) = spilled_in m p xs ++ spilled_in m p ys.
Proof. unfold spilled_in. by rewrite filter_app, fmap_app. Qed.

Lemma spills_append w es p e : p ∈ partitions cfg → spills cfg spill_dir w es →
  spills cfg spill_dir
    (with_files (<[spill_path spill_dir p :=
       Some (default "" (w_files w (spill_path spill_dir p)) +:+ str_of_bytes (ser e ++ [x0a]))%stdpp]> (w_files w)) w)
    (λ q, es q ++ if decide (q = p) then [e] else []).
Proof.
  intros Hp Hs q Hq. unfold with_files. cbn [w_files]. destruct (decide (q = p)) as [->|Hne].
  - rewrite fn_lookup_insert, (Hs p Hp). simpl. by rewrite spill_text_app, spill_text_one.
  - rewrite app_nil_r, fn_lookup_insert_ne; [by apply Hs|]. intros Heq. apply Hne. symmetry.
    eapply spill_path_inj; [| |exact Heq]; apply (partitions_lt cfg); (lia || done).
Qed.

Lemma triple_flush_one w0 m es done acc x :
  triple (λ w, registry_ok w ∧ spilling w0 m es done acc w) (flush_one writable cfg spill_dir acc (x, m !! akey x))
    (λ acc w, registry_ok w ∧ spilling w0 m es (done ++ [x]) acc w) registry_ok.
Proof.
  unfold flush_one. cbn [fst snd]. destruct acc as [n c ins puts].
  destruct (flush_known_spec m n c ins puts x) as (n' & c' & ->). unfold spill_line.
  destruct (N.ltb_spec (ir_partition_id (bound_rec m x)) (cfg_top_level_partitions cfg)) as [Hlt|Hge].
  2: { apply (triple_bind _ _ _ _ _ (λ _ _, False)); [by apply triple_err; intros w []|]. intros a. by apply triple_ret. }
  apply partitions_elem in Hlt as Hp.
  apply (triple_bind _ _ _ _ _ (λ _ w, registry_ok w ∧ spilling w0 m es (done ++ [x]) (mkFlush n' c'
    (ins ++ ((λ x, (akey x, arec x)) <$> new_of m [x])) (puts ++ (aval <$> puts_of m [x]))) w));
    [|by intros []; apply triple_ret].
  apply triple_append_file; [|by intros w []]. intros w (Hw & Ht & Hn & Hnow & Hs & Hpids & Hins & Hputs).
  split; [by apply registry_files|]. cbn [fl_to_insert fl_to_put] in *. split_and!; [done..| | | |].
  - pose proof (spills_append w _ _ (bound_entry m x) Hp Hs) as Hs'. intros q Hq. etransitivity; [exact (Hs' q Hq)|]. do 2 f_equal.
    rewrite spilled_in_app, (assoc_L (++)). f_equal. unfold spilled_in. rewrite filter_cons, filter_nil.
    destruct (decide (q = ir_partition_id (bound_rec m x))) as [->|Hne]; [by rewrite decide_True|].
    by rewrite decide_False.
  - intros y [Hy|Hy%list_elem_of_singleton]%elem_of_app; [by apply Hpids|by subst].
  - unfold new_of in *. by rewrite Hins, filter_app, fmap_app.
  - unfold puts_of in *. by rewrite Hputs, filter_app, fmap_app.
Qed.

(** ** A batch *)

Lemma bound_rec_later (m0 m : gmap string IndexRecord) fl batch x :
  m0 ⊆ m → (∀ k y, m !! k = Some y → m0 !! k = Some y ∨ ∃ x, x ∈ fl ∧ akey x = k ∧ y = arec x) →
  functional (fl ++ batch) → x ∈ batch → bound_rec m x = bound_rec m0 x.
Proof.
  intros Hsub Hnew Hf Hx. unfold bound_rec. destruct (m0 !! akey x) as [y|] eqn:E0.
  - by rewrite (lookup_weaken _ _ _ _ E0 Hsub).
  - destruct (m !! akey x) as [y|] eqn:E; [|done]. simpl. apply Hnew in E as [?|(x' & Hx' & Hk & ->)]; [congruence|].
    apply Hf; [apply elem_of_app; by left|apply elem_of_app; by right|done].
Qed.

Lemma spilled_in_ext m m' p xs : (∀ x, x ∈ xs → bound_rec m x = bound_rec m' x) → spilled_in m p xs = spilled_in m' p xs.
Proof.
  intros Heq. unfold spilled_in. induction xs as [|x xs IH]; [done|]. rewrite !filter_cons.
  pose proof (Heq x ltac:(by left)) as Hx. rewrite Hx. assert (bound_entry m x = bound_entry m' x) as Hb
    by (unfold bound_entry; by rewrite Hx).
  case_decide; rewrite ?fmap_cons, ?Hb; [f_equal|]; apply IH; intros; apply Heq; by right.
Qed.

Lemma puts_of_ext m m' xs : (∀ x, x ∈ xs → bound_rec m x = bound_rec m' x) → puts_of m xs = puts_of m' xs.
Proof.
  intros Heq. unfold puts_of. induction xs as [|x xs IH]; [done|]. rewrite !filter_cons.
  rewrite (Heq x ltac:(by left)). case_decide; [f_equal|]; apply IH; intros; apply Heq; by right.
Qed.

(** The index after the new keys of a batch. *)
Lemma insert_new_bound (m : gmap string IndexRecord) batch x : functional batch → x ∈ batch →
  insert_recs m (new_of m batch) !! akey x = Some (bound_rec m x).
Proof.
  intros Hf Hx. unfold bound_rec. destruct (m !! akey x) as [y|] eqn:E.
  - rewrite insert_recs_other; [done|]. intros (z & Hk & Hz%list_elem_of_filter)%list_elem_of_fmap.
    destruct Hz as [Hz _]. congruence.
  - apply insert_recs_in; [|by apply list_elem_of_filter]. eapply functional_sub; [|exact Hf].
    intros z Hz%list_elem_of_filter. by destruct Hz.
Qed.

Lemma insert_new_sub m batch : m ⊆ insert_recs m (new_of m batch).
Proof.
  apply map_subseteq_spec. intros k y Hk. rewrite insert_recs_other; [done|].
  intros (z & -> & Hz%list_elem_of_filter)%list_elem_of_fmap. destruct Hz as [Hz _]. congruence.
Qed.

Lemma insert_new_cases (m : gmap string IndexRecord) batch k y : functional batch → insert_recs m (new_of m batch) !! k = Some y →
  m !! k = Some y ∨ ∃ x, x ∈ batch ∧ akey x = k ∧ y = arec x ∧ m !! k = None.
Proof.
  intros Hf Hk. destruct (decide (k ∈ akey <$> new_of m batch)) as [Hin|Hni].
  - apply list_elem_of_fmap in Hin as (x & -> & [Hn Hx]%list_elem_of_filter). right. exists x.
    rewrite (insert_new_bound m batch x Hf Hx) in Hk. unfold bound_rec in Hk. rewrite Hn in Hk. by injection Hk as <-.
  - left. by rewrite insert_recs_other in Hk.
Qed.

(** What is left to do once a batch is in the index: its values. *)
Definition but_values (m0 : gmap string IndexRecord) (es : N → list LeafEntry) (fl batch : list accepted) w : Prop :=
  ∀ w', tables w' = tables w → w_files w' = w_files w → blobs w ⊆ blobs w' →
    (∀ x, x ∈ puts_of m0 batch → blobs w' !! content_hash (aval x) = Some (str_bytes (aval x))) →
    loaded m0 es (fl ++ batch) w'.

Lemma batch_loaded m0 es fl batch w w1 :
  loaded m0 es fl w → functional (fl ++ batch) → blobs w ⊆ blobs w1 →
  recs (tables w1) = insert_recs (recs (tables w)) (new_of (recs (tables w)) batch) →
  spills cfg spill_dir w1 (λ p, (es p ++ spilled_in m0 p fl) ++ spilled_in (recs (tables w)) p batch) →
  (∀ x, x ∈ batch → ir_partition_id (bound_rec (recs (tables w)) x) ∈ partitions cfg) →
  but_values m0 es fl batch w1.
Proof.
  intros Hl Hf HC Hrec Hs Hpids w' Ht Hfi HC' Hv. set (m := recs (tables w)) in *.
  assert (functional batch) as Hfb by (eapply functional_sub; [|exact Hf]; set_solver).
  assert (∀ x, x ∈ batch → bound_rec m x = bound_rec m0 x) as Hb.
  { intros x. apply (bound_rec_later m0 m fl batch); [apply Hl|exact (ld_new _ _ _ _ Hl)|done]. }
  assert (m ⊆ insert_recs m (new_of m batch)) as Hsub by apply insert_new_sub.
  split; rewrite ?Ht, ?Hrec.
  - etrans; [apply Hl|done].
  - intros x [Hx|Hx]%elem_of_app.
    + eapply lookup_weaken; [by apply (ld_bound _ _ _ _ Hl)|done].
    + rewrite (insert_new_bound m batch x Hfb Hx). by rewrite Hb.
  - intros k y [Hk|(x & Hx & Hk & -> & Hn)]%insert_new_cases; [..|done].
    + apply (ld_new _ _ _ _ Hl) in Hk as [?|(x & Hx & ? & ?)]; [by left|right]. exists x. split; [|done].
      apply elem_of_app. by left.
    + right. exists x. split; [|done]. apply elem_of_app. by right.
  - intros x [Hx|Hx]%elem_of_app Hh.
    + eapply lookup_weaken; [by apply (ld_value _ _ _ _ Hl)|]. by etrans.
    + apply Hv. by apply list_elem_of_filter.
  - intros p Hp. rewrite Hfi, (Hs p Hp). do 2 f_equal. rewrite spilled_in_app, (assoc_L (++)). f_equal.
    by apply spilled_in_ext.
  - intros x [Hx|Hx]%elem_of_app; [by apply (ld_pids _ _ _ _ Hl)|]. rewrite <-Hb by done. by apply Hpids.
Qed.

Lemma zip_known (m : gmap string IndexRecord) (batch : list accepted) :
  zip batch ((λ k, m !! k) <$> batch.*1.*1) = (λ x, (x, m !! akey x)) <$> batch.
Proof. induction batch as [|x batch IH]; [done|]. rewrite !fmap_cons. simpl. by rewrite IH. Qed.

Lemma triple_flush_fold w0 m es acc batch :
  triple (λ w, registry_ok w ∧ spilling w0 m es [] acc w)
    (io_fold (flush_one writable cfg spill_dir) acc ((λ x, (x, m !! akey x)) <$> batch))
    (λ acc w, registry_ok w ∧ spilling w0 m es batch acc w) registry_ok.
Proof.
  assert (∀ done acc, triple (λ w, registry_ok w ∧ spilling w0 m es done acc w)
    (io_fold (flush_one writable cfg spill_dir) acc ((λ x, (x, m !! akey x)) <$> batch))
    (λ acc w, registry_ok w ∧ spilling w0 m es (done ++ batch) acc w) registry_ok) as Hgen; [|exact (Hgen [] acc)].
  clear acc. induction batch as [|x batch IH]; intros done acc.
  - apply triple_ret. intros w. by rewrite app_nil_r.
  - rewrite fmap_cons. cbn [io_fold]. eapply triple_bind; [apply triple_flush_one|]. intros acc1. cbv beta.
    eapply triple_conseq; [apply (IH (done ++ [x]) acc1)|done| |done]. intros acc2 w. by rewrite <-(assoc_L (++)).
Qed.

(** A program that depends on a value known only later. *)
Lemma triple_given {E A} (φ : Prop) (m : io (World (Traced St) Dc) E A) P Q X :
  (∀ w r w', m w = (r, w') → wlog w `prefix_of` wlog w') → (φ → triple P m Q X) →
  triple (λ w, φ ∧ P w) m Q X.
Proof.
  intros Hlog Hm w r w' Hr. split; [by eapply Hlog|]. intros HD [Hφ HP]. by apply (Hm Hφ _ _ _ Hr).
Qed.

Lemma flush_fold_log acc l w r w' :
  io_fold (flush_one writable cfg spill_dir) acc l w = (r, w') → wlog w `prefix_of` wlog w'.
Proof.
  intros Hr. apply (triple_fold wlog D (flush_one writable cfg spill_dir) (λ _ _ _, True) (λ _, True) l acc) in Hr as [? _];
    [done|]. intros done x rest a _. unfold flush_one. destruct (flush_known a x.1 x.2) as [rec a1].
  apply (triple_bind _ _ _ _ _ (λ _ _, True)); [|intros []; by apply triple_ret].
  unfold spill_line. destruct (_ <? _)%N; [by apply triple_append_file|by apply triple_err].
Qed.

Lemma valid_new m batch : Forall valid_line batch →
  Forall (λ kr, index_record_dom kr.2 ∧ ir_status kr.2 ≠ Pending) ((λ x, (akey x, arec x)) <$> new_of m batch).
Proof.
  intros Hv. apply Forall_fmap, Forall_forall. intros x Hx%list_elem_of_filter. destruct Hx as [_ Hx].
  rewrite Forall_forall in Hv. destruct (Hv x Hx) as (Hd & Hs & _). simpl. rewrite Hs. by split.
Qed.

Lemma triple_flush_batch now m0 es fl batch n c :
  triple (λ w, registry_ok w ∧ (loaded m0 es fl w ∧ w_now w = now ∧ functional (fl ++ batch) ∧ Forall valid_line batch))
    (flush_batch writable cfg spill_dir batch n c)
    (λ acc w, registry_ok w ∧ (but_values m0 es fl batch w ∧ w_now w = now ∧
      fl_to_put acc = aval <$> puts_of m0 batch)) registry_ok.
Proof.
  unfold flush_batch. set (φ := functional (fl ++ batch) ∧ Forall valid_line batch).
  eapply (triple_bind _ _ _ _ _ (λ existing w, registry_ok w ∧ ((loaded m0 es fl w ∧ w_now w = now ∧ φ) ∧
    existing = (λ k, recs (tables w) !! k) <$> batch.*1.*1))).
  { apply (triple_index D). intros w r ix' Hw (Hl & Hn & Hφ) Hr.
    apply read_txn_cases in Hr as [Hdb Hr]. assert (registry_ok (with_index ix' w)) as Hw' by by apply registry_index_same.
    destruct r as [existing|e]; [|done]. assert (tables (with_index ix' w) = tables w) as Ht by exact Hdb.
    split_and!; [done| |done|apply Hφ..|].
    - destruct Hl. split; rewrite ?Ht; done.
    - rewrite Ht. destruct Hr as [|Hr]; [done|].
      rewrite read_records_ok in Hr by (eapply wf_parse, (ro_index _ _ Hw)). by injection Hr. }
  intros existing. cbv beta. intros w r w' Hr.
  set (K := loaded m0 es fl w ∧ w_now w = now ∧ φ).
  assert (triple (λ w1, registry_ok w1 ∧ w1 = w ∧ existing = (λ k, recs (tables w) !! k) <$> batch.*1.*1 ∧ K)
    (acc ← io_fold (flush_one writable cfg spill_dir) (mkFlush n c [] []) (zip batch existing);
     _ ← on_index (bulk_mark_published (fl_to_insert acc)); mret acc)
    (λ acc w, registry_ok w ∧ (but_values m0 es fl batch w ∧ w_now w = now ∧
      fl_to_put acc = aval <$> puts_of m0 batch)) registry_ok) as Ht.
  2: { destruct (Ht _ _ _ Hr) as [Hlog Hpost]. split; [done|]. intros HD (? & ? & ?). by apply Hpost. }
  clear r w' Hr. set (m := recs (tables w)).
  eapply (triple_bind _ _ _ _ _ (λ acc w1, registry_ok w1 ∧
    (spilling w m (λ p, es p ++ spilled_in m0 p fl) batch acc w1 ∧ K))).
  { eapply triple_conseq; [apply (triple_given (existing = (λ k, m !! k) <$> batch.*1.*1 ∧ K)
        _ (λ w1, registry_ok w1 ∧ w1 = w) _ _); [apply flush_fold_log|]| |intros acc w1 Hw1; exact Hw1|intros w1 Hw1; exact Hw1].
    - intros (-> & HK). rewrite zip_known.
      eapply triple_conseq; [apply (triple_flush_fold w m (λ p, es p ++ spilled_in m0 p fl) (mkFlush n c [] []) batch)| | |done].
      + intros w1 [Hw1 ->]. split; [done|]. split_and!; try done; [|by intros x ?%elem_of_nil].
        intros p Hp. rewrite (ld_spills _ _ _ _ (proj1 HK) p Hp). by rewrite app_nil_r.
      + intros acc w1 [? ?]. by split_and!.
    - intros w1 (Hw1 & -> & ? & ?). by split_and!. }
  intros acc. cbv beta. eapply (triple_bind _ _ _ _ _ (λ _ w1, registry_ok w1 ∧ (but_values m0 es fl batch w1 ∧ w_now w1 = now ∧
    fl_to_put acc = aval <$> puts_of m0 batch))); [|intros []; by apply triple_ret].
  apply (triple_index D). intros w1 r ix' Hw1 ((Ht & Hn & Hnow1 & Hs & Hp & Hins & Hputs) & Hl & Hnow & Hf & Hv) Hr.
  assert (tables w1 = tables w) as Ht' by exact Ht. rewrite Hins in Hr.
  destruct (bulk_mark_published_ok _ _ _ _ Hr (ro_index _ _ Hw1) (valid_new m batch Hv))
    as [[-> Hdb]|(-> & Hinv & Hro & Hq & Hrec)]; [by apply registry_index_same|].
  assert (recs (db ix') = insert_recs m (new_of m batch)) as Hrec'.
  { rewrite Hrec. unfold tables in Ht'. by rewrite Ht'. }
  split_and!.
  - apply (registry_frame D w1); try done; [apply Hw1|apply Hw1| |].
    + apply keeps_sub. rewrite Ht'. unfold tables at 2. simpl. rewrite Hrec'. apply insert_new_sub.
    + unfold local_root, tables. simpl. by rewrite Hro.
  - apply (batch_loaded m0 es fl batch w); [done|done| |exact Hrec'|exact Hs|exact Hp].
    unfold blobs. simpl. by rewrite Hn.
  - simpl. congruence.
  - rewrite Hputs. f_equal. apply puts_of_ext. intros x Hx. eapply bound_rec_later; [apply Hl|exact (ld_new _ _ _ _ Hl)|done|done].
Qed.

(** The values of a batch. *)
Lemma triple_puts now m0 es fl batch vs :
  triple (λ w, registry_ok w ∧ (but_values m0 es fl batch w ∧ w_now w = now ∧ vs = aval <$> puts_of m0 batch))
    (io_fold put_value tt vs) (λ _ w, registry_ok w ∧ (loaded m0 es (fl ++ batch) w ∧ w_now w = now)) registry_ok.
Proof.
  eapply triple_conseq; [apply (triple_fold wlog D put_value (λ done _ w, registry_ok w ∧ (but_values m0 es fl batch w ∧
      w_now w = now ∧ ∀ v, v ∈ done → blobs w !! content_hash v = Some (str_bytes v)) ∧ vs = aval <$> puts_of m0 batch) registry_ok vs tt)| | |done].
  - intros done v rest [] _. unfold put_value.
    eapply (triple_bind _ _ _ _ _ (λ _ w, registry_ok w ∧ (but_values m0 es fl batch w ∧
      w_now w = now ∧ ∀ v', v' ∈ done ++ [v] → blobs w !! content_hash v' = Some (str_bytes v')) ∧
      vs = aval <$> puts_of m0 batch)); [|intros a; by apply triple_ret].
    apply (triple_node D).
    + intros n r n'. apply (store_log D). steps.
    + intros w r n' Hw ((Hb & Hn & Hd) & Hvs) Hr HD.
      assert (steps_in (advances D) (io_map_err EBlob (put (St:=Traced St) (str_bytes v)))) as Hst by steps.
      destruct (store_step D _ w r n' Hst Hr HD Hw) as (Hw' & HC & Hd').
      destruct r as [h|e]; [|done]. split_and!; [done| |done| |done].
      * intros w1 Ht Hfi HC1 Hv. apply Hb; [done|done|by etrans|done].
      * intros v' [Hv'|Hv'%list_elem_of_singleton]%elem_of_app; [eapply lookup_weaken; [by apply Hd|done]|]. subst v'.
        destruct (w_node w) as [s d]. apply on_fst_run in Hr as (s' & Hr & ->). apply io_map_err_ok in Hr.
        destruct (put_ok_run _ _ _ _ Hr) as (-> & Hc & _). exact Hc.
  - intros w (Hw & Hb & Hn & Hvs). split_and!; [done|done|done| |done]. by intros v ?%elem_of_nil.
  - intros [] w (Hw & (Hb & Hn & Hd) & Hvs). split_and!; [done| |done]. apply Hb; [done..|].
    intros x Hx. apply Hd. rewrite Hvs. by apply list_elem_of_fmap_2.
Qed.

(** ** The loop *)

(** The state of the loop after the accepted lines [done]. *)
Definition ingest_inv now m0 es (done : list accepted) (st : Ingest) w : Prop :=
  w_now w = now ∧ ∃ fl, done = fl ++ ig_batch st ∧ loaded m0 es fl w.

Lemma triple_flush now m0 es done st :
  triple (λ w, registry_ok w ∧ (ingest_inv now m0 es done st w ∧ functional done ∧ Forall valid_line done))
    (flush writable cfg spill_dir st)
    (λ st' w, registry_ok w ∧ loaded m0 es done w ∧ w_now w = now ∧ ig_batch st' = [] ∧
      ig_seen_lines st' = ig_seen_lines st ∧ ig_total st' = ig_total st) registry_ok.
Proof.
  unfold flush. intros w r w' Hr.
  assert (∀ fl, triple (λ w, registry_ok w ∧ (loaded m0 es fl w ∧ w_now w = now ∧ functional (fl ++ ig_batch st) ∧
      Forall valid_line (ig_batch st)))
    (acc ← flush_batch writable cfg spill_dir (ig_batch st) (ig_new_records st) (ig_conflicts st);
     _ ← io_fold put_value tt (fl_to_put acc);
     mret (mkIngest [] (ig_seen_lines st) (ig_total st) (ig_invalid st) (fl_new_records acc) (fl_conflicts acc)))
    (λ st' w, registry_ok w ∧ loaded m0 es (fl ++ ig_batch st) w ∧ w_now w = now ∧ ig_batch st' = [] ∧
      ig_seen_lines st' = ig_seen_lines st ∧ ig_total st' = ig_total st) registry_ok) as Ht.
  { intros fl. eapply triple_bind; [apply triple_flush_batch|]. intros acc. cbv beta.
    eapply triple_bind; [apply triple_puts|]. intros []. apply triple_ret. intros w1 (? & ? & ?). by split_and!. }
  split; [by destruct (Ht [] _ _ _ Hr)|]. intros HD (Hw & (Hn & fl & -> & Hl) & Hf & Hv).
  destruct (Ht fl _ _ _ Hr) as [_ Hpost]. apply Hpost; [done|]. split_and!; [done..|]. by apply Forall_app in Hv as [_ ?].
Qed.

Lemma flush_log st w r w' : flush writable cfg spill_dir st w = (r, w') → wlog w `prefix_of` wlog w'.
Proof. intros Hr. by destruct (triple_flush 0%Z ∅ (λ _, []) [] st w r w' Hr). Qed.

(** [ingest_line] at the time it reads. *)
Definition ingest_line_at (now : DateTime) (st : Ingest) (line : string) : io (World (Traced St) Dc) anyhow Ingest :=
  let total := wrap64 (ig_total st + 1) in
  match accept_line cfg now line with
  | None => mret (mkIngest (ig_batch st) (ig_seen_lines st) total (wrap64 (ig_invalid st + 1))
                    (ig_new_records st) (ig_conflicts st))
  | Some x =>
      let st := mkIngest (ig_batch st ++ [x]) (ig_seen_lines st) total (ig_invalid st)
                  (ig_new_records st) (ig_conflicts st) in
      if INGEST_BATCH <=? length (ig_batch st) then flush writable cfg spill_dir st else mret st
  end.

Lemma ingest_line_log st line w r w' :
  ingest_line writable cfg spill_dir st line w = (r, w') → wlog w `prefix_of` wlog w'.
Proof.
  change (ingest_line writable cfg spill_dir st line w) with (ingest_line_at (w_now w) st line w).
  unfold ingest_line_at. destruct (accept_line cfg (w_now w) line) as [x|]; [|by intros [= _ <-]].
  cbv zeta. destruct (_ <=? _); [apply flush_log|by intros [= _ <-]].
Qed.

Lemma ingest_lines_log skip limit lines st w r w' :
  ingest_lines writable cfg spill_dir skip limit lines st w = (r, w') → wlog w `prefix_of` wlog w'.
Proof.
  revert st w. induction lines as [|[line|e] lines IH]; intros st w; cbn [ingest_lines];
    [by intros [= _ <-]| |by intros [= _ <-]].
  case_decide; [apply IH|]. destruct (_ <=? skip)%N; [apply IH|]. destruct (limit <=? _)%N; [by intros [= _ <-]|].
  unfold mbind, io_bind. destruct (ingest_line _ _ _ _ line w) as [[st1|e] w1] eqn:E; apply ingest_line_log in E.
  - intros Hr%IH. by etrans.
  - by intros [= _ <-].
Qed.

Lemma triple_ingest_line now m0 es done st line :
  functional (done ++ option_list (accept_line cfg now line)) →
  Forall valid_line (done ++ option_list (accept_line cfg now line)) →
  triple (λ w, registry_ok w ∧ ingest_inv now m0 es done st w) (ingest_line writable cfg spill_dir st line)
    (λ st' w, registry_ok w ∧ (ingest_inv now m0 es (done ++ option_list (accept_line cfg now line)) st' w ∧
      ig_seen_lines st' = ig_seen_lines st ∧ ig_total st' = wrap64 (ig_total st + 1))) registry_ok.
Proof.
  intros Hf Hv w r w' Hr. split; [by eapply ingest_line_log|]. intros HD [Hw Hinv].
  change (ingest_line writable cfg spill_dir st line w) with (ingest_line_at (w_now w) st line w) in Hr.
  pose proof Hinv as [Hn (fl & -> & Hl)]. rewrite Hn in Hr. unfold ingest_line_at in Hr.
  destruct (accept_line cfg now line) as [x|].
  2: { injection Hr as <- <-. simpl. rewrite app_nil_r. by split_and!. }
  cbv zeta in Hr. set (st1 := mkIngest _ _ _ _ _ _) in Hr. cbn [option_list] in *.
  assert (ingest_inv now m0 es ((fl ++ ig_batch st) ++ [x]) st1 w) as Hinv1.
  { split; [done|]. exists fl. by rewrite <-(assoc_L (++)). }
  destruct (_ <=? _); [|injection Hr as <- <-; by split_and!].
  destruct (triple_flush now m0 es ((fl ++ ig_batch st) ++ [x]) st1 w r w' Hr) as [_ Hpost]. specialize (Hpost HD (conj Hw (conj Hinv1 (conj Hf Hv)))).
  destruct r as [st'|e]; [|done]. destruct Hpost as (Hw' & Hl' & Hn' & Hb & Hs & Ht). split; [done|]. split; [split; [done|]|by rewrite Hs, Ht].
  exists ((fl ++ ig_batch st) ++ [x]). by rewrite Hb, app_nil_r.
Qed.

(** The lines that count, and the accepted ones of the chunk. *)
Definition counted (lines : list (result anyhow string)) : list string :=
  omap (λ l, line ← result_ok l; if decide (line = "") then None else Some line) lines.
Definition chunk (now : DateTime) (skip limit : N) (lines : list (result anyhow string)) : list accepted :=
  omap (accept_line cfg now) (take (N.to_nat limit) (drop (N.to_nat skip) (counted lines))).

(** The chunk from a state of the loop on. *)
Definition chunk_from (now : DateTime) (skip limit : N) (st : Ingest) (lines : list (result anyhow string)) : list accepted :=
  chunk now (skip - ig_seen_lines st) (limit - ig_total st) lines.

Lemma triple_ingest_lines now m0 es skip limit lines done st :
  (ig_seen_lines st + N.of_nat (length lines) < 2 ^ 64)%N → (ig_total st ≤ ig_seen_lines st)%N →
  functional (done ++ chunk_from now skip limit st lines) →
  Forall valid_line (done ++ chunk_from now skip limit st lines) →
  triple (λ w, registry_ok w ∧ ingest_inv now m0 es done st w)
    (ingest_lines writable cfg spill_dir skip limit lines st)
    (λ st' w, registry_ok w ∧ ingest_inv now m0 es (done ++ chunk_from now skip limit st lines) st' w) registry_ok.
Proof.
  revert done st. induction lines as [|[line|e] lines IH]; intros done st Hseen Htot Hf Hv; cbn [ingest_lines].
  - apply triple_ret. intros w. unfold chunk_from, chunk, counted. simpl. by rewrite drop_nil, take_nil, app_nil_r.
  - cbn [length] in Hseen. case_decide as Hemp.
    { assert (chunk_from now skip limit st (Ok line :: lines) = chunk_from now skip limit st lines) as Heq.
      { unfold chunk_from, chunk, counted. simpl. by rewrite decide_True. }
      rewrite Heq in *. apply IH; [lia|done..]. }
    rewrite wrap64_small by lia. cbn [ig_total]. set (st1 := mkIngest _ _ _ _ _ _).
    assert (counted (Ok line :: lines) = line :: counted lines) as Hc by (unfold counted; simpl; by rewrite decide_False).
    destruct (N.leb_spec (ig_seen_lines st + 1) skip) as [Hskip|Hskip].
    { assert (chunk_from now skip limit st (Ok line :: lines) = chunk_from now skip limit st1 lines) as Heq.
      { unfold chunk_from, chunk. rewrite Hc. cbn [ig_seen_lines ig_total st1].
        replace (N.to_nat (skip - ig_seen_lines st)) with (S (N.to_nat (skip - (ig_seen_lines st + 1)))) by lia. done. }
      rewrite Heq in *. eapply triple_conseq; [apply (IH done st1); [cbn; lia|cbn; lia|done|done]|by intros w [Hw Hinv]|done|done]. }
    destruct (N.leb_spec limit (ig_total st)) as [Hlim|Hlim].
    { apply triple_ret. intros w Hw. unfold chunk_from, chunk.
      replace (N.to_nat (limit - ig_total st)) with 0 by lia. simpl. by rewrite app_nil_r. }
    assert (∀ st2, ig_seen_lines st2 = ig_seen_lines st + 1 → ig_total st2 = ig_total st + 1 →
      chunk_from now skip limit st (Ok line :: lines)
      = option_list (accept_line cfg now line) ++ chunk_from now skip limit st2 lines)%N as Heq.
    { intros st2 Hs2 Ht2. unfold chunk_from, chunk. rewrite Hc, Hs2, Ht2.
      replace (N.to_nat (skip - ig_seen_lines st)) with 0 by lia.
      replace (N.to_nat (skip - (ig_seen_lines st + 1))) with 0 by lia.
      replace (N.to_nat (limit - ig_total st)) with (S (N.to_nat (limit - (ig_total st + 1)))) by lia.
      simpl. by destruct (accept_line cfg now line). }
    pose proof (Heq (mkIngest [] (ig_seen_lines st + 1) (ig_total st + 1) 0 0 0) eq_refl eq_refl) as Heq0.
    eapply triple_bind.
    { eapply triple_conseq; [apply (triple_ingest_line now m0 es done st1 line)| |intros st2 w Hw; exact Hw|done].
      - eapply functional_sub; [|exact Hf]. rewrite Heq0. set_solver.
      - rewrite Heq0, (assoc_L (++)) in Hv. by apply Forall_app in Hv as [? _].
      - by intros w [Hw Hinv]. }
    intros st2. cbv beta.
    eapply triple_conseq; [apply (triple_given (ig_seen_lines st2 = (ig_seen_lines st + 1)%N ∧ ig_total st2 = (ig_total st + 1)%N)
        _ (λ w, registry_ok w ∧ ingest_inv now m0 es (done ++ option_list (accept_line cfg now line)) st2 w) _ _);
        [apply ingest_lines_log|]| |intros st3 w Hw; exact Hw|intros w Hw; exact Hw].
    + intros [Hs2 Ht2]. rewrite (Heq st2 Hs2 Ht2), (assoc_L (++)) in *. apply IH; [lia|lia|done|done].
    + intros w (Hw & Hinv & Hs2 & Ht2). cbn [ig_seen_lines ig_total st1] in *. split_and!; [done| |done|done].
      rewrite Ht2. apply wrap64_small. lia.
  - apply triple_err. by intros w [].
Qed.

Lemma chunk_valid now skip limit lines : Forall valid_line (chunk now skip limit lines).
Proof.
  apply Forall_forall. intros x (line & _ & Hx)%list_elem_of_omap. by eapply accept_line_valid.
Qed.
End ingest.
