(* ===== verification/BulkSpec.v ===== *)
(** What the bulk commands achieve. *)

From stdpp Require Import functions.
From S2P Require Import Prelude Hash Partition Record BlobStore Hamt HamtNodeFacts HamtFacts HamtBuild Samples Iscc CidKey CodesSpec Anyhow Index IndexFacts IndexOps PointerDoc PointerDocFacts Daemon Files Hoare PublisherInv Publisher PublisherFacts PublisherSpec Api ApiFacts ApiSpec Config BulkLoad Offline BulkFacts RestampFacts IngestFacts.

Section spec.
Context `{Blake3} `{Hex} `{Sha256} `{CidCrate} `{Base32} `{SerdeJson} `{Timestamps} `{SocketAddrs} `{DumpFormat}.
Context `{!Codec LeafEntry, !LeafCodecLaws, !LeafTextLaws}.
Context `{!Codec IndexRecord, !CodecLaws IndexRecord index_record_dom}.
Context {St Dc : Type} `{!BlobStore St, !BlobStoreSpec St, !LocalStore St}.
Context `{!IrohDocs (Traced St) Dc, !IrohDocsLaws (Traced St) Dc}.
Context (D : list byte → Prop) `{!CollisionFree D}.
Context (writable : string → bool) (cfg : Config) (doc : PointerDoc (Traced St) Dc) (spill_dir : string).
Implicit Types w : World (Traced St) Dc.
#[local] Abbreviation triple := (triple wlog D).
#[local] Abbreviation registry_ok := (registry_ok D).

(** The values of the configuration's types. *)
Definition config_ok : Prop :=
  (0 < cfg_top_level_partitions cfg < 2 ^ 32)%N ∧ (cfg_max_value_bytes cfg < 2 ^ 64)%N.

(** The spill files before a chunk: absent, or what earlier chunks wrote. *)
Definition spill_start w (es : N → list LeafEntry) : Prop :=
  ∀ p, p ∈ partitions cfg →
    Forall (agrees (tables w) p) (es p) ∧
    (w_files w (spill_path spill_dir p) = None ∧ es p = [] ∨
     w_files w (spill_path spill_dir p) = Some (spill_text (es p))).

Lemma triple_open_spills w0 es text dump : config_ok → spill_start w0 es → w_files w0 dump = Some text →
  triple (λ w, registry_ok w ∧ w = w0) (open_spills writable cfg spill_dir)
    (λ _ w, registry_ok w ∧ tables w = tables w0 ∧ w_now w = w_now w0 ∧ blobs w = blobs w0 ∧ w_files w dump = Some text ∧
      spills cfg spill_dir w es) registry_ok.
Proof.
  intros [Hparts _] Hstart Hdump. unfold open_spills.
  eapply triple_conseq; [apply (triple_fold wlog D _ (λ done _ w, registry_ok w ∧ tables w = tables w0 ∧
      w_now w = w_now w0 ∧ blobs w = blobs w0 ∧ w_files w dump = Some text ∧
      ∀ p, p ∈ partitions cfg → w_files w (spill_path spill_dir p) =
        if decide (p ∈ done) then Some (spill_text (es p)) else w_files w0 (spill_path spill_dir p)) registry_ok)| | |done].
  - intros done p rest a Hsplit. apply triple_append_file; [|by intros w []].
    intros w (Hw & Ht & Hn & Hb & Hd & Hf). assert (p ∈ partitions cfg) as Hp by (rewrite Hsplit; set_solver).
    assert (default "" (w_files w (spill_path spill_dir p)) +:+ ""%string = spill_text (es p))%stdpp as Htext.
    { assert (∀ s : string, (s +:+ "")%stdpp = s) as Hnil.
      { intros s. induction s as [|c s IH]; [done|]. simpl. by rewrite <-IH at 2. }
      rewrite Hnil, (Hf p Hp). case_decide; [done|].
      destruct (Hstart p Hp) as [_ [[-> ->]| ->]]; done. }
    rewrite Htext. split_and!; [by apply registry_files|done..| |].
    + unfold with_files. cbn [w_files]. destruct (decide (dump = spill_path spill_dir p)) as [->|Hne].
      * rewrite fn_lookup_insert. rewrite <-Hd, (Hf p Hp). case_decide; [done|].
        pose proof (Hf p Hp) as Hfp. rewrite decide_False, Hd in Hfp by done.
        by destruct (Hstart p Hp) as [_ [[Hnone _]| ->]]; [congruence|].
      * by rewrite fn_lookup_insert_ne.
    + intros q Hq. unfold with_files. cbn [w_files]. destruct (decide (q = p)) as [->|Hne].
      * rewrite fn_lookup_insert. rewrite decide_True; [done|]. apply elem_of_app. right. by left.
      * rewrite fn_lookup_insert_ne.
        -- rewrite (Hf q Hq). apply decide_ext. rewrite elem_of_app, list_elem_of_singleton. naive_solver.
        -- intros Heq. apply Hne. symmetry. eapply spill_path_inj; [| |exact Heq]; apply (partitions_lt cfg); (lia || done).
  - by intros w [Hw ->]; split_and!.
  - intros a w (Hw & Ht & Hn & Hb & Hd & Hf). split_and!; try done. intros p Hp. rewrite (Hf p Hp). by rewrite decide_True.
Qed.

Lemma triple_ingest dump skip limit w0 es text : config_ok → spill_start w0 es → w_files w0 dump = Some text →
  let lines := dump_lines dump text in
  (N.of_nat (length lines) < 2 ^ 64)%N → functional (chunk cfg (w_now w0) skip limit lines) →
  triple (λ w, registry_ok w ∧ w = w0) (ingest writable cfg dump spill_dir skip limit)
    (λ _ w, registry_ok w ∧ loaded cfg spill_dir (recs (tables w0)) es (chunk cfg (w_now w0) skip limit lines) w)
    registry_ok.
Proof.
  intros Hcfg Hstart Hdump lines Hlen Hf. pose proof Hcfg as [Hparts Hmax]. unfold ingest.
  pose proof (chunk_valid cfg Hparts Hmax (w_now w0) skip limit lines) as Hv.
  set (st0 := mkIngest [] 0 0 0 0 0). set (xs := chunk cfg (w_now w0) skip limit lines) in *.
  assert (chunk_from cfg (w_now w0) skip limit st0 lines = xs) as Hxs.
  { unfold chunk_from. cbn [ig_seen_lines ig_total st0]. by rewrite !N.sub_0_r. }
  eapply triple_bind; [by apply (triple_open_spills w0 es text dump)|]. intros []. cbv beta.
  eapply triple_bind; [apply triple_open_dump; by intros w []|]. intros ls. cbv beta.
  apply (triple_bind _ _ _ _ _ (λ st w, registry_ok w ∧ (ingest_inv cfg spill_dir (w_now w0) (recs (tables w0)) es xs st w ∧
    functional xs ∧ Forall valid_line xs))).
  - eapply triple_conseq; [apply (triple_given D (ls = lines) _
      (λ w, registry_ok w ∧ ingest_inv cfg spill_dir (w_now w0) (recs (tables w0)) es [] st0 w)
      (λ st w, registry_ok w ∧ ingest_inv cfg spill_dir (w_now w0) (recs (tables w0)) es xs st w) registry_ok)| | |done].
    + apply (ingest_lines_log D writable cfg spill_dir Hparts Hmax).
    + intros ->. pose proof (triple_ingest_lines D writable cfg spill_dir Hparts Hmax (w_now w0) (recs (tables w0)) es
        skip limit lines [] st0) as Hloop. rewrite Hxs in Hloop. apply Hloop; [cbn; lia|cbn; lia|done|done].
    + intros w [(Hw & Ht & Hn & _ & Hd & Hs) (text' & Htext' & ->)].
      assert (text' = text) as -> by congruence. split; [done|]. split; [done|]. split; [done|]. exists []. split; [done|].
      split; [by rewrite Ht|by intros x ?%elem_of_nil| |by intros x ?%elem_of_nil| |by intros x ?%elem_of_nil].
      * intros k y. rewrite Ht. by left.
      * intros p Hp. rewrite (Hs p Hp). by rewrite app_nil_r.
    + intros st w [Hw Hinv]. by split_and!.
  - intros st. eapply triple_conseq; [by apply (triple_flush D writable cfg spill_dir Hparts Hmax (w_now w0) (recs (tables w0)) es xs st)|done| |done].
    by intros st' w (Hw & Hl & _).
Qed.
(** ** What readers see *)

(** A lookup of [k] under the root that readers and the writer have for
    [p]. *)
Definition seen w (p : N) (k : string) (o : option LeafEntry) : Prop :=
  ∃ r, at_root w p r ∧ (∀ o' s', lookup (Some r) k (w_node w).1 = (Ok o', s') → o' = o) ∧
    (ReliableStore St → lookup (Some r) k (w_node w).1 = (Ok o, (w_node w).1)).

Lemma rep_seen w p k r es :
  at_root w p r → rep_root (blobs w) (Some r) es → seen w p k (find_key le_key k es).
Proof.
  intros Hat Hrep. unfold rep_root in Hrep. simpl in Hrep. exists r. split; [done|]. split.
  - intros o s' Hr. apply (lookup_loop_rep DESCENT_FUEL k [] r es) in Hr; [done|done|apply prefix_nil].
  - intros Hrel. apply (lookup_loop_total DESCENT_FUEL k [] r es); [done|apply prefix_nil|simpl; lia].
Qed.

(** The first entry of an accepted line's key is the one its record gives. *)
Lemma spilled_find m es x xs w : functional xs → x ∈ xs →
  Forall (agrees (tables w) (ir_partition_id (bound_rec m x))) es → m = recs (tables w) →
  find_key le_key (akey x) (es ++ spilled_in m (ir_partition_id (bound_rec m x)) xs) = Some (bound_entry m x).
Proof.
  intros Hf Hx Hag ->. set (m := recs (tables w)) in *. rewrite Forall_forall in Hag.
  destruct (find_key le_key (akey x) _) as [e|] eqn:E.
  - apply find_key_Some in E as [[He|He]%elem_of_app Hk].
    + destruct (Hag e He) as (y & Hy & -> & _). rewrite Hk in Hy |- *. unfold bound_entry, bound_rec.
      fold m in Hy. by rewrite Hy.
    + unfold spilled_in in He. apply list_elem_of_fmap in He as (y & -> & [_ Hy]%list_elem_of_filter).
      simpl in Hk. unfold bound_entry, bound_rec. by rewrite Hk, (Hf y x Hy Hx Hk).
  - exfalso. apply find_key_None in E. apply E, list_elem_of_fmap. exists (bound_entry m x). split; [done|].
    apply elem_of_app. right. unfold spilled_in. apply list_elem_of_fmap_2, list_elem_of_filter. done.
Qed.

Lemma loaded_agrees w0 es xs w : spill_start w0 es → loaded cfg spill_dir (recs (tables w0)) es xs w →
  ∀ p, p ∈ partitions cfg → Forall (agrees (tables w) p) (es p ++ spilled_in (recs (tables w0)) p xs).
Proof.
  intros Hstart Hl p Hp. apply Forall_app. split.
  - destruct (Hstart p Hp) as [Hag _]. eapply Forall_impl; [exact Hag|]. intros e (x & Hx & He & Hpid).
    exists x. split_and!; [by eapply lookup_weaken; [|apply (ld_old _ _ _ _ _ _ Hl)]|done|done].
  - apply Forall_forall. intros e. unfold spilled_in.
    intros (x & -> & [Hpid Hx]%list_elem_of_filter)%list_elem_of_fmap. exists (bound_rec (recs (tables w0)) x).
    split_and!; [by apply (ld_bound _ _ _ _ _ _ Hl)|done|done].
Qed.

(** ** The commands *)

(** What a bulk load leaves of the accepted line [x]: its key is bound, to
    the record it had before or to the line's; readers and the writer find
    that record's entry; and the line's value is stored unless the key had
    another content. *)
Definition line_loaded m w (x : accepted) : Prop :=
  recs (tables w) !! akey x = Some (bound_rec m x) ∧
  seen w (ir_partition_id (bound_rec m x)) (akey x) (Some (bound_entry m x)) ∧
  (ir_content_hash (bound_rec m x) = content_hash (aval x) →
     blobs w !! content_hash (aval x) = Some (str_bytes (aval x))).


(** C23: Re-stamping republishes.  When [retimestamp] succeeds, every
    record of a timestamped line of the dump is stamped with it (the last
    such line's) and no other record changes, and the tree of every
    partition, for readers and the writer, holds exactly the entries of the
    published records of that partition.  Whatever fails, the roots stay
    trees that agree with the index. *)
Theorem retimestamp_republishes dump w r w' :
  retimestamp writable cfg doc dump spill_dir w = (r, w') →
  (cfg_top_level_partitions cfg < 2 ^ 32)%N → registry_ok w → Forall D (wlog w') →
  registry_ok w' ∧
  (is_ok r → ∃ text, w_files w dump = Some text ∧
     recs (tables w') = foldl restamp (recs (tables w)) (omap stamp_of (dump_lines dump text)) ∧
     ∀ p k, p ∈ partitions cfg → seen w' p k (published_entry (recs (tables w')) p k)).
Proof.
  intros Hr Hparts Hw HD.
  destruct (triple_retimestamp D writable cfg doc spill_dir Hparts dump w w r w' Hr) as [_ Hpost].
  specialize (Hpost HD (conj Hw eq_refl)). destruct r as [[]|e]; [|done].
  destruct Hpost as (Hw' & [_ Htrees] & text & Htext & Hrecs). split; [done|]. intros _. exists text.
  split_and!; [done|done|]. intros p k Hp. destruct (Htrees p Hp) as (root & es & Hat & Hrep & Hf).
  rewrite <-Hf. by eapply rep_seen.
Qed.
End spec.

(** ** Concrete runs *)

(** A dump line is a key, a space and the value. *)
Fixpoint sample_cut (l : list byte) : option (list byte * list byte) :=
  match l with
  | [] => None
  | x20 :: l => Some ([], l)
  | b :: l => '(k, v) ← sample_cut l; Some (b :: k, v)
  end.
Definition sample_dump_format : DumpFormat := {|
  dump_line_from_str line :=
    match sample_cut (str_bytes line) with
    | Some (k, v) => Ok (mkDumpLine (str_of_bytes k) (JString (str_of_bytes v)))
    | None => Err "no value"
    end;
  gz_lines _ := [];
|}.
Definition sample_sockets : SocketAddrs := {|
  SocketAddr := string; socket_from_str s := Ok s; default_bind_addr := "127.0.0.1:8080";
  default_bind_addr_eq := eq_refl |}.

Lemma pos_bytes_text p : utf8_valid (pos_bytes p) = true ∧ last (pos_bytes p) ≠ Some x0d.
Proof.
  induction p as [p [IHu IHl]|p [IHu IHl]|]; [..|done]; (split; [done|]); simpl; by destruct (pos_bytes p).
Qed.
Lemma sample_leaf_text : @LeafTextLaws sample_leaf_codec.
Proof. split; intros e; apply pos_bytes_text. Qed.

Section witnesses.
#[local] Existing Instances sample_blake3 sample_sha256 sample_hex sample_leaf_codec sample_leaf_laws
  sample_record_codec sample_record_laws sample_docs sample_docs_laws' sample_cid sample_base32 sample_json
  sample_timestamps sample_dump_format sample_sockets sample_leaf_text.
Abbreviation SampleWorld := (World (Traced MemoryBlobStore) (gmap string Hash)).

Definition sample_config : Config := mkConfig (H:=sample_sockets) "127.0.0.1:8080" "/data" ["token"] 65536 500 10 30 5 1 None 3600.
Definition sample_doc : PointerDoc (Traced MemoryBlobStore) (gmap string Hash) :=
  mkPointerDoc (St:=Traced MemoryBlobStore) (Dc:=gmap string Hash) (Some tt).
Definition newline : string := str_of_bytes [x0a].
(** An empty registry, the daemon stopped, and a dump of [text]. *)
Definition dump_world (text : string) : SampleWorld :=
  with_files (λ f, if decide (f = "dump.ndjson") then Some text else None) (with_env [] sample_world).
Definition sample_dump : string := ("ka1 {1}" +:+ newline +:+ "nothing" +:+ newline +:+ "kb1 {2}" +:+ newline +:+ "ka1 {1}" +:+ newline)%stdpp.
Definition sample_ingest (text : string) : result anyhow Ingest * SampleWorld :=
  ingest (λ _, true) sample_config "dump.ndjson" "spills" 0 100 (dump_world text).
Definition sample_build (text : string) : result anyhow unit * SampleWorld :=
  build_trees sample_config sample_doc "spills" (sample_ingest text).2.

(** What the index and the tree of the key's partition say of [k]. *)
Definition index_hash (w : SampleWorld) (k : string) : option Hash := ir_content_hash <$> recs (tables w) !! k.
Definition tree_hash (w : SampleWorld) (k : string) : option Hash :=
  x ← recs (tables w) !! k;
  root ← local_root (tables w) (ir_partition_id x);
  match (lookup (Some root) k (w_node w).1).1 with
  | Ok (Some e) => Some (le_hash e)
  | _ => None
  end.

Definition sample_chunk : list accepted :=
  chunk sample_config (w_now (dump_world sample_dump)) 0 100 (dump_lines "dump.ndjson" sample_dump).

Lemma sample_chunk_functional : functional sample_chunk.
Proof.
  assert (Forall (λ x, Forall (λ y, akey x = akey y → arec x = arec y) sample_chunk) sample_chunk) as Hf.
  { refine (bool_decide_unpack _ _). vm_compute. exact I. }
  intros x y Hx Hy. rewrite Forall_forall in Hf. specialize (Hf x Hx). rewrite Forall_forall in Hf. by apply Hf.
Qed.

Lemma dump_world_ok (D : list byte → Prop) `{!CollisionFree D} text : Offline.registry_ok D (dump_world text).
Proof.
  assert (PublisherSpec.registry_ok (St:=MemoryBlobStore) (Dc:=gmap string Hash) D (dump_world text)) as [Hi _].
  { apply fresh_registry_ok; [reflexivity|apply sample_store_ok|reflexivity|]. split; [constructor|reflexivity]. }
  eapply pub_inv_registry; [reflexivity|exact Hi].
Qed.

Lemma sample_ingest_ok : is_ok (sample_ingest sample_dump).1 = true.
Proof. vm_compute. reflexivity. Qed.
Lemma bulk_build_ok : is_ok (sample_build sample_dump).1 = true.
Proof. vm_compute. reflexivity. Qed.
Lemma bulk_build_cf : CollisionFree (λ b, b ∈ wlog (sample_build sample_dump).2).
Proof. apply collision_free_of_check. vm_compute. reflexivity. Qed.
Lemma sample_ingest_eq text : ingest (λ _, true) sample_config "dump.ndjson" "spills" 0 100 (dump_world text)
  = ((sample_ingest text).1, (sample_ingest text).2).
Proof. apply surjective_pairing. Qed.
Lemma bulk_build_eq text : build_trees sample_config sample_doc "spills" (sample_ingest text).2
  = ((sample_build text).1, (sample_build text).2).
Proof. apply surjective_pairing. Qed.
Lemma sample_chunk_head : ∃ x, x ∈ sample_chunk ∧ akey x = "ka1".
Proof.
  destruct sample_chunk as [|x l] eqn:E; [exfalso; revert E; by vm_compute|]. exists x. split; [by left|].
  assert (head (akey <$> sample_chunk) = Some "ka1"%string) as Hh by (vm_compute; reflexivity).
  rewrite E in Hh. simpl in Hh. congruence.
Qed.

(** A run of [retimestamp] after the run of the publisher in
    [PublisherSpec]. *)
Definition stopped (f : string → option string) (w : SampleWorld) : SampleWorld := with_files f (with_env [] w).
Definition sample_published : SampleWorld :=
  stopped (λ f, if decide (f = "dump.ndjson") then Some sample_dump else None) sample_world_run.2.

Lemma stopped_ok (D : list byte → Prop) `{!CollisionFree D} t0 f w :
  pub_inv D t0 w → Offline.registry_ok D (stopped f w).
Proof. intros Hi. apply (pub_inv_registry D t0 (stopped f w)); [reflexivity|]. by destruct Hi; split. Qed.

Lemma stopped_log f w : wlog (stopped f w) = wlog w.
Proof. reflexivity. Qed.

#[local] Opaque sample_world_run.
Lemma sample_published_ok (D : list byte → Prop) `{!CollisionFree D} :
  Forall D (wlog sample_published) → Offline.registry_ok D sample_published.
Proof.
  unfold sample_published. rewrite stopped_log. intros HD. apply (stopped_ok D (tables sample_world)).
  destruct (triple_run D (tables sample_world) sample_publisher 0 [(31%N, false); (62%N, true)] eq_refl
    sample_world sample_world_run.1 sample_world_run.2 sample_run_eq) as [_ Hpost].
  specialize (Hpost HD). destruct sample_world_run.1; apply Hpost;
    (apply fresh_registry_ok; [reflexivity|apply sample_store_ok|reflexivity|exact sample_env_ok]).
Qed.

Definition sample_retimestamp : result anyhow unit * SampleWorld :=
  retimestamp (λ _, true) sample_config sample_doc "dump.ndjson" "restamp" sample_published.
Lemma sample_retimestamp_ok : is_ok sample_retimestamp.1 = true.
Proof. vm_compute. reflexivity. Qed.
Lemma sample_retimestamp_cf : CollisionFree (λ b, b ∈ wlog sample_retimestamp.2).
Proof. apply collision_free_of_check. vm_compute. reflexivity. Qed.
Lemma sample_retimestamp_eq :
  retimestamp (λ _, true) sample_config sample_doc "dump.ndjson" "restamp" sample_published
  = (sample_retimestamp.1, sample_retimestamp.2).
Proof. apply surjective_pairing. Qed.
Lemma sample_retimestamp_log : Forall (λ b, b ∈ wlog sample_retimestamp.2) (wlog sample_published).
Proof. refine (bool_decide_unpack _ _). vm_compute. exact I. Qed.


#[local] Opaque sample_ingest sample_build sample_retimestamp sample_chunk ingest build_trees retimestamp.


Lemma retimestamp_republishes_witness :
  seen sample_retimestamp.2 3 "ka1" (published_entry (recs (tables sample_retimestamp.2)) 3 "ka1").
Proof.
  pose proof sample_retimestamp_cf as Hcf.
  destruct (retimestamp_republishes (λ b, b ∈ wlog sample_retimestamp.2) (λ _, true) sample_config sample_doc "restamp"
    "dump.ndjson" sample_published sample_retimestamp.1 sample_retimestamp.2) as [_ Hok].
  - exact sample_retimestamp_eq.
  - reflexivity.
  - apply sample_published_ok; [exact Hcf|exact sample_retimestamp_log].
  - by apply Forall_forall.
  - destruct (Hok (Is_true_eq_left _ sample_retimestamp_ok)) as (text & _ & _ & Hall). apply Hall.
    apply partitions_elem. reflexivity.
Defined.
End witnesses.
