(* ===== verification/Verify.v ===== *)
(** The audit of the published trees: [crates/registryd/src/verify.rs].

    Like the bulk commands it runs with the daemon stopped.  A [HashSet] of
    keys is iterated in an order of its own: [set_order].  The scratch
    directory of a full audit is removed at the end, as far as that goes:
    its errors are ignored. *)

From S2P Require Import Prelude Hash Partition Record BlobStore Hamt HamtFacts Anyhow Index PointerDoc Daemon Files Publisher Config.

Record VerifyReport := mkVerifyReport {
  partitions_checked : N;
  partitions_with_gaps : N;
  expected_total : N;
  in_tree_total : N;
  missing_total : N;
  foreign_total : N;
  requeued_total : N;
}.

(** The trie walk's recursion has one level per descent byte, and the leaf. *)
Definition WALK_FUEL : nat := S DESCENT_FUEL.

Section verify.
Context `{Blake3} `{Hex} `{Sha256} `{SocketAddrs} `{!Codec LeafEntry, !Codec IndexRecord}.
Context {St Dc : Type} `{!BlobStore St, !IrohDocs St Dc}.
Context (writable : string → bool) (set_order : gset string → list string) (cfg : Config).

Abbreviation command A := (io (World St Dc) anyhow A).

(** [set_root]: the index is the one [open] finds. *)
Definition set_root (doc : PointerDoc St Dc) (partition_id : N) (hash_hex : string) : command unit :=
  hash ← io_lift (result_map_err
    (λ _, EBail ("'" +:+ hash_hex +:+ "' is not a 32-byte hex hash")%stdpp) (Hash_from_hex hash_hex));
  found ← on_node (on_fst (io_map_err EBlob (get hash)));
  bytes ← io_lift (ok_or (EBail "refusing: node blob is not readable in the local store") found);
  _ ← io_lift (result_map_err (λ _, EBail "refusing: not a valid HAMT node") (decode bytes hash));
  _ ← on_node (set_partition_root doc partition_id hash);
  on_index (set_local_root partition_id hash).

(** [hamt::walk_entries] into a fresh vector *)
Definition walk_all (root : Hash) : io St anyhow (list LeafEntry) :=
  λ s, match walk_entries WALK_FUEL root (s, []) with
       | (Ok _, (s, entries)) => (Ok entries, s)
       | (Err e, (s, _)) => (Err (of_fault e), s)
       end.

Definition keys_path (dir : string) (partition_id : N) : string :=
  path_join dir (dec_padded 3 partition_id +:+ ".keys")%stdpp.
Definition spill_dir : string := path_join (cfg_data_dir cfg) "verify-spill".

(** The files [spill_published_keys] writes: created before the scan. *)
Definition create_keys (dir : string) (partition_ids : list N) : command unit :=
  io_fold (λ _ p, write_file writable (keys_path dir p) "") tt partition_ids.
Definition write_keys (dir : string) (_ : unit) (pk : N * list string) : command unit :=
  write_file writable (keys_path dir pk.1) (text_of (str_bytes <$> pk.2)).
Definition spill_all_keys (dir : string) (partition_ids : list N) : command unit :=
  _ ← create_keys dir partition_ids;
  spilled ← on_index (spill_published_keys (length partition_ids));
  io_fold (write_keys dir) tt (zip partition_ids spilled.1).

(** The keys the index expects in the tree. *)
Definition expected_keys (only_partition : option N) (partition_id : N) : command (gset string) :=
  match only_partition with
  | None =>
      text ← read_file (keys_path spill_dir partition_id);
      mret (list_to_set (str_of_bytes <$> lines text))
  | Some _ =>
      keys ← on_index (published_keys_for_partition partition_id);
      mret (list_to_set keys)
  end.

(** The keys the tree has: the writer's root first. *)
Definition current_root (partition_id : N) : command (option Hash) :=
  root ← on_index (get_local_root partition_id);
  match root with
  | Some root => mret (Some root)
  | None => on_node (get_partition_root partition_id)
  end.
Definition tree_keys (partition_id : N) : command (gset string) :=
  root ← current_root partition_id;
  match root with
  | Some root => entries ← on_node (on_fst (walk_all root)); mret (list_to_set (le_key <$> entries))
  | None => mret ∅
  end.

Definition requeue_one (report : VerifyReport) (key : string) : command VerifyReport :=
  requeued ← on_index (requeue key);
  mret (let '(mkVerifyReport c g e t m f r) := report in
        mkVerifyReport c g e t m f (if (requeued : bool) then wrap64 (r + 1) else r)).

(** One partition of the loop. *)
Definition audit_partition (only_partition : option N) (fix_gaps : bool) (report : VerifyReport)
    (partition_id : N) : command VerifyReport :=
  expected ← expected_keys only_partition partition_id;
  in_tree ← tree_keys partition_id;
  let missing := filter (λ k, k ∉ in_tree) (set_order expected) in
  let foreign := length (filter (λ k, k ∉ expected) (set_order in_tree)) in
  let '(mkVerifyReport checked gaps expected_n in_tree_n missing_n foreign_n requeued_n) := report in
  let checked := wrap32 (checked + 1) in
  let expected_n := wrap64 (expected_n + N.of_nat (size expected)) in
  let in_tree_n := wrap64 (in_tree_n + N.of_nat (size in_tree)) in
  let foreign_n := wrap64 (foreign_n + N.of_nat foreign) in
  if bool_decide (missing = []) then
    mret (mkVerifyReport checked gaps expected_n in_tree_n missing_n foreign_n requeued_n)
  else
    let report := mkVerifyReport checked (wrap32 (gaps + 1)) expected_n in_tree_n
                    (wrap64 (missing_n + N.of_nat (length missing))) foreign_n requeued_n in
    if (fix_gaps : bool) then io_fold requeue_one report missing else mret report.

Definition audited (only_partition : option N) : list N :=
  match only_partition with
  | Some p => [p]
  | None => N.of_nat <$> seq 0 (N.to_nat (cfg_top_level_partitions cfg))
  end.

(** [remove_dir_all], its result ignored *)
Definition remove_spill : command unit :=
  λ w, (Ok tt, with_files (λ f, if bool_decide (is_Some (strip_prefix (spill_dir +:+ "/")%stdpp f)) && writable f
                                then None else w_files w f) w).

(** [verify::run] *)
Definition verify (only_partition : option N) (fix_gaps : bool) : command VerifyReport :=
  let partitions := audited only_partition in
  _ ← (if only_partition then mret tt else spill_all_keys spill_dir partitions);
  report ← io_fold (audit_partition only_partition fix_gaps) (mkVerifyReport 0 0 0 0 0 0 0) partitions;
  _ ← (if only_partition then mret tt else remove_spill);
  mret report.
End verify.
