(* ===== verification/VerifyFacts.v ===== *)
(** What the audit reads, partition by partition. *)

From stdpp Require Import functions.
From S2P Require Import Prelude Hash Partition Record BlobStore Hamt HamtNodeFacts HamtFacts HamtWalkFacts Anyhow Index IndexFacts IndexOps PointerDoc PointerDocFacts Daemon Files Hoare PublisherInv PublisherFacts Publisher Config BulkLoad Offline BulkFacts GcFacts RestampFacts IngestFacts Verify.

(** ** What is expected *)

(** The keys the index says are published in [p]. *)
Definition expected_set `{!Codec IndexRecord} (t : Tables) (p : N) : gset string :=
  dom (filter (λ kx, published_in p kx.2) (recs t)).

(** Keys a line of a file can hold. *)
Definition keys_clean `{!Codec IndexRecord} (t : Tables) : Prop :=
  ∀ k x, recs t !! k = Some x → line_ok (str_bytes k).

Definition keys_in (p : N) (rs : list (string * IndexRecord)) : list string :=
  fst <$> filter (λ kr, published_in p kr.2) rs.

Lemma expected_elem `{!Codec IndexRecord} t p k :
  k ∈ expected_set t p ↔ ∃ x, recs t !! k = Some x ∧ published_in p x.
Proof.
  unfold expected_set. rewrite elem_of_dom. split.
  - intros [x [Hx Hp]%map_lookup_filter_Some]. by exists x.
  - intros (x & Hx & Hp). exists x. by apply map_lookup_filter_Some.
Qed.

Lemma keys_in_set `{!Codec IndexRecord} t p rs :
  (∀ k x, (k, x) ∈ rs ↔ recs t !! k = Some x) → list_to_set (keys_in p rs) = expected_set t p.
Proof.
  intros Hrs. apply set_eq. intros k. rewrite elem_of_list_to_set, expected_elem. unfold keys_in.
  rewrite list_elem_of_fmap. split.
  - intros ([k' x] & -> & [Hp Hin%Hrs]%list_elem_of_filter). by exists x.
  - intros (x & Hx%Hrs & Hp). exists (k, x). split; [done|]. by apply list_elem_of_filter.
Qed.

Lemma spill_keys_ok n rs :
  (spill_keys n rs).1 = (λ p, keys_in (N.of_nat p) rs) <$> seq 0 n.
Proof.
  unfold spill_keys. assert (∀ files total, length files = n →
    (foldl (λ '(files, total) '(key, r),
      if bool_decide (ir_status r = Published) && (ir_partition_id r <? N.of_nat n)%N
      then (alter (λ l, l ++ [key]) (N.to_nat (ir_partition_id r)) files, wrap64 (total + 1))
      else (files, total)) (files, total) rs).1
    = imap (λ p l, l ++ keys_in (N.of_nat p) rs) files) as Hgen.
  { induction rs as [|[k x] rs IH]; intros files total Hlen.
    { cbn [foldl fst]. apply list_eq. intros i. rewrite list_lookup_imap.
      destruct (files !! i); [|done]. cbn [fmap option_fmap option_map]. unfold keys_in. by rewrite app_nil_r. }
    cbn [foldl]. destruct (bool_decide_reflect (ir_status x = Published)) as [Hs|Hs];
      [destruct (N.ltb_spec (ir_partition_id x) (N.of_nat n)) as [Hp|Hp]|]; cbn [andb].
    - rewrite IH by by rewrite length_alter. apply list_eq. intros i. rewrite !list_lookup_imap.
      unfold keys_in. rewrite filter_cons. unfold published_in at 2. cbn [snd].
      destruct (decide (i = N.to_nat (ir_partition_id x))) as [->|Hne].
      + rewrite list_lookup_alter_eq, decide_True by (split; [done|]; by rewrite N2Nat.id).
        destruct (files !! _); [|done]. simpl. by rewrite <-(assoc_L (++)).
      + rewrite list_lookup_alter_ne by done.
        rewrite decide_False; [done|]. intros [_ Hq]. apply Hne. lia.
    - rewrite IH by done. apply list_eq. intros i. rewrite !list_lookup_imap.
      destruct (files !! i) as [l|] eqn:Hi; [|done]. apply lookup_lt_Some in Hi. simpl.
      unfold keys_in. rewrite filter_cons. unfold published_in at 2. cbn [snd].
      rewrite decide_False; [done|]. intros [_ Hq]. lia.
    - rewrite IH by done. apply list_eq. intros i. rewrite !list_lookup_imap.
      destruct (files !! i) as [l|]; [|done]. simpl. unfold keys_in. rewrite filter_cons.
      unfold published_in at 2. cbn [snd]. rewrite decide_False; [done|]. by intros [? _]. }
  rewrite Hgen by apply length_replicate. apply list_eq. intros i.
  rewrite list_lookup_imap, list_lookup_fmap. destruct (decide (i < n)) as [Hi|Hi].
  - rewrite lookup_replicate_2, lookup_seq_lt by done. done.
  - rewrite lookup_seq_ge by lia. by rewrite lookup_ge_None_2 by (rewrite length_replicate; lia).
Qed.

(** ** The sums of the report *)

(** [Σ |S p|] over the partitions. *)
Definition total (S : N → gset string) (ps : list N) : nat := sum_list ((λ p, size (S p)) <$> ps).

Lemma total_app S ps p : total S (ps ++ [p]) = total S ps + size (S p).
Proof. unfold total. rewrite fmap_app, sum_list_with_app. simpl. lia. Qed.

(** Sets of keys of records of the partition are disjoint: together they are
    no more than the records. *)
Lemma total_le (S : N → gset string) (m : gmap string IndexRecord) ps :
  NoDup ps → (∀ p k, p ∈ ps → k ∈ S p → ∃ x, m !! k = Some x ∧ ir_partition_id x = p) →
  total S ps ≤ size m.
Proof.
  intros Hnd HS. assert (total S ps = size (⋃ (S <$> ps)) ∧ ⋃ (S <$> ps) ⊆ dom m) as [-> Hsub].
  { induction Hnd as [|p ps Hp Hnd IH]; [done|]. destruct IH as [IHt IHs].
    { intros q k Hq. apply HS. by right. }
    unfold total in *. rewrite !fmap_cons. cbn [sum_list union_list foldr]. rewrite IHt. split.
    - change (size (S p) + size (⋃ (S <$> ps)) = size (S p ∪ ⋃ (S <$> ps))). rewrite size_union; [done|].
      intros k Hk (T & (q & -> & Hq)%list_elem_of_fmap & Hk')%elem_of_union_list.
      destruct (HS p k) as (x & Hx & <-); [by left|done|]. destruct (HS q k) as (y & Hy & <-); [by right|done|].
      apply Hp. by replace x with y by congruence.
    - change (S p ∪ ⋃ (S <$> ps) ⊆ dom m). apply union_least; [|done]. intros k Hk.
      destruct (HS p k) as (x & Hx & _); [by left|done|]. by apply elem_of_dom_2 in Hx. }
  rewrite <-size_dom. by apply subseteq_size.
Qed.

Lemma size_filter_out (E T : gset string) l :
  l ≡ₚ elements E → length (filter (λ k, k ∉ T) l) = size (E ∖ T).
Proof.
  intros Hl. unfold size, set_size. simpl. apply Permutation_length. rewrite Hl.
  apply NoDup_Permutation; [apply NoDup_filter, NoDup_elements|apply NoDup_elements|].
  intros k. rewrite list_elem_of_filter, !elem_of_elements, elem_of_difference. naive_solver.
Qed.

Lemma filter_out_nil (E T : gset string) l : l ≡ₚ elements E → filter (λ k, k ∉ T) l = [] ↔ E ⊆ T.
Proof.
  intros Hl. rewrite <-length_zero_iff_nil, (size_filter_out E T l Hl). split.
  - intros H%size_empty_inv k Hk. destruct (decide (k ∈ T)); [done|]. set_solver.
  - intros H. apply size_empty_iff. set_solver.
Qed.

Section audit.
Context `{Blake3} `{Hex} `{Sha256} `{SocketAddrs} `{!Codec LeafEntry, !LeafCodecLaws}.
Context `{!Codec IndexRecord, !CodecLaws IndexRecord index_record_dom}.
Context {St Dc : Type} `{!BlobStore St, !BlobStoreSpec St, !LocalStore St}.
Context `{!IrohDocs (Traced St) Dc, !IrohDocsLaws (Traced St) Dc}.
Context (D : list byte → Prop) `{!CollisionFree D}.
Context (writable : string → bool) (set_order : gset string → list string) (cfg : Config).
Context (Horder : ∀ s, set_order s ≡ₚ elements s).
Implicit Types w : World (Traced St) Dc.
Abbreviation triple := (triple wlog D).
Abbreviation registry_ok := (registry_ok D).

(** ** The log of a command only grows *)

Definition log_grows {A} (m : io (World (Traced St) Dc) anyhow A) : Prop :=
  ∀ w r w', m w = (r, w') → wlog w `prefix_of` wlog w'.

Lemma log_ret {A} (a : A) : log_grows (mret a).
Proof. by intros w r w' [= _ <-]. Qed.

Lemma log_bind {A B} (m : io (World (Traced St) Dc) anyhow A) (f : A → io (World (Traced St) Dc) anyhow B) :
  log_grows m → (∀ a, log_grows (f a)) → log_grows (m ≫= f).
Proof.
  intros Hm Hf w r w' Hr. unfold mbind, io_bind in Hr. destruct (m w) as [[a|e] w1] eqn:E.
  - etrans; [by eapply Hm|by eapply Hf].
  - injection Hr as _ <-. by eapply Hm.
Qed.

Lemma log_fold {A B} (f : A → B → io (World (Traced St) Dc) anyhow A) a xs :
  (∀ a x, log_grows (f a x)) → log_grows (io_fold f a xs).
Proof.
  intros Hf. revert a. induction xs as [|x xs IH]; intros a; [apply log_ret|]. simpl. by apply log_bind.
Qed.

Lemma interfere_log w : wlog w `prefix_of` wlog (interfere w).
Proof.
  unfold interfere. destruct (w_env w) as [|acts env]; [done|]. apply (foldl_log D acts (with_env env w)).
Qed.

Lemma log_index {A} (m : io RecordIndex anyhow A) : log_grows (on_index m).
Proof.
  intros w r w' Hr. unfold on_index in Hr. destruct (m _) as [r1 ix]. injection Hr as _ <-. apply interfere_log.
Qed.

Lemma log_node {A} (m : io (Traced St * Dc) anyhow A) : steps_in node_read m → log_grows (on_node m).
Proof.
  intros Hm w r w' Hr. unfold on_node in Hr. destruct (m _) as [r1 n] eqn:E. injection Hr as _ <-.
  etrans; [apply interfere_log|]. unfold wlog at 2. simpl. by rewrite (nr_log _ _ (Hm _ _ _ E)).
Qed.

Lemma log_read_file path : log_grows (read_file path).
Proof. intros w r w' Hr. unfold read_file in Hr. by destruct (w_files w path); injection Hr as _ <-. Qed.

Lemma log_write_file path text : log_grows (write_file writable path text).
Proof. intros w r w' Hr. unfold write_file in Hr. by destruct (writable path); injection Hr as _ <-. Qed.

(** ** Reads *)

(** What the audit leaves alone, and the keys [q] it has queued. *)
Record kept w0 (q : list string) (f : string → option string) w : Prop := {
  kp_recs : recs (tables w) = recs (tables w0);
  kp_roots : t_roots (tables w) = t_roots (tables w0);
  kp_queue : (rows (t_queue (tables w))).*2 = (rows (t_queue (tables w0))).*2 ++ q;
  kp_seq : next_seq_of (tables w) = (next_seq_of (tables w0) + N.of_nat (length q))%N;
  kp_files : w_files w = f;
  kp_blobs : blobs w = blobs w0;
  kp_entries : entries w = entries w0;
}.

Lemma triple_read_node w0 q f {A} (m : io (Traced St * Dc) anyhow A) (R : A → Prop) :
  steps_in node_read m →
  (∀ w a n', registry_ok w → kept w0 q f w → m (w_node w) = (Ok a, n') → contents n'.1 = blobs w0 → R a) →
  triple (λ w, registry_ok w ∧ kept w0 q f w) (on_node m) (λ a w, registry_ok w ∧ (R a ∧ kept w0 q f w)) registry_ok.
Proof.
  intros Hm HR. apply (triple_node D).
  - intros n r n' Hr. by rewrite (nr_log _ _ (Hm _ _ _ Hr)).
  - intros w r n' Hw Hk Hr HD. pose proof (Hm _ _ _ Hr) as Hrd. pose proof (ro_store _ _ Hw) as Hst.
    destruct (node_read_store D _ _ Hrd Hst) as [Hc Hst'].
    assert (blobs (with_node n' w) = blobs w) as Hb' by exact Hc.
    assert (entries (with_node n' w) = entries w) as He' by apply Hrd.
    assert (registry_ok (with_node n' w)) as Hw'.
    { apply (registry_frame D w); try done; [apply Hw..|by rewrite Hb'|by apply keeps_sub]. }
    destruct r as [a|]; [|done]. split; [done|]. split.
    + apply (HR w a n'); [done..|]. rewrite <-(kp_blobs _ _ _ _ Hk). exact Hb'.
    + destruct Hk. split; try done; congruence.
Qed.

Lemma triple_read_index w0 q f {A} (body : Tables → result anyhow A) (R : A → Prop) :
  (∀ t a, recs t = recs (tables w0) → t_roots t = t_roots (tables w0) → index_inv t → body t = Ok a → R a) →
  triple (λ w, registry_ok w ∧ kept w0 q f w) (on_index (read_txn body))
    (λ a w, registry_ok w ∧ (R a ∧ kept w0 q f w)) registry_ok.
Proof.
  intros HR. apply (triple_index D). intros w r ix' Hw Hk Hr. apply read_txn_cases in Hr as [Hdb Hr].
  assert (registry_ok (with_index ix' w)) as Hw' by by apply registry_index_same.
  destruct r as [a|]; [|done]. split; [done|]. split.
  - destruct Hr as [?|Hr]; [done|]. by apply (HR (tables w)); [apply Hk..|apply Hw|].
  - assert (tables (with_index ix' w) = tables w) as Ht by exact Hdb.
    destruct Hk. split; rewrite ?Ht; done.
Qed.

(** ** The keys of a tree *)

(** The keys under the root the audit reads for [p]. *)
Definition tree_set w (p : N) (T : gset string) : Prop :=
  match local_root (tables w) p with
  | Some r => ∃ es, rep_root (blobs w) (Some r) es ∧ T = list_to_set (le_key <$> es)
  | None =>
      match entries w !! partition_key p with
      | Some _ => ∃ r es, doc_root (blobs w) (entries w) p r ∧ rep_root (blobs w) (Some r) es ∧
                    T = list_to_set (le_key <$> es)
      | None => T = ∅
      end
  end.

Lemma tree_set_det w p T1 T2 : tree_set w p T1 → tree_set w p T2 → T1 = T2.
Proof.
  unfold tree_set. case_match.
  - intros (es1 & Hr1 & ->) (es2 & Hr2 & ->). by rewrite (rep_det _ _ _ _ _ Hr1 Hr2).
  - case_match; [|by intros -> ->].
    intros (r1 & es1 & Hd1 & Hr1 & ->) (r2 & es2 & Hd2 & Hr2 & ->).
    rewrite (doc_root_det _ _ _ _ _ Hd1 Hd2) in Hr1. by rewrite (rep_det _ _ _ _ _ Hr1 Hr2).
Qed.

Lemma tree_set_ex w p : (p < 2 ^ 32)%N → registry_ok w → ∃ T, tree_set w p T.
Proof.
  intros Hp Hw. unfold tree_set. destruct (local_root (tables w) p) as [r|] eqn:El.
  - destruct (ro_local _ _ Hw _ _ El) as [_ (es & Hrep & _)]. by exists (list_to_set (le_key <$> es)), es.
  - destruct (entries w !! partition_key p) as [h|] eqn:Eh; [|by eexists].
    destruct (ro_doc _ _ Hw _ _ Hp Eh) as (r & Hd & es & Hrep & _). by exists (list_to_set (le_key <$> es)), r, es.
Qed.

Lemma tree_set_records w p T k : (p < 2 ^ 32)%N → registry_ok w → tree_set w p T → k ∈ T →
  ∃ x, recs (tables w) !! k = Some x ∧ ir_partition_id x = p.
Proof.
  intros Hp Hw HT Hk. unfold tree_set in HT.
  assert (∃ r es, tree_ok (blobs w) (tables w) p r ∧ rep_root (blobs w) (Some r) es ∧ T = list_to_set (le_key <$> es))
    as (r & es & (es' & Hrep' & Hes) & Hrep & ->).
  { destruct (local_root (tables w) p) as [r|] eqn:El.
    - destruct HT as (es & Hrep & ->). exists r, es. split_and!; [|done|done]. by apply (ro_local _ _ Hw) in El as [_ ?].
    - destruct (entries w !! partition_key p) as [h|] eqn:Eh; [|by subst T].
      destruct HT as (r & es & Hd & Hrep & ->). destruct (ro_doc _ _ Hw _ _ Hp Eh) as (r' & Hd' & Ht).
      rewrite (doc_root_det _ _ _ _ _ Hd' Hd) in Ht. by exists r, es. }
  rewrite (rep_det _ _ _ _ _ Hrep' Hrep) in Hes.
  apply elem_of_list_to_set, list_elem_of_fmap in Hk as (e & -> & He).
  destruct (Hes e He) as (x & Hx & _ & Hpid). by exists x.
Qed.

(** The listing of a tree. *)
Lemma walk_all_read r : steps_in store_read (walk_all (St:=Traced St) r).
Proof.
  intros s x s' Hr. unfold walk_all in Hr. destruct (walk_entries WALK_FUEL r (s, [])) as [y [s1 out]] eqn:E.
  assert (∀ fuel h, steps_in set_read (walk_entries (St:=Traced St) fuel h)) as Hwalk.
  { intros fuel. induction fuel as [|fuel IH]; intros h; simpl; [by apply steps_in_err; apply _|].
    apply (steps_in_bind set_read); [apply read_on_fst, steps_in_map_err, read_load_node|].
    intros [es|slots]; [apply read_modify; by intros []|]. apply steps_in_fold; [apply _|intros _ c; apply IH]. }
  pose proof (Hwalk _ _ _ _ _ E) as Hs. destruct y; injection Hr as <- <-; exact Hs.
Qed.

Lemma walk_all_ok s r es out s' :
  rep_root (contents s) (Some r) es → walk_all (St:=Traced St) r s = (Ok out, s') → out = es.
Proof.
  intros Hrep Hr. unfold walk_all in Hr. destruct (walk_entries WALK_FUEL r (s, [])) as [[[]|] [s1 o]] eqn:E; [|done].
  injection Hr as -> ->. by apply (walk_entries_rep _ [] _ es) in E as [-> _].
Qed.

Lemma triple_tree_keys w0 q f p T : tree_set w0 p T →
  triple (λ w, registry_ok w ∧ kept w0 q f w) (tree_keys p)
    (λ T' w, T' = T ∧ (registry_ok w ∧ kept w0 q f w)) registry_ok.
Proof.
  intros HT. unfold tree_keys.
  eapply (triple_bind _ _ _ _ _ (λ o w, (match o with
    | Some r => ∃ es, rep_root (blobs w0) (Some r) es ∧ T = list_to_set (le_key <$> es)
    | None => T = ∅ end) ∧ (registry_ok w ∧ kept w0 q f w))).
  { unfold current_root. eapply (triple_bind _ _ _ _ _ (λ o w, o = local_root (tables w0) p ∧ (registry_ok w ∧ kept w0 q f w))).
    { eapply triple_conseq; [apply (triple_read_index w0 q f _ (λ o, o = local_root (tables w0) p))|done|by intros o w (? & ? & ?)|done].
      intros t o _ Ht _ [= <-]. unfold local_root. by rewrite Ht. }
    intros o. apply (triple_given D); [destruct o; [apply log_ret|apply log_node, read_get_named_root]|].
    intros ->. unfold tree_set in HT. destruct (local_root (tables w0) p) as [r|].
    { apply triple_ret. by intros w. }
    eapply triple_conseq; [apply (triple_read_node w0 q f _ (λ a, match a with
      | Some r => ∃ es, rep_root (blobs w0) (Some r) es ∧ T = list_to_set (le_key <$> es)
      | None => T = ∅ end)); [apply read_get_named_root|]|done|by intros a w (? & ? & ?)|done].
    intros w a n' Hw Hk Hr Hc. apply get_named_root_ok in Hr. fold (entries w) in Hr.
    rewrite (kp_entries _ _ _ _ Hk) in Hr. destruct (entries w0 !! partition_key p) as [h|] eqn:Eh; [|by subst a].
    destruct Hr as (r & -> & Hbs). rewrite Hc in Hbs. destruct HT as (r' & es & Hd & Hrep & ->).
    assert (doc_root (blobs w0) (entries w0) p r) as Hd' by by exists h.
    rewrite (doc_root_det _ _ _ _ _ Hd' Hd). by exists es. }
  intros o. cbv beta. apply (triple_given D).
  { destruct o; [|apply log_ret]. apply log_bind; [apply log_node, node_read_fst, walk_all_read|intros es; apply log_ret]. }
  intros Ho. destruct o as [r|]; [|subst T; apply triple_ret; by intros w []].
  destruct Ho as (es & Hrep & ->).
  eapply triple_bind; [apply (triple_read_node w0 q f _ (λ out, out = es)); [apply node_read_fst, walk_all_read|]|].
  - intros w out n' Hw Hk Hr _. destruct (w_node w) as [s d] eqn:En.
    apply on_fst_run in Hr as (s' & Hr & ->). eapply walk_all_ok; [|exact Hr].
    pose proof (kp_blobs _ _ _ _ Hk) as Hb. unfold blobs in Hb. rewrite En in Hb.
    change (rep_root (contents (s, d).1) (Some r) es). by rewrite Hb.
  - intros out. apply triple_ret. intros w (Hw & -> & Hk). by split.
Qed.

(** ** The keys expected *)

(** The files of the full audit. *)
Definition keys_spilled (f : string → option string) (t : Tables) : Prop :=
  ∀ p, p ∈ audited cfg None → ∃ ks, f (keys_path (spill_dir cfg) p) = Some (text_of (str_bytes <$> ks)) ∧
    list_to_set ks = expected_set t p ∧ Forall (line_ok ∘ str_bytes) ks.

Lemma triple_expected_keys only w0 q f p :
  (only = None → keys_spilled f (tables w0) ∧ p ∈ audited cfg None) →
  triple (λ w, registry_ok w ∧ kept w0 q f w) (expected_keys cfg only p)
    (λ E w, E = expected_set (tables w0) p ∧ (registry_ok w ∧ kept w0 q f w)) registry_ok.
Proof.
  intros Hf. unfold expected_keys. destruct only as [p'|].
  - eapply triple_bind; [apply (triple_read_index w0 q f _ (λ ks, list_to_set ks = expected_set (tables w0) p))|].
    + intros t ks Hrec _ Hinv Hr. destruct (scan_ok _ Hinv) as (rs & Hscan & Hrs). rewrite Hscan in Hr.
      cbn [result_map] in Hr. injection Hr as <-. rewrite Hrec in Hrs. rewrite <-(keys_in_set (tables w0) p rs Hrs).
      unfold keys_in. f_equal. f_equal. apply list_filter_iff. intros kr. unfold published_in. tauto.
    + intros ks. apply triple_ret. intros w (Hw & <- & Hk). by split.
  - destruct (Hf eq_refl) as [Hs Hp]. destruct (Hs p Hp) as (ks & Htext & Hks & Hok).
    eapply triple_bind; [apply triple_read_file; by intros w []|]. intros text. apply triple_ret.
    intros w [[Hw Hk] Hr]. rewrite (kp_files _ _ _ _ Hk), Htext in Hr. injection Hr as <-.
    split; [|done]. rewrite lines_text by by apply Forall_fmap.
    rewrite <-list_fmap_compose. rewrite <-Hks. f_equal. rewrite <-(list_fmap_id ks) at 2.
    apply list_fmap_ext. intros i k _. apply str_of_bytes_of.
Qed.

(** ** Re-queueing *)

Lemma requeue_seq key ix b ix' :
  requeue key ix = (Ok b, ix') → next_seq_of (db ix') = if (b : bool) then wrap64 (next_seq_of (db ix) + 1) else next_seq_of (db ix).
Proof.
  intros Hr. unfold requeue in Hr. apply write_txn_cases in Hr as [(a & t & [= <-] & Hb & <-)|(e & ? & _)]; [|done].
  case_bool_decide; by injection Hb as <- <-.
Qed.

Definition with_requeued (n : N) (report : VerifyReport) : VerifyReport :=
  mkVerifyReport (partitions_checked report) (partitions_with_gaps report) (expected_total report)
    (in_tree_total report) (missing_total report) (foreign_total report) n.

(** The queue takes [n] more. *)
Definition room w0 (n : nat) : Prop := (next_seq_of (tables w0) + N.of_nat n < 2 ^ 64)%N.

Lemma triple_requeue_one w0 q f report key :
  is_Some (recs (tables w0) !! key) → room w0 (S (length q)) → requeued_total report = N.of_nat (length q) →
  triple (λ w, registry_ok w ∧ kept w0 q f w) (requeue_one report key)
    (λ report' w, report' = with_requeued (N.of_nat (S (length q))) report ∧ (registry_ok w ∧ kept w0 (q ++ [key]) f w)) registry_ok.
Proof.
  intros Hkey Hroom Hrep. unfold requeue_one, room in *.
  eapply (triple_bind _ _ _ _ _ (λ b w, registry_ok w ∧ (b = true ∧ kept w0 (q ++ [key]) f w))).
  - apply (triple_index D). intros w r ix' Hw Hk Hr.
    pose proof (kp_recs _ _ _ _ Hk) as Hrec. pose proof (kp_seq _ _ _ _ Hk) as Hseq. unfold tables in Hrec, Hseq.
    destruct (requeue_ok _ _ _ _ Hr (ro_index _ _ Hw)) as [[-> Hdb]|(-> & Hinv & Hext & Hr' & Hro & Hrows)].
    { rewrite Hseq. unfold tables in Hroom. lia. }
    { by apply registry_index_same. }
    rewrite Hrec in *. rewrite bool_decide_true in * by done. split; [|split; [done|]].
    + apply (registry_frame D w); try done; [apply Hw..|by apply keeps_ext|].
      unfold local_root, tables. simpl. by rewrite Hro.
    + pose proof (requeue_seq _ _ _ _ Hr) as Hs. destruct Hk. split; try done; unfold tables in *; simpl in *.
      * congruence.
      * rewrite Hrows, fmap_app, kp_queue0. simpl. by rewrite <-(assoc_L (++)).
      * rewrite Hs, Hseq, wrap64_small by lia. rewrite length_app. simpl. lia.
  - intros b. apply triple_ret. intros w (Hw & -> & Hk). split; [|done]. destruct report. simpl in *. subst.
    rewrite wrap64_small by lia. unfold with_requeued. simpl. f_equal. lia.
Qed.

Lemma triple_requeues w0 q f report keys :
  (∀ k, k ∈ keys → is_Some (recs (tables w0) !! k)) → room w0 (length q + length keys) →
  requeued_total report = N.of_nat (length q) →
  triple (λ w, registry_ok w ∧ kept w0 q f w) (io_fold requeue_one report keys)
    (λ report' w, report' = with_requeued (N.of_nat (length q + length keys)) report ∧
       (registry_ok w ∧ kept w0 (q ++ keys) f w)) registry_ok.
Proof.
  revert q report. induction keys as [|k keys IH]; intros q report Hk Hroom Hrep; cbn [io_fold].
  - apply triple_ret. intros w. rewrite app_nil_r. split; [|done]. destruct report. simpl in *. subst.
    unfold with_requeued. simpl. f_equal. lia.
  - cbn [length] in *. eapply triple_bind; [apply triple_requeue_one; [apply Hk; by left| |done]|].
    { unfold room in *. lia. }
    intros report1. apply (triple_given D).
    { apply log_fold. intros a x. apply log_bind; [apply log_index|intros b; apply log_ret]. }
    intros ->. eapply triple_conseq; [apply (IH (q ++ [k]))|done| |done].
    + intros k' Hk'. apply Hk. by right.
    + unfold room in *. rewrite length_app. simpl. lia.
    + simpl. rewrite length_app. simpl. lia.
    + intros report' w [-> Hw]. rewrite <-(assoc_L (++)) in Hw. split; [|done].
      unfold with_requeued. simpl. f_equal. rewrite length_app. simpl. lia.
Qed.

(** ** The report *)

(** The report of partitions [ps] whose index keys are [E] and whose trees
    have the keys [T]. *)
Definition report_of (E T : N → gset string) (fix_gaps : bool) (ps : list N) : VerifyReport :=
  let missing := N.of_nat (total (λ p, E p ∖ T p) ps) in
  mkVerifyReport (N.of_nat (length ps)) (N.of_nat (length (filter (λ p, E p ⊈ T p) ps)))
    (N.of_nat (total E ps)) (N.of_nat (total T ps)) missing (N.of_nat (total (λ p, T p ∖ E p) ps))
    (if fix_gaps then missing else 0).

(** The keys [--fix] queues, in order. *)
Definition missing_keys (E T : N → gset string) (p : N) : list string :=
  filter (λ k, k ∉ T p) (set_order (E p)).
Definition queued_keys (E T : N → gset string) (fix_gaps : bool) (ps : list N) : list string :=
  if fix_gaps then concat (missing_keys E T <$> ps) else [].

Lemma queued_length E T ps : length (queued_keys E T true ps) = total (λ p, E p ∖ T p) ps.
Proof.
  unfold queued_keys. induction ps as [|p ps IH]; [done|]. rewrite fmap_cons. cbn [concat].
  rewrite length_app, IH. unfold missing_keys. by rewrite (size_filter_out (E p) (T p)) by apply Horder.
Qed.

Lemma log_requeues report keys : log_grows (io_fold requeue_one report keys).
Proof. apply log_fold. intros a x. apply log_bind; [apply log_index|intros b; apply log_ret]. Qed.

Lemma log_tree_keys p : log_grows (tree_keys p).
Proof.
  apply log_bind; [apply log_bind; [apply log_index|intros []; [apply log_ret|apply log_node, read_get_named_root]]|].
  intros []; [|apply log_ret]. apply log_bind; [apply log_node, node_read_fst, walk_all_read|intros; apply log_ret].
Qed.

(** What is done with the two sets of keys. *)
Definition tally (fix_gaps : bool) (report : VerifyReport) (expected in_tree : gset string) : io (World (Traced St) Dc) anyhow VerifyReport :=
  let missing := filter (λ k, k ∉ in_tree) (set_order expected) in
  let foreign := length (filter (λ k, k ∉ expected) (set_order in_tree)) in
  let '(mkVerifyReport checked gaps expected_n in_tree_n missing_n foreign_n requeued_n) := report in
  let checked := wrap32 (checked + 1) in
  let expected_n := wrap64 (expected_n + N.of_nat (size expected)) in
  let in_tree_n := wrap64 (in_tree_n + N.of_nat (size in_tree)) in
  let foreign_n := wrap64 (foreign_n + N.of_nat foreign) in
  if bool_decide (missing = []) then
    mret (mkVerifyReport checked gaps expected_n in_tree_n missing_n foreign_n requeued_n)
  else
    let report := mkVerifyReport checked (wrap32 (gaps + 1)) expected_n in_tree_n
                    (wrap64 (missing_n + N.of_nat (length missing))) foreign_n requeued_n in
    if fix_gaps then io_fold requeue_one report missing else mret report.

Lemma log_tally fix_gaps report E' T' : log_grows (tally fix_gaps report E' T').
Proof. unfold tally. destruct report. case_match; [apply log_ret|]. case_match; [apply log_requeues|apply log_ret]. Qed.

Lemma log_expected only p : log_grows (expected_keys cfg only p).
Proof.
  unfold expected_keys. destruct only; (apply log_bind; [|intros; apply log_ret]);
    [apply log_index|apply log_read_file].
Qed.
Lemma log_audit only fix_gaps report p : log_grows (audit_partition set_order cfg only fix_gaps report p).
Proof.
  change (log_grows (E' ← expected_keys cfg only p; T' ← tree_keys p; tally fix_gaps report E' T')).
  apply log_bind; [apply log_expected|]. intros E'. apply log_bind; [apply log_tree_keys|]. intros T'. apply log_tally.
Qed.

Section partitions.
Context w0 (T : N → gset string) (only : option N) (fix_gaps : bool) (f : string → option string).
Let E p := expected_set (tables w0) p.
Context (HT : ∀ p, p ∈ audited cfg only → tree_set w0 p (T p)).
Context (Hw0 : registry_ok w0) (Hlt : ∀ p, p ∈ audited cfg only → (p < 2 ^ 32)%N) (Hnd : NoDup (audited cfg only)).
Context (Hfiles : only = None → keys_spilled f (tables w0)).
Context (Hroom : room w0 (size (recs (tables w0)))).

Lemma audited_total (S : N → gset string) ps :
  ps ⊆ audited cfg only → NoDup ps → (∀ p, S p ⊆ E p ∨ S p ⊆ T p) →
  total S ps ≤ size (recs (tables w0)).
Proof.
  intros Hps Hd HS. apply total_le; [done|]. intros p k Hp%Hps Hk. destruct (HS p) as [HE|HTp].
  - apply HE, expected_elem in Hk as (x & Hx & _ & Hpid). by exists x.
  - apply (tree_set_records _ _ (T p)); [by apply Hlt|done|by apply HT|by apply HTp].
Qed.

(** A counter after one more partition. *)
Lemma wrap_total (S : N → gset string) ps p :
  ps ++ [p] ⊆ audited cfg only → NoDup (ps ++ [p]) → (∀ p, S p ⊆ E p ∨ S p ⊆ T p) →
  wrap64 (N.of_nat (total S ps) + N.of_nat (size (S p))) = N.of_nat (total S (ps ++ [p])).
Proof.
  intros Hps Hd HS. pose proof (audited_total S _ Hps Hd HS) as Hle. rewrite total_app in *.
  rewrite wrap64_small by (unfold room in Hroom; lia). lia.
Qed.

Lemma audited_length ps : ps ⊆ audited cfg only → NoDup ps → length ps ≤ length (audited cfg only).
Proof. intros. by apply submseteq_length, NoDup_submseteq. Qed.

Context (Hparts : (N.of_nat (length (audited cfg only)) < 2 ^ 32)%N).

Lemma report_of_app done p :
  done ++ [p] ⊆ audited cfg only → NoDup (done ++ [p]) →
  report_of E T fix_gaps (done ++ [p]) = mkVerifyReport (wrap32 (N.of_nat (length done) + 1))
    (let gaps := partitions_with_gaps (report_of E T fix_gaps done) in
     if decide (E p ⊆ T p) then gaps else wrap32 (gaps + 1))
    (wrap64 (N.of_nat (total E done) + N.of_nat (size (E p))))
    (wrap64 (N.of_nat (total T done) + N.of_nat (size (T p))))
    (wrap64 (N.of_nat (total (λ p, E p ∖ T p) done) + N.of_nat (size (E p ∖ T p))))
    (wrap64 (N.of_nat (total (λ p, T p ∖ E p) done) + N.of_nat (size (T p ∖ E p))))
    (if fix_gaps then wrap64 (N.of_nat (total (λ p, E p ∖ T p) done) + N.of_nat (size (E p ∖ T p))) else 0).
Proof.
  intros Hsub Hd. pose proof (audited_length _ Hsub Hd) as Hlen. rewrite length_app in Hlen. simpl in Hlen.
  pose proof (length_filter (λ p, E p ⊈ T p) done) as Hle.
  rewrite (wrap_total E), (wrap_total T), (wrap_total (λ p, E p ∖ T p)), (wrap_total (λ p, T p ∖ E p))
    by (done || set_solver).
  unfold report_of. cbn [partitions_with_gaps]. f_equal.
  - rewrite wrap32_small by lia. rewrite length_app. simpl. lia.
  - rewrite filter_app, length_app, filter_cons, filter_nil. destruct (decide (E p ⊆ T p)) as [H'|H'].
    + rewrite decide_False by tauto. simpl. lia.
    + rewrite decide_True by done. rewrite wrap32_small by lia. simpl. lia.
Qed.

Lemma triple_tally done p : p ∈ audited cfg only → done ++ [p] ⊆ audited cfg only → NoDup (done ++ [p]) →
  triple (λ w, registry_ok w ∧ kept w0 (queued_keys E T fix_gaps done) f w)
    (tally fix_gaps (report_of E T fix_gaps done) (E p) (T p))
    (λ report w, report = report_of E T fix_gaps (done ++ [p]) ∧
       (registry_ok w ∧ kept w0 (queued_keys E T fix_gaps (done ++ [p])) f w)) registry_ok.
Proof.
  intros Hp Hsub Hd. pose proof (report_of_app done p Hsub Hd) as Hrep.
  assert (total (λ p, E p ∖ T p) (done ++ [p]) ≤ size (recs (tables w0))) as Hle.
  { apply audited_total; [done..|]. intros q. left. set_solver. }
  assert (wrap64 (N.of_nat (total (λ p, E p ∖ T p) done) + N.of_nat (size (E p ∖ T p)))
    = N.of_nat (total (λ p, E p ∖ T p) (done ++ [p]))) as Hw.
  { apply (wrap_total (λ p, E p ∖ T p)); [done..|]. intros q. left. set_solver. }
  rewrite total_app in Hle, Hw.
  set (R := report_of E T fix_gaps (done ++ [p])) in *. unfold tally, report_of. rewrite (size_filter_out (E p) (T p)), (size_filter_out (T p) (E p)) by apply Horder.
  case_bool_decide as Hnil.
  - apply (filter_out_nil (E p) (T p) _ (Horder _)) in Hnil as Hin.
    assert (size (E p ∖ T p) = 0) as Hz by (apply size_empty_iff; set_solver). rewrite Hz in Hw.
    apply triple_ret. intros w [Hwo Hk]. split_and!; [|done|].
    + rewrite Hrep, decide_True by done. rewrite Hz, Hw, Nat.add_0_r. done.
    + unfold queued_keys. destruct fix_gaps; [|done]. rewrite fmap_app, concat_app. simpl.
      unfold missing_keys at 2. by rewrite Hnil, !app_nil_r.
  - assert (¬ E p ⊆ T p) as Hin by by rewrite <-(filter_out_nil (E p) (T p) _ (Horder _)).
    rewrite Hrep, decide_False by done. cbn [partitions_with_gaps report_of].
    destruct fix_gaps; [|by apply triple_ret].
    eapply triple_conseq; [apply (triple_requeues w0 (queued_keys E T true done) f)|done| |done].
    + intros k [_ Hk]%list_elem_of_filter. rewrite Horder in Hk. apply elem_of_elements, expected_elem in Hk as (x & Hx & _).
      by eexists.
    + rewrite queued_length, (size_filter_out (E p) (T p)) by apply Horder. unfold room in *. lia.
    + cbn [requeued_total]. by rewrite queued_length.
    + intros report w [-> Hk]. rewrite queued_length, (size_filter_out (E p) (T p)) by apply Horder. split.
      * unfold with_requeued. cbn. by rewrite Hw.
      * unfold queued_keys in *. rewrite fmap_app, concat_app. simpl. by rewrite app_nil_r.
Qed.

Lemma triple_audit done p rest : audited cfg only = done ++ p :: rest →
  triple (λ w, registry_ok w ∧ kept w0 (queued_keys E T fix_gaps done) f w)
    (audit_partition set_order cfg only fix_gaps (report_of E T fix_gaps done) p)
    (λ report w, report = report_of E T fix_gaps (done ++ [p]) ∧
       (registry_ok w ∧ kept w0 (queued_keys E T fix_gaps (done ++ [p])) f w)) registry_ok.
Proof.
  intros Hsplit. assert (p ∈ audited cfg only) as Hp by (rewrite Hsplit; set_solver).
  assert (done ++ [p] ⊆ audited cfg only) as Hsub by (rewrite Hsplit; set_solver).
  assert (NoDup (done ++ [p])) as Hnd1.
  { rewrite Hsplit in Hnd. rewrite cons_middle, (assoc_L (++)) in Hnd. by apply NoDup_app in Hnd as [? _]. }
  unfold audit_partition. change (λ expected : gset string, _) with
    (λ E', T' ← tree_keys p; tally fix_gaps (report_of E T fix_gaps done) E' T').
  eapply triple_bind; [apply (triple_expected_keys only w0 _ f p); intros ->; by auto|]. intros E'. cbv beta.
  apply (triple_given D). { apply log_bind; [apply log_tree_keys|intros; apply log_tally]. }
  intros ->. eapply triple_bind; [by apply triple_tree_keys, HT|]. intros T'. cbv beta.
  apply (triple_given D); [apply log_tally|]. intros ->. by apply triple_tally.
Qed.

(** The loop over the partitions. *)
Lemma triple_audits :
  triple (λ w, registry_ok w ∧ kept w0 [] f w)
    (io_fold (audit_partition set_order cfg only fix_gaps) (mkVerifyReport 0 0 0 0 0 0 0) (audited cfg only))
    (λ report w, report = report_of E T fix_gaps (audited cfg only) ∧
       (registry_ok w ∧ kept w0 (queued_keys E T fix_gaps (audited cfg only)) f w)) registry_ok.
Proof.
  assert (∀ done rest, audited cfg only = done ++ rest →
    triple (λ w, registry_ok w ∧ kept w0 (queued_keys E T fix_gaps done) f w)
      (io_fold (audit_partition set_order cfg only fix_gaps) (report_of E T fix_gaps done) rest)
      (λ report w, report = report_of E T fix_gaps (audited cfg only) ∧
         (registry_ok w ∧ kept w0 (queued_keys E T fix_gaps (audited cfg only)) f w)) registry_ok) as Hgen.
  { intros done rest. revert done. induction rest as [|p rest IH]; intros done Hsplit; cbn [io_fold].
    - rewrite app_nil_r in Hsplit. rewrite Hsplit. by apply triple_ret.
    - eapply triple_bind; [by eapply triple_audit|]. intros report. cbv beta. apply (triple_given D).
      + apply log_fold. intros a x. apply log_audit.
      + intros ->. apply IH. by rewrite <-(assoc_L (++)). }
  pose proof (Hgen [] _ eq_refl) as H'.
  assert (report_of E T fix_gaps [] = mkVerifyReport 0 0 0 0 0 0 0) as Hz by by destruct fix_gaps.
  assert (queued_keys E T fix_gaps [] = []) as Hq by by destruct fix_gaps.
  by rewrite Hz, Hq in H'.
Qed.
End partitions.

(** ** The files of the full audit *)

Section spill.
Context w0 (Hclean : keys_clean (tables w0)) (Hparts : (cfg_top_level_partitions cfg < 2 ^ 32)%N).

(** Only files changed. *)
Definition files_only w : Prop := registry_ok w ∧ kept w0 [] (w_files w) w.

Lemma files_only_write path text w : files_only w → files_only (with_files (<[path := Some text]> (w_files w)) w).
Proof. intros [Hw []]. split; [by apply registry_files|by split]. Qed.

Lemma audited_lt p : p ∈ audited cfg None → (p < 2 ^ 32)%N.
Proof. intros (i & -> & Hi%elem_of_seq)%list_elem_of_fmap. lia. Qed.

Lemma triple_spill_keys n :
  triple files_only (on_index (spill_published_keys n))
    (λ spilled w, (∃ rs, (∀ k x, (k, x) ∈ rs ↔ recs (tables w0) !! k = Some x) ∧
       spilled.1 = (λ p, keys_in (N.of_nat p) rs) <$> seq 0 n) ∧ files_only w) registry_ok.
Proof.
  apply (triple_index D _ (λ w, kept w0 [] (w_files w) w)). intros w r ix' Hw Hk Hr.
  apply read_txn_cases in Hr as [Hdb Hr]. assert (registry_ok (with_index ix' w)) as Hw' by by apply registry_index_same.
  destruct r as [spilled|]; [|done]. destruct (scan_ok _ (ro_index _ _ Hw)) as (rs & Hscan & Hrs).
  split; [|split; [done|]].
  - exists rs. split; [intros k x; by rewrite Hrs, (kp_recs _ _ _ _ Hk)|].
    destruct Hr as [?|Hr]; [done|]. unfold tables in Hscan. rewrite Hscan in Hr. injection Hr as ->. apply spill_keys_ok.
  - assert (tables (with_index ix' w) = tables w) as Ht by exact Hdb. destruct Hk. split; rewrite ?Ht; done.
Qed.

Lemma zip_spilled {A} (g : N → A) n :
  zip (N.of_nat <$> seq 0 n) ((λ p, g (N.of_nat p)) <$> seq 0 n) = (λ p, (p, g p)) <$> (N.of_nat <$> seq 0 n).
Proof. generalize 0. induction n as [|n IH]; intros i; [done|]. cbn [seq fmap list_fmap]. simpl. f_equal. apply IH. Qed.

Lemma triple_write_keys dir (g : N → list string) :
  triple files_only (io_fold (write_keys writable dir) tt ((λ p, (p, g p)) <$> audited cfg None))
    (λ _ w, files_only w ∧ ∀ p, p ∈ audited cfg None →
       w_files w (keys_path dir p) = Some (text_of (str_bytes <$> g p))) registry_ok.
Proof.
  set (xs := (λ p, (p, g p)) <$> audited cfg None).
  eapply triple_conseq; [apply (triple_fold wlog D _ (λ done _ w, files_only w ∧ ∀ p, p ∈ done.*1 →
    w_files w (keys_path dir p) = Some (text_of (str_bytes <$> g p))) registry_ok)| | |done].
  - intros done [p ks] rest [] Hsplit.
    assert ((p, ks) ∈ xs) as (p' & [= -> ->] & Hp)%list_elem_of_fmap by (rewrite Hsplit; set_solver).
    apply triple_write_file; [|by intros w [[]]]. intros w [Hw Hf]. split; [by apply files_only_write|].
    intros q Hq. rewrite fmap_app, elem_of_app in Hq. cbn [fmap list_fmap fst] in Hq. unfold with_files. cbn [w_files].
    destruct (decide (q = p')) as [->|Hne]; [by rewrite fn_lookup_insert|].
    rewrite fn_lookup_insert_ne; [apply Hf; set_solver|]. intros Heq. apply Hne. symmetry.
    eapply padded_path_inj; [by apply audited_lt| |exact Heq]. destruct Hq as [Hq|?]; [|set_solver].
    apply audited_lt. apply list_elem_of_fmap in Hq as ([q' ks'] & -> & Hq).
    assert ((q', ks') ∈ xs) as (? & [= -> _] & ?)%list_elem_of_fmap by (rewrite Hsplit; set_solver). done.
  - intros w Hw. split; [done|]. by intros p ?%elem_of_nil.
  - intros [] w [Hw Hf]. split; [done|]. intros p Hp. apply Hf. unfold xs. rewrite <-list_fmap_compose.
    by apply (list_elem_of_fmap_2 (λ p, p)).
Qed.

Lemma triple_spill_all :
  triple files_only (spill_all_keys writable (spill_dir cfg) (audited cfg None))
    (λ _ w, files_only w ∧ keys_spilled (w_files w) (tables w0)) registry_ok.
Proof.
  unfold spill_all_keys. eapply (triple_bind _ _ _ _ _ (λ _ w, files_only w)).
  { apply (triple_fold wlog D _ (λ _ _ w, files_only w) registry_ok). intros done p rest a _.
    apply triple_write_file; [|by intros w []]. intros w. apply files_only_write. }
  intros []. eapply triple_bind; [apply triple_spill_keys|]. intros spilled. cbv beta.
  apply (triple_given D). { apply log_fold. intros a x. apply log_write_file. }
  intros (rs & Hrs & ->).
  assert (zip (audited cfg None) ((λ p, keys_in (N.of_nat p) rs) <$> seq 0 (length (audited cfg None)))
    = (λ p, (p, keys_in p rs)) <$> audited cfg None) as ->.
  { unfold audited. rewrite length_fmap, length_seq. apply (zip_spilled (λ p, keys_in p rs)). }
  eapply triple_conseq; [apply (triple_write_keys (spill_dir cfg) (λ p, keys_in p rs))|done| |done].
  intros _ w [Hw Hf]. split; [done|]. intros p Hp. exists (keys_in p rs). split_and!; [by apply Hf|by apply keys_in_set|].
  apply Forall_forall. intros k ([k' x] & -> & [_ Hin]%list_elem_of_filter)%list_elem_of_fmap.
  by eapply Hclean, Hrs.
Qed.
End spill.
End audit.
