(* ===== verification/VerifySpec.v ===== *)
(** What the audit reports and repairs. *)

From stdpp Require Import functions.
From S2P Require Import Prelude Hash Partition Record BlobStore Hamt HamtNodeFacts HamtFacts Samples Iscc CidKey CodesSpec Anyhow Index IndexFacts IndexOps PointerDoc PointerDocFacts Daemon Files Hoare PublisherInv Publisher PublisherFacts PublisherSpec Api ApiSpec Config BulkLoad Offline BulkFacts GcFacts RestampFacts IngestFacts BulkSpec Verify VerifyFacts.

Lemma list_choice `{EqDecision A} {B} (R : A → B → Prop) (xs : list A) (b : B) :
  (∀ x, x ∈ xs → ∃ y, R x y) → ∃ f, ∀ x, x ∈ xs → R x (f x).
Proof.
  intros HR. induction xs as [|x xs IH]; [exists (λ _, b); by intros x ?%elem_of_nil|].
  destruct IH as [f Hf]; [intros y Hy; apply HR; by right|]. destruct (HR x) as [y Hy]; [by left|].
  exists (<[x := y]> f). intros z Hz. destruct (decide (x = z)) as [<-|Hne].
  - by rewrite fn_lookup_insert.
  - rewrite fn_lookup_insert_ne by done. apply Hf. by apply elem_of_cons in Hz as [->|].
Qed.

Section spec.
Context `{Blake3} `{Hex} `{Sha256} `{SocketAddrs} `{!Codec LeafEntry, !LeafCodecLaws}.
Context `{!Codec IndexRecord, !CodecLaws IndexRecord index_record_dom}.
Context {St Dc : Type} `{!BlobStore St, !BlobStoreSpec St, !LocalStore St}.
Context `{!IrohDocs (Traced St) Dc, !IrohDocsLaws (Traced St) Dc}.
Context (D : list byte → Prop) `{!CollisionFree D}.
Context (writable : string → bool) (set_order : gset string → list string) (cfg : Config).
Implicit Types w : World (Traced St) Dc.
#[local] Abbreviation registry_ok := (Offline.registry_ok D).

(** What the publisher left behind has nothing missing. *)
Lemma published_in_tree t0 w p T : pub_inv D t0 w → tree_set w p T → expected_set (tables w) p ⊆ T.
Proof.
  intros Hi HT k (x & Hx & Hs & Hp)%expected_elem. pose proof (pi_published _ _ _ Hi _ _ Hx Hs) as [(r & Hd & Hin) Hl].
  rewrite Hp in *. unfold tree_set in HT. destruct (local_root (tables w) p) as [r'|].
  - destruct HT as (es & Hrep & ->). destruct (Hl r' eq_refl) as (es' & Hrep' & Hk).
    rewrite (rep_det _ _ _ _ _ Hrep' Hrep) in Hk. by apply elem_of_list_to_set.
  - pose proof Hd as (h & Hh & _). rewrite Hh in HT. destruct HT as (r' & es & Hd' & Hrep & ->).
    rewrite (doc_root_det _ _ _ _ _ Hd Hd') in Hin. destruct Hin as (es' & Hrep' & Hk).
    rewrite (rep_det _ _ _ _ _ Hrep' Hrep) in Hk. by apply elem_of_list_to_set.
Qed.

Lemma total_zero (S : N → gset string) ps : (∀ p, p ∈ ps → S p = ∅) → total S ps = 0.
Proof.
  unfold total. induction ps as [|p ps IH]; intros HS; [done|]. rewrite fmap_cons. simpl.
  rewrite IH by (intros q Hq; apply HS; by right). rewrite (HS p) by by left. done.
Qed.

Lemma NoDup_audited only : NoDup (audited cfg only).
Proof. destruct only; [apply NoDup_singleton|]. apply NoDup_partitions. Qed.

Lemma triple_ex {B A} (m : io (World (Traced St) Dc) anyhow A) (P : B → World (Traced St) Dc → Prop) Q X :
  log_grows m → (∀ b, triple wlog D (P b) m Q X) → triple wlog D (λ w, ∃ b, P b w) m Q X.
Proof.
  intros Hlog Hm w r w' Hr. split; [by eapply Hlog|]. intros HD [b HP]. by apply (Hm b w r w' Hr).
Qed.

Lemma triple_remove_spill P (X : World (Traced St) Dc → Prop) :
  (∀ f w, P w → P (with_files f w)) → triple wlog D P (remove_spill writable cfg) (λ _, P) X.
Proof. intros HP w r w' [= <- <-]. split; [done|]. intros _ Hw. by apply HP. Qed.

Lemma triple_verify only fix_gaps w0 T :
  (∀ s, set_order s ≡ₚ elements s) → registry_ok w0 →
  (∀ p, p ∈ audited cfg only → (p < 2 ^ 32)%N) → (cfg_top_level_partitions cfg < 2 ^ 32)%N →
  (only = None → keys_clean (tables w0)) → room w0 (size (recs (tables w0))) →
  (∀ p, p ∈ audited cfg only → tree_set w0 p (T p)) →
  triple wlog D (λ w, w = w0) (verify writable set_order cfg only fix_gaps)
    (λ report w, report = report_of (expected_set (tables w0)) T fix_gaps (audited cfg only) ∧
       (registry_ok w ∧
        kept w0 (queued_keys set_order (expected_set (tables w0)) T fix_gaps (audited cfg only)) (w_files w) w))
    registry_ok.
Proof.
  intros Horder Hw0 Hlt Hparts Hclean Hroom HT.
  assert (N.of_nat (length (audited cfg only)) < 2 ^ 32)%N as Hlen.
  { destruct only; [done|]. unfold audited. rewrite length_fmap, length_seq. lia. }
  assert (kept w0 [] (w_files w0) w0) as Hk0 by (split; try done; [by rewrite app_nil_r|simpl; lia]).
  unfold verify. cbv zeta.
  eapply (triple_bind _ _ _ _ _ (λ _ w, ∃ f, (only = None → keys_spilled cfg f (tables w0)) ∧ (registry_ok w ∧ kept w0 [] f w))).
  { destruct only.
    - apply triple_ret. intros w ->. exists (w_files w0). done.
    - eapply triple_conseq; [apply (triple_spill_all D writable set_order cfg Horder w0 (Hclean eq_refl) Hparts)| | |done].
      + intros w ->. by split.
      + intros _ w [[Hw Hk] Hs]. by exists (w_files w). }
  intros _. apply triple_ex.
  { apply log_bind; [apply log_fold; intros; by apply (log_audit D)|]. intros report. apply log_bind; [|intros; apply log_ret].
    destruct only; [apply log_ret|]. by intros w r w' [= _ <-]. }
  intros f. apply (triple_given D).
  { apply log_bind; [apply log_fold; intros; by apply (log_audit D)|]. intros report. apply log_bind; [|intros; apply log_ret].
    destruct only; [apply log_ret|]. by intros w r w' [= _ <-]. }
  intros Hfiles. eapply triple_bind.
  { by apply (triple_audits D writable set_order cfg Horder w0 T only fix_gaps f HT Hw0 Hlt (NoDup_audited only) Hfiles Hroom Hlen). }
  intros report. cbv beta.
  set (P := λ w, report = report_of (expected_set (tables w0)) T fix_gaps (audited cfg only) ∧ (registry_ok w ∧
    kept w0 (queued_keys set_order (expected_set (tables w0)) T fix_gaps (audited cfg only)) (w_files w) w)).
  apply (triple_bind _ _ _ _ _ (λ _, P)); [|intros _; by apply triple_ret].
  eapply (triple_conseq _ _ _ _ P); [|intros w (-> & Hw & Hk); by rewrite <-(kp_files _ _ _ _ Hk) in Hk|intros a w Hw; exact Hw|intros w Hw; exact Hw].
  destruct only; [by apply triple_ret|]. apply triple_remove_spill.
  intros f' w (-> & Hw & Hk). split; [done|]. split; [by apply registry_files|]. by destruct Hk; split.
Qed.

(** C8: The audit is exact.  For every partition audited its report
    compares the keys the index has published with the keys of the tree
    under the writer's root (or, without one, the root in the pointer
    document): the totals are the sizes of the two sets and of their
    differences, no counter wraps; with [--fix] exactly the missing keys
    are added to the end of the queue, and nothing else changes.  What the
    publisher left behind has nothing missing. *)
Theorem audit_exact only fix_gaps w r w' :
  (∀ s, set_order s ≡ₚ elements s) →
  verify writable set_order cfg only fix_gaps w = (r, w') →
  registry_ok w → (∀ p, p ∈ audited cfg only → (p < 2 ^ 32)%N) → (cfg_top_level_partitions cfg < 2 ^ 32)%N →
  (only = None → keys_clean (tables w)) →
  (next_seq_of (tables w) + N.of_nat (size (recs (tables w))) < 2 ^ 64)%N →
  Forall D (wlog w') →
  let expected := expected_set (tables w) in
  registry_ok w' ∧
  (∀ report, r = Ok report → ∃ in_tree : N → gset string,
     (∀ p, p ∈ audited cfg only → tree_set w p (in_tree p)) ∧
     report = report_of expected in_tree fix_gaps (audited cfg only) ∧
     kept w (queued_keys set_order expected in_tree fix_gaps (audited cfg only)) (w_files w') w' ∧
     (∀ t0, pub_inv D t0 w → missing_total report = 0%N)).
Proof.
  intros Horder Hr Hw Hlt Hparts Hclean Hroom HD expected.
  destruct (list_choice (tree_set w) (audited cfg only) ∅) as [T HT].
  { intros p Hp. apply (tree_set_ex D); [by apply Hlt|done]. }
  destruct (triple_verify only fix_gaps w T Horder Hw Hlt Hparts Hclean Hroom HT w r w' Hr) as [_ Hpost].
  specialize (Hpost HD eq_refl). split; [by destruct r; [apply Hpost|]|]. intros report ->.
  destruct Hpost as (-> & Hw' & Hk). exists T. split_and!; [done|done|done|].
  intros t0 Hi. unfold report_of. cbn [missing_total]. rewrite total_zero; [done|]. intros p Hp.
  pose proof (published_in_tree t0 w p (T p) Hi (HT p Hp)) as Hsub. unfold expected. set_solver.
Qed.
End spec.

(** ** A concrete audit *)

#[local] Instance line_ok_dec l : Decision (line_ok l).
Proof. unfold line_ok. apply _. Defined.

Section witnesses.
#[local] Existing Instances sample_blake3 sample_sha256 sample_hex sample_leaf_codec sample_leaf_laws
  sample_record_codec sample_record_laws sample_docs sample_docs_laws' sample_sockets.
Abbreviation SampleWorld := (World (Traced MemoryBlobStore) (gmap string Hash)).

Definition sample_audit : result anyhow VerifyReport * SampleWorld :=
  verify (λ _, true) elements sample_config None true sample_published.
Lemma sample_audit_report :
  result_ok sample_audit.1 = Some (mkVerifyReport 5 0 2 2 0 0 0).
Proof. vm_compute. reflexivity. Qed.
Lemma sample_audit_eq : verify (λ _, true) elements sample_config None true sample_published
  = (sample_audit.1, sample_audit.2).
Proof. apply surjective_pairing. Qed.
Lemma sample_audit_cf : CollisionFree (λ b, b ∈ wlog sample_audit.2).
Proof. apply collision_free_of_check. vm_compute. reflexivity. Qed.
Lemma sample_audit_log : Forall (λ b, b ∈ wlog sample_audit.2) (wlog sample_published).
Proof. refine (bool_decide_unpack _ _). vm_compute. exact I. Qed.
Lemma sample_keys_clean : keys_clean (tables sample_published).
Proof.
  assert (map_Forall (λ k _, line_ok (str_bytes k)) (recs (tables sample_published))) as Hk.
  { refine (bool_decide_unpack _ _). vm_compute. exact I. }
  intros k x Hx. by apply (Hk k x).
Qed.
Lemma sample_room :
  (next_seq_of (tables sample_published) + N.of_nat (size (recs (tables sample_published))) < 2 ^ 64)%N.
Proof. vm_compute. reflexivity. Qed.
Lemma sample_audited : audited sample_config None = [0; 1; 2; 3; 4]%N.
Proof. reflexivity. Qed.
#[local] Opaque sample_audit verify sample_published.

Lemma audit_exact_witness : ∃ in_tree,
  mkVerifyReport 5 0 2 2 0 0 0 = report_of (expected_set (tables sample_published)) in_tree true (audited sample_config None).
Proof.
  pose proof sample_audit_cf as Hcf.
  destruct (audit_exact (λ b, b ∈ wlog sample_audit.2) (λ _, true) elements sample_config None true
    sample_published sample_audit.1 sample_audit.2) as [_ Hrep].
  - intros s. reflexivity.
  - exact sample_audit_eq.
  - apply sample_published_ok; [exact Hcf|exact sample_audit_log].
  - intros p Hp. rewrite sample_audited in Hp. apply (audited_lt sample_config); [reflexivity|]. by rewrite sample_audited.
  - reflexivity.
  - intros _. exact sample_keys_clean.
  - exact sample_room.
  - by apply Forall_forall.
  - destruct (Hrep (mkVerifyReport 5 0 2 2 0 0 0)) as (T & _ & HT & _); [|by exists T].
    pose proof sample_audit_report as Hr. destruct (sample_audit.1) as [x|e]; [|discriminate Hr].
    simpl in Hr. congruence.
Defined.
End witnesses.
