(* ===== verification/ConfigSpec.v ===== *)
(** What the configuration of the daemon is made of. *)

From S2P Require Import Prelude Hash Partition BlobStore Iscc Anyhow Index PointerDoc Daemon Files Publisher Api ApiFacts Config BulkLoad BulkSpec.

(** ** Numbers *)

Lemma parse_uint_loop_lt bits acc l n :
  (acc < 2 ^ bits)%N → parse_uint_loop bits acc l = Ok n → (n < 2 ^ bits)%N.
Proof.
  revert acc. induction l as [|b l IH]; intros acc Hacc; simpl; [by intros [= ->]|].
  destruct (byte_digit b) as [d|]; [|done]. destruct (N.ltb_spec (acc * 10 + d) (2 ^ bits)); [|done].
  by apply IH.
Qed.

Lemma parse_uint_lt bits s n : parse_uint bits s = Ok n → (n < 2 ^ bits)%N.
Proof.
  assert (0 < 2 ^ bits)%N as Hpos by (apply N.neq_0_lt_0, N.pow_nonzero; lia).
  assert (∀ l, parse_uint_loop bits 0 l = Ok n → (n < 2 ^ bits)%N) as Hloop.
  { intros l. by apply parse_uint_loop_lt. }
  unfold parse_uint. destruct (str_bytes s) as [|b [|c l]]; [done| |].
  - destruct b; try done; apply Hloop.
  - destruct b; apply Hloop.
Qed.

(** ** Layers *)

(** The variable [key] decides, the layer below where it is unset. *)
Definition overrides {T} (parse : string → result string T) (env : Env) (key : string) (below v : T) : Prop :=
  match env key with Some s => parse s = Ok v | None => v = below end.

Section spec.
Context `{SocketAddrs} (toml_from_str : string → result string Config).

Record layered (env : Env) (below c : Config) : Prop := {
  ly_bind_addr : overrides socket_from_str env "REGISTRYD_BIND_ADDR" (cfg_bind_addr below) (cfg_bind_addr c);
  ly_data_dir : overrides Ok env "REGISTRYD_DATA_DIR" (cfg_data_dir below) (cfg_data_dir c);
  ly_api_tokens : overrides (Ok ∘ split_tokens) env "REGISTRYD_API_TOKENS" (cfg_api_tokens below) (cfg_api_tokens c);
  ly_denylist_path : overrides (Ok ∘ Some) env "REGISTRYD_DENYLIST_PATH" (cfg_denylist_path below) (cfg_denylist_path c);
  ly_max_value_bytes : overrides (parse_uint 64) env "REGISTRYD_MAX_VALUE_BYTES" (cfg_max_value_bytes below) (cfg_max_value_bytes c);
  ly_batch_max_records : overrides (parse_uint 64) env "REGISTRYD_BATCH_MAX_RECORDS" (cfg_batch_max_records below) (cfg_batch_max_records c);
  ly_publish_max_pending : overrides (parse_uint 64) env "REGISTRYD_PUBLISH_MAX_PENDING" (cfg_publish_max_pending below) (cfg_publish_max_pending c);
  ly_publish_interval_secs : overrides (parse_uint 64) env "REGISTRYD_PUBLISH_INTERVAL_SECS" (cfg_publish_interval_secs below) (cfg_publish_interval_secs c);
  ly_top_level_partitions : overrides (parse_uint 32) env "REGISTRYD_TOP_LEVEL_PARTITIONS" (cfg_top_level_partitions below) (cfg_top_level_partitions c);
  ly_leaf_max_entries : overrides (parse_uint 64) env "REGISTRYD_LEAF_MAX_ENTRIES" (cfg_leaf_max_entries below) (cfg_leaf_max_entries c);
  ly_gc_interval_secs : overrides (parse_uint 64) env "REGISTRYD_GC_INTERVAL_SECS" (cfg_gc_interval_secs below) (cfg_gc_interval_secs c);
}.

(** The layer below the environment: the file, or the defaults where the
    default path has none. *)
Definition file_layer (env : Env) (files : string → option string) (cli_path : option string) (below : Config) : Prop :=
  let '(path, explicit) := config_path env cli_path in
  match files path with
  | Some raw => toml_from_str raw = Ok below
  | None => explicit = false ∧ below = Config_default
  end.

(** The values of the configuration's numeric types. *)
Definition config_range (c : Config) : Prop :=
  (cfg_max_value_bytes c < 2 ^ 64)%N ∧ (cfg_top_level_partitions c < 2 ^ 32)%N.

(** Why loading may fail: a named file that cannot be read, a file that does
    not parse, or a variable that does not, named with its value. *)
Inductive load_error (env : Env) (files : string → option string) (cli_path : option string) : anyhow → Prop :=
| unreadable_file path :
    config_path env cli_path = (path, true) → files path = None →
    load_error env files cli_path (EBail ("cannot read config file " +:+ path))
| invalid_file path explicit raw msg :
    config_path env cli_path = (path, explicit) → files path = Some raw → toml_from_str raw = Err msg →
    load_error env files cli_path (EBail ("failed to parse " +:+ path +:+ ": " +:+ msg))
| invalid_bind_addr v msg :
    env "REGISTRYD_BIND_ADDR" = Some v → socket_from_str v = Err msg →
    load_error env files cli_path (EBail ("REGISTRYD_BIND_ADDR '" +:+ v +:+ "' is invalid: " +:+ msg))
| invalid_number bits key v msg :
    bits ∈ [32; 64]%N → env key = Some v → parse_uint bits v = Err msg →
    load_error env files cli_path (EBail (ConfigError_to_string (InvalidVar key v msg))).

Abbreviation var := (result_map_err (λ e, EBail (ConfigError_to_string e))).

Lemma env_number_ok bits env key below v :
  var (@env_parse_or N (parse_uint bits) env key below) = Ok v ↔ overrides (parse_uint bits) env key below v.
Proof.
  unfold env_parse_or, overrides, from_str. destruct (env key) as [s|]; simpl; [|naive_solver].
  destruct (parse_uint bits s); simpl; naive_solver.
Qed.

Lemma env_number_err bits env files cli_path key below e :
  bits ∈ [32; 64]%N → var (@env_parse_or N (parse_uint bits) env key below) = Err e → load_error env files cli_path e.
Proof.
  intros Hb. unfold env_parse_or, from_str. destruct (env key) as [s|] eqn:Ek; simpl; [|done].
  destruct (parse_uint bits s) eqn:Es; simpl; [done|]. intros [= <-]. by eapply invalid_number.
Qed.

Lemma result_bind_ok {E A B} (m : result E A) (f : A → result E B) b :
  m ≫= f = Ok b ↔ ∃ a, m = Ok a ∧ f a = Ok b.
Proof. destruct m; simpl; naive_solver. Qed.

Lemma env_addr_ok env below v :
  match env "REGISTRYD_BIND_ADDR" with
  | Some s => result_map_err (λ e, EBail ("REGISTRYD_BIND_ADDR '" +:+ s +:+ "' is invalid: " +:+ e)) (socket_from_str s)
  | None => Ok below
  end = Ok v ↔ overrides socket_from_str env "REGISTRYD_BIND_ADDR" below v.
Proof.
  unfold overrides. destruct (env _) as [s|]; [|naive_solver]. destruct (socket_from_str s); simpl; naive_solver.
Qed.

Lemma apply_env_ok env below c : apply_env env below = Ok c ↔ layered env below c.
Proof.
  unfold apply_env, env_optional, env_u64, env_u32. cbv zeta.
  repeat setoid_rewrite result_bind_ok. setoid_rewrite env_addr_ok. repeat setoid_rewrite env_number_ok. split.
  - intros (addr & Ha & n1 & H1 & n2 & H2 & n3 & H3 & n4 & H4 & n5 & H5 & n6 & H6 & n7 & H7 & [= <-]).
    split; simpl; try done; unfold overrides; by destruct (env _).
  - intros []. eexists. split; [done|]. do 7 (eexists; split; [done|]). f_equal. unfold overrides in *. destruct c. simpl in *.
    f_equal; [destruct (env "REGISTRYD_DATA_DIR")|destruct (env "REGISTRYD_API_TOKENS")|destruct (env "REGISTRYD_DENYLIST_PATH")];
      simpl in *; congruence.
Qed.

Lemma apply_env_err env files cli_path below e : apply_env env below = Err e → load_error env files cli_path e.
Proof.
  unfold apply_env, env_optional, env_u64, env_u32. cbv zeta.
  destruct (env "REGISTRYD_BIND_ADDR") as [v|] eqn:Ev.
  1: destruct (socket_from_str v) as [a|m] eqn:Ea; [|intros [= <-]; by eapply invalid_bind_addr].
  all: cbn [result_map_err mbind result_bind].
  all: repeat match goal with |- var ?m ≫= _ = Err _ → _ =>
      let E := fresh "E" in destruct (var m) eqn:E; cbn [mbind result_bind];
      [|intros [= <-]; eapply env_number_err; [|exact E]; rewrite !elem_of_cons; auto] end; done.
Qed.

(** C26: The daemon's configuration is layered: what it loads is, key by
    key, the environment variable where one is set, else the file's value,
    else the default, the defaults being the file layer exactly when no
    file was named and the default path has none; loading fails only when a
    named file cannot be read, the file does not parse, or a variable does
    not, and the error carries the path or the variable's name and value;
    and the numbers are in the ranges the other theorems assume. *)
Theorem config_load_layers env files cli_path :
  (∀ c, Config_load toml_from_str env files cli_path = Ok c ↔
     ∃ below, file_layer env files cli_path below ∧ layered env below c) ∧
  (∀ e, Config_load toml_from_str env files cli_path = Err e → load_error env files cli_path e) ∧
  (∀ below c, config_range below → layered env below c → config_range c).
Proof.
  split_and!.
  - intros c. unfold Config_load, file_layer. destruct (config_path env cli_path) as [path explicit].
    rewrite result_bind_ok. setoid_rewrite apply_env_ok. apply exist_proper. intros below.
    assert (∀ P Q R : Prop, (P ↔ Q) → P ∧ R ↔ Q ∧ R) as Hand by tauto. apply Hand.
    destruct (files path) as [raw|]; [destruct (toml_from_str raw)|destruct explicit]; simpl; naive_solver.
  - intros e. unfold Config_load. destruct (config_path env cli_path) as [path explicit] eqn:Ep.
    destruct (files path) as [raw|] eqn:Ef.
    + destruct (toml_from_str raw) as [below|m] eqn:Et; cbn [result_map_err mbind result_bind].
      * apply apply_env_err.
      * intros [= <-]. by eapply invalid_file.
    + destruct explicit; cbn [mbind result_bind]; [intros [= <-]; by eapply unreadable_file|apply apply_env_err].
  - intros below c [Hv Hp] Hl. split.
    + pose proof (ly_max_value_bytes _ _ _ Hl) as Ho. unfold overrides in Ho.
      destruct (env _); [by eapply parse_uint_lt|by rewrite Ho].
    + pose proof (ly_top_level_partitions _ _ _ Hl) as Ho. unfold overrides in Ho.
      destruct (env _); [by eapply parse_uint_lt|by rewrite Ho].
Qed.
End spec.

(** ** A concrete environment *)

Section witnesses.
#[local] Existing Instance sample_sockets.

Definition sample_env : Env :=
  λ k, if decide (k = "REGISTRYD_TOP_LEVEL_PARTITIONS") then Some "+016"
       else if decide (k = "REGISTRYD_API_TOKENS") then Some " a,,b " else None.
Definition sample_bad_env : Env := λ k, if decide (k = "REGISTRYD_GC_INTERVAL_SECS") then Some "1h" else None.

Definition sample_loaded : Config :=
  mkConfig (H:=sample_sockets) "127.0.0.1:8080" "/var/lib/registryd" ["a"; "b"] 65536 500 1000 30 16 1024 None 3600.

Lemma config_load_layers_witness :
  (∃ below, file_layer (λ _, Err "no TOML") sample_env (λ _, None) None below ∧ layered sample_env below sample_loaded) ∧
  load_error (λ _, Err "no TOML") sample_bad_env (λ _, None) None
    (EBail (ConfigError_to_string (InvalidVar "REGISTRYD_GC_INTERVAL_SECS" "1h" "invalid digit found in string"))).
Proof.
  split.
  - apply (config_load_layers (λ _, Err "no TOML") sample_env (λ _, None) None). vm_compute. reflexivity.
  - apply (config_load_layers (λ _, Err "no TOML") sample_bad_env (λ _, None) None). vm_compute. reflexivity.
Defined.
End witnesses.
