(* ===== verification/Viewer.v ===== *)
(** The reader's dashboard: [crates/registry-viewer/src/main.rs].

    [Viewer] is the state the background loop and the request handlers
    share, one field per lock.  Every operation that holds a lock is a
    definition on it; what happens between two of them is an await point,
    and [ViewerSteps] runs the tasks interleaved.  A walk's outcome is an
    argument, as are the clock and the iteration order of a hash map; the
    JSON text of a time and of an error are the operations of the class
    [ViewerTexts].  Measured durations are JSON values that are passed in. *)

From stdpp Require Import sorting.
From S2P Require Import Prelude Hash Partition Record BlobStore Hamt HamtWalk Iscc Similarity CidKey Anyhow Index PointerDoc Files Api Config.

Class ViewerTexts := {
  (** [Serialize] for [DateTime<Utc>] *)
  datetime_json : DateTime → JsonValue;
  iscc_error_text : IsccError → string;
}.

Definition MAX_CACHED_PARTITIONS : nat := 256.
Definition FULL_PASS_EVERY : N := 120.
Definition MAX_HITS : nat := N.to_nat 10000.

Inductive SyncMode := Auto | Manual.
#[global] Instance SyncMode_eq_dec : EqDecision SyncMode.
Proof. solve_decision. Defined.

(** [CachedListing] *)
Abbreviation CachedListing := (Hash * list LeafEntry)%type.

Record PartitionSync := mkPartitionSync {
  ps_root : string;
  ps_records : N;
  ps_synced_at : DateTime;
  ps_latest_added_at : option DateTime;
  ps_stale_error : option string;
}.

Record SyncStats := mkSyncStats {
  roots_known : N;
  behind : N;
  pass : N;
  last_pass_at : option DateTime;
  last_pass_secs : option JsonValue;
}.
Definition SyncStats_default : SyncStats := mkSyncStats 0 0 0 None None.

(** [CodeIndex]: codes with the slot and the entry they come from *)
Record CodeIndex := mkCodeIndex {
  ci_codes : list (N * nat * nat);
  ci_listings : list (N * list LeafEntry);
}.

(** The fields of [Viewer] that never change. *)
Record Settings := mkSettings {
  vw_storage_dir : string;
  vw_endpoint_id : string;
  vw_ticket_source : string;
  vw_read_ticket : string;
  vw_providers : N;
  vw_partitions : N;
  vw_warm_values : bool;
  vw_sync_mode : SyncMode;
  vw_started_at : DateTime;
  vw_commonsdb_api_key : option string;
  vw_commonsdb_metadata_url : string;
}.

(** The fields behind a lock, or atomic. *)
Record Viewer := mkViewer {
  v_forced : gset N;
  v_force_all : bool;
  v_listing_cache : gmap N CachedListing;
  v_sync_state : gmap N PartitionSync;
  v_doc_roots : gmap N Hash;
  v_stats : SyncStats;
  v_syncing : N;
  v_stopping : bool;
  v_code_index : option CodeIndex;
}.

Definition Viewer_init : Viewer := mkViewer ∅ false ∅ ∅ ∅ SyncStats_default 0 false None.

Definition with_forced (s : gset N) (all : bool) (v : Viewer) : Viewer :=
  mkViewer s all (v_listing_cache v) (v_sync_state v) (v_doc_roots v) (v_stats v) (v_syncing v) (v_stopping v) (v_code_index v).
Definition with_cache (m : gmap N CachedListing) (v : Viewer) : Viewer :=
  mkViewer (v_forced v) (v_force_all v) m (v_sync_state v) (v_doc_roots v) (v_stats v) (v_syncing v) (v_stopping v) (v_code_index v).
Definition with_sync_state (m : gmap N PartitionSync) (v : Viewer) : Viewer :=
  mkViewer (v_forced v) (v_force_all v) (v_listing_cache v) m (v_doc_roots v) (v_stats v) (v_syncing v) (v_stopping v) (v_code_index v).
Definition with_doc_roots (m : gmap N Hash) (v : Viewer) : Viewer :=
  mkViewer (v_forced v) (v_force_all v) (v_listing_cache v) (v_sync_state v) m (v_stats v) (v_syncing v) (v_stopping v) (v_code_index v).
Definition with_stats (s : SyncStats) (v : Viewer) : Viewer :=
  mkViewer (v_forced v) (v_force_all v) (v_listing_cache v) (v_sync_state v) (v_doc_roots v) s (v_syncing v) (v_stopping v) (v_code_index v).
Definition with_syncing (n : N) (v : Viewer) : Viewer :=
  mkViewer (v_forced v) (v_force_all v) (v_listing_cache v) (v_sync_state v) (v_doc_roots v) (v_stats v) n (v_stopping v) (v_code_index v).
Definition with_code_index (i : option CodeIndex) (v : Viewer) : Viewer :=
  mkViewer (v_forced v) (v_force_all v) (v_listing_cache v) (v_sync_state v) (v_doc_roots v) (v_stats v) (v_syncing v) (v_stopping v) i.

Section viewer.
Context `{Blake3} `{Hex} `{Sha256} `{CidCrate} `{Base32} `{SerdeJson} `{Texts} `{ViewerTexts}.
Context (settings : Settings).
(** iteration over [doc_roots] and over [listing_cache] *)
Context (root_order : gmap N Hash → list (N * Hash)).
Context (cache_order : gmap N CachedListing → list (N * CachedListing)).

(** ** The state's own operations *)

(** [get_root_bounded], [doc_roots_snapshot]: a read of the pointer document
    and whether its time ran out. *)
Definition get_root_bounded (late : bool) (root : result anyhow (option Hash)) : result anyhow (option Hash) :=
  if late then Err (EBail "root read timed out") else root.
Definition doc_roots_snapshot (late : bool) (roots : result anyhow (gmap N Hash)) : option (gmap N Hash) :=
  if late then None else result_ok roots.

(** [doc_event_wake]: how often the sync loop is woken by the events of the
    subscriptions, each up to its first error. *)
Fixpoint subscription_wakes (events : list (result anyhow unit)) : nat :=
  match events with
  | Ok _ :: events => S (subscription_wakes events)
  | _ => 0
  end.
Definition doc_event_wake (subscriptions : list (result anyhow (list (result anyhow unit)))) : nat :=
  sum_list ((λ sub, from_option subscription_wakes 0 (result_ok sub)) <$> subscriptions).

(** [note_doc_roots] *)
Definition note_doc_roots (roots : gmap N Hash) (v : Viewer) : Viewer :=
  let s := v_stats v in
  with_stats (mkSyncStats (N.of_nat (size roots)) (behind s) (pass s) (last_pass_at s) (last_pass_secs s))
    (with_doc_roots roots v).

(** The partition was walked at [root]. *)
Definition synced_at_root (v : Viewer) (id : N) (root : Hash) : bool :=
  match v_sync_state v !! id with Some s => bool_decide (ps_root s = Hash_to_hex root) | None => false end.

(** [behind_count] *)
Definition behind_count (v : Viewer) : N :=
  wrap32 (N.of_nat (length (filter (λ r, synced_at_root v r.1 r.2 = false) (map_to_list (v_doc_roots v))))).

(** [mark_stale] *)
Definition mark_stale (id : N) (error : string) (v : Viewer) : Viewer :=
  with_sync_state (alter (λ s, mkPartitionSync (ps_root s) (ps_records s) (ps_synced_at s)
    (ps_latest_added_at s) (Some error)) id (v_sync_state v)) v.

(** The insertion of a listing into the bounded cache. *)
Definition cache_insert (id : N) (listing : CachedListing) (v : Viewer) : Viewer :=
  let cache := v_listing_cache v in
  let full := (MAX_CACHED_PARTITIONS <=? size cache) && negb (bool_decide (is_Some (cache !! id))) in
  with_cache (<[id := listing]> (if full then ∅ else cache)) v.

Definition latest_of (entries : list LeafEntry) : option DateTime :=
  foldr (λ e m, Some (from_option (Z.max (le_added_at e)) (le_added_at e) m)) None entries.

Definition state_insert (id : N) (root : Hash) (entries : list LeafEntry) (now : DateTime) (v : Viewer) : Viewer :=
  with_sync_state (<[id := mkPartitionSync (Hash_to_hex root) (N.of_nat (length entries)) now
    (latest_of entries) None]> (v_sync_state v)) v.

(** ** One partition *)

(** What the cache already has. *)
Definition cached_listing (v : Viewer) (id : N) (root : Hash) (force : bool) : option (list LeafEntry) :=
  if force then None
  else match v_listing_cache v !! id with
       | Some (cached_root, entries) => if decide (cached_root = root) then Some entries else None
       | None => None
       end.

(** The local walk, then the network's. *)
Definition walked (window : string) (local network : WalkOutcome) : result string (list LeafEntry) :=
  if wo_complete local then Ok (wo_entries local)
  else if wo_complete network then Ok (wo_entries network)
  else Err window.

(** [sync_partition], undisturbed by other tasks; the warm-up of the values
    does not touch the state. *)
Definition sync_partition (id : N) (root : Hash) (force : bool) (local network : WalkOutcome) (now : DateTime)
    (v : Viewer) : Viewer :=
  let v := with_syncing (wrap32 (v_syncing v + 1)) v in
  let result := match cached_listing v id root force with
                | Some entries => Ok entries
                | None => walked "index incomplete within 300s (origin busy or unreachable)" local network
                end in
  let v := match result with
           | Ok entries => with_code_index None (state_insert id root entries now (cache_insert id (root, entries) v))
           | Err err => mark_stale id err v
           end in
  with_syncing (wrap32 (v_syncing v + (2 ^ 32 - 1))) v.

(** The hashes a full seeder warms: in requests of 256. *)
Fixpoint chunks_of (fuel n : nat) (l : list Hash) : list (list Hash) :=
  match fuel, l with
  | 0, _ | _, [] => []
  | S fuel, _ => take n l :: chunks_of fuel n (drop n l)
  end.
Definition warm_requests (entries : list LeafEntry) : list (list Hash) :=
  if vw_warm_values settings then chunks_of (length entries) 256 (le_hash <$> entries) else [].

(** ** The background loop *)

(** The overview restored from disk. *)
Definition restorable (persisted : gmap N PartitionSync) : gmap N PartitionSync :=
  filter (λ ks, ps_root ks.2 ≠ "") persisted.
Definition restore_persisted (persisted : gmap N PartitionSync) (v : Viewer) : Viewer :=
  with_sync_state (((λ s, mkPartitionSync (ps_root s) (ps_records s) (ps_synced_at s) (ps_latest_added_at s)
    (Some "restored from disk; refreshing")) <$> restorable persisted) ∪ v_sync_state v) v.

(** The roots a start-up walk tries. *)
Definition startup_roots (persisted : gmap N PartitionSync) (roots : gmap N Hash) (id : N) : list Hash :=
  let current := roots !! id in
  let fallback := s ← restorable persisted !! id; f ← result_ok (Hash_from_hex (ps_root s));
                  if decide (Some f = current) then None else Some f in
  option_list current ++ option_list fallback.
Fixpoint startup_walk (outcome : Hash → WalkOutcome) (roots : list Hash) : option CachedListing :=
  match roots with
  | [] => None
  | root :: roots =>
      if wo_complete (outcome root) then Some (root, wo_entries (outcome root)) else startup_walk outcome roots
  end.
Definition install_restored (id : N) (listing : CachedListing) (now : DateTime) (v : Viewer) : Viewer :=
  state_insert id listing.1 listing.2 now (with_cache (<[id := listing]> (v_listing_cache v)) v).

(** The work of a pass: the requests taken, the partitions to walk. *)
Definition select_work (v : Viewer) (roots : gmap N Hash) (force_all : bool) (forced : gset N) : list (N * Hash * bool) :=
  let auto := bool_decide (vw_sync_mode settings = Auto) in
  let full := auto && (0 <? pass (v_stats v))%N && (pass (v_stats v) mod FULL_PASS_EVERY =? 0)%N in
  omap (λ '(id, root),
    let requested := force_all || bool_decide (id ∈ forced) in
    let changed := match v_sync_state v !! id with
                   | Some s => negb (bool_decide (ps_root s = Hash_to_hex root)) || bool_decide (is_Some (ps_stale_error s))
                   | None => true
                   end in
    if requested || (auto && (full || changed)) then Some (id, root, requested) else None) (root_order roots).

Definition note_behind (v : Viewer) : Viewer :=
  let s := v_stats v in
  with_stats (mkSyncStats (roots_known s) (behind_count v) (pass s) (last_pass_at s) (last_pass_secs s)) v.

Definition begin_pass (roots : gmap N Hash) (v : Viewer) : list (N * Hash * bool) * Viewer :=
  let v := note_doc_roots roots v in
  let force_all := v_force_all v in
  let forced := v_forced v in
  let v := with_forced ∅ false v in
  let work := select_work v roots force_all forced in
  (work, note_behind v).

Definition progressed (v : Viewer) (work : list (N * Hash * bool)) : nat :=
  length (filter (λ w, match v_sync_state v !! w.1.1 with
                       | Some s => bool_decide (ps_root s = Hash_to_hex w.1.2) && bool_decide (ps_stale_error s = None)
                       | None => false
                       end = true) work).

Definition end_pass (now : DateTime) (secs : JsonValue) (v : Viewer) : Viewer :=
  let s := v_stats v in
  with_stats (mkSyncStats (roots_known s) (behind_count v) (wrap64 (pass s + 1)) (Some now) (Some secs)) v.

(** Whether the loop waits before the next pass. *)
Definition waits (v : Viewer) (work_done : nat) : bool :=
  bool_decide (vw_sync_mode settings = Manual) || (behind_count v =? 0)%N || (work_done =? 0).

(** [persist_state]: written to a temporary file, then renamed. *)
Context `{!Codec (gmap N PartitionSync)} (writable : string → bool).
Definition state_path : string := path_join (vw_storage_dir settings) "viewer-state.json".
Definition state_path_tmp : string := path_join (vw_storage_dir settings) "viewer-state.json.tmp".
Definition persist_state (v : Viewer) (files : string → option string) : string → option string :=
  let raw := str_of_bytes (ser (v_sync_state v)) in
  if writable state_path_tmp then
    if writable state_path then <[state_path := Some raw]> (<[state_path_tmp := None]> files)
    else <[state_path_tmp := Some raw]> files
  else files.
Definition read_persisted (files : string → option string) : gmap N PartitionSync :=
  default ∅ (raw ← files state_path; result_ok (de (str_bytes raw))).

(** ** Handlers *)

Definition viewer_response (body : list (string * JsonValue)) : Response := mkResponse 200 (BodyJson (json_object body)).
Definition error_response (status : N) (message : string) : Response :=
  mkResponse status (BodyJson (json_object [("error", JString message)])).

Definition sync_mode_text : string := match vw_sync_mode settings with Auto => "auto" | Manual => "manual" end.
Definition opt_json {A} (f : A → JsonValue) (o : option A) : JsonValue := from_option f JNull o.
Definition decimal (n : N) : string := dec_padded 1 n.

Definition max_of (l : list DateTime) : option DateTime :=
  foldr (λ t m, Some (from_option (Z.max t) t m)) None l.

(** [partitions_overview] *)
Definition partition_detail (doc_roots : gmap N Hash) (ks : N * PartitionSync) : string * JsonValue :=
  let s := ks.2 in
  (decimal ks.1, json_object
    [("records", json_nat (ps_records s)); ("synced_at", datetime_json (ps_synced_at s));
     ("latest_added_at", opt_json datetime_json (ps_latest_added_at s));
     ("stale_error", opt_json JString (ps_stale_error s));
     ("behind", JBool (match doc_roots !! ks.1 with
                       | Some r => negb (bool_decide (Hash_to_hex r = ps_root s))
                       | None => false
                       end))]).
Definition pending_partitions (v : Viewer) : list N :=
  filter (λ id, v_sync_state v !! id = None) (root_order (v_doc_roots v)).*1.
Definition partitions_overview (v : Viewer) : Response :=
  let map := map_to_list (v_sync_state v) in
  let s := v_stats v in
  viewer_response
    [("partitions", json_nat (vw_partitions settings)); ("synced", json_nat (N.of_nat (length map)));
     ("total_records", json_nat (foldr (λ ks n, wrap64 (ps_records ks.2 + n)) 0%N map));
     ("roots_known", json_nat (roots_known s)); ("behind", json_nat (behind s));
     ("syncing", json_nat (v_syncing v)); ("pass", json_nat (pass s));
     ("last_pass_at", opt_json datetime_json (last_pass_at s));
     ("last_pass_secs", json_option (last_pass_secs s));
     ("data_updated_at", opt_json datetime_json (max_of (omap (ps_latest_added_at ∘ snd) map)));
     ("sync_mode", JString sync_mode_text);
     ("detail", json_object (partition_detail (v_doc_roots v) <$> map));
     ("pending", JArray (json_nat <$> pending_partitions v))].

(** [status] *)
Definition status (v : Viewer) : Response :=
  let s := v_stats v in
  viewer_response
    [("endpoint_id", JString (vw_endpoint_id settings)); ("ticket_source", JString (vw_ticket_source settings));
     ("read_ticket", JString (vw_read_ticket settings)); ("providers", json_nat (vw_providers settings));
     ("partitions", json_nat (vw_partitions settings)); ("roots_synced", json_nat (roots_known s));
     ("warm_values", JBool (vw_warm_values settings)); ("sync_mode", JString sync_mode_text);
     ("started_at", JString (to_rfc3339 (vw_started_at settings)));
     ("sync", json_object
       [("roots_known", json_nat (roots_known s)); ("behind", json_nat (behind s)); ("pass", json_nat (pass s));
        ("last_pass_at", opt_json datetime_json (last_pass_at s));
        ("last_pass_secs", json_option (last_pass_secs s))]);
     ("syncing_now", json_nat (v_syncing v))].

(** [sync_all], [sync_one] *)
Definition sync_all (v : Viewer) : Response * Viewer :=
  (viewer_response [("queued", JString "all")], with_forced (v_forced v) true v).
Definition out_of_range : Response :=
  error_response 400 ("partition must be 0.." +:+ decimal (vw_partitions settings)).
Definition sync_one (id : N) (v : Viewer) : Response * Viewer :=
  if (vw_partitions settings <=? id)%N then (out_of_range, v)
  else (viewer_response [("queued", json_nat id)], with_forced ({[id]} ∪ v_forced v) (v_force_all v) v).

(** [partition_entries]: from the cache, or walked at the root the pointer
    document gives. *)
Definition partition_entries (id : N) (root : result string (option Hash)) (local network : WalkOutcome) (v : Viewer)
    : result string (option CachedListing) * Viewer :=
  match v_listing_cache v !! id with
  | Some listing => (Ok (Some listing), v)
  | None =>
      match root with
      | Err e => (Err e, v)
      | Ok None => (Ok None, v)
      | Ok (Some root) =>
          match walked ("no peer served partition " +:+ decimal id +:+ "'s index within 30s") local network with
          | Err e => (Err e, v)
          | Ok entries => (Ok (Some (root, entries)), with_code_index None (cache_insert id (root, entries) v))
          end
      end
  end.

(** [format!("{c:#018x}")] *)
Definition code_text (c : N) : string := "0x" +:+ str_of_bytes (hex16 c).

(** [partition], on what [partition_entries] found *)
Definition entry_row (e : LeafEntry) : JsonValue :=
  json_object [("key", JString (le_key e)); ("hash", JString (Hash_to_prefixed (le_hash e)));
    ("size", json_nat (le_size e)); ("added_at", JString (to_rfc3339 (le_added_at e)));
    ("content_code", opt_json (JString ∘ code_text) (le_content_code e))].
Definition partition (id offset limit : N) (found : result string (option CachedListing)) : Response :=
  if (vw_partitions settings <=? id)%N then out_of_range
  else match found with
       | Ok None => viewer_response [("partition", json_nat id); ("root", JNull); ("total", json_nat 0); ("entries", JArray [])]
       | Ok (Some (root, entries)) =>
           viewer_response [("partition", json_nat id); ("root", JString (Hash_to_hex root));
             ("total", json_nat (N.of_nat (length entries))); ("offset", json_nat offset);
             ("entries", JArray (entry_row <$> take (N.to_nat limit) (drop (N.to_nat offset) entries)))]
       | Err err => error_response 502 err
       end.

(** ** Similarity search *)

(** The compact index of a snapshot of the cache. *)
Definition slot_codes (slot : nat) (entries : list LeafEntry) : list (N * nat * nat) :=
  omap (λ ie, c ← le_content_code ie.2; Some (c, slot, ie.1)) (imap pair entries).
Definition build_code_index (cache : gmap N CachedListing) : CodeIndex :=
  let listings := (λ il, (il.1, il.2.2)) <$> cache_order cache in
  mkCodeIndex (concat (imap (λ slot l, slot_codes slot l.2) listings)) listings.

(** An empty build does not stick. *)
Definition store_code_index (index : CodeIndex) (v : Viewer) : Viewer :=
  if decide (ci_codes index = []) then v else with_code_index (Some index) v.

(** A hit: distance, slot, entry and code. *)
Definition hit : Type := nat * nat * nat * N.
Definition hit_key (h : hit) : nat * nat * nat := h.1.

(** The scan: the first [MAX_HITS] codes within the distance. *)
Definition scan_step (code : N) (max_distance : nat) (hits : list hit) (c : N * nat * nat) : list hit :=
  let distance := hamming code c.1.1 in
  if (distance <=? max_distance) && (length hits <? MAX_HITS) then hits ++ [(distance, c.1.2, c.2, c.1.1)] else hits.
Definition scan_hits (code : N) (max_distance : nat) (codes : list (N * nat * nat)) : list hit :=
  foldl (scan_step code max_distance) [] codes.

(** [sort_by_key(|..| (distance, slot, entry_index))] *)
Definition hit_le (a b : hit) : Prop :=
  let '(d1, s1, i1) := hit_key a in
  let '(d2, s2, i2) := hit_key b in
  d1 < d2 ∨ d1 = d2 ∧ (s1 < s2 ∨ s1 = s2 ∧ i1 ≤ i2).
#[local] Instance hit_le_dec a b : Decision (hit_le a b).
Proof. unfold hit_le. destruct (hit_key a) as [[? ?] ?], (hit_key b) as [[? ?] ?]. apply _. Defined.
Definition sort_hits (l : list hit) : list hit := merge_sort hit_le l.

Record SimilarMatch := mkSimilarMatch {
  sm_key : string;
  sm_distance : nat;
  sm_partition : N;
  sm_content_code : N;
}.

(** The match a hit stands for; indexing past a listing would panic. *)
Definition match_of (index : CodeIndex) (h : hit) : option SimilarMatch :=
  l ← ci_listings index !! h.1.1.2;
  e ← l.2 !! h.1.2;
  Some (mkSimilarMatch (le_key e) h.1.1.1 l.1 h.2).
Definition similar_matches (index : CodeIndex) (code : N) (max_distance limit : nat) : option (list SimilarMatch) :=
  mapM (match_of index) (take limit (sort_hits (scan_hits code max_distance (ci_codes index)))).

(** [similar], on the index it reads or builds; [None] is a panic of the
    blocking task, answered 500. *)
Definition similar_distance (max_distance : option N) : nat := N.to_nat (N.min (default 8 max_distance) 16)%N.
Definition similar_limit (limit : option N) : nat := N.to_nat (N.max 1 (N.min (default 50 limit) 500))%N.
Definition similar (iscc : string) (max_distance limit : option N) (index : CodeIndex) (elapsed_ms : N) (panic_text : string)
    : Response :=
  match decode_content_code (str_of_bytes (trim (str_bytes iscc))) with
  | Err err => error_response 400 ("not a decodable ISCC (full code or Content-Code unit): " +:+ iscc_error_text err)
  | Ok code =>
      let with_code := json_nat (N.of_nat (length (ci_codes index))) in
      match similar_matches index code (similar_distance max_distance) (similar_limit limit) with
      | Some matches =>
          viewer_response [("query_code", JString (code_text code));
            ("max_distance", json_nat (N.of_nat (similar_distance max_distance)));
            ("with_content_code", with_code); ("scanned", with_code); ("elapsed_ms", json_nat elapsed_ms);
            ("matches", JArray ((λ m, json_object [("key", JString (sm_key m));
               ("distance", json_nat (N.of_nat (sm_distance m))); ("partition", json_nat (sm_partition m));
               ("content_code", JString (code_text (sm_content_code m)))]) <$> matches))]
      | None => error_response 500 panic_text
      end
  end.

(** The index a request uses, and what it leaves for the next. *)
Definition current_index (v : Viewer) : CodeIndex * Viewer :=
  match v_code_index v with
  | Some index => (index, v)
  | None => let index := build_code_index (v_listing_cache v) in (index, store_code_index index v)
  end.

(** ** Records *)

Section record.
Context {St Dc : Type} `{!Codec LeafEntry, !BlobStore St, !IrohDocs St Dc}.

(** The pointer document is polled while it has no root, until the
    deadline: [polls] times more. *)
Fixpoint poll_root (polls : nat) (id : N) : io (St * Dc) anyhow (option Hash) :=
  root ← get_partition_root id;
  match root, polls with
  | None, S polls => poll_root polls id
  | _, _ => mret root
  end.

(** The value of an entry, or why there is none. *)
Definition record_value (late : bool) (entry : LeafEntry) : io (St * Dc) anyhow (option JsonValue * option string) :=
  if late then mret (None, Some "value fetch timed out — origin unreachable right now")
  else
    found ← io_try (E:=anyhow) (on_fst (io_map_err EBlob (get (le_hash entry))));
    mret (match found with
          | Ok (Some bytes) =>
              match json_from_str (str_of_bytes bytes) with
              | Ok v => (Some v, None)
              | Err _ => (None, Some "value bytes fetched but are not valid JSON")
              end
          | Ok None => (None, Some "value bytes are not replicated locally and no provider served them just now — the index entry itself is present and verified. If the origin is offline or restarting, retry once it is back.")
          | Err err => (None, Some ("value fetch failed: " +:+ anyhow_text err))
          end).

(** [record]; [lookup_late] and [value_late] say that a time limit struck. *)
Definition find_record (polls : nat) (lookup_late value_late : bool) (key : string) : io (St * Dc) anyhow Response :=
  let id := partition_id_for_key key (vw_partitions settings) in
  root ← poll_root polls id;
  entry ← match root with
          | Some root =>
              if lookup_late then io_err (EBail "lookup timed out")
              else on_fst (io_map_err EHamt (lookup (Some root) key))
          | None => mret None
          end;
  match entry with
  | None => mret (viewer_response [("key", JString key); ("partition", json_nat id); ("found", JBool false)])
  | Some entry =>
      value ← record_value value_late entry;
      mret (viewer_response
        [("key", JString (le_key entry)); ("partition", json_nat id); ("found", JBool true);
         ("hash", JString (Hash_to_prefixed (le_hash entry))); ("size", json_nat (le_size entry));
         ("added_at", JString (to_rfc3339 (le_added_at entry)));
         ("content_code", opt_json (JString ∘ code_text) (le_content_code entry));
         ("value", json_option value.1); ("value_error", opt_json JString value.2)])
  end.

Definition record (polls : nat) (lookup_late value_late : bool) (key : string) (n : St * Dc) : Response * (St * Dc) :=
  if negb (is_valid_record_key key) then (error_response 400 "not a valid CIDv1 or declaration id", n)
  else match find_record polls lookup_late value_late key n with
       | (Ok response, n) => (response, n)
       | (Err err, n) => (error_response 502 (anyhow_text err), n)
       end.
End record.

(** ** The proxy and the ticket *)

(** The first occurrence of [sep]. *)
Fixpoint split_once (sep l : list byte) : option (list byte * list byte) :=
  match strip_bytes sep l, l with
  | Some rest, _ => Some ([], rest)
  | None, [] => None
  | None, b :: l => '(h, t) ← split_once sep l; Some (b :: h, t)
  end.
(** The last occurrence of a byte. *)
Definition rsplit_once (sep : byte) (l : list byte) : option (list byte * list byte) :=
  '(h, t) ← split_once [sep] (reverse l); Some (reverse t, reverse h).

(** [split_whitespace] *)
Fixpoint words (fuel : nat) (word l : list byte) : list (list byte) :=
  match fuel, l with
  | 0, _ | _, [] => if decide (word = []) then [] else [word]
  | S fuel, b :: rest =>
      match strip_first whitespace l with
      | Some l => (if decide (word = []) then [] else [word]) ++ words fuel [] l
      | None => words fuel (word ++ [b]) rest
      end
  end.
Definition split_whitespace (l : list byte) : list (list byte) := words (S (length l)) [] l.

(** What running [curl] came to. *)
Inductive CurlOutcome := CurlOutput (stdout : string) | CurlError (err : string) | CurlTimeout.

(** [external_metadata]: [curl] is given the URL and the key. *)
Definition external_metadata (curl : string → string → CurlOutcome) (key : string) : Response :=
  if negb (is_valid_record_key key) then error_response 400 "not a valid CIDv1 or declaration id"
  else
    match vw_commonsdb_api_key settings with
    | None => error_response 503 "COMMONSDB_API_KEY is not configured on this viewer — set it in the environment or a .env file (see .env.example) and restart"
    | Some api_key =>
        match curl (vw_commonsdb_metadata_url settings +:+ key) api_key with
        | CurlError err => error_response 502 ("could not invoke curl for the metadata API: " +:+ err)
        | CurlTimeout => error_response 504 "metadata API timed out"
        | CurlOutput raw =>
            let '(body, status_line) := default ([], []) (rsplit_once x0a (str_bytes raw)) in
            let upstream_status := default 0%N (result_ok (parse_uint 16 (str_of_bytes (trim status_line)))) in
            if negb (upstream_status =? 200)%N then
              error_response 502 ("metadata API answered HTTP " +:+ decimal upstream_status +:+ " for " +:+ key)
            else
              match json_from_str (str_of_bytes body) with
              | Ok metadata => viewer_response [("key", JString key); ("source", JString "api.commonsdb.org"); ("metadata", metadata)]
              | Err _ => error_response 502 "metadata API returned a non-JSON body"
              end
        end
    end.

(** [fetch_ticket]: the address, host and path of the URL, and the ticket in
    the response; the exchange between is the network's. *)
Definition ticket_endpoint (url : string) : result string (string * string * string) :=
  match strip_prefix "http://" url with
  | None => Err ("--ticket-url must be a plain http:// URL, got " +:+ url)
  | Some rest =>
      let '(host_port, path) := match split_once [x2f] (str_bytes rest) with
                                | Some (h, p) => (h, x2f :: p)
                                | None => (str_bytes rest, [x2f])
                                end in
      let addr := if bool_decide (x3a ∈ host_port) then host_port else host_port ++ str_bytes ":80" in
      let host := match split_once [x3a] host_port with Some (h, _) => h | None => host_port end in
      Ok (str_of_bytes addr, str_of_bytes host, str_of_bytes path)
  end.
Definition ticket_of_response (url response : string) : result string string :=
  match split_once [x0d; x0a; x0d; x0a] (str_bytes response) with
  | None => Err ("malformed HTTP response from " +:+ url)
  | Some (head, body) =>
      let status_line := default [] (hd_error (lines (str_of_bytes head))) in
      let ok := match split_whitespace status_line !! 1 with
                | Some (x32 :: _) => true
                | _ => false
                end in
      if negb ok then Err (url +:+ " answered: " +:+ str_of_bytes status_line)
      else if bool_decide (trim body = []) then Err (url +:+ " returned an empty ticket")
      else Ok (str_of_bytes (trim body))
  end.
Definition fetch_ticket (exchange : string → string → result string string) (url : string) : result string string :=
  endpoint ← ticket_endpoint url;
  let '(addr, host, path) := endpoint in
  let crlf := str_of_bytes [x0d; x0a] in
  response ← exchange addr ("GET " +:+ path +:+ " HTTP/1.0" +:+ crlf +:+ "Host: " +:+ host +:+ crlf +:+
                            "Connection: close" +:+ crlf +:+ crlf);
  ticket_of_response url response.

(** [cors_for_reads]: the response's added headers; [OPTIONS] is answered
    here. *)
Inductive Method := GET | POST | OPTIONS | OtherMethod.
Definition cors_for_reads (method : Method) (next : Response) : Response * list (string * string) :=
  match method with
  | OPTIONS => (mkResponse 204 (BodyText ""),
      [("access-control-allow-origin", "*"); ("access-control-allow-methods", "GET, OPTIONS");
       ("access-control-allow-headers", "content-type"); ("access-control-max-age", "86400")])
  | GET => (next, [("access-control-allow-origin", "*")])
  | _ => (next, [])
  end.

(** [dirs_storage_default]: next to the client's own directory *)
Definition viewer_storage_default (data_local_dir : option string) : string :=
  path_join (default "." data_local_dir) "registry-viewer".
End viewer.
