(* ===== verification/ViewerFacts.v ===== *)
(** The similarity scan of the viewer. *)

From stdpp Require Import sorting.
From S2P Require Import Prelude Hash Partition Record BlobStore Hamt HamtWalk Iscc Similarity CidKey Anyhow Index PointerDoc Files Api Config Viewer.

Lemma MAX_CACHED_pos : 0 < MAX_CACHED_PARTITIONS.
Proof. unfold MAX_CACHED_PARTITIONS. lia. Qed.
#[global] Opaque MAX_HITS MAX_CACHED_PARTITIONS.

(** ** The order of hits *)

#[global] Instance hit_le_trans : Transitive hit_le.
Proof.
  intros [[[d1 s1] i1] c1] [[[d2 s2] i2] c2] [[[d3 s3] i3] c3]. unfold hit_le, hit_key. simpl. lia.
Qed.
#[global] Instance hit_le_total : Total hit_le.
Proof. intros [[[d1 s1] i1] c1] [[[d2 s2] i2] c2]. unfold hit_le, hit_key. simpl. lia. Qed.

Lemma sort_hits_perm l : sort_hits l ≡ₚ l.
Proof. apply merge_sort_Permutation. Qed.

Lemma sort_hits_sorted l : StronglySorted hit_le (sort_hits l).
Proof. apply (StronglySorted_merge_sort hit_le). Qed.

(** Sorted lists: what is cut off is no nearer. *)
Lemma sorted_cut l n x : StronglySorted hit_le l → x ∈ l → x ∉ take n l →
  length (take n l) = n ∧ ∀ y, y ∈ take n l → hit_le y x.
Proof.
  intros Hs Hx Hn. rewrite <-(take_drop n l) in Hx. apply elem_of_app in Hx as [?|Hx]; [done|].
  split.
  - rewrite length_take. apply Nat.min_l. destruct (decide (n ≤ length l)); [done|].
    rewrite drop_ge in Hx by lia. by apply elem_of_nil in Hx.
  - intros y Hy. rewrite <-(take_drop n l) in Hs.
    revert Hs Hy Hx. generalize (drop n l) as l2, (take n l) as l1. intros l2 l1.
    induction l1 as [|z l1 IH]; intros Hs Hy Hx; [by apply elem_of_nil in Hy|].
    apply StronglySorted_inv in Hs as [Hs Hall]. apply elem_of_cons in Hy as [->|Hy]; [|by apply IH].
    rewrite Forall_forall in Hall. apply Hall, elem_of_app. by right.
Qed.

(** ** The scan *)

(** Every code within the distance. *)
Definition hit_of (code : N) (max_distance : nat) (c : N * nat * nat) : option hit :=
  if decide (hamming code c.1.1 ≤ max_distance) then Some (hamming code c.1.1, c.1.2, c.2, c.1.1) else None.
Definition all_hits (code : N) (max_distance : nat) (codes : list (N * nat * nat)) : list hit :=
  omap (hit_of code max_distance) codes.

Lemma scan_hits_take code d codes : scan_hits code d codes = take MAX_HITS (all_hits code d codes).
Proof.
  unfold scan_hits. assert (∀ acc, length acc ≤ MAX_HITS →
    foldl (scan_step code d) acc codes = acc ++ take (MAX_HITS - length acc) (all_hits code d codes)) as Hgen.
  { induction codes as [|c codes IH]; intros acc Hacc; [simpl; by rewrite take_nil, app_nil_r|].
    cbn [foldl]. unfold all_hits in *. cbn [omap list_omap]. unfold scan_step at 2.
    destruct (hit_of code d c) as [h|] eqn:Eh; unfold hit_of in Eh; case_decide as Hd; try done.
    - injection Eh as <-. rewrite (proj2 (Nat.leb_le _ _) Hd). cbn [andb].
      destruct (Nat.ltb_spec (length acc) MAX_HITS) as [Hl|Hl].
      + rewrite IH by (rewrite length_app; simpl; lia). rewrite length_app, <-(assoc_L (++)). simpl.
        replace (MAX_HITS - length acc) with (S (MAX_HITS - (length acc + 1))) by lia. done.
      + rewrite IH by done. by replace (MAX_HITS - length acc) with 0 by lia.
    - rewrite (proj2 (Nat.leb_gt _ _)) by lia. by apply IH. }
  rewrite Hgen by (simpl; lia). simpl. by rewrite Nat.sub_0_r.
Qed.

(** ** The index *)

Section index.
Context (cache_order : gmap N CachedListing → list (N * CachedListing)).
Context (Horder : ∀ m, cache_order m ≡ₚ map_to_list m).

(** Every code is that of the entry it points at. *)
Definition index_ok (ix : CodeIndex) : Prop :=
  ∀ c slot i, (c, slot, i) ∈ ci_codes ix ↔
    ∃ id es e, ci_listings ix !! slot = Some (id, es) ∧ es !! i = Some e ∧ le_content_code e = Some c.

Lemma slot_codes_elem slot es c s i :
  (c, s, i) ∈ slot_codes slot es ↔ s = slot ∧ ∃ e, es !! i = Some e ∧ le_content_code e = Some c.
Proof.
  unfold slot_codes. rewrite list_elem_of_omap. split.
  - intros ([j e] & Hin & Hc). simpl in Hc. destruct (le_content_code e) as [c'|] eqn:Ec; [|done].
    injection Hc as -> <- <-. split; [done|]. exists e. split; [|done].
    apply list_elem_of_lookup in Hin as [k Hk]. rewrite list_lookup_imap in Hk.
    destruct (es !! k) eqn:Ek; [|done]. injection Hk as <- <-. done.
  - intros (-> & e & He & Hc). exists (i, e). split; [|simpl; by rewrite Hc].
    apply list_elem_of_lookup. exists i. by rewrite list_lookup_imap, He.
Qed.

Lemma build_index_ok cache : index_ok (build_code_index cache_order cache).
Proof.
  intros c slot i. unfold build_code_index. cbn [ci_codes ci_listings].
  set (ls := _ <$> cache_order cache). rewrite list_elem_of_In, in_concat. setoid_rewrite <-list_elem_of_In. split.
  - intros (l & Hl & Hin). apply list_elem_of_lookup in Hl as [k Hk]. rewrite list_lookup_imap in Hk.
    destruct (ls !! k) as [[id es]|] eqn:Ek; [|done]. injection Hk as <-.
    apply slot_codes_elem in Hin as (-> & e & He & Hc). by exists id, es, e.
  - intros (id & es & e & Hl & He & Hc). exists (slot_codes slot es). split.
    + apply list_elem_of_lookup. exists slot. by rewrite list_lookup_imap, Hl.
    + apply slot_codes_elem. by eauto.
Qed.

(** ** The matches *)

Definition hit_match (h : hit) (id : N) (e : LeafEntry) : SimilarMatch :=
  mkSimilarMatch (le_key e) h.1.1.1 id h.2.

Lemma match_of_eq ix h id es e : ci_listings ix !! h.1.1.2 = Some (id, es) → es !! h.1.2 = Some e →
  match_of ix h = Some (hit_match h id e).
Proof. intros Hl He. unfold match_of. rewrite Hl. simpl. by rewrite He. Qed.

Lemma all_hits_elem code d ix h : index_ok ix →
  h ∈ all_hits code d (ci_codes ix) ↔
  ∃ id es e c, ci_listings ix !! h.1.1.2 = Some (id, es) ∧ es !! h.1.2 = Some e ∧ le_content_code e = Some c ∧
    hamming code c ≤ d ∧ h.1.1.1 = hamming code c ∧ h.2 = c.
Proof.
  intros Hix. unfold all_hits. rewrite list_elem_of_omap. split.
  - intros ([[c slot] i] & Hin & Hh). unfold hit_of in Hh. case_decide as Hd; [|done]. injection Hh as <-.
    apply Hix in Hin as (id & es & e & Hl & He & Hc). by exists id, es, e, c.
  - destruct h as [[[dist slot] i] c0]. simpl. intros (id & es & e & c & Hl & He & Hc & Hd & -> & ->).
    exists (c, slot, i). split; [apply Hix; by exists id, es, e|]. unfold hit_of. by rewrite decide_True.
Qed.

(** Looking the hits up succeeds. *)
Lemma similar_matches_ok ix code d limit : index_ok ix →
  ∃ ms, similar_matches ix code d limit = Some ms ∧
    Forall2 (λ h m, ∃ id es e, ci_listings ix !! h.1.1.2 = Some (id, es) ∧ es !! h.1.2 = Some e ∧ m = hit_match h id e)
      (take limit (sort_hits (take MAX_HITS (all_hits code d (ci_codes ix))))) ms.
Proof.
  intros Hix. unfold similar_matches. rewrite scan_hits_take.
  set (hs := take limit _). assert (∀ h, h ∈ hs → h ∈ all_hits code d (ci_codes ix)) as Hsub.
  { intros h Hh. eapply (subseteq_take limit) in Hh. rewrite sort_hits_perm in Hh. by eapply subseteq_take. }
  clearbody hs. induction hs as [|h hs IH].
  { exists []. by split. }
  destruct IH as (ms & Hms & Hf); [intros h' Hh'; apply Hsub; by right|].
  destruct (proj1 (all_hits_elem code d ix h Hix) (Hsub h ltac:(by left))) as (id & es & e & c & Hl & He & _).
  exists (hit_match h id e :: ms). split.
  - simpl. rewrite (match_of_eq _ _ _ _ _ Hl He). simpl. by rewrite Hms.
  - constructor; [|done]. by exists id, es, e.
Qed.

(** A match of an entry of a listing. *)
Definition match_in (ix : CodeIndex) (code : N) (d : nat) (m : SimilarMatch) : Prop :=
  ∃ id es e c, (id, es) ∈ ci_listings ix ∧ e ∈ es ∧ le_content_code e = Some c ∧ hamming code c ≤ d ∧
    m = mkSimilarMatch (le_key e) (hamming code c) id c.

Lemma Forall2_elem_r {A B} (R : A → B → Prop) l k y : Forall2 R l k → y ∈ k → ∃ x, x ∈ l ∧ R x y.
Proof.
  intros Hf Hy. apply list_elem_of_lookup in Hy as [i Hi].
  destruct (Forall2_lookup_r _ _ _ _ _ Hf Hi) as (x & Hx & HR). exists x. split; [|done].
  by apply list_elem_of_lookup_2 in Hx.
Qed.
Lemma Forall2_elem_l {A B} (R : A → B → Prop) l k x : Forall2 R l k → x ∈ l → ∃ y, y ∈ k ∧ R x y.
Proof.
  intros Hf Hx. apply list_elem_of_lookup in Hx as [i Hi].
  destruct (Forall2_lookup_l _ _ _ _ _ Hf Hi) as (y & Hy & HR). exists y. split; [|done].
  by apply list_elem_of_lookup_2 in Hy.
Qed.

Lemma hit_match_in ix code d h id es e : index_ok ix → h ∈ all_hits code d (ci_codes ix) →
  ci_listings ix !! h.1.1.2 = Some (id, es) → es !! h.1.2 = Some e → match_in ix code d (hit_match h id e).
Proof.
  intros Hix (id' & es' & e' & c & Hl & He & Hc & Hd & Hdist & Hcode)%all_hits_elem Hl' He'; [|done].
  assert (id' = id ∧ es' = es) as [-> ->] by (rewrite Hl in Hl'; by injection Hl'). assert (e' = e) as -> by congruence.
  exists id, es, e, c. split_and!; [by apply list_elem_of_lookup_2 in Hl|by apply list_elem_of_lookup_2 in He|done|done|].
  unfold hit_match. by rewrite Hdist, Hcode.
Qed.

Lemma similar_sound ix code d limit ms m : index_ok ix →
  similar_matches ix code d limit = Some ms → m ∈ ms → match_in ix code d m.
Proof.
  intros Hix Hms Hm. destruct (similar_matches_ok ix code d limit Hix) as (ms' & Hms' & Hf).
  assert (ms' = ms) as -> by congruence. destruct (Forall2_elem_r _ _ _ _ Hf Hm) as (h & Hh & id & es & e & Hl & He & ->).
  eapply hit_match_in; [done| |done|done]. eapply (subseteq_take limit) in Hh. rewrite sort_hits_perm in Hh.
  by eapply subseteq_take.
Qed.

Lemma StronglySorted_take {A} (R : A → A → Prop) n l : StronglySorted R l → StronglySorted R (take n l).
Proof.
  intros Hs. revert n. induction Hs as [|x l Hs IH Hall]; intros [|n]; simpl; constructor; [apply IH|].
  rewrite Forall_forall in *. intros y Hy. by eapply Hall, subseteq_take.
Qed.

Lemma similar_sorted ix code d limit ms : index_ok ix →
  similar_matches ix code d limit = Some ms → StronglySorted (λ a b, sm_distance a ≤ sm_distance b) ms ∧ length ms ≤ limit.
Proof.
  intros Hix Hms. destruct (similar_matches_ok ix code d limit Hix) as (ms' & Hms' & Hf).
  assert (ms' = ms) as -> by congruence. split.
  - clear Hms Hms'. assert (StronglySorted hit_le (take limit (sort_hits (take MAX_HITS (all_hits code d (ci_codes ix)))))) as Hs
      by apply StronglySorted_take, sort_hits_sorted.
    induction Hf as [|h m hs ms (id & es & e & _ & _ & ->) Hf IH]; [constructor|].
    apply StronglySorted_inv in Hs as [Hs Hall]. constructor; [by apply IH|]. apply Forall_forall. intros m Hm.
    destruct (Forall2_elem_r _ _ _ _ Hf Hm) as (h' & Hh' & id' & es' & e' & _ & _ & ->).
    rewrite Forall_forall in Hall. specialize (Hall h' Hh'). destruct h as [[[? ?] ?] ?], h' as [[[? ?] ?] ?].
    unfold hit_le, hit_key, hit_match in *. simpl in *. lia.
  - rewrite <-(Forall2_length _ _ _ Hf), length_take. lia.
Qed.

(** Within the cap nothing near is missing. *)
Lemma similar_complete ix code d limit ms id es e c : index_ok ix →
  similar_matches ix code d limit = Some ms → length (all_hits code d (ci_codes ix)) ≤ MAX_HITS →
  (id, es) ∈ ci_listings ix → e ∈ es → le_content_code e = Some c → hamming code c ≤ d →
  mkSimilarMatch (le_key e) (hamming code c) id c ∈ ms ∨
  length ms = limit ∧ ∀ m, m ∈ ms → sm_distance m ≤ hamming code c.
Proof.
  intros Hix Hms Hcap Hl He Hc Hd. destruct (similar_matches_ok ix code d limit Hix) as (ms' & Hms' & Hf).
  assert (ms' = ms) as -> by congruence. rewrite (take_ge (all_hits _ _ _)) in Hf by done.
  apply list_elem_of_lookup in Hl as [slot Hl]. apply list_elem_of_lookup in He as [i He].
  set (h := (hamming code c, slot, i, c) : hit).
  assert (h ∈ all_hits code d (ci_codes ix)) as Hh.
  { apply all_hits_elem; [done|]. by exists id, es, e, c. }
  rewrite <-sort_hits_perm in Hh. destruct (decide (h ∈ take limit (sort_hits (all_hits code d (ci_codes ix))))) as [Hin|Hout].
  - left. destruct (Forall2_elem_l _ _ _ _ Hf Hin) as (m & Hm & id' & es' & e' & Hl' & He' & ->).
    simpl in Hl', He'. rewrite Hl in Hl'. injection Hl' as <- <-. rewrite He in He'. injection He' as <-. exact Hm.
  - right. destruct (sorted_cut _ _ _ (sort_hits_sorted _) Hh Hout) as [Hlen Hle].
    split; [by rewrite <-(Forall2_length _ _ _ Hf)|]. intros m Hm.
    destruct (Forall2_elem_r _ _ _ _ Hf Hm) as (h' & Hh' & id' & es' & e' & _ & _ & ->).
    specialize (Hle h' Hh'). destruct h' as [[[? ?] ?] ?]. unfold hit_le, hit_key, hit_match, h in *. simpl in *. lia.
Qed.

Lemma all_hits_length code d codes :
  length (all_hits code d codes) = length (filter (λ c : N * nat * nat, hamming code c.1.1 ≤ d) codes).
Proof.
  unfold all_hits. induction codes as [|c codes IH]; [done|]. rewrite filter_cons. cbn [omap list_omap].
  unfold hit_of at 1. case_decide; simpl; by rewrite ?IH.
Qed.
Lemma all_hits_app code d l1 l2 : all_hits code d (l1 ++ l2) = all_hits code d l1 ++ all_hits code d l2.
Proof. apply omap_app. Qed.
Lemma all_hits_code code d codes h : h ∈ all_hits code d codes → ∃ c, c ∈ codes ∧ h.2 = c.1.1.
Proof.
  intros (c & Hc & Hh)%list_elem_of_omap. exists c. split; [done|]. unfold hit_of in Hh. case_decide; [|done].
  by injection Hh as <-.
Qed.

Lemma listings_cached cache id es :
  (id, es) ∈ ci_listings (build_code_index cache_order cache) ↔ ∃ root, cache !! id = Some (root, es).
Proof.
  simpl. rewrite list_elem_of_fmap. setoid_rewrite Horder. split.
  - intros ([id' [root es']] & [= -> ->] & Hin%elem_of_map_to_list). by exists root.
  - intros [root Hl]. exists (id, (root, es)). by rewrite elem_of_map_to_list.
Qed.
End index.

Lemma latest_of_perm l1 l2 : l1 ≡ₚ l2 → latest_of l1 = latest_of l2.
Proof.
  induction 1 as [|e l1 l2 _ IH|e1 e2 l|l1 l2 l3 _ IH1 _ IH2]; [done|simpl; by rewrite IH| |congruence].
  simpl. f_equal. destruct (latest_of l); simpl; lia.
Qed.
