(* ===== verification/ViewerSteps.v ===== *)
(** The viewer's tasks interleaved: [crates/registry-viewer/src/main.rs].

    A task is the rest of an async function from one of its await points
    (or from one lock operation to the next: the runtime has several
    threads).  [sync_step] follows [sync_partition], [request_step] the
    handlers that wait, [loop_step] the body of [sync_loop], and
    [viewer_step] interleaves them with the handlers that do not.  What a
    walk finds is any outcome of [shared_walk_outcome]; the pointer document,
    the clock and the file of the last run are arbitrary.  The synchronous
    stretches at the start and the end of a pass are one step each. *)

From S2P Require Import Prelude Hash Partition Record BlobStore Hamt HamtNodeFacts HamtFacts HamtWalk Iscc Similarity CidKey Anyhow Index PointerDoc Files Api Config Viewer.

(** [sync_partition] and the task a pass spawns for it. *)
Inductive SyncTask :=
| TSync (id : N) (root : Hash) (force : bool)
| TLookup (id : N) (root : Hash) (force : bool)
| TWalk (id : N) (root : Hash)
| TInstall (id : N) (root : Hash) (entries : list LeafEntry)
| TState (id : N) (root : Hash) (entries : list LeafEntry)
| TClear
| TFail (id : N) (err : string)
| TEnd.

(** [partition_entries] and [similar]; [RReply] is the answer of the one,
    [RScan] the blocking scan of the other. *)
Inductive Request :=
| RRead (id : N)
| RRoot (id : N)
| RWalk (id : N) (root : Hash)
| RInstall (id : N) (root : Hash) (entries : list LeafEntry)
| RClear (root : Hash) (entries : list LeafEntry)
| RReply (listing : option CachedListing)
| RSimilar
| RSnapshot
| RBuild (cache : gmap N CachedListing)
| RScan (index : CodeIndex).

(** [sync_loop] *)
Inductive Loop :=
| LBoot
| LSnapshot (persisted : gmap N PartitionSync)
| LStartup (walks : list (N * list Hash))
| LStartState (walks : list (N * list Hash)) (id : N) (listing : CachedListing)
| LTop
| LPass (work : list (N * Hash * bool))
| LDrained.

Record Process := mkProcess {
  pr_viewer : Viewer;
  pr_loop : Loop;
  pr_syncs : list SyncTask;
  pr_requests : list Request;
}.

Definition Process_init : Process := mkProcess Viewer_init LBoot [] [].

Section steps.
Context `{Blake3} `{Sha256} `{Hex} `{!Codec LeafEntry} {St : Type} `{!BlobStore St}.
Context (D : list byte → Prop) `{!VerifiedStore St D}.
Context (settings : Settings) (root_order : gmap N Hash → list (N * Hash)).
Context (cache_order : gmap N CachedListing → list (N * CachedListing)).

Definition some_walk : Hash → WalkOutcome → Prop := shared_walk_outcome (St:=St) D.

(** The local and then the network walk of [root]. *)
Definition some_walks (window : string) (root : Hash) (found : result string (list LeafEntry)) : Prop :=
  ∃ local network, some_walk root local ∧ some_walk root network ∧ found = walked window local network.

(** One step of a sync task: its continuation, and the state it leaves. *)
Inductive sync_step : SyncTask → Viewer → list SyncTask → Viewer → Prop :=
| sync_stopping id root force v : v_stopping v = true → sync_step (TSync id root force) v [] v
| sync_begin id root force v : v_stopping v = false →
    sync_step (TSync id root force) v [TLookup id root force] (with_syncing (wrap32 (v_syncing v + 1)) v)
| sync_cached id root force v entries : cached_listing v id root force = Some entries →
    sync_step (TLookup id root force) v [TInstall id root entries] v
| sync_uncached id root force v : cached_listing v id root force = None →
    sync_step (TLookup id root force) v [TWalk id root] v
| sync_walked id root v found :
    some_walks "index incomplete within 300s (origin busy or unreachable)" root found →
    sync_step (TWalk id root) v
      [match found with Ok entries => TInstall id root entries | Err err => TFail id err end] v
| sync_install id root entries v :
    sync_step (TInstall id root entries) v [TState id root entries] (cache_insert id (root, entries) v)
| sync_state id root entries now v :
    sync_step (TState id root entries) v [TClear] (state_insert id root entries now v)
| sync_clear v : sync_step TClear v [TEnd] (with_code_index None v)
| sync_fail id err v : sync_step (TFail id err) v [TEnd] (mark_stale id err v)
| sync_end v : sync_step TEnd v [] (with_syncing (wrap32 (v_syncing v + (2 ^ 32 - 1))) v).

(** One step of a request. *)
Inductive request_step : Request → Viewer → list Request → Viewer → Prop :=
| read_cached id listing v : v_listing_cache v !! id = Some listing →
    request_step (RRead id) v [RReply (Some listing)] v
| read_uncached id v : v_listing_cache v !! id = None → request_step (RRead id) v [RRoot id] v
| root_error id v : request_step (RRoot id) v [] v
| root_none id v : request_step (RRoot id) v [RReply None] v
| root_some id root v : request_step (RRoot id) v [RWalk id root] v
| read_walked id root v found :
    some_walks ("no peer served partition " +:+ decimal id +:+ "'s index within 30s") root found →
    request_step (RWalk id root) v
      (match found with Ok entries => [RInstall id root entries] | Err _ => [] end) v
| read_install id root entries v :
    request_step (RInstall id root entries) v [RClear root entries] (cache_insert id (root, entries) v)
| read_clear root entries v :
    request_step (RClear root entries) v [RReply (Some (root, entries))] (with_code_index None v)
| reply listing v : request_step (RReply listing) v [] v
| similar_current index v : v_code_index v = Some index → request_step RSimilar v [RScan index] v
| similar_stale v : v_code_index v = None → request_step RSimilar v [RSnapshot] v
| similar_snapshot v : request_step RSnapshot v [RBuild (v_listing_cache v)] v
| similar_build cache v :
    request_step (RBuild cache) v [RScan (build_code_index cache_order cache)]
      (store_code_index (build_code_index cache_order cache) v)
| similar_scan index v : request_step (RScan index) v [] v.

(** One step of the loop; a pass spawns its tasks and waits for them. *)
Inductive loop_step : Loop → Viewer → list SyncTask → Loop → Viewer → list SyncTask → Prop :=
| loop_restore persisted v :
    loop_step LBoot v [] (LSnapshot persisted) (restore_persisted persisted v) []
| loop_startup persisted roots v :
    loop_step (LSnapshot persisted) v []
      (LStartup ((λ k, (N.of_nat k, startup_roots persisted roots (N.of_nat k))) <$> seq 0 (N.to_nat (vw_partitions settings))))
      (note_doc_roots roots v) []
| loop_walk_nothing w1 id roots w2 v :
    (* no complete walk, or a panic *)
    loop_step (LStartup (w1 ++ (id, roots) :: w2)) v [] (LStartup (w1 ++ w2)) v []
| loop_walk_install w1 id roots w2 outcome listing v :
    (∀ root, root ∈ roots → some_walk root (outcome root)) → startup_walk outcome roots = Some listing →
    loop_step (LStartup (w1 ++ (id, roots) :: w2)) v [] (LStartState (w1 ++ w2) id listing)
      (with_cache (<[id := listing]> (v_listing_cache v)) v) []
| loop_walk_state walks id listing now v :
    loop_step (LStartState walks id listing) v [] (LStartup walks) (state_insert id listing.1 listing.2 now v) []
| loop_started v : loop_step (LStartup []) v [] LTop (with_code_index None v) []
| loop_drained v : v_stopping v = true → loop_step LTop v [] LDrained v []
| loop_no_roots v : v_stopping v = false → loop_step LTop v [] LTop v []
| loop_pass roots work v v' : v_stopping v = false → begin_pass settings root_order roots v = (work, v') →
    loop_step LTop v [] (LPass work) v' ((λ '(id, root, force), TSync id root force) <$> work)
| loop_joined work now secs v : loop_step (LPass work) v [] LTop (end_pass now secs v) [].

Inductive viewer_step : Process → Process → Prop :=
| step_loop l v t l' v' t' r : loop_step l v t l' v' t' → viewer_step (mkProcess v l t r) (mkProcess v' l' t' r)
| step_sync v l t1 t t2 r t' v' : sync_step t v t' v' →
    viewer_step (mkProcess v l (t1 ++ t :: t2) r) (mkProcess v' l (t1 ++ t' ++ t2) r)
| step_request v l t r1 q r2 q' v' : request_step q v q' v' →
    viewer_step (mkProcess v l t (r1 ++ q :: r2)) (mkProcess v' l t (r1 ++ q' ++ r2))
| step_partition v l t r id : (id < vw_partitions settings)%N →
    viewer_step (mkProcess v l t r) (mkProcess v l t (RRead id :: r))
| step_similar v l t r : viewer_step (mkProcess v l t r) (mkProcess v l t (RSimilar :: r))
| step_sync_all v l t r : viewer_step (mkProcess v l t r) (mkProcess (sync_all v).2 l t r)
| step_sync_one id v l t r : viewer_step (mkProcess v l t r) (mkProcess (sync_one settings id v).2 l t r)
| step_stop v l t r :
    viewer_step (mkProcess v l t r)
      (mkProcess (mkViewer (v_forced v) (v_force_all v) (v_listing_cache v) (v_sync_state v) (v_doc_roots v)
        (v_stats v) (v_syncing v) true (v_code_index v)) l t r).
End steps.
