(* ===== verification/ViewerInv.v ===== *)
(** What the viewer serves is what was published: the invariant of
    [ViewerSteps]. *)

From S2P Require Import Prelude Hash Partition Record BlobStore Hamt HamtNodeFacts HamtFacts HamtWalk Iscc Similarity CidKey Anyhow Index PointerDoc Files Api Config Viewer ViewerFacts ViewerSteps.

Lemma Hash_to_hex_inj `{HexLaws} h1 h2 : Hash_to_hex h1 = Hash_to_hex h2 → h1 = h2.
Proof. intros Heq. pose proof (from_to_hex h1) as H1. rewrite Heq, from_to_hex in H1. congruence. Qed.

Section inv.
Context `{Blake3} `{Sha256} `{Hex} `{!Codec LeafEntry} {St : Type} `{!BlobStore St}.
Context (D : list byte → Prop) `{!CollisionFree D} `{!VerifiedStore St D}.
Context (settings : Settings) (root_order : gmap N Hash → list (N * Hash)).
Context (cache_order : gmap N CachedListing → list (N * CachedListing)).
(** what the publisher's store holds *)
Context (C : gmap Hash (list byte)) (HC : published D C).

(** The listing is that of the tree, if there is one at its root. *)
Definition served (root : Hash) (entries : list LeafEntry) : Prop :=
  ∀ es, rep_root C (Some root) es → entries = sort_by_key le_key es.
Definition cache_ok (cache : gmap N CachedListing) : Prop := map_Forall (λ _ l, served l.1 l.2) cache.
Definition scan_ok (ix : CodeIndex) : Prop := ∃ cache, cache_ok cache ∧ ix = build_code_index cache_order cache.

(** A row of the overview that is not marked stale. *)
Definition row_ok (s : PartitionSync) : Prop :=
  ps_stale_error s = None → ∃ root entries, served root entries ∧ ps_root s = Hash_to_hex root ∧
    ps_records s = N.of_nat (length entries) ∧ ps_latest_added_at s = latest_of entries.

Definition viewer_ok (v : Viewer) : Prop :=
  cache_ok (v_listing_cache v) ∧ map_Forall (λ _ s, row_ok s) (v_sync_state v) ∧
  ∀ ix, v_code_index v = Some ix → scan_ok ix.

Definition task_ok (t : SyncTask) : Prop :=
  match t with TInstall _ root entries | TState _ root entries => served root entries | _ => True end.
Definition request_ok (q : Request) : Prop :=
  match q with
  | RInstall _ root entries | RClear root entries | RReply (Some (root, entries)) => served root entries
  | RBuild cache => cache_ok cache
  | RScan ix => scan_ok ix
  | _ => True
  end.
Definition loop_ok (l : Loop) : Prop :=
  match l with LStartState _ _ listing => served listing.1 listing.2 | _ => True end.

(** Start-up walks yet to be installed. *)
Definition startup_left (l : Loop) : nat :=
  match l with
  | LBoot | LSnapshot _ => N.to_nat (vw_partitions settings)
  | LStartup walks | LStartState walks _ _ => length walks
  | _ => 0
  end.

Definition process_ok (p : Process) : Prop :=
  viewer_ok (pr_viewer p) ∧ loop_ok (pr_loop p) ∧ Forall task_ok (pr_syncs p) ∧ Forall request_ok (pr_requests p).
Definition process_bounded (p : Process) : Prop :=
  startup_left (pr_loop p) ≤ N.to_nat (vw_partitions settings) ∧
  size (v_listing_cache (pr_viewer p)) + startup_left (pr_loop p) ≤
    MAX_CACHED_PARTITIONS + N.to_nat (vw_partitions settings).

(** ** Walks *)

Lemma walked_served window root entries :
  some_walks (St:=St) D window root (Ok entries) → served root entries.
Proof.
  intros (local & network & Hl & Hn & Hw) es Hr. unfold walked in Hw.
  destruct (wo_complete local) eqn:El; [injection Hw as ->; by eapply shared_walk_lists|].
  destruct (wo_complete network) eqn:En; [injection Hw as ->; by eapply shared_walk_lists|done].
Qed.

Lemma startup_served outcome roots listing :
  (∀ root, root ∈ roots → some_walk (St:=St) D root (outcome root)) →
  startup_walk outcome roots = Some listing → served listing.1 listing.2.
Proof.
  induction roots as [|root roots IH]; intros Hw Hs; [done|]. simpl in Hs.
  destruct (wo_complete (outcome root)) eqn:E.
  - injection Hs as <-. intros es Hr. eapply shared_walk_lists; [done..| |done]. apply Hw. by left.
  - apply IH; [|done]. intros r Hin. apply Hw. by right.
Qed.

(** ** The operations *)

Lemma cached_served v id root force entries :
  viewer_ok v → cached_listing v id root force = Some entries → served root entries.
Proof.
  intros (Hc & _) Hl. unfold cached_listing in Hl. destruct force; [done|].
  destruct (v_listing_cache v !! id) as [[root' es]|] eqn:E; [|done]. case_decide; [|done].
  simplify_eq. by apply (Hc _ _ E).
Qed.

Lemma cache_insert_ok id root entries v : viewer_ok v → served root entries → viewer_ok (cache_insert id (root, entries) v).
Proof.
  intros (Hc & Hs & Hi) Hl. split_and!; [|done..]. unfold cache_insert. simpl.
  case_match; apply map_Forall_insert_2; done.
Qed.

Lemma state_insert_ok id root entries now v : viewer_ok v → served root entries → viewer_ok (state_insert id root entries now v).
Proof.
  intros (Hc & Hs & Hi) Hl. split_and!; [done| |done]. apply map_Forall_insert_2; [|done]. intros _. by exists root, entries.
Qed.

Lemma mark_stale_ok id err v : viewer_ok v → viewer_ok (mark_stale id err v).
Proof.
  intros (Hc & Hs & Hi). split_and!; [done| |done]. intros i s Hsi. simpl in Hsi.
  apply lookup_alter_Some in Hsi as [(<- & s' & _ & ->)|[_ Hsi]]; [done|by apply (Hs i)].
Qed.

Lemma restore_ok persisted v : viewer_ok v → viewer_ok (restore_persisted persisted v).
Proof.
  intros (Hc & Hs & Hi). split_and!; [done| |done]. intros i s Hsi. simpl in Hsi.
  apply lookup_union_Some_raw in Hsi as [Hsi|[_ Hsi]]; [|by apply (Hs i)].
  rewrite lookup_fmap in Hsi. destruct (restorable persisted !! i); [|done]. injection Hsi as <-. done.
Qed.

(** ** The steps *)

Lemma sync_step_ok t v t' v' : sync_step (St:=St) D t v t' v' → viewer_ok v → task_ok t →
  viewer_ok v' ∧ Forall task_ok t'.
Proof.
  intros Hst Hv Ht. destruct Hst as [| | | |id root v found Hw| | | | |]; simpl in *; (split; [|try (by constructor); rewrite ?Forall_singleton; simpl]);
    eauto using cached_served, cache_insert_ok, state_insert_ok, mark_stale_ok.
  - destruct found; [by eapply walked_served|done].
  - destruct Hv as (? & ? & ?). by split_and!.
Qed.

Lemma request_step_ok q v q' v' : request_step (St:=St) D cache_order q v q' v' → viewer_ok v → request_ok q →
  viewer_ok v' ∧ Forall request_ok q'.
Proof.
  intros Hst Hv Hq. destruct Hst as [id [root es] v Hl| | | | |id root v found Hw| | | | | | |cache v|]; simpl in *;
    (split; [|try (by constructor); rewrite ?Forall_singleton; simpl]); eauto using cache_insert_ok; try (by destruct Hv as (? & ? & ?)).
  - destruct Hv as (Hc & _). by apply (Hc _ _ Hl).
  - destruct found; rewrite ?Forall_singleton; [by eapply walked_served|done].
  - destruct Hv as (? & ? & Hi). by apply Hi.
  - unfold store_code_index. case_decide; [done|]. destruct Hv as (? & ? & Hi). split_and!; [done..|].
    intros ix [= <-]. by exists cache.
  - by exists cache.
Qed.

Lemma begin_pass_ok roots v work v' : begin_pass settings root_order roots v = (work, v') → viewer_ok v → viewer_ok v'.
Proof. intros [= _ <-] Hv. exact Hv. Qed.

Lemma loop_step_ok l v t l' v' t' : loop_step (St:=St) D settings root_order l v t l' v' t' → viewer_ok v → loop_ok l →
  viewer_ok v' ∧ loop_ok l' ∧ Forall task_ok t'.
Proof.
  intros Hst Hv Hl. destruct Hst as [| | |w1 id roots w2 outcome listing v Hw Hs| | | | |roots work v v' _ Hb|]; simpl in *;
    split_and!; eauto using restore_ok, state_insert_ok, startup_served, begin_pass_ok.
  - destruct Hv as (Hc & ? & ?). split_and!; [|done..]. apply map_Forall_insert_2; [by eapply startup_served|done].
  - destruct Hv as (? & ? & ?). by split_and!.
  - apply Forall_fmap, Forall_forall. by intros [[? ?] ?] _.
Qed.

Lemma viewer_step_ok p p' : viewer_step (St:=St) D settings root_order cache_order p p' → process_ok p → process_ok p'.
Proof.
  intros Hst (Hv & Hl & Ht & Hq). destruct Hst as [l v t l' v' t' r Hs|v l t1 t t2 r t' v' Hs|v l t r1 q r2 q' v' Hs| | | |id v l t r|];
    unfold process_ok in *; simpl in *.
  - destruct (loop_step_ok _ _ _ _ _ _ Hs Hv Hl) as (? & ? & ?). by split_and!.
  - apply Forall_app in Ht as [? [? ?]%Forall_cons]. destruct (sync_step_ok _ _ _ _ Hs Hv) as [? ?]; [done|].
    split_and!; [done..| |done]. by rewrite !Forall_app.
  - apply Forall_app in Hq as [? [? ?]%Forall_cons]. destruct (request_step_ok _ _ _ _ Hs Hv) as [? ?]; [done|].
    split_and!; [done..|]. by rewrite !Forall_app.
  - split_and!; [done..|]. by constructor.
  - split_and!; [done..|]. by constructor.
  - by split_and!.
  - split_and!; [|done..]. unfold sync_one. by case_match.
  - by split_and!.
Qed.

Lemma viewer_reach_ok p : rtc (viewer_step (St:=St) D settings root_order cache_order) Process_init p → process_ok p.
Proof.
  apply (rtc_ind_r process_ok); [|intros p1 p2 _ Hst; by apply viewer_step_ok].
  split_and!; [by split_and!|done|constructor|constructor].
Qed.

(** ** A task by itself *)

(** The steps of one sync task, undisturbed, are [sync_partition]. *)
Lemma sync_alone id root force local network now v l t1 t2 r : v_stopping v = false →
  some_walk (St:=St) D root local → some_walk (St:=St) D root network →
  rtc (viewer_step (St:=St) D settings root_order cache_order)
    (mkProcess v l (t1 ++ TSync id root force :: t2) r)
    (mkProcess (sync_partition id root force local network now v) l (t1 ++ t2) r).
Proof.
  intros Hs Hl Hn. eapply rtc_l; [by apply step_sync, sync_begin|]. simpl. unfold sync_partition.
  set (v1 := with_syncing _ v). assert (∀ entries, rtc (viewer_step (St:=St) D settings root_order cache_order)
    (mkProcess v1 l (t1 ++ TInstall id root entries :: t2) r)
    (mkProcess (let v := with_code_index None (state_insert id root entries now (cache_insert id (root, entries) v1)) in
       with_syncing (wrap32 (v_syncing v + (2 ^ 32 - 1))) v) l (t1 ++ t2) r)) as Hinstall.
  { intros entries. eapply rtc_l; [apply step_sync, sync_install|]. eapply rtc_l; [apply step_sync, sync_state|].
    eapply rtc_l; [apply step_sync, sync_clear|]. eapply rtc_l; [apply step_sync, sync_end|]. done. }
  destruct (cached_listing v1 id root force) as [entries|] eqn:Ec.
  { eapply rtc_l; [by apply step_sync, sync_cached|]. apply Hinstall. }
  eapply rtc_l; [by apply step_sync, sync_uncached|]. eapply rtc_l; [by apply step_sync, sync_walked; exists local, network|].
  simpl. destruct (walked _ local network) as [entries|err]; [apply Hinstall|].
  eapply rtc_l; [apply step_sync, sync_fail|]. eapply rtc_l; [apply step_sync, sync_end|]. done.
Qed.

(** ** The size of the cache *)

Lemma cache_insert_size id listing v :
  size (v_listing_cache (cache_insert id listing v)) ≤ max MAX_CACHED_PARTITIONS (size (v_listing_cache v)).
Proof.
  unfold cache_insert. simpl. destruct (MAX_CACHED_PARTITIONS <=? size (v_listing_cache v)) eqn:E; simpl.
  - case_bool_decide as Hi; simpl.
    + rewrite map_size_insert_Some by done. lia.
    + rewrite map_size_insert_None, map_size_empty by apply lookup_empty. pose proof MAX_CACHED_pos. lia.
  - apply Nat.leb_gt in E. rewrite map_size_insert. case_match; simpl; lia.
Qed.

Lemma viewer_step_bounded p p' : viewer_step (St:=St) D settings root_order cache_order p p' →
  process_bounded p → process_bounded p'.
Proof.
  intros Hst. unfold process_bounded.
  destruct Hst as [l v t l' v' t' r Hs|v l t1 t t2 r t' v' Hs|v l t r1 q r2 q' v' Hs| | | |id v l t r|]; simpl.
  - destruct Hs as [| |w1 id roots w2|w1 id roots w2 outcome listing v| | | | |roots work v v' _ Hb|]; simpl; intros [Hl Hb'];
      rewrite ?length_app, ?length_fmap, ?length_seq in *; simpl in *; try lia.
    + rewrite map_size_insert. case_match; simpl; lia.
    + by injection Hb as _ <-.
  - destruct Hs as [| | | | |id root entries v| | | |]; try done.
    pose proof (cache_insert_size id (root, entries) v). lia.
  - destruct Hs as [| | | | | |id root entries v| | | | | |cache v|]; try done.
    + pose proof (cache_insert_size id (root, entries) v). lia.
    + unfold store_code_index. by case_decide.
  - done.
  - done.
  - done.
  - unfold sync_one. by case_match.
  - done.
Qed.

Lemma viewer_reach_bounded p : rtc (viewer_step (St:=St) D settings root_order cache_order) Process_init p → process_bounded p.
Proof.
  apply (rtc_ind_r process_bounded); [|intros p1 p2 _ Hst; by apply viewer_step_bounded].
  unfold process_bounded. simpl. rewrite map_size_empty. lia.
Qed.
End inv.
