(* ===== verification/ViewerSpec.v ===== *)
(** What the viewer's readers can rely on. *)

From S2P Require Import Prelude Hash Partition Record BlobStore Hamt HamtNodeFacts HamtFacts HamtSpec HamtWalk Samples Iscc Similarity CidKey Anyhow Index PointerDoc Files Api Config Viewer ViewerFacts ViewerSteps ViewerInv.

Section spec.
Context `{Blake3} `{Sha256} `{Hex} `{!Codec LeafEntry} {St : Type} `{!BlobStore St}.
Context (D : list byte → Prop) `{!CollisionFree D} `{!VerifiedStore St D}.
Context (settings : Settings) (root_order : gmap N Hash → list (N * Hash)).
Context (cache_order : gmap N CachedListing → list (N * CachedListing)).

(** C10: What the viewer shows is what was published.  However the passes of
    the sync loop, its start-up walks, the requests and the fetches of every
    walk interleave, whichever fetches fail and whatever part of the trees
    the viewer's store holds: a cached listing, and a listing a request is
    answered with, is exactly the sorted entries of the tree at its root; a
    row of the overview that is not marked stale has that tree's number of
    entries and newest insertion; a similarity search scans the index of a
    snapshot of such listings.  The cache has at most the capped number of
    listings and those of one start-up. *)
Theorem viewer_serves_trees `{!HexLaws} C p : published D C →
  rtc (viewer_step (St:=St) D settings root_order cache_order) Process_init p →
  let v := pr_viewer p in
  (∀ id root entries es, v_listing_cache v !! id = Some (root, entries) → rep_root C (Some root) es →
     entries = sort_by_key le_key es) ∧
  (∀ root entries es, RReply (Some (root, entries)) ∈ pr_requests p → rep_root C (Some root) es →
     entries = sort_by_key le_key es) ∧
  (∀ id s root es, v_sync_state v !! id = Some s → ps_stale_error s = None → ps_root s = Hash_to_hex root →
     rep_root C (Some root) es →
     ps_records s = N.of_nat (length es) ∧ ps_latest_added_at s = latest_of es) ∧
  (∀ index, RScan index ∈ pr_requests p → ∃ cache, index = build_code_index cache_order cache ∧
     ∀ id root entries es, cache !! id = Some (root, entries) → rep_root C (Some root) es →
       entries = sort_by_key le_key es) ∧
  size (v_listing_cache v) ≤ MAX_CACHED_PARTITIONS + N.to_nat (vw_partitions settings).
Proof.
  intros HC Hst v. destruct (viewer_reach_ok D settings root_order cache_order C HC _ Hst) as ((Hc & Hs & _) & _ & _ & Hq).
  destruct (viewer_reach_bounded D settings root_order cache_order _ Hst) as [_ Hsize].
  rewrite Forall_forall in Hq. split_and!; [..|subst v; lia].
  - intros id root entries es Hl. by apply (Hc _ _ Hl).
  - intros root entries es Hin. by apply (Hq _ Hin).
  - intros id s root es Hl Hstale Hroot Hr. destruct (Hs _ _ Hl Hstale) as (root' & entries & He & Hroot' & -> & ->).
    assert (root' = root) as -> by (apply Hash_to_hex_inj; congruence). rewrite (He _ Hr).
    rewrite sort_by_key_perm at 1. split; [done|]. apply latest_of_perm, sort_by_key_perm.
  - intros index Hin. destruct (Hq _ Hin) as (cache & Hcache & ->). exists cache. split; [done|].
    intros id root entries es Hl. by apply (Hcache _ _ Hl).
Qed.

(** C17: The viewer's similarity search is exact up to its cap.  The scan of
    an index built from the cache never indexes out of bounds; every match
    is an entry of a cached listing within the distance, with its true
    distance; the matches are ordered by distance and at most [limit].
    While no more than 10,000 codes are within the distance, an entry that
    is missing is no nearer than any of the [limit] matches returned.
    Beyond, only the first 10,000 in the cache's order are considered,
    however near the others are. *)
Theorem similar_exact cache code max_distance limit : (∀ m, cache_order m ≡ₚ map_to_list m) →
  let index := build_code_index cache_order cache in
  let near := λ c : N * nat * nat, hamming code c.1.1 ≤ max_distance in
  ∃ ms, similar_matches index code max_distance limit = Some ms ∧
    StronglySorted (λ a b, sm_distance a ≤ sm_distance b) ms ∧ length ms ≤ limit ∧
    (∀ m, m ∈ ms → ∃ id root entries e c, cache !! id = Some (root, entries) ∧ e ∈ entries ∧
       le_content_code e = Some c ∧ hamming code c ≤ max_distance ∧
       m = mkSimilarMatch (le_key e) (hamming code c) id c) ∧
    (length (filter near (ci_codes index)) ≤ MAX_HITS →
     ∀ id root entries e c, cache !! id = Some (root, entries) → e ∈ entries → le_content_code e = Some c →
       hamming code c ≤ max_distance →
       mkSimilarMatch (le_key e) (hamming code c) id c ∈ ms ∨
       length ms = limit ∧ ∀ m, m ∈ ms → sm_distance m ≤ hamming code c) ∧
    (∀ first rest, ci_codes index = first ++ rest → MAX_HITS ≤ length (filter near first) →
     ∀ m, m ∈ ms → ∃ c, c ∈ first ∧ sm_content_code m = c.1.1).
Proof.
  intros Horder index near. pose proof (build_index_ok cache_order cache) as Hix. fold index in Hix.
  destruct (similar_matches_ok index code max_distance limit Hix) as (ms & Hms & Hf). exists ms.
  destruct (similar_sorted _ _ _ _ _ Hix Hms) as [Hsort Hlen]. split_and!; [done..| | |].
  - intros m Hm. destruct (similar_sound _ _ _ _ _ _ Hix Hms Hm) as (id & es & e & c & Hl & He & Hc & Hd & ->).
    apply (listings_cached cache_order Horder) in Hl as [root Hl]. by exists id, root, es, e, c.
  - intros Hcap id root entries e c Hl He Hc Hd.
    eapply similar_complete; [done..|by rewrite all_hits_length| |exact He|done|done]. apply (listings_cached cache_order Horder). by exists root.
  - intros first rest Hsplit Hcap m Hm. destruct (Forall2_elem_r _ _ _ _ Hf Hm) as (h & Hh & id & es & e & _ & _ & ->).
    eapply (subseteq_take limit) in Hh. rewrite sort_hits_perm, Hsplit, all_hits_app in Hh.
    rewrite take_app_le in Hh by (by rewrite all_hits_length). by eapply subseteq_take, all_hits_code in Hh.
Qed.
End spec.

Section pass.
Context `{Hex} (settings : Settings) (root_order : gmap N Hash → list (N * Hash)).

(** C38: A full pass trusts the listing cache.  Of a pass that found no
    request, whether a full one or not, no partition is forced: one whose
    cached listing has the current root is marked synced whatever its local
    and network walks would have found.  Every 120th pass in auto mode does
    select every partition; but only a forced sync walks one whose root has
    not moved, and marks it stale if neither walk completes. *)
Theorem full_pass_trusts_cache roots v work v' : begin_pass settings root_order roots v = (work, v') →
  (∀ m, root_order m ≡ₚ map_to_list m) → v_force_all v = false → v_forced v = ∅ →
  (∀ id root force, (id, root, force) ∈ work → roots !! id = Some root ∧ force = false) ∧
  (vw_sync_mode settings = Auto → (0 < pass (v_stats v))%N → (FULL_PASS_EVERY | pass (v_stats v))%N →
   ∀ id root, roots !! id = Some root → (id, root, false) ∈ work) ∧
  (∀ id root entries now, v_listing_cache v' !! id = Some (root, entries) →
   (∀ local network, ∃ s, v_sync_state (sync_partition id root false local network now v') !! id = Some s ∧
      ps_root s = Hash_to_hex root ∧ ps_records s = N.of_nat (length entries) ∧ ps_stale_error s = None) ∧
   (∀ local network s, wo_complete local = false → wo_complete network = false → v_sync_state v' !! id = Some s →
    ∃ s', v_sync_state (sync_partition id root true local network now v') !! id = Some s' ∧ ps_stale_error s' ≠ None)).
Proof.
  intros [= <- <-] Horder Hall Hforced. unfold select_work. cbn [v_stats with_stats with_forced pass].
  rewrite Hall, Hforced. split_and!.
  - intros id root force ([id' root'] & Hin & Hw)%list_elem_of_omap. rewrite Horder, elem_of_map_to_list in Hin.
    rewrite bool_decide_false in Hw by set_solver. simpl in Hw. by case_match; simplify_eq.
  - intros Hauto Hpos Hdiv id root Hl. apply list_elem_of_omap. exists (id, root).
    rewrite Horder, elem_of_map_to_list. split; [done|]. rewrite Hauto, (bool_decide_false (id ∈ ∅)) by set_solver.
    apply N.mod_divide in Hdiv; [|done]. apply N.ltb_lt in Hpos. simpl. by rewrite Hdiv, Hpos.
  - intros id root entries now Hl. split.
    + intros local network. unfold sync_partition, cached_listing. simpl in *. rewrite Hl, decide_True by done. simpl.
      eexists. split; [apply lookup_insert_eq|done].
    + intros local network s Hloc Hnet Hs. unfold sync_partition, cached_listing, walked. rewrite Hloc, Hnet. simpl in *.
      eexists. rewrite lookup_alter_eq, Hs. split; [done|]. done.
Qed.
End pass.

(** ** On concrete inputs *)

#[local] Existing Instances sample_blake3 sample_sha256 sample_hex sample_leaf_codec sample_leaf_laws.

Definition sample_settings : Settings :=
  mkSettings "viewer" "endpoint" "env" "ticket" 1 1 false Auto 1700000000000000000 None "https://api.commonsdb.org/v1/metadata/".

(** The process after a start-up walk that succeeded, a request for the
    partition and a search. *)
Definition sample_started : Viewer := note_doc_roots {[0%N := sample_root]} (restore_persisted ∅ Viewer_init).
Definition sample_viewer (entries : list LeafEntry) : Viewer :=
  with_code_index None (state_insert 0 sample_root entries 1700000000000000001
    (with_cache (<[0%N := (sample_root, entries)]> (v_listing_cache sample_started)) sample_started)).
Definition sample_process (entries : list LeafEntry) : Process :=
  let index := build_code_index map_to_list (v_listing_cache (sample_viewer entries)) in
  mkProcess (store_code_index index (sample_viewer entries)) LTop []
    [RScan index; RReply (Some (sample_root, entries))].

Lemma sample_process_reached : ∃ entries,
  rtc (viewer_step (St:=MemoryBlobStore) (written sample_after) sample_settings map_to_list map_to_list)
    Process_init (sample_process entries).
Proof.
  destruct sample_rep as (es & Hrep & _ & Hok). destruct (traced_listing _ _ _ _ Hrep Hok) as (out & Hout & Hc). exists (wo_entries out).
  eapply rtc_l; [apply step_loop, (loop_restore _ _ _ ∅)|].
  eapply rtc_l; [apply step_loop, (loop_startup _ _ _ ∅ {[0%N := sample_root]})|].
  change (LStartup _) with (LStartup ([] ++ (0%N, [sample_root]) :: [])).
  eapply rtc_l; [eapply step_loop, (loop_walk_install _ _ _ _ _ _ _ (λ _, out) (sample_root, wo_entries out))|].
  { by intros root ->%list_elem_of_singleton. }
  { simpl. by rewrite Hc. }
  eapply rtc_l; [apply step_loop, (loop_walk_state _ _ _ _ _ _ 1700000000000000001%Z)|].
  eapply rtc_l; [apply step_loop, loop_started|].
  eapply rtc_l; [by apply (step_partition _ _ _ _ _ _ _ _ 0%N)|].
  eapply rtc_l; [apply (step_request _ _ _ _ _ _ _ []), read_cached|]; [done|].
  eapply rtc_l; [apply step_similar|].
  eapply rtc_l; [by apply (step_request _ _ _ _ _ _ _ []), similar_stale|].
  eapply rtc_l; [apply (step_request _ _ _ _ _ _ _ []), similar_snapshot|].
  eapply rtc_l; [apply (step_request _ _ _ _ _ _ _ []), similar_build|]. apply rtc_refl.
Qed.

Lemma viewer_serves_trees_witness : ∃ entries es,
  rtc (viewer_step (St:=MemoryBlobStore) (written sample_after) sample_settings map_to_list map_to_list)
    Process_init (sample_process entries) ∧
  rep_root (contents sample_after) (Some sample_root) es ∧ es ≡ₚ sample_entries ∧ entries = sort_by_key le_key es ∧
  ps_records <$> v_sync_state (sample_viewer entries) !! 0%N = Some (N.of_nat (length es)).
Proof.
  pose proof sample_collision_free as Hcf. pose proof sample_hex_laws as Hhex.
  destruct sample_process_reached as [entries Hst]. destruct sample_rep as (es & Hrep & Hp & [_ Hok]).
  destruct (viewer_serves_trees (St:=MemoryBlobStore) (written sample_after) sample_settings map_to_list map_to_list
    (contents sample_after) (sample_process entries) Hok Hst) as (_ & Hreply & Hrow & _).
  exists entries, es. split_and!; [exact Hst|exact Hrep|exact Hp| |].
  - apply (Hreply sample_root); [|exact Hrep]. right. by left.
  - assert (v_sync_state (sample_viewer entries) !! 0%N = Some (mkPartitionSync (Hash_to_hex sample_root)
      (N.of_nat (length entries)) 1700000000000000001 (latest_of entries) None)) as Hl by apply lookup_insert_eq.
    assert (v_sync_state (pr_viewer (sample_process entries)) = v_sync_state (sample_viewer entries)) as Hsame.
    { unfold sample_process, store_code_index. cbn [pr_viewer]. by case_decide. }
    rewrite <-Hsame in *. destruct (Hrow 0%N _ sample_root es Hl eq_refl eq_refl Hrep) as [Hr _].
    rewrite Hl. cbn [fmap option_fmap option_map]. by rewrite Hr.
Defined.

(** Two partitions with codes at distance 1, 0 and 9. *)
Definition coded (k : string) (c : N) : LeafEntry := mkLeafEntry k ZERO 1 1700000000000000000 (Some c).
Definition sample_cache : gmap N CachedListing :=
  <[0%N := (ZERO, [coded "a" 1; sample_entry "b" "{1}"; coded "c" 511])]> {[3%N := (ZERO, [coded "d" 0])]}.

Lemma similar_exact_witness :
  ∃ ms, similar_matches (build_code_index map_to_list sample_cache) 0 8 50 = Some ms ∧
    ms = [mkSimilarMatch "d" 0 3 0; mkSimilarMatch "a" 1 0 1] ∧
    (∀ m, m ∈ ms → ∃ id root entries e c, sample_cache !! id = Some (root, entries) ∧ e ∈ entries ∧
       le_content_code e = Some c ∧ hamming 0 c ≤ 8 ∧ m = mkSimilarMatch (le_key e) (hamming 0 c) id c).
Proof.
  destruct (similar_exact map_to_list sample_cache 0 8 50) as (ms & Hms & _ & _ & Hsound & _); [done|].
  exists ms. split; [exact Hms|]. split; [|exact Hsound].
  assert (similar_matches (build_code_index map_to_list sample_cache) 0 8 50
    = Some [mkSimilarMatch "d" 0 3 0; mkSimilarMatch "a" 1 0 1]) as Heq by (vm_compute; reflexivity).
  rewrite Heq in Hms. by injection Hms as <-.
Defined.

(** A full pass over a partition whose listing is cached. *)
Definition sample_cached : Viewer :=
  with_stats (mkSyncStats 1 0 120 None None) (state_insert 0 ZERO [coded "a" 1] 5
    (with_cache {[0%N := (ZERO, [coded "a" 1])]} Viewer_init)).
Definition no_walk : WalkOutcome := mkWalkOutcome [] false.

Lemma full_pass_trusts_cache_witness :
  ∃ v', begin_pass sample_settings map_to_list {[0%N := ZERO]} sample_cached = ([(0%N, ZERO, false)], v') ∧
    (0%N, ZERO, false) ∈ [(0%N, ZERO, false)] ∧
    (∃ s, v_sync_state (sync_partition 0 ZERO false no_walk no_walk 6 v') !! 0%N = Some s ∧ ps_stale_error s = None) ∧
    ∃ s, v_sync_state (sync_partition 0 ZERO true no_walk no_walk 6 v') !! 0%N = Some s ∧ ps_stale_error s ≠ None.
Proof.
  set (v' := (begin_pass sample_settings map_to_list {[0%N := ZERO]} sample_cached).2).
  assert (begin_pass sample_settings map_to_list {[0%N := ZERO]} sample_cached = ([(0%N, ZERO, false)], v')) as Hb by reflexivity.
  destruct (full_pass_trusts_cache sample_settings map_to_list _ _ _ _ Hb) as (_ & Hfull & Hcache); [done..|].
  exists v'. split; [exact Hb|]. split_and!.
  - apply Hfull; [done|done|by exists 1%N|done].
  - destruct (Hcache 0%N ZERO [coded "a" 1] 6%Z eq_refl) as [Htrust _].
    destruct (Htrust no_walk no_walk) as (s & Hs & _ & _ & He). by exists s.
  - destruct (Hcache 0%N ZERO [coded "a" 1] 6%Z eq_refl) as [_ Hforce]. by eapply Hforce.
Defined.
