(* ===== verification/Storectl.v ===== *)
(** The read-side commands: [crates/storectl/src/commands.rs].

    A command runs on a [Session]: the node's blob store and documents, the
    lines printed so far, the local files, the lines of standard input to
    come, and whether the node is open.  The node's own background sync,
    which brings in other nodes' documents while a command sleeps, is the
    parameter [background]; the texts of tickets and node identities are
    those of iroh.  A walk's outcome, and whether a timeout strikes, are
    arguments. *)

From stdpp Require Import functions sorting.
From S2P Require Import Prelude Hash Partition Record BlobStore Hamt HamtWalk Iscc Similarity IsccStore CidKey Anyhow Index PointerDoc Files Api Config Viewer Verify.

Inductive Line := Stdout (text : list byte) | Stderr (text : string).

Record Session (St Dc : Type) := mkSession {
  ss_node : St * Dc;
  ss_lines : list Line;
  ss_files : string → option string;
  ss_input : list string;
  ss_open : bool;
}.
Arguments mkSession {St Dc}.
Arguments ss_node {St Dc}.
Arguments ss_lines {St Dc}.
Arguments ss_files {St Dc}.
Arguments ss_input {St Dc}.
Arguments ss_open {St Dc}.

(** [iroh_docs::DocTicket] and [iroh::EndpointId], with their texts. *)
Class Tickets := {
  DocTicket : Type;
  EndpointId : Type;
  EndpointAddr : Type;
  #[global] EndpointId_eq_dec :: EqDecision EndpointId;
  ticket_from_str : string → result string DocTicket;
  ticket_to_string : DocTicket → string;
  ticket_nodes : DocTicket → list EndpointAddr;
  ticket_with_nodes : list EndpointAddr → DocTicket → DocTicket;
  addr_id : EndpointAddr → EndpointId;
  addr_from : EndpointId → EndpointAddr;
  endpoint_id_from_str : string → result string EndpointId;
}.

(** [u64::from_str_radix(.., 16)] *)
Definition byte_hex (b : byte) : option N :=
  if byte_in 48 57 b then Some (to_N b - 48)%N
  else if byte_in 97 102 b then Some (to_N b - 87)%N
  else if byte_in 65 70 b then Some (to_N b - 55)%N
  else None.
Fixpoint parse_hex_loop (acc : N) (l : list byte) : result string N :=
  match l with
  | [] => Ok acc
  | b :: l =>
      match byte_hex b with
      | None => Err "invalid digit found in string"
      | Some d =>
          let acc := (acc * 16 + d)%N in
          if (acc <? 2 ^ 64)%N then parse_hex_loop acc l
          else Err "number too large to fit in target type"
      end
  end.
Definition parse_hex (l : list byte) : result string N :=
  match l with
  | [] => Err "cannot parse integer from empty string"
  | [x2b] | [x2d] => Err "invalid digit found in string"
  | x2b :: l => parse_hex_loop 0 l
  | l => parse_hex_loop 0 l
  end.

(** [str::len] of at least [n] bytes cut to [n]; a cut inside a character
    panics. *)
Definition str_prefix (n : nat) (s : string) : result anyhow string :=
  let cut := take n (str_bytes s) in
  if utf8_valid cut then Ok (str_of_bytes cut) else Err EPanic.

Section storectl.
Context `{Blake3} `{Hex} `{Sha256} `{Base32} `{SerdeJson} `{Texts} `{ViewerTexts} `{Tickets}.
Context `{!Codec LeafEntry, !Codec DirectoryV2, !Codec BucketManifest, !Codec (list IsccMember),
  !Codec (gmap string Hash)}.
Context {St Dc : Type} `{!BlobStore St, !IrohDocs St Dc}.
Context (writable : string → bool).
Context (background : St * Dc → St * Dc).
#[local] Abbreviation Session := (Session St Dc).
#[local] Abbreviation cmd := (io Session anyhow).

(** ** The session *)

Definition with_node_of (n : St * Dc) (s : Session) : Session :=
  mkSession n (ss_lines s) (ss_files s) (ss_input s) (ss_open s).
Definition on_node_of {A} (m : io (St * Dc) anyhow A) : cmd A :=
  λ s, match m (ss_node s) with (r, n) => (r, with_node_of n s) end.
Definition sleep : cmd unit := modify (λ s, with_node_of (background (ss_node s)) s).
Definition line (l : Line) : cmd unit :=
  modify (λ s, mkSession (ss_node s) (ss_lines s ++ [l]) (ss_files s) (ss_input s) (ss_open s)).
Definition println (text : string) : cmd unit := line (Stdout (str_bytes text ++ [x0a])).
Definition eprintln (text : string) : cmd unit := line (Stderr text).
(** [node.shutdown().await.ok()] *)
Definition shutdown : cmd unit :=
  modify (λ s, mkSession (ss_node s) (ss_lines s) (ss_files s) (ss_input s) false).
Definition read_line : cmd string :=
  λ s, match ss_input s with
       | [] => (Ok "", s)
       | l :: ls => (Ok l, mkSession (ss_node s) (ss_lines s) (ss_files s) ls (ss_open s))
       end.
Definition write_out (path : string) (bytes : list byte) : cmd unit :=
  λ s, if writable path
       then (Ok tt, mkSession (ss_node s) (ss_lines s) (<[path := Some (str_of_bytes bytes)]> (ss_files s)) (ss_input s) (ss_open s))
       else (Err (EIo "Permission denied (os error 13)"), s).

(** Spawning the node (its identity text), and importing the ticket's
    document. *)
Context (spawn_node : bool → ResolvedConfig → cmd string) (import_doc : DocTicket → cmd unit).

Definition parse_ticket (raw : string) : result anyhow DocTicket :=
  result_map_err (λ e, EBail ("invalid read ticket: " +:+ e)) (ticket_from_str raw).

(** [short_id] *)
Definition short_id (full : string) : result anyhow string :=
  p ← str_prefix 12 full; Ok (p +:+ "...").

(** [wait_for_partition_root], polling [polls] times more before the
    deadline *)
Fixpoint wait_for_root (polls : nat) (key : string) (late : string) : cmd Hash :=
  root ← on_node_of (get_named_root key);
  match root, polls with
  | Some hash, _ => mret hash
  | None, 0 => io_err (EBail late)
  | None, S polls => _ ← sleep; wait_for_root polls key late
  end.
Definition wait_for_partition_root (polls : nat) (id : N) : cmd Hash :=
  wait_for_root polls (partition_key id)
    ("timed out waiting for the root pointer document to sync partition " +:+ decimal id).

(** The start of every command that reads: the node, and the document
    imported. *)
Definition open_session (ephemeral : bool) (cfg : ResolvedConfig) : cmd unit :=
  ticket ← io_lift (parse_ticket (rc_read_ticket cfg));
  id ← spawn_node ephemeral cfg;
  short ← io_lift (short_id id);
  _ ← eprintln ("storectl: node identity " +:+ short +:+ " ready");
  _ ← eprintln "storectl: syncing root pointer document...";
  import_doc ticket.

(** ** [get] *)

Definition not_indexed (cid : string) (id : N) : string :=
  "key '" +:+ cid +:+ "' is not in partition " +:+ decimal id +:+ "'s current index. If the network is mid-republish, the record may simply not be re-inserted yet — retry later. Otherwise the key was never declared (or is redacted).".

Definition get_bytes (polls : nat) (cfg : ResolvedConfig) (cid : string) : cmd (list byte) :=
  let id := partition_id_for_key cid (rc_top_level_partitions cfg) in
  root ← wait_for_partition_root polls id;
  _ ← eprintln ("storectl: resolved partition " +:+ decimal id +:+ ", walking index...");
  found ← on_node_of (on_fst (io_map_err EHamt (lookup (Some root) cid)));
  entry ← io_lift (ok_or (EBail (not_indexed cid id)) found);
  _ ← eprintln "storectl: fetching content...";
  blob ← on_node_of (on_fst (io_map_err EBlob (get (le_hash entry))));
  io_lift (ok_or (EBail ("content blob for '" +:+ cid +:+ "' could not be fetched from any known peer")) blob).
Definition get_flow (polls : nat) (cfg : ResolvedConfig) (cid : string) (out : option string) : cmd unit :=
  bytes ← get_bytes polls cfg cid;
  match out with
  | Some path =>
      _ ← write_out path bytes;
      eprintln ("storectl: wrote " +:+ decimal (N.of_nat (length bytes)) +:+ " bytes to " +:+ path)
  | None => _ ← line (Stdout bytes); println ""
  end.

(** [get]: the node is closed however the flow ends. *)
Definition get_command (polls : nat) (cfg : ResolvedConfig) (cid : string) (out : option string) (ephemeral : bool) : cmd unit :=
  _ ← open_session ephemeral cfg;
  result ← io_try (get_flow polls cfg cid out);
  _ ← shutdown;
  io_lift result.

(** ** [similar] *)

Definition parse_similarity_query (raw : string) : result anyhow N :=
  let trimmed := trim (str_bytes raw) in
  let bad e := EBail ("invalid hex content code '" +:+ str_of_bytes trimmed +:+ "': " +:+ e) in
  match strip_first [str_bytes "0x"; str_bytes "0X"] trimmed with
  | Some hex => result_map_err bad (parse_hex hex)
  | None =>
      if (length trimmed =? 16) && forallb (λ b, bool_decide (is_Some (byte_hex b))) trimmed then result_map_err bad (parse_hex trimmed)
      else result_map_err (λ e, EBail ("could not decode '" +:+ str_of_bytes trimmed +:+ "' as an ISCC or hex content code: " +:+ iscc_error_text e))
             (decode_content_code (str_of_bytes trimmed))
  end.

Definition match_text (m : SimilarityMatch) : string :=
  decimal (N.of_nat (Similarity.sm_distance m)) +:+ str_of_bytes [x09] +:+ Similarity.sm_key m +:+ str_of_bytes [x09]
  +:+ code_text (Similarity.sm_content_code m).

(** The value of a match, with [--fetch]. *)
Definition fetch_match (polls : nat) (cfg : ResolvedConfig) (m : SimilarityMatch) : cmd unit :=
  let key := Similarity.sm_key m in
  root ← wait_for_partition_root polls (partition_id_for_key key (rc_top_level_partitions cfg));
  found ← on_node_of (on_fst (io_map_err EHamt (lookup (Some root) key)));
  match found with
  | None => eprintln ("storectl: " +:+ key +:+ " matched but is not (or no longer) in the primary index")
  | Some entry =>
      blob ← on_node_of (on_fst (io_map_err EBlob (get (le_hash entry))));
      match blob with
      | Some bytes => _ ← line (Stdout (str_bytes key ++ [x09])); _ ← line (Stdout bytes); println ""
      | None => eprintln ("storectl: content for " +:+ key +:+ " unavailable from known peers")
      end
  end.

(** [similar]; an error after the node was opened leaves it open. *)
Definition similar_command (env : Env) (polls : nat) (cfg : ResolvedConfig) (query : string)
    (radius probe : option N) (fetch : bool) : cmd unit :=
  iscc_cfg ← io_lift (result_map_err (λ e, EBail (ConfigError_to_string e)) (IsccConfig_from_env env));
  let radius := default (search_max_radius iscc_cfg) radius in
  if (search_max_radius iscc_cfg <? radius)%N
  then io_err (EBail ("requested radius " +:+ decimal radius +:+ " exceeds ISCC_SEARCH_MAX_RADIUS ("
                      +:+ decimal (search_max_radius iscc_cfg) +:+ ")"))
  else
    let probe := default (band_probe_radius iscc_cfg) probe in
    bands ← io_lift (result_map_err (λ _, EBail ("ISCC_INDEX_BANDS (" +:+ decimal (index_bands iscc_cfg) +:+ ") must be between 1 and 64 and divide 64 evenly")) (BandParams_new (N.to_nat (index_bands iscc_cfg))));
    query_code ← io_lift (parse_similarity_query query);
    _ ← open_session true cfg;
    iscc_root ← wait_for_root polls ISCC_INDEX_ROOT_KEY
      "timed out waiting for the ISCC similarity index root to sync — the deployment may not have similarity indexing enabled yet";
    _ ← eprintln ("storectl: querying ISCC index (code " +:+ code_text query_code +:+ ", radius " +:+ decimal radius
                  +:+ ", probe " +:+ decimal probe +:+ ", " +:+ decimal (N.of_nat (num_bands bands)) +:+ " bands)...");
    matches ← on_node_of (on_fst (io_map_err EIscc
      (iscc_query (Some iscc_root) bands query_code (N.to_nat radius) (N.to_nat probe))));
    match matches with
    | [] => _ ← eprintln ("storectl: no records within Hamming distance " +:+ decimal radius); shutdown
    | _ =>
      _ ← eprintln ("storectl: " +:+ decimal (N.of_nat (length matches)) +:+ " match(es):");
      _ ← io_fold (λ _ m, println (match_text m)) tt matches;
      _ ← (if fetch then io_fold (λ _ m, fetch_match polls cfg m) tt matches else mret tt);
      shutdown
    end.

(** ** [list] *)

Record ListOptions := mkListOptions {
  lo_partition : option N;
  lo_page_size : nat;
  lo_free_limit : nat;
  lo_max : option nat;
  lo_no_page : bool;
  lo_values : bool;
  lo_summary : bool;
  lo_ephemeral : bool;
  lo_walk_timeout_secs : N;
  lo_settle_ms : N;
}.

(** What a walk of a partition's root comes to, whether the fetch of a value
    is late, and the texts [{:.1}] of a percentage and [{:.0}] of a mean. *)
Context (walk : N → Hash → WalkOutcome) (value_late : LeafEntry → bool).
Context (percent_text average_text : N → N → string).
Context (options : ListOptions).

(** The local variables of the listing. *)
Record Listing := mkListing {
  printed : nat;
  since_prompt : nat;
  page_number : nat;
  with_code : nat;
  listed_partitions : nat;
  empty_partitions : nat;
  unreadable : list N;
  partial_partitions : list N;
  per_partition : list (N * nat);
}.
Definition Listing_init : Listing := mkListing 0 0 1 0 0 0 [] [] [].

Definition show (n : nat) : string := decimal (N.of_nat n).
Definition tab : string := str_of_bytes [x09].

(** [v.get("iscc").or_else(|| v.get("ISCC")).and_then(as_str)] *)
Definition json_get (key : string) (v : JsonValue) : option JsonValue :=
  match v with JObject fields => snd ∘ snd <$> list_find (λ kv, kv.1 = key) fields | _ => None end.
Definition full_iscc (bytes : list byte) : string :=
  default "-" (v ← result_ok (json_from_str (str_of_bytes bytes));
               field ← match json_get "iscc" v with Some f => Some f | None => json_get "ISCC" v end;
               match field with JString s => Some s | _ => None end).
Definition value_text (entry : LeafEntry) : cmd string :=
  if value_late entry then io_err (EBail "value fetch timed out")
  else
    found ← on_node_of (on_fst (io_map_err EBlob (get (le_hash entry))));
    mret (match found with Some bytes => full_iscc bytes | None => "<value unavailable>" end).

Definition row_text (id : N) (entry : LeafEntry) : string :=
  decimal id +:+ tab +:+ le_key entry +:+ tab +:+ from_option code_text "-" (le_content_code entry).
Definition print_row (id : N) (entry : LeafEntry) : cmd unit :=
  if lo_summary options then mret tt
  else if lo_values options then iscc ← value_text entry; println (row_text id entry +:+ tab +:+ iscc)
  else println (row_text id entry).

(** One entry; the flag says that the listing stops. *)
Definition count_entry (entry : LeafEntry) (l : Listing) : Listing :=
  mkListing (S (printed l)) (since_prompt l) (page_number l)
    (with_code l + match le_content_code entry with Some _ => 1 | None => 0 end)
    (listed_partitions l) (empty_partitions l) (unreadable l) (partial_partitions l) (per_partition l).
Definition with_page (since page : nat) (l : Listing) : Listing :=
  mkListing (printed l) since page (with_code l)
    (listed_partitions l) (empty_partitions l) (unreadable l) (partial_partitions l) (per_partition l).
Definition after_row (id : N) (l : Listing) : cmd (Listing * bool) :=
  if from_option (λ m, m <=? printed l) false (lo_max options)
  then _ ← eprintln ("storectl: stopped at --max " +:+ from_option show "" (lo_max options)); mret (l, true)
  else if negb (lo_summary options) && negb (lo_no_page options) && (lo_free_limit options <=? printed l)
  then
    if lo_page_size options <=? S (since_prompt l)
    then
      let l := with_page 0 (S (page_number l)) l in
      _ ← eprintln ("storectl: -- page " +:+ show (page_number l) +:+ " · " +:+ show (printed l) +:+ " shown · partition "
                    +:+ decimal id +:+ " -- Enter for next " +:+ show (lo_page_size options) +:+ ", q to quit -- ");
      answer ← read_line;
      mret (l, eq_ignore_ascii_case (str_of_bytes (trim (str_bytes answer))) "q")
    else mret (with_page (S (since_prompt l)) (page_number l) l, false)
  else mret (l, false).
Definition list_entry (id : N) (l : Listing) (entry : LeafEntry) : cmd (Listing * bool) :=
  let l := count_entry entry l in
  _ ← print_row id entry;
  after_row id l.
Fixpoint list_entries (id : N) (l : Listing) (entries : list LeafEntry) : cmd (Listing * bool) :=
  match entries with
  | [] => mret (l, false)
  | entry :: entries =>
      r ← list_entry id l entry;
      if r.2 : bool then mret r else list_entries id r.1 entries
  end.

Definition note_empty (l : Listing) : Listing :=
  mkListing (printed l) (since_prompt l) (page_number l) (with_code l) (listed_partitions l) (S (empty_partitions l))
    (unreadable l) (partial_partitions l) (per_partition l).
Definition note_unreadable (id : N) (l : Listing) : Listing :=
  mkListing (printed l) (since_prompt l) (page_number l) (with_code l) (listed_partitions l) (empty_partitions l)
    (unreadable l ++ [id]) (partial_partitions l) (per_partition l).
Definition note_read (id : N) (n : nat) (complete : bool) (l : Listing) : Listing :=
  mkListing (printed l) (since_prompt l) (page_number l) (with_code l) (S (listed_partitions l)) (empty_partitions l)
    (unreadable l) (if complete then partial_partitions l else partial_partitions l ++ [id]) (per_partition l ++ [(id, n)]).

(** One partition. *)
Definition list_partition (l : Listing) (id : N) : cmd (Listing * bool) :=
  found ← on_node_of (get_partition_root id);
  match found with
  | None =>
      _ ← (if lo_partition options
           then eprintln ("storectl: partition " +:+ decimal id +:+ " has no published records yet") else mret tt);
      mret (note_empty l, false)
  | Some root =>
      let outcome := walk id root in
      let entries := wo_entries outcome in
      let secs := decimal (lo_walk_timeout_secs options) in
      if bool_decide (entries = []) && negb (wo_complete outcome)
      then
        _ ← eprintln ("storectl: partition " +:+ decimal id +:+ " yielded nothing within " +:+ secs
          +:+ "s (no peer served its index blobs) — skipping; raise --walk-timeout to wait longer");
        mret (note_unreadable id l, false)
      else
        _ ← (if wo_complete outcome then mret tt
             else eprintln ("storectl: partition " +:+ decimal id +:+ " PARTIAL — " +:+ show (length entries)
               +:+ " records fetched before the " +:+ secs
               +:+ "s deadline; re-run with a higher --walk-timeout (or after the republish settles) for the rest"));
        _ ← (if lo_summary options && (id mod 16 =? 0)%N
             then eprintln ("storectl: ...partition " +:+ decimal id +:+ ": " +:+ show (printed l) +:+ " records so far, "
                            +:+ show (S (listed_partitions l)) +:+ " partitions read")
             else mret tt);
        list_entries id (note_read id (length entries) (wo_complete outcome) l) entries
  end.
Fixpoint list_partitions (l : Listing) (ids : list N) : cmd Listing :=
  match ids with
  | [] => mret l
  | id :: ids =>
      r ← list_partition l id;
      if r.2 : bool then mret r.1 else list_partitions r.1 ids
  end.

(** The wait for the pointer document: rounds of 15 s, at most 60 s. *)
Fixpoint settle (rounds polls : nat) (waited first : N) : cmd unit :=
  match rounds with
  | 0 => mret tt
  | S rounds =>
      r ← io_try (E:=anyhow) (wait_for_partition_root polls first);
      match r with
      | Ok _ => mret tt
      | Err err =>
          let waited := (waited + 15)%N in
          if (60 <=? waited)%N then eprintln ("storectl: " +:+ anyhow_text err +:+ "; listing whatever has synced so far")
          else
            _ ← eprintln ("storectl: pointer document still syncing (" +:+ decimal waited +:+ "s)...");
            settle rounds polls waited first
      end
  end.
Definition settled (polls : nat) (ids : list N) : cmd unit :=
  _ ← from_option (settle 4 polls 0) (mret tt) (hd_error ids);
  if negb (lo_ephemeral options) && (0 <? lo_settle_ms options)%N
  then
    _ ← eprintln ("storectl: letting the pointer document settle (" +:+ decimal (lo_settle_ms options) +:+ " ms)...");
    sleep
  else mret tt.

(** The summary probe of a partition: the numbers of records and of codes,
    and whether the walk was complete. *)
Definition Probe : Type := result string (option (nat * nat * bool)).
Definition probe_partition (id : N) : cmd (N * Probe) :=
  root ← io_try (E:=anyhow) (on_node_of (get_partition_root id));
  match root with
  | Err err => mret (id, Err (anyhow_text err))
  | Ok None => mret (id, Ok None)
  | Ok (Some root) =>
      let outcome := walk id root in
      mret (id,
        if bool_decide (wo_entries outcome = []) && negb (wo_complete outcome)
        then Err ("timed out after " +:+ decimal (lo_walk_timeout_secs options) +:+ "s")
        else Ok (Some (length (wo_entries outcome),
               length (filter (λ e, is_Some (le_content_code e)) (wo_entries outcome)), wo_complete outcome)))
  end.

Definition probe_le (a b : N * Probe) : Prop := (a.1 <= b.1)%N.
#[local] Instance probe_le_dec a b : Decision (probe_le a b).
Proof. unfold probe_le. apply _. Defined.

Record Summary := mkSummary {
  su_total : nat;
  su_total_code : nat;
  su_readable : nat;
  su_empty : nat;
  su_unreadable : list N;
  su_partial : list N;
}.
Definition Summary_init : Summary := mkSummary 0 0 0 0 [] [].
Definition summary_line (result : N * Probe) : option string :=
  match result.2 with
  | Ok (Some (records, _, complete)) =>
      Some (decimal result.1 +:+ tab +:+ show records +:+ (if complete : bool then "" else "+ (partial)"))
  | _ => None
  end.
Definition summary_add (s : Summary) (result : N * Probe) : Summary :=
  match result.2 with
  | Ok (Some (records, code, complete)) =>
      mkSummary (su_total s + records) (su_total_code s + code) (S (su_readable s)) (su_empty s) (su_unreadable s)
        (if complete : bool then su_partial s else su_partial s ++ [result.1])
  | Ok None => mkSummary (su_total s) (su_total_code s) (su_readable s) (S (su_empty s)) (su_unreadable s) (su_partial s)
  | Err _ => mkSummary (su_total s) (su_total_code s) (su_readable s) (su_empty s) (su_unreadable s ++ [result.1]) (su_partial s)
  end.

(** [{:?}] of a list of numbers *)
Definition list_debug (l : list N) : string :=
  "[" +:+ match l with
          | [] => ""
          | n :: l => decimal n +:+ foldr (λ m t, ", " +:+ decimal m +:+ t)%stdpp "" l
          end +:+ "]".
Definition first_16 (l : list N) : string :=
  show (length l) +:+ " " +:+ list_debug (take 16 l) +:+ (if 16 <? length l then " …" else "").
Definition with_percent (code total : nat) : string :=
  show code +:+ " (" +:+ (if 0 <? total then percent_text (N.of_nat code) (N.of_nat total) else "0.0") +:+ "%)".

(** The lines after the rows. *)
Definition summary_report (cfg : ResolvedConfig) (probed : nat) (s : Summary) : list string :=
  ["storectl: ---- summary ----";
   "storectl: records visible:           " +:+ show (su_total s) +:+ " (sum over the " +:+ show (su_readable s) +:+ "/"
     +:+ show probed +:+ " partitions read — NOT the corpus size when partitions are unreadable; compare the corpus estimate between runs)";
   "storectl: with ISCC content code:    " +:+ with_percent (su_total_code s) (su_total s);
   "storectl: partitions with records:   " +:+ show (su_readable s) +:+ " (of " +:+ show probed +:+ ")";
   "storectl: partitions empty/unsynced: " +:+ show (su_empty s)]
  ++ (if decide (su_partial s = []) then []
      else ["storectl: partitions partial:        " +:+ first_16 (su_partial s)
              +:+ " — counts above are lower bounds; raise --walk-timeout or re-run after the republish settles"])
  ++ (if decide (su_unreadable s = []) then []
      else ["storectl: partitions unreadable:     " +:+ first_16 (su_unreadable s)])
  ++ (if su_readable s =? 0 then []
      else ["storectl: records/partition (avg):   " +:+ show (su_total s / su_readable s) +:+ " — corpus estimate ≈ "
              +:+ decimal (wrap64 (N.of_nat (su_total s / su_readable s) * rc_top_level_partitions cfg))]).

Definition println_all (texts : list string) : cmd unit := io_fold (λ _ t, println t) tt texts.

(** The probes run concurrently; their results are sorted. *)
Definition list_summary (cfg : ResolvedConfig) (ids : list N) : cmd unit :=
  results ← io_mapM probe_partition ids;
  let results := merge_sort probe_le results in
  _ ← println ("partition" +:+ tab +:+ "records");
  _ ← println_all (omap summary_line results);
  _ ← println_all (summary_report cfg (length results) (foldl summary_add Summary_init results));
  shutdown.

(** The lines after the rows of a listing. *)
Definition max_by_count (l : list (N * nat)) : option (N * nat) :=
  foldl (λ m x, match m with Some y => if x.2 <? y.2 then Some y else Some x | None => Some x end) None l.
Definition min_by_count (l : list (N * nat)) : option (N * nat) :=
  foldl (λ m x, match m with Some y => if x.2 <? y.2 then Some x else Some y | None => Some x end) None l.
Definition walked_total (l : Listing) : nat := sum_list (per_partition l).*2.
Definition total_pages (l : Listing) : nat :=
  let size := max 1 (lo_page_size options) in (printed l + (size - 1)) / size.
Definition list_report (l : Listing) : list string :=
  ["storectl: ---- summary ----";
   "storectl: records listed:            " +:+ show (printed l);
   "storectl: with ISCC content code:    " +:+ with_percent (with_code l) (printed l);
   "storectl: partitions with records:   " +:+ show (listed_partitions l) +:+ " (of "
     +:+ show (listed_partitions l + empty_partitions l + length (unreadable l)) +:+ " requested)";
   "storectl: partitions empty/unsynced: " +:+ show (empty_partitions l)]
  ++ (if decide (partial_partitions l = []) then []
      else ["storectl: partitions partial:        " +:+ show (length (partial_partitions l)) +:+ " " +:+ list_debug (partial_partitions l)
              +:+ " — listed rows are a lower bound; raise --walk-timeout or re-run after the republish settles"])
  ++ (if decide (unreadable l = []) then []
      else ["storectl: partitions unreadable:     " +:+ show (length (unreadable l)) +:+ " " +:+ list_debug (unreadable l)
              +:+ " (republish in progress — re-run later)"])
  ++ (if printed l <? walked_total l
      then ["storectl: records in walked parts:  " +:+ show (walked_total l) +:+ " (listing stopped early at " +:+ show (printed l) +:+ ")"]
      else [])
  ++ (match max_by_count (per_partition l) with
      | Some (max_p, max_n) =>
          let min := default (0%N, 0) (min_by_count (per_partition l)) in
          ["storectl: records/partition:         avg "
             +:+ average_text (N.of_nat (walked_total l)) (N.of_nat (max 1 (length (per_partition l))))
             +:+ ", max " +:+ show max_n +:+ " (partition " +:+ decimal max_p +:+ "), min " +:+ show min.2
             +:+ " (partition " +:+ decimal min.1 +:+ ")"]
      | None => []
      end)
  ++ ["storectl: pages at --page-size " +:+ show (lo_page_size options) +:+ ": " +:+ show (total_pages l)].

(** [list] *)
Definition list_command (polls : nat) (cfg : ResolvedConfig) : cmd unit :=
  _ ← open_session (lo_ephemeral options) cfg;
  let ids := match lo_partition options with
             | Some id => [id]
             | None => N.of_nat <$> seq 0 (N.to_nat (rc_top_level_partitions cfg))
             end in
  _ ← settled polls ids;
  if lo_summary options && bool_decide (lo_partition options = None) then list_summary cfg ids
  else
    _ ← (if lo_summary options then eprintln "storectl: counting records per partition..."
         else if lo_values options then println ("partition" +:+ tab +:+ "key" +:+ tab +:+ "content_code" +:+ tab +:+ "iscc")
         else println ("partition" +:+ tab +:+ "key" +:+ tab +:+ "content_code"));
    l ← list_partitions Listing_init ids;
    _ ← (if lo_summary options
         then
           _ ← println ("partition" +:+ tab +:+ "records");
           println_all ((λ ic, decimal ic.1 +:+ tab +:+ show ic.2) <$> per_partition l)
         else mret tt);
    _ ← println_all (list_report l);
    shutdown.

(** ** [seed] *)

(** [warm_partition]: every value of the tree is asked for, one after the
    other here; an error of a fetch is logged only. *)
Definition warm_partition (root : Hash) : io St anyhow nat :=
  entries ← walk_all root;
  _ ← io_mapM (λ e, io_try (F:=anyhow) (get (le_hash e))) entries;
  mret (length entries).

(** The shards of the command line: [None] for all. *)
Definition selected_shards (shards : list string) : result anyhow (option (list N)) :=
  if existsb (λ s, eq_ignore_ascii_case s "all") shards || bool_decide (shards = []) then Ok None
  else
    ids ← mapM (λ s, result_map_err (λ _, EBail ("invalid shard id '" +:+ s +:+ "'")) (parse_uint 32 s)) shards;
    Ok (Some ids).

(** One partition of a pass: [cut] is what is left of the node's store when
    the warm-up runs into its timeout. *)
Definition seed_partition (full_pass : bool) (cut : N → option (St → St)) (last_roots : gmap N Hash) (id : N)
    : io (St * Dc) anyhow (gmap N Hash) :=
  root ← io_try (E:=anyhow) (get_partition_root id);
  match root with
  | Ok (Some root) =>
      if negb full_pass && bool_decide (last_roots !! id = Some root) then mret last_roots
      else match cut id with
           | Some f => _ ← modify (λ n, (f n.1, n.2)); mret last_roots
           | None =>
               warmed ← io_try (E:=anyhow) (on_fst (warm_partition root));
               mret (match warmed with Ok _ => <[id := root]> last_roots | Err _ => last_roots end)
           end
  | _ => mret last_roots
  end.
Definition full_seed_pass (pass : N) : bool := (pass mod 120 =? 0)%N.
Definition seed_pass (pass : N) (cut : N → option (St → St)) (ids : list N) (last_roots : gmap N Hash)
    : io (St * Dc) anyhow (gmap N Hash) :=
  io_fold (seed_partition (full_seed_pass pass) cut) last_roots ids.

(** The loop, for a number of passes; between two of them the node syncs. *)
Fixpoint seed_passes (n : nat) (pass : N) (cuts : N → N → option (St → St)) (ids : list N) (last_roots : gmap N Hash)
    : io (St * Dc) anyhow (gmap N Hash) :=
  match n with
  | 0 => mret last_roots
  | S n =>
      last_roots ← seed_pass pass (cuts pass) ids last_roots;
      _ ← modify background;
      seed_passes n (wrap64 (pass + 1)) cuts ids last_roots
  end.

(** [seed], stopped after [n] passes *)
Definition seed_command (n : nat) (cfg : ResolvedConfig) (shards : list string) (cuts : N → N → option (St → St)) : cmd unit :=
  ticket ← io_lift (parse_ticket (rc_read_ticket cfg));
  id ← spawn_node false cfg;
  short ← io_lift (short_id id);
  _ ← eprintln ("storectl: node identity " +:+ short +:+ " ready");
  _ ← import_doc ticket;
  selected ← io_lift (selected_shards shards);
  _ ← eprintln (match selected with
                | None => "storectl: seeding all " +:+ decimal (rc_top_level_partitions cfg) +:+ " shards (ctrl-c to stop)"
                | Some ids => "storectl: seeding shards " +:+ list_debug ids +:+ " (ctrl-c to stop)"
                end);
  let ids := default (N.of_nat <$> seq 0 (N.to_nat (rc_top_level_partitions cfg))) selected in
  _ ← on_node_of (seed_passes n 0 cuts ids ∅);
  mret tt.

(** ** The local commands *)

(** [print_config] *)
Definition print_config (cfg : ResolvedConfig) : cmd unit :=
  _ ← println ("read_ticket_source: " +:+ rc_read_ticket_source cfg);
  shown ← io_lift (str_prefix 24 (rc_read_ticket cfg));
  _ ← println ("read_ticket: " +:+ shown +:+ "..." +:+ (if 24 <? length (str_bytes (rc_read_ticket cfg)) then " (truncated)" else ""));
  _ ← println ("storage_dir: " +:+ rc_storage_dir cfg +:+ " (source: " +:+ rc_storage_dir_source cfg +:+ ")");
  println ("top_level_partitions: " +:+ decimal (rc_top_level_partitions cfg)).

(** [compose_ticket] *)
Definition add_provider (existing : list EndpointId) (nodes : list EndpointAddr) (raw : string)
    : result anyhow (list EndpointAddr) :=
  id ← result_map_err (λ e, EBail ("'" +:+ raw +:+ "' is not a valid EndpointId: " +:+ e))
         (endpoint_id_from_str (trim_str raw));
  Ok (if decide (id ∈ existing) then nodes else nodes ++ [addr_from id]).
Fixpoint add_providers (existing : list EndpointId) (nodes : list EndpointAddr) (add : list string)
    : result anyhow (list EndpointAddr) :=
  match add with
  | [] => Ok nodes
  | raw :: add => nodes ← add_provider existing nodes raw; add_providers existing nodes add
  end.
Definition composed_nodes (ticket : DocTicket) (add : list string) (strip : bool) : result anyhow (list EndpointAddr) :=
  let nodes := if strip then [] else ticket_nodes ticket in
  nodes ← add_providers (addr_id <$> nodes) nodes add;
  if decide (length nodes = 0) then Err (EBail "refusing to print a ticket with no provider nodes") else Ok nodes.
Definition compose_ticket (cfg : ResolvedConfig) (add : list string) (strip : bool) : cmd unit :=
  ticket ← io_lift (parse_ticket (rc_read_ticket cfg));
  nodes ← io_lift (composed_nodes ticket add strip);
  _ ← eprintln ("storectl: ticket now lists " +:+ show (length nodes) +:+ " provider(s)");
  println (ticket_to_string (ticket_with_nodes nodes ticket)).

(** [dir_size]: what is at a path, with the errors of [read_dir], of its
    iterator and of [metadata]. *)
Inductive Entry :=
| Absent
| Broken (err : string)
| File (len : N)
| Dir (entries : list Entry).
Fixpoint entry_size (entry : Entry) : result string N :=
  match entry with
  | Absent => Ok 0%N
  | Broken err => Err err
  | File len => Ok len
  | Dir entries =>
      (fix sum (total : N) (entries : list Entry) : result string N :=
         match entries with
         | [] => Ok total
         | e :: entries => n ← entry_size e; sum (wrap64 (total + n)) entries
         end) 0%N entries
  end.
Definition dir_size (entry : Entry) : result string N :=
  match entry with File _ => Err "Not a directory (os error 20)" | _ => entry_size entry end.

(** [status], with what is at the path of the blob store *)
Definition status_command (cfg : ResolvedConfig) (blobs : Entry) : cmd unit :=
  ticket ← io_lift (parse_ticket (rc_read_ticket cfg));
  id ← spawn_node false cfg;
  _ ← import_doc ticket;
  _ ← sleep;
  _ ← println ("endpoint_id: " +:+ id);
  _ ← println ("storage_dir: " +:+ rc_storage_dir cfg);
  _ ← println ("cache_size_bytes: " +:+ decimal (default 0%N (result_ok (dir_size blobs))));
  shutdown.

(** [watch], with the texts of the events that arrive before the stream
    ends *)
Definition event_line (event : result string string) : string :=
  match event with
  | Ok e => e
  | Err err => "storectl: watch stream error: " +:+ err
  end.
Definition watch_command (cfg : ResolvedConfig) (events : list (result string string)) : cmd unit :=
  ticket ← io_lift (parse_ticket (rc_read_ticket cfg));
  id ← spawn_node true cfg;
  short ← io_lift (short_id id);
  _ ← eprintln ("storectl: node identity " +:+ short +:+ " ready");
  _ ← eprintln "storectl: watching root pointer document for updates (ctrl-c to stop)...";
  _ ← import_doc ticket;
  _ ← println_all (event_line <$> events);
  shutdown.
End storectl.
