(* ===== verification/StorectlFacts.v ===== *)
(** Facts of the read-side commands: the printed codes, the rows of a
    listing, what counts as seeded, the composed ticket. *)

From stdpp Require Import functions.
From S2P Require Import Prelude Hash Partition Record BlobStore Hamt HamtNodeFacts HamtFacts HamtWalk Iscc Similarity SimilarityFacts IsccStore CidKey Anyhow Index PointerDoc Files Api Config Viewer ViewerFacts Verify Storectl.

(** What was written to standard output. *)
Definition stdout {St Dc} (s : Session St Dc) : list (list byte) :=
  omap (λ l, match l with Stdout t => Some t | Stderr _ => None end) (ss_lines s).

(** ** The code of a printed line *)

Lemma byte_hex_digit d : (d < 16)%N → byte_hex (hex_digit d) = Some d.
Proof.
  intros Hd. unfold byte_hex, hex_digit, byte_in.
  destruct (N.ltb_spec d 10); rewrite !to_byte_of_N, !N.mod_small by lia.
  - rewrite (proj2 (N.leb_le 48 _)), (proj2 (N.leb_le _ 57)) by lia. simpl. f_equal. lia.
  - rewrite (proj2 (N.leb_gt _ 57)), andb_false_r by lia.
    rewrite (proj2 (N.leb_le 97 _)), (proj2 (N.leb_le _ 102)) by lia. simpl. f_equal. lia.
Qed.

Lemma parse_hex_loop_digits acc ds : Forall (λ d, (d < 16)%N) ds → (foldl (λ a d, a * 16 + d) acc ds < 2 ^ 64)%N →
  parse_hex_loop acc (hex_digit <$> ds) = Ok (foldl (λ a d, a * 16 + d)%N acc ds).
Proof.
  intros Hds. revert acc. induction Hds as [|d ds Hd _ IH]; intros acc Hlt; [done|].
  rewrite fmap_cons. cbn [parse_hex_loop foldl] in *. rewrite byte_hex_digit by done.
  assert (∀ ds a, (a ≤ foldl (λ a d, a * 16 + d) a ds)%N) as Hmono.
  { clear. induction ds as [|d ds IH]; intros a; simpl; [done|]. etrans; [|apply IH]. lia. }
  specialize (Hmono ds (acc * 16 + d)%N). rewrite (proj2 (N.ltb_lt _ _)) by lia. by apply IH.
Qed.

(** The digits of a code, from the highest. *)
Definition nibble (c : N) (i : nat) : N := N.land (N.shiftr c (4 * (15 - N.of_nat i))) 15.

Lemma nibble_lt c i : (nibble c i < 16)%N.
Proof. unfold nibble. change 15%N with (N.ones 4) at 2. rewrite N.land_ones. by apply N.mod_upper_bound. Qed.

Lemma nibbles_fold c k : (c < 2 ^ 64)%N → k ≤ 16 →
  foldl (λ a d, a * 16 + d)%N 0%N (nibble c <$> seq 0 k) = N.shiftr c (4 * (16 - N.of_nat k)).
Proof.
  intros Hc. induction k as [|k IH]; intros Hk.
  { simpl. rewrite N.shiftr_div_pow2, N.div_small; done. }
  rewrite seq_S, fmap_app, foldl_app, IH by lia. simpl. unfold nibble.
  replace (4 * (16 - N.of_nat k))%N with (4 * (15 - N.of_nat k) + 4)%N by lia. rewrite <-N.shiftr_shiftr.
  replace (16 - N.of_nat (S k))%N with (15 - N.of_nat k)%N by lia.
  change 15%N with (N.ones 4) at 3. rewrite N.land_ones, (N.shiftr_div_pow2 _ 4). set (x := N.shiftr c _).
  change (2 ^ 4)%N with 16%N. pose proof (N.div_mod x 16). lia.
Qed.

Lemma parse_hex_hex16 c : (c < 2 ^ 64)%N → parse_hex (hex16 c) = Ok c.
Proof.
  intros Hc. assert (hex16 c = hex_digit <$> (nibble c <$> seq 0 16)) as ->.
  { unfold hex16. by rewrite <-list_fmap_compose. }
  assert (parse_hex_loop 0 (hex_digit <$> (nibble c <$> seq 0 16)) = Ok c) as Hloop.
  { rewrite parse_hex_loop_digits.
    - by rewrite nibbles_fold.
    - apply Forall_fmap, Forall_true. apply nibble_lt.
    - rewrite nibbles_fold by done. simpl. by rewrite N.shiftr_0_r. }
  rewrite <-Hloop. cbn [seq fmap list_fmap]. unfold parse_hex.
  assert (hex_digit (nibble c 0) ≠ x2b) as Hne.
  { intros Heq. pose proof (byte_hex_digit _ (nibble_lt c 0)) as Hb. by rewrite Heq in Hb. }
  by destruct (hex_digit (nibble c 0)).
Qed.

Lemma hex16_solid c : Forall (λ b, solid b = true) (hex16 c).
Proof.
  unfold hex16. apply Forall_fmap, Forall_true. intros i. simpl. pose proof (nibble_lt c i) as Hn. unfold nibble in Hn.
  revert Hn. generalize (N.land (N.shiftr c (4 * (15 - N.of_nat i))) 15). intros d Hd.
  assert (d ∈ [0;1;2;3;4;5;6;7;8;9;10;11;12;13;14;15]%N) as Hin by (apply list_elem_of_In; simpl; lia).
  repeat (apply elem_of_cons in Hin as [->|Hin]; [reflexivity|]). by apply elem_of_nil in Hin.
Qed.

Lemma hex16_digits c : Forall (λ b, is_Some (byte_hex b)) (hex16 c).
Proof.
  unfold hex16. apply Forall_fmap, Forall_true. intros i. simpl. pose proof (nibble_lt c i) as Hn. unfold nibble in Hn.
  rewrite byte_hex_digit by done. done.
Qed.

(** What [similar], [list] and the viewer print as a code is a query for it,
    with or without its prefix. *)
Lemma printed_code_parses `{Base32} `{ViewerTexts} c : (c < 2 ^ 64)%N →
  parse_similarity_query (code_text c) = Ok c ∧ parse_similarity_query (str_of_bytes (hex16 c)) = Ok c.
Proof.
  intros Hc. unfold parse_similarity_query, code_text. rewrite str_bytes_app, !str_bytes_of_bytes. split.
  - rewrite trim_solid; [|done|].
    + assert (∀ l, strip_first [str_bytes "0x"; str_bytes "0X"] (str_bytes "0x" ++ l) = Some l) as -> by reflexivity.
      by rewrite parse_hex_hex16.
    + apply Forall_app. split; [by repeat constructor|apply hex16_solid].
  - rewrite trim_solid; [|done|apply hex16_solid].
    assert (strip_first [str_bytes "0x"; str_bytes "0X"] (hex16 c) = None) as ->.
    { pose proof (hex16_digits c) as Hd. unfold hex16 in *. cbn [seq fmap list_fmap] in *.
      apply Forall_cons in Hd as [_ [Hd _]%Forall_cons]. revert Hd.
      generalize (hex_digit (N.land (N.shiftr c (4 * (15 - N.of_nat 0))) 15)), (hex_digit (N.land (N.shiftr c (4 * (15 - N.of_nat 1))) 15)).
      intros a b Hb. simpl. repeat case_decide; subst; try done; by destruct Hb. }
    assert (forallb (λ b, bool_decide (is_Some (byte_hex b))) (hex16 c) = true) as ->.
    { apply forallb_forall. intros b Hb%list_elem_of_In. apply bool_decide_true. pose proof (hex16_digits c) as Hd.
      rewrite Forall_forall in Hd. by apply Hd. }
    by rewrite parse_hex_hex16.
Qed.

(** ** [compose_ticket] *)

Section compose.
Context `{Tickets}.

Lemma add_providers_ok existing nodes add nodes' : add_providers existing nodes add = Ok nodes' →
  ∃ ids, Forall2 (λ raw id, endpoint_id_from_str (trim_str raw) = Ok id) add ids ∧
    nodes' = nodes ++ (addr_from <$> filter (λ id, id ∉ existing) ids).
Proof.
  revert nodes. induction add as [|raw add IH]; intros nodes Ha; simpl in Ha.
  { injection Ha as <-. exists []. split; [constructor|]. simpl. by rewrite app_nil_r. }
  unfold add_provider in Ha. destruct (endpoint_id_from_str (trim_str raw)) as [id|e] eqn:E; [|done]. simpl in Ha.
  apply IH in Ha as (ids & Hids & ->). exists (id :: ids). split; [by constructor|].
  rewrite filter_cons. case_decide as Hin.
  - by rewrite decide_False by (intros Hn; by apply Hn).
  - by rewrite decide_True by done; rewrite <-(assoc_L (++)).
Qed.

(** The composed ticket lists the ticket's own providers, unless stripped,
    then the added ones it did not list, in order; one added twice is
    listed twice. *)
Lemma composed_nodes_ok ticket add strip nodes : composed_nodes ticket add strip = Ok nodes →
  nodes ≠ [] ∧ ∃ ids, Forall2 (λ raw id, endpoint_id_from_str (trim_str raw) = Ok id) add ids ∧
    let own := if strip then [] else ticket_nodes ticket in
    nodes = own ++ (addr_from <$> filter (λ id, id ∉ addr_id <$> own) ids).
Proof.
  unfold composed_nodes. set (own := if strip then [] else ticket_nodes ticket).
  destruct (add_providers (addr_id <$> own) own add) as [nodes'|e] eqn:E; simpl; [|done].
  case_decide as Hl; [done|]. intros [= ->]. split; [by destruct nodes|]. by apply add_providers_ok.
Qed.
End compose.

(** ** [seed] *)

Section seed.
Context `{Blake3} `{Hex} `{Sha256} `{!Codec LeafEntry}.
Context {St Dc : Type} `{!BlobStore St, !IrohDocs St Dc}.
Implicit Types n : St * Dc.

Lemma warm_values_ok (es : list LeafEntry) (st : St) :
  ∃ vs st', io_mapM (λ e, io_try (F:=anyhow) (get (le_hash e))) es st = (Ok vs, st').
Proof.
  revert st. induction es as [|e es IH]; intros st; [by exists [], st|]. simpl. unfold io_try, mbind, io_bind in *.
  destruct (get (le_hash e) st) as [r st1]. destruct (IH st1) as (vs & st2 & Hr). rewrite Hr. by exists (r :: vs), st2.
Qed.

(** A partition counts as seeded once its tree has been walked, whatever
    became of its values; until the next full pass, which is every 120th,
    an unchanged root is not looked at again. *)
Lemma seed_counts_walked full cut last id n root n1 es st :
  get_partition_root id n = (Ok (Some root), n1) → cut id = None →
  full = true ∨ last !! id ≠ Some root → walk_all root n1.1 = (Ok es, st) →
  ∃ n', seed_partition full cut last id n = (Ok (<[id := root]> last), n') ∧
    ∀ n2 n3, get_partition_root id n2 = (Ok (Some root), n3) →
      seed_partition false cut (<[id := root]> last) id n2 = (Ok (<[id := root]> last), n3).
Proof.
  intros Hroot Hcut Hlast Hwalk. destruct (warm_values_ok es st) as (vs & st' & Hvs). destruct n1 as [s1 d1]. simpl in Hwalk.
  exists (st', d1). split.
  - unfold seed_partition, warm_partition, on_fst, io_try, mbind, io_bind in *. rewrite Hroot.
    assert (negb full && bool_decide (last !! id = Some root) = false) as ->.
    { apply andb_false_iff. destruct Hlast as [->|Hl]; [by left|right; by apply bool_decide_false]. }
    by rewrite Hcut, Hwalk, Hvs.
  - intros n2 n3 H2. unfold seed_partition, io_try, mbind, io_bind. rewrite H2. simpl.
    by rewrite bool_decide_true by apply lookup_insert_eq.
Qed.
End seed.

(** ** Waiting for a root *)

(** What moves the node while a command waits for the root under a key:
    its own polls and the background sync. *)
Inductive waiting {St Dc} `{!BlobStore St, !IrohDocs St Dc} (background : St * Dc → St * Dc) (key : string) : St * Dc → St * Dc → Prop :=
| waiting_poll n r n' : get_named_root key n = (r, n') → waiting background key n n'
| waiting_sync n : waiting background key n (background n).

(** ** [list] *)

Section listing.
Context `{Blake3} `{Hex} `{Sha256} `{SerdeJson} `{Texts} `{!Codec LeafEntry}.
Context {St Dc : Type} `{!BlobStore St, !IrohDocs St Dc}.
Context (background : St * Dc → St * Dc).
Context (walk : N → Hash → WalkOutcome) (value_late : LeafEntry → bool) (options : ListOptions).
Context (Hrows : lo_summary options = false) (Hvalues : lo_values options = false).
Implicit Types s : Session St Dc.

Definition row_line (r : N * LeafEntry) : list byte := str_bytes (row_text r.1 r.2) ++ [x0a].
Definition rows_of (visited : list (N * option Hash)) : list (N * LeafEntry) :=
  concat ((λ v, match v.2 with Some root => pair v.1 <$> wo_entries (walk v.1 root) | None => [] end) <$> visited).

(** How far a listing that has printed [n] rows gets with [rows] to print:
    [k] of them. *)
Definition advanced (n k : nat) (rows : list (N * LeafEntry)) (stop : bool) : Prop :=
  k ≤ length rows ∧ (stop = false → k = length rows) ∧
  (∀ m, lo_max options = Some m → n < m → n + k ≤ m ∧ (stop = false → n + k < m)) ∧
  (lo_max options = None → lo_no_page options = true → stop = false).

(** Nothing was printed to standard output, and only reads of roots and the
    sync touched the node. *)
Definition polled (n n' : St * Dc) : Prop := ∃ key, waiting background key n n'.
Definition silent s s' : Prop := stdout s' = stdout s ∧ rtc polled (ss_node s) (ss_node s').
#[local] Instance silent_preorder : PreOrder silent.
Proof.
  split; [by split|]. intros s1 s2 s3 [H12 Hn12] [H23 Hn23]. split; [congruence|by etrans].
Qed.
Lemma silent_eprintln t : steps_in silent (eprintln (St:=St) (Dc:=Dc) t).
Proof. intros s r s' [= <- <-]. split; [|done]. unfold stdout. simpl. by rewrite omap_app, app_nil_r. Qed.
Lemma silent_read_line : steps_in silent (read_line (St:=St) (Dc:=Dc)).
Proof. intros s r s'. unfold read_line. destruct (ss_input s); by intros [= <- <-]. Qed.
Lemma silent_root key : steps_in silent (on_node_of (get_named_root (St:=St) (Dc:=Dc) key)).
Proof.
  intros s r s'. unfold on_node_of. destruct (get_named_root key (ss_node s)) as [r1 n1] eqn:E. intros [= <- <-].
  split; [done|]. apply rtc_once. exists key. by eapply waiting_poll.
Qed.
Lemma silent_sleep : steps_in silent (sleep background).
Proof. intros s r s' [= <- <-]. split; [done|]. apply rtc_once. exists "". apply (waiting_sync background "" (ss_node s)). Qed.
Lemma silent_wait polls key late : steps_in silent (wait_for_root background polls key late).
Proof.
  induction polls as [|polls IH]; simpl; (apply steps_in_bind; [apply _|apply silent_root|intros []]); [steps..|].
  apply steps_in_bind; [apply _|apply silent_sleep|done].
Qed.
Hint Resolve silent_eprintln silent_read_line silent_root silent_sleep silent_wait : steps.

(** The [rows] were printed. *)
Definition listed s s' (rows : list (N * LeafEntry)) : Prop :=
  stdout s' = stdout s ++ (row_line <$> rows) ∧ rtc polled (ss_node s) (ss_node s').
Lemma listed_silent s s' : silent s s' → listed s s' [].
Proof. intros [Hout Hn]. split; [by rewrite app_nil_r|done]. Qed.
Lemma listed_app s1 s2 s3 r1 r2 : listed s1 s2 r1 → listed s2 s3 r2 → listed s1 s3 (r1 ++ r2).
Proof.
  intros [Hout1 Hn1] [Hout2 Hn2]. split; [by rewrite Hout2, Hout1, fmap_app, <-(assoc_L (++))|by etrans].
Qed.
Lemma listed_after s1 s2 s3 r : silent s1 s2 → listed s2 s3 r → listed s1 s3 r.
Proof. intros Hs%listed_silent Hr. exact (listed_app _ _ _ _ _ Hs Hr). Qed.

Lemma after_row_run id l s l' stop s' : after_row options id l s = (Ok (l', stop), s') →
  printed l' = printed l ∧ (stop = false → ∀ m, lo_max options = Some m → printed l < m) ∧
  (lo_max options = None → lo_no_page options = true → stop = false).
Proof.
  unfold after_row. destruct (from_option _ false (lo_max options)) eqn:Em.
  { intros Hr. run_inv. split_and!; [done|done|]. intros Hn. by rewrite Hn in Em. }
  assert (∀ m, lo_max options = Some m → printed l < m) as Hm.
  { intros m Hm. rewrite Hm in Em. simpl in Em. by apply Nat.leb_gt in Em. }
  destruct (negb (lo_summary options) && negb (lo_no_page options) && (lo_free_limit options <=? printed l)) eqn:Ep.
  2: { intros Hr. run_inv. by split_and!. }
  destruct (lo_page_size options <=? S (since_prompt l)).
  - intros Hr. run_inv. split_and!; [done|intros _; exact Hm|]. intros _ Hn. rewrite Hn, andb_false_r in Ep. done.
  - intros Hr. run_inv. by split_and!.
Qed.

Lemma advanced_nil n : advanced n 0 [] false.
Proof. split_and!; [done|done| |done]. intros m _ Hm. split; [lia|intros _; lia]. Qed.

(** One listing after the other. *)
Lemma advanced_app n k1 k2 r1 r2 stop :
  advanced n k1 r1 false → advanced (n + k1) k2 r2 stop → advanced n (k1 + k2) (r1 ++ r2) stop.
Proof.
  intros (Hk1 & Hall1 & Hm1 & _) (Hk2 & Hall2 & Hm2 & Hn2). specialize (Hall1 eq_refl). unfold advanced. rewrite length_app. split_and!.
  - lia.
  - intros Hs. specialize (Hall2 Hs). lia.
  - intros m Hmax Hlt. destruct (Hm1 m Hmax Hlt) as [_ Hlt1]. destruct (Hm2 m Hmax (Hlt1 eq_refl)) as [Hle Hend].
    split; [lia|]. intros Hs. specialize (Hend Hs). lia.
  - done.
Qed.
Lemma take_advanced n k1 k2 (r1 r2 : list (N * LeafEntry)) :
  advanced n k1 r1 false → take (k1 + k2) (r1 ++ r2) = take k1 r1 ++ take k2 r2.
Proof. intros (_ & Hall & _). rewrite (Hall eq_refl), firstn_app_2. by rewrite firstn_all. Qed.

Lemma list_entry_row id l e s l' stop s' : list_entry value_late options id l e s = (Ok (l', stop), s') →
  listed s s' [(id, e)] ∧ printed l' = S (printed l) ∧ advanced (printed l) 1 [(id, e)] stop.
Proof.
  unfold list_entry, print_row. rewrite Hrows, Hvalues. intros Hr. apply io_bind_ok in Hr as ([] & s1 & Hs1 & Hr).
  injection Hs1 as <-. assert (steps_in silent (after_row (St:=St) (Dc:=Dc) options id (count_entry e l))) as Hs.
  { unfold after_row. steps. }
  pose proof (Hs _ _ _ Hr) as [Hout Hn']. apply after_row_run in Hr as (Hp & Hm & Hn). simpl in Hp, Hm. split_and!.
  - split; [|done]. rewrite Hout. unfold stdout. simpl. by rewrite omap_app.
  - done.
  - split_and!; [done|done| |done]. intros m Hmax Hlt. split; [lia|]. intros Hstop. specialize (Hm Hstop m Hmax). lia.
Qed.

Lemma list_entries_rows id l es s l' stop s' : list_entries value_late options id l es s = (Ok (l', stop), s') →
  ∃ k, listed s s' (take k (pair id <$> es)) ∧ printed l' = printed l + k ∧
    advanced (printed l) k (pair id <$> es) stop.
Proof.
  revert l s. induction es as [|e es IH]; intros l s Hr.
  { simpl in Hr. run_inv. exists 0. rewrite Nat.add_0_r. split_and!; [by apply listed_silent|done|apply advanced_nil]. }
  cbn [list_entries] in Hr. apply io_bind_ok in Hr as ([l1 stop1] & s1 & Hs1 & Hr). simpl in Hr.
  apply list_entry_row in Hs1 as (Hl & Hp & Hadv). rewrite fmap_cons. destruct stop1.
  - run_inv. exists 1. destruct Hadv as (_ & _ & Hm & Hn).
    split_and!; [done|lia|split_and!; [simpl; lia|done| |done]]. intros m Hmax Hlt. by destruct (Hm m Hmax Hlt).
  - apply IH in Hr as (k & Hl' & Hp' & Hadv'). exists (1 + k). replace (printed l1) with (printed l + 1) in Hadv' by lia. split_and!.
    + by eapply (listed_app _ _ _ [_]).
    + lia.
    + by apply (advanced_app _ 1 _ [_]).
Qed.

Lemma list_partition_rows l id s l' stop s' :
  list_partition walk value_late options l id s = (Ok (l', stop), s') →
  ∃ o k, (∃ n1, get_partition_root id (ss_node s) = (Ok o, n1)) ∧
    listed s s' (take k (rows_of [(id, o)])) ∧ printed l' = printed l + k ∧
    advanced (printed l) k (rows_of [(id, o)]) stop.
Proof.
  intros Hr. unfold list_partition in Hr. apply io_bind_ok in Hr as (o & s1 & Hs1 & Hr).
  assert (∃ n1, get_partition_root id (ss_node s) = (Ok o, n1)) as Hroot.
  { unfold on_node_of in Hs1. destruct (get_partition_root id (ss_node s)) as [r n1] eqn:E. injection Hs1 as -> _. eauto. }
  apply silent_root in Hs1. exists o. unfold rows_of. simpl. rewrite app_nil_r.
  assert (∀ (b : bool) (t : string), steps_in silent (if b then eprintln (St:=St) (Dc:=Dc) t else mret tt)) as Hif by (intros; steps).
  destruct o as [root|].
  - set (es := wo_entries (walk id root)) in *. destruct (bool_decide (es = []) && negb (wo_complete (walk id root))) eqn:Eu.
    + apply andb_true_iff in Eu as [Eu%bool_decide_eq_true _]. rewrite Eu. run_inv. exists 0. apply silent_eprintln in Hrun.
      rewrite Nat.add_0_r. split_and!; [done|apply listed_silent; by etrans|done|apply advanced_nil].
    + apply io_bind_ok in Hr as ([] & s2 & Hs2 & Hr). apply io_bind_ok in Hr as ([] & s3 & Hs3 & Hr).
      assert (silent s1 s2) as Hs2' by (destruct (wo_complete _); [by injection Hs2 as <-|by eapply silent_eprintln]).
      apply Hif in Hs3. apply list_entries_rows in Hr as (k & Hl & Hp & Hadv). exists k. simpl in Hp, Hadv. split_and!; try done.
      eapply listed_after; [|exact Hl]. by do 2 (etrans; [done|]).
  - apply io_bind_ok in Hr as ([] & s2 & Hs2 & Hr). run_inv. exists 0. rewrite Nat.add_0_r.
    assert (silent s1 s') as Hs2' by (destruct (lo_partition options); [by eapply silent_eprintln|by injection Hs2 as <-]).
    split_and!; [done|apply listed_silent; by etrans|done|apply advanced_nil].
Qed.

(** The partitions visited, each with the root the document then had. *)
Definition visits s (visited : list (N * option Hash)) : Prop :=
  Forall (λ v, ∃ n n1, rtc polled (ss_node s) n ∧ get_partition_root v.1 n = (Ok v.2, n1)) visited.

(** The rows are those of the partitions visited, in order: all of them,
    unless [--max] or the reader stops the listing. *)
Lemma list_partitions_rows l ids s l' s' : list_partitions walk value_late options l ids s = (Ok l', s') →
  ∃ visited k stop, visited.*1 `prefix_of` ids ∧ (stop = false → visited.*1 = ids) ∧ visits s visited ∧
    listed s s' (take k (rows_of visited)) ∧ printed l' = printed l + k ∧
    advanced (printed l) k (rows_of visited) stop.
Proof.
  revert l s. induction ids as [|id ids IH]; intros l s Hr.
  { simpl in Hr. run_inv. exists [], 0, false. rewrite Nat.add_0_r.
    split_and!; [done|done|by constructor|by apply listed_silent|done|apply advanced_nil]. }
  cbn [list_partitions] in Hr. apply io_bind_ok in Hr as ([l1 stop] & s1 & Hs1 & Hr). simpl in Hr.
  apply list_partition_rows in Hs1 as (o & k & [n1 Hroot] & Hl & Hp & Hadv).
  assert (∃ n n1, rtc polled (ss_node s) n ∧ get_partition_root id n = (Ok o, n1)) as Hv by (by exists (ss_node s), n1).
  destruct stop.
  - run_inv. exists [(id, o)], k, true. split_and!; [by apply prefix_cons, prefix_nil|done|by constructor|done..].
  - apply IH in Hr as (visited & k' & stop & Hpre & Hend & Hvis & Hl' & Hp' & Hadv').
    assert (rows_of ((id, o) :: visited) = rows_of [(id, o)] ++ rows_of visited) as Hcons.
    { unfold rows_of. rewrite !fmap_cons. cbn [concat]. by rewrite app_nil_r. }
    rewrite Hp in Hadv'. exists ((id, o) :: visited), (k + k'), stop. rewrite Hcons. split_and!.
    + rewrite fmap_cons. by apply prefix_cons.
    + intros Hs. by rewrite fmap_cons, (Hend Hs).
    + constructor; [exact Hv|]. eapply Forall_impl; [exact Hvis|]. intros v (n & n2 & Hst & Hn). exists n, n2.
      split; [|done]. destruct Hl as [_ Hst']. by etrans.
    + rewrite (take_advanced _ _ _ _ _ Hadv). by eapply listed_app.
    + lia.
    + by eapply advanced_app.
Qed.

(** The lines after the rows. *)
Definition text_line (t : string) : list byte := str_bytes t ++ [x0a].
Lemma println_all_run texts s r s' : println_all (St:=St) (Dc:=Dc) texts s = (r, s') →
  stdout s' = stdout s ++ (text_line <$> texts) ∧ ss_node s' = ss_node s.
Proof.
  revert s. induction texts as [|t texts IH]; intros s Hr.
  { injection Hr as _ <-. by rewrite app_nil_r. }
  unfold println_all in Hr. cbn [io_fold] in Hr. apply IH in Hr as [Hout Hn]. split; [|done].
  rewrite Hout, fmap_cons. unfold stdout. simpl. by rewrite omap_app, <-(assoc_L (++)).
Qed.

(** The wait for the document prints nothing to standard output. *)
Lemma silent_settled polls ids : steps_in silent (settled background options polls ids).
Proof.
  assert (∀ rounds waited first, steps_in silent (settle (St:=St) (Dc:=Dc) background rounds polls waited first)) as Hsettle.
  { intros rounds. induction rounds as [|rounds IH]; intros waited first; simpl; [steps|].
    apply steps_in_bind; [apply _|apply steps_in_try; apply silent_wait|intros []; steps]. }
  unfold settled. apply steps_in_bind; [apply _|destruct ids; [cbn -[settle]; steps|apply Hsettle]|intros []; steps].
Qed.
End listing.
