(* ===== verification/StorectlSpec.v ===== *)
(** What the read-side commands promise. *)

From stdpp Require Import functions.
From S2P Require Import Prelude Hash Partition Record BlobStore Hamt HamtNodeFacts HamtFacts HamtSpec HamtWalk Samples Iscc Similarity IsccStore CidKey CodesSpec Anyhow Index PointerDoc PublisherSpec Files Api ApiSpec Config Viewer ViewerFacts Verify Storectl StorectlFacts.

Lemma io_map_err_run {W E F A} (f : E → F) (m : io W E A) w r w' :
  io_map_err f m w = (r, w') → ∃ r0, m w = (r0, w') ∧ r = result_map_err f r0.
Proof. unfold io_map_err. destruct (m w) as [r0 w0]. intros [= <- <-]. by exists r0. Qed.

Section spec.
Context `{Blake3} `{Hex} `{Sha256} `{Base32} `{SerdeJson} `{Texts} `{ViewerTexts} `{Tickets}.
Context `{!Codec LeafEntry, !Codec DirectoryV2, !Codec BucketManifest, !Codec (list IsccMember)}.
Context {St Dc : Type} `{!BlobStore St, !IrohDocs St Dc}.
Context (D : list byte → Prop) `{!CollisionFree D} `{!VerifiedStore St D}.
Context (writable : string → bool) (background : St * Dc → St * Dc).
Context (spawn_node : bool → ResolvedConfig → io (Session St Dc) anyhow string)
  (import_doc : DocTicket → io (Session St Dc) anyhow unit).
Context (background_verified : ∀ n, verified n.1 → verified (background n).1).
Implicit Types s : Session St Dc.

(** ** What a step keeps *)

(** The node's store is verified; standard output, the files and the input
    are those of [s0]. *)
Definition quiet (s0 s : Session St Dc) : Prop :=
  verified (ss_node s).1 ∧ stdout s = stdout s0 ∧ ss_files s = ss_files s0.

Definition keeps (s s' : Session St Dc) : Prop := verified (ss_node s).1 → quiet s s'.
#[local] Instance keeps_preorder : PreOrder keeps.
Proof.
  split; [by intros s Hs|]. intros s1 s2 s3 H12 H23 Hs. destruct (H12 Hs) as (Hv & Ho & Hf).
  destruct (H23 Hv) as (Hv' & Ho' & Hf'). split_and!; [done|congruence..].
Qed.

Lemma keeps_node {A} (m : io (St * Dc) anyhow A) :
  (∀ n r n', verified n.1 → m n = (r, n') → verified n'.1) → steps_in keeps (on_node_of m).
Proof.
  intros Hm s r s' Hr Hs. unfold on_node_of in Hr. destruct (m (ss_node s)) as [r1 n1] eqn:E. injection Hr as <- <-.
  split_and!; [by eapply Hm|done|done].
Qed.

Lemma keeps_eprintln t : steps_in keeps (eprintln (St:=St) (Dc:=Dc) t).
Proof. intros s r s' [= <- <-] Hs. split_and!; [done| |done]. unfold stdout. simpl. by rewrite omap_app, app_nil_r. Qed.

Lemma keeps_sleep : steps_in keeps (sleep background).
Proof. intros s r s' [= <- <-] Hs. split_and!; [by apply background_verified|done|done]. Qed.

Lemma get_store_verified {B} (f : BlobStoreError → B) h (st st' : St) r :
  verified st → io_map_err f (get h) st = (r, st') → verified st' ∧ ∀ b, r = Ok (Some b) → Hash_of b = h ∧ D b.
Proof.
  intros Hs Hr. unfold io_map_err in Hr. destruct (get h st) as [r1 s1] eqn:E. injection Hr as <- <-.
  destruct (get_verified _ _ _ _ Hs E) as [Hv Hb]. split; [done|]. intros b Hb'. apply Hb. destruct r1 as [o|e]; simpl in Hb'; [by injection Hb' as ->|done].
Qed.

Lemma named_root_verified key (n : St * Dc) r n' : verified n.1 → get_named_root key n = (r, n') → verified n'.1.
Proof.
  destruct n as [s d]. simpl. intros Hs Hr. unfold get_named_root, mbind, io_bind, on_snd, on_fst in Hr. simpl in Hr.
  destruct (io_map_err EDoc (doc_get_one key) d) as [[[h|]|e] d1]; [|by injection Hr as _ <-..].
  destruct (io_map_err EBlob (get h) s) as [r1 s1] eqn:E. apply get_store_verified in E as [Hv _]; [|done].
  destruct r1 as [[b|]|e]; [|by injection Hr as _ <-..]. destruct (to_b32 b); by injection Hr as _ <-.
Qed.

Lemma keeps_wait polls key late : steps_in keeps (wait_for_root background polls key late).
Proof.
  assert (steps_in keeps (on_node_of (get_named_root (St:=St) (Dc:=Dc) key))) as Hget.
  { apply keeps_node. intros n r n'. apply named_root_verified. }
  induction polls as [|polls IH]; simpl; (apply steps_in_bind; [apply _|exact Hget|intros []]); [steps..|].
  apply steps_in_bind; [apply _|apply keeps_sleep|done].
Qed.

Lemma wait_root polls key late s root s' : wait_for_root background polls key late s = (Ok root, s') →
  ∃ n n1, rtc (waiting background key) (ss_node s) n ∧ get_named_root key n = (Ok (Some root), n1).
Proof.
  revert s. induction polls as [|polls IH]; intros s Hr; simpl in Hr; run_inv; unfold on_node_of in Hrun;
    destruct (get_named_root key (ss_node s)) as [r1 n1] eqn:E; injection Hrun as -> <-; destruct a; run_inv;
    try (exists (ss_node s), n1; split; [apply rtc_refl|done]).
  unfold sleep, modify in Hrun. simplify_eq. apply IH in Hr as (n & n2 & Hst & Hn). exists n, n2. split; [|done].
  eapply rtc_l; [by eapply waiting_poll|]. eapply rtc_l; [apply waiting_sync|]. exact Hst.
Qed.

Lemma lookup_store_verified C root key (n : St * Dc) r n' : published D C → verified n.1 →
  on_fst (io_map_err EHamt (lookup (Some root) key)) n = (r, n') →
  verified n'.1 ∧ ∀ o es, r = Ok o → rep_root C (Some root) es → o = find_key le_key key es.
Proof.
  destruct n as [st d]. intros HC Hs Hr. apply on_fst_run in Hr as (s1 & Hr & ->).
  apply io_map_err_run in Hr as (r1 & E & ->). split; [by eapply (lookup_loop_verified D)|].
  intros o es Ho Hrep. destruct r1 as [o1|]; [|done]. injection Ho as <-. by eapply (lookup_verified D).
Qed.

(** ** [get] *)

Lemma keeps_lookup C root key : published D C →
  steps_in keeps (on_node_of (St:=St) (Dc:=Dc) (on_fst (io_map_err EHamt (lookup (Some root) key)))).
Proof.
  intros HC. apply keeps_node. intros n r n' Hv Hr. by eapply (lookup_store_verified C) in Hr as [? _].
Qed.
Lemma keeps_fetch h : steps_in keeps (on_node_of (St:=St) (Dc:=Dc) (on_fst (io_map_err EBlob (get h)))).
Proof.
  apply keeps_node. intros [st d] r n' Hv Hr. apply on_fst_run in Hr as (s1 & E & ->).
  by eapply get_store_verified in E as [? _].
Qed.

Lemma keeps_get_bytes C polls cfg cid : published D C → steps_in keeps (get_bytes background polls cfg cid).
Proof.
  intros HC. unfold get_bytes. apply steps_in_bind; [apply _|apply keeps_wait|intros root].
  apply steps_in_bind; [apply _|apply keeps_eprintln|intros []].
  apply steps_in_bind; [apply _|by eapply keeps_lookup|intros found].
  apply steps_in_bind; [apply _|steps|intros entry].
  apply steps_in_bind; [apply _|apply keeps_eprintln|intros []].
  apply steps_in_bind; [apply _|apply keeps_fetch|intros blob]. steps.
Qed.

(** The bytes are those the publisher stored for the key. *)
Lemma get_bytes_published C polls cfg cid s bytes s' : published D C → verified (ss_node s).1 →
  get_bytes background polls cfg cid s = (Ok bytes, s') →
  let id := partition_id_for_key cid (rc_top_level_partitions cfg) in
  ∃ root n n1, rtc (waiting background (partition_key id)) (ss_node s) n ∧ get_partition_root id n = (Ok (Some root), n1) ∧
    ∀ es, rep_root C (Some root) es → ∃ e, find_key le_key cid es = Some e ∧ Hash_of bytes = le_hash e ∧ D bytes.
Proof.
  intros HC Hs Hr id. unfold get_bytes in Hr. apply io_bind_ok in Hr as (root & s1 & E1 & Hr).
  apply io_bind_ok in Hr as ([] & s2 & E2 & Hr). apply io_bind_ok in Hr as (found & s3 & E3 & Hr).
  apply io_bind_ok in Hr as (entry & s4 & [Hf ->]%io_lift_ok & Hr). destruct found as [e|]; [|done]. injection Hf as ->.
  apply io_bind_ok in Hr as ([] & s5 & E5 & Hr). apply io_bind_ok in Hr as (blob & s6 & E6 & [Hb _]%io_lift_ok).
  destruct blob as [b|]; [|done]. injection Hb as ->.
  pose proof (wait_root _ _ _ _ _ _ E1) as (n & n1 & Hst & Hn). exists root, n, n1. split; [exact Hst|].
  split; [exact Hn|]. intros es Hrep.
  assert (keeps s s2) as K2 by (etrans; [by eapply keeps_wait|by eapply keeps_eprintln]).
  assert (keeps s s5) as K5 by (etrans; [exact K2|etrans; [by eapply keeps_lookup|by eapply keeps_eprintln]]).
  exists entry. unfold on_node_of in E3, E6. split.
  - destruct (on_fst _ (ss_node s2)) as [r3 n3] eqn:E in E3. injection E3 as -> _.
    eapply (lookup_store_verified C) in E as [_ Hf]; [by symmetry; apply Hf|done|by destruct (K2 Hs)].
  - destruct (ss_node s5) as [st d] eqn:Ed. destruct (on_fst _ (st, d)) as [r6 n6] eqn:E in E6. injection E6 as -> _.
    apply on_fst_run in E as (s7 & E & _). apply get_store_verified in E as [_ Hb]; [by apply Hb|].
    destruct (K5 Hs) as [Hv _]. by rewrite Ed in Hv.
Qed.

(** Where the bytes that [get] delivers come from. *)
Lemma get_outcome C polls cfg cid out ephemeral s0 s r s' : published D C →
  open_session spawn_node import_doc ephemeral cfg s0 = (Ok tt, s) → verified (ss_node s).1 →
  get_command writable background spawn_node import_doc polls cfg cid out ephemeral s0 = (r, s') →
  ss_open s' = false ∧
  if is_ok r then
    let id := partition_id_for_key cid (rc_top_level_partitions cfg) in
    ∃ root n n1 bytes,
      rtc (waiting background (partition_key id)) (ss_node s) n ∧ get_partition_root id n = (Ok (Some root), n1) ∧
      (∀ es, rep_root C (Some root) es → ∃ e, find_key le_key cid es = Some e ∧ Hash_of bytes = le_hash e ∧ D bytes) ∧
      match out with
      | None => stdout s' = stdout s ++ [bytes; [x0a]] ∧ ss_files s' = ss_files s
      | Some path => stdout s' = stdout s ∧ ss_files s' = <[path := Some (str_of_bytes bytes)]> (ss_files s)
      end
  else stdout s' = stdout s ∧ ss_files s' = ss_files s.
Proof.
  intros HC Ho Hv Hr. unfold get_command in Hr. rewrite (io_bind_run _ _ _ _ _ Ho) in Hr.
  unfold io_try, mbind, io_bind in Hr. destruct (get_flow writable background polls cfg cid out s) as [r1 s1] eqn:Ef.
  simpl in Hr. injection Hr as <- <-. split; [done|]. cbn [ss_files]. fold (stdout s1).
  unfold get_flow, mbind, io_bind in Ef. destruct (get_bytes background polls cfg cid s) as [r2 s2] eqn:Eb.
  destruct (keeps_get_bytes C polls cfg cid HC _ _ _ Eb Hv) as (Hv2 & Hout & Hfiles).
  destruct r2 as [bytes|e]; [|injection Ef as <- <-; by split].
  destruct (get_bytes_published C _ _ _ _ _ _ HC Hv Eb) as (root & n & n1 & Hst & Hn & Hes).
  destruct out as [path|].
  - unfold write_out in Ef. destruct (writable path); injection Ef as <- <-; simpl; [|by split].
    exists root, n, n1, bytes. split_and!; [done..| |].
    + rewrite <-Hout. unfold stdout. simpl. by rewrite omap_app, app_nil_r.
    + by rewrite <-Hfiles.
  - injection Ef as <- <-. simpl. exists root, n, n1, bytes. split_and!; [done..| |done].
    rewrite <-Hout. unfold stdout. simpl. by rewrite !omap_app, <-(assoc_L (++)).
Qed.

(** ** The root a reader reads *)

Lemma waiting_verified key n n' : rtc (waiting background key) n n' → verified n.1 → verified n'.1.
Proof.
  induction 1 as [n|n1 n2 n3 Hst _ IH]; [done|]. intros Hv. apply IH. destruct Hst as [n r n' Hr|n].
  - by eapply named_root_verified.
  - by apply background_verified.
Qed.

(** It is what the replica's entry names, as far as hashes go. *)
Lemma root_read `{!IrohDocsLaws St Dc} key (n : St * Dc) root n1 : verified n.1 →
  get_named_root key n = (Ok (Some root), n1) →
  ∃ h, doc_entries (St:=St) n.2 !! key = Some h ∧ Hash_of (b32_list (hash_0 root)) = h ∧ D (b32_list (hash_0 root)).
Proof.
  destruct n as [st d]. cbn [fst snd]. intros Hv Hr. unfold get_named_root in Hr.
  apply io_bind_ok in Hr as (entry & [st1 d1] & Hd & Hr). apply on_snd_run in Hd as (d2 & Hd & [= -> ->]).
  apply io_map_err_run in Hd as (r0 & Hd & Hentry). apply doc_get_one_run in Hd as [_ Hd].
  destruct r0 as [o|]; [|done]. injection Hentry as <-. specialize (Hd _ eq_refl). subst entry.
  destruct (doc_entries d !! key) as [h|]; [|done]. exists h. split; [done|].
  apply io_bind_ok in Hr as (found & [st3 d3] & Hg & Hr). apply on_fst_run in Hg as (st4 & Hg & [= -> ->]).
  apply get_store_verified in Hg as [_ Hb]; [|done]. destruct found as [b|]; [|done].
  destruct (Hb b eq_refl) as [Hh HD]. destruct (to_b32 b) as [a|] eqn:Ea; [|done]. injection Hr as <- _.
  apply to_b32_Some in Ea as Ea. simpl. by rewrite Ea.
Qed.

End spec.

(** ** What a listing prints *)

Section listing.
Context `{Blake3} `{Hex} `{Sha256} `{Base32} `{SerdeJson} `{Texts} `{ViewerTexts} `{Tickets}.
Context `{!Codec LeafEntry}.
Context {St Dc : Type} `{!BlobStore St, !IrohDocs St Dc}.
Context (D : list byte → Prop) `{!CollisionFree D} `{!VerifiedStore St D}.
Context (background : St * Dc → St * Dc).
Context (spawn_node : bool → ResolvedConfig → io (Session St Dc) anyhow string)
  (import_doc : DocTicket → io (Session St Dc) anyhow unit).
Context (walk : N → Hash → WalkOutcome) (value_late : LeafEntry → bool) (percent_text average_text : N → N → string).
Context (options : ListOptions).

(** The partitions asked for. *)
Definition requested (cfg : ResolvedConfig) : list N :=
  match lo_partition options with Some id => [id] | None => N.of_nat <$> seq 0 (N.to_nat (rc_top_level_partitions cfg)) end.

(** C12: A listing shows the published trees.  Its rows are the entries the
    walks found, partition by partition in order, each partition at a root
    read from the pointer document; a walk finds no entry that is not in the
    tree published at its root, and all of them in key order when it is
    complete.  Without [--max] and paging nothing is left out, with [--max]
    at least 1 no more than so many rows are printed, and the count printed
    after the rows is their number.  Then the node is closed. *)
Theorem list_prints_trees C polls cfg s0 s s' :
  published D C → (∀ id root, shared_walk_outcome (St:=St) D root (walk id root)) →
  lo_summary options = false → lo_values options = false →
  open_session spawn_node import_doc (lo_ephemeral options) cfg s0 = (Ok tt, s) →
  list_command background spawn_node import_doc walk value_late percent_text average_text options polls cfg s0 = (Ok tt, s') →
  ss_open s' = false ∧
  ∃ visited k l,
    visited.*1 `prefix_of` requested cfg ∧ visits background s visited ∧
    stdout s' = stdout s ++ [text_line ("partition" +:+ tab +:+ "key" +:+ tab +:+ "content_code")]
                ++ (row_line <$> take k (rows_of walk visited))
                ++ (text_line <$> list_report percent_text average_text options l) ∧
    k = printed l ∧ k ≤ length (rows_of walk visited) ∧
    (∀ m, lo_max options = Some m → 0 < m → k ≤ m) ∧
    (lo_max options = None → lo_no_page options = true → visited.*1 = requested cfg ∧ k = length (rows_of walk visited)) ∧
    ∀ id root es, (id, Some root) ∈ visited → rep_root C (Some root) es →
      (wo_complete (walk id root) = true → wo_entries (walk id root) = sort_by_key le_key es) ∧
      ∃ lost, wo_entries (walk id root) ++ lost ≡ₚ es.
Proof.
  intros HC Hwalk Hsum Hval Ho Hr. unfold list_command in Hr. rewrite (io_bind_run _ _ _ _ _ Ho) in Hr.
  change (match lo_partition options with Some id => _ | None => _ end) with (requested cfg) in Hr.
  apply io_bind_ok in Hr as ([] & s1 & Hs1 & Hr). apply (silent_settled background) in Hs1.
  rewrite Hsum, Hval in Hr. cbn [andb] in Hr.
  apply io_bind_ok in Hr as ([] & s2 & Hs2 & Hr). injection Hs2 as <-.
  apply io_bind_ok in Hr as (l & s3 & Hs3 & Hr). apply (list_partitions_rows background) in Hs3 as
    (visited & k & stop & Hpre & Hend & Hvis & [Hout _] & Hp & Hk & Hall & Hm & Hn); [|done..].
  apply io_bind_ok in Hr as ([] & s4 & Hs4 & Hr). injection Hs4 as <-.
  apply io_bind_ok in Hr as ([] & s5 & Hs5 & Hr). apply println_all_run in Hs5 as [Hout5 _]. injection Hr as <-.
  split; [done|]. exists visited, k, l. destruct Hs1 as [Hout1 Hn1]. split_and!.
  - done.
  - eapply Forall_impl; [exact Hvis|]. intros v (n & n1 & Hst & Hget). exists n, n1. split; [by etrans|done].
  - trans (stdout s5); [done|]. rewrite Hout5, Hout, <-Hout1. unfold stdout at 1. simpl.
    by rewrite omap_app, <-!(assoc_L (++)).
  - done.
  - done.
  - intros m Hmax Hlt. by destruct (Hm m Hmax Hlt).
  - intros Hmax Hpage. specialize (Hn Hmax Hpage). by rewrite (Hend Hn), (Hall Hn).
  - intros id root es _ Hrep. by eapply (shared_walk_part D).
Qed.
End listing.

(** ** A record that is there is found *)

Section found.
Context `{Blake3} `{Hex} `{Sha256} `{Base32} `{SerdeJson} `{Texts} `{ViewerTexts} `{Tickets}.
Context `{!Codec LeafEntry}.
Context {St Dc : Type} `{!BlobStore St, !IrohDocs St Dc, !BlobStoreSpec St, !ReliableStore St}.
Context (writable : string → bool) (background : St * Dc → St * Dc).
Context (spawn_node : bool → ResolvedConfig → io (Session St Dc) anyhow string)
  (import_doc : DocTicket → io (Session St Dc) anyhow unit).

Lemma on_node_same {A} (m : io (St * Dc) anyhow A) (s : Session St Dc) a :
  m (ss_node s) = (Ok a, ss_node s) → on_node_of m s = (Ok a, s).
Proof. unfold on_node_of. intros ->. by destruct s. Qed.
Lemma on_fst_same {A} (m : io St anyhow A) (st : St) (d : Dc) a : m st = (Ok a, st) → on_fst m (st, d) = (Ok a, (st, d)).
Proof. unfold on_fst. by intros ->. Qed.
Lemma map_err_same {E F A} (f : E → F) (m : io St E A) st a : m st = (Ok a, st) → io_map_err f m st = (Ok a, st).
Proof. unfold io_map_err. by intros ->. Qed.
Lemma wait_found polls key late (s : Session St Dc) root :
  get_named_root key (ss_node s) = (Ok (Some root), ss_node s) →
  wait_for_root background polls key late s = (Ok root, s).
Proof. intros Hr. apply (on_node_same _ s) in Hr. by destruct polls; simpl; rewrite (io_bind_run _ _ _ _ _ Hr). Qed.

(** A key of the published tree, with its value in a store that does not
    fail, is delivered. *)
Lemma get_succeeds polls cfg cid ephemeral s0 s root es e v :
  open_session spawn_node import_doc ephemeral cfg s0 = (Ok tt, s) →
  get_partition_root (partition_id_for_key cid (rc_top_level_partitions cfg)) (ss_node s) = (Ok (Some root), ss_node s) →
  rep_root (contents (ss_node s).1) (Some root) es → find_key le_key cid es = Some e →
  contents (ss_node s).1 !! le_hash e = Some v →
  ∃ s', get_command writable background spawn_node import_doc polls cfg cid None ephemeral s0 = (Ok tt, s') ∧
    stdout s' = stdout s ++ [v; [x0a]].
Proof.
  intros Ho Hroot Hrep He Hv. destruct (ss_node s) as [st d] eqn:En. simpl in Hrep, Hv.
  assert (lookup (Some root) cid st = (Ok (Some e), st)) as Hlook.
  { rewrite <-He. apply (lookup_loop_total DESCENT_FUEL cid [] root es); [done|apply prefix_nil|simpl; lia]. }
  assert (∃ s1, get_bytes background polls cfg cid s = (Ok v, s1) ∧ stdout s1 = stdout s) as (s1 & Hs1 & Hout).
  { destruct s as [n ls fs ins op]. simpl in En. subst n. eexists. split.
    - unfold get_bytes. erewrite io_bind_run by (by apply (wait_found polls _ _ (mkSession (st, d) ls fs ins op))).
      erewrite io_bind_run by reflexivity. erewrite io_bind_run by (by apply on_node_same, on_fst_same, map_err_same).
      erewrite io_bind_run by reflexivity. erewrite io_bind_run by reflexivity.
      erewrite io_bind_run by (apply on_node_same, on_fst_same, map_err_same; rewrite get_total, Hv; reflexivity).
      reflexivity.
    - unfold stdout. simpl. by rewrite !omap_app, !app_nil_r. }
  unfold get_command. rewrite (io_bind_run _ _ _ _ _ Ho).
  eexists. split; [unfold get_flow, io_try, mbind, io_bind; rewrite Hs1; reflexivity|].
  rewrite <-Hout. unfold stdout. simpl. by rewrite !omap_app, <-(assoc_L (++)).
Qed.
End found.

(** ** On a concrete node *)

#[local] Existing Instances sample_blake3 sample_sha256 sample_hex sample_leaf_codec sample_leaf_laws sample_docs
  sample_base32 sample_json sample_texts.

Definition sample_tickets : Tickets := {|
  DocTicket := string; EndpointId := string; EndpointAddr := string;
  ticket_from_str s := Ok s; ticket_to_string t := t; ticket_nodes _ := ["origin"]; ticket_with_nodes _ t := t;
  addr_id a := a; addr_from i := i; endpoint_id_from_str s := Ok s |}.
#[local] Existing Instance sample_tickets.

(** The publisher's store: the tree of the three sample entries, their
    values and the blob the pointer document's entry names. *)
Definition sample_blobs : Traced MemoryBlobStore :=
  foldl (λ s b, (put b s).2) sample_after [str_bytes "{1}"; str_bytes "{2}"; str_bytes "{3}"; b32_list (hash_0 sample_root)].
Definition sample_client : ResolvedConfig := mkResolvedConfig "ticket" "flag" "storage" "flag" 1.
Definition sample_session : Session MemoryBlobStore (gmap string Hash) :=
  mkSession (tr_store sample_blobs, {[partition_key 0 := Hash_of (b32_list (hash_0 sample_root))]}) [] (λ _, None) [] true.
Definition sample_spawn (_ : bool) (_ : ResolvedConfig) : io (Session MemoryBlobStore (gmap string Hash)) anyhow string :=
  mret "0123456789abcdef".
Definition sample_import (_ : DocTicket) : io (Session MemoryBlobStore (gmap string Hash)) anyhow unit := mret tt.
Definition sample_get : result anyhow unit * Session MemoryBlobStore (gmap string Hash) :=
  get_command (λ _, true) id sample_spawn sample_import 0 sample_client "pb1" None true sample_session.

Lemma sample_blobs_cf : CollisionFree (written sample_blobs).
Proof. apply collision_free_of_check. vm_compute. reflexivity. Qed.
Lemma sample_blobs_ok : published (written sample_blobs) (contents sample_blobs).
Proof. unfold published, written. apply (bool_decide_unpack _). vm_compute. exact I. Qed.
Lemma sample_get_ok : is_ok sample_get.1 = true.
Proof. vm_compute. reflexivity. Qed.

Lemma sample_get_eq :
  get_command (λ _, true) id sample_spawn sample_import 0 sample_client "pb1" None true sample_session = (Ok tt, sample_get.2).
Proof. fold sample_get. pose proof sample_get_ok as Hok. revert Hok. generalize sample_get. by intros [[[]|] s']. Qed.

(** Writing further blobs keeps what is there. *)
Lemma foldl_put_advances D `{!CollisionFree D} (l : list (list byte)) (s : Traced MemoryBlobStore) :
  advances D s (foldl (λ s b, (put b s).2) s l).
Proof.
  revert s. induction l as [|b l IH]; intros s; [reflexivity|]. etrans; [|apply IH].
  apply (steps_put D b s (put b s).1 (put b s).2), surjective_pairing.
Qed.
Lemma sample_blobs_grow : contents sample_after ⊆ contents sample_blobs.
Proof.
  pose proof sample_blobs_cf as Hcf. destruct sample_rep as (es & _ & _ & Hl & Hok).
  destruct (foldl_put_advances (written sample_blobs) [str_bytes "{1}"; str_bytes "{2}"; str_bytes "{3}"; b32_list (hash_0 sample_root)]
    sample_after) as [[k Hk] Hadv]. apply Hadv; [apply written_all|]. split; [done|]. intros h b Hb.
  destruct (Hok h b Hb) as [Hh HD]. split; [done|]. unfold written in *. unfold sample_blobs. rewrite Hk. apply elem_of_app. by left.
Qed.
Definition sample_opened : Session MemoryBlobStore (gmap string Hash) :=
  (open_session sample_spawn sample_import true sample_client sample_session).2.
Lemma sample_open_eq :
  open_session sample_spawn sample_import true sample_client sample_session = (Ok tt, sample_opened).
Proof. reflexivity. Qed.
Lemma sample_blobs_store : store_ok (written sample_blobs) sample_blobs.
Proof. split; [done|]. exact sample_blobs_ok. Qed.
Lemma sample_opened_verified : verified (D:=written sample_blobs) (ss_node sample_opened).1.
Proof. exact sample_blobs_ok. Qed.
Lemma sample_partition : partition_id_for_key "pb1" (rc_top_level_partitions sample_client) = 0%N.
Proof. vm_compute. reflexivity. Qed.
Lemma sample_opened_silent : stdout sample_opened = [].
Proof. reflexivity. Qed.
#[local] Opaque sample_blobs sample_get sample_opened.


(** A complete walk of the published tree; nothing of any other. *)
Definition sample_walk (_ : N) (root : Hash) : WalkOutcome :=
  if decide (root = sample_root) then mkWalkOutcome (sort_by_key le_key sample_entries) true else mkWalkOutcome [] false.
Definition sample_list_options : ListOptions := mkListOptions None 100 300 None true false false true 25 2000.
Definition sample_listing : result anyhow unit * Session MemoryBlobStore (gmap string Hash) :=
  list_command id sample_spawn sample_import sample_walk (λ _, false) (λ _ _, "") (λ _ _, "") sample_list_options 0 sample_client
    sample_session.

Lemma sample_walk_real : ∀ (id : N) root, shared_walk_outcome (St:=MemoryBlobStore) (written sample_blobs) root (sample_walk id root).
Proof.
  pose proof sample_blobs_cf as Hcf. intros id root. unfold sample_walk. destruct (decide (root = sample_root)) as [->|_];
    [|exact (shared_walk_late _ _ _ sample_opened_verified)].
  destruct sample_rep as (es & Hrep & Hp & _). pose proof (rep_mono _ _ _ _ _ sample_blobs_grow Hrep) as Hrep'.
  destruct (traced_listing (written sample_blobs) sample_blobs sample_root es Hrep' sample_blobs_store) as ([es1 c1] & Hout & Hc).
  pose proof (shared_walk_lists _ _ _ _ _ sample_blobs_ok Hrep' Hout Hc) as He. simpl in Hc, He. subst es1 c1.
  by rewrite <-(sort_by_key_unique le_key es sample_entries (rep_NoDup _ _ _ _ Hrep) Hp).
Qed.
Lemma sample_listing_ok : is_ok sample_listing.1 = true.
Proof. vm_compute. reflexivity. Qed.
Lemma sample_listing_eq :
  list_command id sample_spawn sample_import sample_walk (λ _, false) (λ _ _, "") (λ _ _, "") sample_list_options 0 sample_client
    sample_session = (Ok tt, sample_listing.2).
Proof. fold sample_listing. pose proof sample_listing_ok as Hok. revert Hok. generalize sample_listing. by intros [[[]|] s']. Qed.
#[local] Opaque sample_listing.

Lemma list_prints_trees_witness :
  ss_open sample_listing.2 = false ∧ ∃ visited l,
    visited.*1 = [0%N] ∧ printed l = length (rows_of sample_walk visited) ∧
    take (S (printed l)) (stdout sample_listing.2) =
      text_line ("partition" +:+ tab +:+ "key" +:+ tab +:+ "content_code") :: (row_line <$> rows_of sample_walk visited).
Proof.
  pose proof sample_blobs_cf as Hcf.
  destruct (list_prints_trees (St:=MemoryBlobStore) (written sample_blobs) id sample_spawn sample_import sample_walk (λ _, false)
    (λ _ _, "") (λ _ _, "") sample_list_options (contents sample_blobs) 0 sample_client sample_session sample_opened sample_listing.2
    sample_blobs_ok sample_walk_real eq_refl eq_refl sample_open_eq sample_listing_eq)
    as (Hopen & visited & k & l & _ & _ & Hout & Hk & _ & _ & Hall & _).
  destruct (Hall eq_refl eq_refl) as [Hv Hkl]. split; [exact Hopen|]. exists visited, l. split_and!.
  - exact Hv.
  - by rewrite <-Hk, Hkl.
  - rewrite Hout, sample_opened_silent, <-Hk, Hkl, firstn_all. cbn [app take]. f_equal.
    by rewrite take_app_le, firstn_all2 by (by rewrite length_fmap).
Defined.
