(* ===== verification/Startup.v ===== *)
(** How a process starts: the key files of
    [crates/registry-node/src/identity.rs] and [crates/registryd/src/node_setup.rs],
    and the one-shot commands of [crates/registryd/src/main.rs].

    A key file is missing, cannot be read for another reason, or has
    contents.  Whether its directory can be made and the file be written are
    parameters; so are the random bytes.  [iroh::SecretKey] is the class
    [SecretKeys]. *)

From stdpp Require Import functions.
From S2P Require Import Prelude Hash Partition Record BlobStore Hamt Iscc CidKey Anyhow Index PointerDoc Daemon Files Publisher Api Config BulkLoad Verify Viewer Storectl.

Class SecretKeys := {
  SecretKey : Type;
  key_from_bytes : bytes32 → SecretKey;
  key_to_bytes : SecretKey → bytes32;
}.

(** Documented: the bytes of a key are read back as that key. *)
Class SecretKeysLaws `{SecretKeys} := { key_roundtrip k : key_from_bytes (key_to_bytes k) = k }.

Inductive FileState := Missing | Unreadable | Contents (bytes : list byte).

Section keys.
Context `{SecretKeys} `{SocketAddrs}.
Context (dir_ok writable : string → bool).

(** A task that only uses key files. *)
#[local] Abbreviation keys := (io (string → FileState) anyhow).

Definition create_dir_all (path : string) : keys unit :=
  λ fs, (if dir_ok path then Ok tt else Err (EIo "could not create the directory"), fs).
Definition write_key (path : string) (bytes : list byte) : keys unit :=
  λ fs, if writable path then (Ok tt, <[path := Contents bytes]> fs) else (Err (EIo "could not write"), fs).

(** [load_or_generate_secret_key], with what [SecretKey::generate] returns *)
Definition load_or_generate_secret_key (generated : SecretKey) (path : string) : keys SecretKey :=
  λ fs, match fs path with
        | Contents bytes =>
            (result_map key_from_bytes (ok_or (EBail ("secret key file at " +:+ path +:+ " is not 32 bytes")%stdpp) (to_b32 bytes)), fs)
        | _ =>
            (_ ← create_dir_all path;
             _ ← write_key path (b32_list (key_to_bytes generated));
             mret generated) fs
        end.

(** [load_secret_key_bytes] *)
Definition load_secret_key_bytes (path : string) (bytes : bytes32) : keys SecretKey :=
  _ ← create_dir_all path;
  _ ← write_key path (b32_list bytes);
  mret (key_from_bytes bytes).

(** [load_or_generate_bytes], with the bytes [OsRng] fills in *)
Definition load_or_generate_bytes (random : bytes32) (path : string) : keys bytes32 :=
  λ fs, match fs path with
        | Contents bytes => (ok_or (EBail ("key file at " +:+ path +:+ " is not 32 bytes")%stdpp) (to_b32 bytes), fs)
        | _ =>
            (_ ← create_dir_all path;
             _ ← write_key path (b32_list random);
             mret random) fs
        end.

(** The keys [open_node] starts the node with. *)
Record NodeKeys := mkNodeKeys {
  nk_node : SecretKey;
  nk_namespace : bytes32;
  nk_author : bytes32;
}.
Definition node_key_path (cfg : Config) : string := path_join (secrets_dir cfg) "node-secret-key".
Definition namespace_path (cfg : Config) : string := path_join (secrets_dir cfg) "namespace-secret".
Definition author_path (cfg : Config) : string := path_join (secrets_dir cfg) "author-secret".
Definition open_keys (fresh : NodeKeys) (cfg : Config) : keys NodeKeys :=
  node_key ← load_or_generate_secret_key (nk_node fresh) (node_key_path cfg);
  namespace ← load_or_generate_bytes (nk_namespace fresh) (namespace_path cfg);
  author ← load_or_generate_bytes (nk_author fresh) (author_path cfg);
  mret (mkNodeKeys node_key namespace author).

(** [storectl identity] prints the public half of the key. *)
Definition identity_path (cfg : ResolvedConfig) : string := path_join (rc_storage_dir cfg) "identity".
Definition identity_command (generated : SecretKey) (public : SecretKey → string) (cfg : ResolvedConfig) : keys string :=
  secret_key ← load_or_generate_secret_key generated (identity_path cfg);
  mret (public secret_key).
End keys.

(** ** The commands of [registryd] *)

(** [Command], without [run] and [config] *)
Inductive Command :=
| CmdVerify (partition : option N) (fix_gaps : bool)
| CmdBulkIngest (dump spill_dir : string) (skip limit : N)
| CmdBulkBuild (spill_dir : string)
| CmdRetimestamp (dump spill_dir : string)
| CmdSetRoot (partition : N) (hash : string).

(** The exit code of [verify] for its report. *)
Definition verify_exit (report : VerifyReport) : N :=
  if (0 <? missing_total report)%N && (requeued_total report <? missing_total report)%N then 1 else 0.

Definition verify_line (report : VerifyReport) : string :=
  "verify: " +:+ decimal (partitions_checked report) +:+ " partitions checked, " +:+ decimal (expected_total report)
  +:+ " expected records, " +:+ decimal (in_tree_total report) +:+ " in trees, " +:+ decimal (missing_total report)
  +:+ " missing, " +:+ decimal (foreign_total report) +:+ " foreign, " +:+ decimal (requeued_total report) +:+ " requeued".

(** What [config] prints. *)
Definition config_lines `{SocketAddrs} (addr_text : SocketAddr → string) (cfg : Config) : list string :=
  ["bind_addr            = " +:+ addr_text (cfg_bind_addr cfg);
   "data_dir             = " +:+ cfg_data_dir cfg;
   "api_tokens           = " +:+ decimal (N.of_nat (length (cfg_api_tokens cfg))) +:+ " configured";
   "max_value_bytes      = " +:+ decimal (cfg_max_value_bytes cfg);
   "batch_max_records    = " +:+ decimal (cfg_batch_max_records cfg);
   "publish_max_pending  = " +:+ decimal (cfg_publish_max_pending cfg);
   "publish_interval     = " +:+ decimal (cfg_publish_interval_secs cfg) +:+ "s";
   "top_level_partitions = " +:+ decimal (cfg_top_level_partitions cfg);
   "leaf_max_entries     = " +:+ decimal (cfg_leaf_max_entries cfg);
   "gc_interval          = " +:+ decimal (cfg_gc_interval_secs cfg) +:+ "s";
   "denylist_path        = " +:+ default "(none)" (cfg_denylist_path cfg)].

Section commands.
Context `{Blake3} `{Hex} `{Sha256} `{CidCrate} `{Base32} `{SerdeJson} `{Timestamps} `{SocketAddrs} `{DumpFormat}.
Context `{!Codec LeafEntry, !Codec IndexRecord} {St Dc : Type} `{!BlobStore St, !IrohDocs St Dc}.
Context (writable : string → bool) (set_order : gset string → list string) (cfg : Config) (doc : PointerDoc St Dc).

(** The dispatch of [main]: the command's exit code. *)
Definition run_command (command : Command) : io (World St Dc) anyhow N :=
  match command with
  | CmdVerify partition fix_gaps =>
      report ← verify writable set_order cfg partition fix_gaps;
      mret (verify_exit report)
  | CmdBulkIngest dump spill_dir skip limit => _ ← ingest writable cfg dump spill_dir skip limit; mret 0%N
  | CmdBulkBuild spill_dir => _ ← build_trees cfg doc spill_dir; mret 0%N
  | CmdRetimestamp dump spill_dir => _ ← retimestamp writable cfg doc dump spill_dir; mret 0%N
  | CmdSetRoot partition hash => _ ← set_root doc partition hash; mret 0%N
  end.
End commands.
