(* ===== verification/Node.v ===== *)
(** The node and the daemon's life: [crates/registry-node/src/node.rs],
    [open_node] of [crates/registryd/src/node_setup.rs] and [run] of
    [crates/registryd/src/main.rs].

    The endpoint, the protocols and the stores are iroh's: the class [Iroh]
    has one method per call the code makes, on a state [R] of the machine
    that no theorem looks into.  [run] is over the [World] of the daemon:
    while its publisher runs, the HTTP handlers are the other tasks of
    [World]. *)

From S2P Require Import Prelude Hash Partition Record BlobStore Hamt Iscc Similarity IsccStore CidKey Anyhow Index PointerDoc Daemon Files Gc Publisher Api Config BulkLoad Verify Startup.

Class Iroh `{SecretKeys} (GcConf R : Type) := {
  Endpoint : Type;
  BlobsStore : Type;
  Gossip : Type;
  Docs : Type;
  Router : Type;
  Doc : Type;
  EndpointId : Type;
  NamespaceId : Type;
  iroh_author : Type;
  make_dirs : string → io R anyhow unit;
  (** [FsStore::load_with_opts], with the options' path *)
  fs_store_load : string → string → option GcConf → io R anyhow BlobsStore;
  mem_store_new : R → BlobsStore * R;
  endpoint_bind : SecretKey → io R anyhow Endpoint;
  gossip_spawn : Endpoint → R → Gossip * R;
  docs_persistent : string → Endpoint → BlobsStore → Gossip → io R anyhow Docs;
  docs_memory : Endpoint → BlobsStore → Gossip → io R anyhow Docs;
  router_spawn : Endpoint → BlobsStore → Gossip → Docs → R → Router * R;
  store_sync_db : BlobsStore → io R anyhow unit;
  router_shutdown : Router → io R anyhow unit;
  store_shutdown : BlobsStore → io R anyhow unit;
  author_from_bytes : bytes32 → iroh_author;
  author_import : Docs → iroh_author → io R anyhow unit;
  import_namespace : Docs → bytes32 → io R anyhow Doc;
  doc_start_sync : Doc → io R anyhow unit;
  share_read : Doc → io R anyhow string;
  id_of_endpoint : Endpoint → EndpointId;
  id_text : EndpointId → string;
  id_of_doc : Doc → NamespaceId;
}.

(** Documented: an endpoint's identity is the public half of its secret key,
    a document's that of its namespace secret. *)
Class IrohLaws `{Iroh GcConf R} := {
  public_key : SecretKey → EndpointId;
  namespace_id : bytes32 → NamespaceId;
  endpoint_bind_id k r e r' : endpoint_bind k r = (Ok e, r') → id_of_endpoint e = public_key k;
  import_namespace_id ds b r d r' : import_namespace ds b r = (Ok d, r') → id_of_doc d = namespace_id b;
}.

Definition infallible {R E A} (m : R → A * R) : io R E A := λ r, match m r with (a, r') => (Ok a, r') end.

Section node.
Context `{Iroh GcConf R}.

Record RegistryNode := mkRegistryNode {
  rn_endpoint : Endpoint;
  rn_blobs_store : BlobsStore;
  rn_docs : Docs;
  rn_router : Router;
}.

(** [RegistryNode::spawn_with_store] *)
Definition spawn_with_store (secret_key : SecretKey) (blobs_store : BlobsStore) (docs_store_path : option string)
    : io R anyhow RegistryNode :=
  endpoint ← endpoint_bind secret_key;
  gossip ← infallible (gossip_spawn endpoint);
  docs ← match docs_store_path with
         | Some dir => docs_persistent dir endpoint blobs_store gossip
         | None => docs_memory endpoint blobs_store gossip
         end;
  router ← infallible (router_spawn endpoint blobs_store gossip docs);
  mret (mkRegistryNode endpoint blobs_store docs router).

(** [RegistryNode::spawn_persistent_with_gc] *)
Definition spawn_persistent_with_gc (secret_key : SecretKey) (blob_store_path docs_store_path : string) (gc : option GcConf)
    : io R anyhow RegistryNode :=
  _ ← make_dirs docs_store_path;
  _ ← make_dirs blob_store_path;
  blobs_store ← fs_store_load (path_join blob_store_path "blobs.db") blob_store_path gc;
  spawn_with_store secret_key blobs_store (Some docs_store_path).

(** [RegistryNode::spawn_persistent] *)
Definition spawn_persistent (secret_key : SecretKey) (blob_store_path docs_store_path : string) : io R anyhow RegistryNode :=
  spawn_persistent_with_gc secret_key blob_store_path docs_store_path None.

(** [RegistryNode::spawn_ephemeral] *)
Definition spawn_ephemeral (secret_key : SecretKey) : io R anyhow RegistryNode :=
  blobs_store ← infallible mem_store_new;
  spawn_with_store secret_key blobs_store None.

(** [RegistryNode::shutdown] *)
Definition node_shutdown (node : RegistryNode) : io R anyhow unit :=
  _ ← store_sync_db (rn_blobs_store node);
  _ ← router_shutdown (rn_router node);
  _ ← io_try (F:=anyhow) (store_shutdown (rn_blobs_store node));
  mret tt.

(** ** [open_node] *)

Context `{SocketAddrs}.
Context (dir_ok writable : string → bool).

(** The pointer document is [on_doc], written as [on_author]; the blob store
    is the node's in its local-only view. *)
Record OpenedNode := mkOpenedNode {
  on_node_handle : RegistryNode;
  on_doc : Doc;
  on_author : iroh_author;
}.

Definition open_node (fresh : NodeKeys) (cfg : Config) (gc : option GcConf)
    : io ((string → FileState) * R) anyhow OpenedNode :=
  ks ← on_fst (open_keys dir_ok writable fresh cfg);
  node ← on_snd (spawn_persistent_with_gc (nk_node ks) (blob_store_path cfg) (docs_store_path cfg) gc);
  let author := author_from_bytes (nk_author ks) in
  _ ← on_snd (author_import (rn_docs node) author);
  doc ← on_snd (import_namespace (rn_docs node) (nk_namespace ks));
  _ ← on_snd (doc_start_sync doc);
  mret (mkOpenedNode node doc author).
End node.
Arguments RegistryNode {_} GcConf R {_}.
Arguments OpenedNode {_} GcConf R {_}.

(** ** [run] *)

Section run.
Context `{Blake3} `{Sha256} `{SecretKeys} `{SocketAddrs} `{!Codec LeafEntry, !Codec IndexRecord}.
Context `{!Codec DirectoryV2, !Codec BucketManifest, !Codec (list IsccMember), !Codec (gmap string Hash)}.
Context {St Dc : Type} `{!BlobStore St, !IrohDocs St Dc, !Iroh (GcConfig (St:=St) (Dc:=Dc)) (World St Dc)}.
Context (dir_ok writable : string → bool) (hash_order : gmap N Hash → list (N * Hash)) (fuel : nat).

(** The author under which the document's entries are signed. *)
Context (author_handle : iroh_author → AuthorId (St:=St) (Dc:=Dc)).

Definition with_sources (sources : option GcSources) (w : World St Dc) : World St Dc :=
  mkWorld (w_index w) (w_node w) (w_active_writes w) sources (w_status w) (w_now w) (w_files w) (w_env w).

(** [run]: [opened] is what opening the index file comes to, [listen] binds
    the address, [served] is how the server ends.  The server and the
    publisher run at the same time: the handlers are the other tasks of the
    publisher's world. *)
Definition run (fresh : NodeKeys) (opened : result anyhow unit) (listen : SocketAddr → io (World St Dc) anyhow unit)
    (served : result anyhow unit) (clock : N) (ticks : list (N * bool)) (cfg : Config)
    : io ((string → FileState) * World St Dc) anyhow AppState :=
  _ ← io_lift (run_guard cfg);
  _ ← io_lift opened;
  opened ← open_node dir_ok writable fresh cfg (Gc.config hash_order fuel (cfg_gc_interval_secs cfg));
  _ ← on_snd (modify (with_sources (Some (gc_sources_of cfg))));
  ticket ← on_snd (share_read (on_doc opened));
  _ ← on_fst (write_key writable (ticket_path cfg) (str_bytes ticket));
  let state := app_state_of cfg ticket (id_text (id_of_endpoint (rn_endpoint (on_node_handle opened)))) in
  _ ← on_snd (listen (cfg_bind_addr cfg));
  _ ← on_snd (Publisher.run (publisher_of cfg (mkPointerDoc (Some (author_handle (on_author opened))))) clock ticks);
  _ ← io_lift served;
  _ ← on_snd (node_shutdown (on_node_handle opened));
  mret state.
End run.
