(* ===== verification/Client.v ===== *)
(** The command line of the client, [crates/storectl/src/main.rs], and the
    start of the viewer, [main] of [crates/registry-viewer/src/main.rs]: what
    it makes of its arguments and its environment. *)

From S2P Require Import Prelude Hash Partition Record BlobStore Hamt HamtWalk Iscc Similarity IsccStore CidKey Anyhow Index PointerDoc Files Api Config Viewer Verify Storectl Startup.

(** [Command], its arguments parsed *)
Inductive Command :=
| Get (cid : string) (out : option string) (ephemeral : bool)
| Watch
| Similar (query : string) (radius probe : option N) (fetch : bool)
| List (options : ListOptions)
| Seed (shards : list string)
| Status
| ComposeTicket (add : list string) (strip : bool)
| Identity
| PrintConfig.

(** [Command::List] with its defaults *)
Definition List_default : Command :=
  List (mkListOptions None 100 300 None false false false false 25 2000).

(** What the machine and the network do while a command runs: the
    parameters of the commands. *)
Record Surroundings (St Dc : Type) `{SecretKeys} := mkSurroundings {
  su_polls : nat;
  su_walk : N → Hash → WalkOutcome;
  su_value_late : LeafEntry → bool;
  su_percent_text : N → N → string;
  su_average_text : N → N → string;
  su_passes : nat;
  su_cuts : N → N → option (St → St);
  su_blobs : Entry;
  su_events : list (result string string);
  su_generated : SecretKey;
  su_public : SecretKey → string;
}.
Arguments su_polls {St Dc _}.
Arguments su_walk {St Dc _}.
Arguments su_value_late {St Dc _}.
Arguments su_percent_text {St Dc _}.
Arguments su_average_text {St Dc _}.
Arguments su_passes {St Dc _}.
Arguments su_cuts {St Dc _}.
Arguments su_blobs {St Dc _}.
Arguments su_events {St Dc _}.
Arguments su_generated {St Dc _}.
Arguments su_public {St Dc _}.

Section client.
Context `{Blake3} `{Hex} `{Sha256} `{Base32} `{SerdeJson} `{Texts} `{ViewerTexts} `{Tickets} `{SecretKeys}.
Context `{!Codec LeafEntry, !Codec DirectoryV2, !Codec BucketManifest, !Codec (list IsccMember), !Codec (gmap string Hash)}.
Context {St Dc : Type} `{!BlobStore St, !IrohDocs St Dc}.
Context (dir_ok writable : string → bool) (background : St * Dc → St * Dc).
Context (spawn_node : bool → ResolvedConfig → io (Session St Dc) anyhow string)
  (import_doc : DocTicket → io (Session St Dc) anyhow unit).
Context (config_dir data_local_dir : option string) (config_file_from_str : string → result string ConfigFile)
  (DEFAULT_TICKET : string).
Context (around : Surroundings St Dc) (env : Env).

(** The dispatch of [main]. *)
Definition dispatch (cfg : ResolvedConfig) (command : Command) : io ((string → FileState) * Session St Dc) anyhow unit :=
  match command with
  | Get cid out ephemeral =>
      on_snd (get_command writable background spawn_node import_doc (su_polls around) cfg cid out ephemeral)
  | Watch => on_snd (watch_command spawn_node import_doc cfg (su_events around))
  | Identity =>
      public ← on_fst (identity_command dir_ok writable (su_generated around) (su_public around) cfg);
      on_snd (println public)
  | List options =>
      on_snd (list_command background spawn_node import_doc (su_walk around) (su_value_late around) (su_percent_text around)
                (su_average_text around) options (su_polls around) cfg)
  | Similar query radius probe fetch =>
      on_snd (similar_command background spawn_node import_doc env (su_polls around) cfg query radius probe fetch)
  | Seed shards => on_snd (seed_command background spawn_node import_doc (su_passes around) cfg shards (su_cuts around))
  | Status => on_snd (status_command background spawn_node import_doc cfg (su_blobs around))
  | ComposeTicket add strip => on_snd (compose_ticket cfg add strip)
  | PrintConfig => on_snd (print_config cfg)
  end.

(** [main], after the arguments were parsed *)
Definition client_main (ticket storage_dir : option string) (command : Command)
    : io ((string → FileState) * Session St Dc) anyhow unit :=
  λ s, (cfg ← io_lift (resolve config_dir data_local_dir config_file_from_str DEFAULT_TICKET env (ss_files s.2) ticket storage_dir);
        dispatch cfg command) s.
End client.

(** ** The viewer *)

(** [Cli], its arguments parsed, with its defaults *)
Record ViewerCli := mkViewerCli {
  vc_ticket : option string;
  vc_ticket_url : option string;
  vc_bind : string;
  vc_storage_dir : option string;
  vc_ephemeral : bool;
  vc_warm_values : bool;
  vc_sync_mode : SyncMode;
}.
Definition ViewerCli_default : ViewerCli := mkViewerCli None None "127.0.0.1:8090" None false false Auto.

(** An environment variable that is set and not blank. *)
Definition non_blank (env : Env) (key : string) : option string :=
  v ← env key; if decide (trim_str v = "") then None else Some v.

(** The ticket of the flag, or the one fetched from the URL with the name of
    that source. *)
Definition viewer_ticket (exchange : string → string → result string string) (cli : ViewerCli)
    : result anyhow (option string * option string) :=
  match vc_ticket cli, vc_ticket_url cli with
  | Some ticket, _ => Ok (Some ticket, None)
  | None, Some url =>
      ticket ← result_map_err EBail (fetch_ticket exchange url);
      Ok (Some ticket, Some "--ticket-url")
  | None, None => Ok (None, None)
  end.

(** The settings [main] makes the viewer's state from; the node's identity
    and the time are those after the node was spawned. *)
Definition viewer_settings `{Tickets} (config_dir data_local_dir : option string)
    (config_file_from_str : string → result string ConfigFile) (DEFAULT_TICKET : string)
    (exchange : string → string → result string string) (env : Env) (files : string → option string)
    (cli : ViewerCli) (endpoint_id : string) (started_at : DateTime) : result anyhow Settings :=
  let storage_dir := match vc_storage_dir cli with
                     | Some d => Some d
                     | None => Some (viewer_storage_default data_local_dir)
                     end in
  cli_ticket ← viewer_ticket exchange cli;
  cfg ← resolve config_dir data_local_dir config_file_from_str DEFAULT_TICKET env files cli_ticket.1 storage_dir;
  ticket ← parse_ticket (rc_read_ticket cfg);
  Ok (mkSettings (rc_storage_dir cfg) endpoint_id (default (rc_read_ticket_source cfg) cli_ticket.2) (rc_read_ticket cfg)
        (N.of_nat (length (ticket_nodes ticket))) (rc_top_level_partitions cfg) (vc_warm_values cli) (vc_sync_mode cli)
        started_at (non_blank env "COMMONSDB_API_KEY")
        (default "https://api.commonsdb.org/v1/metadata/" (non_blank env "COMMONSDB_METADATA_URL"))).
