(* ===== verification/StartupSpec.v ===== *)
(** What a process finds again when it starts. *)

From stdpp Require Import functions.
From S2P Require Import Prelude Hash Partition Record BlobStore Hamt Samples Iscc CidKey Anyhow Index PointerDoc Daemon Files Publisher Api Config BulkLoad BulkFacts BulkSpec Verify Viewer Storectl Startup Node Client.

Section keys.
Context `{SecretKeysLaws} `{SocketAddrs}.
Context (dir_ok writable : string → bool) (cfg : Config).

Definition key_paths : list string := [node_key_path cfg; namespace_path cfg; author_path cfg].

Lemma key_paths_distinct : NoDup key_paths.
Proof.
  unfold key_paths, node_key_path, namespace_path, author_path.
  repeat constructor; rewrite ?elem_of_cons, ?elem_of_nil; intros Hin;
    repeat (destruct Hin as [Hin|Hin]; [by apply path_join_inj in Hin|]); done.
Qed.

Lemma not_elem_of_cons_3 {A} (x a b c : A) : x ∉ [a; b; c] → x ≠ a ∧ x ≠ b ∧ x ≠ c ∧ True.
Proof. rewrite !not_elem_of_cons. naive_solver. Qed.

(** What a file holds after it was read or made. *)
Definition kept (fresh : list byte) (f : FileState) : FileState :=
  match f with Contents bytes => Contents bytes | _ => Contents fresh end.

(** One file: what it holds is what was there, or the fresh bytes. *)
Definition loaded (fresh : list byte) (path : string) (fs fs' : string → FileState) (k : bytes32) : Prop :=
  kept fresh (fs path) = Contents (b32_list k) ∧ fs' path = Contents (b32_list k) ∧ ∀ q, q ≠ path → fs' q = fs q.

Lemma create_run {A} (a r : A) fresh path fs fs' :
  (_ ← create_dir_all dir_ok path; _ ← write_key writable path fresh; mret a) fs = (Ok r, fs') →
  r = a ∧ fs' = <[path := Contents fresh]> fs.
Proof.
  intros Hr. apply io_bind_ok in Hr as ([] & fs1 & Hd & Hr). unfold create_dir_all in Hd. destruct (dir_ok path); [|done].
  injection Hd as <-. apply io_bind_ok in Hr as ([] & fs2 & Hw & Hr). unfold write_key in Hw.
  destruct (writable path); [|done]. injection Hw as <-. by injection Hr as <- <-.
Qed.

Lemma loaded_fresh path fs k : (∀ bytes, fs path ≠ Contents bytes) →
  loaded (b32_list k) path fs (<[path := Contents (b32_list k)]> fs) k.
Proof.
  intros Hfs. split_and!; [|apply fn_lookup_insert|intros q Hq; by apply fn_lookup_insert_ne].
  unfold kept. destruct (fs path) as [| |bytes]; [done..|by destruct (Hfs bytes)].
Qed.
Lemma loaded_kept fresh path fs k : fs path = Contents (b32_list k) → loaded fresh path fs fs k.
Proof. intros Hfs. split_and!; [by rewrite Hfs|done|done]. Qed.

Lemma load_bytes_run fresh path fs k fs' : load_or_generate_bytes dir_ok writable fresh path fs = (Ok k, fs') →
  loaded (b32_list fresh) path fs fs' k.
Proof.
  unfold load_or_generate_bytes. destruct (fs path) as [| |bytes] eqn:E; intros Hr.
  1,2: apply create_run in Hr as [-> ->]; apply loaded_fresh; by rewrite E.
  injection Hr as Hr <-. destruct (to_b32 bytes) as [b|] eqn:Eb; [|done]. injection Hr as <-.
  apply to_b32_Some in Eb as <-. by apply loaded_kept.
Qed.
Lemma load_bytes_again fresh path fs k : fs path = Contents (b32_list k) →
  load_or_generate_bytes dir_ok writable fresh path fs = (Ok k, fs).
Proof. unfold load_or_generate_bytes. intros ->. by rewrite to_b32_list. Qed.

Lemma load_key_run fresh path fs k fs' : load_or_generate_secret_key dir_ok writable fresh path fs = (Ok k, fs') →
  ∃ b, k = key_from_bytes b ∧ loaded (b32_list (key_to_bytes fresh)) path fs fs' b.
Proof.
  unfold load_or_generate_secret_key. destruct (fs path) as [| |bytes] eqn:E; intros Hr.
  1,2: apply create_run in Hr as [-> ->]; exists (key_to_bytes fresh); rewrite key_roundtrip; split; [done|];
    apply loaded_fresh; by rewrite E.
  injection Hr as Hr <-. destruct (to_b32 bytes) as [b|] eqn:Eb; [|done]. injection Hr as <-.
  apply to_b32_Some in Eb as <-. exists b. split; [done|]. by apply loaded_kept.
Qed.
Lemma load_key_again fresh path fs b : fs path = Contents (b32_list b) →
  load_or_generate_secret_key dir_ok writable fresh path fs = (Ok (key_from_bytes b), fs).
Proof. unfold load_or_generate_secret_key. intros ->. by rewrite to_b32_list. Qed.

(** Once a start has got its three keys, every later start on key files
    with the same contents gets the same three and changes nothing, whatever
    random bytes it would draw. *)
Lemma keys_stable fresh fs ks fs' : open_keys dir_ok writable fresh cfg fs = (Ok ks, fs') →
  (∀ fresh' fs2, (∀ path, path ∈ key_paths → fs2 path = fs' path) →
     open_keys dir_ok writable fresh' cfg fs2 = (Ok ks, fs2)) ∧
  (∀ path bytes, fs path = Contents bytes → fs' path = Contents bytes) ∧
  (∀ path, path ∉ key_paths → fs' path = fs path) ∧
  (∀ path, path ∈ key_paths → fs path = Unreadable → fs' path ∈ (λ b, Contents (b32_list b)) <$>
     [key_to_bytes (nk_node fresh); nk_namespace fresh; nk_author fresh]).
Proof.
  pose proof key_paths_distinct as Hnd. unfold key_paths in *.
  apply NoDup_cons in Hnd as [Hn1 [Hn2 _]%NoDup_cons].
  apply not_elem_of_cons in Hn1 as [Hn12 [Hn13 _]%not_elem_of_cons]. apply not_elem_of_cons in Hn2 as [Hn23 _].
  intros Hr. unfold open_keys in Hr. apply io_bind_ok in Hr as (k1 & fs1 & Hk1 & Hr).
  apply io_bind_ok in Hr as (k2 & fs2 & Hk2 & Hr). apply io_bind_ok in Hr as (k3 & fs3 & Hk3 & Hr). injection Hr as <- <-.
  apply load_key_run in Hk1 as (b1 & -> & Hk1 & Hf1 & Ho1). apply load_bytes_run in Hk2 as (Hk2 & Hf2 & Ho2), Hk3 as (Hk3 & Hf3 & Ho3).
  rewrite (Ho1 _ (not_eq_sym Hn12)) in Hk2. rewrite (Ho2 _ (not_eq_sym Hn23)), (Ho1 _ (not_eq_sym Hn13)) in Hk3.
  assert (fs3 (node_key_path cfg) = Contents (b32_list b1)) as Hfa by by rewrite Ho3, Ho2.
  assert (fs3 (namespace_path cfg) = Contents (b32_list k2)) as Hfb by by rewrite Ho3.
  assert (∀ path, path ∉ [node_key_path cfg; namespace_path cfg; author_path cfg] → fs3 path = fs path) as Hother.
  { intros path (? & ? & ? & _)%not_elem_of_cons_3. by rewrite Ho3, Ho2, Ho1. }
  split_and!.
  - intros fresh' fs4 Hsame. unfold open_keys.
    erewrite io_bind_run by (apply load_key_again; rewrite Hsame by (rewrite !elem_of_cons; auto); exact Hfa).
    erewrite io_bind_run by (apply load_bytes_again; rewrite Hsame by (rewrite !elem_of_cons; auto); exact Hfb).
    by erewrite io_bind_run by (apply load_bytes_again; rewrite Hsame by (rewrite !elem_of_cons; auto); exact Hf3).
  - intros path bytes Hp. destruct (decide (path ∈ [node_key_path cfg; namespace_path cfg; author_path cfg])) as [Hin|Hout].
    + rewrite !elem_of_cons, elem_of_nil in Hin. destruct Hin as [->|[->|[->|[]]]].
      * rewrite Hp in Hk1. injection Hk1 as ->. done.
      * rewrite Hp in Hk2. injection Hk2 as ->. done.
      * rewrite Hp in Hk3. injection Hk3 as ->. done.
    + by rewrite Hother.
  - exact Hother.
  - intros path Hin Hp. rewrite !elem_of_cons, elem_of_nil in Hin. rewrite !fmap_cons, !elem_of_cons.
    destruct Hin as [->|[->|[->|[]]]].
    + rewrite Hp in Hk1. left. rewrite Hfa. by injection Hk1 as ->.
    + rewrite Hp in Hk2. right. left. rewrite Hfb. by injection Hk2 as ->.
    + rewrite Hp in Hk3. right. right. left. rewrite Hf3. by injection Hk3 as ->.
Qed.
End keys.

(** ** The node *)

Section node.
Context `{IrohLaws GcConf R} `{!SecretKeysLaws, !SocketAddrs}.
Context (dir_ok writable : string → bool).

Definition node_id (opened : OpenedNode GcConf R) : EndpointId := id_of_endpoint (rn_endpoint (on_node_handle opened)).
Definition document_id (opened : OpenedNode GcConf R) : NamespaceId := id_of_doc (on_doc opened).

Lemma spawn_id k bs docs gc r node r' : spawn_persistent_with_gc (GcConf:=GcConf) k bs docs gc r = (Ok node, r') →
  id_of_endpoint (rn_endpoint node) = public_key k.
Proof.
  intros Hr. unfold spawn_persistent_with_gc, spawn_with_store in Hr.
  apply io_bind_ok in Hr as ([] & r1 & _ & Hr). apply io_bind_ok in Hr as ([] & r2 & _ & Hr).
  apply io_bind_ok in Hr as (st & r3 & _ & Hr). apply io_bind_ok in Hr as (e & r4 & He & Hr).
  apply io_bind_ok in Hr as (g & r5 & _ & Hr). apply io_bind_ok in Hr as (ds & r6 & _ & Hr).
  apply io_bind_ok in Hr as (ro & r7 & _ & Hr). injection Hr as <- _. by eapply endpoint_bind_id.
Qed.

(** What a start opens is what its keys say. *)
Lemma open_node_keys fresh cfg gc fs r opened st : open_node dir_ok writable fresh cfg gc (fs, r) = (Ok opened, st) →
  ∃ ks, open_keys dir_ok writable fresh cfg fs = (Ok ks, st.1) ∧ node_id opened = public_key (nk_node ks) ∧
    document_id opened = namespace_id (nk_namespace ks) ∧ on_author opened = author_from_bytes (nk_author ks).
Proof.
  intros Hr. unfold open_node in Hr. apply io_bind_ok in Hr as (ks & [fs1 r1] & Hks & Hr).
  apply on_fst_run in Hks as (fs2 & Hks & [= -> ->]).
  apply io_bind_ok in Hr as (node & [fs3 r3] & Hn & Hr). apply on_snd_run in Hn as (r4 & Hn & [= -> ->]). apply spawn_id in Hn.
  apply io_bind_ok in Hr as ([] & [fs5 r5] & Ha & Hr). apply on_snd_run in Ha as (r6 & _ & [= -> ->]).
  apply io_bind_ok in Hr as (doc & [fs7 r7] & Hd & Hr). apply on_snd_run in Hd as (r8 & Hd & [= -> ->]). apply import_namespace_id in Hd.
  apply io_bind_ok in Hr as ([] & [fs9 r9] & Hs & Hr). apply on_snd_run in Hs as (r10 & _ & [= -> ->]). injection Hr as <- <-.
  by exists ks.
Qed.

(** C13: A restart keeps the node's identity.  Once a start has opened the
    node, every later start that finds the key files as it left them opens a
    node with the same identity, the same root document, so that every read
    ticket stays valid, and the same author, and changes no file, whatever
    random bytes it would draw and whatever became of the rest of the
    machine.  A key file that holds 32 bytes is used as it is and never
    written, and no other file is touched; but a file that exists and cannot
    be read is treated like a missing one: it is overwritten with a fresh
    key. *)
Theorem restart_keeps_identity fresh cfg gc fs r opened fs' r' :
  open_node dir_ok writable fresh cfg gc (fs, r) = (Ok opened, (fs', r')) →
  (∀ fresh2 gc2 fs2 r2 opened2 st2, (∀ path, path ∈ key_paths cfg → fs2 path = fs' path) →
     open_node dir_ok writable fresh2 cfg gc2 (fs2, r2) = (Ok opened2, st2) →
     node_id opened2 = node_id opened ∧ document_id opened2 = document_id opened ∧
     on_author opened2 = on_author opened ∧ st2.1 = fs2) ∧
  (∀ path bytes, fs path = Contents bytes → fs' path = Contents bytes) ∧
  (∀ path, path ∉ key_paths cfg → fs' path = fs path) ∧
  (∀ path, path ∈ key_paths cfg → fs path = Unreadable → fs' path ∈ (λ b, Contents (b32_list b)) <$>
     [key_to_bytes (nk_node fresh); nk_namespace fresh; nk_author fresh]).
Proof.
  intros (ks & Hks & Hi & Hd & Ha)%open_node_keys. simpl in Hks.
  destruct (keys_stable _ _ _ _ _ _ _ Hks) as (Hagain & Hkept & Hother & Hlost). split_and!; [|done..].
  intros fresh2 gc2 fs2 r2 opened2 st2 Hsame (ks2 & Hks2 & Hi2 & Hd2 & Ha2)%open_node_keys.
  rewrite (Hagain fresh2 fs2 Hsame) in Hks2. injection Hks2 as <- <-. split_and!; [congruence..|done].
Qed.

(** [shutdown] leaves a flushed store, unless the flush fails; then it
    stops there. *)
Lemma shutdown_flushes (flushed : BlobsStore → R → Prop) (node : RegistryNode GcConf R) r res r' :
  (∀ b r r', store_sync_db b r = (Ok tt, r') → flushed b r') →
  (∀ ro b r x r', flushed b r → router_shutdown ro r = (x, r') → flushed b r') →
  (∀ b c r x r', flushed b r → store_shutdown c r = (x, r') → flushed b r') →
  node_shutdown node r = (res, r') →
  flushed (rn_blobs_store node) r' ∨ ∃ e, store_sync_db (rn_blobs_store node) r = (Err e, r') ∧ res = Err e.
Proof.
  intros Hsync Hro Hst Hr. unfold node_shutdown, io_try, mbind, io_bind in Hr.
  destruct (store_sync_db (rn_blobs_store node) r) as [[[]|e] r1] eqn:E1; [|injection Hr as <- <-; right; by exists e].
  apply Hsync in E1. left. destruct (router_shutdown (rn_router node) r1) as [[[]|e] r2] eqn:E2; last first.
  { injection Hr as _ <-. by eapply Hro. }
  destruct (store_shutdown (rn_blobs_store node) r2) as [x r3] eqn:E3. injection Hr as _ <-.
  eapply Hst; [|exact E3]. by eapply Hro.
Qed.
End node.

(** ** The viewer *)

(** Without [--storage-dir] the viewer's directory is its own, whatever the
    client's configuration says. *)
Lemma viewer_own_storage `{Tickets} config_dir data_local_dir cfs dt exchange env files cli id now s :
  vc_storage_dir cli = None →
  viewer_settings config_dir data_local_dir cfs dt exchange env files cli id now = Ok s →
  vw_storage_dir s = viewer_storage_default data_local_dir ∧ vw_storage_dir s ≠ default_storage_dir data_local_dir.
Proof.
  intros Hd Hs. unfold viewer_settings in Hs. rewrite Hd in Hs. destruct (viewer_ticket exchange cli) as [t|]; [|done].
  simpl in Hs. destruct (resolve _ _ _ _ _ _ _ _) as [cfg|] eqn:E; [|done]. simpl in Hs.
  destruct (parse_ticket _) as [tk|]; [|done]. injection Hs as <-. simpl.
  assert (rc_storage_dir cfg = viewer_storage_default data_local_dir) as ->.
  { unfold resolve in E. repeat (case_match; simplify_eq/=; try done). }
  split; [done|]. unfold viewer_storage_default, default_storage_dir. intros Heq. by apply path_join_inj in Heq.
Qed.

(** ** On a concrete machine *)

#[local] Existing Instance sample_sockets.
Definition sample_keys : SecretKeys := {| SecretKey := bytes32; key_from_bytes b := b; key_to_bytes k := k |}.
#[local] Existing Instance sample_keys.
#[local] Instance sample_keys_laws : SecretKeysLaws.
Proof. by split. Qed.

Definition same_byte (b : byte) : bytes32 := Bytes32 (replicate 32 b) I.
Definition sample_node_keys (b c d : byte) : NodeKeys := mkNodeKeys (same_byte b) (same_byte c) (same_byte d).

(** The node key is there, the namespace file cannot be read, the author
    file is missing. *)
Definition sample_disk : string → FileState :=
  <[node_key_path Config_default := Contents (b32_list (same_byte x01))]>
    (<[namespace_path Config_default := Unreadable]> (λ _, Missing)).
(** A machine that does nothing else. *)
Definition done_at {A} (a : A) : io unit anyhow A := mret a.
#[local] Instance sample_iroh : Iroh unit unit := {|
  Endpoint := bytes32; BlobsStore := unit; Gossip := unit; Docs := unit; Router := unit; Doc := bytes32;
  EndpointId := bytes32; NamespaceId := bytes32; iroh_author := bytes32;
  make_dirs _ := done_at tt; fs_store_load _ _ _ := done_at tt; mem_store_new r := (tt, r);
  endpoint_bind k := done_at k; gossip_spawn _ r := (tt, r); docs_persistent _ _ _ _ := done_at tt; docs_memory _ _ _ := done_at tt;
  router_spawn _ _ _ _ r := (tt, r); store_sync_db _ := done_at tt; router_shutdown _ := done_at tt; store_shutdown _ := done_at tt;
  author_from_bytes b := b; author_import _ _ := done_at tt; import_namespace _ b := done_at b; doc_start_sync _ := done_at tt;
  share_read _ := done_at ""; id_of_endpoint e := e; id_text _ := ""; id_of_doc d := d |}.
#[local] Instance sample_iroh_laws : IrohLaws (GcConf:=unit) (R:=unit).
Proof. exists (λ k, k) (λ b, b); [by intros k r e r' [= <-]|by intros ds b r d r' [= <-]]. Defined.

Definition sample_start (fresh : NodeKeys) (disk : string → FileState) : result anyhow (OpenedNode unit unit) * ((string → FileState) * unit) :=
  open_node (λ _, true) (λ _, true) fresh Config_default None (disk, tt).
Definition sample_disk_after : string → FileState := (sample_start (sample_node_keys x07 x08 x09) sample_disk).2.1.

Definition sample_booted : OpenedNode unit unit :=
  mkOpenedNode (GcConf:=unit) (R:=unit) (mkRegistryNode (GcConf:=unit) (R:=unit) (same_byte x01) tt tt tt) (same_byte x08) (same_byte x09).

Lemma restart_keeps_identity_witness : ∃ first second,
  (sample_start (sample_node_keys x07 x08 x09) sample_disk).1 = Ok first ∧
  (sample_start (sample_node_keys x0a x0b x0c) sample_disk_after).1 = Ok second ∧
  node_id second = node_id first ∧ document_id second = document_id first ∧
  sample_disk (namespace_path Config_default) = Unreadable ∧
  (∃ k, sample_disk_after (namespace_path Config_default) = Contents k) ∧ sample_disk_after "/etc/hosts" = Missing.
Proof.
  assert (open_node (λ _, true) (λ _, true) (sample_node_keys x07 x08 x09) Config_default (None : option unit) (sample_disk, tt)
    = (Ok sample_booted, (sample_disk_after, tt))) as Hfirst by reflexivity.
  assert (open_node (λ _, true) (λ _, true) (sample_node_keys x0a x0b x0c) Config_default (None : option unit)
    (sample_disk_after, tt) = (Ok sample_booted, (sample_disk_after, tt))) as Hsecond by reflexivity.
  destruct (restart_keeps_identity _ _ _ _ _ _ _ _ _ _ Hfirst) as (Hagain & _ & Hothers & Hlost).
  destruct (Hagain _ _ _ _ _ _ (λ _ _, eq_refl) Hsecond) as (Hn & Hd & _ & _).
  exists sample_booted, sample_booted. split_and!.
  - unfold sample_start. by rewrite Hfirst.
  - unfold sample_start. by rewrite Hsecond.
  - exact Hn.
  - exact Hd.
  - reflexivity.
  - specialize (Hlost (namespace_path Config_default) ltac:(apply (bool_decide_unpack _); vm_compute; exact I) eq_refl).
    apply list_elem_of_fmap in Hlost as (b & -> & _). by exists (b32_list b).
  - rewrite Hothers; [reflexivity|]. apply (bool_decide_unpack _). vm_compute. exact I.
Defined.
