(* ===== verification/SystemSpec.v ===== *)
(** The whole way of a record: accepted by the API, published by the
    publisher, delivered to a reader.

    The writer's side is the daemon's [World], the reader's a [Session] of
    the client on a store and a replica of its own; what links the two is
    that the replica's entry for the record's partition is the writer's. *)

From stdpp Require Import functions.
From S2P Require Import Prelude Hash Partition Record BlobStore Hamt HamtNodeFacts HamtFacts HamtSpec HamtWalk Samples Iscc Similarity IsccStore CidKey CodesSpec Anyhow Index IndexFacts IndexOps PointerDoc PointerDocFacts Daemon Files Hoare Publisher PublisherInv PublisherFacts PublisherSpec Api ApiFacts ApiSpec Config Viewer ViewerFacts Verify Storectl StorectlFacts StorectlSpec.

Section system.
Context `{Blake3} `{Hex} `{Sha256} `{CidCrate} `{Base32} `{SerdeJson} `{Timestamps} `{Texts} `{ViewerTexts} `{Tickets}.
Context `{!Codec LeafEntry, !LeafCodecLaws}.
Context `{!Codec IndexRecord, !CodecLaws IndexRecord index_record_dom}.
Context (D : list byte → Prop) `{!CollisionFree D}.

(** The daemon. *)
Context {St Dc : Type} `{!BlobStore St, !BlobStoreSpec St, !LocalStore St}.
Context `{!IrohDocs (Traced St) Dc, !IrohDocsLaws (Traced St) Dc}.
Context (state : AppState) (self : Publisher (Traced St) Dc).
Implicit Types w : World (Traced St) Dc.

(** A reader's node. *)
Context {St' Dc' : Type} `{!BlobStore St', !VerifiedStore St' D, !IrohDocs St' Dc', !IrohDocsLaws St' Dc'}.
Context (writable : string → bool) (background : St' * Dc' → St' * Dc').
Context (spawn_node : bool → ResolvedConfig → io (Session St' Dc') anyhow string)
  (import_doc : DocTicket → io (Session St' Dc') anyhow unit).
Context (background_verified : ∀ n, verified n.1 → verified (background n).1).

(** ** The writer's side *)

(** The bound of the invariant on the past can be moved to now. *)
Lemma winv_rebase t0 w : winv D t0 w → winv D (tables w) w.
Proof. intros [Hi He]. split; [|done]. destruct Hi. by split. Qed.

(** A submission that was queued is in the index, pending, under its
    partition. *)
Lemma submit_queued t0 req w resp w' :
  submit_record state req w = (Ok resp, w') → rs_status resp = 202%N → winv D t0 w → state_ok state →
  (seq_end w + 1 < 2 ^ 64)%N → Forall D (wlog w') →
  winv D t0 w' ∧ ∃ v x, canonical_value (rq_value req) = Ok v ∧ D (str_bytes v) ∧ stored w' v ∧ recs (tables w') !! rq_key req = Some x ∧
    ir_content_hash x = content_hash v ∧
    ir_partition_id x = partition_id_for_key (rq_key req) (top_level_partitions state).
Proof.
  intros Hr H202 Hw Hst Hs HD. unfold submit_record, mbind, io_bind in Hr.
  destruct (ingest_one state (rq_key req) (rq_value req) w) as [r1 w1] eqn:Ei.
  destruct (triple_ingest_one D t0 state (w_now w) (rq_key req) (rq_value req) Hst w r1 w1 Ei) as [_ Hpost].
  destruct r1 as [[o p]|e]; [|done].
  destruct o as [| |h]; [|by injection Hr as <- _|done]. injection Hr as _ ->.
  destruct (Hpost HD (conj Hw (conj eq_refl Hs))) as [Hw' (v & rec & Hv & _ & Hb & x & Hx & ->)]. simpl in *.
  destruct (validate_one_ok _ _ _ _ _ _ Hst Hv) as (_ & Hc & _ & _ & _ & Hh & Hp).
  split; [done|]. exists v, rec. split_and!; try done.
  destruct Hw' as [Hi _]. destruct (pi_store _ _ _ Hi) as [_ Hok]. by apply (Hok _ _ Hb).
Qed.

(** What is published has its content in the document's tree. *)
Lemma published_content w w' k x x' : winv D (tables w) w' →
  recs (tables w) !! k = Some x → recs (tables w') !! k = Some x' → ir_status x' = Published →
  published D (blobs w') ∧ ∃ root es e, doc_root (blobs w') (entries w') (ir_partition_id x) root ∧
    rep_root (blobs w') (Some root) es ∧ find_key le_key k es = Some e ∧ le_hash e = ir_content_hash x.
Proof.
  intros [Hi _] Hx Hx' Hp. split; [apply (pi_store _ _ _ Hi)|].
  destruct (ext_recs _ _ (pi_ext _ _ _ Hi) _ _ Hx) as (x1 & Hx1 & (Hc & _ & Hpid & _)).
  assert (x1 = x') as -> by congruence.
  destruct (published_entry D (tables w) w' k x' Hi Hx' Hp) as (root & es & e & Hdr & Hrep & He & _ & Hh).
  exists root, es, e. split_and!; [congruence|done|done|congruence].
Qed.

(** ** The reader's side *)

(** The replica holds, for the key, nothing yet or the writer's entry. *)
Definition synced (key : string) w (n : St' * Dc') : Prop :=
  ∀ h, doc_entries (St:=St') n.2 !! key = Some h → entries w !! key = Some h.

(** C1: What is accepted is what readers get.  Suppose a submission was
    answered [202] and the publisher has run on, among other submissions and
    failures of any kind, until the index calls the record published.  A
    reader who then asks for the key, with any part of the blobs in its
    store, whose replica shows for the partition nothing yet or the writer's
    entry, either gets exactly the bytes of the submitted value, or an error
    and nothing. *)
Theorem accepted_is_delivered t0 req w0 resp w1 clock ticks r w2 x polls cfg ephemeral s0 s rg s' :
  submit_record state req w0 = (Ok resp, w1) → rs_status resp = 202%N →
  winv D t0 w0 → state_ok state → (seq_end w0 + 1 < 2 ^ 64)%N →
  run self clock ticks w1 = (r, w2) → (Publisher.top_level_partitions self < 2 ^ 32)%N → Forall D (wlog w2) →
  recs (tables w2) !! rq_key req = Some x → ir_status x = Published →
  rc_top_level_partitions cfg = top_level_partitions state →
  let key := partition_key (partition_id_for_key (rq_key req) (top_level_partitions state)) in
  open_session spawn_node import_doc ephemeral cfg s0 = (Ok tt, s) → verified (ss_node s).1 →
  (∀ n, rtc (waiting background key) (ss_node s) n → synced key w2 n) →
  get_command writable background spawn_node import_doc polls cfg (rq_key req) None ephemeral s0 = (rg, s') →
  ∃ v, canonical_value (rq_value req) = Ok v ∧
    stdout s' = stdout s ++ (if is_ok rg then [str_bytes v; [x0a]] else []).
Proof.
  intros Hsub H202 Hw Hst Hseq Hrun Hparts HD Hx Hpub Hcfg key Hopen Hver Hsync Hget.
  assert (wlog w1 `prefix_of` wlog w2) as Hpre by by apply (triple_run D (tables w1) self clock ticks Hparts w1 r w2 Hrun).
  destruct (submit_queued t0 req w0 resp w1 Hsub H202 Hw Hst Hseq (prefix_Forall D _ _ Hpre HD))
    as [Hw1 (v & x1 & Hv & HDv & _ & Hx1 & Hh1 & Hp1)].
  assert (winv D (tables w1) w2) as Hw2.
  { destruct (triple_run D (tables w1) self clock ticks Hparts w1 r w2 Hrun) as [_ Hpost].
    specialize (Hpost HD (winv_rebase _ _ Hw1)). by destruct r. }
  destruct (published_content w1 w2 _ x1 x Hw2 Hx1 Hx Hpub)
    as [HC (root & es & e & (h & Hdoc & Hb) & Hrep & He & Hhe)].
  exists v. split; [exact Hv|].
  destruct (get_outcome D writable background spawn_node import_doc background_verified (blobs w2)
    _ _ _ _ _ _ _ _ _ HC Hopen Hver Hget) as [_ Hout].
  destruct (is_ok rg); [|by rewrite app_nil_r; destruct Hout]. rewrite Hcfg in Hout.
  destruct Hout as (root' & n & n1 & bytes & Hwait & Hn & Htree & [-> _]).
  destruct (root_read D _ n root' n1 (waiting_verified D background background_verified _ _ _ Hwait Hver) Hn)
    as (h' & Hh' & Hhash & HDr).
  apply (Hsync n Hwait) in Hh'. rewrite Hp1 in Hdoc. fold key in Hdoc. rewrite Hdoc in Hh'. injection Hh' as <-.
  destruct (HC _ _ Hb) as [Hhash' HDr']. assert (b32_list (hash_0 root') = b32_list (hash_0 root)) as Hroot.
  { eapply cf_inj; [done..|congruence]. }
  assert (root' = root) as ->. { destruct root', root. simpl in Hroot. f_equal. by apply b32_ext. }
  destruct (Htree es Hrep) as (e' & He' & Hhb & HDb). rewrite He in He'. injection He' as <-.
  f_equal. f_equal. eapply cf_inj; [done..|]. rewrite Hhb, Hhe, Hh1. done.
Qed.
End system.

(** ** A reader that has what was published *)

Section available.
Context `{Blake3} `{Hex} `{Sha256} `{CidCrate} `{Base32} `{SerdeJson} `{Timestamps} `{Texts} `{ViewerTexts} `{Tickets}.
Context `{!Codec LeafEntry, !LeafCodecLaws}.
Context `{!Codec IndexRecord, !CodecLaws IndexRecord index_record_dom}.
Context (D : list byte → Prop) `{!CollisionFree D}.
Context {St Dc : Type} `{!BlobStore St, !BlobStoreSpec St, !LocalStore St}.
Context `{!IrohDocs (Traced St) Dc, !IrohDocsLaws (Traced St) Dc}.
Context (state : AppState) (self : Publisher (Traced St) Dc).
Implicit Types w : World (Traced St) Dc.
Context {St' Dc' : Type} `{!BlobStore St', !BlobStoreSpec St', !ReliableStore St', !IrohDocs St' Dc'}.
Context (writable : string → bool) (background : St' * Dc' → St' * Dc').
Context (spawn_node : bool → ResolvedConfig → io (Session St' Dc') anyhow string)
  (import_doc : DocTicket → io (Session St' Dc') anyhow unit).

(** A root whose entry the replica shows and whose blob the store has. *)
Lemma root_found key (st : St') (d : Dc') h root :
  doc_get_one (St:=St') key d = (Ok (Some h), d) → contents st !! h = Some (b32_list (hash_0 root)) →
  get_named_root key (st, d) = (Ok (Some root), (st, d)).
Proof.
  intros Hd Hb. unfold get_named_root, mbind, io_bind, on_snd, on_fst, io_map_err. rewrite Hd. simpl.
  rewrite get_total, Hb. simpl. rewrite to_b32_list. by destruct root.
Qed.

(** C2: What is accepted becomes available.  Suppose a submission was
    answered [202], its row is among the oldest [max_pending] of the queue
    and not on the denylist, and the next publish cycle succeeds, whatever
    else is submitted meanwhile.  Then a reader whose replica shows the
    document's entry for the partition and whose store has, without failing,
    what the daemon's store had gets the value: [get] succeeds and prints
    exactly its bytes. *)
Theorem accepted_is_available t0 req w0 resp w1 n w2 seq polls cfg ephemeral s0 s :
  submit_record state req w0 = (Ok resp, w1) → rs_status resp = 202%N →
  winv D t0 w0 → state_ok state → (seq_end w0 + 1 < 2 ^ 64)%N →
  publish_cycle self w1 = (Ok n, w2) → Forall D (wlog w2) →
  (seq, rq_key req) ∈ take (max_pending self) (rows (t_queue (tables w1))) →
  rq_key req ∉ load_denylist (w_files w1) (denylist_path self) →
  rc_top_level_partitions cfg = top_level_partitions state →
  let key := partition_key (partition_id_for_key (rq_key req) (top_level_partitions state)) in
  open_session spawn_node import_doc ephemeral cfg s0 = (Ok tt, s) →
  blobs w1 ⊆ contents (ss_node s).1 → blobs w2 ⊆ contents (ss_node s).1 →
  doc_get_one (St:=St') key (ss_node s).2 = (Ok (entries w2 !! key), (ss_node s).2) →
  ∃ v s', canonical_value (rq_value req) = Ok v ∧
    get_command writable background spawn_node import_doc polls cfg (rq_key req) None ephemeral s0 = (Ok tt, s') ∧
    stdout s' = stdout s ++ [str_bytes v; [x0a]].
Proof.
  intros Hsub H202 Hw Hst Hseq Hcycle HD Hrow Hdeny Hcfg key Hopen Hb1 Hb2 Hdoc.
  destruct (triple_publish_cycle D (tables w1) self w1 w1 (Ok n) w2 Hcycle) as [Hpre Hpost].
  destruct (submit_queued D state t0 req w0 resp w1 Hsub H202 Hw Hst Hseq (prefix_Forall D _ _ Hpre HD))
    as [Hw1 (v & x1 & Hv & _ & Hval & Hx1 & Hh1 & Hp1)].
  destruct (Hpost HD (conj (winv_rebase D _ _ Hw1) (reflexivity w1))) as [Hw2 Hdone].
  destruct (Hdone _ Hrow) as (_ & _ & x & Hx & Hpub). simpl in Hx, Hpub. rewrite decide_False in Hpub by done.
  destruct (published_content D w1 w2 _ x1 x Hw2 Hx1 Hx Hpub)
    as [_ (root & es & e & (h & Hdr & Hb) & Hrep & He & Hhe)].
  rewrite Hp1 in Hdr. fold key in Hdr. rewrite Hdr in Hdoc.
  destruct (get_succeeds writable background spawn_node import_doc polls cfg (rq_key req) ephemeral s0 s root es e (str_bytes v))
    as (s' & Hget & Hout).
  - exact Hopen.
  - rewrite Hcfg. unfold get_partition_root. fold key. destruct (ss_node s) as [st d]. simpl in *.
    eapply root_found; [exact Hdoc|by eapply lookup_weaken].
  - by eapply rep_mono.
  - exact He.
  - rewrite Hhe, Hh1. by eapply lookup_weaken.
  - by exists v, s'.
Qed.
End available.

(** ** From a request to a reader's terminal *)

Section witnesses.
#[local] Existing Instances sample_blake3 sample_sha256 sample_hex sample_leaf_codec sample_leaf_laws
  sample_record_codec sample_record_laws sample_docs sample_docs_laws' sample_cid sample_base32 sample_json
  sample_timestamps sample_texts sample_tickets.
Abbreviation SampleWorld := (World (Traced MemoryBlobStore) (gmap string Hash)).
#[local] Instance reader_docs_laws : IrohDocsLaws MemoryBlobStore (gmap string Hash) := sample_docs_laws.

(** The submission, the publisher's run after it, and a reader on a copy of
    what it published. *)
Definition way_published : result anyhow unit * SampleWorld := run sample_publisher 0 [(31%N, false); (62%N, true)] sample_submit.2.
Definition way_session : Session MemoryBlobStore (gmap string Hash) :=
  mkSession (tr_store (w_node way_published.2).1, (w_node way_published.2).2) [] (λ _, None) [] true.
Definition way_client : ResolvedConfig := mkResolvedConfig "ticket" "flag" "storage" "flag" 256.
Definition way_opened : Session MemoryBlobStore (gmap string Hash) :=
  (open_session sample_spawn sample_import true way_client way_session).2.
Definition way_get : result anyhow unit * Session MemoryBlobStore (gmap string Hash) :=
  get_command (λ _, true) id sample_spawn sample_import 0 way_client "kc1" None true way_session.

Lemma way_cf : CollisionFree (λ b, b ∈ wlog way_published.2).
Proof. apply collision_free_of_check. vm_compute. reflexivity. Qed.
Lemma way_status : sample_status "kc1" way_published.2 = Some Published.
Proof. vm_compute. reflexivity. Qed.
Lemma way_get_ok : is_ok way_get.1 = true.
Proof. vm_compute. reflexivity. Qed.
Lemma way_verified : verified (D:=λ b, b ∈ wlog way_published.2) (ss_node way_opened).1.
Proof. apply (bool_decide_unpack _). vm_compute. exact I. Qed.
Lemma way_entries : doc_entries (St:=MemoryBlobStore) (ss_node way_opened).2 = entries way_published.2.
Proof. reflexivity. Qed.
Lemma way_opened_eq : open_session sample_spawn sample_import true way_client way_session = (Ok tt, way_opened).
Proof. reflexivity. Qed.
Lemma way_silent : stdout way_opened = [].
Proof. reflexivity. Qed.
Lemma way_get_eq : get_command (λ _, true) id sample_spawn sample_import 0 way_client "kc1" None true way_session
  = (way_get.1, way_get.2).
Proof. apply surjective_pairing. Qed.
Lemma way_run_eq : run sample_publisher 0 [(31%N, false); (62%N, true)] sample_submit.2 = (way_published.1, way_published.2).
Proof. apply surjective_pairing. Qed.
Lemma way_submit_eq : submit_record sample_state sample_request sample_world = (sample_submit.1, sample_submit.2).
Proof. apply surjective_pairing. Qed.
#[local] Opaque way_published way_get way_opened sample_submit.
Lemma way_accepted : ∃ resp, sample_submit.1 = Ok resp ∧ rs_status resp = 202%N.
Proof.
  pose proof sample_submit_status as Hs. destruct sample_submit.1 as [resp|]; [|done].
  injection Hs as Hs. by exists resp.
Qed.
Lemma way_record : ∃ x, recs (tables way_published.2) !! "kc1" = Some x ∧ ir_status x = Published.
Proof.
  pose proof way_status as Hs. unfold sample_status, read_record in Hs.
  unfold mbind, result_bind in Hs. unfold parse_record in Hs.
  destruct (t_records (db (w_index way_published.2)) !! "kc1") as [raw|] eqn:E; [|done].
  destruct (de raw) as [x|] eqn:Ep; [|done]. injection Hs as Hs. exists x. split; [|done]. apply recs_lookup.
  exact (ex_intro _ raw (conj E Ep)).
Qed.
(** Waiting without a sync leaves the replica as it is. *)
Definition same_replica (n n' : MemoryBlobStore * gmap string Hash) : Prop := n'.2 = n.2.
#[local] Instance same_replica_preorder : PreOrder same_replica.
Proof. split; [by intros n|]. unfold same_replica. intros n1 n2 n3. congruence. Qed.
Lemma root_same_replica key : steps_in same_replica (get_named_root key).
Proof.
  unfold get_named_root. apply steps_in_bind; [apply _|by intros [st d] r n' [= _ <-]|intros [h|]; [|steps]].
  apply steps_in_bind; [apply _| |intros [b|]; [destruct (to_b32 b)|]; steps].
  intros [st d] r n' Hr. by apply on_fst_run in Hr as (st1 & _ & ->).
Qed.
Lemma way_waiting key n n' : rtc (waiting (St:=MemoryBlobStore) (Dc:=gmap string Hash) id key) n n' → same_replica n n'.
Proof.
  induction 1 as [n|n1 n2 n3 Hst _ IH]; [done|]. etrans; [|exact IH]. destruct Hst as [n r n' Hr|n]; [|done].
  by eapply root_same_replica.
Qed.

Lemma accepted_is_delivered_witness : stdout way_get.2 = [str_bytes "{9}"; [x0a]].
Proof.
  pose proof way_cf as Hcf. destruct way_accepted as (resp & Hresp & H202). destruct way_record as (x & Hx & Hp).
  destruct (accepted_is_delivered (λ b, b ∈ wlog way_published.2) sample_state sample_publisher (λ _, true) id
    sample_spawn sample_import (λ n Hn, Hn) (tables sample_world) sample_request sample_world resp sample_submit.2 0
    [(31%N, false); (62%N, true)] way_published.1 way_published.2 x 0 way_client true way_session way_opened way_get.1 way_get.2)
    as (v & Hv & Hout).
  - rewrite <-Hresp. exact way_submit_eq.
  - exact H202.
  - by apply sample_world_ok.
  - exact sample_state_ok.
  - reflexivity.
  - exact way_run_eq.
  - reflexivity.
  - by apply Forall_forall.
  - exact Hx.
  - exact Hp.
  - reflexivity.
  - exact way_opened_eq.
  - exact way_verified.
  - intros n Hn h Hh. rewrite <-way_entries, <-Hh. by rewrite (way_waiting _ _ _ Hn).
  - exact way_get_eq.
  - rewrite Hout, way_silent, way_get_ok. vm_compute in Hv. injection Hv as <-. reflexivity.
Defined.

(** One cycle after the submission. *)
Definition way_cycle : result anyhow nat * SampleWorld := publish_cycle sample_publisher sample_submit.2.
Definition cycle_session : Session MemoryBlobStore (gmap string Hash) :=
  mkSession (tr_store (w_node way_cycle.2).1, (w_node way_cycle.2).2) [] (λ _, None) [] true.
Definition cycle_opened : Session MemoryBlobStore (gmap string Hash) :=
  (open_session sample_spawn sample_import true way_client cycle_session).2.
#[local] Transparent sample_submit.
Lemma cycle_cf : CollisionFree (λ b, b ∈ wlog way_cycle.2).
Proof. apply collision_free_of_check. vm_compute. reflexivity. Qed.
Lemma cycle_ok : is_ok way_cycle.1 = true.
Proof. vm_compute. reflexivity. Qed.
Lemma cycle_eq : publish_cycle sample_publisher sample_submit.2 = (way_cycle.1, way_cycle.2).
Proof. apply surjective_pairing. Qed.
Lemma cycle_row : ∃ seq, (seq, "kc1") ∈ take 10 (rows (t_queue (tables sample_submit.2))).
Proof.
  assert (existsb (λ it, bool_decide (it.2 = "kc1")) (take 10 (rows (t_queue (tables sample_submit.2)))) = true) as Hb
    by (vm_compute; reflexivity).
  apply existsb_exists in Hb as ([seq k] & Hin & Hk). apply bool_decide_eq_true in Hk. simpl in Hk. subst k.
  exists seq. by apply list_elem_of_In.
Qed.
Lemma cycle_allowed : "kc1" ∉ load_denylist (w_files sample_submit.2) (Some "denylist").
Proof. apply (bool_decide_unpack _). vm_compute. exact I. Qed.
Lemma cycle_opened_eq : open_session sample_spawn sample_import true way_client cycle_session = (Ok tt, cycle_opened).
Proof. reflexivity. Qed.
Lemma cycle_grows : map_Forall (λ h b, blobs way_cycle.2 !! h = Some b) (blobs sample_submit.2).
Proof. apply (bool_decide_unpack _). vm_compute. exact I. Qed.
Lemma cycle_contents : contents (ss_node cycle_opened).1 = blobs way_cycle.2.
Proof. reflexivity. Qed.
Lemma cycle_replica key : doc_get_one (St:=MemoryBlobStore) key (ss_node cycle_opened).2
  = (Ok (entries way_cycle.2 !! key), (ss_node cycle_opened).2).
Proof. reflexivity. Qed.
Lemma cycle_silent : stdout cycle_opened = [].
Proof. reflexivity. Qed.
#[local] Opaque way_cycle cycle_opened sample_submit.

Lemma accepted_is_available_witness : ∃ s',
  get_command (λ _, true) id sample_spawn sample_import 0 way_client "kc1" None true cycle_session = (Ok tt, s') ∧
  stdout s' = [str_bytes "{9}"; [x0a]].
Proof.
  pose proof cycle_cf as Hcf. destruct way_accepted as (resp & Hresp & H202). destruct cycle_row as [seq Hrow].
  assert (∃ n, way_cycle.1 = Ok n) as [n Hn] by (pose proof cycle_ok as Ho; destruct way_cycle.1 as [n|]; [by exists n|done]).
  destruct (accepted_is_available (λ b, b ∈ wlog way_cycle.2) sample_state sample_publisher (λ _, true) id
    sample_spawn sample_import (tables sample_world) sample_request sample_world resp sample_submit.2 n way_cycle.2 seq 0
    way_client true cycle_session cycle_opened) as (v & s' & Hv & Hget & Hout).
  - rewrite <-Hresp. exact way_submit_eq.
  - exact H202.
  - by apply sample_world_ok.
  - exact sample_state_ok.
  - reflexivity.
  - rewrite <-Hn. exact cycle_eq.
  - by apply Forall_forall.
  - exact Hrow.
  - exact cycle_allowed.
  - reflexivity.
  - exact cycle_opened_eq.
  - rewrite cycle_contents. apply map_subseteq_spec. exact cycle_grows.
  - by rewrite cycle_contents.
  - exact (cycle_replica _).
  - exists s'. split; [exact Hget|]. rewrite Hout, cycle_silent. vm_compute in Hv. by injection Hv as <-.
Defined.
End witnesses.
